(* ===== verification/_CoqProject ===== *)
-Q . S2P
Prelude.v
Stage.v
StageSql.v
Debounce.v
Limiter.v
Containment.v
FsModel.v
MoveFs.v
MoveSafety.v
MoveReplay.v
Reports.v
Dispatch.v
ExecTask.v
StateErr.v
Quarantine.v
Selection.v
Breaker.v
KubeObserve.v
CloudJobs.v
Callbacks.v
UploadReports.v
Recovery.v
ReplaySafety.v
Replay.v
Reconcile.v
ReconcileBudget.v
Mpeg.v
CueText.v
CueRead.v
CueRoundtrip.v
TextRepair.v
TagDisk.v
TagWrite.v
TagReport.v
Drain.v
DrainSafety.v
DrainWalk.v
BudgetReset.v
