(* ===== verification/Prelude.v ===== *)
(** * phaze: the verified core

    phaze organises a collection of live recordings.  A controller keeps files,
    proposals and per-stage results in PostgreSQL, batches and locks in Redis,
    and jobs on a SAQ broker; agents on the file servers move files and report
    back over HTTP; long recordings are analysed on compute agents or as
    Kubernetes Jobs, through a bounded cloud window.  This library translates the
    parts of [src/src/phaze/] that decide whether a file can be lost, done twice,
    reported falsely, charged wrongly or left behind, and proves what they
    promise.  Paths below are relative to [src/src/phaze/].

    ** Shared ground

    - Prelude: exceptions as [outcome], maps, lists, integer division, tactics.
    - StateErr: computations over a state that survives an exception, with the
      Hoare-style rules used by every file of the cloud window.

    ** The stage layer

    - Stage: [enums/stage.py].  Stages, the status ladder [resolve_status], the
      eligibility DAG.
    - StageSql: [services/stage_status.py] and the ledger-reaping clauses of
      [services/selected_source_consumers.py] and
      [tasks/_shared/stage_control.py], each SQL clause a boolean of a database
      and a files row.  Theorems: the SQL ladder is the Python one, SQL
      eligibility is the in-memory one, a ledger row is running, orphaned or
      resolved and never two of them, reaping keeps an owed backfill.

    ** Agents: watching and throttling

    - Debounce: [agent_watcher/debouncer.py].  Theorems: nothing is evicted
      without a grace period, nothing stays pending beyond twice its cap.
    - Limiter: [services/resizable_limiter.py], one event of the asyncio loop per
      step, cancellation included.  Theorems: token accounting, no lost wake-up,
      FIFO service, a release wakes the oldest waiter.

    ** Moving an approved file

    - Containment: [services/containment.py], [services/media_path_resolve.py]
      over directory trees with symbolic links.
    - FsModel: the file system (directory journals, fsync, power loss, devices,
      hard links, faults, files of others arriving).
    - MoveFs: [tasks/execution_filesystem.py].  MoveSafety: in every state a
      crash can expose the bytes are at the source or at the destination and
      nobody else's file changes; also after a power loss, when directories can be
      fsynced and no commit marker was left behind ([power]).  MoveReplay:
      completion, replay, refusal, and two gaps.
    - Quarantine: [services/quarantine_move.py], the rename of a junk companion
      into a hidden directory of its root, others acting between any two calls.
      Theorems: nothing is lost or overwritten while [lexists] does not fail (and
      what happens when it does), only approved bytes are answered for, a refusal
      moved nothing (save the three ends [moved_though] lists).
    - ExecTask: [tasks/execution.py], the job around the engine, any await of
      which can fail with or without effect or kill the worker; every attempt of
      the job is one run on the meta the previous ones left.  Its theorems speak of
      moves the engine returned from ([EngineReturned]): an engine that raises
      after the file has moved is reported failed ([marker_cleanup_reports_failed]).
    - Reports: [routers/agent_proposals.py], [routers/agent_execution.py], what
      the controller makes of the reports.
    - Dispatch: [services/execution_dispatch_protocol.py], the chunk plan of
      [services/execution_dispatch.py], and the Lua scripts and handler of
      [routers/agent_exec_batches.py].  Theorems: no batch is terminal before
      each of its sub-jobs is, the outcome is exact, a retried report counts once.

    ** The cloud window

    - Selection: [services/backend_selection.py], [services/cloud_budget.py].
    - Breaker: [services/backend_breaker.py], its trips, holds and probes.
    - CloudJobs: the [cloud_job] sidecar, its single awaiting writer
      ([services/backends/admission.py], [services/cloud_staging.py]), the three
      [dispatch] bodies of [services/backends/], multipart planning and staging
      of [services/s3_staging.py] and the parked enqueues.  A failing S3 call is a
      [ClientError], which the module wraps, or an error of the transport,
      which propagates.
    - Callbacks: [routers/agent_push.py] and the two stranded-row reapers.
    - UploadReports: [services/agent_s3_reports.py], the reports of an agent's
      upload, and the re-drive of a failed one.
    - KubeObserve: [tasks/cloud_reconcile_observation.py] and the pod classifier
      of [services/kube_staging.py].
    - Reconcile: a row's unit of work in [tasks/reconcile_cloud_jobs.py], and
      [tasks/submit_cloud_job.py].  ReconcileBudget: every Job created is paid
      for, over any interleaving of units, submits and uploads, but for those a
      submit makes again after its Job was removed while its task had yet to be
      acknowledged ([again]).
    - Drain: a tick of [tasks/release_awaiting_cloud.py] with the queries of
      [services/pipeline/cloud.py].  DrainSafety: no cap is overshot.
      DrainWalk: the walk ends and its counts are exact.

    How they meet: the drain asks Selection for a backend and Breaker for its
    holds, calls a [dispatch] of CloudJobs per file, commits once and fires the
    parked enqueues.  The row then leaves by a callback, an upload report, a
    reaper or the reconciler, and comes back to the drain through the awaiting
    writer.  DrainSafety states what the drain needs of those sessions as
    hypotheses on [others] (they take no slot); Callbacks and UploadReports
    prove it of theirs.

    ** Recovery

    - Recovery: [tasks/recovery_policy.py], [tasks/recovery_queries.py], the read
      phase of [tasks/reenqueue.py] and [tasks/ledger_reaper.py], over the tables
      of StageSql.  Theorems: recovery and the reaper share the ledger out (and the
      row neither of them ends), the reaper is idempotent.
    - ReplaySafety: [tasks/_shared/deterministic_key.py] and
      [tasks/_shared/replay_safety.py].  Theorem: the detector of time-limited
      payloads is exact to its depth.
    - Replay: [tasks/recovery_replay.py] and [recover_orphaned_work], an upload
      regenerated through [UploadReports.redrive_upload].  Theorems: only orphans
      are replayed, each accounted for, a failing regeneration is isolated (and
      the statement that is not).
    - BudgetReset: [services/cloud_attempts_reset.py] and its command.  Theorems:
      a reset gives back exactly the chain that burned out, and is all or nothing.

    ** Media files

    - Mpeg: [services/mpeg_frames.py] and [_write_splice] of
      [services/video_audio.py].  Theorems: the stream found is the least one, a
      spliced file needs no second splice.
    - CueText: [services/cue_generator.py].  CueRead: the CUE interpreter of
      [tracklist_providers/local_parser.py] and the line splitting of
      [tracklist_providers/local_syntax.py].  CueRoundtrip: reading a rendered
      sheet back.

    ** Tags

    - TextRepair: [services/text_repair.py], [services/pg_text.py].  Theorems:
      the repair undoes up to four misreadings of a clean text; the validator
      lets through exactly what PostgreSQL can store.
    - TagDisk: [services/tag_write_disk.py], [services/metadata_parsing.py],
      [services/tag_formats.py] and the tags of [extract_tags] in
      [services/metadata.py], over mutagen as an interface with laws for the
      keys the writers of a family use (what is put is given back, at once and
      after a save, where mutagen keeps it faithfully).
      Theorems: an undo restores the snapshot; a clean write is confirmed.
    - TagWrite: [services/tag_writer.py], [routers/agent_tag_writes.py],
      [tasks/tag_write.py] and the undo of [routers/tags.py], as a system of
      requests, jobs, attempts, messages and one lock per file.  Theorems: the
      anchor of an undo is the original whatever retries and deaths surround
      the write, one write at a time, a settled row is final, an undo reverts
      the head of the chain that replaying the rows leaves.
    - TagReport: what the agent sends, the controller takes; an undisturbed
      attempt settles its row.

    ** Conventions

    A call that awaits is a point where the environment acts: other sessions
    commit, files arrive, replies are lost, the worker dies.  Environments are
    arguments ([env], [net], [others], [events]), universally quantified in the
    safety theorems and restricted by named hypotheses where a theorem needs it.
    Integers of Python are [Z]; sizes and counts that index lists are [nat].
    Clocks are arguments.  A SQL statement is atomic; statements of a READ
    COMMITTED session may see commits of others between them.  Ghost fields
    ([routed], [created], [uncharged]) are written and never read by the code.

    ** Fuel

    The only loops with fuel are the ones the source bounds, or whose measure is
    its input: the drain's walk has one more page than the scan cap
    ([DrainWalk.walk_ends_and_counts] shows it is enough), name resolution one
    level per link of the tree (an expansion only nests on a link it is not yet
    expanding), the tag region walk [MAX_ID3V2_TAGS + 1] headers, a chain of
    frames [min_frames] or the probe limit, the rewriting of a CUE sheet one turn
    per character, decimal printing one turn per bit, the hash of a companion one
    read per byte ([Quarantine.quarantined_is_approved] shows the size is enough),
    the exclusive-create loop of a sheet [_MAX_VERSION_CLAIM_ATTEMPTS] turns.

    ** Not modelled

    - Page rendering: the HTML and JSON routers beyond the handlers named above,
      [web/], [templates/], the dashboards' counts and queries.
    - Signal processing: [services/analysis*.py] and [job_runner.py] drive
      essentia, ffmpeg and child processes.
    - Tag proposals and their review pages ([services/tag_proposal.py],
      [services/tag_comparison.py] but for its terminal subquery, the rest of
      [routers/tags.py]); set matching and the discovery and
      review of companions: [services/companion*.py], [services/junk_quarantine.py],
      [services/dedup*.py], [services/collision.py],
      [services/set_*.py], [services/filename_convention_learner.py],
      [services/harmonic_journey.py], the text provider clients and the
      plain-text tracklist interpreter.
    - The reapers of the broker's own table and the start-up backfill of the
      ledger: [tasks/active_reaper.py], [tasks/aborting_reaper.py],
      [tasks/recovery_backfill.py].
    - Configuration, authentication, telemetry, the CLI and the agents'
      start-up: pydantic settings and glue.
    - The file system of FsModel: directories exist durably once made; the others
      only add files, at paths that are free; a call that fails has the partial
      effects listed with it and no other.  Path lookup in Containment has no
      limit on the number of links (the kernel's 40) and no permission errors.
    - Within the modelled parts: log lines and metrics; the 24 h expiry of Redis
      keys; the Kubernetes manifest builder and client cache; a cluster call that
      fails has no effect; nothing else runs inside one unit of the reconciler;
      float CUE offsets and [parse_timestamp_string]; the doubles of utilisations
      and budget days are exact rationals; a ledger payload names no field of a
      SAQ job but those [Replay.clashes] lists; only a genre carries a list of
      values; no file is deleted and no owner changes while a tag write is
      pending; reviewed tags and source versions are one boolean.  [unicodedata], [str.lower],
      [str.casefold], [str()] of a JSON value that is not a string, [urlsplit]'s
      check of a host part, [sha256], fresh uuids, the mount table and the text of
      an OSError are parameters. *)
From Stdlib Require Export ZArith Lia.
From stdpp Require Export prelude gmap strings relations.
From stdpp Require Import options.

Declare Scope phaze_scope.
Delimit Scope phaze_scope with phaze.
Open Scope phaze_scope.

Create HintDb phaze.
Create Rewrite HintDb phaze.

(** ** Exceptions

    A Python call either returns or raises; [Raise] carries the exception. *)
Inductive outcome (E A : Type) : Type :=
| Ok (a : A)
| Raise (e : E).
Arguments Ok {E A} a.
Arguments Raise {E A} e.

Definition obind {E A B : Type} (m : outcome E A) (k : A -> outcome E B) : outcome E B :=
  match m with
  | Ok a => k a
  | Raise e => Raise e
  end.

Notation "'try!' x <- m ; k" := (obind m (fun x => k))
  (at level 90, x pattern, m at level 80, right associativity) : phaze_scope.

#[export] Instance outcome_eq_dec {E A} `{EqDecision E, EqDecision A} : EqDecision (outcome E A).
Proof. solve_decision. Defined.

Definition is_ok {E A} (m : outcome E A) : bool :=
  match m with Ok _ => true | Raise _ => false end.

Lemma pair_ok {A B} (x : A * B) (b : B) : x.2 = b -> x = (x.1, b).
Proof. destruct x. simpl. congruence. Qed.

(** ** Tactics *)

(** Split the boolean guards of the code into cases, keeping their equations. *)
Ltac guard_cases :=
  repeat match goal with
         | |- context [if ?b then _ else _] => destruct b eqn:?
         end.

Ltac guard_cases_in H :=
  repeat match type of H with
         | context [if ?b then _ else _] => destruct b eqn:?
         end.

(** Case analysis on every boolean atom of a propositional boolean goal. *)
Ltac bool_atom b :=
  lazymatch b with
  | (?x && _)%bool => bool_atom x
  | (?x || _)%bool => bool_atom x
  | negb ?x => bool_atom x
  | _ => destruct b eqn:?
  end.

Ltac bool_cases :=
  repeat (simpl; match goal with
                 | |- context [(?x && _)%bool] => bool_atom x
                 | |- context [(_ && ?x)%bool] => bool_atom x
                 | |- context [(?x || _)%bool] => bool_atom x
                 | |- context [(_ || ?x)%bool] => bool_atom x
                 | |- context [negb ?x] => bool_atom x
                 | |- context [if ?x then _ else _] => bool_atom x
                 end); simpl.

(** Turn boolean facts about integers and booleans into propositions. *)
Ltac bool_prop :=
  repeat match goal with
         | H : (_ && _)%bool = true |- _ => apply andb_true_iff in H; destruct H
         | H : (_ || _)%bool = false |- _ => apply orb_false_iff in H; destruct H
         | H : negb _ = true |- _ => apply negb_true_iff in H
         | H : negb _ = false |- _ => apply negb_false_iff in H
         | H : (_ <=? _)%Z = true |- _ => apply Z.leb_le in H
         | H : (_ <=? _)%Z = false |- _ => apply Z.leb_gt in H
         | H : (_ <? _)%Z = true |- _ => apply Z.ltb_lt in H
         | H : (_ <? _)%Z = false |- _ => apply Z.ltb_ge in H
         | H : (_ =? _)%Z = true |- _ => apply Z.eqb_eq in H
         | H : (_ =? _)%Z = false |- _ => apply Z.eqb_neq in H
         end.

(** ** Python's insertion-ordered dict

    [d\[k\] = v] overwrites in place when the key is present and appends
    otherwise; iteration follows insertion order. *)
Section dict.
Context {K V : Type} `{EqDecision K}.
Implicit Types (k : K) (v : V) (d : list (K * V)).

Fixpoint dict_get k d : option V :=
  match d with
  | [] => None
  | (k', v') :: d' => if decide (k = k') then Some v' else dict_get k d'
  end.

Fixpoint dict_set k v d : list (K * V) :=
  match d with
  | [] => [(k, v)]
  | (k', v') :: d' => if decide (k = k') then (k, v) :: d' else (k', v') :: dict_set k v d'
  end.

Fixpoint dict_pop k d : list (K * V) :=
  match d with
  | [] => []
  | (k', v') :: d' => if decide (k = k') then d' else (k', v') :: dict_pop k d'
  end.

Definition keys d : list K := map fst d.

Lemma dict_get_set k k' v d :
  dict_get k (dict_set k' v d) = if decide (k = k') then Some v else dict_get k d.
Proof.
  induction d as [|[a b] d IH]; simpl.
  - by destruct (decide (k = k')).
  - destruct (decide (k' = a)) as [->|]; simpl; [|rewrite IH]; repeat case_decide; congruence.
Qed.

Lemma elem_of_keys_get k d : k ∈ keys d <-> is_Some (dict_get k d).
Proof.
  unfold keys. induction d as [|[a b] d IH]; simpl.
  - rewrite elem_of_nil. split; [done|]. by intros [? ?].
  - rewrite elem_of_cons. case_decide as Hk; [|rewrite IH; tauto].
    split; [by eexists|auto].
Qed.

Lemma dict_get_None k d : dict_get k d = None <-> k ∉ keys d.
Proof. rewrite elem_of_keys_get, eq_None_not_Some. done. Qed.

Lemma elem_of_keys_set k k' v d : k ∈ keys (dict_set k' v d) <-> k = k' \/ k ∈ keys d.
Proof.
  rewrite !elem_of_keys_get, dict_get_set. case_decide; [|tauto].
  split; [auto|]. intros _. by eexists.
Qed.

(** Overwriting keeps the iteration order; a new key goes last. *)
Lemma keys_dict_set_in k v d : k ∈ keys d -> keys (dict_set k v d) = keys d.
Proof.
  unfold keys. induction d as [|[a b] d IH]; simpl; [by rewrite elem_of_nil|].
  rewrite elem_of_cons. destruct (decide (k = a)) as [->|Hne]; simpl; [done|].
  intros [?|Hin]; [done|]. by rewrite IH.
Qed.

Lemma keys_dict_set_notin k v d : k ∉ keys d -> dict_set k v d = d ++ [(k, v)].
Proof.
  unfold keys. induction d as [|[a b] d IH]; simpl; [done|].
  rewrite elem_of_cons. intros Hn. rewrite decide_False by tauto.
  rewrite IH; [done|tauto].
Qed.

Lemma NoDup_dict_set k v d : NoDup (keys d) -> NoDup (keys (dict_set k v d)).
Proof.
  intros Hd. destruct (decide (k ∈ keys d)) as [Hin|Hn].
  - by rewrite keys_dict_set_in.
  - rewrite keys_dict_set_notin by done. unfold keys. rewrite fmap_app.
    apply NoDup_app; split; [done|]. split; [|apply NoDup_singleton].
    intros x Hx. simpl. rewrite elem_of_cons, elem_of_nil. naive_solver.
Qed.

Lemma elem_of_dict_pop k p d : p ∈ dict_pop k d -> p ∈ d.
Proof.
  induction d as [|[a b] d IH]; simpl; [done|].
  case_decide; rewrite ?elem_of_cons; naive_solver.
Qed.

Lemma dict_get_pop_ne k k' d : k <> k' -> dict_get k (dict_pop k' d) = dict_get k d.
Proof.
  intros Hne. induction d as [|[a b] d IH]; simpl; [done|].
  repeat case_decide; simpl; repeat case_decide; congruence.
Qed.

Lemma dict_pop_absent k d : dict_get k d = None -> dict_pop k d = d.
Proof.
  induction d as [|[a b] d IH]; simpl; [done|].
  case_decide; [done|]. intros ?. by rewrite IH.
Qed.

Lemma dict_get_pop_eq k d : NoDup (keys d) -> dict_get k (dict_pop k d) = None.
Proof.
  unfold keys. induction d as [|[a b] d IH]; simpl; [done|].
  rewrite NoDup_cons. intros [Hna Hd].
  case_decide as Hk; [subst; by apply dict_get_None|].
  simpl. rewrite decide_False by done. auto.
Qed.

Lemma NoDup_dict_pop k d : NoDup (keys d) -> NoDup (keys (dict_pop k d)).
Proof.
  unfold keys. induction d as [|[a b] d IH]; simpl; [done|].
  rewrite NoDup_cons. intros [Hna Hd]. case_decide; [done|]. simpl. constructor; [|auto].
  intros (p & -> & Hin)%list_elem_of_fmap. apply Hna.
  apply list_elem_of_fmap_2. eauto using elem_of_dict_pop.
Qed.

Lemma dict_get_elem k v d : dict_get k d = Some v -> (k, v) ∈ d.
Proof.
  induction d as [|[a b] d IH]; simpl; [done|].
  case_decide; rewrite elem_of_cons; naive_solver.
Qed.

Lemma elem_dict_get k v d : NoDup (keys d) -> (k, v) ∈ d -> dict_get k d = Some v.
Proof.
  unfold keys. induction d as [|[a b] d IH]; simpl; [by rewrite elem_of_nil|].
  rewrite NoDup_cons, elem_of_cons. intros [Hna Hd] [[= -> ->]|Hin].
  - by rewrite decide_True.
  - rewrite decide_False; [auto|]. intros ->. apply Hna.
    by apply (list_elem_of_fmap_2 fst _ (a, v)).
Qed.
End dict.

#[export] Hint Resolve NoDup_dict_set NoDup_dict_pop : phaze.
