(* ===== verification/Stage.v ===== *)
(** * Pipeline stages: [enums/stage.py]

    The DB-free half of the per-stage status layer.  Statuses and stages are
    Python [StrEnum]s, so a status map read back through SQL or JSON carries
    plain strings; the maps here are keyed by stage and hold strings, and
    [parse_status] is the [Status(...)] coercion the code applies. *)
From S2P Require Import Prelude.
From stdpp Require Import options.

Inductive Stage : Type :=
| METADATA | ANALYZE | TRACKLIST | PROPOSE | REVIEW | APPLY.

Inductive Status : Type :=
| NOT_STARTED | IN_FLIGHT | DONE | SKIPPED | FAILED.

#[export] Instance Stage_eq_dec : EqDecision Stage.
Proof. solve_decision. Defined.
#[export] Instance Status_eq_dec : EqDecision Status.
Proof. solve_decision. Defined.

Definition stage_value (s : Stage) : string :=
  match s with
  | METADATA => "metadata" | ANALYZE => "analyze" | TRACKLIST => "tracklist"
  | PROPOSE => "propose" | REVIEW => "review" | APPLY => "apply"
  end.

Definition status_value (s : Status) : string :=
  match s with
  | NOT_STARTED => "not_started" | IN_FLIGHT => "in_flight" | DONE => "done"
  | SKIPPED => "skipped" | FAILED => "failed"
  end.

(** [Status(text)]: [ValueError] on a string that names no member. *)
Definition parse_status (t : string) : outcome string Status :=
  if decide (t = "not_started") then Ok NOT_STARTED
  else if decide (t = "in_flight") then Ok IN_FLIGHT
  else if decide (t = "done") then Ok DONE
  else if decide (t = "skipped") then Ok SKIPPED
  else if decide (t = "failed") then Ok FAILED
  else Raise "ValueError".

Lemma parse_status_value s : parse_status (status_value s) = Ok s.
Proof. by destruct s. Qed.

Lemma parse_status_inv t s : parse_status t = Ok s -> t = status_value s.
Proof. unfold parse_status. intros H. repeat case_decide; by simplify_eq. Qed.

Lemma status_value_inj s t : status_value s = status_value t -> s = t.
Proof. by destruct s, t. Qed.

(** ** The tables *)

Definition ELIGIBILITY_DAG (s : Stage) : list Stage :=
  match s with
  | METADATA => [] | ANALYZE => [] | TRACKLIST => []
  | PROPOSE => [METADATA; ANALYZE]
  | REVIEW => [PROPOSE]
  | APPLY => [REVIEW]
  end.

(** The two tables are dicts over the enrich stages only; [None] is an absent key. *)
Definition FAILURE_IS_TERMINAL (s : Stage) : option bool :=
  match s with ANALYZE => Some true | METADATA => Some true | _ => None end.

Definition ELIGIBLE_AFTER_FAILURE (s : Stage) : option bool :=
  match s with ANALYZE => Some false | METADATA => Some true | _ => None end.

(** ** Status resolution

    [scalars] is the mapping [resolve_status] reads; a field at its default
    stands for an absent key.  Timestamps are only tested against [None]. *)
Record scalars : Type := Scalars {
  completed_at : option Z;
  failed_at : option Z;
  row_present : bool;
  failed : bool;
  inflight : bool;
  skipped : bool;
}.

Definition _analyze_status (completed failed : option Z) (inflight skipped : bool) : Status :=
  if inflight then IN_FLIGHT
  else match completed with
       | Some _ => DONE
       | None => if skipped then SKIPPED
                 else match failed with Some _ => FAILED | None => NOT_STARTED end
       end.

Definition _metadata_status (row_present : bool) (failed : option Z) (inflight skipped : bool) : Status :=
  if inflight then IN_FLIGHT
  else if row_present && (match failed with None => true | Some _ => false end) then DONE
  else if skipped then SKIPPED
  else match failed with Some _ => FAILED | None => NOT_STARTED end.

Definition _presence_status (present failed inflight : bool) : Status :=
  if inflight then IN_FLIGHT
  else if present then DONE
  else if failed then FAILED
  else NOT_STARTED.

Definition _propose_status (row_present failed inflight : bool) : Status :=
  _presence_status row_present failed inflight.
Definition _review_status (row_present failed inflight : bool) : Status :=
  _presence_status row_present failed inflight.
Definition _apply_status (row_present failed inflight : bool) : Status :=
  _presence_status row_present failed inflight.

Definition resolve_status (stage : Stage) (sc : scalars) : Status :=
  match stage with
  | ANALYZE => _analyze_status (completed_at sc) (failed_at sc) (inflight sc) (skipped sc)
  | METADATA => _metadata_status (row_present sc) (failed_at sc) (inflight sc) (skipped sc)
  | TRACKLIST => _presence_status (row_present sc) (failed sc) (inflight sc)
  | PROPOSE => _propose_status (row_present sc) (failed sc) (inflight sc)
  | REVIEW => _review_status (row_present sc) (failed sc) (inflight sc)
  | APPLY => _apply_status (row_present sc) (failed sc) (inflight sc)
  end.

(** ** Domain completion and eligibility over a status map *)

Definition status_map : Type := Stage -> option string.

(** [status_map.get(stage, Status.NOT_STARTED)] *)
Definition sm_get (m : status_map) (s : Stage) : string := default (status_value NOT_STARTED) (m s).

Definition domain_completed (m : status_map) (stage : Stage) : outcome string bool :=
  match FAILURE_IS_TERMINAL stage with
  | None => Raise "ValueError"
  | Some terminal =>
      try! st <- parse_status (sm_get m stage);
      Ok (bool_decide (st = DONE \/ st = SKIPPED) || (bool_decide (st = FAILED) && terminal))
  end.

Definition upstream_satisfied (status : string) : outcome string bool :=
  try! st <- parse_status status;
  Ok (bool_decide (st = DONE \/ st = SKIPPED)).

(** [all(...)] over a generator: stops at the first [False]. *)
Fixpoint all_upstream (m : status_map) (us : list Stage) : outcome string bool :=
  match us with
  | [] => Ok true
  | u :: us' =>
      try! ok <- upstream_satisfied (sm_get m u);
      if (ok : bool) then all_upstream m us' else Ok false
  end.

Definition eligible (m : status_map) (stage : Stage) (has_approved_proposal : bool) : outcome string bool :=
  match stage, ELIGIBLE_AFTER_FAILURE stage with
  | (METADATA | ANALYZE), Some after_failure =>
      try! status <- parse_status (sm_get m stage);
      Ok (negb (bool_decide (status = DONE \/ status = IN_FLIGHT \/ status = SKIPPED))
          && (negb (bool_decide (status = FAILED)) || after_failure))
  | APPLY, _ =>
      Ok (has_approved_proposal && negb (bool_decide (sm_get m APPLY = status_value DONE)))
  | _, _ =>
      try! upstream_met <- all_upstream m (ELIGIBILITY_DAG stage);
      Ok ((upstream_met : bool) && negb (bool_decide (sm_get m stage = status_value DONE)))
  end.

(** ** Properties *)

(** The ladder [in_flight > done > skipped > failed > not_started], read as
    one function of five facts about a stage. *)
Definition ladder (inflight done skipped failed : bool) : Status :=
  if inflight then IN_FLIGHT else if done then DONE
  else if skipped then SKIPPED else if failed then FAILED else NOT_STARTED.

Lemma resolve_status_ladder stage sc :
  resolve_status stage sc =
    ladder (inflight sc)
      match stage with
      | ANALYZE => bool_decide (is_Some (completed_at sc))
      | METADATA => row_present sc && bool_decide (failed_at sc = None)
      | _ => row_present sc
      end
      match stage with ANALYZE | METADATA => skipped sc | _ => false end
      match stage with ANALYZE | METADATA => bool_decide (is_Some (failed_at sc)) | _ => failed sc end.
Proof. destruct sc as [[] [] [] [] [] []], stage; reflexivity. Qed.

(** A status map that came out of the resolver never makes the coercion raise. *)
Definition well_typed (m : status_map) : Prop :=
  forall s t, m s = Some t -> exists st, t = status_value st.

Lemma well_typed_parse m s : well_typed m -> exists st, parse_status (sm_get m s) = Ok st /\ sm_get m s = status_value st.
Proof.
  intros Hm. unfold sm_get. destruct (m s) as [t|] eqn:E; simpl.
  - destruct (Hm _ _ E) as [st ->]. exists st. split; [apply parse_status_value|done].
  - by exists NOT_STARTED.
Qed.

Lemma all_upstream_ok m us :
  well_typed m ->
  all_upstream m us = Ok (forallb (fun u => bool_decide (sm_get m u = "done" \/ sm_get m u = "skipped")) us).
Proof.
  intros Hm. induction us as [|u us IH]; simpl; [done|].
  unfold upstream_satisfied. destruct (well_typed_parse m u Hm) as (st & -> & ->). simpl.
  by destruct st.
Qed.

(** Downstream gating.  With every upstream status well formed, [propose]
    is eligible exactly when metadata and analyze are each done or
    force-skipped and no proposal exists; [review] exactly when [propose] is
    done or skipped and review is not done; [tracklist] has no upstream, so it
    is eligible exactly when not done; [apply] ignores the review bucket and
    asks for an approved proposal instead. *)
Theorem downstream_eligibility m approved :
  well_typed m ->
  let sat s := bool_decide (sm_get m s = "done" \/ sm_get m s = "skipped") in
  let undone s := negb (bool_decide (sm_get m s = "done")) in
  eligible m PROPOSE approved = Ok (sat METADATA && sat ANALYZE && undone PROPOSE) /\
  eligible m REVIEW approved = Ok (sat PROPOSE && undone REVIEW) /\
  eligible m TRACKLIST approved = Ok (undone TRACKLIST) /\
  eligible m APPLY approved = Ok (approved && undone APPLY).
Proof.
  intros Hm. unfold eligible. rewrite !all_upstream_ok by done. simpl.
  rewrite !andb_true_r. auto.
Qed.

Lemma downstream_eligibility_witness :
  let m s := match s with METADATA => Some "skipped" | ANALYZE => Some "done" | _ => None end in
  well_typed m /\ eligible m PROPOSE false = Ok true.
Proof.
  assert (Hm : well_typed (fun s => match s with METADATA => Some "skipped" | ANALYZE => Some "done" | _ => None end)).
  { intros [] t; simpl; intros [= <-]; [by exists SKIPPED|by exists DONE]. }
  split; [exact Hm|]. exact (proj1 (downstream_eligibility _ false Hm)).
Defined.
