(* ===== verification/StageSql.v ===== *)
(** * SQL twin of the stage layer: [services/stage_status.py]

    A clause is a boolean of the database and of the enclosing query's [files]
    row.  Every probe is an [EXISTS], so no clause is ever NULL and boolean
    connectives are two-valued.  Tables with a unique key are maps on it
    ([analysis], [metadata], [cloud_job] on [file_id]; [scheduling_ledger] and
    [saq_jobs] on [key]; [stage_skip] on the pair); the others are row lists. *)
From S2P Require Import Prelude Stage.
From stdpp Require Import options.

Record file_row : Type := File { f_id : string; f_missing_at : option Z }.
Record analysis_row : Type := Analysis { a_completed_at : option Z; a_failed_at : option Z }.
Record metadata_row : Type := Metadata { m_failed_at : option Z }.
Record proposal_row : Type := Proposal { p_id : string; p_file_id : string; p_status : string }.
Record execution_row : Type := Execution { e_proposal_id : string; e_status : string }.
Record ledger_row : Type := Ledger { l_enqueued_at : Z; l_terminal_at : option Z }.
Record selection_row : Type := Selection { s_media_id : string; s_kind : string; s_observation_id : string }.

(** [o_tracks]: length of the observation payload's [tracks] array, [None]
    when that JSON value is not an array. *)
Record observation_row : Type := Observation { o_id : string; o_tracks : option nat }.

Record db : Type := Db {
  analysis : gmap string analysis_row;
  metadata : gmap string metadata_row;
  stage_skip : gset (string * string);
  proposals : list proposal_row;
  execution_log : list execution_row;
  scheduling_ledger : gmap string ledger_row;
  saq_jobs : gmap string string;
  cloud_job : gmap string string;
  dedup_resolution : list string;
  selections : list selection_row;
  observations : list observation_row;
  tracklists : list string;
}.

Definition clause : Type := db -> file_row -> bool.

(** ** File-level predicates *)

Definition dedup_resolved_clause : clause := fun d f =>
  existsb (fun fid => bool_decide (fid = f_id f)) (dedup_resolution d).

Definition applied_clause : clause := fun d f =>
  existsb (fun p => bool_decide (p_file_id p = f_id f) && bool_decide (p_status p = "executed")) (proposals d).

Definition explicit_tracklist_clause : clause := fun d f =>
  existsb (fun s => bool_decide (s_media_id s = f_id f) && bool_decide (s_kind s = "tracklist")) (selections d).

Definition authoritative_tracklist_clause : clause := fun d f =>
  let selected :=
    existsb (fun s => existsb (fun o =>
        bool_decide (o_id o = s_observation_id s) && bool_decide (s_media_id s = f_id f)
        && bool_decide (s_kind s = "tracklist") && bool_decide (0 < default 0 (o_tracks o)))
      (observations d)) (selections d) in
  let legacy := existsb (fun fid => bool_decide (fid = f_id f)) (tracklists d) in
  selected || (negb (explicit_tracklist_clause d f) && legacy).

(** ** The per-stage ladder *)

(** [execution_log] joined with [proposals] on [proposal_id]. *)
Definition execution_with (status : string) : clause := fun d f =>
  existsb (fun e => existsb (fun p =>
      bool_decide (e_proposal_id e = p_id p) && bool_decide (p_file_id p = f_id f) && bool_decide (e_status e = status))
    (proposals d)) (execution_log d).

Definition is_not_null (t : option Z) : bool := match t with Some _ => true | None => false end.

Definition done_clause (stage : Stage) : clause := fun d f =>
  match stage with
  | ANALYZE => match analysis d !! f_id f with Some r => is_not_null (a_completed_at r) | None => false end
  | METADATA => match metadata d !! f_id f with Some r => negb (is_not_null (m_failed_at r)) | None => false end
  | TRACKLIST => authoritative_tracklist_clause d f
  | PROPOSE | REVIEW => existsb (fun p => bool_decide (p_file_id p = f_id f)) (proposals d)
  | APPLY => execution_with "completed" d f
  end.

Definition skipped_clause (stage : Stage) : outcome string clause :=
  match ELIGIBLE_AFTER_FAILURE stage with
  | None => Raise "ValueError"
  | Some _ => Ok (fun d f => bool_decide ((f_id f, stage_value stage) ∈ stage_skip d))
  end.

Definition satisfied_clause (stage : Stage) : outcome string clause :=
  try! skip <- skipped_clause stage;
  Ok (fun d f => done_clause stage d f || skip d f).

Definition failed_clause (stage : Stage) : clause := fun d f =>
  match stage with
  | ANALYZE => match analysis d !! f_id f with Some r => is_not_null (a_failed_at r) | None => false end
  | METADATA => match metadata d !! f_id f with Some r => is_not_null (m_failed_at r) | None => false end
  | TRACKLIST => false
  | PROPOSE | REVIEW =>
      existsb (fun p => bool_decide (p_file_id p = f_id f) && bool_decide (p_status p = "failed")) (proposals d)
  | APPLY => execution_with "failed" d f
  end.

(** [STAGE_TO_FUNCTION] of [tasks/_shared/stage_control.py]. *)
Definition STAGE_TO_FUNCTION (stage : Stage) : option string :=
  match stage with METADATA => Some "extract_file_metadata" | ANALYZE => Some "process_file" | _ => None end.

Definition ledger_key_for_function (func_name : string) (f : file_row) : string :=
  func_name +:+ ":" +:+ f_id f.

Definition inflight_for_function (func_name : string) : clause := fun d f =>
  bool_decide (is_Some (scheduling_ledger d !! ledger_key_for_function func_name f)).

Definition inflight_clause (stage : Stage) : clause :=
  match STAGE_TO_FUNCTION stage with
  | None => fun _ _ => false
  | Some func_name => inflight_for_function func_name
  end.

Definition domain_completed_clause (stage : Stage)
    (skipped_override done_override failed_override : option clause) : outcome string clause :=
  match FAILURE_IS_TERMINAL stage with
  | None => Raise "ValueError"
  | Some terminal =>
      try! skip <- (match skipped_override with Some c => Ok c | None => skipped_clause stage end);
      Ok (fun d f =>
            default (done_clause stage) done_override d f
            || skip d f
            || (terminal && default (failed_clause stage) failed_override d f))
  end.

Definition eligible_clause (stage : Stage) : outcome string clause :=
  match ELIGIBLE_AFTER_FAILURE stage with
  | None => Raise "ValueError"
  | Some after_failure =>
      try! skip <- skipped_clause stage;
      Ok (fun d f =>
            negb (inflight_clause stage d f) && negb (done_clause stage d f) && negb (skip d f)
            && (after_failure || negb (failed_clause stage d f)))
  end.

(** Joined with the file's own [cloud_job] row ([status = None]: no row, so
    the INNER JOIN drops the file). *)
Definition awaiting_candidate_clause (skipped_override done_override failed_override : option clause) : outcome string clause :=
  try! complete <- domain_completed_clause ANALYZE skipped_override done_override failed_override;
  Ok (fun d f =>
        bool_decide (cloud_job d !! f_id f = Some "awaiting")
        && negb (inflight_clause ANALYZE d f) && negb (complete d f)).

Definition _LIVE_SAQ_STATUSES : list string := ["queued"; "active"].
Definition _CLOUD_BUSY_STATUSES : list string := ["uploading"; "uploaded"; "submitted"; "running"; "awaiting"].

Definition status_in (allowed : list string) (row : option string) : bool :=
  match row with Some st => bool_decide (st ∈ allowed) | None => false end.

Definition live_job_for_function (func_name : string) : clause := fun d f =>
  status_in _LIVE_SAQ_STATUSES (saq_jobs d !! ledger_key_for_function func_name f).

Definition live_job_clause (stage : Stage) : clause :=
  match STAGE_TO_FUNCTION stage with
  | None => fun _ _ => false
  | Some func_name => live_job_for_function func_name
  end.

Definition cloud_busy_clause : clause := fun d f =>
  status_in _CLOUD_BUSY_STATUSES (cloud_job d !! f_id f).

Definition running_clause (stage : Stage) : clause := fun d f =>
  match stage with
  | ANALYZE => live_job_clause stage d f || cloud_busy_clause d f
  | _ => live_job_clause stage d f
  end.

Definition not_running_clause (stage : Stage) : clause := fun d f =>
  match stage with
  | ANALYZE => negb (live_job_clause stage d f) && negb (cloud_busy_clause d f)
  | _ => negb (live_job_clause stage d f)
  end.

(** ** Recovery: orphaned against resolved ledger rows *)

(** [STAGE_TO_FUNCTION["metadata"]] and [STAGE_TO_FUNCTION["analyze"]] are the
    two literal keys below. *)
Definition _metadata_orphaned_retry_clause : clause := fun d f =>
  match scheduling_ledger d !! ledger_key_for_function "extract_file_metadata" f, metadata d !! f_id f with
  | Some l, Some m =>
      match m_failed_at m with Some t => bool_decide (l_enqueued_at l > t)%Z | None => false end
  | _, _ => false
  end.

Definition _analyze_orphaned_backfill_clause : clause := fun d f =>
  match scheduling_ledger d !! ledger_key_for_function "process_file" f, analysis d !! f_id f with
  | Some l, Some a =>
      match a_completed_at a with
      | Some t => bool_decide (l_enqueued_at l > t)%Z && negb (is_not_null (l_terminal_at l))
      | None => false
      end
  | _, _ => false
  end.

Definition _recovery_domain_completed_clause (stage : Stage) : outcome string clause :=
  try! complete <- domain_completed_clause stage None None None;
  match stage with
  | ANALYZE =>
      try! skip <- skipped_clause stage;
      Ok (fun d f => complete d f && (skip d f || negb (_analyze_orphaned_backfill_clause d f)))
  | _ => Ok (fun d f => complete d f && negb (_metadata_orphaned_retry_clause d f))
  end.

Definition orphaned_clause (stage : Stage) : outcome string clause :=
  try! complete <- _recovery_domain_completed_clause stage;
  Ok (fun d f => inflight_clause stage d f && not_running_clause stage d f && negb (complete d f)).

Definition resolved_ledger_clause (stage : Stage) : outcome string clause :=
  try! complete <- _recovery_domain_completed_clause stage;
  Ok (fun d f => inflight_clause stage d f && not_running_clause stage d f && complete d f).

Definition cloud_lane_completed_clause : outcome string clause :=
  try! complete <- domain_completed_clause ANALYZE None None None;
  Ok (fun d f => bool_decide (cloud_job d !! f_id f = Some "succeeded") || complete d f).

Definition resolved_cloud_ledger_clause (func_name : string) : outcome string clause :=
  try! complete <- cloud_lane_completed_clause;
  Ok (fun d f =>
        inflight_for_function func_name d f && negb (live_job_for_function func_name d f)
        && negb (cloud_busy_clause d f) && complete d f).

(** ** The CASE ladders *)

Fixpoint sql_case {A} (branches : list (clause * A)) (else_ : A) (d : db) (f : file_row) : A :=
  match branches with
  | [] => else_
  | (c, v) :: rest => if c d f then v else sql_case rest else_ d f
  end.

Definition stage_status_case (stage : Stage) (d : db) (f : file_row) : string :=
  let skip_branch :=
    match skipped_clause stage with Ok c => [(c, status_value SKIPPED)] | Raise _ => [] end in
  sql_case
    ([(inflight_clause stage, status_value IN_FLIGHT); (done_clause stage, status_value DONE)]
     ++ skip_branch ++ [(failed_clause stage, status_value FAILED)])
    (status_value NOT_STARTED) d f.

Definition MISSING_BUCKET : string := "missing".

Definition missing_clause : clause := fun _ f => is_not_null (f_missing_at f).

Definition counted_failed_clause (stage : Stage) : clause := fun d f =>
  failed_clause stage d f && negb (missing_clause d f).

Definition display_status_case (stage : Stage) (d : db) (f : file_row) : string :=
  let base := stage_status_case stage d f in
  if bool_decide (base = status_value FAILED) && missing_clause d f then MISSING_BUCKET else base.

Definition STAGE_STATUS_DISPLAY_ORDER : list Status := [DONE; IN_FLIGHT; NOT_STARTED; FAILED; SKIPPED].

Fixpoint rank_of (v : string) (order : list Status) (n : nat) : nat :=
  match order with
  | [] => n
  | s :: order' => if decide (v = status_value s) then n else rank_of v order' (S n)
  end.

Definition stage_status_sort_case (stage : Stage) (d : db) (f : file_row) : nat :=
  rank_of (stage_status_case stage d f) STAGE_STATUS_DISPLAY_ORDER 0.

(** ** Reading the same rows for the Python resolver

    What the equivalence harness reads back for each stage before it calls
    [resolve_status]. *)
Definition load_scalars (stage : Stage) (d : db) (f : file_row) : scalars :=
  let skip := bool_decide ((f_id f, stage_value stage) ∈ stage_skip d) in
  let inflight := inflight_clause stage d f in
  match stage with
  | ANALYZE =>
      let row := analysis d !! f_id f in
      Scalars (row ≫= a_completed_at) (row ≫= a_failed_at) false false inflight skip
  | METADATA =>
      let row := metadata d !! f_id f in
      Scalars None (row ≫= m_failed_at) (bool_decide (is_Some row)) false inflight skip
  | _ => Scalars None None (done_clause stage d f) (failed_clause stage d f) inflight false
  end.

(** The status map of one file as a query returns it: a label per stage. *)
Definition labels (d : db) (f : file_row) : status_map := fun s => Some (stage_status_case s d f).

(** ** Properties *)

Definition skip_or_false (stage : Stage) : clause :=
  match skipped_clause stage with Ok c => c | Raise _ => fun _ _ => false end.

Lemma stage_status_case_ladder stage d f :
  stage_status_case stage d f =
    status_value (ladder (inflight_clause stage d f) (done_clause stage d f)
                    (skip_or_false stage d f) (failed_clause stage d f)).
Proof.
  unfold stage_status_case, skip_or_false, ladder.
  destruct (skipped_clause stage); simpl; guard_cases; reflexivity.
Qed.

Lemma resolve_load_ladder stage d f :
  resolve_status stage (load_scalars stage d f) =
    ladder (inflight_clause stage d f) (done_clause stage d f)
      (skip_or_false stage d f) (failed_clause stage d f).
Proof.
  rewrite resolve_status_ladder.
  destruct stage; simpl; try reflexivity.
  - destruct (metadata d !! f_id f) as [[[t|]]|]; reflexivity.
  - destruct (analysis d !! f_id f) as [[[t|] [u|]]|]; reflexivity.
Qed.

Lemma labels_get stage d f :
  sm_get (labels d f) stage =
    status_value (ladder (inflight_clause stage d f) (done_clause stage d f)
                    (skip_or_false stage d f) (failed_clause stage d f)).
Proof. apply stage_status_case_ladder. Qed.

#[export] Hint Rewrite stage_status_case_ladder resolve_load_ladder labels_get parse_status_value : phaze.

(** The SQL [CASE] ladder and the Python resolver agree on every database
    and every stage: evaluating [stage_status_case] over the rows gives the
    label of the status [resolve_status] computes from the same rows. *)
Theorem sql_case_matches_resolver stage d f :
  stage_status_case stage d f = status_value (resolve_status stage (load_scalars stage d f)).
Proof. by autorewrite with phaze. Qed.

(** Eligibility.  On the enrich stages the SQL [eligible_clause] computes
    what the Python [eligible] computes from the SQL labels; on the other
    stages the SQL builder raises [ValueError]. *)
Theorem sql_eligible_matches_python stage d f approved :
  match ELIGIBLE_AFTER_FAILURE stage with
  | Some _ => eligible (labels d f) stage approved = (try! c <- eligible_clause stage; Ok (c d f))
  | None => eligible_clause stage = Raise "ValueError"
  end.
Proof.
  destruct stage; try reflexivity; unfold eligible, eligible_clause;
    cbn [ELIGIBLE_AFTER_FAILURE]; rewrite labels_get, parse_status_value;
    unfold skip_or_false; cbn [skipped_clause ELIGIBLE_AFTER_FAILURE obind].
  - by destruct (inflight_clause METADATA d f), (done_clause METADATA d f),
      (bool_decide ((f_id f, stage_value METADATA) ∈ stage_skip d)), (failed_clause METADATA d f).
  - by destruct (inflight_clause ANALYZE d f), (done_clause ANALYZE d f),
      (bool_decide ((f_id f, stage_value ANALYZE) ∈ stage_skip d)), (failed_clause ANALYZE d f).
Qed.

(** Domain completion.  The SQL clause ignores the ledger: it equals the
    Python [domain_completed] of the status the resolver gives once the
    in-flight fact is erased, and it is undefined exactly where the Python
    twin is. *)
Theorem sql_domain_completed_matches_python stage d f :
  let sc := load_scalars stage d f in
  let quiet := Scalars (completed_at sc) (failed_at sc) (row_present sc) (failed sc) false (skipped sc) in
  (try! c <- domain_completed_clause stage None None None; Ok (c d f))
  = domain_completed (fun _ => Some (status_value (resolve_status stage quiet))) stage.
Proof.
  destruct stage; try reflexivity; unfold domain_completed, sm_get; simpl;
    rewrite parse_status_value, ?orb_false_r.
  - destruct (metadata d !! f_id f) as [[[t|]]|], (bool_decide (_ ∈ stage_skip d)); reflexivity.
  - destruct (analysis d !! f_id f) as [[[t|] [u|]]|], (bool_decide (_ ∈ stage_skip d)); reflexivity.
Qed.

Lemma not_running_negb stage d f : not_running_clause stage d f = negb (running_clause stage d f).
Proof. destruct stage; simpl; by rewrite ?negb_orb. Qed.

(** A standing ledger row of an enrich stage is in exactly one of the
    three populations (running, orphaned, resolved), and a file with no ledger
    row is in neither of the last two. *)
Theorem ledger_trichotomy stage :
  is_Some (FAILURE_IS_TERMINAL stage) ->
  exists orphaned resolved,
    orphaned_clause stage = Ok orphaned /\ resolved_ledger_clause stage = Ok resolved /\
    forall d f,
      (inflight_clause stage d f = true ->
         Nat.b2n (running_clause stage d f) + Nat.b2n (orphaned d f) + Nat.b2n (resolved d f) = 1) /\
      (inflight_clause stage d f = false -> orphaned d f = false /\ resolved d f = false).
Proof.
  unfold orphaned_clause, resolved_ledger_clause.
  intros [? Hs]. destruct (_recovery_domain_completed_clause stage) as [c|e] eqn:E.
  - eexists _, _. split; [reflexivity|]. split; [reflexivity|]. intros d f.
    cbv beta. rewrite not_running_negb.
    by destruct (inflight_clause stage d f), (running_clause stage d f), (c d f).
  - destruct stage; discriminate.
Qed.

Lemma ledger_trichotomy_witness :
  exists orphaned resolved,
    orphaned_clause ANALYZE = Ok orphaned /\ resolved_ledger_clause ANALYZE = Ok resolved.
Proof.
  destruct (ledger_trichotomy ANALYZE) as (o & r & Ho & Hr & _); [by eexists|].
  exists o, r. exact (conj Ho Hr).
Defined.

(** The over-enqueue guard.  The only analyze work the automatic paths
    can pick up is work never started: [eligible_clause] holds exactly on the
    files labelled [not_started], and the cloud drain's candidates are exactly
    the [not_started] files whose sidecar row is [awaiting].  A failed,
    skipped, done or ledger-held file is in neither set. *)
Theorem analyze_enqueue_only_not_started :
  exists elig await,
    eligible_clause ANALYZE = Ok elig /\ awaiting_candidate_clause None None None = Ok await /\
    forall d f,
      (elig d f = true <-> stage_status_case ANALYZE d f = "not_started") /\
      (await d f = true <->
         cloud_job d !! f_id f = Some "awaiting" /\ stage_status_case ANALYZE d f = "not_started").
Proof.
  eexists _, _. split; [reflexivity|]. split; [reflexivity|]. intros d f. cbn [from_option default].
  rewrite stage_status_case_ladder. unfold skip_or_false. cbn [skipped_clause ELIGIBLE_AFTER_FAILURE].
  destruct (inflight_clause ANALYZE d f), (done_clause ANALYZE d f),
    (bool_decide ((f_id f, stage_value ANALYZE) ∈ stage_skip d)), (failed_clause ANALYZE d f);
    split; rewrite ?andb_true_r, ?andb_false_r, ?bool_decide_eq_true; naive_solver.
Qed.

(** What the ledger reaper may delete.  A [resolved] analyze row has a
    ledger row, no live broker job and no busy compute lane, and unless the
    file is force-skipped the stored completion is not older than the ledger's
    own attempt (or that attempt already reported terminal). *)
Theorem reaper_keeps_owed_backfill d f :
  (try! c <- resolved_ledger_clause ANALYZE; Ok (c d f)) = Ok true ->
  exists l, scheduling_ledger d !! ledger_key_for_function "process_file" f = Some l /\
    live_job_clause ANALYZE d f = false /\ cloud_busy_clause d f = false /\
    ((f_id f, "analyze") ∈ stage_skip d \/
     forall a t, analysis d !! f_id f = Some a -> a_completed_at a = Some t ->
       (l_enqueued_at l <= t)%Z \/ is_Some (l_terminal_at l)).
Proof.
  cbn -[live_job_for_function cloud_busy_clause _analyze_orphaned_backfill_clause orb].
  intros [= H]. apply andb_prop in H as [H1 Hc]. apply andb_prop in H1 as [Hin Hrun].
  apply andb_prop in Hc as [_ Hc]. bool_prop.
  apply bool_decide_eq_true in Hin as [l Hl]. exists l. do 3 (split; [assumption|]).
  apply orb_prop in Hc as [Hskip|Hback].
  - left. by apply bool_decide_eq_true in Hskip.
  - right. intros a t Ha Ht. unfold _analyze_orphaned_backfill_clause in Hback.
    rewrite Hl, Ha, Ht in Hback. apply negb_true_iff, andb_false_iff in Hback as [Hle|Hterm].
    + left. apply bool_decide_eq_false in Hle. lia.
    + right. destruct (l_terminal_at l); [by eexists|discriminate].
Qed.

Definition sample_file : file_row := File "f1" None.
Definition sample_db : db :=
  Db {["f1" := Analysis (Some 20%Z) None]} ∅ ∅ [] [] {["process_file:f1" := Ledger 10 None]} ∅ ∅ [] [] [] [].

Lemma reaper_keeps_owed_backfill_witness :
  exists l, scheduling_ledger sample_db !! ledger_key_for_function "process_file" sample_file = Some l /\
    live_job_clause ANALYZE sample_db sample_file = false.
Proof.
  destruct (reaper_keeps_owed_backfill sample_db sample_file) as (l & Hl & Hlive & _).
  - vm_compute. reflexivity.
  - exists l. exact (conj Hl Hlive).
Defined.

(** Relabelling a missing failed file only moves it between buckets: over
    any set of files, the failed and missing buckets of [display_status_case]
    together count the failed bucket of [stage_status_case], and every other
    bucket is unchanged. *)
Theorem display_buckets_partition stage d fs :
  let count lbl v := length (filter (fun f => lbl stage d f = v) fs) in
  count display_status_case "failed" + count display_status_case "missing" = count stage_status_case "failed" /\
  forall v, v <> "failed" -> v <> "missing" -> count display_status_case v = count stage_status_case v.
Proof.
  assert (Hnm : forall f, stage_status_case stage d f <> "missing").
  { intros f. rewrite stage_status_case_ladder. unfold ladder. by guard_cases. }
  assert (Hd : forall f, display_status_case stage d f
            = if bool_decide (stage_status_case stage d f = "failed") && missing_clause d f
              then "missing" else stage_status_case stage d f) by done.
  cbv zeta. induction fs as [|f fs [IH1 IH2]]; [done|].
  specialize (Hnm f). rewrite !filter_cons, !Hd. split.
  - case_bool_decide as Hf; [rewrite Hf; destruct (missing_clause d f)|];
      simpl; repeat case_decide; simpl; try congruence; lia.
  - intros v Hv1 Hv2. specialize (IH2 v Hv1 Hv2). rewrite !filter_cons, !Hd.
    case_bool_decide as Hf; [rewrite Hf; destruct (missing_clause d f)|];
      simpl; repeat case_decide; simpl; try congruence; lia.
Qed.
