(* ===== verification/Debounce.v ===== *)
(** * The watcher's debouncer: [agent_watcher/debouncer.py]

    [_pending] is an insertion-ordered dict, [_lineage] a dict whose order is
    never observed.  Times are the monotonic clock in whole ticks.  [prov] is
    what the optional policy provider returns at the time of the call. *)
From S2P Require Import Prelude.
From stdpp Require Import options.
Local Open Scope Z_scope.

Record _PendingEntry : Type := Entry {
  first_seen_at : Z;
  last_change_at : Z;
  policy : option (Z * Z);
  cap_grace_used : bool;
}.

Record Debouncer : Type := Deb {
  _pending : list (string * _PendingEntry);
  _lineage : gmap string (list string);
}.

Definition new_debouncer : Debouncer := Deb [] ∅.

Definition touch (prov : option (Z * Z)) (now : Z) (path : string) (s : Debouncer) : Debouncer :=
  match dict_get path (_pending s) with
  | None => Deb (dict_set path (Entry now now prov false) (_pending s)) (_lineage s)
  | Some e =>
      Deb (dict_set path (Entry (first_seen_at e) now (policy e) (cap_grace_used e)) (_pending s)) (_lineage s)
  end.

Definition move (prov : option (Z * Z)) (now : Z) (src dest : string) (s : Debouncer) : Debouncer :=
  let lineage := default [] (_lineage s !! src) ++ [src] in
  let s1 :=
    match dict_get src (_pending s) with
    | Some _ => Deb (dict_pop src (_pending s)) (delete src (_lineage s))
    | None => s
    end in
  let s2 := touch prov now dest s1 in
  Deb (_pending s2) (<[dest := lineage]> (_lineage s2)).

Definition lineage (path : string) (s : Debouncer) : list string := default [] (_lineage s !! path).

Definition forget (path : string) (s : Debouncer) : Debouncer := Deb (_pending s) (delete path (_lineage s)).

(** The loop body, for one item of the snapshot taken before the loop; the
    entry object of the snapshot is the dict's own. *)
Definition sweep_entry (settle_period max_pending now : Z)
    (acc : Debouncer * list string * list string) (item : string * _PendingEntry)
    : Debouncer * list string * list string :=
  let '(s, ready, evicted) := acc in
  let '(path, e) := item in
  let '(entry_settle, entry_cap) := default (settle_period, max_pending) (policy e) in
  if now - last_change_at e >=? entry_settle then
    (Deb (dict_pop path (_pending s)) (_lineage s), ready ++ [path], evicted)
  else if now - first_seen_at e >? entry_cap then
    if cap_grace_used e then
      (Deb (dict_pop path (_pending s)) (delete path (_lineage s)), ready, evicted ++ [path])
    else
      (Deb (dict_set path (Entry now (last_change_at e) (policy e) true) (_pending s)) (_lineage s), ready, evicted)
  else (s, ready, evicted).

Definition sweep (settle_period max_pending now : Z) (s : Debouncer) : Debouncer * list string * list string :=
  fold_left (sweep_entry settle_period max_pending now) (_pending s) (s, [], []).

Definition pending_count (s : Debouncer) : nat := length (_pending s).

(** ** One controller event *)

Inductive op : Type :=
| OTouch (prov : option (Z * Z)) (path : string)
| OMove (prov : option (Z * Z)) (src dest : string)
| OForget (path : string)
| OSweep.

(** The state after an event at time [now], and what a sweep returned. *)
Definition run_op (settle cap now : Z) (o : op) (s : Debouncer) : Debouncer * list string * list string :=
  match o with
  | OTouch prov p => (touch prov now p s, [], [])
  | OMove prov a b => (move prov now a b s, [], [])
  | OForget p => (forget p s, [], [])
  | OSweep => sweep settle cap now s
  end.

(** ** What a sweep decides about one entry *)

Inductive verdict : Type := VReady | VEvict | VGrace | VWait.

Definition entry_policy (settle cap : Z) (e : _PendingEntry) : Z * Z := default (settle, cap) (policy e).
Definition entry_cap (settle cap : Z) (e : _PendingEntry) : Z := snd (entry_policy settle cap e).

Definition classify (settle cap now : Z) (e : _PendingEntry) : verdict :=
  if fst (entry_policy settle cap e) <=? now - last_change_at e then VReady
  else if entry_cap settle cap e <? now - first_seen_at e then
    if cap_grace_used e then VEvict else VGrace
  else VWait.

#[export] Instance verdict_eq_dec : EqDecision verdict.
Proof. solve_decision. Defined.

(** The entry left in the dict, if any. *)
Definition survivor (settle cap now : Z) (item : string * _PendingEntry) : option (string * _PendingEntry) :=
  let '(p, e) := item in
  match classify settle cap now e with
  | VReady | VEvict => None
  | VGrace => Some (p, Entry now (last_change_at e) (policy e) true)
  | VWait => Some (p, e)
  end.

Definition keys_with (v : verdict) (settle cap now : Z) (d : list (string * _PendingEntry)) : list string :=
  keys (filter (fun it => classify settle cap now (snd it) = v) d).

Definition drop_keys (ps : list string) (m : gmap string (list string)) : gmap string (list string) :=
  fold_left (fun m p => delete p m) ps m.

(** ** Runs

    [run_birth] is ghost state: when each path's current entry was inserted.
    [reach g t l s b]: an event history with nondecreasing clock [t] leads to
    state [s], its last sweep was at [l], and no event came later than [g]
    ticks after the sweep before it. *)
Definition run_birth (now : Z) (o : op) (s : Debouncer) (b : gmap string Z) : gmap string Z :=
  let note path s := match dict_get path (_pending s) with Some _ => b | None => <[path := now]> b end in
  match o with
  | OTouch _ p => note p s
  | OMove _ src dest => note dest (Deb (dict_pop src (_pending s)) (_lineage s))
  | _ => b
  end.

Definition op_policy (o : op) : option (Z * Z) :=
  match o with OTouch prov _ | OMove prov _ _ => prov | _ => None end.

Inductive reach (settle cap g : Z) : Z -> Z -> Debouncer -> gmap string Z -> Prop :=
| reach_init t : reach settle cap g t t new_debouncer ∅
| reach_step t l s b now o :
    reach settle cap g t l s b ->
    t <= now <= l + g ->
    0 <= snd (default (settle, cap) (op_policy o)) ->
    reach settle cap g now (match o with OSweep => now | _ => l end)
      (run_op settle cap now o s).1.1 (run_birth now o s b).

(** Successive renames of one file: [p0 -> p1 -> ... -> pn]. *)
Fixpoint move_chain (prov : option (Z * Z)) (p0 : string) (ps : list (Z * string)) (s : Debouncer) : Debouncer :=
  match ps with
  | [] => s
  | (now, p) :: ps' => move_chain prov p ps' (move prov now p0 p s)
  end.

(** ** Sweep, one pass *)

Definition wf (s : Debouncer) : Prop := NoDup (keys (_pending s)).

Lemma dict_pop_app_notin {V} k (d1 d2 : list (string * V)) :
  k ∉ keys d1 -> dict_pop k (d1 ++ d2) = d1 ++ dict_pop k d2.
Proof.
  unfold keys. induction d1 as [|[a b] d1 IH]; simpl; [done|].
  rewrite elem_of_cons. intros Hn. rewrite decide_False by tauto. by rewrite IH by tauto.
Qed.

Lemma dict_set_app_notin {V} k (v : V) (d1 d2 : list (string * V)) :
  k ∉ keys d1 -> dict_set k v (d1 ++ d2) = d1 ++ dict_set k v d2.
Proof.
  unfold keys. induction d1 as [|[a b] d1 IH]; simpl; [done|].
  rewrite elem_of_cons. intros Hn. rewrite decide_False by tauto. by rewrite IH by tauto.
Qed.

Lemma sweep_entry_classify settle cap now s r ev p e :
  sweep_entry settle cap now (s, r, ev) (p, e) =
    match classify settle cap now e with
    | VReady => (Deb (dict_pop p (_pending s)) (_lineage s), r ++ [p], ev)
    | VEvict => (Deb (dict_pop p (_pending s)) (delete p (_lineage s)), r, ev ++ [p])
    | VGrace => (Deb (dict_set p (Entry now (last_change_at e) (policy e) true) (_pending s)) (_lineage s), r, ev)
    | VWait => (s, r, ev)
    end.
Proof.
  unfold sweep_entry, classify, entry_cap, entry_policy.
  destruct (default (settle, cap) (policy e)) as [es ec]. simpl.
  rewrite Z.geb_leb, Z.gtb_ltb. guard_cases; reflexivity.
Qed.

Lemma sweep_loop settle cap now todo done_ lin r ev :
  NoDup (keys (done_ ++ todo)) ->
  fold_left (sweep_entry settle cap now) todo (Deb (done_ ++ todo) lin, r, ev) =
    (Deb (done_ ++ omap (survivor settle cap now) todo)
         (drop_keys (keys_with VEvict settle cap now todo) lin),
     r ++ keys_with VReady settle cap now todo, ev ++ keys_with VEvict settle cap now todo).
Proof.
  revert done_ lin r ev. induction todo as [|[p e] todo IH]; intros dn lin r ev Hnd.
  { simpl. by rewrite !app_nil_r. }
  assert (Hsame : forall x, NoDup (keys ((dn ++ [(p, x)]) ++ todo))).
  { intros x. rewrite <- app_assoc. unfold keys in *. by rewrite fmap_app in *. }
  unfold keys in Hnd. rewrite fmap_app, NoDup_app in Hnd. simpl in Hnd.
  destruct Hnd as (Hdn & Hdisj & [Hpt Htodo]%NoDup_cons).
  assert (Hp : p ∉ keys dn) by (intros Hin; apply (Hdisj p Hin); apply elem_of_cons; auto).
  assert (Hrest : NoDup (keys (dn ++ todo))).
  { unfold keys. rewrite fmap_app. apply NoDup_app. repeat split; [done| |done].
    intros x Hx Hx'. apply (Hdisj x Hx). apply elem_of_cons; auto. }
  cbn [fold_left]. rewrite sweep_entry_classify. unfold keys_with. rewrite !filter_cons.
  cbn [omap list_omap survivor snd _pending _lineage].
  destruct (classify settle cap now e) eqn:Hc;
    rewrite ?dict_pop_app_notin, ?dict_set_app_notin by done; simpl; rewrite ?decide_True by done.
  - rewrite IH by done. by rewrite <- app_assoc.
  - rewrite IH by done. by rewrite <- app_assoc.
  - rewrite cons_middle, app_assoc, IH by apply Hsame. by rewrite <- app_assoc.
  - rewrite cons_middle, app_assoc, IH by apply Hsame. by rewrite <- app_assoc.
Qed.

(** One sweep, exactly.  With distinct keys, a sweep returns the settled
    paths in dict order, evicts the paths that crossed the age cap a second
    time, keeps every other entry in place (restarting the age clock of the
    ones granted their one grace window), and forgets the lineage of the
    evicted paths only. *)
Theorem sweep_spec settle cap now s :
  wf s ->
  sweep settle cap now s =
    (Deb (omap (survivor settle cap now) (_pending s))
         (drop_keys (keys_with VEvict settle cap now (_pending s)) (_lineage s)),
     keys_with VReady settle cap now (_pending s),
     keys_with VEvict settle cap now (_pending s)).
Proof.
  intros Hwf. destruct s as [pend lin]. unfold sweep. simpl in *.
  exact (sweep_loop settle cap now pend [] lin [] [] Hwf).
Qed.

Definition sample : Debouncer :=
  Deb [("a", Entry 0 5 None false); ("b", Entry 0 90 None true); ("c", Entry 0 95 None false); ("d", Entry 80 99 None true)]
      {["b" := ["b0"]]}.

Lemma sweep_spec_witness :
  wf sample /\
  sweep 10 50 100 sample = (Deb [("c", Entry 100 95 None true); ("d", Entry 80 99 None true)] {["b" := ["b0"]]}, ["a"; "b"], []) /\
  sweep 20 50 100 sample = (Deb [("c", Entry 100 95 None true); ("d", Entry 80 99 None true)] ∅, ["a"], ["b"]).
Proof.
  assert (Hwf : wf sample) by by (apply (bool_decide_unpack _); vm_compute; exact I).
  split; [exact Hwf|]. split.
  - rewrite (sweep_spec 10 50 100 sample Hwf). vm_compute. reflexivity.
  - rewrite (sweep_spec 20 50 100 sample Hwf). vm_compute. reflexivity.
Defined.

(** ** Age bounds *)

Lemma survivor_key settle cap now p e p' e' :
  survivor settle cap now (p, e) = Some (p', e') -> p' = p.
Proof. simpl. destruct (classify _ _ _ _); naive_solver. Qed.

Lemma elem_of_survivors settle cap now (d : list (string * _PendingEntry)) p e' :
  (p, e') ∈ omap (survivor settle cap now) d <-> exists e, (p, e) ∈ d /\ survivor settle cap now (p, e) = Some (p, e').
Proof.
  rewrite list_elem_of_omap. split.
  - intros ([q e] & Hin & Hs). pose proof (survivor_key _ _ _ _ _ _ _ Hs). subst. eauto.
  - intros (e & Hin & Hs). eauto.
Qed.

Lemma keys_survivors_sublist settle cap now (d : list (string * _PendingEntry)) :
  keys (omap (survivor settle cap now) d) `sublist_of` keys d.
Proof.
  unfold keys. induction d as [|[p e] d IH]; [constructor|]. cbn [omap list_omap fmap list_fmap].
  destruct (survivor settle cap now (p, e)) as [[p' e']|] eqn:Hs.
  - apply survivor_key in Hs as ->. simpl. by apply sublist_skip.
  - simpl. by apply sublist_cons.
Qed.

Lemma get_survivors settle cap now (d : list (string * _PendingEntry)) p e' :
  NoDup (keys d) -> dict_get p (omap (survivor settle cap now) d) = Some e' ->
  exists e, dict_get p d = Some e /\ survivor settle cap now (p, e) = Some (p, e').
Proof.
  intros Hd (e & Hin & Hs)%dict_get_elem%elem_of_survivors. eauto using elem_dict_get.
Qed.

Section ages.
Context (settle cap g : Z).

(** What is known of a pending entry [e] born at [t0], at clock [t] with the
    last sweep at [l]. *)
Record entry_ok (t l t0 : Z) (e : _PendingEntry) : Prop := {
  ok_order : t0 <= first_seen_at e <= t;
  ok_last : last_change_at e <= t;
  ok_cap : 0 <= entry_cap settle cap e;
  ok_fresh : cap_grace_used e = false -> first_seen_at e = t0;
  ok_grace : cap_grace_used e = true -> t0 + entry_cap settle cap e < first_seen_at e <= t0 + entry_cap settle cap e + g;
  ok_swept : l - first_seen_at e <= entry_cap settle cap e;
}.

Definition inv (t l : Z) (s : Debouncer) (b : gmap string Z) : Prop :=
  wf s /\ l <= t /\
  forall p e, dict_get p (_pending s) = Some e -> exists t0, b !! p = Some t0 /\ entry_ok t l t0 e.

Lemma entry_ok_later t now l t0 e : t <= now -> entry_ok t l t0 e -> entry_ok now l t0 e.
Proof. intros Hle []. constructor; auto; lia. Qed.

Lemma touch_inv t l now prov p s b :
  t <= now -> 0 <= snd (default (settle, cap) prov) -> inv t l s b ->
  inv now l (touch prov now p s) (run_birth now (OTouch prov p) s b).
Proof.
  intros Hle Hcap (Hwf & Hl & Hall). split; [|split; [lia|]].
  - unfold touch, wf. destruct (dict_get p (_pending s)); simpl; auto with phaze.
  - intros q e. unfold touch, run_birth.
    destruct (dict_get p (_pending s)) as [e0|] eqn:Ep; simpl; rewrite dict_get_set; case_decide; subst.
    + intros [= <-]. destruct (Hall _ _ Ep) as (t0 & Hb & Hok). exists t0. split; [done|].
      destruct Hok. constructor; simpl in *; auto; lia.
    + intros (t0 & Hb & Hok)%Hall. eauto using entry_ok_later.
    + intros [= <-]. exists now. rewrite lookup_insert_eq. split; [done|].
      constructor; simpl; unfold entry_cap, entry_policy; simpl; auto; try lia; done.
    + intros (t0 & Hb & Hok)%Hall. rewrite lookup_insert_ne by congruence. eauto using entry_ok_later.
Qed.

Lemma pop_inv t l p s b lin : inv t l s b -> inv t l (Deb (dict_pop p (_pending s)) lin) b.
Proof.
  intros (Hwf & Hl & Hall). split; [by apply NoDup_dict_pop|]. split; [done|].
  intros q e. simpl. destruct (decide (q = p)) as [->|Hne].
  - by rewrite dict_get_pop_eq.
  - rewrite dict_get_pop_ne by done. auto.
Qed.

Lemma sweep_inv t l now s b :
  t <= now <= l + g -> inv t l s b -> inv now now (sweep settle cap now s).1.1 b.
Proof.
  intros Hnow (Hwf & Hl & Hall). rewrite sweep_spec by done. simpl. split; [|split; [lia|]].
  - eapply sublist_NoDup; [exact Hwf|apply keys_survivors_sublist].
  - intros p e' (e & He & Hs)%get_survivors; [|done].
    destruct (Hall _ _ He) as (t0 & Hb & [Ho1 Ho2 Ho3 Ho4 Ho5 Ho6]). exists t0. split; [done|].
    unfold survivor, classify in Hs. guard_cases_in Hs; simplify_eq; bool_prop;
      constructor; simpl; auto; try lia; try done; unfold entry_cap, entry_policy in *; simpl; auto; lia.
Qed.

Lemma reach_inv t l s b : reach settle cap g t l s b -> inv t l s b.
Proof.
  induction 1 as [t|t l s b now o Hr IH Hnow Hcap].
  - split; [by constructor|]. split; [lia|]. done.
  - destruct o as [prov p|prov src dest|p|]; simpl in *.
    + apply touch_inv with t; auto; lia.
    + unfold move. destruct (dict_get src (_pending s)) eqn:Es.
      * pose proof (touch_inv t l now prov dest _ b ltac:(lia) Hcap
          (pop_inv _ _ src _ _ (delete src (_lineage s)) IH)) as (Hw & Hl & Ha).
        split; [exact Hw|]. split; [exact Hl|]. exact Ha.
      * assert (Hpop : dict_pop src (_pending s) = _pending s) by (by apply dict_pop_absent).
        pose proof (touch_inv t l now prov dest _ b ltac:(lia) Hcap IH) as (Hw & Hl & Ha).
        split; [exact Hw|]. split; [exact Hl|]. simpl in *. by rewrite Hpop.
    + destruct IH as (Hw & Hl & Ha). split; [exact Hw|]. split; [lia|].
      intros q e (t0 & ? & ?)%Ha. exists t0. split; [done|]. apply entry_ok_later with t; [lia|done].
    + apply sweep_inv with t l; auto.
Qed.
End ages.

(** No premature eviction.  In every history, a path a sweep evicts has
    been pending, without ever settling or being re-inserted, for more than
    twice its own cap, and it changed less than its settle period ago. *)
Theorem evicted_only_after_two_caps settle cap g t l s b now p :
  reach settle cap g t l s b -> t <= now <= l + g ->
  p ∈ (sweep settle cap now s).2 ->
  exists e t0, dict_get p (_pending s) = Some e /\ b !! p = Some t0 /\
    now - t0 > 2 * entry_cap settle cap e /\
    now - last_change_at e < fst (entry_policy settle cap e).
Proof.
  intros Hr Hnow Hp. destruct (reach_inv _ _ _ _ _ _ _ Hr) as (Hwf & Hl & Hall).
  rewrite sweep_spec in Hp by done. simpl in Hp.
  apply list_elem_of_fmap in Hp as ([q e] & -> & [Hc Hin]%list_elem_of_filter). simpl in *.
  pose proof (elem_dict_get _ _ _ Hwf Hin) as Hg.
  destruct (Hall _ _ Hg) as (t0 & Hb & []). exists e, t0. do 2 (split; [done|]).
  unfold classify in Hc. guard_cases_in Hc; try done; bool_prop.
  destruct (cap_grace_used e); [specialize (ok_grace0 eq_refl)|done]. lia.
Qed.

(** Bounded residence.  However often a path keeps changing, if no event
    arrives more than [g] ticks after the sweep before it then an entry that is
    pending has been so for at most twice its cap plus [2 * g]: the unbounded
    dict is bounded by time. *)
Theorem pending_age_bounded settle cap g t l s b p e :
  reach settle cap g t l s b -> t <= l + g -> dict_get p (_pending s) = Some e ->
  exists t0, b !! p = Some t0 /\ t - t0 <= 2 * entry_cap settle cap e + 2 * g.
Proof.
  intros Hr Ht Hg. destruct (reach_inv _ _ _ _ _ _ _ Hr) as (Hwf & Hl & Hall).
  destruct (Hall _ _ Hg) as (t0 & Hb & []). exists t0. split; [done|].
  destruct (cap_grace_used e); [specialize (ok_grace0 eq_refl)|specialize (ok_fresh0 eq_refl)]; lia.
Qed.

(** A file written to continuously: touched every 30 ticks, swept every 30,
    settle 50, cap 60; the sweep at 150 evicts it. *)
Definition busy_ops : list (Z * op) :=
  [(0, OTouch None "x"); (30, OSweep); (40, OTouch None "x"); (60, OSweep); (70, OTouch None "x");
   (90, OSweep); (100, OTouch None "x"); (120, OSweep); (130, OTouch None "x"); (140, OSweep)].

Definition run_ops (settle cap : Z) (ops : list (Z * op)) : Debouncer * gmap string Z :=
  fold_left (fun '(s, b) '(now, o) => ((run_op settle cap now o s).1.1, run_birth now o s b)) ops (new_debouncer, ∅).

Lemma busy_reach :
  reach 50 60 40 140 140 (run_ops 50 60 busy_ops).1 (run_ops 50 60 busy_ops).2.
Proof.
  pose proof (reach_init 50 60 40 0) as H.
  apply (reach_step _ _ _ _ _ _ _ 0 (OTouch None "x")) in H; [|lia|simpl; lia].
  apply (reach_step _ _ _ _ _ _ _ 30 OSweep) in H; [|lia|simpl; lia].
  apply (reach_step _ _ _ _ _ _ _ 40 (OTouch None "x")) in H; [|lia|simpl; lia].
  apply (reach_step _ _ _ _ _ _ _ 60 OSweep) in H; [|lia|simpl; lia].
  apply (reach_step _ _ _ _ _ _ _ 70 (OTouch None "x")) in H; [|lia|simpl; lia].
  apply (reach_step _ _ _ _ _ _ _ 90 OSweep) in H; [|lia|simpl; lia].
  apply (reach_step _ _ _ _ _ _ _ 100 (OTouch None "x")) in H; [|lia|simpl; lia].
  apply (reach_step _ _ _ _ _ _ _ 120 OSweep) in H; [|lia|simpl; lia].
  apply (reach_step _ _ _ _ _ _ _ 130 (OTouch None "x")) in H; [|lia|simpl; lia].
  apply (reach_step _ _ _ _ _ _ _ 140 OSweep) in H; [|lia|simpl; lia].
  exact H.
Qed.

Lemma evicted_only_after_two_caps_witness :
  exists e t0, dict_get "x" (_pending (run_ops 50 60 busy_ops).1) = Some e /\ 170 - t0 > 2 * entry_cap 50 60 e.
Proof.
  destruct (evicted_only_after_two_caps 50 60 40 140 140 _ _ 170 "x" busy_reach) as (e & t0 & He & _ & Ht & _).
  - lia.
  - apply (bool_decide_unpack _). vm_compute. exact I.
  - exists e, t0. exact (conj He Ht).
Defined.

Lemma pending_age_bounded_witness :
  exists e t0, dict_get "x" (_pending (run_ops 50 60 busy_ops).1) = Some e /\ 140 - t0 <= 2 * entry_cap 50 60 e + 2 * 40.
Proof.
  destruct (dict_get "x" (_pending (run_ops 50 60 busy_ops).1)) as [e|] eqn:He; [|exfalso; vm_compute in He; discriminate].
  destruct (pending_age_bounded 50 60 40 140 140 _ _ "x" e busy_reach) as (t0 & _ & Ht); [lia|exact He|].
  exists e, t0. exact (conj eq_refl Ht).
Defined.

(** ** Renames *)

Lemma move_lineage_dest prov now src dest s : lineage dest (move prov now src dest s) = lineage src s ++ [src].
Proof. unfold lineage, move. simpl. by rewrite lookup_insert_eq. Qed.

Lemma touch_pending prov now p s q :
  dict_get q (_pending (touch prov now p s)) = None <-> q <> p /\ dict_get q (_pending s) = None.
Proof.
  unfold touch. destruct (dict_get p (_pending s)) eqn:Ep; simpl; rewrite dict_get_set; case_decide; naive_solver.
Qed.

Lemma touch_wf prov now p s : wf s -> wf (touch prov now p s).
Proof. unfold wf, touch. intros. destruct (dict_get p (_pending s)); simpl; auto with phaze. Qed.

Lemma move_wf prov now src dest s : wf s -> wf (move prov now src dest s).
Proof.
  intros Hwf. unfold move, wf. simpl. apply touch_wf.
  destruct (dict_get src (_pending s)); [|done]. by apply NoDup_dict_pop.
Qed.

Lemma move_pending prov now src dest s q :
  wf s -> dict_get q (_pending (move prov now src dest s)) = None <->
    q <> dest /\ (q = src \/ dict_get q (_pending s) = None).
Proof.
  intros Hwf. unfold move. simpl. rewrite touch_pending.
  destruct (dict_get src (_pending s)) eqn:Es; simpl.
  - destruct (decide (q = src)) as [->|Hne].
    + rewrite dict_get_pop_eq by done. naive_solver.
    + rewrite dict_get_pop_ne by done. naive_solver.
  - naive_solver.
Qed.

Lemma move_chain_gone prov p0 ps s q :
  wf s -> q ∉ ps.*2 -> q = p0 /\ ps <> [] \/ dict_get q (_pending s) = None ->
  dict_get q (_pending (move_chain prov p0 ps s)) = None.
Proof.
  revert p0 s. induction ps as [|[now p] ps IH]; intros p0 s Hwf Hq Hcase; simpl in *; [naive_solver|].
  rewrite elem_of_cons in Hq. apply IH; [by apply move_wf|tauto|].
  right. apply move_pending; [done|]. naive_solver.
Qed.

(** Rename chains.  After any number of renames of one file through
    distinct names, the last name carries, oldest first, everything the first
    name carried followed by every earlier name, and none of the earlier names
    is pending any more. *)
Theorem rename_chain_lineage prov p0 ps now pn s :
  wf s -> NoDup (p0 :: (ps ++ [(now, pn)]).*2) ->
  let s' := move_chain prov p0 (ps ++ [(now, pn)]) s in
  lineage pn s' = lineage p0 s ++ p0 :: ps.*2 /\
  is_Some (dict_get pn (_pending s')) /\
  forall q, q ∈ p0 :: ps.*2 -> dict_get q (_pending s') = None.
Proof.
  revert p0 s. induction ps as [|[t p] ps IH]; intros p0 s Hwf Hnd; cbn [move_chain app] in *.
  - rewrite move_lineage_dest. split; [done|]. split.
    + apply not_eq_None_Some. rewrite move_pending by done. naive_solver.
    + intros q ->%list_elem_of_singleton. apply move_pending; [done|]. simpl in Hnd.
      apply NoDup_cons in Hnd as [Hn _]. rewrite list_elem_of_singleton in Hn. auto.
  - apply NoDup_cons in Hnd as [Hn Hnd].
    destruct (IH p (move prov t p0 p s)) as (Hl & Hp & Hg); [by apply move_wf|exact Hnd|].
    cbv zeta. rewrite Hl, move_lineage_dest, <- app_assoc. split; [done|]. split; [done|].
    intros q [->|Hq]%elem_of_cons; [|by apply Hg].
    simpl in Hn. apply not_elem_of_cons in Hn as [Hn1 Hn2].
    apply move_chain_gone; [by apply move_wf|done|]. right. apply move_pending; auto.
Qed.

Lemma rename_chain_lineage_witness :
  lineage "c" (move_chain None "a" [(1, "b"); (2, "c")] (touch None 0 "a" new_debouncer)) = ["a"; "b"].
Proof.
  exact (proj1 (rename_chain_lineage None "a" [(1, "b")] 2 "c" (touch None 0 "a" new_debouncer)
    ltac:(apply (bool_decide_unpack _); vm_compute; exact I) ltac:(apply (bool_decide_unpack _); vm_compute; exact I))).
Defined.
