(* ===== verification/Limiter.v ===== *)
(** * The resizable FIFO limiter: [services/resizable_limiter.py]

    A [world] is the limiter object together with the event loop's view of it:
    the futures created by suspended [acquire] calls, the tasks whose
    cancellation arrived after their future was resolved, and how many callers
    hold a token.  An [event] runs one callback of the single-threaded loop to
    its next suspension point. *)
From Stdlib Require Import Sorted.
From S2P Require Import Prelude.
From stdpp Require Import options.
Local Open Scope Z_scope.

(** State of an [asyncio.Future]: [done()] holds of the last two. *)
Inductive fut_state : Type := Pending | Resolved | Cancelled.
#[export] Instance fut_state_eq_dec : EqDecision fut_state.
Proof. solve_decision. Defined.

Record world : Type := World {
  _total : Z;
  _borrowed : Z;
  _waiters : list nat;
  futs : gmap nat fut_state;
  must_cancel : gset nat;
  holders : nat;
  next_fut : nat;
}.

(** [ResizableLimiter.__init__] *)
Definition new_limiter (total_tokens : Z) : outcome string world :=
  if total_tokens <? 1 then Raise "ValueError" else Ok (World total_tokens 0 [] ∅ ∅ 0 0).

Definition available_tokens (w : world) : Z := Z.max 0 (_total w - _borrowed w).

Definition cancelled (w : world) (f : nat) : bool := bool_decide (futs w !! f = Some Cancelled).
Definition done_ (w : world) (f : nat) : bool := negb (bool_decide (futs w !! f = Some Pending)).

Definition locked (w : world) : bool :=
  (available_tokens w <=? 0) || existsb (fun f => negb (cancelled w f)) (_waiters w).

(** [deque.remove]: the first occurrence. *)
Fixpoint remove_first (f : nat) (q : list nat) : list nat :=
  match q with
  | [] => []
  | g :: q' => if decide (g = f) then q' else g :: remove_first f q'
  end.

Fixpoint first_not_done (w : world) (q : list nat) : option nat :=
  match q with
  | [] => None
  | f :: q' => if done_ w f then first_not_done w q' else Some f
  end.

Definition _wake_next (w : world) : option world :=
  match first_not_done w (_waiters w) with
  | Some f =>
      Some (World (_total w) (_borrowed w + 1) (remove_first f (_waiters w)) (<[f := Resolved]> (futs w))
              (must_cancel w) (holders w) (next_fut w))
  | None => None
  end.

(** The [while] loop; every turn dequeues a waiter, so the queue length is
    enough fuel. *)
Fixpoint wake_loop (fuel : nat) (w : world) : world :=
  match fuel with
  | O => w
  | S fuel' =>
      if 0 <? available_tokens w then
        match _wake_next w with Some w' => wake_loop fuel' w' | None => w end
      else w
  end.

Definition _wake_eligible_waiters (w : world) : world := wake_loop (S (length (_waiters w))) w.

Definition resize (total_tokens : Z) (w : world) : outcome string world :=
  if total_tokens <? 1 then Raise "ValueError"
  else Ok (_wake_eligible_waiters
             (World total_tokens (_borrowed w) (_waiters w) (futs w) (must_cancel w) (holders w) (next_fut w))).

(** [acquire] up to its return or its [await]: on the slow path a fresh future
    joins the queue and the task suspends. *)
Definition acquire (w : world) : world :=
  if negb (locked w) then
    World (_total w) (_borrowed w + 1) (_waiters w) (futs w) (must_cancel w) (S (holders w)) (next_fut w)
  else
    World (_total w) (_borrowed w) (_waiters w ++ [next_fut w]) (<[next_fut w := Pending]> (futs w))
      (must_cancel w) (holders w) (S (next_fut w)).

(** The rest of [acquire] once the loop resumes the task suspended on [f]: the
    inner [finally], the [CancelledError] handler, the outer [finally]. *)
Definition acquire_resume (f : nat) (w : world) : world :=
  let raises := cancelled w f || bool_decide (f ∈ must_cancel w) in
  let q := if bool_decide (f ∈ _waiters w) then remove_first f (_waiters w) else _waiters w in
  let give_back := raises && (done_ w f && negb (cancelled w f)) in
  _wake_eligible_waiters
    (World (_total w) (if give_back then _borrowed w - 1 else _borrowed w) q (delete f (futs w))
       (must_cancel w ∖ {[f]}) (if raises then holders w else S (holders w)) (next_fut w)).

(** [task.cancel()] on the task suspended on [f]: a pending future is
    cancelled, a resolved one leaves the cancellation to be thrown on resume. *)
Definition cancel_task (f : nat) (w : world) : world :=
  match futs w !! f with
  | Some Pending =>
      World (_total w) (_borrowed w) (_waiters w) (<[f := Cancelled]> (futs w)) (must_cancel w) (holders w) (next_fut w)
  | Some _ =>
      World (_total w) (_borrowed w) (_waiters w) (futs w) ({[f]} ∪ must_cancel w) (holders w) (next_fut w)
  | None => w
  end.

(** A holder's [release]. *)
Definition release (w : world) : outcome string world :=
  if _borrowed w <=? 0 then Raise "ValueError"
  else Ok (_wake_eligible_waiters
             (World (_total w) (_borrowed w - 1) (_waiters w) (futs w) (must_cancel w) (pred (holders w)) (next_fut w))).

(** ** Runs *)

Inductive event : Type :=
| EAcquire | EResume (f : nat) | ECancel (f : nat) | ERelease | EResize (n : Z).

(** Which callbacks the loop can run: a suspended task resumes once its future
    is done; only a holder releases. *)
Definition enabled (e : event) (w : world) : bool :=
  match e with
  | EAcquire | EResize _ => true
  | EResume f => bool_decide (is_Some (futs w !! f)) && done_ w f
  | ECancel f => bool_decide (is_Some (futs w !! f))
  | ERelease => bool_decide (0 < holders w)%nat
  end.

Definition exec (e : event) (w : world) : outcome string world :=
  match e with
  | EAcquire => Ok (acquire w)
  | EResume f => Ok (acquire_resume f w)
  | ECancel f => Ok (cancel_task f w)
  | ERelease => release w
  | EResize n => resize n w
  end.

Inductive reachable : world -> Prop :=
| reach_new n w : new_limiter n = Ok w -> reachable w
| reach_exec e w w' : reachable w -> enabled e w = true -> exec e w = Ok w' -> reachable w'.

(** Tokens granted to futures whose task has not resumed yet. *)
Definition granted (w : world) : nat := size (filter (fun kv : nat * fut_state => kv.2 = Resolved) (futs w)).

(** Nobody waits for a token that is free. *)
Definition awake (w : world) : Prop := 0 < available_tokens w -> forall f, futs w !! f <> Some Pending.

(** ** The invariant *)

Record inv0 (w : world) : Prop := {
  inv_total : 1 <= _total w;
  inv_queue : forall f, f ∈ _waiters w -> is_Some (futs w !! f) /\ futs w !! f <> Some Resolved;
  inv_pending : forall f, futs w !! f = Some Pending -> f ∈ _waiters w;
  inv_sorted : StronglySorted lt (_waiters w);
  inv_fresh : forall f, is_Some (futs w !! f) -> (f < next_fut w)%nat;
  inv_tokens : _borrowed w = Z.of_nat (holders w + granted w);
}.

Definition inv (w : world) : Prop := inv0 w /\ awake w.

Definition is_resolved (s : fut_state) : nat := if decide (s = Resolved) then 1 else 0.

Lemma granted_insert w_total b q m mc h n f s :
  granted (World w_total b q (<[f := s]> m) mc h n) = (is_resolved s + granted (World w_total b q (delete f m) mc h n))%nat.
Proof.
  unfold granted, is_resolved. simpl. rewrite <- insert_delete_eq.
  case_decide as Hs.
  - rewrite map_filter_insert_True by done. rewrite map_size_insert_None; [done|].
    apply map_lookup_filter_None. left. apply lookup_delete_eq.
  - rewrite map_filter_insert_not' ; [done|done|].
    intros y Hy. by rewrite lookup_delete_eq in Hy.
Qed.

Lemma granted_lookup w f s :
  futs w !! f = Some s ->
  granted w = (is_resolved s + granted (World (_total w) (_borrowed w) (_waiters w) (delete f (futs w)) (must_cancel w) (holders w) (next_fut w)))%nat.
Proof.
  intros Hf. rewrite <- granted_insert. unfold granted. simpl. by rewrite insert_id.
Qed.

Lemma elem_of_remove_first f g q : StronglySorted lt q -> g ∈ remove_first f q <-> g ∈ q /\ g <> f.
Proof.
  induction 1 as [|a q Hq IH Ha]; simpl; [set_solver|].
  rewrite Forall_forall in Ha. case_decide as Hd.
  - subst. rewrite elem_of_cons. split; [|naive_solver].
    intros Hg. pose proof (Ha g Hg). split; [auto|lia].
  - rewrite !elem_of_cons, IH. naive_solver.
Qed.

Lemma sorted_remove_first f q : StronglySorted lt q -> StronglySorted lt (remove_first f q).
Proof.
  induction 1 as [|a q Hq IH Ha]; simpl; [constructor|]. case_decide; [done|].
  constructor; [done|]. rewrite Forall_forall in *. intros g Hg%elem_of_remove_first; [|done].
  apply Ha. tauto.
Qed.

Lemma sorted_snoc q n : StronglySorted lt q -> (forall f, f ∈ q -> (f < n)%nat) -> StronglySorted lt (q ++ [n]).
Proof.
  induction 1 as [|a q Hq IH Ha]; intros Hn; simpl; [repeat constructor|].
  rewrite Forall_forall in Ha. constructor.
  - apply IH. intros f Hf. apply Hn. set_solver.
  - apply Forall_forall. intros x [Hx| ->%list_elem_of_singleton]%elem_of_app.
    + by apply Ha.
    + apply Hn. set_solver.
Qed.

Lemma length_remove_first f q : f ∈ q -> S (length (remove_first f q)) = length q.
Proof.
  induction q as [|a q IH]; [by rewrite elem_of_nil|]. rewrite elem_of_cons. simpl.
  intros Hf. case_decide; [done|]. simpl. rewrite IH; [done|naive_solver].
Qed.

Lemma first_not_done_spec w q :
  StronglySorted lt q ->
  match first_not_done w q with
  | Some f => f ∈ q /\ futs w !! f = Some Pending /\ forall g, g ∈ q -> futs w !! g = Some Pending -> (f <= g)%nat
  | None => forall g, g ∈ q -> futs w !! g <> Some Pending
  end.
Proof.
  induction 1 as [|a q Hq IH Ha]; simpl; [set_solver|]. rewrite Forall_forall in Ha.
  unfold done_ at 1. case_bool_decide as Hp; simpl.
  - split; [set_solver|]. split; [done|]. intros g [->|Hg%Ha]%elem_of_cons _; lia.
  - destruct (first_not_done w q) as [f|]; [|set_solver].
    destruct IH as (Hin & Hf & Hle). split; [set_solver|]. split; [done|].
    intros g [->|Hg]%elem_of_cons; [done|auto].
Qed.

(** ** The wake loop *)

(** How a sequence of grants changes the world: tokens go to pending futures,
    oldest first, and only while the ceiling admits them. *)
Record woken (w w' : world) : Prop := {
  wk_total : _total w' = _total w;
  wk_holders : holders w' = holders w;
  wk_next : next_fut w' = next_fut w;
  wk_borrowed : _borrowed w <= _borrowed w' <= Z.max (_borrowed w) (_total w);
  wk_futs : forall f, futs w' !! f = futs w !! f \/
    futs w !! f = Some Pending /\ futs w' !! f = Some Resolved /\
    forall g, (g < f)%nat -> futs w' !! g <> Some Pending;
}.

Lemma woken_refl w : woken w w.
Proof. constructor; auto; lia. Qed.

Lemma wake_next_inv0 w w' :
  inv0 w -> 0 < available_tokens w -> _wake_next w = Some w' ->
  inv0 w' /\ woken w w' /\ S (length (_waiters w')) = length (_waiters w).
Proof.
  intros [Ht Hq Hp Hs Hf Htok] Hav. unfold _wake_next.
  pose proof (first_not_done_spec w _ Hs) as Hfirst.
  destruct (first_not_done w (_waiters w)) as [f|]; [|done]. intros [= <-].
  destruct Hfirst as (Hin & Hfp & Hle). split; [|split].
  - constructor; simpl; auto.
    + intros g [Hg Hne]%elem_of_remove_first; [|done]. rewrite lookup_insert_ne by done. auto.
    + intros g Hg. rewrite elem_of_remove_first by done.
      destruct (decide (g = f)) as [->|Hne]; [by rewrite lookup_insert_eq in Hg|].
      rewrite lookup_insert_ne in Hg by done. auto.
    + by apply sorted_remove_first.
    + intros g Hg. apply Hf. destruct (decide (g = f)) as [->|Hne]; [by eexists|].
      by rewrite lookup_insert_ne in Hg.
    + rewrite granted_insert. rewrite (granted_lookup _ _ _ Hfp) in Htok. unfold granted in *.
      simpl in *. lia.
  - unfold available_tokens in Hav. constructor; simpl; auto; [lia|].
    intros g. destruct (decide (g = f)) as [->|Hne]; [right|left; by rewrite lookup_insert_ne].
    rewrite lookup_insert_eq. do 2 (split; [done|]). intros h Hh. rewrite lookup_insert_ne by lia.
    intros Hpend. specialize (Hle h (Hp _ Hpend) Hpend). lia.
  - simpl. by apply length_remove_first.
Qed.

Lemma woken_trans w1 w2 w3 : woken w1 w2 -> woken w2 w3 -> woken w1 w3.
Proof.
  intros [] []. constructor; try congruence; [lia|]. intros f.
  destruct (wk_futs1 f) as [Hf|(Hp & Hr & Hlt)], (wk_futs0 f) as [Hf'|(Hp' & Hr' & Hlt')].
  - left. congruence.
  - right. split; [done|]. split; [congruence|]. intros g Hg. specialize (Hlt' g Hg).
    destruct (wk_futs1 g) as [->|(? & -> & _)]; congruence.
  - right. split; [congruence|]. split; [congruence|]. done.
  - congruence.
Qed.

Lemma wake_loop_spec n w :
  inv0 w ->
  let w' := wake_loop n w in
  inv0 w' /\ woken w w' /\ ((length (_waiters w) < n)%nat -> awake w').
Proof.
  revert w. induction n as [|n IH]; intros w Hinv; simpl.
  { split; [done|]. split; [apply woken_refl|]. lia. }
  destruct (0 <? available_tokens w) eqn:Hav; bool_prop.
  - destruct (_wake_next w) as [w1|] eqn:Hw.
    + destruct (wake_next_inv0 _ _ Hinv Hav Hw) as (Hi & Hwk & Hlen).
      destruct (IH w1 Hi) as (Hi' & Hwk' & Haw). split; [done|].
      split; [eauto using woken_trans|]. intros. apply Haw. lia.
    + split; [done|]. split; [apply woken_refl|]. intros _ _ f Hf.
      unfold _wake_next in Hw. pose proof (first_not_done_spec w _ (inv_sorted _ Hinv)) as Hfirst.
      destruct (first_not_done w (_waiters w)); [done|]. by apply (Hfirst f (inv_pending _ Hinv _ Hf)).
  - split; [done|]. split; [apply woken_refl|]. intros _ Hgt. lia.
Qed.

Lemma wake_eligible_inv w :
  inv0 w -> inv (_wake_eligible_waiters w) /\ woken w (_wake_eligible_waiters w).
Proof.
  intros Hinv. destruct (wake_loop_spec (S (length (_waiters w))) w Hinv) as (Hi & Hw & Ha).
  split; [|done]. split; [done|]. apply Ha. lia.
Qed.

(** ** Every event keeps the invariant *)

Lemma enqueue_inv0 w :
  inv0 w ->
  inv0 (World (_total w) (_borrowed w) (_waiters w ++ [next_fut w]) (<[next_fut w := Pending]> (futs w))
          (must_cancel w) (holders w) (S (next_fut w))).
Proof.
  intros [Ht Hq Hp Hs Hf Htok].
  assert (Hfresh : futs w !! next_fut w = None).
  { apply eq_None_not_Some. intros Hsome. apply Hf in Hsome. lia. }
  constructor; simpl; auto.
  - intros f [Hin| ->%list_elem_of_singleton]%elem_of_app.
    + rewrite lookup_insert_ne; [auto|]. intros <-. destruct (Hq _ Hin) as [[? ?] _]. congruence.
    + rewrite lookup_insert_eq. split; [by eexists|done].
  - intros f Hfp. apply elem_of_app. destruct (decide (f = next_fut w)) as [->|Hne].
    + right. by apply list_elem_of_singleton.
    + left. rewrite lookup_insert_ne in Hfp by done. auto.
  - apply sorted_snoc; [done|]. intros f Hin. by apply Hf, Hq.
  - intros f Hsome. destruct (decide (f = next_fut w)) as [->|Hne]; [lia|].
    rewrite lookup_insert_ne in Hsome by done. apply Hf in Hsome. lia.
  - rewrite granted_insert, delete_id by done. exact Htok.
Qed.

(** On a reachable world a non-cancelled waiter is a pending one. *)
Lemma locked_iff w : inv w -> locked w = (available_tokens w <=? 0).
Proof.
  intros [[Ht Hq Hp Hs Hf Htok] Haw]. unfold locked.
  destruct (available_tokens w <=? 0) eqn:Hav; [done|]. bool_prop. simpl.
  apply not_true_is_false. intros (f & Hin & Hc)%existsb_exists. apply negb_true_iff, bool_decide_eq_false in Hc.
  apply list_elem_of_In in Hin. destruct (Hq _ Hin) as [[[] Hst] Hr]; [|congruence|congruence].
  by apply (Haw Hav f).
Qed.

Lemma acquire_inv w : inv w -> inv (acquire w).
Proof.
  intros Hinv. unfold acquire. rewrite locked_iff by done. destruct Hinv as [Hinv Haw].
  destruct (available_tokens w <=? 0) eqn:Hav; simpl; bool_prop.
  - split; [by apply enqueue_inv0|]. unfold awake, available_tokens in *. simpl. lia.
  - destruct Hinv. split; [constructor; auto; unfold granted in *; simpl in *; lia|].
    intros _. by apply Haw.
Qed.

Lemma resume_inv0 w f :
  inv0 w -> is_Some (futs w !! f) -> futs w !! f <> Some Pending ->
  let raises := cancelled w f || bool_decide (f ∈ must_cancel w) in
  inv0 (World (_total w) (if raises && (done_ w f && negb (cancelled w f)) then _borrowed w - 1 else _borrowed w)
          (if bool_decide (f ∈ _waiters w) then remove_first f (_waiters w) else _waiters w)
          (delete f (futs w)) (must_cancel w ∖ {[f]}) (if raises then holders w else S (holders w)) (next_fut w)).
Proof.
  intros [Ht Hq Hp Hs Hf Htok] [s Hsome] Hnp.
  assert (Hwq : forall g, g ∈ (if bool_decide (f ∈ _waiters w) then remove_first f (_waiters w) else _waiters w)
                  <-> g ∈ _waiters w /\ g <> f).
  { intros g. case_bool_decide; [by apply elem_of_remove_first|]. naive_solver. }
  constructor; simpl; auto.
  - intros g [Hg Hne]%Hwq. rewrite lookup_delete_ne by done. auto.
  - intros g [Hne Hg]%lookup_delete_Some. apply Hwq. auto.
  - case_bool_decide; [by apply sorted_remove_first|done].
  - intros g [x [Hne Hg]%lookup_delete_Some]. apply Hf. by eexists.
  - rewrite (granted_lookup _ _ _ Hsome) in Htok. unfold granted in *. simpl in *.
    unfold done_, cancelled. rewrite Hsome. destruct s; [congruence| |]; simpl in *;
      destruct (bool_decide (f ∈ must_cancel w)); simpl; lia.
Qed.

Lemma cancel_inv f w : inv w -> inv (cancel_task f w).
Proof.
  intros [[Ht Hq Hp Hs Hf Htok] Haw]. unfold cancel_task.
  destruct (futs w !! f) as [[]|] eqn:Hst; [|split; [constructor|]; done..].
  split.
  - constructor; simpl; auto.
    + intros g Hg. destruct (decide (g = f)) as [->|Hne].
      * rewrite lookup_insert_eq. split; [by eexists|done].
      * rewrite lookup_insert_ne by done. auto.
    + intros g Hg. destruct (decide (g = f)) as [->|Hne]; [by rewrite lookup_insert_eq in Hg|].
      rewrite lookup_insert_ne in Hg by done. auto.
    + intros g Hg. apply Hf. destruct (decide (g = f)) as [->|Hne]; [by eexists|].
      by rewrite lookup_insert_ne in Hg.
    + rewrite granted_insert. rewrite (granted_lookup _ _ _ Hst) in Htok. exact Htok.
  - intros Hav g Hg. simpl in Hg. destruct (decide (g = f)) as [->|Hne].
    + by rewrite lookup_insert_eq in Hg.
    + rewrite lookup_insert_ne in Hg by done. by apply (Haw Hav g).
Qed.

Lemma release_inv0 w :
  inv0 w -> (0 < holders w)%nat ->
  inv0 (World (_total w) (_borrowed w - 1) (_waiters w) (futs w) (must_cancel w) (pred (holders w)) (next_fut w)).
Proof. intros [] Hh. constructor; auto. unfold granted in *. simpl in *. lia. Qed.

Lemma resize_inv0 w n :
  inv0 w -> 1 <= n ->
  inv0 (World n (_borrowed w) (_waiters w) (futs w) (must_cancel w) (holders w) (next_fut w)).
Proof. intros [] Hn. constructor; auto. Qed.

Lemma enabled_resume w f :
  enabled (EResume f) w = true -> is_Some (futs w !! f) /\ futs w !! f <> Some Pending.
Proof.
  simpl. intros [Hs%bool_decide_eq_true Hd]%andb_true_iff. split; [done|].
  by apply negb_true_iff, bool_decide_eq_false in Hd.
Qed.

(** What the four waking events do to the world: a bookkeeping step [base] that
    keeps the invariant, then grants. *)
Lemma exec_woken e w w' :
  inv w -> enabled e w = true -> exec e w = Ok w' ->
  match e with
  | EAcquire => w' = acquire w
  | ECancel f => w' = cancel_task f w
  | _ => exists base, inv0 base /\ woken base w' /\ inv w' /\
      match e with
      | EResume f => futs base = delete f (futs w) /\ _total base = _total w /\
          _borrowed base <= _borrowed w /\ futs w !! f <> Some Pending
      | ERelease => futs base = futs w /\ _total base = _total w /\ _borrowed base = _borrowed w - 1 /\
          holders base = pred (holders w)
      | EResize n => futs base = futs w /\ _total base = n /\ _borrowed base = _borrowed w
      | _ => True
      end
  end.
Proof.
  intros [Hinv _] Hen Hex. destruct e as [|f|f| |n]; simpl in Hex; try (by injection Hex).
  - injection Hex as <-. apply enabled_resume in Hen as [Hs Hd].
    pose proof (resume_inv0 w f Hinv Hs Hd) as Hb. destruct (wake_eligible_inv _ Hb).
    eexists. split; [exact Hb|]. do 2 (split; [done|]). simpl. do 2 (split; [done|]). split; [|done].
    guard_cases; lia.
  - unfold release in Hex. guard_cases_in Hex; [done|]. injection Hex as <-. simpl in Hen.
    apply bool_decide_eq_true in Hen. pose proof (release_inv0 w Hinv Hen) as Hb.
    destruct (wake_eligible_inv _ Hb). by eexists.
  - unfold resize in Hex. guard_cases_in Hex; [done|]. injection Hex as <-. bool_prop.
    pose proof (resize_inv0 w n Hinv ltac:(done)) as Hb. destruct (wake_eligible_inv _ Hb). by eexists.
Qed.

Lemma exec_inv e w w' : inv w -> enabled e w = true -> exec e w = Ok w' -> inv w'.
Proof.
  intros Hinv Hen Hex. pose proof (exec_woken _ _ _ Hinv Hen Hex) as H.
  destruct e; [subst w'; by apply acquire_inv| |subst w'; by apply cancel_inv|..];
    by destruct H as (? & _ & _ & ? & _).
Qed.

Lemma reachable_inv w : reachable w -> inv w.
Proof.
  induction 1 as [n w Hn|e w w' Hr IH Hen Hex].
  - unfold new_limiter in Hn. guard_cases_in Hn; [done|]. injection Hn as <-. bool_prop.
    split; [constructor; simpl; auto; try done; try lia; [set_solver|constructor|]|done].
    intros f [? Hf]. done.
  - eauto using exec_inv.
Qed.

#[export] Hint Resolve reachable_inv : phaze.

(** C40: no lost wakeup.  In every reachable world a free token means that no
    acquire is waiting, so [locked] answers exactly "no token is free": the
    FIFO test for queued waiters never refuses a caller a free token. *)
Theorem no_lost_wakeup w :
  reachable w ->
  (0 < available_tokens w -> forall f, futs w !! f <> Some Pending) /\
  locked w = (available_tokens w <=? 0).
Proof. intros Hr%reachable_inv. split; [apply Hr|by apply locked_iff]. Qed.

Lemma exec_tokens e w w' :
  inv w -> enabled e w = true -> exec e w = Ok w' ->
  _borrowed w' <= Z.max (_borrowed w) (_total w') /\ (forall n, e = EResize n -> _borrowed w <= _borrowed w').
Proof.
  intros Hinv Hen Hex. pose proof (exec_woken _ _ _ Hinv Hen Hex) as H. destruct e as [|f|f| |n].
  - subst w'. unfold acquire. rewrite locked_iff by done. unfold available_tokens.
    destruct (_ <=? 0) eqn:?; bool_prop; simpl; split; (lia || done).
  - destruct H as (b & _ & [] & _ & ? & ? & ? & _). split; [lia|done].
  - subst w'. split; [|done]. unfold cancel_task. destruct (futs w !! f) as [[]|]; simpl; lia.
  - destruct H as (b & _ & [] & _ & ? & ? & ? & _). split; [lia|done].
  - destruct H as (b & _ & [] & _ & ? & ? & ?). split; [lia|]. intros. lia.
Qed.

(** Token accounting.  [_borrowed] is always the number of holders plus
    the grants not yet picked up, no event admits a token beyond the ceiling in
    force after it, a shrink never takes a token back, and a holder's [release]
    never raises. *)
Theorem tokens_accounted w :
  reachable w ->
  _borrowed w = Z.of_nat (holders w + granted w) /\
  ((0 < holders w)%nat -> is_ok (release w) = true) /\
  forall e w', enabled e w = true -> exec e w = Ok w' ->
    _borrowed w' <= Z.max (_borrowed w) (_total w') /\ (forall n, e = EResize n -> _borrowed w <= _borrowed w').
Proof.
  intros Hinv%reachable_inv. destruct Hinv as [Hinv0 Haw]. split; [apply Hinv0|]. split.
  - intros Hh. destruct Hinv0. unfold release. destruct (_ <=? 0) eqn:?; [bool_prop; lia|done].
  - intros e w'. by apply exec_tokens.
Qed.

Lemma exec_futs e w w' f :
  inv w -> enabled e w = true -> exec e w = Ok w' ->
  futs w !! f = Some Pending -> futs w' !! f = Some Resolved ->
  forall g, (g < f)%nat -> futs w' !! g <> Some Pending.
Proof.
  intros Hinv Hen Hex Hp Hr. pose proof (exec_woken _ _ _ Hinv Hen Hex) as H. destruct e as [|x|x| |n].
  - subst w'. unfold acquire in Hr. rewrite locked_iff in Hr by done.
    destruct (_ <=? 0); simpl in Hr; [|congruence].
    destruct (decide (f = next_fut w)) as [->|Hne]; [by rewrite lookup_insert_eq in Hr|].
    rewrite lookup_insert_ne in Hr by done. congruence.
  - destruct H as (b & _ & Hwk & _ & Hb & _ & _ & Hx). destruct (wk_futs _ _ Hwk f) as [Hsame|(_ & _ & Hlt)]; [|done].
    rewrite Hb, lookup_delete_ne in Hsame; congruence.
  - subst w'. unfold cancel_task in Hr. destruct (futs w !! x) as [[]|] eqn:Hx; simpl in Hr; try congruence.
    destruct (decide (f = x)) as [->|Hne]; [by rewrite lookup_insert_eq in Hr|].
    rewrite lookup_insert_ne in Hr by done. congruence.
  - destruct H as (b & _ & Hwk & _ & Hb & _). destruct (wk_futs _ _ Hwk f) as [Hsame|(_ & _ & Hlt)]; [|done].
    rewrite Hb in Hsame. congruence.
  - destruct H as (b & _ & Hwk & _ & Hb & _). destruct (wk_futs _ _ Hwk f) as [Hsame|(_ & _ & Hlt)]; [|done].
    rewrite Hb in Hsame. congruence.
Qed.

(** First come, first served.  When an event gives a queued waiter its
    token, every waiter that queued before it has already left the queue, and a
    new caller takes the fast path only when no older caller is waiting. *)
Theorem fifo_service w e w' :
  reachable w -> enabled e w = true -> exec e w = Ok w' ->
  (forall f, futs w !! f = Some Pending -> futs w' !! f = Some Resolved ->
     forall g, (g < f)%nat -> futs w' !! g <> Some Pending) /\
  (e = EAcquire -> holders w' = S (holders w) -> forall f, futs w !! f <> Some Pending).
Proof.
  intros Hinv%reachable_inv Hen Hex. split; [intros; eapply exec_futs; eauto|]. intros -> Hh.
  simpl in Hex. injection Hex as <-. unfold acquire in Hh. rewrite locked_iff in Hh by done.
  destruct (_ <=? 0) eqn:Hav; simpl in Hh; [lia|]. bool_prop. by apply Hinv.
Qed.

(** A release is never lost.  While the limiter is not over its ceiling, a
    holder's release hands the freed token to the oldest pending waiter before
    it returns. *)
Theorem release_wakes_oldest w f w' :
  reachable w -> (0 < holders w)%nat -> _borrowed w <= _total w ->
  futs w !! f = Some Pending -> (forall g, (g < f)%nat -> futs w !! g <> Some Pending) ->
  release w = Ok w' ->
  futs w' !! f = Some Resolved.
Proof.
  intros Hinv%reachable_inv Hh Hbt Hf Hold Hex.
  destruct (exec_woken ERelease w w' Hinv (bool_decide_eq_true_2 _ Hh) Hex)
    as (b & _ & [Ht Hho _ _ Hfu] & [Hinv' Haw] & Hb & Htot & _ & Hhb).
  rewrite Hb in Hfu. destruct (Hfu f) as [Hsame|(_ & Hr & _)]; [|done]. exfalso.
  rewrite Hf in Hsame.
  assert (Heq : futs w' = futs w).
  { apply map_eq. intros g. destruct (Hfu g) as [?|(Hg & _ & Hlt)]; [done|].
    destruct (Nat.lt_trichotomy g f) as [Hl|[->|Hl]].
    - by destruct (Hold g Hl).
    - congruence.
    - by destruct (Hlt f Hl). }
  apply (Haw) with (f := f); [|done]. unfold available_tokens.
  pose proof (inv_tokens _ Hinv') as Htok'. pose proof (inv_tokens _ (proj1 Hinv)) as Htok.
  unfold granted in *. rewrite Heq in Htok'. lia.
Qed.

(** ** A concrete run: one token, one holder, two waiters *)

Definition run (es : list event) (w : world) : outcome string world :=
  fold_left (fun acc e => try! w <- acc; if enabled e w then exec e w else Raise "disabled"%string) es (Ok w).

Lemma run_reachable es w w' : reachable w -> run es w = Ok w' -> reachable w'.
Proof.
  unfold run. revert w. induction es as [|e es IH]; simpl; intros w Hr Hrun; [congruence|].
  destruct (enabled e w) eqn:Hen.
  - destruct (exec e w) as [w1|err] eqn:Hex; [eapply IH; [|exact Hrun]; eauto using reach_exec|].
    exfalso. clear - Hrun. by induction es as [|? ? IH]; simpl in *; auto.
  - exfalso. clear - Hrun. by induction es as [|? ? IH]; simpl in *; auto.
Qed.

Definition demo : world :=
  match run [EAcquire; EAcquire; EAcquire] (World 1 0 [] ∅ ∅ 0 0) with Ok w => w | Raise _ => World 0 0 [] ∅ ∅ 0 0 end.

Lemma demo_reachable : reachable demo.
Proof.
  apply (run_reachable [EAcquire; EAcquire; EAcquire] (World 1 0 [] ∅ ∅ 0 0)); [|by vm_compute].
  by apply (reach_new 1).
Qed.

Lemma no_lost_wakeup_witness : locked demo = true /\ locked demo = (available_tokens demo <=? 0).
Proof. split; [by vm_compute|]. exact (proj2 (no_lost_wakeup demo demo_reachable)). Defined.

Lemma tokens_accounted_witness : holders demo = 1%nat /\ _borrowed demo = Z.of_nat (holders demo + granted demo).
Proof. split; [by vm_compute|]. exact (proj1 (tokens_accounted demo demo_reachable)). Defined.

Definition demo_released : world := match release demo with Ok w => w | Raise _ => demo end.

Lemma fifo_service_witness : futs demo_released !! 0%nat = Some Resolved /\ futs demo_released !! 1%nat = Some Pending /\
  forall g, (g < 0)%nat -> futs demo_released !! g <> Some Pending.
Proof.
  split; [by vm_compute|]. split; [by vm_compute|].
  pose proof (proj1 (fifo_service demo ERelease demo_released demo_reachable ltac:(by vm_compute) ltac:(by vm_compute))
    0%nat ltac:(by vm_compute) ltac:(by vm_compute)) as H. exact H.
Defined.

Lemma release_wakes_oldest_witness : futs demo !! 0%nat = Some Pending /\ futs demo_released !! 0%nat = Some Resolved.
Proof.
  split; [by vm_compute|].
  apply (release_wakes_oldest demo 0%nat demo_released demo_reachable);
    try (by vm_compute); intros g Hg; lia.
Defined.
