(* ===== verification/Containment.v ===== *)
(** * Path containment: [services/containment.py], [services/media_path_resolve.py]

    A directory tree maps an absolute, link-free location (its components from
    the root) to a node.  [kernel] is how the operating system resolves a path
    that must exist; [realpath] is the non-strict resolution behind
    [Path.resolve()].  The Unicode normal form is a table of the interpreter:
    [nfc] is a parameter.  A resolution fails on a loop or a missing entry; the
    kernel's limit of 40 links and permissions are not modelled. *)
From Stdlib Require Import Ascii.
From S2P Require Import Prelude.
From stdpp Require Import options.

Abbreviation dir := (list string) (only parsing).

Inductive node : Type :=
| NFile (ino : nat)
| NDir
| NLink (absolute : bool) (target : dir).
#[export] Instance node_eq_dec : EqDecision node.
Proof. solve_decision. Defined.

Abbreviation tree := (gmap dir node).

(** Every entry sits in a directory, the root always exists, and no entry is
    called [".."]. *)
Record wf_tree (t : tree) : Prop := {
  wf_root : t !! ([] : dir) = Some NDir;
  wf_parent : forall d c, is_Some (t !! (d ++ [c])) -> t !! d = Some NDir;
  wf_names : forall d c, is_Some (t !! (d ++ [c])) -> c <> "..";
}.

(** ** Pure paths

    [Path(s)]: the components between slashes, empty ones and ["."] dropped. *)
Record pure : Type := Pure { is_absolute : bool; parts : dir }.
#[export] Instance pure_eq_dec : EqDecision pure.
Proof. solve_decision. Defined.

Fixpoint split_slash (acc : string) (s : string) : dir :=
  match s with
  | EmptyString => [acc]
  | String c s' =>
      if Ascii.eqb c "/"%char then acc :: split_slash "" s'
      else split_slash (acc +:+ String c EmptyString) s'
  end.

Definition keep_part (c : string) : bool := negb (bool_decide (c = "")) && negb (bool_decide (c = ".")).

Definition mk_path (s : string) : pure :=
  Pure (match s with String "/" _ => true | _ => false end) (List.filter keep_part (split_slash "" s)).

(** [base / other]: an absolute right operand replaces the left one. *)
Definition path_join (base : pure) (other : string) : pure :=
  let o := mk_path other in
  if is_absolute o then o else Pure (is_absolute base) (parts base ++ parts o).

Definition path_parent (d : dir) : dir := removelast d.

(** ** Path resolution

    [active] holds the links being expanded: meeting one again is a loop, on
    which the kernel fails and the non-strict resolution keeps the link itself.
    Each nested expansion adds a new link of the tree to [active], so the
    number of entries of the tree is enough fuel. *)
Fixpoint realpath (fuel : nat) (t : tree) (active : list dir) : dir -> dir -> dir :=
  fix walk (acc rest : dir) {struct rest} : dir :=
    match rest with
    | [] => acc
    | c :: rest' =>
        if bool_decide (c = "..") then walk (path_parent acc) rest'
        else
          let newpath := acc ++ [c] in
          match t !! newpath with
          | Some (NLink absolute target) =>
              if bool_decide (newpath ∈ active) then walk newpath rest'
              else match fuel with
                   | O => walk newpath rest'
                   | S fuel' => walk (realpath fuel' t (newpath :: active) (if absolute then [] else acc) target) rest'
                   end
          | _ => walk newpath rest'
          end
    end.

Fixpoint kernel (fuel : nat) (t : tree) (active : list dir) : dir -> dir -> option dir :=
  fix walk (acc rest : dir) {struct rest} : option dir :=
    match rest with
    | [] => Some acc
    | c :: rest' =>
        if negb (bool_decide (t !! acc = Some NDir)) then None
        else if bool_decide (c = "..") then walk (path_parent acc) rest'
        else
          let newpath := acc ++ [c] in
          match t !! newpath with
          | Some (NLink absolute target) =>
              if bool_decide (newpath ∈ active) then None
              else match fuel with
                   | O => None
                   | S fuel' =>
                       match kernel fuel' t (newpath :: active) (if absolute then [] else acc) target with
                       | Some d => walk d rest'
                       | None => None
                       end
                   end
          | Some _ => walk newpath rest'
          | None => None
          end
    end.

(** [Path.resolve()] with working directory [cwd]. *)
Definition resolve (cwd : dir) (t : tree) (p : pure) : dir :=
  realpath (size t) t [] (if is_absolute p then [] else cwd) (parts p).

(** The location a path names, when it exists. *)
Definition stat_path (cwd : dir) (t : tree) (p : pure) : option dir :=
  kernel (size t) t [] (if is_absolute p then [] else cwd) (parts p).

Definition path_exists (cwd : dir) (t : tree) (p : pure) : bool := bool_decide (is_Some (stat_path cwd t p)).

(** ** [services/containment.py] *)

(** [resolved.relative_to(root)] does not raise. *)
Definition is_relative_to (resolved root : dir) : bool := bool_decide (root `prefix_of` resolved).

Fixpoint check_roots (cwd : dir) (t : tree) (resolved : dir) (scan_roots : list string) : outcome string (dir * dir) :=
  match scan_roots with
  | [] => Raise "ValueError"
  | root :: roots =>
      let root_resolved := resolve cwd t (mk_path root) in
      if is_relative_to resolved root_resolved then Ok (resolved, root_resolved)
      else check_roots cwd t resolved roots
  end.

Definition resolve_and_check_containment (cwd : dir) (t : tree) (candidate : pure) (scan_roots : list string)
    : outcome string (dir * dir) :=
  check_roots cwd t (resolve cwd t candidate) scan_roots.

(** ** [services/media_path_resolve.py] *)

Section twin.
Context (nfc : string -> string) (cwd : dir) (t : tree).

(** [parent.iterdir()]: the names in the directory a path names, [None] when
    it cannot be listed. *)
Definition iterdir (parent : pure) : option (list string) :=
  match stat_path cwd t parent with
  | Some d =>
      if bool_decide (t !! d = Some NDir) then
        Some (omap (fun e : dir * node => match last e.1 with
                                         | Some c => if bool_decide (removelast e.1 = d) then Some c else None
                                         | None => None
                                         end) (map_to_list t))
      else None
  | None => None
  end.

Definition _nfc_match (parent : pure) (wanted_name : string) : option pure :=
  match iterdir parent with
  | None => None
  | Some entries =>
      match List.find (fun e => bool_decide (nfc e = nfc wanted_name)) entries with
      | Some e => Some (Pure (is_absolute parent) (parts parent ++ [e]))
      | None => None
      end
  end.

(** The walk up: [rev_parts] is the ancestor, innermost component first.  It
    returns the longest existing ancestor and the components below it. *)
Fixpoint walk_up (absolute : bool) (rev_parts : dir) (pending : dir) : option (pure * dir) :=
  if path_exists cwd t (Pure absolute (rev rev_parts)) then Some (Pure absolute (rev rev_parts), pending)
  else match rev_parts with
       | [] => None
       | name :: up => walk_up absolute up (name :: pending)
       end.

Fixpoint walk_down (resolved : pure) (pending : dir) : option pure :=
  match pending with
  | [] => Some resolved
  | component :: rest =>
      let child := Pure (is_absolute resolved) (parts resolved ++ [component]) in
      if path_exists cwd t child then walk_down child rest
      else match _nfc_match resolved component with
           | None => None
           | Some match_ => walk_down match_ rest
           end
  end.

Definition resolve_media_path (path : pure) : pure :=
  if path_exists cwd t path then path
  else match rev (parts path) with
       | [] => path
       | name :: up =>
           match walk_up (is_absolute path) up [name] with
           | None => path
           | Some (ancestor, pending) => default path (walk_down ancestor pending)
           end
       end.

Definition resolve_contained_twin (candidate : pure) (scan_roots : list string) : outcome string (dir * dir) :=
  resolve_and_check_containment cwd t (resolve_media_path candidate) scan_roots.

End twin.

(** ** Resolution *)

Definition is_link (n : node) : bool := match n with NLink _ _ => true | _ => false end.

(** A location no link leads away from. *)
Definition physical (t : tree) (d : dir) : Prop := exists n, t !! d = Some n /\ is_link n = false.

Lemma wf_prefix t d e : wf_tree t -> is_Some (t !! (d ++ e)) -> e <> [] -> t !! d = Some NDir.
Proof.
  intros Hwf. revert d. induction e as [|c e IH] using rev_ind; intros d Hs Hne; [done|].
  rewrite app_assoc in Hs. pose proof (wf_parent _ Hwf _ _ Hs) as Hd.
  destruct (decide (e = [])) as [->|He]; [by rewrite app_nil_r in Hd|]. apply IH; [by eexists|done].
Qed.

Lemma wf_removelast t d : wf_tree t -> t !! d = Some NDir -> t !! removelast d = Some NDir.
Proof.
  intros Hwf Hd. destruct d as [|c d _] using rev_ind; [done|].
  rewrite removelast_last. eapply wf_parent; [done|by eexists].
Qed.

Lemma kernel_realpath fuel t : forall active acc rest d,
  kernel fuel t active acc rest = Some d -> realpath fuel t active acc rest = d.
Proof.
  induction fuel as [|fuel IH]; intros active acc rest; revert acc;
    (induction rest as [|c rest IHr]; intros acc d; simpl; [congruence|]);
    destruct (negb _); [done| |done|]; destruct (bool_decide (c = "..")); auto;
    destruct (t !! (acc ++ [c])) as [[]|]; try done; auto; destruct (bool_decide _); auto; try done.
  destruct (kernel fuel t _ _ target) as [e|] eqn:He; [|done]. intros H. rewrite (IH _ _ _ _ He). auto.
Qed.

(** A successful lookup ends at a physical location. *)
Lemma kernel_physical fuel t : wf_tree t -> forall active acc rest d,
  physical t acc -> kernel fuel t active acc rest = Some d -> physical t d.
Proof.
  intros Hwf. assert (Hroot : physical t []) by (exists NDir; split; [apply Hwf|done]).
  induction fuel as [|fuel IH]; intros active acc rest; revert acc;
    (induction rest as [|c rest IHr]; intros acc d Hacc; simpl; [congruence|]);
    (destruct (negb (bool_decide (t !! acc = Some NDir))) eqn:Hd; [done|]);
    apply negb_false_iff, bool_decide_eq_true in Hd;
    (destruct (bool_decide (c = "..")); [apply IHr; exists NDir; by eauto using wf_removelast|]);
    destruct (t !! (acc ++ [c])) as [[| |ab tg]|] eqn:Hn; try done;
    try (apply IHr; eexists; split; [exact Hn|done]); destruct (bool_decide _); try done.
  destruct (kernel fuel t _ _ tg) as [e|] eqn:He; [|done]. apply IHr.
  eapply IH; [|exact He]. by destruct ab.
Qed.

(** Opening a physical location follows no link: the lookup returns it as it is. *)
Lemma kernel_at_physical fuel t active acc rest :
  wf_tree t -> physical t (acc ++ rest) -> kernel fuel t active acc rest = Some (acc ++ rest).
Proof.
  intros Hwf. destruct fuel as [|fuel]; revert acc;
    (induction rest as [|c rest IHr]; intros acc Hp; simpl; [by rewrite app_nil_r|]);
    assert (Hs : is_Some (t !! (acc ++ c :: rest))) by (destruct Hp as (n & -> & _); by eexists);
    (rewrite bool_decide_eq_true_2 by (eapply wf_prefix; done)); simpl;
    (replace (acc ++ c :: rest) with ((acc ++ [c]) ++ rest) in * by (by rewrite <- app_assoc));
    (assert (Hc : is_Some (t !! (acc ++ [c]))) by
      (destruct (decide (rest = [])) as [->|]; [by rewrite app_nil_r in Hs|
       eexists; by eapply wf_prefix]));
    (rewrite (bool_decide_eq_false_2 (c = ".."))
      by (by eapply wf_names));
    (assert (Hnl : exists n, t !! (acc ++ [c]) = Some n /\ is_link n = false) by
      (destruct (decide (rest = [])) as [->|]; [by rewrite app_nil_r in Hp|
       exists NDir; split; [by eapply wf_prefix|done]]));
    destruct Hnl as ([] & -> & Hl); simpl in Hl; try done; by apply IHr.
Qed.

(** Enough fuel: with one unit per entry of the tree that is not being
    expanded, more fuel changes nothing. *)
Lemma realpath_fuel t : forall n m active acc rest,
  NoDup active -> (forall d, d ∈ active -> is_Some (t !! d)) ->
  (size t - length active <= n)%nat -> (size t - length active <= m)%nat ->
  realpath n t active acc rest = realpath m t active acc rest.
Proof.
  assert (Hcard : forall active : list dir, NoDup active -> (forall d, d ∈ active -> is_Some (t !! d)) ->
    (length active <= size t)%nat).
  { intros active Hnd Hin. rewrite <- (size_dom (D := gset dir) t).
    rewrite <- (size_list_to_set (C := gset dir) active Hnd). apply subseteq_size.
    intros d Hd%elem_of_list_to_set. by apply elem_of_dom, Hin. }
  intros n. induction n as [|n IH]; intros m active acc rest Hnd Hin Hn Hm; revert acc;
    (induction rest as [|c rest IHr]; intros acc; [by destruct m|]);
    destruct m as [|m]; simpl; simpl in IHr; rewrite ?IHr;
    (destruct (bool_decide (c = "..")); [done|]);
    destruct (t !! (acc ++ [c])) as [[]|] eqn:Hc; try done;
    case_bool_decide as Ha; try done;
    (assert (Hlen : (S (length active) <= size t)%nat) by
      (apply (Hcard ((acc ++ [c]) :: active)); [by constructor|];
       intros d [-> |Hd]%elem_of_cons; [by eexists|by apply Hin])); try lia.
  rewrite (IH m).
  - done.
  - by constructor.
  - intros d [->|Hd]%elem_of_cons; [by eexists|by apply Hin].
  - simpl. lia.
  - simpl. lia.
Qed.

(** ** The containment check *)

Lemma check_roots_spec cwd t resolved scan_roots :
  match check_roots cwd t resolved scan_roots with
  | Ok (p, r) => p = resolved /\ (exists root, root ∈ scan_roots /\ r = resolve cwd t (mk_path root)) /\ r `prefix_of` resolved
  | Raise e => e = "ValueError" /\ forall root, root ∈ scan_roots -> ~ resolve cwd t (mk_path root) `prefix_of` resolved
  end.
Proof.
  induction scan_roots as [|root roots IH]; simpl; [split; [done|set_solver]|].
  unfold is_relative_to. case_bool_decide as Hp.
  - split; [done|]. split; [|done]. exists root. split; [left|done].
  - destruct (check_roots cwd t resolved roots) as [[p r]|e].
    + destruct IH as (? & (root' & ? & ?) & ?). split; [done|]. split; [|done]. exists root'. split; [by right|done].
    + destruct IH as [? Hall]. split; [done|]. intros root' [->|?]%elem_of_cons; auto.
Qed.

Lemma stat_resolve cwd t p d : stat_path cwd t p = Some d -> resolve cwd t p = d.
Proof. apply kernel_realpath. Qed.

Lemma stat_physical cwd t p d :
  wf_tree t -> physical t cwd -> stat_path cwd t p = Some d -> physical t d.
Proof.
  intros Hwf Hcwd. apply kernel_physical; [done|].
  destruct (is_absolute p); [exists NDir; split; [apply Hwf|done]|done].
Qed.

(** ** The NFC/NFD twin *)

Lemma elem_of_iterdir cwd t parent entries c :
  iterdir cwd t parent = Some entries -> c ∈ entries ->
  exists d, stat_path cwd t parent = Some d /\ is_Some (t !! (d ++ [c])).
Proof.
  unfold iterdir. destruct (stat_path cwd t parent) as [d|] eqn:Hd; [|done].
  case_bool_decide; [|done]. intros [= <-] Hin. exists d. split; [done|].
  apply list_elem_of_omap in Hin as ([e n] & Hin & Hc). apply elem_of_map_to_list in Hin. simpl in Hc.
  destruct (last e) as [c'|] eqn:Hl; [|done]. apply last_Some in Hl as [e' ->]. rewrite removelast_last in Hc.
  case_bool_decide; [|done]. simplify_eq. by eexists.
Qed.

Lemma nfc_match_spec nfc cwd t parent wanted q :
  _nfc_match nfc cwd t parent wanted = Some q ->
  exists e, q = Pure (is_absolute parent) (parts parent ++ [e]) /\ nfc e = nfc wanted.
Proof.
  unfold _nfc_match. destruct (iterdir cwd t parent) as [entries|]; [|done].
  destruct (List.find _ entries) as [e|] eqn:He; [|done]. intros [= <-].
  apply List.find_some in He as [_ He%bool_decide_eq_true]. by exists e.
Qed.

Lemma walk_up_spec cwd t absolute rev_parts : forall pending anc rest,
  walk_up cwd t absolute rev_parts pending = Some (anc, rest) ->
  is_absolute anc = absolute /\ parts anc ++ rest = rev rev_parts ++ pending /\ path_exists cwd t anc = true.
Proof.
  induction rev_parts as [|name up IH]; intros pending anc rest; cbn [walk_up];
    (destruct (path_exists cwd t _) eqn:He; [intros [= <- <-]; done|]); [done|].
  intros (? & -> & ?)%IH. split; [done|]. split; [|done]. simpl. by rewrite <- app_assoc.
Qed.

Lemma walk_down_spec nfc cwd t pending : forall resolved q,
  walk_down nfc cwd t resolved pending = Some q ->
  exists found, is_absolute q = is_absolute resolved /\ parts q = parts resolved ++ found /\
    Forall2 (fun a b => nfc a = nfc b) found pending.
Proof.
  induction pending as [|c pending IH]; intros resolved q; cbn [walk_down].
  - intros [= <-]. exists []. by rewrite app_nil_r.
  - destruct (path_exists cwd t _) eqn:He.
    + intros (f & ? & -> & ?)%IH. exists (c :: f). simpl in *. by rewrite <- app_assoc; auto.
    + destruct (_nfc_match nfc cwd t resolved c) as [m|] eqn:Hm; [|done].
      apply nfc_match_spec in Hm as (e & -> & Hnfc). intros (f & ? & -> & ?)%IH. exists (e :: f).
      simpl in *. rewrite <- app_assoc. auto.
Qed.

(** The twin lookup only repairs a normalization mismatch.  A path that
    exists byte-exact is returned as it is; any other result has the same
    components up to NFC, in the same order and number, below the longest
    ancestor of the input that exists. *)
Theorem media_path_only_renormalizes nfc cwd t path :
  let q := resolve_media_path nfc cwd t path in
  (path_exists cwd t path = true -> q = path) /\
  is_absolute q = is_absolute path /\
  Forall2 (fun a b => nfc a = nfc b) (parts q) (parts path) /\
  (q <> path -> exists anc found, q = Pure (is_absolute path) (parts anc ++ found) /\
     parts anc `prefix_of` parts path /\ path_exists cwd t anc = true).
Proof.
  assert (Hrefl : forall l, Forall2 (fun a b => nfc a = nfc b) l l) by (intros l; by apply Forall_Forall2_diag, Forall_true).
  unfold resolve_media_path. destruct (path_exists cwd t path) eqn:He; [naive_solver|].
  destruct (rev (parts path)) as [|name up] eqn:Hrev; [naive_solver|].
  destruct (walk_up cwd t (is_absolute path) up [name]) as [[anc pending]|] eqn:Hup; [|naive_solver].
  apply walk_up_spec in Hup as (Habs & Hparts & Hex).
  assert (Hpath : parts path = parts anc ++ pending).
  { rewrite Hparts, <- (rev_involutive (parts path)), Hrev. done. }
  destruct (walk_down nfc cwd t anc pending) as [q|] eqn:Hdown; simpl; [|naive_solver].
  apply walk_down_spec in Hdown as (found & Hq & Hpq & Hf2). split; [done|]. split; [congruence|]. split.
  - rewrite Hpath, Hpq. by apply Forall2_app.
  - intros _. exists anc, found. split; [destruct q; simpl in *; congruence|].
    split; [rewrite Hpath; by eexists|done].
Qed.

(** C39: containment.  The check accepts exactly the candidates whose resolved
    twin lies under a resolved root; what it returns is that location and the
    first such root; and when the twin exists, the returned location is where
    the file physically is, so opening it follows no symbolic link and cannot
    leave the root.  With no root configured it always refuses. *)
Theorem contained_twin_sound_complete nfc cwd t candidate scan_roots :
  wf_tree t -> physical t cwd ->
  let twin := resolve_media_path nfc cwd t candidate in
  (is_ok (resolve_contained_twin nfc cwd t candidate scan_roots) = true <->
     exists root, root ∈ scan_roots /\ resolve cwd t (mk_path root) `prefix_of` resolve cwd t twin) /\
  (forall p r, resolve_contained_twin nfc cwd t candidate scan_roots = Ok (p, r) ->
     r `prefix_of` p /\ (exists root, root ∈ scan_roots /\ r = resolve cwd t (mk_path root)) /\
     forall d, stat_path cwd t twin = Some d ->
       p = d /\ physical t p /\ stat_path cwd t (Pure true p) = Some p).
Proof.
  intros Hwf Hcwd twin. unfold resolve_contained_twin, resolve_and_check_containment. fold twin.
  pose proof (check_roots_spec cwd t (resolve cwd t twin) scan_roots) as H.
  destruct (check_roots cwd t (resolve cwd t twin) scan_roots) as [[p r]|e]; simpl.
  - destruct H as (-> & (root & Hroot & ->) & Hp). split; [split; [|done]; eauto|].
    intros ? ? [= <- <-]. split; [done|]. split; [eauto|]. intros d Hd.
    pose proof (stat_resolve _ _ _ _ Hd) as ->. pose proof (stat_physical _ _ _ _ Hwf Hcwd Hd) as Hph.
    split; [done|]. split; [done|]. by apply (kernel_at_physical _ _ [] []).
  - destruct H as [_ Hall]. split; [|done]. split; [done|]. intros (root & Hroot & Hp). by destruct (Hall root).
Qed.

(** ** A concrete tree: a library with a link that leads out of it *)

Lemma wf_tree_root : wf_tree {[ [] := NDir ]}.
Proof.
  constructor; [by vm_compute|..]; intros d c [? Hs];
    apply lookup_singleton_Some in Hs as [Hd _]; by destruct d.
Qed.

Lemma wf_tree_insert t d c n :
  wf_tree t -> t !! d = Some NDir -> t !! (d ++ [c]) = None -> c <> ".." -> wf_tree (<[d ++ [c] := n]> t).
Proof.
  intros [Hr Hp Hn] Hd Hfree Hc. constructor.
  - rewrite lookup_insert_ne; [done|]. by destruct d.
  - intros e x [? Hs]. destruct (decide (d ++ [c] = e ++ [x])) as [Heq|Hne].
    + apply app_inj_tail in Heq as [-> ->]. rewrite lookup_insert_ne; [done|].
      intros Heq. apply (f_equal length) in Heq. rewrite length_app in Heq. simpl in Heq. lia.
    + rewrite lookup_insert_ne in Hs by done. rewrite lookup_insert_ne; [eapply Hp; by eexists|].
      intros <-. rewrite (Hp (d ++ [c]) x) in Hfree; [done|by eexists].
  - intros e x [? Hs]. destruct (decide (d ++ [c] = e ++ [x])) as [Heq|Hne].
    + by apply app_inj_tail in Heq as [-> ->].
    + rewrite lookup_insert_ne in Hs by done. eapply Hn. by eexists.
Qed.

Definition library : tree :=
  <[["etc"; "passwd"] := NFile 2]> (<[["etc"] := NDir]> (<[["music"; "out"] := NLink true ["etc"]]>
    (<[["music"; "a.mp3"] := NFile 1]> (<[["music"] := NDir]> {[ [] := NDir ]})))).

Lemma library_wf : wf_tree library.
Proof.
  repeat first [apply wf_tree_root
    | refine (wf_tree_insert _ ["etc"] _ _ _ _ _ _) | refine (wf_tree_insert _ ["music"] _ _ _ _ _ _)
    | refine (wf_tree_insert _ [] _ _ _ _ _ _)]; done.
Qed.

Lemma contained_twin_sound_complete_witness :
  resolve_contained_twin id [] library (mk_path "/music/a.mp3") ["/music"] = Ok (["music"; "a.mp3"], ["music"]) /\
  is_ok (resolve_contained_twin id [] library (mk_path "/music/out/passwd") ["/music"]) = false /\
  stat_path [] library (Pure true ["music"; "a.mp3"]) = Some ["music"; "a.mp3"].
Proof.
  split; [by vm_compute|]. split; [by vm_compute|].
  assert (Hroot : physical library []) by (exists NDir; split; by vm_compute).
  destruct (contained_twin_sound_complete id [] library (mk_path "/music/a.mp3") ["/music"] library_wf Hroot)
    as [_ Hok].
  destruct (Hok ["music"; "a.mp3"] ["music"] ltac:(by vm_compute)) as (_ & _ & Hd).
  by apply (Hd ["music"; "a.mp3"] ltac:(by vm_compute)).
Defined.
