(* ===== verification/FsModel.v ===== *)
(** * The file system under the move engine

    Directory entries are volatile until their device's journal is committed:
    [stable] is what the disks hold, [journal] the records written since, each
    on one device and atomic, oldest first.  Losing power keeps, on every device
    independently, some prefix of its records; the bytes of a file survive only
    if it was fsynced.  A system call runs in an environment that may create
    files first, at free paths, and may make the call fail: it then has no effect
    but the partial one written out with it.  A directory is durable once made. *)
From S2P Require Import Prelude Containment.
From stdpp Require Import options.

Record path : Type := Path { parent : dir; name : string }.
#[export] Instance path_eq_dec : EqDecision path.
Proof. solve_decision. Defined.

Definition path_parts (p : path) : dir := parent p ++ [name p].

Fixpoint slashes (d : dir) : string :=
  match d with [] => "" | c :: d' => "/" +:+ c +:+ slashes d' end.

Definition path_str (p : path) : string := slashes (path_parts p).

Inductive errno : Type := EEXIST | ENOENT | EXDEV | EISDIR | ENOTDIR | EPERM | EINVAL | ENOTSUP | EIO | ENOSPC.
#[export] Instance errno_eq_dec : EqDecision errno.
Proof. solve_decision. Defined.

(** [FileExistsError] is the engine's own refusal, with its message; the
    system's [EEXIST] is an [OSError]. *)
Inductive exn : Type :=
| OSError (e : errno)
| FileExistsError (msg : string)
| ValueError (msg : string).

(** An entry: its directory and its name as the mount compares names. *)
Abbreviation entry := (list string * string)%type.

(** A journal record: its device and the entries it sets ([None]: removes). *)
Abbreviation record := (nat * list (entry * option nat))%type.

Record fs : Type := Fs {
  entries : gmap entry nat;
  dirs : gset dir;
  bodies : gmap nat string;
  next_ino : nat;
  synced : gset nat;
  stable : gmap entry nat;
  journal : list record;
  others : gmap entry (nat * string);
}.

Definition apply_change (m : gmap entry nat) (c : entry * option nat) : gmap entry nat :=
  match c.2 with Some i => <[c.1 := i]> m | None => delete c.1 m end.

Definition apply_all (recs : list record) (m : gmap entry nat) : gmap entry nat :=
  fold_left (fun m (r : record) => fold_left apply_change r.2 m) recs m.

(** What another process did before a call, and how the call failed. *)
Record env_step : Type := Env {
  arrivals : list (path * string);
  fault : option errno;
  partial : nat;
}.

Definition quiet : env_step := Env [] None 0.

Section fs.
Context (fold : string -> string) (dev : dir -> nat).

Definition key (p : path) : entry := (parent p, fold (name p)).
Definition kdev (k : entry) : nat := dev k.1.

Definition with_entries (e : gmap entry nat) (j : list record) (s : fs) : fs :=
  Fs e (dirs s) (bodies s) (next_ino s) (synced s) (stable s) j (others s).

(** One atomic directory update on the device of [p]. *)
Definition log (p : path) (chg : list (entry * option nat)) (s : fs) : fs :=
  with_entries (fold_left apply_change chg (entries s)) (journal s ++ [(kdev (key p), chg)]) s.

Definition set_body (i : nat) (b : string) (s : fs) : fs :=
  Fs (entries s) (dirs s) (<[i := b]> (bodies s)) (next_ino s) (synced s ∖ {[i]}) (stable s) (journal s) (others s).

Definition alloc (b : string) (s : fs) : fs :=
  Fs (entries s) (dirs s) (<[next_ino s := b]> (bodies s)) (S (next_ino s)) (synced s ∖ {[next_ino s]}) (stable s)
    (journal s) (others s).

Definition create (p : path) (b : string) (s : fs) : fs := log p [(key p, Some (next_ino s))] (alloc b s).

Definition is_dir (s : fs) (d : dir) : bool := bool_decide (d ∈ dirs s).
Definition occupied (s : fs) (p : path) : bool :=
  bool_decide (is_Some (entries s !! key p)) || is_dir s (path_parts p).

(** Another process creates a file at a free path. *)
Definition arrive (s : fs) (a : path * string) : fs :=
  if occupied s a.1 || negb (is_dir s (parent a.1)) then s
  else
    let s' := create a.1 a.2 s in
    Fs (entries s') (dirs s') (bodies s') (next_ino s') (synced s') (stable s') (journal s')
      (<[key a.1 := (next_ino s, a.2)]> (others s')).

(** ** The effect of the system calls *)

(** [open(p, O_RDONLY|O_NOFOLLOW)] and reads to the end *)
Definition fs_read (p : path) (s : fs) : outcome exn (fs * string) :=
  match entries s !! key p with
  | Some i => Ok (s, default "" (bodies s !! i))
  | None => Raise (OSError (if is_dir s (path_parts p) then EISDIR else ENOENT))
  end.

(** [st_dev] and the identity of what [p] names. *)
Inductive ident : Type := IdFile (i : nat) | IdDir (d : dir).
#[export] Instance ident_eq_dec : EqDecision ident.
Proof. solve_decision. Defined.

Definition fs_stat (p : path) (s : fs) : outcome exn (nat * ident * nat) :=
  match entries s !! key p with
  | Some i => Ok (kdev (key p), IdFile i, size (filter (fun kv : entry * nat => kv.2 = i) (entries s)))
  | None => if is_dir s (path_parts p) then Ok (dev (path_parts p), IdDir (path_parts p), 2) else Raise (OSError ENOENT)
  end.

Definition fs_stat_dir (d : dir) (s : fs) : outcome exn nat :=
  if is_dir s d then Ok (dev d) else Raise (OSError ENOENT).

Definition fs_mkdir (ds : list dir) (s : fs) : fs :=
  Fs (entries s) (list_to_set ds ∪ dirs s) (bodies s) (next_ino s) (synced s) (stable s) (journal s) (others s).

(** [open(p, O_WRONLY|O_CREAT|O_EXCL)]: the new inode *)
Definition fs_open_excl (p : path) (s : fs) : outcome exn (fs * nat) :=
  if occupied s p then Raise (OSError EEXIST)
  else if negb (is_dir s (parent p)) then Raise (OSError ENOENT)
  else Ok (create p "" s, next_ino s).

(** [open(p, O_WRONLY|O_CREAT|O_TRUNC)] *)
Definition fs_open_trunc (p : path) (s : fs) : outcome exn (fs * nat) :=
  match entries s !! key p with
  | Some i => Ok (set_body i "" s, i)
  | None =>
      if is_dir s (path_parts p) then Raise (OSError EISDIR)
      else if negb (is_dir s (parent p)) then Raise (OSError ENOENT)
      else Ok (create p "" s, next_ino s)
  end.

Definition fs_fsync (i : nat) (s : fs) : fs :=
  Fs (entries s) (dirs s) (bodies s) (next_ino s) ({[i]} ∪ synced s) (stable s) (journal s) (others s).

Definition on_device (d : nat) (j : list record) : list record := filter (fun r : record => r.1 = d) j.

(** [fsync] of a directory commits its device's journal. *)
Definition fs_commit (d : dir) (s : fs) : fs :=
  Fs (entries s) (dirs s) (bodies s) (next_ino s) (synced s) (apply_all (on_device (dev d) (journal s)) (stable s))
    (filter (fun r : record => r.1 <> dev d) (journal s)) (others s).

Definition fs_link (a b : path) (s : fs) : outcome exn (fs * unit) :=
  match entries s !! key a with
  | None => Raise (OSError (if is_dir s (path_parts a) then EPERM else ENOENT))
  | Some i =>
      if occupied s b then Raise (OSError EEXIST)
      else if negb (is_dir s (parent b)) then Raise (OSError ENOENT)
      else if negb (bool_decide (kdev (key a) = kdev (key b))) then Raise (OSError EXDEV)
      else Ok (log b [(key b, Some i)] s, ())
  end.

Definition fs_unlink (p : path) (s : fs) : outcome exn (fs * unit) :=
  match entries s !! key p with
  | Some _ => Ok (log p [(key p, None)] s, ())
  | None => Raise (OSError (if is_dir s (path_parts p) then EISDIR else ENOENT))
  end.

(** [rename(a, b)]; two links of one inode are left as they are. *)
Definition fs_replace (a b : path) (s : fs) : outcome exn (fs * unit) :=
  match entries s !! key a with
  | None => if is_dir s (path_parts a) && bool_decide (a = b) then Ok (s, ()) else
              Raise (OSError (if is_dir s (path_parts a) then EISDIR else ENOENT))
  | Some i =>
      if is_dir s (path_parts b) then Raise (OSError EISDIR)
      else if negb (is_dir s (parent b)) then Raise (OSError ENOENT)
      else if negb (bool_decide (kdev (key a) = kdev (key b))) then Raise (OSError EXDEV)
      else if bool_decide (entries s !! key b = Some i) && negb (bool_decide (key a = key b)) then Ok (s, ())
      else Ok (log b [(key a, None); (key b, Some i)] s, ())
  end.

(** ** After a power loss

    [n d] is how many journal records of device [d] reached the disk. *)
Definition disk (n : nat -> nat) (s : fs) (k : entry) : option nat :=
  apply_all (take (n (kdev k)) (on_device (kdev k) (journal s))) (stable s) !! k.

Definition survives (n : nat -> nat) (s : fs) (k : entry) (c : string) : Prop :=
  exists i, disk n s k = Some i /\ i ∈ synced s /\ bodies s !! i = Some c.

Definition holds (s : fs) (k : entry) (c : string) : Prop :=
  exists i, entries s !! k = Some i /\ default "" (bodies s !! i) = c.

(** The entry is on disk whatever part of the journal is lost. *)
Definition at_rest (s : fs) (k : entry) (i : nat) : Prop := forall n, disk n s k = Some i.

Record wf_fs (s : fs) : Prop := {
  wf_journal : forall r c, r ∈ journal s -> c ∈ r.2 -> kdev c.1 = r.1;
  wf_entries : forall k, entries s !! k = apply_all (on_device (kdev k) (journal s)) (stable s) !! k;
  wf_inodes : forall k i, entries s !! k = Some i -> (i < next_ino s)%nat;
}.

End fs.

(** ** Calls in an environment *)

Record world (St : Type) : Type := World { fsys : fs; local : St; tick : nat; trace : list fs }.
Arguments World {St}. Arguments fsys {St}. Arguments local {St}. Arguments tick {St}. Arguments trace {St}.

Definition M (St A : Type) : Type := world St -> world St * outcome exn A.

Section monad.
Context {St : Type}.
Implicit Types (w : world St).

Definition mret {A} (a : A) : M St A := fun w => (w, Ok a).
Definition mraise {A} (e : exn) : M St A := fun w => (w, Raise e).

Definition bind {A B} (m : M St A) (k : A -> M St B) : M St B := fun w =>
  match m w with
  | (w', Ok a) => k a w'
  | (w', Raise e) => (w', Raise e)
  end.

(** [try: m / except: h] *)
Definition catch {A} (m : M St A) (h : exn -> M St A) : M St A := fun w =>
  match m w with
  | (w', Ok a) => (w', Ok a)
  | (w', Raise e) => h e w'
  end.

(** [try: m / finally: f] *)
Definition finally {A} (m : M St A) (f : M St unit) : M St A := fun w =>
  match m w with
  | (w', r) => match f w' with
               | (w'', Ok _) => (w'', r)
               | (w'', Raise e) => (w'', Raise e)
               end
  end.

Definition set_local (v : St) : M St unit := fun w => (World (fsys w) v (tick w) (trace w), Ok ()).

End monad.

Notation "'do!' x <- m ; k" := (bind m (fun x => k)) (at level 90, x pattern, m at level 80, right associativity) : phaze_scope.
Notation "'run!' m ; k" := (bind m (fun _ => k)) (at level 90, m at level 80, right associativity) : phaze_scope.

Section syscall.
Context {St : Type} (fold : string -> string) (dev : dir -> nat) (env : nat -> env_step).

(** [spoil] is what the call leaves behind when it fails after [partial] bytes
    or directories.  Every state a crash could expose joins the trace. *)
Definition syscall {A} (spoil : nat -> fs -> fs) (f : fs -> outcome exn (fs * A)) : M St A := fun w =>
  let e := env (tick w) in
  let s1 := fold_left (arrive fold dev) (arrivals e) (fsys w) in
  let '(s2, r) :=
    match fault e with
    | Some err => (spoil (partial e) s1, Raise (OSError err))
    | None => match f s1 with Ok (s2, a) => (s2, Ok a) | Raise x => (s1, Raise x) end
    end in
  (World s2 (local w) (S (tick w)) (s2 :: s1 :: trace w), r).

Definition keep (n : nat) (s : fs) : fs := s.

(** A call that only looks. *)
Definition query {A} (f : fs -> outcome exn A) : M St A :=
  syscall keep (fun s => try! a <- f s; Ok (s, a)).

Definition total {A} (f : fs -> fs * A) : fs -> outcome exn (fs * A) := fun s => Ok (f s).

End syscall.

(** ** Entries and their journal *)

Section lemmas.
Context (fold : string -> string) (dev : dir -> nat).
Abbreviation key := (key fold).
Abbreviation kdev := (kdev dev).

Lemma apply_all_app r1 r2 m : apply_all (r1 ++ r2) m = apply_all r2 (apply_all r1 m).
Proof. apply fold_left_app. Qed.

Lemma on_device_app d j1 j2 : on_device d (j1 ++ j2) = on_device d j1 ++ on_device d j2.
Proof. apply filter_app. Qed.

Lemma apply_change_ne c k m : c.1 <> k -> apply_change m c !! k = m !! k.
Proof. intros Hne. unfold apply_change. destruct c.2; [by rewrite lookup_insert_ne|by rewrite lookup_delete_ne]. Qed.

Lemma apply_changes_ne chg k m :
  (forall c, c ∈ chg -> c.1 <> k) -> fold_left apply_change chg m !! k = m !! k.
Proof.
  revert m. induction chg as [|c chg IH]; intros m Hne; [done|]. simpl.
  rewrite IH by (intros; apply Hne; by right). apply apply_change_ne, Hne. left.
Qed.

(** What a list of changes makes of an entry depends on that entry alone. *)
Lemma apply_changes_eq chg k : forall m m', m !! k = m' !! k ->
  fold_left apply_change chg m !! k = fold_left apply_change chg m' !! k.
Proof.
  induction chg as [|c chg IH]; intros m m' Heq; [done|]. simpl. apply IH. unfold apply_change.
  destruct (decide (c.1 = k)) as [->|].
  - destruct c.2; [by rewrite !lookup_insert_eq|by rewrite !lookup_delete_eq].
  - destruct c.2; [by rewrite !lookup_insert_ne|by rewrite !lookup_delete_ne].
Qed.

Lemma apply_all_ne recs k m :
  (forall r c, r ∈ recs -> c ∈ r.2 -> c.1 <> k) -> apply_all recs m !! k = m !! k.
Proof.
  unfold apply_all. revert m. induction recs as [|r recs IH]; intros m Hne; [done|]. simpl.
  rewrite IH by (intros; eapply Hne; [by right|done]). apply apply_changes_ne. intros. eapply Hne; [by left|done].
Qed.

Lemma disk_full s k n :
  wf_fs dev s -> (length (journal s) <= n (kdev k))%nat -> disk dev n s k = entries s !! k.
Proof.
  intros Hwf Hn. rewrite (wf_entries _ _ Hwf). unfold disk. rewrite take_ge; [done|].
  etransitivity; [apply length_filter|done].
Qed.

Lemma at_rest_live s k i : wf_fs dev s -> at_rest dev s k i -> entries s !! k = Some i.
Proof. intros Hwf Hr. rewrite <- (disk_full s k (fun _ => length (journal s))); [apply Hr|done|done]. Qed.

(** After one more record, the disk of its device is either as it was or the
    live directory. *)
Lemma disk_log n s p chg :
  wf_fs dev s -> (forall c, c ∈ chg -> kdev c.1 = kdev (key p)) ->
  let s' := log fold dev p chg s in
  (forall k, kdev k <> kdev (key p) -> disk dev n s' k = disk dev n s k) /\
  ((forall k, kdev k = kdev (key p) -> disk dev n s' k = entries s' !! k) \/
   (forall k, kdev k = kdev (key p) -> disk dev n s' k = disk dev n s k)).
Proof.
  intros Hwf Hdev s'. split.
  - intros k Hk. unfold disk. simpl. rewrite on_device_app. unfold on_device at 2.
    rewrite filter_cons_False by (simpl; congruence). by rewrite app_nil_r.
  - set (d := kdev (key p)) in *.
    destruct (decide (n d <= length (on_device d (journal s)))%nat) as [Hle|Hgt]; [right|left]; intros k Hk;
      unfold disk; rewrite Hk; simpl; rewrite on_device_app; fold d.
    + by rewrite take_app_le.
    + rewrite take_ge; [|rewrite length_app; unfold on_device at 2; rewrite filter_cons_True by done; simpl; lia].
      unfold on_device at 2. rewrite filter_cons_True by done. rewrite apply_all_app. simpl.
      apply apply_changes_eq. by rewrite (wf_entries _ _ Hwf k), Hk.
Qed.

Lemma entries_log s p chg : entries (log fold dev p chg s) = fold_left apply_change chg (entries s).
Proof. done. Qed.

Lemma log_wf s p chg :
  wf_fs dev s -> (forall c, c ∈ chg -> kdev c.1 = kdev (key p)) ->
  (forall k i, (k, Some i) ∈ chg -> (i < next_ino s)%nat) ->
  wf_fs dev (log fold dev p chg s).
Proof.
  intros Hwf Hdev Hino. constructor.
  - simpl. intros r c [Hr| ->%list_elem_of_singleton]%elem_of_app Hc; [by eapply (wf_journal _ _ Hwf)|by apply Hdev].
  - intros k. simpl. rewrite on_device_app. destruct (decide (kdev k = kdev (key p))) as [Hk|Hk].
    + unfold on_device at 2. rewrite filter_cons_True by done. rewrite apply_all_app. simpl.
      apply apply_changes_eq, (wf_entries _ _ Hwf).
    + unfold on_device at 2. rewrite filter_cons_False by (simpl; congruence). rewrite app_nil_r, apply_changes_ne.
      * apply (wf_entries _ _ Hwf).
      * intros c Hc <-. by apply Hk, Hdev.
  - simpl. pose proof (wf_inodes _ _ Hwf) as Hin. revert Hino Hin. generalize (entries s). clear Hdev.
    induction chg as [|[k0 v] chg IH]; simpl; intros m Hino Hin; [done|]. apply IH.
    + intros. eapply Hino. by right.
    + intros k i. unfold apply_change. simpl. destruct v as [i0|].
      * intros [[<- <-]|[_ Hi]]%lookup_insert_Some; [eapply Hino; by left|by eapply Hin].
      * intros [_ Hi]%lookup_delete_Some. by eapply Hin.
Qed.

Lemma at_rest_log s p chg k i :
  wf_fs dev s -> (forall c, c ∈ chg -> kdev c.1 = kdev (key p)) -> (forall c, c ∈ chg -> c.1 <> k) ->
  at_rest dev s k i -> at_rest dev (log fold dev p chg s) k i.
Proof.
  intros Hwf Hdev Hne Hr n. destruct (disk_log n s p chg Hwf Hdev) as [Ho Hd].
  destruct (decide (kdev k = kdev (key p))) as [Hk|Hk]; [|rewrite Ho by done; apply Hr].
  destruct Hd as [Hd|Hd]; rewrite (Hd k Hk); [|apply Hr].
  rewrite entries_log, apply_changes_ne by done. by apply at_rest_live.
Qed.

(** Removing one of two links on one device never loses the file: the record
    of the removal reaches the disk only with everything before it. *)
Lemma linked_unlink s p k2 i :
  wf_fs dev s -> at_rest dev s (key p) i -> kdev k2 = kdev (key p) -> k2 <> key p -> entries s !! k2 = Some i ->
  forall n, let s' := log fold dev p [(key p, None)] s in
    disk dev n s' (key p) = Some i \/ disk dev n s' k2 = Some i.
Proof.
  intros Hwf Hr Hdev Hne Hk2 n s'.
  destruct (disk_log n s p [(key p, None)] Hwf) as [_ [Hd|Hd]].
  - by intros c ->%list_elem_of_singleton.
  - right. subst s'. rewrite (Hd k2 Hdev). rewrite entries_log. simpl. unfold apply_change. simpl.
    by rewrite lookup_delete_ne.
  - left. subst s'. rewrite (Hd (key p) eq_refl). apply Hr.
Qed.

Lemma apply_all_other_device s k d :
  wf_fs dev s -> kdev k <> d -> apply_all (on_device d (journal s)) (stable s) !! k = stable s !! k.
Proof.
  intros Hwf Hk. apply apply_all_ne. intros r c [Hr Hin]%list_elem_of_filter Hc <-.
  apply Hk. rewrite <- Hr. by eapply (wf_journal _ _ Hwf).
Qed.

Lemma on_device_commit d d' j :
  on_device d (filter (fun r : record => r.1 <> d') j) = if decide (d = d') then [] else on_device d j.
Proof.
  unfold on_device. case_decide as Hd; induction j as [|r j IH]; try done.
  - rewrite (filter_cons (fun r : record => r.1 <> d')). case_decide as Hr; [|done].
    by rewrite filter_cons_False by congruence.
  - rewrite (filter_cons (fun r : record => r.1 <> d')). case_decide as Hr.
    + rewrite !(filter_cons (fun r0 : record => r0.1 = d)). by rewrite IH.
    + rewrite (filter_cons_False (fun r : record => r.1 = d)); [done|].
      congruence.
Qed.

(** [apply_all] at an entry looks at the stable value of that entry only. *)
Lemma apply_all_eq recs k : forall m m', m !! k = m' !! k -> apply_all recs m !! k = apply_all recs m' !! k.
Proof.
  unfold apply_all. induction recs as [|r recs IH]; intros m m' Heq; [done|]. simpl. apply IH.
  by apply apply_changes_eq.
Qed.

Lemma disk_commit n s d k :
  wf_fs dev s ->
  disk dev n (fs_commit dev d s) k = if decide (kdev k = dev d) then entries s !! k else disk dev n s k.
Proof.
  intros Hwf. unfold disk, fs_commit. simpl. rewrite on_device_commit. case_decide as Hk.
  - rewrite take_nil. simpl. by rewrite (wf_entries _ _ Hwf), Hk.
  - apply apply_all_eq. by apply apply_all_other_device.
Qed.

Lemma commit_wf s d : wf_fs dev s -> wf_fs dev (fs_commit dev d s).
Proof.
  intros Hwf. constructor; simpl.
  - intros r c [_ Hr]%list_elem_of_filter. by apply (wf_journal _ _ Hwf).
  - intros k. rewrite on_device_commit. case_decide as Hk; simpl.
    + by rewrite (wf_entries _ _ Hwf), Hk.
    + rewrite (wf_entries _ _ Hwf). apply apply_all_eq. symmetry. by apply apply_all_other_device.
  - apply (wf_inodes _ _ Hwf).
Qed.

Lemma at_rest_commit s d k i : wf_fs dev s -> at_rest dev s k i -> at_rest dev (fs_commit dev d s) k i.
Proof.
  intros Hwf Hr n. rewrite disk_commit by done. case_decide; [by apply at_rest_live|apply Hr].
Qed.

Lemma commit_at_rest s d k i :
  wf_fs dev s -> kdev k = dev d -> entries s !! k = Some i -> at_rest dev (fs_commit dev d s) k i.
Proof. intros Hwf Hk Hi n. by rewrite disk_commit, decide_True by done. Qed.

End lemmas.

(** ** A file that is safe on disk *)

Record live (s : fs) (k : entry) (i : nat) (c : string) : Prop := {
  live_entry : entries s !! k = Some i;
  live_body : bodies s !! i = Some c;
  live_synced : i ∈ synced s;
  live_ino : (i < next_ino s)%nat;
}.

Lemma live_alloc s b k i c : live s k i c -> live (alloc b s) k i c.
Proof.
  intros [? ? ? Hlt]. constructor; simpl; [done| | |lia].
  - rewrite lookup_insert_ne; [done|lia].
  - apply elem_of_difference. split; [done|]. rewrite elem_of_singleton. lia.
Qed.

Lemma live_set_body s j b k i c : i <> j -> live s k i c -> live (set_body j b s) k i c.
Proof.
  intros Hne []. constructor; simpl; [done| |set_solver|done]. by rewrite lookup_insert_ne.
Qed.

Lemma live_fsync s j k i c : live s k i c -> live (fs_fsync j s) k i c.
Proof. intros []. constructor; simpl; try done. set_solver. Qed.

Lemma live_holds s k i c : live s k i c -> holds s k c.
Proof. intros [? Hb]. exists i. by rewrite Hb. Qed.

Section kept.
Context (fold : string -> string) (dev : dir -> nat).
Abbreviation key := (key fold).
Abbreviation kdev := (kdev dev).

Record kept (s : fs) (k : entry) (i : nat) (c : string) : Prop := {
  kept_rest : at_rest dev s k i;
  kept_live : live s k i c;
}.

Lemma kept_survives s k i c n : kept s k i c -> survives dev n s k c.
Proof. intros [Hr []]. exists i. split; [apply Hr|done]. Qed.

(** States that differ in [dirs], [bodies], [next_ino], [synced] or [others]
    only have the same entries and journal. *)
Lemma wf_same s s' :
  entries s' = entries s -> journal s' = journal s -> stable s' = stable s -> (next_ino s <= next_ino s')%nat ->
  wf_fs dev s -> wf_fs dev s'.
Proof.
  intros He Hj Hs Hn [Hwj Hwe Hwi]. constructor.
  - by rewrite Hj.
  - by rewrite He, Hj, Hs.
  - rewrite He. intros k i Hi%Hwi. lia.
Qed.

Lemma at_rest_same s s' k i :
  journal s' = journal s -> stable s' = stable s -> at_rest dev s k i -> at_rest dev s' k i.
Proof. intros Hj Hs Hr n. specialize (Hr n). unfold disk in *. by rewrite Hj, Hs. Qed.

Lemma live_log s p chg k i c :
  (forall ch, ch ∈ chg -> ch.1 <> k) -> live s k i c -> live (log fold dev p chg s) k i c.
Proof. intros Hne []. constructor; [rewrite entries_log, apply_changes_ne|..]; done. Qed.

Lemma alloc_wf s b : wf_fs dev s -> wf_fs dev (alloc b s).
Proof. apply wf_same; simpl; try done. lia. Qed.

Lemma create_wf s p b : wf_fs dev s -> wf_fs dev (create fold dev p b s).
Proof.
  intros Hwf. apply log_wf.
  - by apply alloc_wf.
  - by intros c ->%list_elem_of_singleton.
  - intros k i Hin%list_elem_of_singleton. injection Hin as _ ->. simpl. lia.
Qed.

Lemma live_create s p b k i c : k <> key p -> live s k i c -> live (create fold dev p b s) k i c.
Proof.
  intros Hne Hl. apply live_log; [|by apply live_alloc]. intros ch ->%list_elem_of_singleton. simpl. congruence.
Qed.

Lemma kept_create s p b k i c : wf_fs dev s -> k <> key p -> kept s k i c -> kept (create fold dev p b s) k i c.
Proof.
  intros Hwf Hne [Hr Hl]. constructor; [|by apply live_create].
  apply at_rest_log; [by apply alloc_wf|..].
  - by intros c' ->%list_elem_of_singleton.
  - intros c' ->%list_elem_of_singleton. simpl. congruence.
  - by apply (at_rest_same s).
Qed.

Lemma kept_log s p chg k i c :
  wf_fs dev s -> (forall ch, ch ∈ chg -> kdev ch.1 = kdev (key p)) -> (forall ch, ch ∈ chg -> ch.1 <> k) ->
  kept s k i c -> kept (log fold dev p chg s) k i c.
Proof. intros Hwf Hd Hne [Hr Hl]. constructor; [by apply at_rest_log|by apply live_log]. Qed.

Lemma kept_of_live s s' k i c :
  journal s' = journal s -> stable s' = stable s -> live s' k i c -> kept s k i c -> kept s' k i c.
Proof. intros Hj Hs Hl [Hr _]. constructor; [by apply (at_rest_same s)|done]. Qed.

Lemma kept_commit s d k i c : wf_fs dev s -> kept s k i c -> kept (fs_commit dev d s) k i c.
Proof. intros Hwf [Hr []]. constructor; [by apply at_rest_commit|]. by constructor. Qed.

Lemma occupied_false s p : occupied fold s p = false -> entries s !! key p = None.
Proof. unfold occupied. intros [Ho _]%orb_false_iff. apply bool_decide_eq_false in Ho. by apply eq_None_not_Some. Qed.

Lemma occupied_entry s p i : entries s !! key p = Some i -> occupied fold s p = true.
Proof. intros Hi. unfold occupied. rewrite bool_decide_eq_true_2; [done|by eexists]. Qed.

(** An arrival changes nothing or creates one file at a free entry. *)
Lemma arrive_cases s a :
  arrive fold dev s a = s \/
  entries s !! key a.1 = None /\
  arrive fold dev s a =
    let s' := create fold dev a.1 a.2 s in
    Fs (entries s') (dirs s') (bodies s') (next_ino s') (synced s') (stable s') (journal s')
      (<[key a.1 := (next_ino s, a.2)]> (others s')).
Proof.
  unfold arrive. destruct (occupied fold s a.1 || _) eqn:Ho; [by left|right].
  apply orb_false_iff in Ho as [Ho _]. split; [by apply occupied_false|done].
Qed.

Lemma arrive_wf s a : wf_fs dev s -> wf_fs dev (arrive fold dev s a).
Proof.
  intros Hwf. destruct (arrive_cases s a) as [->|[_ ->]]; [done|].
  by eapply wf_same; [..|apply (create_wf s a.1 a.2 Hwf)].
Qed.

Lemma live_arrive s a k i c : live s k i c -> live (arrive fold dev s a) k i c.
Proof.
  intros Hl. destruct (arrive_cases s a) as [->|[Hfree ->]]; [done|].
  destruct (live_create s a.1 a.2 k i c); [|done|by constructor].
  intros ->. rewrite (live_entry _ _ _ _ Hl) in Hfree. done.
Qed.

Lemma kept_arrive s a k i c : wf_fs dev s -> kept s k i c -> kept (arrive fold dev s a) k i c.
Proof.
  intros Hwf Hk. destruct (arrive_cases s a) as [->|[Hfree Heq]]; [done|].
  assert (Hne : k <> key a.1).
  { intros ->. destruct Hk as [_ []]. congruence. }
  pose proof (kept_create s a.1 a.2 k i c Hwf Hne Hk) as Hc.
  eapply kept_of_live; [..|exact Hc]; try (by rewrite Heq). apply live_arrive, Hk.
Qed.

End kept.

(** ** Reasoning about calls

    [triple I P m Q]: from a state satisfying [P], [m] ends in a state and an
    outcome satisfying [Q], and every state a crash could expose meanwhile
    satisfies [I]. *)
Section triple.
Context {St : Type} (fold : string -> string) (dev : dir -> nat) (env : nat -> env_step) (I : fs -> Prop).
Implicit Types (P : fs -> Prop).

Definition triple {A} P (m : M St A) (Q : outcome exn A -> fs -> Prop) : Prop := forall w,
  P (fsys w) -> Forall I (trace w) ->
  let '(w', r) := m w in Q r (fsys w') /\ Forall I (trace w').

(** The postcondition with the same state predicate for every exception. *)
Definition or_raise {A} (Qok : A -> fs -> Prop) (R : fs -> Prop) (r : outcome exn A) : fs -> Prop :=
  match r with Ok a => Qok a | Raise _ => R end.

Definition stable_under_arrivals P : Prop := forall s t a, a ∈ arrivals (env t) -> P s -> P (arrive fold dev s a).

Lemma stable_arrivals P t s :
  stable_under_arrivals P -> P s -> P (fold_left (arrive fold dev) (arrivals (env t)) s).
Proof.
  intros Hst. assert (Hin : forall a, a ∈ arrivals (env t) -> a ∈ arrivals (env t)) by done. revert s Hin.
  generalize (arrivals (env t)) at 1 3. intros l. induction l as [|a l IH]; intros s Hin HP; simpl; [done|].
  apply IH; [intros; apply Hin; by right|]. eapply Hst; [apply Hin; by left|done].
Qed.

Lemma stable_and P P' :
  stable_under_arrivals P -> stable_under_arrivals P' -> stable_under_arrivals (fun s => P s /\ P' s).
Proof. intros H H' s t a Ha [HP HP']. split; [by eapply H|by eapply H']. Qed.

Lemma stable_pure (X : Prop) : stable_under_arrivals (fun _ => X).
Proof. by intros s t a _ HX. Qed.

Lemma stable_entry k i : stable_under_arrivals (fun s => entries s !! k = Some i).
Proof.
  intros s t a _ Hi. destruct (arrive_cases fold dev s a) as [->|[Hfree ->]]; [done|]. simpl. unfold apply_change.
  simpl. rewrite lookup_insert_ne; [done|congruence].
Qed.

Lemma triple_ret {A} P (a : A) Q : (forall s, P s -> Q (Ok a) s) -> triple P (mret a) Q.
Proof. intros HQ w HP Ht. by split; [apply HQ|]. Qed.

Lemma triple_raise {A} P e (Q : outcome exn A -> fs -> Prop) :
  (forall s, P s -> Q (Raise e) s) -> triple P (mraise e) Q.
Proof. intros HQ w HP Ht. by split; [apply HQ|]. Qed.

Lemma triple_bind {A B} P (m : M St A) (k : A -> M St B) Qa (Q : outcome exn B -> fs -> Prop) :
  triple P m Qa -> (forall a, triple (Qa (Ok a)) (k a) Q) -> (forall e s, Qa (Raise e) s -> Q (Raise e) s) ->
  triple P (bind m k) Q.
Proof.
  intros Hm Hk Hr w HP Ht. specialize (Hm w HP Ht). unfold bind. destruct (m w) as [w' [a|e]].
  - destruct Hm. apply Hk; done.
  - destruct Hm. by split; [apply Hr|].
Qed.

Lemma triple_catch {A} P (m : M St A) h Qm (Q : outcome exn A -> fs -> Prop) :
  triple P m Qm -> (forall a s, Qm (Ok a) s -> Q (Ok a) s) -> (forall e, triple (Qm (Raise e)) (h e) Q) ->
  triple P (catch m h) Q.
Proof.
  intros Hm Hok Hh w HP Ht. specialize (Hm w HP Ht). unfold catch. destruct (m w) as [w' [a|e]].
  - destruct Hm. by split; [apply Hok|].
  - destruct Hm. apply Hh; done.
Qed.

Lemma triple_finally {A} P (m : M St A) f Qm (Q : outcome exn A -> fs -> Prop) :
  triple P m Qm ->
  (forall r, triple (Qm r) f (or_raise (fun _ => Q r) (fun s => forall e, Q (Raise e) s))) ->
  triple P (finally m f) Q.
Proof.
  intros Hm Hf w HP Ht. specialize (Hm w HP Ht). unfold finally. destruct (m w) as [w' r].
  destruct Hm as [HQ Ht']. specialize (Hf r w' HQ Ht'). destruct (f w') as [w'' [u|e]]; simpl in *; naive_solver.
Qed.

Lemma triple_conseq {A} (P P' : fs -> Prop) (m : M St A) (Q Q' : outcome exn A -> fs -> Prop) :
  triple P' m Q' -> (forall s, P s -> P' s) -> (forall r s, Q' r s -> Q r s) -> triple P m Q.
Proof. intros Hm HP HQ w Hw Ht. specialize (Hm w (HP _ Hw) Ht). destruct (m w). naive_solver. Qed.

Lemma triple_exists {X A} (P : X -> fs -> Prop) (m : M St A) Q :
  (forall x, triple (P x) m Q) -> triple (fun s => exists x, P x s) m Q.
Proof. intros Hm w [x HP]. exact (Hm x w HP). Qed.

Lemma triple_pure_pre {A} (X : Prop) P (m : M St A) Q : (X -> triple P m Q) -> triple (fun s => P s /\ X) m Q.
Proof. intros Hm w [HP HX]. exact (Hm HX w HP). Qed.

Lemma triple_local P v : triple P (set_local v) (fun _ => P).
Proof. by intros w HP Ht. Qed.

Lemma triple_syscall {A} P spoil (f : fs -> outcome exn (fs * A)) Q :
  stable_under_arrivals P -> (forall s, P s -> I s) ->
  (forall s, P s -> match f s with Ok (s', a) => Q (Ok a) s' /\ I s' | Raise x => Q (Raise x) s end) ->
  (forall s n t e, fault (env t) = Some e -> P s -> Q (Raise (OSError e)) (spoil n s) /\ I (spoil n s)) ->
  triple P (syscall fold dev env spoil f) Q.
Proof.
  intros Hst HI Hf Hspoil w HP Ht. unfold syscall.
  assert (H1 := stable_arrivals P (tick w) _ Hst HP).
  set (s1 := fold_left _ _ _) in *.
  destruct (fault (env (tick w))) as [err|] eqn:Hfault; simpl.
  - destruct (Hspoil s1 (partial (env (tick w))) _ err Hfault H1). split; [done|]. repeat constructor; auto.
  - specialize (Hf s1 H1). destruct (f s1) as [[s2 a]|x]; simpl; [destruct Hf|]; (split; [done|]); repeat constructor; auto.
Qed.

(** A call that leaves the file system alone. *)
Lemma triple_query {A} P (f : fs -> outcome exn A) Q :
  stable_under_arrivals P -> (forall s, P s -> I s) ->
  (forall s a, P s -> f s = Ok a -> Q (Ok a) s) -> (forall s e, P s -> Q (Raise e) s) ->
  triple P (query fold dev env f) Q.
Proof.
  intros Hst HI Hok Hr. apply triple_syscall; auto; intros s; unfold keep; auto.
  intros HP. destruct (f s) as [a|x] eqn:Hf; simpl; auto.
Qed.

Lemma triple_look {A} P (f : fs -> outcome exn A) :
  stable_under_arrivals P -> (forall s, P s -> I s) ->
  triple P (query fold dev env f) (fun r s => P s /\ forall a, r = Ok a -> f s = Ok a).
Proof. intros. apply triple_query; try done. intros s a HP Hf. split; [done|]. intros ? [= <-]. done. Qed.

End triple.

#[export] Hint Resolve stable_and stable_pure stable_entry : phaze.
