(* ===== verification/MoveFs.v ===== *)
(** * The move engine: [tasks/execution_filesystem.py]

    [LocalFilesystemPrimitives] and [LocalExecutionFilesystemEngine] over the
    file system of FsModel.  The monad's local state is [MoveStep.current].
    Parameters: [fold], how the mount compares file names (the identity on a
    case-sensitive one); [casefold], [str.casefold]; [sha256], the hex digest;
    [dev], the mount table; [env], the environment of each system call;
    [token], the process id and uuid of [unique_tmp_path]; [resolver],
    [resolve_contained_twin] on a state. *)
From S2P Require Import Prelude Containment FsModel.
From stdpp Require Import options.

Inductive FailedAtStep : Type := StepCopy | StepVerify | StepDelete.
#[export] Instance FailedAtStep_eq_dec : EqDecision FailedAtStep.
Proof. solve_decision. Defined.

(** The fields of [ExecuteBatchProposalItem] the engine reads. *)
Record Item : Type := {
  proposal_id : string;
  source_path : string;
  proposed_path : string;
  proposed_filename : string;
  sha256_hash : option string;
}.

Record FilesystemMoveRequest : Type := MoveRequest {
  item : Item;
  scan_roots : list string;
  replay_corroborated : bool;
}.

Record FilesystemMoveResult : Type := MoveResult { proposed : path; committed_now : bool }.

Definition COPY_TMP_SUFFIX : string := ".phaze-tmp".
Definition COMMIT_MARKER_SUFFIX : string := ".phaze-committed".
Definition _DIR_FSYNC_UNSUPPORTED_ERRNOS : list errno := [EINVAL; ENOTSUP].

Definition path_of_dir (d : dir) : path := Path (removelast d) (List.last d "").

Fixpoint prefixes (acc d : dir) : list dir :=
  match d with [] => [] | c :: d' => (acc ++ [c]) :: prefixes (acc ++ [c]) d' end.

Definition with_name (p : path) (n : string) : path := Path (parent p) n.

Definition committed_copy_marker_path (proposed : path) (proposal : string) : path :=
  with_name proposed (name proposed +:+ COMMIT_MARKER_SUFFIX +:+ "." +:+ proposal).

Section engine.
Context (fold casefold sha256 : string -> string) (dev : dir -> nat) (env : nat -> env_step) (token : string).
Context (resolver : fs -> pure -> list string -> outcome string (dir * dir)).

Abbreviation M := (M FailedAtStep).
Abbreviation syscall := (syscall (St := FailedAtStep) fold dev env).
Abbreviation query := (query (St := FailedAtStep) fold dev env).

(** ** [LocalFilesystemPrimitives] *)

Definition resolve_containment (candidate : pure) (roots : list string) : M (path * dir) :=
  query (fun s => match resolver s candidate roots with
                  | Ok (p, r) => Ok (path_of_dir p, r)
                  | Raise msg => Raise (ValueError msg)
                  end).

Definition destination_candidate (it : Item) (original : path) (owning_root : dir) : pure :=
  let dest_dir := if bool_decide (proposed_path it = "") then Pure true (parent original)
                  else path_join (Pure true owning_root) (proposed_path it) in
  path_join dest_dir (proposed_filename it).

Definition resolve_destination (it : Item) (original : path) (owning_root : dir) (roots : list string) : M path :=
  do! (resolved, _) <- resolve_containment (destination_candidate it original owning_root) roots;
  mret resolved.

Definition read_file (p : path) : M string := query (fun s => try! (_, b) <- fs_read fold p s; Ok b).

Definition sha256_of_file (p : path) : M string :=
  do! b <- read_file p; mret (sha256 b).

(** [Path.exists]: no error gets out. *)
Definition exists_ (p : path) : M bool :=
  catch (query (fun s => Ok (occupied fold s p))) (fun _ => mret false).

(** [os.open] of the directory, then [os.fsync]; an unsupported fsync is
    logged and passed over. *)
Definition fsync_directory (d : dir) : M unit :=
  run! query (fun s => if is_dir s d then Ok () else Raise (OSError ENOENT));
  catch (syscall keep (total (fun s => (fs_commit dev d s, ()))))
    (fun e => match e with
              | OSError err => if bool_decide (err ∈ _DIR_FSYNC_UNSUPPORTED_ERRNOS) then mret () else mraise e
              | _ => mraise e
              end).

Definition write_commit_marker (marker : path) (proposal : string) : M unit :=
  do! fd <- syscall keep (fs_open_trunc fold dev marker);
  run! syscall (fun n => set_body fd (String.substring 0 n proposal)) (total (fun s => (set_body fd proposal s, ())));
  run! syscall keep (total (fun s => (fs_fsync fd s, ())));
  fsync_directory (parent marker).

Definition unique_tmp_path (dst : path) : path :=
  with_name dst (name dst +:+ COPY_TMP_SUFFIX +:+ "." +:+ token).

Definition stat (p : path) : M (nat * ident * nat) := query (fs_stat fold dev p).

Definition same_filesystem (src : path) (dst_dir : dir) : M bool :=
  do! (d1, _, _) <- stat src;
  do! d2 <- query (fs_stat_dir dev dst_dir);
  mret (bool_decide (d1 = d2)).

(** [os.path.samestat]: device and inode. *)
Definition is_same_file (a b : path) : M bool :=
  catch (do! (d1, i1, _) <- stat a;
         do! (d2, i2, _) <- stat b;
         mret (bool_decide (i1 = i2 /\ d1 = d2)))
    (fun e => match e with OSError _ => mret false | _ => mraise e end).

Definition is_case_only_same_entry (original proposed : path) : bool :=
  bool_decide (parent original = parent proposed) && negb (bool_decide (name original = name proposed))
  && bool_decide (casefold (name original) = casefold (name proposed)).

Definition destination_is_committed_copy (original proposed : path) (expected_hash : option string) : M bool :=
  do! proposed_hash <- sha256_of_file proposed;
  match expected_hash with
  | Some h => mret (bool_decide (proposed_hash = h))
  | None => do! h <- sha256_of_file original; mret (bool_decide (proposed_hash = h))
  end.

(** The read end is opened first; [copyfileobj] may stop after a part of the
    bytes.  [copystat] can fail but moves no byte. *)
Definition streamed_copy (src dst : path) : M unit :=
  do! source <- read_file src;
  do! fd <- syscall keep (fs_open_excl fold dev dst);
  run! syscall (fun n => set_body fd (String.substring 0 n source)) (total (fun s => (set_body fd source s, ())));
  run! syscall keep (total (fun s => (fs_fsync fd s, ())));
  query (fun _ => Ok ()).

Definition unlink (p : path) : M unit := syscall keep (fs_unlink fold dev p).

Definition unlink_missing_ok (p : path) : M unit :=
  catch (unlink p) (fun e => match e with OSError ENOENT => mret () | _ => mraise e end).

Definition claim_destination_by_link (src dst : path) : M bool :=
  run! syscall keep (fs_link fold dev src dst); mret true.

Definition atomic_cross_fs_copy (src dst : path) : M unit :=
  let tmp := unique_tmp_path dst in
  finally (run! streamed_copy src tmp; run! claim_destination_by_link tmp dst; mret ())
    (unlink_missing_ok tmp).

Definition atomic_same_fs_move (src dst : path) : M unit :=
  run! claim_destination_by_link src dst; unlink src.

Definition verify_hash_or_raise (p : path) (expected_hash label suffix : string) : M unit :=
  do! actual <- sha256_of_file p;
  if bool_decide (actual = expected_hash) then mret ()
  else mraise (ValueError ("sha256 mismatch for " +:+ label +:+ ": expected " +:+ expected_hash +:+ ", got " +:+ actual
                           +:+ suffix)).

(** ** [LocalExecutionFilesystemEngine] *)

Definition _check_replay_corroborated (original proposed : path) (it : Item) (moved_flag_present : bool) : M bool :=
  do! e1 <- exists_ original;
  if (e1 : bool) then mret false else
  do! e2 <- exists_ proposed;
  if negb e2 then mret false else
  if moved_flag_present then mret true
  else exists_ (committed_copy_marker_path proposed (proposal_id it)).

Definition _reclaim_or_refuse_existing_destination (original proposed : path) (it : Item) (same_fs : bool) : M unit :=
  let own_marker := committed_copy_marker_path proposed (proposal_id it) in
  do! marked <- (if same_fs then mret false else exists_ own_marker);
  do! reclaim <- (if (marked : bool) then destination_is_committed_copy original proposed (sha256_hash it) else mret false);
  if (reclaim : bool) then
    run! set_local StepDelete;
    run! unlink original;
    unlink_missing_ok own_marker
  else mraise (FileExistsError ("destination already exists, refusing to overwrite: " +:+ path_str proposed)).

Definition _move_same_fs_entry (original proposed : path) : M unit :=
  do! residue <- (if negb (bool_decide (original = proposed)) && negb (is_case_only_same_entry original proposed) then
                    do! (_, _, nlink) <- stat original; mret (bool_decide (1 < nlink))
                  else mret false);
  if (residue : bool) then
    run! set_local StepDelete;
    unlink original
  else syscall keep (fs_replace fold dev original proposed).

Definition _move_across_filesystem (original proposed : path) (it : Item) : M unit :=
  run! atomic_cross_fs_copy original proposed;
  run! (match sha256_hash it with
        | Some h =>
            run! set_local StepVerify;
            verify_hash_or_raise proposed h ("published destination " +:+ path_str proposed) " (post-publish re-verify)"
        | None => mret ()
        end);
  let marker := committed_copy_marker_path proposed (proposal_id it) in
  run! write_commit_marker marker (proposal_id it);
  run! set_local StepDelete;
  run! unlink original;
  unlink_missing_ok marker.

(** [mkdir(parents=True, exist_ok=True)] creates the missing ancestors one by
    one; an ancestor that is a file stops it. *)
Definition mkdir_parents (d : dir) : M unit :=
  syscall (fun n => fs_mkdir (take n (prefixes [] d)))
    (fun s => if existsb (fun a => bool_decide (is_Some (entries s !! key fold (path_of_dir a)))) (prefixes [] d)
              then Raise (OSError ENOTDIR) else Ok (fs_mkdir (prefixes [] d) s, ())).

Definition _apply_file_move (original proposed : path) (it : Item) : M unit :=
  run! set_local StepCopy;
  run! mkdir_parents (parent proposed);
  do! same_fs <- same_filesystem original (parent proposed);
  do! there <- exists_ proposed;
  do! foreign <- (if (there : bool) then do! same <- is_same_file original proposed; mret (negb same) else mret false);
  if (foreign : bool) then _reclaim_or_refuse_existing_destination original proposed it same_fs
  else if same_fs then
    do! same <- is_same_file original proposed;
    if (same : bool) then _move_same_fs_entry original proposed else atomic_same_fs_move original proposed
  else _move_across_filesystem original proposed it.

(** [move] once both paths are resolved. *)
Definition move_resolved (original dest : path) (request : FilesystemMoveRequest) : M FilesystemMoveResult :=
  let it := item request in
  do! already_moved <- _check_replay_corroborated original dest it (replay_corroborated request);
  if (already_moved : bool) then
    run! (match sha256_hash it with
          | Some h =>
              run! set_local StepVerify;
              verify_hash_or_raise dest h (source_path it)
                (" (already-moved replay check against " +:+ path_str dest +:+ ")")
          | None => mret ()
          end);
    run! unlink_missing_ok (committed_copy_marker_path dest (proposal_id it));
    mret (MoveResult dest false)
  else
    run! (match sha256_hash it with
          | Some h => run! set_local StepVerify; verify_hash_or_raise original h (source_path it) ""
          | None => mret ()
          end);
    run! _apply_file_move original dest it;
    mret (MoveResult dest true).

Definition move (request : FilesystemMoveRequest) : M FilesystemMoveResult :=
  do! (original, owning_root) <- resolve_containment (mk_path (source_path (item request))) (scan_roots request);
  do! dest <- resolve_destination (item request) original owning_root (scan_roots request);
  move_resolved original dest request.

End engine.
