(* ===== verification/MoveSafety.v ===== *)
(** * Data safety of the move engine

    One run of MoveFs on a resolved pair of paths, in any environment that
    creates files between calls and makes calls fail: in every state a crash or
    a power loss could expose, the bytes of the source are at the source or at
    the destination, and no file of anybody else has changed. *)
From S2P Require Import Prelude Containment FsModel MoveFs.
From stdpp Require Import options.

(** The source is inode [i0] with bytes [c], on disk.  [power] is the case for
    which losing power is covered: directories can be fsynced and no commit
    marker is there yet. *)
Section safety.
Context (fold casefold sha256 : string -> string) (dev : dir -> nat) (env : nat -> env_step) (token : string).
Context (original dest : path) (it : Item) (i0 : nat) (c : string) (power : Prop).

Abbreviation kO := (key fold original).
Abbreviation kP := (key fold dest).
Abbreviation marker := (committed_copy_marker_path dest (proposal_id it)).
Abbreviation kM := (key fold marker).
Abbreviation tmp := (unique_tmp_path token dest).
Abbreviation kT := (key fold tmp).

(** What the run relies on: the engine's own names are apart, the mount
    identifies only names equal up to case, the digest tells [c] from other
    contents, nobody else creates the engine's own files. *)
Record assumptions : Prop := {
  as_marker : kM <> kO /\ kM <> kP;
  as_tmp : kT <> kO /\ kT <> kP /\ kT <> kM;
  as_fold : forall a b, fold a = fold b -> a = b \/ casefold a = casefold b;
  as_hash : forall b, sha256 b = sha256 c -> b = c;
  as_env : forall t a, a ∈ arrivals (env t) -> key fold a.1 <> kM /\ key fold a.1 <> kT;
  as_fsync : power -> forall t e, fault (env t) = Some e -> e ∉ _DIR_FSYNC_UNSUPPORTED_ERRNOS;
}.

Definition live_safe (s : fs) : Prop := holds s kO c \/ holds s kP c.
Definition power_safe (s : fs) : Prop := forall n, survives dev n s kO c \/ survives dev n s kP c.

(** Everybody else's files, those that arrived during the run included. *)
Definition undisturbed (s : fs) : Prop := forall k i b,
  others s !! k = Some (i, b) -> k <> kO -> k <> kT -> k <> kM ->
  entries s !! k = Some i /\ bodies s !! i = Some b /\ (i < next_ino s)%nat /\ entries s !! kM <> Some i.

Definition safe (s : fs) : Prop := (live_safe s /\ (power -> power_safe s)) /\ undisturbed s.

(** Inode [j] is the engine's own. *)
Definition own (j : nat) (s : fs) : Prop :=
  (j < next_ino s)%nat /\
  forall k i b, others s !! k = Some (i, b) -> k <> kO -> k <> kT -> k <> kM -> i <> j.

(** The source is untouched. *)
Record source_ok (s : fs) : Prop := {
  src_wf : wf_fs dev s;
  src_kept : kept dev s kO i0 c;
  src_apart : entries s !! kM <> Some i0;
  src_others : undisturbed s;
}.

Definition unmarked (s : fs) : Prop := power -> occupied fold s marker = false.

(** The start of a run. *)
Definition ready (s : fs) : Prop := source_ok s /\ unmarked s.

(** The bytes are published at the destination as inode [j]. *)
Record published (j : nat) (s : fs) : Prop := {
  pub_live : live s kP j c;
  pub_other : j <> i0;
  pub_apart : entries s !! kM <> Some j;
}.

(** The destination alone is enough. *)
Record done_ok (j : nat) (s : fs) : Prop := {
  dst_wf : wf_fs dev s;
  dst_holds : entries s !! kP = Some j /\ default "" (bodies s !! j) = c /\ (j < next_ino s)%nat;
  dst_power : power -> kept dev s kP j c;
  dst_gone : entries s !! kO <> Some i0;
  dst_old : (i0 < next_ino s)%nat;
  dst_others : undisturbed s;
}.

(** The destination has the bytes and the source entry is gone, unless it is
    the destination entry itself. *)
Definition arrived (s : fs) : Prop :=
  holds s kP c /\
  (entries s !! kO <> Some i0 \/ original = dest \/ is_case_only_same_entry casefold original dest = true).

Context (A : assumptions).

Abbreviation stable := (stable_under_arrivals fold dev env).
Abbreviation tri := (triple (St := FailedAtStep) safe).

(** *** Arrivals *)

Lemma arrival_entry s t a k :
  a ∈ arrivals (env t) -> k = kM \/ k = kT -> entries (arrive fold dev s a) !! k = entries s !! k.
Proof using A.
  intros Ha Hk. destruct (arrive_cases fold dev s a) as [->|[_ ->]]; [done|]. simpl. unfold apply_change. simpl.
  apply lookup_insert_ne. destruct (as_env A _ _ Ha). destruct Hk as [->| ->]; done.
Qed.

Lemma undisturbed_arrive s t a :
  a ∈ arrivals (env t) -> wf_fs dev s -> undisturbed s -> undisturbed (arrive fold dev s a).
Proof using A.
  intros Ha Hwf Hu. pose proof (arrival_entry s t a kM Ha) as HkM.
  destruct (arrive_cases fold dev s a) as [->|[Hfree Heq]]; [done|]. intros k i b Ho HO HT HM.
  rewrite HkM by auto. rewrite Heq in *. simpl in *. unfold apply_change. simpl.
  apply lookup_insert_Some in Ho as [[<- [= <- <-]]|[Hne Ho]].
  - rewrite !lookup_insert_eq. do 2 (split; [done|]). split; [lia|]. intros Hi%(wf_inodes _ _ Hwf). lia.
  - destruct (Hu k i b Ho HO HT HM) as (? & ? & ? & ?). rewrite !lookup_insert_ne by (done || lia). auto with lia.
Qed.

Lemma own_stable j : stable (own j).
Proof.
  intros s t a Ha [Hj Ho]. destruct (arrive_cases fold dev s a) as [->|[Hfree ->]]; [done|].
  split; simpl; [lia|]. intros k i b [[<- [= <- <-]]|[Hne Hk]]%lookup_insert_Some; [lia|by eapply Ho].
Qed.

Lemma source_stable : stable source_ok.
Proof using A.
  intros s t a Ha [Hwf Hk Hm Hu]. constructor; [by apply arrive_wf|by apply kept_arrive| |].
  - by rewrite (arrival_entry s t a) by auto.
  - by eapply undisturbed_arrive.
Qed.

Lemma unmarked_stable : stable unmarked.
Proof using A.
  intros s t a Ha Hu Hp. unfold occupied in *. rewrite (arrival_entry s t a) by auto.
  destruct (arrive_cases fold dev s a) as [->|[_ ->]]; by apply Hu.
Qed.

Lemma published_stable j : stable (published j).
Proof using A.
  intros s t a Ha [Hl Hne Hm]. constructor; [by apply live_arrive|done|].
  by rewrite (arrival_entry s t a) by auto.
Qed.

Lemma done_stable j : stable (done_ok j).
Proof using A.
  intros s t a Ha [Hwf (Hh & Hb & Hj) Hp Hg Ho Hu].
  pose proof (undisturbed_arrive s t a Ha Hwf Hu). destruct (arrive_cases fold dev s a) as [Heq|[Hfree Heq]].
  { by rewrite Heq; constructor. }
  assert (Hne : kP <> key fold a.1) by congruence.
  constructor.
  - by apply arrive_wf.
  - rewrite Heq. simpl. unfold apply_change. simpl. rewrite !lookup_insert_ne by (done || lia). auto with lia.
  - intros HP. apply kept_arrive; auto.
  - rewrite Heq. simpl. unfold apply_change. simpl. intros [[_ ?]|[_ ?]]%lookup_insert_Some; [lia|done].
  - rewrite Heq. simpl. lia.
  - done.
Qed.

Lemma ready_stable : stable ready.
Proof using A. apply stable_and; [apply source_stable|apply unmarked_stable]. Qed.

(** *** Safety of the states *)

Lemma source_safe s : source_ok s -> safe s.
Proof.
  intros [Hwf Hk _ Hu]. split; [split|done].
  - left. by eapply live_holds, kept_live.
  - intros _ n. left. by eapply kept_survives.
Qed.

Lemma ready_safe s : ready s -> safe s.
Proof. intros [? _]. by apply source_safe. Qed.

Lemma done_safe j s : done_ok j s -> safe s.
Proof.
  intros [Hwf (? & ? & ?) Hp _ _ Hu]. split; [split|done].
  - right. by exists j.
  - intros HP n. right. by eapply kept_survives, Hp.
Qed.

(** *** Updates that leave the source alone *)

(** A change to the engine's own entries or to free ones. *)
Lemma undisturbed_log s p chg :
  (forall ch, ch ∈ chg -> (ch.1 = kO \/ ch.1 = kT \/ ch.1 = kM) \/ entries s !! ch.1 = None) ->
  (forall v, (kM, Some v) ∈ chg -> own v s) -> undisturbed s -> undisturbed (log fold dev p chg s).
Proof.
  intros Hch HM Hu k i b Ho H1 H2 H3. destruct (Hu k i b Ho H1 H2 H3) as (Hi & ? & ? & Hkm).
  assert (HkM : forall m, m !! kM <> Some i -> fold_left apply_change chg m !! kM <> Some i).
  { clear Hch. revert HM. induction chg as [|[k' v'] chg IH]; intros HM m Hm; simpl; [done|].
    assert (HM' : forall v, (kM, Some v) ∈ chg -> own v s) by (intros v Hv; apply HM; by right).
    refine (IH Ho HM' _ _). clear IH. revert Hm.
    unfold apply_change. simpl. intros Hm. destruct v' as [v|].
    + intros [[-> ->]|[_ ?]]%lookup_insert_Some; [|done]. destruct (HM i) as [_ Hv]; [by left|].
      by apply (Hv k i b Ho).
    + by intros [_ ?]%lookup_delete_Some. }
  rewrite !entries_log, (apply_changes_ne chg k).
  - split; [done|]. split; [done|]. split; [done|by apply HkM].
  - intros ch Hin <-. destruct (Hch ch Hin) as [[?|[?|?]]|?]; congruence.
Qed.

Lemma undisturbed_unlink s p :
  key fold p = kO \/ key fold p = kT \/ key fold p = kM -> undisturbed s ->
  undisturbed (log fold dev p [(key fold p, None)] s).
Proof.
  intros Hp. apply undisturbed_log.
  - intros ch ->%list_elem_of_singleton. by left.
  - by intros v ?%list_elem_of_singleton.
Qed.

Lemma source_log s p chg :
  (forall ch, ch ∈ chg -> kdev dev ch.1 = kdev dev (key fold p)) ->
  (forall ch, ch ∈ chg -> ch.1 <> kO /\ ch.1 <> kM) ->
  (forall k i, (k, Some i) ∈ chg -> (i < next_ino s)%nat) ->
  (forall ch, ch ∈ chg -> ch.1 = kT \/ entries s !! ch.1 = None) ->
  source_ok s -> source_ok (log fold dev p chg s).
Proof.
  intros Hdev Hne Hino Hfree [Hwf Hk Hm Hu]. constructor.
  - by apply log_wf.
  - apply kept_log; try done. intros ch Hch. by apply Hne.
  - rewrite entries_log, apply_changes_ne; [done|]. intros ch Hch. by apply Hne.
  - apply undisturbed_log; [| |done].
    + intros ch Hch. destruct (Hfree ch Hch); tauto.
    + intros v Hv. by destruct (Hne _ Hv).
Qed.

Lemma unmarked_log s p chg :
  (forall ch, ch ∈ chg -> ch.1 <> kM) -> unmarked s -> unmarked (log fold dev p chg s).
Proof.
  intros Hne Hu HP. specialize (Hu HP). unfold occupied in *.
  rewrite entries_log, apply_changes_ne by done. exact Hu.
Qed.

Lemma undisturbed_set_body s j b : own j s -> undisturbed s -> undisturbed (set_body j b s).
Proof.
  intros [_ Ho] Hu k i b' Hk H1 H2 H3. destruct (Hu k i b' Hk H1 H2 H3) as (? & ? & ? & ?). simpl.
  rewrite lookup_insert_ne; [done|]. intros ->. by eapply Ho.
Qed.

Lemma undisturbed_alloc s b : undisturbed s -> undisturbed (alloc b s).
Proof.
  intros Hu k i b' Hk H1 H2 H3. destruct (Hu k i b' Hk H1 H2 H3) as (? & ? & ? & ?). simpl.
  rewrite lookup_insert_ne by lia. auto with lia.
Qed.

Lemma source_set_body s j b : j <> i0 -> own j s -> source_ok s -> source_ok (set_body j b s).
Proof.
  intros Hne Ho [Hwf Hk Hm Hu]. constructor; [by apply (wf_same _ s)| |done|by apply undisturbed_set_body].
  apply (kept_of_live _ s); try done. apply live_set_body; [done|]. apply Hk.
Qed.

Lemma source_fsync s j : source_ok s -> source_ok (fs_fsync j s).
Proof.
  intros [Hwf Hk Hm Hu]. constructor; [by apply (wf_same _ s)| |done|done].
  apply (kept_of_live _ s); try done. apply live_fsync, Hk.
Qed.

Lemma source_commit s d : source_ok s -> source_ok (fs_commit dev d s).
Proof. intros [Hwf Hk Hm Hu]. constructor; [by apply commit_wf|by apply kept_commit|done|done]. Qed.

Lemma source_mkdir s ds : source_ok s -> source_ok (fs_mkdir ds s).
Proof.
  intros [Hwf Hk Hm Hu]. constructor; [by apply (wf_same _ s)| |done|done].
  apply (kept_of_live _ s); try done. by destruct Hk as [_ []].
Qed.

Lemma source_alloc s b : source_ok s -> source_ok (alloc b s).
Proof.
  intros [Hwf Hk Hm Hu]. constructor; [by apply alloc_wf| |done|by apply undisturbed_alloc].
  apply (kept_of_live _ s); try done. apply live_alloc, Hk.
Qed.

(** The next inode is nobody's yet. *)
Lemma own_next s s' : undisturbed s -> others s' = others s -> (next_ino s < next_ino s')%nat -> own (next_ino s) s'.
Proof.
  intros Hu Ho Hlt. split; [done|]. rewrite Ho. intros k i b Hk H1 H2 H3.
  destruct (Hu k i b Hk H1 H2 H3) as (_ & _ & ? & _). lia.
Qed.

(** Nobody else has a link to the marker's inode. *)
Lemma own_marker s m : wf_fs dev s -> undisturbed s -> entries s !! kM = Some m -> own m s.
Proof.
  intros Hwf Hu Hm. split; [by eapply (wf_inodes _ _ Hwf)|]. intros k i b Hk H1 H2 H3 ->.
  by destruct (Hu k m b Hk H1 H2 H3) as (_ & _ & _ & ?).
Qed.

Lemma source_create_tmp s b : source_ok s -> source_ok (create fold dev tmp b s).
Proof using A.
  destruct (as_tmp A) as (HO & HP & HM). intros Hs. apply source_log; [..|by apply source_alloc].
  - by intros ch ->%list_elem_of_singleton.
  - by intros ch ->%list_elem_of_singleton.
  - intros k i Hin%list_elem_of_singleton. injection Hin as _ ->. simpl. lia.
  - intros ch ->%list_elem_of_singleton. by left.
Qed.

Lemma create_entry s p b : entries (create fold dev p b s) !! key fold p = Some (next_ino s).
Proof. unfold create. rewrite entries_log. simpl. unfold apply_change. simpl. apply lookup_insert_eq. Qed.

Lemma create_entry_ne s p b k : k <> key fold p -> entries (create fold dev p b s) !! k = entries s !! k.
Proof. intros. unfold create. rewrite entries_log, apply_changes_ne; [done|]. intros ch ->%list_elem_of_singleton. done. Qed.

Lemma source_entry s : source_ok s -> entries s !! kO = Some i0.
Proof. intros [_ [_ []] _ _]. done. Qed.

Lemma source_body s : source_ok s -> bodies s !! i0 = Some c.
Proof. intros [_ [_ []] _ _]. done. Qed.

Lemma source_lt s : source_ok s -> (i0 < next_ino s)%nat.
Proof. intros [_ [_ []] _ _]. done. Qed.

(** *** Looking *)

Lemma tri_exists P p :
  stable P -> (forall s, P s -> safe s) ->
  tri P (exists_ fold dev env p) (fun r s => P s /\ exists b, r = Ok b /\ (b = true -> occupied fold s p = true)).
Proof.
  intros Hst Hs. eapply triple_catch.
  - by apply triple_look.
  - intros b s [HP Hb]. split; [done|]. exists b. split; [done|]. intros ->. specialize (Hb _ eq_refl). by injection Hb.
  - intros e. apply triple_ret. intros s [HP _]. split; [done|]. by exists false.
Qed.

Lemma tri_read P p :
  stable P -> (forall s, P s -> safe s) ->
  tri P (read_file fold dev env p) (fun r s => P s /\ forall b, r = Ok b ->
    exists i, entries s !! key fold p = Some i /\ b = default "" (bodies s !! i)).
Proof.
  intros Hst Hs. eapply triple_conseq; [by apply triple_look|done|].
  intros r s [HP Hb]. split; [done|]. intros b ->. specialize (Hb b eq_refl). unfold fs_read in Hb.
  destruct (entries s !! key fold p) as [i|]; [|done]. exists i. split; [done|]. by injection Hb.
Qed.

Lemma tri_sha P p :
  stable P -> (forall s, P s -> safe s) ->
  tri P (sha256_of_file fold sha256 dev env p) (fun r s => P s /\ forall h, r = Ok h ->
    exists i, entries s !! key fold p = Some i /\ h = sha256 (default "" (bodies s !! i))).
Proof.
  intros Hst Hs. eapply triple_bind; [by apply tri_read| |].
  - intros b. apply triple_ret. intros s [HP Hb]. split; [done|]. intros ? [= <-].
    destruct (Hb b eq_refl) as (i & Hi & ->). by exists i.
  - intros e s [HP _]. by split.
Qed.

Lemma tri_verify P p h l x :
  stable P -> (forall s, P s -> safe s) ->
  tri P (verify_hash_or_raise fold sha256 dev env p h l x) (fun r s => P s /\ (is_ok r = true ->
    exists i, entries s !! key fold p = Some i /\ sha256 (default "" (bodies s !! i)) = h)).
Proof.
  intros Hst Hs. eapply triple_bind; [by apply tri_sha| |].
  - intros a. case_bool_decide as Ha.
    + apply triple_ret. intros s [HP Hb]. split; [done|]. intros _. destruct (Hb a eq_refl) as (i & Hi & ->).
      by exists i.
    + apply triple_raise. intros s [HP _]. by split.
  - intros e s [HP _]. by split.
Qed.

(** *** The staged copy *)

(** The engine's new file at [k], inode [j]. *)
Record staged (k : entry) (j : nat) (s : fs) : Prop := {
  stg_entry : entries s !! k = Some j;
  stg_lt : (j < next_ino s)%nat;
  stg_new : j <> i0;
  stg_apart : entries s !! kM <> Some j;
  stg_own : own j s;
}.

Lemma staged_stable k j : k <> kM -> stable (staged k j).
Proof using A.
  intros Hne s t a Ha [He Hlt Hn Hm Ho]. constructor.
  - by eapply stable_entry.
  - destruct (arrive_cases fold dev s a) as [->|[_ ->]]; simpl; lia.
  - done.
  - by rewrite (arrival_entry s t a) by auto.
  - by eapply own_stable.
Qed.

Lemma ready_create_tmp s : ready s -> ready (create fold dev tmp "" s).
Proof using A.
  destruct (as_tmp A) as (HO & HP & HM). intros [Hs Hu]. split; [by apply source_create_tmp|].
  apply (unmarked_log (alloc "" s)); [|done]. by intros ch ->%list_elem_of_singleton.
Qed.

Lemma ready_set_body s j b : j <> i0 -> own j s -> ready s -> ready (set_body j b s).
Proof. intros Hne Ho [Hs Hu]. split; [by apply source_set_body|done]. Qed.

Lemma source_reads s i : source_ok s -> entries s !! kO = Some i -> default "" (bodies s !! i) = c.
Proof. intros Hs. rewrite (source_entry _ Hs). intros [= <-]. by rewrite (source_body _ Hs). Qed.

Lemma tri_read_source :
  tri ready (read_file fold dev env original) (fun r s => ready s /\ forall b, r = Ok b -> b = c).
Proof using A.
  eapply triple_conseq; [apply tri_read; [apply ready_stable|apply ready_safe]|done|].
  intros r s [Hr Hb]. split; [done|]. intros b Hok. destruct (Hb b Hok) as (i & Hi & ->).
  apply source_reads; [apply Hr|done].
Qed.

Lemma tri_stage_open :
  tri ready (syscall fold dev env keep (fs_open_excl fold dev tmp))
    (fun r s => ready s /\ (forall j, r = Ok j -> staged kT j s)).
Proof using A.
  destruct (as_tmp A) as (HO & HP & HM).
  apply triple_syscall; [apply ready_stable|apply ready_safe|..].
  - intros s Hr. unfold fs_open_excl. destruct (occupied fold s tmp) eqn:Ho; [done|]. destruct (negb _); [done|].
    split; [|by apply ready_safe, ready_create_tmp]. split; [by apply ready_create_tmp|].
    intros j [= <-]. pose proof (source_lt _ (proj1 Hr)). constructor.
    + apply create_entry.
    + simpl. lia.
    + lia.
    + rewrite create_entry_ne by done. intros Hm%(wf_inodes _ _ (src_wf _ (proj1 Hr))). lia.
    + by apply own_next; [apply Hr| |simpl; lia].
  - intros s n t e _ Hr. split; [done|by apply ready_safe].
Qed.

Lemma ready_staged_stable j : stable (fun s => ready s /\ staged kT j s).
Proof using A. apply stable_and; [apply ready_stable|]. apply staged_stable, (as_tmp A). Qed.

Lemma tri_stage_write j :
  tri (fun s => ready s /\ staged kT j s)
    (syscall fold dev env (fun n => set_body j (String.substring 0 n c)) (total (fun s => (set_body j c s, ()))))
    (fun r s => (ready s /\ staged kT j s) /\ (is_ok r = true -> bodies s !! j = Some c)).
Proof using A.
  apply triple_syscall; [apply ready_staged_stable|by intros s [Hr _]; apply ready_safe|..].
  - intros s (Hr & Hj). pose proof (ready_set_body s j c (stg_new _ _ _ Hj) (stg_own _ _ _ Hj) Hr).
    split; [|by apply ready_safe]. split; [split; [done|by destruct Hj]|]. intros _. apply lookup_insert_eq.
  - intros s n t e _ (Hr & Hj). pose proof (ready_set_body s j (String.substring 0 n c) (stg_new _ _ _ Hj) (stg_own _ _ _ Hj) Hr).
    split; [|by apply ready_safe]. split; [split; [done|by destruct Hj]|done].
Qed.

Definition copied (s : fs) : Prop := exists j, staged kT j s /\ live s kT j c.

Lemma tri_stage_sync j :
  tri (fun s => (ready s /\ staged kT j s) /\ bodies s !! j = Some c)
    (syscall fold dev env keep (total (fun s => (fs_fsync j s, ()))))
    (fun r s => ready s /\ (is_ok r = true -> copied s)).
Proof using A.
  apply triple_syscall.
  - intros s t a Ha [(Hr & Hj) Hb]. split; [by eapply ready_staged_stable|].
    destruct (arrive_cases fold dev s a) as [->|[_ ->]]; [done|]. simpl.
    rewrite lookup_insert_ne; [done|]. destruct Hj. lia.
  - intros s [[Hr _] _]. by apply ready_safe.
  - intros s [(Hr & Hj) Hb]. simpl.
    assert (ready (fs_fsync j s)) by (destruct Hr; split; [by apply source_fsync|done]).
    split; [|by apply ready_safe]. split; [done|]. intros _. exists j. split; [by destruct Hj|].
    constructor; simpl; [by destruct Hj|done|set_solver|by destruct Hj].
  - intros s n t e _ [(Hr & Hj) Hb]. split; [|by apply ready_safe]. by split.
Qed.

Lemma ready_copied_stable (X : Prop) : stable (fun s => ready s /\ (X -> copied s)).
Proof using A.
  intros s t a Ha [Hr Hc]. split; [by eapply ready_stable|]. intros HX.
  destruct (Hc HX) as (j & Hj & Hl). exists j. split; [|by apply live_arrive].
  eapply staged_stable; [apply (as_tmp A)|done..].
Qed.

Lemma tri_copy :
  tri ready (streamed_copy fold dev env original tmp) (fun r s => ready s /\ (is_ok r = true -> copied s)).
Proof using A.
  eapply triple_bind; [apply tri_read_source| |by intros e s [? _]]. intros b.
  eapply triple_bind with (Qa := fun r s => b = c /\ ready s /\ (forall j, r = Ok j -> staged kT j s));
    [|intros j|by intros e s (_ & ? & _)].
  { intros w [Hr ->%(fun H => H b eq_refl)] Ht. pose proof (tri_stage_open w Hr Ht) as H.
    destruct (syscall _ _ _ _ _ w). naive_solver. }
  eapply triple_bind with (Qa := fun r s => (ready s /\ staged kT j s) /\ (is_ok r = true -> bodies s !! j = Some c));
    [|intros ?|by intros e s [[? _] _]].
  { intros w (Hb & Hr & Hj) Ht. rewrite Hb. apply tri_stage_write; auto. }
  eapply triple_bind; [eapply triple_conseq; [apply (tri_stage_sync j)|naive_solver|]| |]; [done| |].
  - intros ?. apply triple_query; [apply ready_copied_stable|by intros s [Hr _]; apply ready_safe|..].
    + intros s a' [Hr Hc] _. by split.
    + intros s e [Hr _]. by split.
  - intros e s [Hr _]. by split.
Qed.

(** *** Publication *)

Lemma tri_unlink P p :
  stable P -> (forall s, P s -> safe s) -> (forall s, P s -> P (log fold dev p [(key fold p, None)] s)) ->
  tri P (unlink fold dev env p) (fun _ s => P s).
Proof.
  intros Hst Hs Hp. apply triple_syscall; [done|done|..].
  - intros s HP. unfold fs_unlink. destruct (entries s !! key fold p); [|done]. auto.
  - intros s n t e _ HP. unfold keep. auto.
Qed.

Lemma tri_unlink_missing P p :
  stable P -> (forall s, P s -> safe s) -> (forall s, P s -> P (log fold dev p [(key fold p, None)] s)) ->
  tri P (unlink_missing_ok fold dev env p) (fun _ s => P s).
Proof.
  intros Hst Hs Hp. eapply triple_catch; [by apply tri_unlink|done|].
  intros [[]| |]; try (by apply triple_raise). by apply triple_ret.
Qed.

Lemma ready_unlink s p :
  key fold p = kT \/ key fold p = kM -> key fold p <> kO -> ready s -> ready (log fold dev p [(key fold p, None)] s).
Proof.
  intros Hp HO [Hs Hu]. split.
  - destruct Hs as [Hwf Hk Hm Hun]. constructor; [..|by apply undisturbed_unlink; [right|]].
    + apply log_wf; [done|by intros ch ->%list_elem_of_singleton|by intros k i Hin%list_elem_of_singleton].
    + apply kept_log; try done; by intros ch ->%list_elem_of_singleton.
    + rewrite entries_log. simpl. unfold apply_change. simpl. by intros [_ ?]%lookup_delete_Some.
  - intros HP. specialize (Hu HP). unfold occupied in *. apply orb_false_iff in Hu as [Hu Hd].
    apply orb_false_iff. split; [|done]. apply bool_decide_eq_false in Hu. apply bool_decide_eq_false.
    rewrite entries_log. simpl. unfold apply_change. simpl. intros [i [_ Hi]%lookup_delete_Some]. apply Hu. by eexists.
Qed.

Lemma published_unlink s j p : key fold p <> kP -> published j s -> published j (log fold dev p [(key fold p, None)] s).
Proof.
  intros HP [Hl Hn Hm]. constructor; [|done|].
  - apply live_log; [|done]. by intros ch ->%list_elem_of_singleton.
  - rewrite entries_log. simpl. unfold apply_change. simpl. by intros [_ ?]%lookup_delete_Some.
Qed.

Definition ready_pub (X : Prop) (s : fs) : Prop := ready s /\ (X -> exists j, published j s).

Lemma ready_pub_stable X : stable (ready_pub X).
Proof using A.
  intros s t a Ha [Hr Hc]. split; [by eapply ready_stable|]. intros HX.
  destruct (Hc HX) as (j & Hj). exists j. by eapply published_stable.
Qed.

Lemma tri_claim :
  tri (fun s => ready s /\ copied s) (claim_destination_by_link fold dev env tmp dest)
    (fun r => ready_pub (is_ok r = true)).
Proof using A.
  destruct (as_tmp A) as (HO & HP & HM), (as_marker A) as [HMO HMP].
  eapply triple_bind with (Qa := fun r => ready_pub (is_ok r = true)); [|intros ?; by apply triple_ret; intros s H; exact H|].
  2: { intros e s [? _]. by split. }
  eapply triple_conseq with (P' := fun s => ready s /\ (True -> copied s)) (Q' := fun r => ready_pub (is_ok r = true));
    [|naive_solver|done].
  apply triple_syscall; [apply ready_copied_stable|by intros s [Hr _]; apply ready_safe|..].
  - intros s [Hr Hc]. destruct (Hc I) as (j & Hj & Hl). unfold fs_link. rewrite (stg_entry _ _ _ Hj).
    destruct (occupied fold s dest) eqn:Hocc; [by split|]. do 2 (destruct (negb _); [by split|]).
    assert (HPO : kP <> kO).
    { intros Heq. apply occupied_false in Hocc. rewrite Heq, (source_entry _ (proj1 Hr)) in Hocc. done. }
    assert (Hr' : ready (log fold dev dest [(kP, Some j)] s)).
    { destruct Hr as [Hs Hu]. split.
      - apply source_log; [by intros ch ->%list_elem_of_singleton|by intros ch ->%list_elem_of_singleton| | |done].
        + intros k i [= -> ->]%list_elem_of_singleton. by destruct Hj.
        + intros ch ->%list_elem_of_singleton. right. by apply occupied_false.
      - apply unmarked_log; [by intros ch ->%list_elem_of_singleton|done]. }
    split; [|by apply ready_safe]. split; [done|]. intros _. exists j. destruct Hj, Hl. constructor.
    + constructor; simpl; try done. unfold apply_change. simpl. apply lookup_insert_eq.
    + done.
    + rewrite entries_log, apply_changes_ne; [done|]. by intros ch ->%list_elem_of_singleton.
  - intros s n t e _ [Hr _]. split; [by split|by apply ready_safe].
Qed.

Lemma tri_cross_copy :
  tri ready (atomic_cross_fs_copy fold dev env token original dest) (fun r => ready_pub (is_ok r = true)).
Proof using A.
  destruct (as_tmp A) as (HO & HP & HM).
  eapply triple_finally with (Qm := fun r => ready_pub (is_ok r = true)).
  - eapply triple_bind; [apply tri_copy| |by intros e s [? _]; split].
    intros ?. eapply triple_bind; [eapply triple_conseq; [apply tri_claim|naive_solver|done]| |].
    + intros ?. by apply triple_ret; intros s H; exact H.
    + by intros e s [? _].
  - intros r. eapply triple_conseq; [apply (tri_unlink_missing (ready_pub (is_ok r = true)))|done|].
    + apply ready_pub_stable.
    + intros s [Hr _]. by apply ready_safe.
    + intros s [Hr Hc]. split; [by apply ready_unlink; [left| |]|]. intros HX. destruct (Hc HX) as (j & Hj). exists j.
      by apply published_unlink.
    + intros [] s Hs; simpl; [done|]. intros e'. destruct Hs. by split.
Qed.

(** *** The commit marker *)

Definition both (j : nat) (s : fs) : Prop := source_ok s /\ published j s.

Lemma both_stable j : stable (both j).
Proof using A. apply stable_and; [apply source_stable|apply published_stable]. Qed.

Lemma both_safe j s : both j s -> safe s.
Proof. intros [? _]. by apply source_safe. Qed.

Lemma both_set_body j m b s : m <> i0 -> m <> j -> own m s -> both j s -> both j (set_body m b s).
Proof.
  intros H0 Hj Ho [Hs [Hl Hn Hm]]. split; [by apply source_set_body|].
  constructor; [|done|done]. by apply live_set_body.
Qed.

Lemma both_create_marker j s : both j s -> both j (create fold dev marker "" s).
Proof using A.
  destruct (as_marker A) as [HMO HMP]. intros [[Hwf Hk Ha Hu] [Hl Hn Hm]]. split; constructor.
  - by apply create_wf.
  - by apply kept_create.
  - rewrite create_entry. destruct Hk as [_ []]. intros [=]. lia.
  - apply undisturbed_log; [| |by apply undisturbed_alloc].
    + intros ch ->%list_elem_of_singleton. left. tauto.
    + intros v [= ->]%list_elem_of_singleton. apply own_next; [done|done|simpl; lia].
  - by apply live_create.
  - done.
  - rewrite create_entry. destruct Hl. intros [=]. lia.
Qed.

Lemma tri_marker_open j :
  tri (both j) (syscall fold dev env keep (fs_open_trunc fold dev marker))
    (fun r s => both j s /\ (forall m, r = Ok m -> (m <> i0 /\ m <> j) /\ own m s)).
Proof using A.
  apply triple_syscall; [apply both_stable|apply both_safe|..].
  - intros s Hb. unfold fs_open_trunc. destruct (entries s !! kM) as [m|] eqn:Hm.
    + assert (m <> i0 /\ m <> j) as [H0 Hj] by (destruct Hb as [[] []]; split; congruence).
      assert (Ho : own m s) by (destruct Hb as [[] _]; by apply own_marker).
      pose proof (both_set_body j m "" s H0 Hj Ho Hb) as Hb'. split; [|by eapply both_safe].
      split; [done|]. by intros ? [= <-].
    + destruct (is_dir s _); [by split|]. destruct (negb _); [by split|].
      pose proof (both_create_marker j s Hb) as Hb'. split; [|by eapply both_safe]. split; [done|].
      intros ? [= <-]. destruct Hb as [[_ [_ []] _ Hu] [[] _ _]]. split; [lia|]. apply own_next; [done|done|simpl; lia].
  - intros s n t e _ Hb. split; [done|by eapply both_safe].
Qed.

Lemma tri_fsync_directory j :
  tri (both j) (fsync_directory fold dev env (parent marker))
    (fun r s => both j s /\ (is_ok r = true -> power -> at_rest dev s kP j)).
Proof using A.
  eapply triple_bind; [apply triple_look; [apply both_stable|apply both_safe]| |by intros e s [? _]].
  intros ?. eapply triple_catch with (Qm := fun r s => both j s /\
    match r with Ok _ => at_rest dev s kP j | Raise e => forall x, e = OSError x -> power -> x ∉ _DIR_FSYNC_UNSUPPORTED_ERRNOS end).
  - eapply triple_conseq with (P' := both j); [|by intros s [? _]|intros r s H; exact H].
    apply triple_syscall; [apply both_stable|apply both_safe|..].
    + intros s [Hs Hp]. simpl. assert (Hb : both j (fs_commit dev (parent marker) s)).
      { split; [by apply source_commit|]. destruct Hp as [[] Hn Hm]. by constructor. }
      split; [|by eapply both_safe]. split; [done|]. apply commit_at_rest; [apply Hs|done|apply Hp].
    + intros s n t e Hf Hb. split; [|by eapply both_safe]. split; [done|]. intros ? [= <-] HP. by eapply as_fsync.
  - intros ? s [Hb Hr]. by split.
  - intros [x| |]; try (apply triple_raise; by intros s [? _]).
    case_bool_decide as Hx; [|apply triple_raise; by intros s [? _]].
    apply triple_ret. intros s [Hb Hr]. split; [done|]. intros _ HP. by destruct (Hr x eq_refl HP).
Qed.

Lemma tri_marker j :
  tri (both j) (write_commit_marker fold dev env marker (proposal_id it))
    (fun r s => both j s /\ (is_ok r = true -> power -> at_rest dev s kP j)).
Proof using A.
  eapply triple_bind; [apply tri_marker_open| |by intros e s [? _]]. intros m.
  eapply triple_bind with (Qa := fun _ s => both j s).
  { eapply triple_conseq with (P' := fun s => both j s /\ own m s /\ m <> i0 /\ m <> j);
      [|by intros s [Hb Hm]; split; [|split; apply Hm]|intros r s H; exact H].
    apply triple_syscall; [apply stable_and; [apply both_stable|apply stable_and; [apply own_stable|apply stable_pure]]
      |intros s [? _]; by eapply both_safe|..].
    - intros s (Hb & Ho & H0 & Hj). pose proof (both_set_body j m (proposal_id it) s H0 Hj Ho Hb). split; [done|by eapply both_safe].
    - intros s n t e _ (Hb & Ho & H0 & Hj).
      pose proof (both_set_body j m (String.substring 0 n (proposal_id it)) s H0 Hj Ho Hb).
      split; [done|by eapply both_safe]. }
  2: { intros e s Hb. by split. }
  intros ?. eapply triple_bind with (Qa := fun _ s => both j s); [|intros ?; apply tri_fsync_directory|].
  2: { intros e s Hb. by split. }
  apply triple_syscall; [apply both_stable|apply both_safe|..].
  - intros s [Hs Hp]. assert (Hb : both j (fs_fsync m s)).
    { split; [by apply source_fsync|]. destruct Hp as [Hl Hn Hm]. constructor; [by apply live_fsync|done|done]. }
    split; [done|by eapply both_safe].
  - intros s n t e _ Hb. split; [done|by eapply both_safe].
Qed.

(** *** Across file systems *)

Definition finished (r : Prop) (s : fs) : Prop := safe s /\ (r -> arrived s).

Lemma done_arrived j s : done_ok j s -> arrived s.
Proof. intros [_ (Hj & Hb & _) _ Hg _ _]. split; [by exists j|by left]. Qed.

Lemma finished_no (r : Prop) s : safe s -> ~ r -> finished r s.
Proof. by split. Qed.

(** Removing the source, once the destination is enough. *)
Lemma unlink_source s j :
  source_ok s -> key fold dest <> kO -> entries s !! kP = Some j -> default "" (bodies s !! j) = c -> (j < next_ino s)%nat ->
  (power -> kept dev s kP j c) -> done_ok j (log fold dev original [(kO, None)] s).
Proof.
  intros [Hwf Hk Ha Hu] Hne Hj Hb Hlt Hp. pose proof (source_lt _ (Build_source_ok _ Hwf Hk Ha Hu)).
  constructor; simpl; try done; [..|by apply undisturbed_unlink; [left|]].
  - apply log_wf; [done|by intros ch ->%list_elem_of_singleton|by intros k i Hin%list_elem_of_singleton].
  - unfold apply_change. simpl. by rewrite lookup_delete_ne.
  - intros HP. apply kept_log; [done|by intros ch ->%list_elem_of_singleton..|by apply Hp].
  - unfold apply_change. simpl. by rewrite lookup_delete_eq.
Qed.

Lemma done_unlink_marker j s : done_ok j s -> done_ok j (log fold dev marker [(kM, None)] s).
Proof using A.
  destruct (as_marker A) as [HMO HMP]. intros [Hwf (Hj & Hb & Hlt) Hp Hg Ho Hu]. constructor; simpl; try done;
    [..|by apply undisturbed_unlink; [right; right|]].
  - apply log_wf; [done|by intros ch ->%list_elem_of_singleton|by intros k i Hin%list_elem_of_singleton].
  - unfold apply_change. simpl. by rewrite lookup_delete_ne.
  - intros HP. apply kept_log; [done|by intros ch ->%list_elem_of_singleton..|by apply Hp].
  - unfold apply_change. simpl. by rewrite lookup_delete_ne.
Qed.

Lemma tri_drop_source j :
  tri (fun s => both j s /\ (power -> at_rest dev s kP j)) (unlink fold dev env original)
    (fun r s => safe s /\ (is_ok r = true -> done_ok j s)).
Proof using A.
  eapply triple_conseq with (P' := fun s => both j s /\ (power -> kept dev s kP j c)); [..|intros r s H; exact H].
  - apply triple_syscall.
    + intros s t a Ha [Hb Hk]. split; [by eapply both_stable|]. intros HP. apply kept_arrive; [apply Hb|by apply Hk].
    + intros s [Hb _]. by eapply both_safe.
    + intros s [[Hs [[? Hbody ? ?] Hn Hm]] Hk]. unfold fs_unlink. rewrite (source_entry _ Hs).
      assert (Hd : done_ok j (log fold dev original [(kO, None)] s)).
      { apply unlink_source; try done; [|by rewrite Hbody]. intros Heq.
        pose proof (source_entry _ Hs). congruence. }
      split; [|by eapply done_safe]. split; [by eapply done_safe|done].
    + intros s n t e _ [Hb _]. split; [|by eapply both_safe]. split; [by eapply both_safe|done].
  - intros s [Hb Hr]. split; [done|]. intros HP. constructor; [by apply Hr|apply Hb].
Qed.

Lemma tri_across :
  tri ready (_move_across_filesystem fold sha256 dev env token original dest it)
    (fun r => finished (is_ok r = true)).
Proof using A.
  eapply triple_bind; [apply tri_cross_copy| |by intros e s [Hr _]; apply finished_no; [apply ready_safe|]].
  intros ?. eapply triple_conseq with (P' := fun s => exists j, both j s) (Q' := fun r => finished (is_ok r = true));
    [|intros s [[Hs _] Hc]; destruct (Hc eq_refl) as [j Hj]; by exists j|done].
  apply triple_exists. intros j.
  eapply triple_bind with (Qa := fun _ s => both j s);
    [|intros ?|by intros e s Hb; apply finished_no; [eapply both_safe|]].
  { destruct (sha256_hash it) as [h|]; [|by apply triple_ret].
    eapply triple_bind; [apply triple_local|intros ?|by intros].
    eapply triple_conseq; [apply tri_verify; [apply both_stable|apply both_safe]|done|by intros r s [? _]]. }
  eapply triple_bind; [apply tri_marker|intros ?|by intros e s [Hb _]; apply finished_no; [eapply both_safe|]].
  eapply triple_bind with (Qa := fun r s => safe s /\ (is_ok r = true -> both j s /\ (power -> at_rest dev s kP j)));
    [|intros ?|by intros e s [? _]; apply finished_no].
  { intros w [Hb Hr] Ht. simpl. split; [|done]. split; [by eapply both_safe|]. intros _. split; [done|by apply Hr]. }
  eapply triple_bind; [eapply triple_conseq; [apply (tri_drop_source j)|naive_solver|]|intros ?|]; [done| |].
  - eapply triple_conseq; [apply (tri_unlink_missing (done_ok j))|by intros s [_ Hd]; apply Hd|].
    + apply done_stable.
    + intros s. apply done_safe.
    + apply done_unlink_marker.
    + intros r s Hd. simpl in Hd. split; [by eapply done_safe|]. intros _. by eapply done_arrived.
  - intros e s [? _]. by apply finished_no.
Qed.

(** *** Telling the two paths apart *)

Lemma tri_stat p P :
  stable P -> (forall s, P s -> safe s) ->
  tri P (stat fold dev env p) (fun r s => P s /\ forall x, r = Ok x -> fs_stat fold dev p s = Ok x).
Proof. intros. by apply triple_look. Qed.

Lemma stat_source s x : source_ok s -> fs_stat fold dev original s = Ok x ->
  x.1.1 = kdev dev kO /\ x.1.2 = IdFile i0.
Proof. intros Hs. unfold fs_stat. rewrite (source_entry _ Hs). by intros [= <-]. Qed.

Lemma tri_same_filesystem :
  tri ready (same_filesystem fold dev env original (parent dest))
    (fun r s => ready s /\ forall b, r = Ok b -> b = bool_decide (kdev dev kO = kdev dev kP)).
Proof using A.
  eapply triple_bind; [apply tri_stat; [apply ready_stable|apply ready_safe]| |by intros e s [? _]].
  intros [[d1 i1] n1].
  eapply triple_conseq with (P' := fun s => ready s /\ d1 = kdev dev kO)
    (Q' := fun r s => ready s /\ forall b, r = Ok b -> b = bool_decide (kdev dev kO = kdev dev kP)).
  - eapply triple_pure_pre. intros ->.
    eapply triple_bind; [apply triple_look; [apply ready_stable|apply ready_safe]| |by intros e s [? _]].
    intros d2. apply triple_ret. intros s [Hr Hd]. split; [done|]. intros b [= <-].
    specialize (Hd d2 eq_refl). unfold fs_stat_dir in Hd. destruct (is_dir s (parent dest)); [|done].
    by injection Hd as <-.
  - intros s [Hr Hx]. split; [done|]. by apply (stat_source s (d1, i1, n1) (proj1 Hr) (Hx _ eq_refl)).
  - done.
Qed.

Definition twin_entry (s : fs) : Prop := entries s !! kP = Some i0 /\ kdev dev kP = kdev dev kO.

Lemma tri_is_same_file :
  tri ready (is_same_file fold dev env original dest)
    (fun r s => ready s /\ (r = Ok true -> twin_entry s)).
Proof using A.
  eapply triple_catch with (Qm := fun r s => ready s /\ (r = Ok true -> twin_entry s)); [|by intros b s H|].
  - eapply triple_bind; [apply tri_stat; [apply ready_stable|apply ready_safe]| |by intros e s [? _]].
    intros [[d1 i1] n1].
    eapply triple_conseq with (P' := fun s => ready s /\ d1 = kdev dev kO /\ i1 = IdFile i0)
      (Q' := fun r s => ready s /\ (r = Ok true -> twin_entry s)); [| |done].
    + eapply triple_pure_pre. intros [-> ->].
      eapply triple_bind; [apply tri_stat; [apply ready_stable|apply ready_safe]| |by intros e s [? _]].
      intros [[d2 i2] n2]. apply triple_ret. intros s [Hr Hx]. split; [done|]. intros [= [<- <-]%bool_decide_eq_true].
      specialize (Hx _ eq_refl). unfold fs_stat in Hx. unfold twin_entry.
      destruct (entries s !! kP) as [i|]; [|by destruct (is_dir s _)]. by injection Hx as -> -> _.
    + intros s [Hr Hx]. split; [done|]. by apply (stat_source s (d1, i1, n1) (proj1 Hr) (Hx _ eq_refl)).
  - intros []; (apply triple_ret || apply triple_raise); intros s [Hr _]; by split.
Qed.

(** *** An existing destination *)

Definition copy_there (s : fs) : Prop :=
  exists j, entries s !! kP = Some j /\ default "" (bodies s !! j) = c /\ (j < next_ino s)%nat.

Lemma copy_there_stable : stable copy_there.
Proof.
  intros s t a Ha (j & Hj & Hb & Hlt). exists j. split; [by eapply stable_entry|].
  destruct (arrive_cases fold dev s a) as [->|[_ ->]]; [done|]. simpl.
  rewrite lookup_insert_ne by lia. split; [done|lia].
Qed.

Lemma tri_committed_copy (Hh : forall h, sha256_hash it = Some h -> sha256 c = h) :
  tri source_ok (destination_is_committed_copy fold sha256 dev env original dest (sha256_hash it))
    (fun r s => source_ok s /\ (r = Ok true -> copy_there s)).
Proof using A.
  assert (Hthere : forall s i, source_ok s -> entries s !! kP = Some i ->
    sha256 (default "" (bodies s !! i)) = sha256 c -> copy_there s).
  { intros s i Hs Hi Hb%(as_hash A). exists i. split; [done|]. split; [done|]. by eapply (wf_inodes _ _ (src_wf _ Hs)). }
  eapply triple_bind; [apply tri_sha; [apply source_stable|apply source_safe]| |by intros e s [? _]].
  intros ph. destruct (sha256_hash it) as [h|].
  - apply triple_ret. intros s [Hs Hph]. split; [done|]. intros [= Heq%bool_decide_eq_true].
    destruct (Hph ph eq_refl) as (i & Hi & ->). eapply Hthere; [done..|]. by rewrite Heq, (Hh h).
  - eapply triple_bind with (Qa := fun r s => (source_ok s /\ (sha256 c = ph -> copy_there s)) /\
        forall h, r = Ok h -> h = sha256 c).
    + eapply triple_conseq; [apply (tri_sha (fun s => source_ok s /\ (sha256 c = ph -> copy_there s)) original)|..].
      * intros s t a Ha [Hs Hc]. split; [by eapply source_stable|]. intros Hx. eapply copy_there_stable; [exact Ha|by apply Hc].
      * intros s [Hs _]. by apply source_safe.
      * intros s [Hs Hph]. split; [done|]. destruct (Hph ph eq_refl) as (i & Hi & ->). intros Heq. by eapply Hthere.
      * intros r s [[Hs Hc] Hr]. split; [by split|]. intros h Hok. destruct (Hr h Hok) as (i & Hi & ->).
        by rewrite (source_reads s i Hs Hi).
    + intros h. apply triple_ret. intros s [[Hs Hc] Hx]. split; [done|].
      intros [= Heq%bool_decide_eq_true]. apply Hc. by rewrite (Hx h eq_refl) in Heq.
    + by intros e s [[? _] _].
Qed.

Lemma tri_reclaim (Hh : forall h, sha256_hash it = Some h -> sha256 c = h) b :
  b = bool_decide (kdev dev kO = kdev dev kP) ->
  tri ready (_reclaim_or_refuse_existing_destination fold sha256 dev env original dest it b)
    (fun r => finished (is_ok r = true)).
Proof using A.
  intros Hb.
  eapply triple_bind with (Qa := fun r s => source_ok s /\ (r = Ok true -> ~ power /\ kP <> kO));
    [|intros marked|by intros e s [? _]; apply finished_no; [apply source_safe|]].
  { destruct b; [by apply triple_ret; intros s [? _]|]. symmetry in Hb. apply bool_decide_eq_false in Hb.
    eapply triple_conseq; [apply tri_exists; [apply ready_stable|apply ready_safe]|done|].
    intros r s [[Hs Hu] (m & -> & Hm)]. split; [done|]. intros [= ->]. split; [|congruence].
    intros HP. specialize (Hu HP). by rewrite (Hm eq_refl) in Hu. }
  eapply triple_bind with (Qa := fun r s => source_ok s /\ (r = Ok true -> (~ power /\ kP <> kO) /\ copy_there s));
    [|intros reclaim|by intros e s [? _]; apply finished_no; [apply source_safe|]].
  { destruct marked; [|by apply triple_ret; intros s [? _]].
    eapply triple_conseq with (P' := fun s => source_ok s /\ (~ power /\ kP <> kO));
      [|by intros s [Hs Hx]; split; [done|apply Hx]|intros r s H; exact H].
    apply triple_pure_pre. intros Hx. eapply triple_conseq; [by apply tri_committed_copy|done|].
    intros r s [Hs Hc]. split; [done|]. intros Hok. split; [done|by apply Hc]. }
  destruct reclaim; [|apply triple_raise; intros s [? _]; apply finished_no; [by apply source_safe|done]].
  eapply triple_conseq with (P' := fun s => (source_ok s /\ copy_there s) /\ (~ power /\ kP <> kO))
    (Q' := fun r => finished (is_ok r = true)); [| |done].
  2: { intros s [Hs Hx]. destruct (Hx eq_refl) as [H1 H2]. done. }
  apply triple_pure_pre. intros [Hnp Hne].
  eapply triple_bind; [apply triple_local|intros ?|by intros e s H; apply finished_no; [apply source_safe, H|]].
  eapply triple_bind with (Qa := fun r s => safe s /\ (is_ok r = true -> exists j, done_ok j s));
    [|intros ?|by intros e s [? _]; apply finished_no].
  - apply triple_syscall.
    + apply stable_and; [apply source_stable|apply copy_there_stable].
    + intros s [? _]. by apply source_safe.
    + intros s [Hs (j & Hj & Hc & Hlt)]. unfold fs_unlink. rewrite (source_entry _ Hs).
      assert (Hd : done_ok j (log fold dev original [(kO, None)] s)) by (apply unlink_source; done).
      split; [|by eapply done_safe]. split; [by eapply done_safe|]. intros _. by exists j.
    + intros s n t e _ [Hs _]. split; [|by apply source_safe]. split; [by apply source_safe|done].
  - eapply triple_conseq with (P' := fun s => exists j, done_ok j s) (Q' := fun r => finished (is_ok r = true));
      [|by intros s [_ Hx]; apply Hx|done].
    apply triple_exists. intros j. eapply triple_conseq; [apply (tri_unlink_missing (done_ok j))|done|].
    + apply done_stable.
    + intros s. apply done_safe.
    + apply done_unlink_marker.
    + intros r s Hd. simpl in Hd. split; [by eapply done_safe|]. intros _. by eapply done_arrived.
Qed.

(** *** Within a file system *)

Lemma keys_apart : original <> dest -> is_case_only_same_entry casefold original dest = false -> kP <> kO.
Proof using A.
  intros Hne Hcase [= Hpar Hname]. unfold is_case_only_same_entry in Hcase.
  assert (Hn : name original <> name dest).
  { intros Hn. apply Hne. destruct original, dest. simpl in *. congruence. }
  rewrite (bool_decide_eq_true_2 _ (eq_sym Hpar)), (bool_decide_eq_false_2 _ Hn) in Hcase.
  destruct (as_fold A _ _ (eq_sym Hname)) as [?|Hf]; [done|]. by rewrite (bool_decide_eq_true_2 _ Hf) in Hcase.
Qed.

Lemma two_links s : kP <> kO -> entries s !! kP = Some i0 -> entries s !! kO = Some i0 ->
  (1 < size (filter (fun kv : entry * nat => kv.2 = i0) (entries s)))%nat.
Proof.
  intros Hne HP HO.
  assert (Hsub : <[kP := i0]> {[kO := i0]} ⊆ filter (fun kv : entry * nat => kv.2 = i0) (entries s)).
  { apply map_subseteq_spec. intros k i Hi. apply map_lookup_filter_Some.
    apply lookup_insert_Some in Hi as [[<- <-]|[_ [<- <-]%lookup_singleton_Some]]; done. }
  apply map_subseteq_size in Hsub. rewrite map_size_insert_None, map_size_singleton in Hsub; [lia|].
  by rewrite lookup_singleton_ne.
Qed.

Definition linked (s : fs) : Prop := source_ok s /\ twin_entry s.

Lemma linked_stable : stable linked.
Proof using A.
  apply stable_and; [apply source_stable|]. intros s t a Ha [He Hd]. split; [by eapply stable_entry|done].
Qed.

Lemma linked_safe s : linked s -> safe s.
Proof. intros [? _]. by apply source_safe. Qed.

(** Two links of the source on one device: removing the first keeps the second,
    on disk too. *)
Lemma linked_unlink_safe s : kP <> kO -> linked s ->
  finished True (log fold dev original [(kO, None)] s).
Proof.
  intros Hne [Hs [HP Hdev]]. pose proof (source_entry _ Hs) as HO. pose proof (source_body _ Hs) as Hb.
  assert (Hp : entries (log fold dev original [(kO, None)] s) !! kP = Some i0).
  { simpl. unfold apply_change. simpl. by rewrite lookup_delete_ne. }
  assert (Hh : holds (log fold dev original [(kO, None)] s) kP c) by (exists i0; simpl; by rewrite Hb).
  destruct Hs as [Hwf [Hr [_ _ Hsy _]] _ Hu]. split; [split; [split; [by right|]|by apply undisturbed_unlink; [left|]]|].
  - intros _ n. destruct (linked_unlink fold dev s original kP i0 Hwf Hr Hdev Hne HP n) as [H|H].
    + left. by exists i0.
    + right. by exists i0.
  - intros _. split; [done|]. left. simpl. unfold apply_change. simpl. by rewrite lookup_delete_eq.
Qed.

Lemma tri_unlink_twin : kP <> kO ->
  tri linked (unlink fold dev env original) (fun r => finished (is_ok r = true)).
Proof using A.
  intros Hne. apply triple_syscall; [apply linked_stable|apply linked_safe|..].
  - intros s Hl. unfold fs_unlink. rewrite (source_entry _ (proj1 Hl)).
    destruct (linked_unlink_safe s Hne Hl) as [Hs Ha]. split; [|done]. by split; [|intros _; apply Ha].
  - intros s n t e _ Hl. pose proof (linked_safe _ Hl). by split; [apply finished_no|].
Qed.

Lemma replace_safe s s' u :
  original = dest \/ is_case_only_same_entry casefold original dest = true ->
  linked s -> fs_replace fold dev original dest s = Ok (s', u) -> safe s' /\ arrived s'.
Proof using A.
  intros Hcase [Hs [HP Hdev]]. pose proof (source_entry _ Hs) as HO. pose proof (source_body _ Hs) as Hb.
  unfold fs_replace. rewrite HO.
  destruct (is_dir s (path_parts dest)); [done|]. destruct (negb (is_dir s (parent dest))); [done|].
  destruct (negb (bool_decide (kdev dev kO = _))); [done|]. rewrite (bool_decide_eq_true_2 _ HP).
  case_bool_decide as Heq; simpl; intros [= <- <-].
  - assert (Hpe : entries (log fold dev dest [(kO, None); (kP, Some i0)] s) !! kP = Some i0).
    { simpl. unfold apply_change. simpl. by rewrite lookup_insert_eq. }
    assert (Hh : holds (log fold dev dest [(kO, None); (kP, Some i0)] s) kP c) by (exists i0; simpl; by rewrite Hb).
    split; [split; [split; [by right|]|]|by split; [|right]].
    2: { apply undisturbed_log; [..|apply Hs].
         - intros ch [-> | ->%list_elem_of_singleton]%elem_of_cons; simpl; left; left; congruence.
         - intros v [?|Hv%list_elem_of_singleton]%elem_of_cons; [done|]. destruct (as_marker A) as [_ HMP].
           destruct HMP. exact (f_equal fst Hv). }
    intros _ n. right. exists i0. destruct Hs as [Hwf [Hr [_ _ Hsy _]] _ _].
    assert (Hds : forall ch, ch ∈ [(kO, None); (kP, Some i0)] -> kdev dev ch.1 = kdev dev kP).
    { intros ch [-> | ->%list_elem_of_singleton]%elem_of_cons; [by simpl; rewrite Hdev|done]. }
    destruct (disk_log fold dev n s dest _ Hwf Hds) as [_ [Hd|Hd]]; rewrite (Hd kP eq_refl).
    + done.
    + rewrite <- Heq. by split; [apply Hr|].
  - split; [by apply source_safe|]. split; [|by right]. exists i0. by rewrite Hb.
Qed.

Lemma tri_same_fs_entry :
  tri linked (_move_same_fs_entry fold casefold dev env original dest) (fun r => finished (is_ok r = true)).
Proof using A.
  set (other := original <> dest /\ is_case_only_same_entry casefold original dest = false).
  eapply triple_bind with (Qa := fun r s => linked s /\
     forall b, r = Ok b -> (b = true -> other) /\ (b = false -> ~ other));
    [|intros residue|by intros e s [? _]; apply finished_no; [apply linked_safe|]].
  - destruct (negb (bool_decide (original = dest)) && negb _) eqn:Hg.
    + apply andb_true_iff in Hg as [Hg1%negb_true_iff%bool_decide_eq_false Hg2%negb_true_iff].
      assert (Hother : other) by done.
      eapply triple_bind; [apply tri_stat; [apply linked_stable|apply linked_safe]| |by intros e s [? _]].
      intros [[d i] n]. apply triple_ret. intros s [Hl Hx]. split; [done|]. intros b [= <-].
      specialize (Hx _ eq_refl). unfold fs_stat in Hx. rewrite (source_entry _ (proj1 Hl)) in Hx.
      injection Hx as _ _ <-. rewrite bool_decide_eq_true_2; [done|].
      apply two_links; [by apply keys_apart|apply Hl|apply source_entry, Hl].
    + apply triple_ret. intros s Hl. split; [done|]. intros b [= <-]. split; [done|]. intros _ [H1 H2].
      rewrite (bool_decide_eq_false_2 _ H1), H2 in Hg. done.
  - eapply triple_conseq with (P' := fun s => linked s /\ ((residue = true -> other) /\ (residue = false -> ~ other)))
      (Q' := fun r => finished (is_ok r = true)); [|by intros s [Hl Hx]; split; [|apply Hx]|done].
    apply triple_pure_pre. intros [Ht Hf]. destruct residue.
    + destruct (Ht eq_refl). eapply triple_bind; [apply triple_local|intros ?; by apply tri_unlink_twin, keys_apart|].
      by intros e s Hl; apply finished_no; [apply linked_safe|].
    + assert (Hcase : original = dest \/ is_case_only_same_entry casefold original dest = true).
      { destruct (decide (original = dest)); [by left|right]. destruct (is_case_only_same_entry _ _ _) eqn:?; [done|].
        by destruct (Hf eq_refl). }
      apply triple_syscall; [apply linked_stable|apply linked_safe|..].
      * intros s Hl. destruct (fs_replace fold dev original dest s) as [[s' u]|x] eqn:Hr.
        -- destruct (replace_safe s s' u Hcase Hl Hr). by split.
        -- apply finished_no; [by apply linked_safe|done].
      * intros s n t e _ Hl. pose proof (linked_safe _ Hl). by split; [apply finished_no|].
Qed.

Lemma tri_same_fs_move :
  tri ready (atomic_same_fs_move fold dev env original dest) (fun r => finished (is_ok r = true)).
Proof using A.
  destruct (as_marker A) as [HMO HMP].
  eapply triple_bind with (Qa := fun r s => safe s /\ (is_ok r = true -> linked s /\ kP <> kO));
    [|intros ?|by intros e s [? _]; apply finished_no].
  2: { eapply triple_conseq with (P' := fun s => linked s /\ kP <> kO) (Q' := fun r => finished (is_ok r = true));
         [|by intros s [_ Hx]; apply Hx|done].
       apply triple_pure_pre. intros Hne. by apply tri_unlink_twin. }
  eapply triple_bind with (Qa := fun r s => safe s /\ (is_ok r = true -> linked s /\ kP <> kO));
    [|intros ?; by apply triple_ret|by intros e s [? _]].
  apply triple_syscall; [apply ready_stable|apply ready_safe|..].
  - intros s Hr. pose proof (ready_safe _ Hr) as Hsafe. destruct Hr as [Hs _].
    unfold fs_link. rewrite (source_entry _ Hs). destruct (occupied fold s dest) eqn:Hocc; [by split|].
    destruct (negb _); [by split|]. destruct (negb (bool_decide _)) eqn:Hdev; [by split|].
    apply negb_false_iff, bool_decide_eq_true in Hdev. apply occupied_false in Hocc.
    assert (Hne : kP <> kO) by (intros Heq; rewrite Heq, (source_entry _ Hs) in Hocc; done).
    assert (Hl : linked (log fold dev dest [(kP, Some i0)] s)).
    { split.
      - apply source_log; [by intros ch ->%list_elem_of_singleton|by intros ch ->%list_elem_of_singleton| | |done].
        + intros k i [= -> ->]%list_elem_of_singleton. by apply source_lt.
        + intros ch ->%list_elem_of_singleton. by right.
      - split; [|done]. simpl. unfold apply_change. simpl. by rewrite lookup_insert_eq. }
    pose proof (linked_safe _ Hl). done.
  - intros s n t e _ Hr. pose proof (ready_safe _ Hr). done.
Qed.

(** *** The whole move *)

Lemma prefixes_length acc d x : x ∈ prefixes acc d -> (length x <= length acc + length d)%nat.
Proof.
  revert acc. induction d as [|a d IH]; intros acc; simpl; [by intros ?%elem_of_nil|].
  intros [->|Hx%IH]%elem_of_cons; [|revert Hx]; rewrite length_app; simpl; lia.
Qed.

Lemma ready_mkdir s ds : (forall d, d ∈ ds -> d ∈ prefixes [] (parent dest)) -> ready s -> ready (fs_mkdir ds s).
Proof.
  intros Hds [Hs Hu]. split; [by apply source_mkdir|]. intros HP. specialize (Hu HP).
  unfold occupied in *. apply orb_false_iff in Hu as [Hu Hd]. apply orb_false_iff. split; [done|].
  unfold is_dir in *. apply bool_decide_eq_false in Hd. apply bool_decide_eq_false. simpl.
  intros [Hin%elem_of_list_to_set%Hds%prefixes_length|?]%elem_of_union; [|done].
  unfold path_parts in Hin. rewrite length_app in Hin. simpl in Hin. lia.
Qed.

Lemma tri_mkdir : tri ready (mkdir_parents fold dev env (parent dest)) (fun _ s => ready s).
Proof using A.
  apply triple_syscall; [apply ready_stable|apply ready_safe|..].
  - intros s Hr. destruct (existsb _ _); [done|]. assert (ready (fs_mkdir (prefixes [] (parent dest)) s)) by (by apply ready_mkdir).
    split; [done|by apply ready_safe].
  - intros s n t e _ Hr. assert (ready (fs_mkdir (take n (prefixes [] (parent dest))) s)).
    { apply ready_mkdir; [|done]. intros d Hd. by eapply elem_of_take in Hd as (? & ?%list_elem_of_lookup_2 & _). }
    split; [done|by apply ready_safe].
Qed.

Lemma tri_apply (Hh : forall h, sha256_hash it = Some h -> sha256 c = h) :
  tri ready (_apply_file_move fold casefold sha256 dev env token original dest it)
    (fun r => finished (is_ok r = true)).
Proof using A.
  assert (Hready : forall e s, ready s -> finished (is_ok (@Raise exn unit e) = true) s).
  { intros e s Hr. apply finished_no; [by apply ready_safe|done]. }
  eapply triple_bind; [apply triple_local|intros ?|done].
  eapply triple_bind; [apply tri_mkdir|intros ?|by intros e s Hr; apply Hready].
  eapply triple_bind; [apply tri_same_filesystem|intros b|by intros e s [Hr _]; apply Hready].
  eapply triple_conseq with (P' := fun s => ready s /\ b = bool_decide (kdev dev kO = kdev dev kP))
    (Q' := fun r => finished (is_ok r = true)); [|by intros s [Hr Hb]; split; [|apply Hb]|done].
  apply triple_pure_pre. intros Hb.
  eapply triple_bind; [apply tri_exists; [apply ready_stable|apply ready_safe]|intros there|by intros e s [Hr _]; apply Hready].
  eapply triple_bind with (Qa := fun _ s => ready s); [|intros foreign|by intros e s Hr; apply Hready].
  { destruct there; [|by apply triple_ret; intros s [? _]].
    eapply triple_bind with (Qa := fun _ s => ready s); [|intros ?; by apply triple_ret|done].
    eapply triple_conseq; [apply tri_is_same_file|by intros s [? _]|by intros r s [? _]]. }
  destruct foreign; [by apply tri_reclaim|]. destruct b; [|apply tri_across].
  eapply triple_bind; [apply tri_is_same_file|intros same|by intros e s [Hr _]; apply Hready].
  destruct same.
  - eapply triple_conseq; [apply tri_same_fs_entry|by intros s [[Hs _] Ht]; split; [|apply Ht]|done].
  - eapply triple_conseq; [apply tri_same_fs_move|by intros s [? _]|done].
Qed.

(** What a run ends in: a safe state, and on a move committed now the arrival. *)
Definition moved (r : outcome exn FilesystemMoveResult) (s : fs) : Prop :=
  safe s /\ forall res, r = Ok res -> proposed res = dest /\ (committed_now res = true -> arrived s).

Lemma tri_replay moved_flag :
  tri ready (_check_replay_corroborated fold dev env original dest it moved_flag) (fun _ s => ready s).
Proof using A.
  assert (Hex : forall p, tri ready (exists_ fold dev env p) (fun _ s => ready s)).
  { intros p. eapply triple_conseq; [apply tri_exists; [apply ready_stable|apply ready_safe]|done|by intros r s [? _]]. }
  eapply triple_bind; [apply Hex|intros e1|done]. destruct e1; [by apply triple_ret|].
  eapply triple_bind; [apply Hex|intros e2|done]. destruct e2; [|by apply triple_ret].
  destruct moved_flag; [by apply triple_ret|apply Hex].
Qed.

Lemma tri_move request : item request = it ->
  tri ready (move_resolved fold casefold sha256 dev env token original dest request) moved.
Proof using A.
  intros Hit. destruct (as_marker A) as [HMO HMP]. unfold move_resolved. rewrite Hit.
  assert (Hready : forall e s, ready s -> moved (Raise e) s) by (intros e s Hr; split; [by apply ready_safe|done]).
  assert (Hver : forall p h l x, tri ready (run! set_local StepVerify; verify_hash_or_raise fold sha256 dev env p h l x)
     (fun r s => ready s /\ (is_ok r = true ->
       exists i, entries s !! key fold p = Some i /\ sha256 (default "" (bodies s !! i)) = h))).
  { intros. eapply triple_bind; [apply triple_local|intros ?; apply tri_verify; [apply ready_stable|apply ready_safe]|done]. }
  eapply triple_bind; [apply tri_replay|intros already|by intros e s Hr; apply Hready]. destruct already.
  - eapply triple_bind with (Qa := fun _ s => ready s); [|intros ?|by intros e s Hr; apply Hready].
    { destruct (sha256_hash it) as [h|]; [|by apply triple_ret]. eapply triple_conseq; [apply Hver|done|by intros r s [? _]]. }
    eapply triple_bind with (Qa := fun _ s => ready s); [|intros ?|by intros e s Hr; apply Hready].
    + apply tri_unlink_missing; [apply ready_stable|apply ready_safe|]. intros s. apply ready_unlink; [by right|done].
    + apply triple_ret. intros s Hr. split; [by apply ready_safe|]. by intros res [= <-].
  - eapply triple_bind with (Qa := fun r s => ready s /\ (is_ok r = true -> forall h, sha256_hash it = Some h -> sha256 c = h));
      [|intros ?|by intros e s [Hr _]; apply Hready].
    { destruct (sha256_hash it) as [h|]; [|by apply triple_ret]. eapply triple_conseq; [apply Hver|done|].
      intros r s [Hr Hx]. split; [done|]. intros Hok. destruct (Hx Hok) as (i & Hi & Hs). intros ? [= <-].
      by rewrite (source_reads s i (proj1 Hr) Hi) in Hs. }
    eapply triple_conseq with (P' := fun s => ready s /\ forall h, sha256_hash it = Some h -> sha256 c = h)
      (Q' := moved); [|by intros s [Hr Hx]; split; [|apply Hx]|done].
    apply triple_pure_pre. intros Hh.
    eapply triple_bind; [by apply tri_apply|intros ?|by intros e s [Hs _]; split].
    apply triple_ret. intros s [Hs Ha]. split; [done|]. intros res [= <-]. split; [done|]. intros _. by apply Ha.
Qed.

End safety.

(** ** The engine's [move] *)

Section run.
Context (fold casefold sha256 : string -> string) (dev : dir -> nat) (env : nat -> env_step) (token : string).
Context (resolver : fs -> pure -> list string -> outcome string (dir * dir)).
Context (original dest : path) (request : FilesystemMoveRequest) (i0 : nat) (c : string) (power : Prop).

(** Whenever the resolver accepts the source or the destination of the request
    during the run, it answers the same path. *)
Record resolves : Prop := {
  rs_source : forall s p r,
    resolver s (mk_path (source_path (item request))) (scan_roots request) = Ok (p, r) -> path_of_dir p = original;
  rs_dest : forall s p r root,
    resolver s (destination_candidate (item request) original root) (scan_roots request) = Ok (p, r) ->
    path_of_dir p = dest;
}.

Abbreviation it := (item request).
Abbreviation given := (assumptions fold casefold sha256 env token original dest it c power).
Abbreviation start := (ready fold dev token original dest it i0 c power).
Abbreviation run := (move fold casefold sha256 dev env token resolver request).

Lemma tri_whole :
  given -> resolves ->
  triple (St := FailedAtStep) (safe fold dev token original dest it c power) start run
    (moved fold casefold dev token original dest it i0 c power).
Proof.
  intros A [Hsrc Hdst].
  assert (Hst := ready_stable fold casefold sha256 dev env token original dest it i0 c power A).
  assert (Hsf := ready_safe fold dev token original dest it i0 c power).
  assert (Hready : forall e s, start s -> moved fold casefold dev token original dest it i0 c power (Raise e) s).
  { intros e s Hr. split; [by apply Hsf|done]. }
  eapply triple_bind; [by apply triple_look|intros [p root]|by intros e s [Hr _]; apply Hready].
  eapply triple_conseq with (P' := fun s => start s /\ p = original)
    (Q' := moved fold casefold dev token original dest it i0 c power); [| |done].
  2: { intros s [Hr Hp]. split; [done|]. specialize (Hp _ eq_refl).
       destruct (resolver _ _ _) as [[d r]|] eqn:Hres; [|done]. apply Hsrc in Hres. congruence. }
  apply triple_pure_pre. intros ->.
  eapply triple_bind with (Qa := fun r s => start s /\ forall q, r = Ok q -> q = dest);
    [|intros q|by intros e s [Hr _]; apply Hready].
  - eapply triple_bind; [by apply triple_look|intros [q r']|by intros e s [Hr _]].
    apply triple_ret. intros s [Hr Hq]. split; [done|]. intros ? [= <-]. specialize (Hq _ eq_refl).
    destruct (resolver _ _ _) as [[d r]|] eqn:Hres; [|done]. apply Hdst in Hres. congruence.
  - eapply triple_conseq with (P' := fun s => start s /\ q = dest)
      (Q' := moved fold casefold dev token original dest it i0 c power); [|by intros s [Hr Hq]; split; [|apply Hq]|done].
    apply triple_pure_pre. intros ->. by apply tri_move.
Qed.

(** C1: the source is never lost.  Whatever fails and whatever arrives between
    the calls of a move, in every state a crash could expose the source's bytes
    are at the source or at the destination; and when directories can be
    fsynced and no marker was left behind ([power]), also after a power loss that
    keeps an arbitrary part of each device's journal
    ([MoveReplay.marked_replay_can_lose_file] is a case left out).  Nobody else
    creates the engine's own marker and temporary, and the resolver answers the
    same paths throughout. *)
Theorem move_never_loses_source w :
  given -> resolves -> start (fsys w) -> trace w = [] ->
  forall s, s ∈ trace (run w).1 ->
    (holds s (key fold original) c \/ holds s (key fold dest) c) /\
    (power -> forall n, survives dev n s (key fold original) c \/ survives dev n s (key fold dest) c).
Proof.
  intros A Hres Hr Ht s Hs. pose proof (tri_whole A Hres w Hr) as H. rewrite Ht in H.
  specialize (H (List.Forall_nil _)). destruct (run w) as [w' r]. destruct H as [_ H].
  rewrite Forall_forall in H. by destruct (H s Hs) as [? _].
Qed.

(** C2: nobody else's file is touched.  In every such state every other file,
    also one that another process created during the move at any path but the
    engine's own temporary and marker, is at its path with its bytes: the
    destination is never overwritten. *)
Theorem move_disturbs_nobody w :
  given -> resolves -> start (fsys w) -> trace w = [] ->
  forall s, s ∈ trace (run w).1 -> forall k i b,
    others s !! k = Some (i, b) ->
    k <> key fold original -> k <> key fold (unique_tmp_path token dest) ->
    k <> key fold (committed_copy_marker_path dest (proposal_id it)) ->
    entries s !! k = Some i /\ bodies s !! i = Some b.
Proof.
  intros A Hres Hr Ht s Hs k i b Hk H1 H2 H3. pose proof (tri_whole A Hres w Hr) as H. rewrite Ht in H.
  specialize (H (List.Forall_nil _)). destruct (run w) as [w' r]. destruct H as [_ H].
  rewrite Forall_forall in H. destruct (H s Hs) as [_ Hu]. by destruct (Hu k i b Hk H1 H2 H3) as (? & ? & _).
Qed.

(** A reported move has happened.  When a run that started with the source
    in place succeeds with [committed_now], the destination it names holds the
    source's bytes, and the source's entry is gone unless it differs from the
    destination in case only. *)
Theorem committed_move_arrived w res :
  given -> resolves -> start (fsys w) -> trace w = [] -> (run w).2 = Ok res -> committed_now res = true ->
  proposed res = dest /\ holds (fsys (run w).1) (key fold dest) c /\
  (entries (fsys (run w).1) !! key fold original <> Some i0 \/ original = dest \/
   is_case_only_same_entry casefold original dest = true).
Proof.
  intros A Hres Hr Ht Hok Hc. pose proof (tri_whole A Hres w Hr) as H. rewrite Ht in H.
  specialize (H (List.Forall_nil _)). destruct (run w) as [w' r]. simpl in *. subst r.
  destruct H as [[_ H] _]. destruct (H res eq_refl) as [? Ha]. split; [done|]. by apply Ha.
Qed.

End run.

(** ** A run across two devices, with an arrival in the middle *)

Definition demo_dev (d : dir) : nat := match d with "b" :: _ => 1 | _ => 0 end.

Definition demo_env (t : nat) : env_step :=
  if bool_decide (t = 5) then Env [(Path ["b"] "new", "theirs")] None 0 else quiet.

Definition demo_resolver (s : fs) (p : pure) (roots : list string) : outcome string (dir * dir) := Ok (parts p, ["a"]).

Definition demo_request : FilesystemMoveRequest :=
  MoveRequest {| proposal_id := "p1"; source_path := "/a/x"; proposed_path := "/b"; proposed_filename := "y";
                 sha256_hash := Some "song" |} ["/a"; "/b"] false.

Definition demo_entries : gmap entry nat := {[ (["a"], "x") := 0; (["b"], "keep") := 1 ]}.

Definition demo_fs : fs :=
  Fs demo_entries {[ []; ["a"]; ["b"] ]} {[ 0 := "song"; 1 := "other" ]} 2 {[ 0; 1 ]} demo_entries []
    {[ (["b"], "keep") := (1, "other") ]}.

Definition demo_world : world FailedAtStep := World demo_fs StepCopy 0 [].

Lemma demo_given :
  assumptions id id id demo_env "t" (Path ["a"] "x") (Path ["b"] "y") (item demo_request) "song" True.
Proof.
  constructor; try done.
  - by left.
  - unfold demo_env. intros t a Ha. destruct (bool_decide (t = 5)); [|by apply elem_of_nil in Ha].
    by apply list_elem_of_singleton in Ha as ->.
  - unfold demo_env. intros _ t e. by destruct (bool_decide (t = 5)).
Qed.

Lemma demo_resolves : resolves demo_resolver (Path ["a"] "x") (Path ["b"] "y") demo_request.
Proof. constructor; [by intros s p r [= <- _]|by intros s p r root [= <- _]]. Qed.

Lemma demo_start :
  ready id demo_dev "t" (Path ["a"] "x") (Path ["b"] "y") (item demo_request) 0 "song" True demo_fs.
Proof.
  split; [|by intros _].
  constructor; [constructor|constructor|done|].
  - by intros r c ?%elem_of_nil.
  - done.
  - intros k i. simpl. unfold demo_entries.
    intros [[_ <-]|[_ [_ <-]%lookup_singleton_Some]]%lookup_insert_Some; lia.
  - intros n. unfold disk. change (on_device _ _) with (@nil record). by rewrite take_nil.
  - by constructor; [| |simpl; set_solver|simpl; lia].
  - intros k i b Hk _ _ _. simpl in Hk. apply lookup_singleton_Some in Hk as [<- [= <- <-]].
    split; [by vm_compute|]. split; [by vm_compute|]. split; [simpl; lia|by vm_compute].
Qed.

Lemma move_never_loses_source_witness :
  length (trace (move id id id demo_dev demo_env "t" demo_resolver demo_request demo_world).1) = 46 /\
  Forall (fun s => holds s (["a"], "x") "song" \/ holds s (["b"], "y") "song")
    (trace (move id id id demo_dev demo_env "t" demo_resolver demo_request demo_world).1).
Proof.
  split; [by vm_compute|]. apply Forall_forall. intros s Hs.
  exact (proj1 (move_never_loses_source id id id demo_dev demo_env "t" demo_resolver (Path ["a"] "x") (Path ["b"] "y")
    demo_request 0 "song" True demo_world demo_given demo_resolves demo_start eq_refl s Hs)).
Defined.

Lemma move_disturbs_nobody_witness :
  others (fsys (move id id id demo_dev demo_env "t" demo_resolver demo_request demo_world).1) !! (["b"], "new") =
    Some (2, "theirs") /\
  Forall (fun s => others s !! (["b"], "new") = Some (2, "theirs") -> entries s !! (["b"], "new") = Some 2)
    (trace (move id id id demo_dev demo_env "t" demo_resolver demo_request demo_world).1).
Proof.
  split; [by vm_compute|]. apply Forall_forall. intros s Hs Ho.
  exact (proj1 (move_disturbs_nobody id id id demo_dev demo_env "t" demo_resolver (Path ["a"] "x") (Path ["b"] "y")
    demo_request 0 "song" True demo_world demo_given demo_resolves demo_start eq_refl s Hs _ _ _ Ho
    ltac:(done) ltac:(done) ltac:(done))).
Defined.

Lemma committed_move_arrived_witness :
  holds (fsys (move id id id demo_dev demo_env "t" demo_resolver demo_request demo_world).1) (["b"], "y") "song".
Proof.
  refine (proj1 (proj2 (committed_move_arrived id id id demo_dev demo_env "t" demo_resolver (Path ["a"] "x")
    (Path ["b"] "y") demo_request 0 "song" True demo_world (MoveResult (Path ["b"] "y") true)
    demo_given demo_resolves demo_start eq_refl _ eq_refl))).
  by vm_compute.
Defined.
