(* ===== verification/MoveReplay.v ===== *)
(** * What the move engine does when nothing fails

    Runs of MoveFs in the quiet environment: completion, replay of a finished
    move, refusal of a foreign destination, and two gaps of the replay. *)
From Stdlib Require Import Ascii.
From S2P Require Import Prelude Containment FsModel MoveFs MoveSafety.
From stdpp Require Import options.

Definition runs {St A} (m : M St A) (s s' : fs) (r : outcome exn A) : Prop :=
  forall w, fsys w = s -> fsys (m w).1 = s' /\ (m w).2 = r.

Definition quiet_env (t : nat) : env_step := quiet.

(** ** Stepping *)

Lemma runs_ret {St A} (a : A) s : runs (St := St) (mret a) s s (Ok a).
Proof. by intros w. Qed.

Lemma runs_raise {St A} e s : runs (St := St) (A := A) (mraise e) s s (Raise e).
Proof. by intros w. Qed.

Lemma runs_local {St} (v : St) s : runs (set_local v) s s (Ok ()).
Proof. by intros w. Qed.

Lemma runs_bind {St A B} (m : M St A) (k : A -> M St B) s s1 s2 a r :
  runs m s s1 (Ok a) -> runs (k a) s1 s2 r -> runs (bind m k) s s2 r.
Proof.
  intros Hm Hk w Hw. destruct (Hm w Hw) as [H1 H2]. unfold bind. destruct (m w) as [w' r']. simpl in *. subst r'.
  by apply Hk.
Qed.

Lemma runs_bind_raise {St A B} (m : M St A) (k : A -> M St B) s s1 e :
  runs m s s1 (Raise e) -> runs (bind m k) s s1 (Raise e).
Proof.
  intros Hm w Hw. destruct (Hm w Hw) as [H1 H2]. unfold bind. destruct (m w) as [w' r']. simpl in *. by subst r'.
Qed.

Lemma runs_catch {St A} (m : M St A) h s s1 a : runs m s s1 (Ok a) -> runs (catch m h) s s1 (Ok a).
Proof.
  intros Hm w Hw. destruct (Hm w Hw) as [H1 H2]. unfold catch. destruct (m w) as [w' r']. simpl in *. by subst r'.
Qed.

Lemma runs_catch_raise {St A} (m : M St A) h s s1 s2 e r :
  runs m s s1 (Raise e) -> runs (h e) s1 s2 r -> runs (catch m h) s s2 r.
Proof.
  intros Hm Hh w Hw. destruct (Hm w Hw) as [H1 H2]. unfold catch. destruct (m w) as [w' r']. simpl in *. subst r'.
  by apply Hh.
Qed.

Lemma runs_finally {St A} (m : M St A) f s s1 s2 r :
  runs m s s1 r -> runs f s1 s2 (Ok ()) -> runs (finally m f) s s2 r.
Proof.
  intros Hm Hf w Hw. destruct (Hm w Hw) as [H1 H2]. unfold finally. destruct (m w) as [w' r']. simpl in *.
  destruct (Hf w' H1) as [H3 H4]. destruct (f w') as [w'' u]. simpl in *. by subst.
Qed.

Section quiet.
Context (fold casefold sha256 : string -> string) (dev : dir -> nat) (token : string).
Abbreviation key := (key fold).
Abbreviation kdev := (kdev dev).

Lemma runs_syscall {St A} spoil (f : fs -> outcome exn (fs * A)) s s' a :
  f s = Ok (s', a) -> runs (St := St) (syscall fold dev quiet_env spoil f) s s' (Ok a).
Proof. intros Hf w <-. unfold syscall, quiet_env. simpl. by rewrite Hf. Qed.

Lemma runs_syscall_raise {St A} spoil (f : fs -> outcome exn (fs * A)) s e :
  f s = Raise e -> runs (St := St) (syscall fold dev quiet_env spoil f) s s (Raise e).
Proof. intros Hf w <-. unfold syscall, quiet_env. simpl. by rewrite Hf. Qed.

Lemma runs_query {St A} (f : fs -> outcome exn A) s a :
  f s = Ok a -> runs (St := St) (query fold dev quiet_env f) s s (Ok a).
Proof. intros Hf. apply runs_syscall. by rewrite Hf. Qed.

Lemma runs_query_raise {St A} (f : fs -> outcome exn A) s e :
  f s = Raise e -> runs (St := St) (query fold dev quiet_env f) s s (Raise e).
Proof. intros Hf. apply runs_syscall_raise. by rewrite Hf. Qed.

Lemma lookup_log p k v s k' :
  entries (log fold dev p [(k, v)] s) !! k' = if decide (k = k') then v else entries s !! k'.
Proof.
  simpl. unfold apply_change. simpl. case_decide as Hk.
  - subst. destruct v; [apply lookup_insert_eq|apply lookup_delete_eq].
  - destruct v; [by rewrite lookup_insert_ne|by rewrite lookup_delete_ne].
Qed.

(** ** The primitives, when they succeed *)

Lemma runs_exists p s : runs (exists_ fold dev quiet_env p) s s (Ok (occupied fold s p)).
Proof. by apply runs_catch, runs_query. Qed.

Lemma runs_read p s i : entries s !! key p = Some i ->
  runs (read_file fold dev quiet_env p) s s (Ok (default "" (bodies s !! i))).
Proof. intros Hi. apply runs_query. unfold fs_read. by rewrite Hi. Qed.

Lemma runs_sha p s i : entries s !! key p = Some i ->
  runs (sha256_of_file fold sha256 dev quiet_env p) s s (Ok (sha256 (default "" (bodies s !! i)))).
Proof. intros Hi. eapply runs_bind; [by apply runs_read|apply runs_ret]. Qed.

Lemma runs_verify p h l x s i : entries s !! key p = Some i -> sha256 (default "" (bodies s !! i)) = h ->
  runs (verify_hash_or_raise fold sha256 dev quiet_env p h l x) s s (Ok ()).
Proof.
  intros Hi Hh. eapply runs_bind; [by apply runs_sha|]. rewrite bool_decide_eq_true_2 by done. apply runs_ret.
Qed.

Lemma runs_stat p s i : entries s !! key p = Some i ->
  runs (stat fold dev quiet_env p) s s
    (Ok (kdev (key p), IdFile i, size (filter (fun kv : entry * nat => kv.2 = i) (entries s)))).
Proof. intros Hi. apply runs_query. unfold fs_stat. by rewrite Hi. Qed.

Lemma runs_same_file a b s i j : entries s !! key a = Some i -> entries s !! key b = Some j ->
  runs (is_same_file fold dev quiet_env a b) s s (Ok (bool_decide (IdFile i = IdFile j /\ kdev (key a) = kdev (key b)))).
Proof.
  intros Hi Hj. apply runs_catch. eapply runs_bind; [by apply runs_stat|]. eapply runs_bind; [by apply runs_stat|].
  apply runs_ret.
Qed.

(** The destination is not there: two paths cannot be one file. *)
Lemma runs_same_file_absent a b s i : entries s !! key a = Some i -> occupied fold s b = false ->
  runs (is_same_file fold dev quiet_env a b) s s (Ok false).
Proof.
  intros Hi Hb. eapply runs_catch_raise with (e := OSError ENOENT); [|apply runs_ret]. eapply runs_bind; [by apply runs_stat|].
  apply runs_bind_raise, runs_query_raise. unfold fs_stat. rewrite occupied_false by done.
  unfold occupied in Hb. apply orb_false_iff in Hb as [_ ->]. done.
Qed.

Lemma runs_unlink p s i : entries s !! key p = Some i ->
  runs (unlink fold dev quiet_env p) s (log fold dev p [(key p, None)] s) (Ok ()).
Proof. intros Hi. apply runs_syscall. unfold fs_unlink. by rewrite Hi. Qed.

Lemma runs_unlink_missing p s : is_dir s (path_parts p) = false ->
  runs (unlink_missing_ok fold dev quiet_env p) s
    (match entries s !! key p with Some _ => log fold dev p [(key p, None)] s | None => s end) (Ok ()).
Proof.
  intros Hd. destruct (entries s !! key p) as [i|] eqn:Hi.
  - by eapply runs_catch, runs_unlink.
  - eapply runs_catch_raise with (e := OSError ENOENT); [|apply runs_ret]. apply runs_syscall_raise. unfold fs_unlink. by rewrite Hi, Hd.
Qed.

Lemma runs_link a b s i : entries s !! key a = Some i -> occupied fold s b = false -> is_dir s (parent b) = true ->
  kdev (key a) = kdev (key b) ->
  runs (claim_destination_by_link fold dev quiet_env a b) s (log fold dev b [(key b, Some i)] s) (Ok true).
Proof.
  intros Hi Ho Hd Hk. eapply runs_bind; [|apply runs_ret]. apply runs_syscall. unfold fs_link.
  by rewrite Hi, Ho, Hd, (bool_decide_eq_true_2 _ Hk).
Qed.

End quiet.

Lemma self_in_prefixes acc d : d <> [] -> acc ++ d ∈ prefixes acc d.
Proof.
  revert acc. induction d as [|a d IH]; intros acc Hd; [done|]. simpl.
  destruct d as [|b d]; [by left|]. right. rewrite (cons_middle a acc), app_assoc. by apply IH.
Qed.

Lemma prefixes_len acc d x : x ∈ prefixes acc d -> (length x <= length acc + length d)%nat.
Proof.
  revert acc. induction d as [|a d IH]; intros acc; simpl; [by intros ?%elem_of_nil|].
  intros [->|Hx%IH]%elem_of_cons; [|revert Hx]; rewrite length_app; simpl; lia.
Qed.

Section healthy.
Context (fold casefold sha256 : string -> string) (dev : dir -> nat) (token : string).
Context (original dest : path) (request : FilesystemMoveRequest) (i0 : nat) (c : string) (s : fs).
Abbreviation it := (item request).
Abbreviation kO := (key fold original).
Abbreviation kP := (key fold dest).
Abbreviation marker := (committed_copy_marker_path dest (proposal_id it)).
Abbreviation kM := (key fold marker).
Abbreviation tmp := (unique_tmp_path token dest).
Abbreviation kT := (key fold tmp).
Abbreviation s1 := (fs_mkdir (prefixes [] (parent dest)) s).
Abbreviation run_move := (move_resolved fold casefold sha256 dev quiet_env token original dest request).

(** The source is in place with the bytes the request expects, and the
    destination's directory can be made. *)
Record sound_source : Prop := {
  so_entry : entries s !! kO = Some i0;
  so_body : default "" (bodies s !! i0) = c;
  so_hash : forall h, sha256_hash it = Some h -> sha256 c = h;
  so_dirs : existsb (fun a => bool_decide (is_Some (entries s !! key fold (path_of_dir a)))) (prefixes [] (parent dest)) = false;
  so_root : ([] : dir) ∈ dirs s;
  so_ino : (i0 < next_ino s)%nat;
}.

Context (H : sound_source).

Lemma parent_made : is_dir s1 (parent dest) = true.
Proof using H.
  unfold is_dir. apply bool_decide_eq_true. simpl. destruct (decide (parent dest = [])) as [->|Hne].
  - apply elem_of_union. right. apply H.
  - apply elem_of_union. left. apply elem_of_list_to_set. by apply (self_in_prefixes []).
Qed.

Lemma sibling_dir n : is_dir s1 (parent dest ++ [n]) = is_dir s (parent dest ++ [n]).
Proof.
  unfold is_dir. apply bool_decide_ext. simpl. rewrite elem_of_union, elem_of_list_to_set. split; [|by right].
  intros [Hin%prefixes_len|?]; [|done]. rewrite length_app in Hin. simpl in Hin. lia.
Qed.

Lemma sibling_occupied p : parent p = parent dest -> occupied fold s1 p = occupied fold s p.
Proof. intros Hp. unfold occupied, path_parts. rewrite Hp, sibling_dir. done. Qed.

Lemma runs_verify_source :
  runs (match sha256_hash it with
        | Some h => run! set_local StepVerify; verify_hash_or_raise fold sha256 dev quiet_env original h (source_path it) ""
        | None => mret ()
        end) s s (Ok ()).
Proof using H.
  destruct H as [He Hb Hh _ _ _]. destruct (sha256_hash it) as [h|]; [|apply runs_ret].
  eapply runs_bind; [apply runs_local|]. eapply runs_verify; [done|]. rewrite Hb. by apply Hh.
Qed.

(** With the source in place the replay test fails, the source verifies, and
    the move is whatever the rest makes of the state with its directory. *)
Lemma runs_move s' (r : outcome exn unit) :
  runs (do! same_fs <- same_filesystem fold dev quiet_env original (parent dest);
        do! there <- exists_ fold dev quiet_env dest;
        do! foreign <- (if (there : bool) then do! same <- is_same_file fold dev quiet_env original dest; mret (negb same)
                        else mret false);
        if (foreign : bool) then _reclaim_or_refuse_existing_destination fold sha256 dev quiet_env original dest it same_fs
        else if same_fs then
          do! same <- is_same_file fold dev quiet_env original dest;
          if (same : bool) then _move_same_fs_entry fold casefold dev quiet_env original dest
          else atomic_same_fs_move fold dev quiet_env original dest
        else _move_across_filesystem fold sha256 dev quiet_env token original dest it) s1 s' r ->
  runs run_move s s' (match r with Ok _ => Ok (MoveResult dest true) | Raise e => Raise e end).
Proof using H.
  intros Hrest. unfold move_resolved.
  eapply runs_bind with (a := false).
  { eapply runs_bind; [apply runs_exists|]. erewrite occupied_entry by apply H. apply runs_ret. }
  eapply runs_bind; [apply runs_verify_source|].
  assert (Happ : runs (_apply_file_move fold casefold sha256 dev quiet_env token original dest it) s s' r).
  { eapply runs_bind; [apply runs_local|]. eapply runs_bind; [|exact Hrest].
    apply runs_syscall. by rewrite (so_dirs H). }
  destruct r as [[]|e].
  - eapply runs_bind; [exact Happ|apply runs_ret].
  - by apply runs_bind_raise.
Qed.

Lemma runs_same_filesystem :
  runs (same_filesystem fold dev quiet_env original (parent dest)) s1 s1
    (Ok (bool_decide (kdev dev kO = kdev dev kP))).
Proof using H.
  eapply runs_bind; [apply runs_stat, H|]. eapply runs_bind; [|apply runs_ret].
  apply runs_query. unfold fs_stat_dir. by rewrite parent_made.
Qed.

(** ** An occupied destination *)

Section occupied_dest.
Context (j : nat) (at_dest : entries s !! kP = Some j).

Lemma dest_seen : occupied fold s1 dest = true.
Proof using at_dest. by eapply occupied_entry. Qed.

Lemma runs_foreign_refused :
  j <> i0 ->
  kdev dev kO = kdev dev kP \/ occupied fold s marker = false \/ sha256 (default "" (bodies s !! j)) <> sha256 c ->
  runs run_move s s1 (Raise (FileExistsError ("destination already exists, refusing to overwrite: " +:+ path_str dest))).
Proof using H at_dest.
  intros Hne Hwhy. apply (runs_move _ (Raise _)). eapply runs_bind; [apply runs_same_filesystem|].
  eapply runs_bind; [apply runs_exists|]. rewrite dest_seen.
  eapply runs_bind. { eapply runs_bind; [eapply runs_same_file; [apply H|exact at_dest]|apply runs_ret]. }
  rewrite (bool_decide_eq_false_2 (IdFile i0 = IdFile j /\ _)) by naive_solver. simpl.
  eapply runs_bind.
  { instantiate (1 := negb (bool_decide (kdev dev kO = kdev dev kP)) && occupied fold s marker).
    case_bool_decide; [apply runs_ret|]. rewrite <- (sibling_occupied marker) by done. apply runs_exists. }
  eapply runs_bind with (a := false); [|apply runs_raise].
  destruct (_ && _) eqn:Hmark; [|apply runs_ret].
  apply andb_true_iff in Hmark as [Hd%negb_true_iff%bool_decide_eq_false Hm].
  assert (Hsha : sha256 (default "" (bodies s !! j)) <> sha256 c) by (destruct Hwhy as [?|[?|?]]; congruence).
  eapply runs_bind; [by apply runs_sha|]. change (bodies s1) with (bodies s).
  destruct (sha256_hash it) as [h|] eqn:Hh.
  - rewrite (bool_decide_eq_false_2 _) by (rewrite <- (so_hash H h Hh); done). apply runs_ret.
  - eapply runs_bind; [apply runs_sha, H|]. change (bodies s1) with (bodies s). rewrite (so_body H).
    rewrite (bool_decide_eq_false_2 _) by done. apply runs_ret.
Qed.

Lemma runs_reclaim m :
  j <> i0 -> kP <> kO -> kM <> kO -> kdev dev kO <> kdev dev kP -> entries s !! kM = Some m ->
  sha256 (default "" (bodies s !! j)) = sha256 c ->
  runs run_move s (log fold dev marker [(kM, None)] (log fold dev original [(kO, None)] s1)) (Ok (MoveResult dest true)).
Proof using H at_dest.
  intros Hne HPO HMO Hdev Hm Hsha. apply (runs_move _ (Ok ())). eapply runs_bind; [apply runs_same_filesystem|].
  eapply runs_bind; [apply runs_exists|]. rewrite dest_seen.
  eapply runs_bind. { eapply runs_bind; [eapply runs_same_file; [apply H|exact at_dest]|apply runs_ret]. }
  rewrite (bool_decide_eq_false_2 (IdFile i0 = IdFile j /\ _)) by naive_solver.
  rewrite (bool_decide_eq_false_2 (kdev dev kO = _)) by done. simpl.
  eapply runs_bind; [apply runs_exists|]. rewrite (occupied_entry fold s1 marker m) by done.
  eapply runs_bind with (a := true).
  { eapply runs_bind; [by apply runs_sha|]. change (bodies s1) with (bodies s). rewrite Hsha.
    destruct (sha256_hash it) as [h|] eqn:Hh.
    - rewrite (so_hash H h Hh), bool_decide_eq_true_2 by done. apply runs_ret.
    - eapply runs_bind; [apply runs_sha, H|]. change (bodies s1) with (bodies s).
      rewrite (so_body H), bool_decide_eq_true_2 by done. apply runs_ret. }
  eapply runs_bind; [apply runs_local|]. eapply runs_bind; [eapply runs_unlink; apply H|].
  eapply runs_catch, runs_unlink with (i := m). rewrite lookup_log, decide_False by done. exact Hm.
Qed.

(** Both names are links of one inode on one device. *)
Lemma runs_twin s' :
  j = i0 -> kdev dev kO = kdev dev kP ->
  runs (_move_same_fs_entry fold casefold dev quiet_env original dest) s1 s' (Ok ()) ->
  runs run_move s s' (Ok (MoveResult dest true)).
Proof using H at_dest.
  intros Hj Hdev Hrest. apply (runs_move _ (Ok ())). eapply runs_bind; [apply runs_same_filesystem|].
  rewrite bool_decide_eq_true_2 by done.
  eapply runs_bind; [apply runs_exists|]. rewrite dest_seen.
  eapply runs_bind. { eapply runs_bind; [eapply runs_same_file; [apply H|exact at_dest]|apply runs_ret]. }
  rewrite (bool_decide_eq_true_2 (IdFile i0 = IdFile j /\ _)) by (by rewrite Hj). simpl.
  eapply runs_bind; [eapply runs_same_file; [apply H|exact at_dest]|].
  by rewrite (bool_decide_eq_true_2 (IdFile i0 = IdFile j /\ _)) by (by rewrite Hj).
Qed.

End occupied_dest.

(** ** A free destination *)

Definition arrived_at (s' : fs) : Prop :=
  holds s' kP c /\ entries s' !! kO = None /\ entries s' !! kT = None /\ entries s' !! kM = None.

Context (free_dest : occupied fold s dest = false) (free_tmp : occupied fold s tmp = false)
  (free_marker : occupied fold s marker = false)
  (apart : kM <> kP /\ kT <> kP /\ kT <> kM).

Lemma dest_not_source : kP <> kO.
Proof using H free_dest.
  intros Heq. apply occupied_false in free_dest. rewrite Heq, (so_entry H) in free_dest. done.
Qed.

Lemma free_keys : entries s !! kT = None /\ entries s !! kM = None /\ kT <> kO /\ kM <> kO.
Proof using H free_tmp free_marker.
  apply occupied_false in free_tmp, free_marker. split; [done|]. split; [done|].
  pose proof (so_entry H). split; congruence.
Qed.

Lemma completes_same_fs : kdev dev kO = kdev dev kP ->
  exists s', runs run_move s s' (Ok (MoveResult dest true)) /\ arrived_at s'.
Proof using H free_dest free_tmp free_marker apart.
  intros Hdev. destruct free_keys as (HT & HM & HTO & HMO), apart as (HMP & HTP & HTM).
  pose proof dest_not_source as Hne.
  set (s2 := log fold dev dest [(kP, Some i0)] s1). set (s3 := log fold dev original [(kO, None)] s2).
  exists s3. split.
  - apply (runs_move s3 (Ok ())). eapply runs_bind; [apply runs_same_filesystem|].
    rewrite bool_decide_eq_true_2 by done.
    eapply runs_bind; [apply runs_exists|]. rewrite sibling_occupied, free_dest by done.
    eapply runs_bind; [apply runs_ret|]. simpl. eapply runs_bind.
    { eapply runs_same_file_absent; [apply H|by rewrite sibling_occupied]. }
    eapply runs_bind; [eapply runs_link; [apply H|by rewrite sibling_occupied|apply parent_made|done]|].
    eapply runs_unlink. unfold s2. rewrite lookup_log, decide_False by done. apply H.
  - unfold s3, s2. split; [exists i0; split; [|apply H]|split; [|split]];
      rewrite !lookup_log; repeat case_decide; simpl; congruence.
Qed.

Lemma runs_streamed_copy t2 j :
  t2 = create fold dev tmp "" s1 -> j = next_ino s1 ->
  runs (streamed_copy fold dev quiet_env original tmp) s1 (fs_fsync j (set_body j c t2)) (Ok ()).
Proof using H free_tmp.
  intros -> ->. eapply runs_bind; [apply runs_read, H|].
  change (bodies s1) with (bodies s). rewrite (so_body H).
  eapply runs_bind; [apply runs_syscall; unfold fs_open_excl; change (parent tmp) with (parent dest);
    by rewrite sibling_occupied, free_tmp, parent_made|].
  eapply runs_bind; [by apply runs_syscall|]. eapply runs_bind; [by apply runs_syscall|]. by apply runs_query.
Qed.

Lemma runs_write_marker t6 t9 : entries t6 !! kM = None -> is_dir t6 (path_parts marker) = false ->
  is_dir t6 (parent dest) = true ->
  t9 = fs_fsync (next_ino t6) (set_body (next_ino t6) (proposal_id it) (create fold dev marker "" t6)) ->
  runs (write_commit_marker fold dev quiet_env marker (proposal_id it)) t6 (fs_commit dev (parent dest) t9) (Ok ()).
Proof.
  intros Hm Hd Hp ->.
  eapply runs_bind; [apply runs_syscall; unfold fs_open_trunc; change (parent marker) with (parent dest);
    by rewrite Hm, Hd, Hp|].
  eapply runs_bind; [by apply runs_syscall|]. eapply runs_bind; [by apply runs_syscall|].
  eapply runs_bind; [|by apply runs_catch, runs_syscall]. apply runs_query. unfold is_dir in *. simpl in *. by rewrite Hp.
Qed.

Lemma completes_across : kdev dev kO <> kdev dev kP ->
  exists s', runs run_move s s' (Ok (MoveResult dest true)) /\ arrived_at s'.
Proof using H free_dest free_tmp free_marker apart.
  intros Hdev. destruct free_keys as (HT & HM & HTO & HMO), apart as (HMP & HTP & HTM).
  pose proof dest_not_source as Hne. pose proof (so_ino H) as Hlt.
  set (j := next_ino s1). set (t4 := fs_fsync j (set_body j c (create fold dev tmp "" s1))).
  set (t5 := log fold dev dest [(kP, Some j)] t4). set (t6 := log fold dev tmp [(kT, None)] t5).
  set (t9 := fs_fsync (S j) (set_body (S j) (proposal_id it) (create fold dev marker "" t6))).
  set (t11 := log fold dev original [(kO, None)] (fs_commit dev (parent dest) t9)).
  assert (Hocc : forall p, parent p = parent dest -> key fold p <> kT -> occupied fold t4 p = occupied fold s p).
  { intros p Hp Hk. rewrite <- sibling_occupied by done. unfold occupied. f_equal. apply bool_decide_ext.
    simpl. unfold apply_change. simpl. by rewrite lookup_insert_ne by done. }
  assert (H4T : entries t4 !! kT = Some j) by (simpl; unfold apply_change; simpl; apply lookup_insert_eq).
  assert (H6 : forall k, entries t6 !! k = if decide (k = kT) then None else if decide (k = kP) then Some j else entries s !! k).
  { intros k. unfold t6, t5, t4, create. rewrite !lookup_log. simpl. unfold apply_change. simpl.
    repeat case_decide; simplify_eq; try done. by rewrite lookup_insert_ne. }
  assert (H11 : forall k, entries (log fold dev marker [(kM, None)] t11) !! k =
    if decide (k = kM) then None else if decide (k = kO) then None else entries t6 !! k).
  { intros k. unfold t11. rewrite !lookup_log. simpl. unfold apply_change. simpl.
    repeat case_decide; simplify_eq; try done. by rewrite lookup_insert_ne. }
  assert (Hbody : bodies t6 !! j = Some c) by (simpl; apply lookup_insert_eq).
  exists (log fold dev marker [(kM, None)] t11). split.
  - apply (runs_move _ (Ok ())). eapply runs_bind; [apply runs_same_filesystem|].
    rewrite bool_decide_eq_false_2 by done.
    eapply runs_bind; [apply runs_exists|]. rewrite sibling_occupied, free_dest by done.
    eapply runs_bind; [apply runs_ret|]. simpl. eapply runs_bind with (s1 := t6).
    { eapply runs_finally with (s1 := t5).
      - eapply runs_bind; [by apply runs_streamed_copy|].
        eapply runs_bind; [eapply runs_link; [exact H4T|by rewrite Hocc|apply parent_made|done]|apply runs_ret].
      - eapply runs_catch, runs_unlink. unfold t5. rewrite lookup_log. case_decide; [congruence|exact H4T]. }
    eapply runs_bind.
    { destruct (sha256_hash it) as [h|] eqn:Hh; [|apply runs_ret]. eapply runs_bind; [apply runs_local|].
      eapply runs_verify with (i := j); [rewrite H6; by repeat case_decide; congruence|].
      rewrite Hbody. by apply H. }
    eapply runs_bind.
    { eapply runs_write_marker with (t9 := t9); [rewrite H6; by repeat case_decide; congruence| |apply parent_made|done].
      unfold occupied in free_marker. apply orb_false_iff in free_marker as [_ Hd].
      change (path_parts marker) with (parent dest ++ [name marker]) in Hd.
      rewrite <- (sibling_dir (name marker)) in Hd. exact Hd. }
    eapply runs_bind; [apply runs_local|]. eapply runs_bind.
    { eapply runs_unlink with (i := i0). simpl. unfold apply_change. simpl.
      rewrite lookup_insert_ne, H6 by done. repeat case_decide; try congruence. apply H. }
    eapply runs_catch, runs_unlink with (i := S j). unfold t11. rewrite lookup_log. case_decide; [congruence|].
    simpl. unfold apply_change. simpl. apply lookup_insert_eq.
  - split; [exists j; split|split; [|split]]; rewrite ?H11, ?H6; try (repeat case_decide; congruence).
    change (default "" (bodies t9 !! j) = c). unfold t9, j. simpl.
    rewrite !lookup_insert_ne by lia. by rewrite lookup_insert_eq.
Qed.

End healthy.

(** ** What a run does *)

Section outcomes.
Context (fold casefold sha256 : string -> string) (dev : dir -> nat) (token : string).
Context (original dest : path) (request : FilesystemMoveRequest) (i0 : nat) (c : string) (s : fs).
Abbreviation it := (item request).
Abbreviation kO := (key fold original).
Abbreviation kP := (key fold dest).
Abbreviation marker := (committed_copy_marker_path dest (proposal_id it)).
Abbreviation kM := (key fold marker).
Abbreviation kT := (key fold (unique_tmp_path token dest)).
Abbreviation run_move := (move_resolved fold casefold sha256 dev quiet_env token original dest request).

(** C34: completion.  With the source in place and a free destination, a run in
    which nothing fails ends by itself and succeeds, on one device and across
    devices: the destination has the bytes, and the source, the temporary and
    the marker are gone. *)
Theorem healthy_move_completes :
  sound_source fold sha256 original dest request i0 c s ->
  occupied fold s dest = false -> occupied fold s (unique_tmp_path token dest) = false ->
  occupied fold s marker = false -> kM <> kP /\ kT <> kP /\ kT <> kM ->
  exists s', runs run_move s s' (Ok (MoveResult dest true)) /\
    arrived_at fold token original dest request c s'.
Proof.
  intros H HP HT HM Hap. destruct (decide (kdev dev kO = kdev dev kP)) as [Hd|Hd].
  - by eapply completes_same_fs.
  - by eapply completes_across.
Qed.

(** An occupied destination.  A foreign file at the destination is refused
    with everything as it was, unless the destination is on another device,
    carries this proposal's marker and has the source's digest: then the
    earlier copy is completed by removing the source and the marker. *)
Theorem occupied_destination_refused_or_completed j :
  sound_source fold sha256 original dest request i0 c s ->
  entries s !! kP = Some j -> j <> i0 -> kP <> kO -> kM <> kO ->
  let s1 := fs_mkdir (prefixes [] (parent dest)) s in
  (kdev dev kO = kdev dev kP \/ occupied fold s marker = false \/ sha256 (default "" (bodies s !! j)) <> sha256 c ->
   runs run_move s s1 (Raise (FileExistsError ("destination already exists, refusing to overwrite: " +:+ path_str dest)))) /\
  (forall m, kdev dev kO <> kdev dev kP -> entries s !! kM = Some m -> sha256 (default "" (bodies s !! j)) = sha256 c ->
   runs run_move s (log fold dev marker [(kM, None)] (log fold dev original [(kO, None)] s1)) (Ok (MoveResult dest true))).
Proof.
  intros H Hj Hne HPO HMO s1. split.
  - by eapply runs_foreign_refused.
  - intros m Hd Hm Hs. by eapply runs_reclaim.
Qed.

(** A replay without the source.  It succeeds, and only cleans up the
    marker, when the destination is there with the expected digest and either
    the job or the marker says this proposal moved it; without that
    corroboration it fails and changes nothing, so a destination that merely
    exists, even with the right bytes, never passes for a finished move. *)
Theorem replay_needs_corroboration j h :
  occupied fold s original = false -> entries s !! kP = Some j -> is_dir s (path_parts marker) = false ->
  sha256_hash it = Some h ->
  (replay_corroborated request = true \/ is_Some (entries s !! kM) -> sha256 (default "" (bodies s !! j)) = h ->
   runs run_move s (match entries s !! kM with Some _ => log fold dev marker [(kM, None)] s | None => s end)
     (Ok (MoveResult dest false))) /\
  (replay_corroborated request = false -> entries s !! kM = None ->
   runs run_move s s (Raise (OSError ENOENT))).
Proof.
  intros HO Hj Hd Hsha. pose proof (occupied_false _ _ _ HO) as HkO.
  assert (Hcheck : runs (_check_replay_corroborated fold dev quiet_env original dest it (replay_corroborated request)) s s
    (Ok (replay_corroborated request || occupied fold s marker))).
  { eapply runs_bind; [apply runs_exists|]. rewrite HO. eapply runs_bind; [apply runs_exists|].
    erewrite occupied_entry by exact Hj. simpl. destruct (replay_corroborated request); [apply runs_ret|apply runs_exists]. }
  unfold move_resolved. rewrite Hsha. split.
  - intros Hcor Hh. eapply runs_bind; [exact Hcheck|].
    replace (_ || _) with true.
    2: { destruct Hcor as [->|[m Hm]]; [done|]. erewrite occupied_entry by exact Hm. by rewrite orb_true_r. }
    eapply runs_bind; [|eapply runs_bind; [by apply runs_unlink_missing|apply runs_ret]].
    eapply runs_bind; [apply runs_local|]. by eapply runs_verify.
  - intros Hrc Hm. eapply runs_bind; [exact Hcheck|].
    replace (_ || _) with false by (unfold occupied; by rewrite Hrc, Hm, Hd).
    apply runs_bind_raise. eapply runs_bind; [apply runs_local|]. apply runs_bind_raise, runs_bind_raise.
    apply runs_query_raise. unfold fs_read. rewrite HkO. unfold occupied in HO. by apply orb_false_iff in HO as [_ ->].
Qed.

(** A claim that crashed before the source was unlinked.  Both names are
    then links of one inode; the replay removes the source when the names
    differ by more than case.  When they differ in case only, on a mount that
    tells the two apart, the replay reports a committed move and leaves both
    names in place. *)
Theorem crashed_claim_replay :
  sound_source fold sha256 original dest request i0 c s ->
  entries s !! kP = Some i0 -> kdev dev kO = kdev dev kP -> kP <> kO -> is_dir s (path_parts dest) = false ->
  let s1 := fs_mkdir (prefixes [] (parent dest)) s in
  (is_case_only_same_entry casefold original dest = false ->
   runs run_move s (log fold dev original [(kO, None)] s1) (Ok (MoveResult dest true))) /\
  (is_case_only_same_entry casefold original dest = true ->
   runs run_move s s1 (Ok (MoveResult dest true)) /\ entries s1 !! kO = Some i0).
Proof.
  intros H Hj Hdev Hne Hnd s1.
  assert (Hpaths : original <> dest) by congruence.
  split; intros Hcase.
  - eapply runs_twin; [done|exact Hj|done|done|]. unfold _move_same_fs_entry. rewrite Hcase.
    rewrite bool_decide_eq_false_2 by done. simpl.
    eapply runs_bind with (a := true).
    { eapply runs_bind; [apply runs_stat, H|]. cbv beta iota. rewrite bool_decide_eq_true_2; [apply runs_ret|].
      assert (Hsub : <[kP := i0]> {[kO := i0]} ⊆ filter (fun kv : entry * nat => kv.2 = i0) (entries s)).
      { apply map_subseteq_spec. intros k i Hi. apply map_lookup_filter_Some.
        apply lookup_insert_Some in Hi as [[<- <-]|[_ [<- <-]%lookup_singleton_Some]]; [done|]. split; [apply H|done]. }
      apply map_subseteq_size in Hsub. rewrite map_size_insert_None, map_size_singleton in Hsub; [exact Hsub|].
      by rewrite lookup_singleton_ne. }
    eapply runs_bind; [apply runs_local|]. eapply runs_unlink, H.
  - split; [|apply H]. eapply runs_twin; [done|exact Hj|done|done|]. unfold _move_same_fs_entry. rewrite Hcase.
    rewrite andb_false_r. eapply runs_bind; [apply runs_ret|]. apply runs_syscall. unfold fs_replace.
    change (entries (fs_mkdir _ s)) with (entries s). rewrite (so_entry _ _ _ _ _ _ _ _ H).
    change (path_parts dest) with (parent dest ++ [name dest]) in *.
    rewrite sibling_dir, Hnd, (parent_made _ _ _ _ _ _ _ _ H). simpl.
    rewrite bool_decide_eq_true_2 by done. simpl. rewrite (bool_decide_eq_true_2 (_ = Some i0)) by done.
    by rewrite bool_decide_eq_false_2 by done.
Qed.

End outcomes.

(** ** Concrete runs *)

Lemma demo_sound : sound_source id id (Path ["a"] "x") (Path ["b"] "y") demo_request 0 "song" demo_fs.
Proof. constructor; [by vm_compute|by vm_compute|by intros h [= <-]|by vm_compute|set_solver|simpl; lia]. Qed.

Lemma healthy_move_completes_witness :
  exists s', runs (move_resolved id id id demo_dev quiet_env "t" (Path ["a"] "x") (Path ["b"] "y") demo_request) demo_fs s'
    (Ok (MoveResult (Path ["b"] "y") true)) /\
    arrived_at id "t" (Path ["a"] "x") (Path ["b"] "y") demo_request "song" s'.
Proof.
  apply (healthy_move_completes id id id demo_dev "t" (Path ["a"] "x") (Path ["b"] "y") demo_request 0 "song" demo_fs
    demo_sound); by vm_compute.
Defined.

Lemma occupied_destination_refused_or_completed_witness :
  runs (move_resolved id id id demo_dev quiet_env "t" (Path ["a"] "x") (Path ["b"] "keep") demo_request) demo_fs
    (fs_mkdir [["b"]] demo_fs)
    (Raise (FileExistsError "destination already exists, refusing to overwrite: /b/keep")).
Proof.
  assert (Hs : sound_source id id (Path ["a"] "x") (Path ["b"] "keep") demo_request 0 "song" demo_fs).
  { constructor; [by vm_compute|by vm_compute|by intros h [= <-]|by vm_compute|set_solver|simpl; lia]. }
  apply (proj1 (occupied_destination_refused_or_completed id id id demo_dev "t" (Path ["a"] "x") (Path ["b"] "keep")
    demo_request 0 "song" demo_fs 1 Hs ltac:(by vm_compute) ltac:(done) ltac:(by vm_compute) ltac:(by vm_compute))).
  right. left. by vm_compute.
Defined.

Definition moved_fs : fs :=
  Fs {[ (["b"], "y") := 0 ]} (dirs demo_fs) {[ 0 := "song" ]} 1 {[ 0 ]} {[ (["b"], "y") := 0 ]} [] ∅.

Lemma replay_needs_corroboration_witness :
  runs (move_resolved id id id demo_dev quiet_env "t" (Path ["a"] "x") (Path ["b"] "y")
    (MoveRequest (item demo_request) [] true)) moved_fs moved_fs (Ok (MoveResult (Path ["b"] "y") false)) /\
  runs (move_resolved id id id demo_dev quiet_env "t" (Path ["a"] "x") (Path ["b"] "y") demo_request) moved_fs moved_fs
    (Raise (OSError ENOENT)).
Proof.
  split.
  - exact (proj1 (replay_needs_corroboration id id id demo_dev "t" (Path ["a"] "x") (Path ["b"] "y")
      (MoveRequest (item demo_request) [] true) moved_fs 0 "song" ltac:(by vm_compute) ltac:(by vm_compute)
      ltac:(by vm_compute) ltac:(by vm_compute)) (or_introl eq_refl) ltac:(by vm_compute)).
  - exact (proj2 (replay_needs_corroboration id id id demo_dev "t" (Path ["a"] "x") (Path ["b"] "y") demo_request
      moved_fs 0 "song" ltac:(by vm_compute) ltac:(by vm_compute) ltac:(by vm_compute) ltac:(by vm_compute))
      ltac:(by vm_compute) ltac:(by vm_compute)).
Defined.

(** [str.casefold] on ASCII letters. *)
Fixpoint ascii_casefold (s : string) : string :=
  match s with
  | EmptyString => EmptyString
  | String a s' =>
      let n := nat_of_ascii a in
      String (if bool_decide (65 <= n <= 90) then ascii_of_nat (n + 32) else a) (ascii_casefold s')
  end.

(** A case-only rename whose hard-link claim crashed before the unlink. *)
Definition claimed_fs : fs :=
  Fs {[ (["a"], "x.mp3") := 0; (["a"], "X.mp3") := 0 ]} (dirs demo_fs) {[ 0 := "song" ]} 1 {[ 0 ]}
    {[ (["a"], "x.mp3") := 0; (["a"], "X.mp3") := 0 ]} [] ∅.

Lemma claimed_sound : sound_source id id (Path ["a"] "x.mp3") (Path ["a"] "X.mp3") demo_request 0 "song" claimed_fs.
Proof. constructor; [by vm_compute|by vm_compute|by intros h [= <-]|by vm_compute|set_solver|simpl; lia]. Qed.

Lemma crashed_claim_replay_witness :
  runs (move_resolved id ascii_casefold id demo_dev quiet_env "t" (Path ["a"] "x.mp3") (Path ["a"] "X.mp3") demo_request)
    claimed_fs (fs_mkdir [["a"]] claimed_fs) (Ok (MoveResult (Path ["a"] "X.mp3") true)) /\
  entries (fs_mkdir [["a"]] claimed_fs) !! (["a"], "x.mp3") = Some 0.
Proof.
  exact (proj2 (crashed_claim_replay id ascii_casefold id demo_dev "t" (Path ["a"] "x.mp3") (Path ["a"] "X.mp3")
    demo_request 0 "song" claimed_fs claimed_sound ltac:(by vm_compute) ltac:(by vm_compute) ltac:(by vm_compute)
    ltac:(by vm_compute)) ltac:(by vm_compute)).
Defined.

(** ** The replay of a marked copy does not wait for the disk

    [crashed_fs] is a state of the run across devices, after the marker was
    opened and before the destination's directory was fsynced. *)
Definition demo_run (s : fs) : world FailedAtStep * outcome exn FilesystemMoveResult :=
  move_resolved id id id demo_dev quiet_env "t" (Path ["a"] "x") (Path ["b"] "y") demo_request (World s StepCopy 0 []).

Definition crashed_fs : fs := nth 5 (trace (demo_run demo_fs).1) demo_fs.

(** The replay after that crash reports a committed move; a power loss that
    keeps the source's directory update and drops the destination's leaves the
    bytes at neither path. *)
Theorem marked_replay_can_lose_file :
  (demo_run crashed_fs).2 = Ok (MoveResult (Path ["b"] "y") true) /\
  exists n, let s := fsys (demo_run crashed_fs).1 in
    ~ survives demo_dev n s (["a"], "x") "song" /\ ~ survives demo_dev n s (["b"], "y") "song".
Proof.
  split; [by vm_compute|]. exists (fun d => match d with 0 => 9 | _ => 0 end).
  split; intros (i & Hi & _); vm_compute in Hi; congruence.
Qed.
