(* ===== verification/Reports.v ===== *)
(** * What the controller keeps of an agent's reports

    [routers/agent_proposals.py] and [routers/agent_execution.py]: the verdict
    of a proposal and the write-ahead audit log.  A handler runs in one
    transaction under a row lock, so a call is one step on the rows.  Text is
    UTF-8 in a [string]; [nfc] is [unicodedata.normalize("NFC", _)]. *)
From S2P Require Import Prelude.
From Stdlib Require Import Strings.Ascii.
From stdpp Require Import options.

Inductive ProposalStatus : Type := PENDING | APPROVED | REJECTED | EXECUTED | FAILED.
#[export] Instance ProposalStatus_eq_dec : EqDecision ProposalStatus.
Proof. solve_decision. Defined.

Inductive ExecutionStatus : Type := XPENDING | XIN_PROGRESS | XCOMPLETED | XFAILED.
#[export] Instance ExecutionStatus_eq_dec : EqDecision ExecutionStatus.
Proof. solve_decision. Defined.

Record RenameProposal : Type := Proposal { status : ProposalStatus; reason : option string; file_id : string }.
Record FileRecord : Type := File { agent_id : string; current_path : string }.
Record ExecutionLog : Type := Log {
  log_proposal : string;
  operation : string;
  log_source : string;
  log_destination : string;
  sha256_verified : bool;
  log_status : ExecutionStatus;
  error_message : option string;
}.

Record db : Type := Db {
  proposals : gmap string RenameProposal;
  files : gmap string FileRecord;
  logs : gmap string ExecutionLog;
}.

(** A response: its status code. *)
Abbreviation http := Z.

(** ** [services/pg_text.py] *)

Definition byte_in (lo hi : nat) (c : ascii) : bool := (lo <=? nat_of_ascii c)%nat && (nat_of_ascii c <=? hi)%nat.

(** NUL, and the three bytes of a lone surrogate. *)
Fixpoint sanitize_pg_text (s : string) : string :=
  match s with
  | EmptyString => EmptyString
  | String c s' =>
      if byte_in 0 0 c then sanitize_pg_text s'
      else
        match s' with
        | String c1 (String _ s'') =>
            if byte_in 237 237 c && byte_in 160 191 c1 then sanitize_pg_text s'' else String c (sanitize_pg_text s')
        | _ => String c (sanitize_pg_text s')
        end
  end.

(** [s\[:n\]], in code points. *)
Fixpoint take_chars (n : nat) (s : string) : string :=
  match s with
  | EmptyString => EmptyString
  | String c s' =>
      if byte_in 128 191 c then String c (take_chars n s')
      else match n with O => EmptyString | S n' => String c (take_chars n' s') end
  end.

(** ** [routers/agent_proposals.py] *)

Definition _PROPOSAL_TRANSITIONS (s : ProposalStatus) : list ProposalStatus :=
  match s with APPROVED => [EXECUTED; FAILED] | _ => [] end.

Definition _ERROR_MESSAGE_MAX : nat := 2000.

Inductive FileState : Type := moved | unchanged.

Record ProposalStatePatch : Type := StatePatch {
  proposal_state : ProposalStatus;
  file_state : option FileState;
  patch_path : option string;
  patch_error : option string;
}.

(** The validators: only the two verdicts, a path for a moved file, in NFC. *)
Definition validate_state_patch (nfc : string -> string) (b : ProposalStatePatch) : option ProposalStatePatch :=
  match proposal_state b, file_state b, patch_path b with
  | (EXECUTED | FAILED), Some moved, None => None
  | (EXECUTED | FAILED), _, _ => Some (StatePatch (proposal_state b) (file_state b) (nfc <$> patch_path b) (patch_error b))
  | _, _, _ => None
  end.

Definition patch_proposal_state (agent proposal_id : string) (body : ProposalStatePatch) (d : db) : db * http :=
  match proposals d !! proposal_id with
  | None => (d, 404%Z)
  | Some proposal =>
      let file_record := files d !! file_id proposal in
      if match file_record with Some f => negb (bool_decide (agent_id f = agent)) | None => false end then (d, 403%Z)
      else
        let cur := status proposal in
        let new := proposal_state body in
        if bool_decide (cur = new) then (d, 200%Z)
        else if negb (bool_decide (new ∈ _PROPOSAL_TRANSITIONS cur)) then (d, 409%Z)
        else
          let reason' := match patch_error body with
                         | Some e => Some (take_chars _ERROR_MESSAGE_MAX (sanitize_pg_text e))
                         | None => reason proposal
                         end in
          let files' := match file_state body, file_record, patch_path body with
                        | Some _, Some f, Some p => <[file_id proposal := File (agent_id f) p]> (files d)
                        | _, _, _ => files d
                        end in
          (Db (<[proposal_id := Proposal new reason' (file_id proposal)]> (proposals d)) files' (logs d), 200%Z)
  end.

(** ** [routers/agent_execution.py] *)

Definition _STATUS_ORDER (s : ExecutionStatus) : nat :=
  match s with XPENDING => 0 | XIN_PROGRESS => 1 | XCOMPLETED => 2 | XFAILED => 3 end.

Definition _TERMINAL : list ExecutionStatus := [XCOMPLETED; XFAILED].

Definition _reject_if_not_owner (proposal_id agent : string) (d : db) : bool :=
  match proposals d !! proposal_id with
  | None => false
  | Some p => match files d !! file_id p with
              | Some f => negb (bool_decide (agent_id f = agent))
              | None => false
              end
  end.

(** [INSERT ... ON CONFLICT (id) DO NOTHING], the foreign key checked for a row
    that is really inserted. *)
Definition create_execution_log (agent id : string) (body : ExecutionLog) (d : db) : db * http :=
  if _reject_if_not_owner (log_proposal body) agent d then (d, 403%Z)
  else if bool_decide (is_Some (logs d !! id)) then (d, 200%Z)
  else if bool_decide (proposals d !! log_proposal body = None) then (d, 404%Z)
  else (Db (proposals d) (files d) (<[id := body]> (logs d)), 200%Z).

(** The fields that were set in the body. *)
Record ExecutionLogPatch : Type := LogPatch {
  patch_status : ExecutionStatus;
  patch_verified : option bool;
  patch_message : option (option string);
}.

Definition patch_execution_log (agent id : string) (body : ExecutionLogPatch) (d : db) : db * http :=
  match logs d !! id with
  | None => (d, 404%Z)
  | Some existing =>
      if _reject_if_not_owner (log_proposal existing) agent d then (d, 403%Z)
      else
        let cur := log_status existing in
        let new := patch_status body in
        if bool_decide (cur ∈ _TERMINAL) && negb (bool_decide (new = cur)) then (d, 409%Z)
        else if (_STATUS_ORDER new <? _STATUS_ORDER cur)%nat then (d, 409%Z)
        else
          let row := Log (log_proposal existing) (operation existing) (log_source existing) (log_destination existing)
                       (default (sha256_verified existing) (patch_verified body)) new
                       (match patch_message body with Some m => sanitize_pg_text <$> m | None => error_message existing end) in
          (Db (proposals d) (files d) (<[id := row]> (logs d)), 200%Z)
  end.

(** ** Any calls, by any agents, in any order *)

Inductive request : Type :=
| ReqState (proposal_id : string) (body : ProposalStatePatch)
| ReqCreate (id : string) (body : ExecutionLog)
| ReqPatch (id : string) (body : ExecutionLogPatch).

(** The row stays as it is. *)
Ltac row_stays row := simpl; exists row; split_and?; solve [done | by left | lia].

Section api.
Context (nfc : string -> string).

Definition serve (agent : string) (r : request) (d : db) : db * http :=
  match r with
  | ReqState p b => match validate_state_patch nfc b with
                    | Some b' => patch_proposal_state agent p b' d
                    | None => (d, 422%Z)
                    end
  | ReqCreate id b => create_execution_log agent id b d
  | ReqPatch id b => patch_execution_log agent id b d
  end.

Definition serve_all (rs : list (string * request)) (d : db) : db := fold_left (fun d r => (serve r.1 r.2 d).1) rs d.

Definition decided (s : ProposalStatus) : Prop := s = EXECUTED \/ s = FAILED.

(** One call: a proposal keeps its file, only an approved one changes, and
    then to a verdict; a log row only climbs. *)
Lemma serve_proposal agent r d p row :
  proposals d !! p = Some row ->
  exists row', proposals (serve agent r d).1 !! p = Some row' /\ file_id row' = file_id row /\
    (row' = row \/ status row = APPROVED /\ decided (status row')).
Proof.
  intros Hp. destruct r as [q b|id b|id b]; simpl.
  - destruct (validate_state_patch nfc b) as [b'|]; [|row_stays row].
    unfold patch_proposal_state. destruct (proposals d !! q) as [pr|] eqn:Hq; [|row_stays row].
    match goal with |- context [if ?b then (d, 403%Z) else _] => destruct b end; [row_stays row|].
    case_bool_decide; [row_stays row|]. case_bool_decide as Hin; simpl; [|row_stays row].
    destruct (decide (q = p)) as [->|Hne]; [|exists row; rewrite lookup_insert_ne by done; split_and?; by auto].
    rewrite Hp in Hq. injection Hq as <-. eexists. rewrite lookup_insert_eq. split; [done|]. simpl. split; [done|].
    right. destruct (status row); simpl in Hin; rewrite ?elem_of_cons, elem_of_nil in Hin; unfold decided; intuition.
  - unfold create_execution_log. repeat (case_match; simpl; try row_stays row).
  - unfold patch_execution_log. repeat (case_match; simpl; try row_stays row).
Qed.

Lemma serve_log agent r d id row :
  logs d !! id = Some row ->
  exists row', logs (serve agent r d).1 !! id = Some row' /\ log_proposal row' = log_proposal row /\
    (_STATUS_ORDER (log_status row) <= _STATUS_ORDER (log_status row'))%nat /\
    (log_status row ∈ _TERMINAL -> log_status row' = log_status row).
Proof.
  intros Hl. destruct r as [q b|id' b|id' b]; simpl.
  - destruct (validate_state_patch nfc b) as [b'|]; [|row_stays row].
    unfold patch_proposal_state. repeat (case_match; simpl; try row_stays row).
  - unfold create_execution_log. destruct (_reject_if_not_owner _ _ _); [row_stays row|].
    case_bool_decide as Hs; [row_stays row|]. case_bool_decide; simpl; [row_stays row|].
    rewrite lookup_insert_ne; [row_stays row|]. intros ->. apply Hs. by eexists.
  - unfold patch_execution_log. destruct (logs d !! id') as [ex|] eqn:He; [|row_stays row].
    destruct (_reject_if_not_owner _ _ _); [row_stays row|].
    destruct (_ && _) eqn:Ht; [row_stays row|]. destruct (_ <? _)%nat eqn:Ho; [row_stays row|]. simpl.
    destruct (decide (id' = id)) as [->|]; [|rewrite lookup_insert_ne by done; row_stays row].
    rewrite Hl in He. injection He as <-. rewrite lookup_insert_eq. eexists. split; [done|]. simpl. split; [done|].
    apply Nat.ltb_ge in Ho. split; [lia|]. intros Hterm. rewrite bool_decide_eq_true_2 in Ht by done. simpl in Ht.
    by apply negb_false_iff, bool_decide_eq_true in Ht.
Qed.

End api.

Section history.
Context (nfc : string -> string).

Lemma serve_owner agent r d f file :
  files d !! f = Some file ->
  exists file', files (serve nfc agent r d).1 !! f = Some file' /\ agent_id file' = agent_id file /\
    (agent <> agent_id file -> file' = file).
Proof.
  intros Hf. destruct r as [q b|id b|id b]; simpl.
  - destruct (validate_state_patch nfc b) as [b'|]; [|row_stays file].
    unfold patch_proposal_state. destruct (proposals d !! q) as [pr|] eqn:Hq; [|row_stays file].
    match goal with |- context [if ?b then (d, 403%Z) else _] => destruct b eqn:Hown end; [row_stays file|].
    case_bool_decide; [row_stays file|]. case_bool_decide; simpl; [|row_stays file].
    destruct (file_state b'); [|row_stays file]. destruct (files d !! file_id pr) as [file0|] eqn:Hfile0; [|row_stays file].
    destruct (patch_path b') as [path|]; [|row_stays file].
    destruct (decide (file_id pr = f)) as [Heq|]; [|rewrite lookup_insert_ne by done; row_stays file].
    subst f. rewrite Hf in Hfile0. injection Hfile0 as <-. rewrite lookup_insert_eq. eexists. split; [done|]. split; [done|].
    intros Hne. apply negb_false_iff, bool_decide_eq_true in Hown. congruence.
  - unfold create_execution_log. repeat (case_match; simpl; try row_stays file).
  - unfold patch_execution_log. repeat (case_match; simpl; try row_stays file).
Qed.

(** A call by another agent than the owner of its file leaves a proposal. *)
Lemma serve_foreign agent r d p row file :
  proposals d !! p = Some row -> files d !! file_id row = Some file -> agent <> agent_id file ->
  proposals (serve nfc agent r d).1 !! p = Some row.
Proof.
  intros Hp Hf Hne. destruct r as [q b|id b|id b]; simpl.
  - destruct (validate_state_patch nfc b) as [b'|]; [|done]. unfold patch_proposal_state.
    destruct (decide (q = p)) as [->|Hq].
    + rewrite Hp, Hf, bool_decide_eq_false_2 by done. done.
    + repeat (case_match; simpl; try done); by rewrite lookup_insert_ne.
  - unfold create_execution_log. repeat (case_match; simpl; try done).
  - unfold patch_execution_log. repeat (case_match; simpl; try done).
Qed.

(** C31: verdicts are final and the audit trail is monotone.  Whatever calls
    arrive, from whatever agents and in whatever order: only an approved
    proposal's row ever changes, once, to executed or failed; it does not
    change at all on the calls of agents that do not own its file; an audit row
    stays with its proposal, its status only climbs the ladder and a completed
    or failed one never changes status. *)
Theorem verdict_is_final rs d :
  (forall p row, proposals d !! p = Some row ->
     exists row', proposals (serve_all nfc rs d) !! p = Some row' /\ file_id row' = file_id row /\
       (row' = row \/ status row = APPROVED /\ decided (status row')) /\
       (forall file, files d !! file_id row = Some file -> (forall r, r ∈ rs -> r.1 <> agent_id file) -> row' = row)) /\
  (forall id row, logs d !! id = Some row ->
     exists row', logs (serve_all nfc rs d) !! id = Some row' /\ log_proposal row' = log_proposal row /\
       (_STATUS_ORDER (log_status row) <= _STATUS_ORDER (log_status row'))%nat /\
       (log_status row ∈ _TERMINAL -> log_status row' = log_status row)).
Proof.
  unfold serve_all. revert d. induction rs as [|[agent r] rs IH]; intros d.
  { split; intros; row_stays row. }
  simpl. destruct (IH (serve nfc agent r d).1) as [IHp IHl]. clear IH. split.
  - intros p row Hp. destruct (serve_proposal nfc agent r d p row Hp) as (row1 & H1 & Hf1 & Hc1).
    destruct (IHp p row1 H1) as (row2 & H2 & Hf2 & Hc2 & Ho2). exists row2. split; [done|]. split; [congruence|]. split.
    + destruct Hc1 as [->|[Ha Hd]]; [done|]. right. destruct Hc2 as [->|[Ha2 _]]; [done|].
      destruct Hd as [Hd|Hd]; rewrite Ha2 in Hd; done.
    + intros file Hf Hno. assert (row1 = row) as ->.
      { assert (Hk : proposals (serve nfc agent r d).1 !! p = Some row).
        { apply (serve_foreign _ _ _ _ _ file); [done|done|]. apply (Hno (agent, r)). by left. }
        congruence. }
      destruct (serve_owner agent r d _ _ Hf) as (file1 & Hf1' & Ha1 & Hs1).
      apply (Ho2 file1); [done|]. intros r' Hr'. rewrite Ha1. apply Hno. by right.
  - intros id row Hl. destruct (serve_log nfc agent r d id row Hl) as (row1 & H1 & Hp1 & Ho1 & Ht1).
    destruct (IHl id row1 H1) as (row2 & H2 & Hp2 & Ho2 & Ht2). exists row2. split; [done|]. split; [congruence|].
    split; [lia|]. intros Ht. rewrite Ht2; [by apply Ht1|]. by rewrite (Ht1 Ht).
Qed.

End history.

Definition demo_db : db :=
  Db {["p1" := Proposal APPROVED None "f1"]} {["f1" := File "nas" "/music/a.mp3"]} ∅.
Definition demo_calls : list (string * request) :=
  [("attic", ReqState "p1" (StatePatch FAILED None None (Some "boom"%string)));
   ("nas", ReqState "p1" (StatePatch EXECUTED (Some moved) (Some "/music/b.mp3"%string) None));
   ("nas", ReqState "p1" (StatePatch FAILED None None (Some "late"%string)))].

Lemma verdict_is_final_witness :
  proposals (serve_all id demo_calls demo_db) !! "p1" = Some (Proposal EXECUTED None "f1") /\
  exists row', proposals (serve_all id demo_calls (serve_all id demo_calls demo_db)) !! "p1" = Some row' /\
    row' = Proposal EXECUTED None "f1".
Proof.
  split; [by vm_compute|].
  destruct (proj1 (verdict_is_final id demo_calls (serve_all id demo_calls demo_db)) "p1" (Proposal EXECUTED None "f1"))
    as (row' & H & _ & Hc & _); [by vm_compute|]. exists row'. split; [exact H|]. destruct Hc as [Hc|[Hc _]]; [exact Hc|discriminate].
Defined.
