(* ===== verification/Dispatch.v ===== *)
(** * Execute Approved: the dispatch protocol and its progress counters

    [services/execution_dispatch_protocol.py], [chunk_proposals] of
    [services/execution_dispatch.py] and the Lua scripts and handler of
    [routers/agent_exec_batches.py].  Redis holds plain keys and hashes; a hash
    field that the scripts read with [tonumber] or change with HINCRBY is an
    integer.  Every Redis or broker call is an await: before it takes effect,
    other coroutines run ([events]), and it may be lost. *)
From S2P Require Import Prelude.
From stdpp Require Import options.
Local Open Scope Z_scope.

(** ** Redis *)

Inductive fval : Type :=
| FInt (z : Z)
| FStr (s : string)
| FSummary (rows : list (string * string * Z * Z)).

#[export] Instance fval_eq_dec : EqDecision fval.
Proof. solve_decision. Defined.

Abbreviation hash := (gmap string fval).

Record redis : Type := Redis { strs : gmap string string; hashes : gmap string hash }.

Definition hget_int (h : hash) (f : string) : Z := match h !! f with Some (FInt z) => z | _ => 0 end.

Definition hincrby (h : hash) (inc : string * Z) : hash := <[inc.1 := FInt (hget_int h inc.1 + inc.2)]> h.

Definition hincrby_all (incs : list (string * Z)) (h : hash) : hash := fold_left hincrby incs h.

(** ** [routers/agent_exec_batches.py]: the scripts *)

Definition _REQ_PREFIX : string := "exec_progress_req:".
Definition ACTIVE_DISPATCH_KEY : string := "execdispatch:active".
Definition BATCH_KEY_PREFIX : string := "exec:".

Definition release_active (active_key batch_id : string) (r : redis) : redis :=
  if bool_decide (active_key <> "" /\ strs r !! active_key = Some batch_id)
  then Redis (delete active_key (strs r)) (hashes r) else r.

(** [_PROMOTE_LUA_FN] *)
Definition phaze_promote (key active_key batch_id : string) (r : redis) : redis :=
  match hashes r !! key with
  | None => r
  | Some h =>
      if hget_int h "subjobs_completed" <? hget_int h "subjobs_expected" then r
      else
        let new_status := if hget_int h "failed" =? 0 then "complete"%string else "complete_with_errors"%string in
        release_active active_key batch_id (Redis (strs r) (<[key := <["status" := FStr new_status]> h]> (hashes r)))
  end.

(** [_CLAIM_DISPATCH_LUA]: 0 refused, 1 claimed, 2 claimed over a stale one. *)
Definition claim_dispatch (active_key batch_id prefix : string) (r : redis) : redis * nat :=
  let take r := Redis (<[active_key := batch_id]> (strs r)) (hashes r) in
  match strs r !! active_key with
  | None => (take r, 1%nat)
  | Some held =>
      let held_key := prefix +:+ held in
      match hashes r !! held_key with
      | None => (take r, 2%nat)
      | Some h =>
          if bool_decide (h !! "status" = Some (FStr "complete") \/ h !! "status" = Some (FStr "complete_with_errors"))
          then (take r, 2%nat)
          else if hget_int h "subjobs_completed" >=? hget_int h "subjobs_expected"
          then (take (phaze_promote held_key active_key held r), 2%nat)
          else (r, 0%nat)
      end
  end.

(** [_RELEASE_DISPATCH_LUA] *)
Definition release_dispatch (active_key batch_id : string) (r : redis) : redis :=
  if bool_decide (strs r !! active_key = Some batch_id) then Redis (delete active_key (strs r)) (hashes r) else r.

(** [_APPLY_INCREMENTS_LUA] *)
Definition apply_increments (key req_key active_key : string) (terminal : bool) (batch_id : string)
    (incs : list (string * Z)) (r : redis) : redis * Z :=
  let duplicate := bool_decide (is_Some (strs r !! req_key)) in
  match hashes r !! key with
  | None => (r, 0)
  | Some h =>
      let r1 := if duplicate then r
                else Redis (<[req_key := "1"%string]> (strs r)) (<[key := hincrby_all incs h]> (hashes r)) in
      let r2 := if terminal then phaze_promote key active_key batch_id r1 else r1 in
      (r2, if duplicate then -1 else 1)
  end.

(** ** The progress handler *)

Inductive terminal_step : Type := TCopied | TVerified | TDeleted | TFailed.
Inductive failed_at : Type := AtCopy | AtVerify | AtDelete.

(** [ExecBatchProgressPayload] *)
Record payload : Type := Payload {
  request_id : string;
  p_agent_id : string;
  p_terminal_step : terminal_step;
  failed_at_step : option failed_at;
  sub_batch_terminal : bool;
}.

Definition agent_field (agent_id what : string) : string := "agent:" +:+ agent_id +:+ ":" +:+ what.

Definition _compute_increments (body : payload) : list (string * Z) :=
  match p_terminal_step body with
  | TDeleted => [("copied", 1); ("verified", 1); ("deleted", 1); ("completed", 1);
                 (agent_field (p_agent_id body) "completed", 1)]
  | TVerified => [("copied", 1); ("verified", 1)]
  | TCopied => [("copied", 1)]
  | TFailed =>
      [("failed", 1); (agent_field (p_agent_id body) "failed", 1)] ++
      match failed_at_step body with
      | Some AtVerify => [("copied", 1)]
      | Some AtDelete => [("copied", 1); ("verified", 1)]
      | _ => []
      end
  end.

(** [post_exec_batch_progress]: the status code and the new state. *)
Definition post_exec_batch_progress (agent_id batch_id : string) (body : payload) (r : redis) : redis * Z :=
  if negb (bool_decide (p_agent_id body = agent_id)) then (r, 403)
  else
    let key := BATCH_KEY_PREFIX +:+ batch_id in
    let h := default ∅ (hashes r !! key) in
    if bool_decide (h !! "total" = None) then (r, 404)
    else if bool_decide (h !! agent_field agent_id "total" = None) then (r, 403)
    else
      let incs := _compute_increments body ++ (if sub_batch_terminal body then [("subjobs_completed"%string, 1)] else []) in
      ((apply_increments key (_REQ_PREFIX +:+ request_id body) ACTIVE_DISPATCH_KEY (sub_batch_terminal body) batch_id
          incs r).1, 200).

(** ** Planning a dispatch *)

Section plan.
Context {item : Type}.

Definition _CHUNK_SIZE : nat := 500.

Fixpoint chunks_from (fuel size : nat) (items : list item) : list (list item) :=
  match fuel with
  | O => []
  | S fuel' => match items with [] => [] | _ => take size items :: chunks_from fuel' size (drop size items) end
  end.

(** [\[items\[i : i + size\] for i in range(0, len(items), size)\]] *)
Definition chunk_proposals (size : nat) (items : list item) : list (list item) := chunks_from (length items) size items.

Record PendingChunk : Type := Pending { pc_agent : string; chunk_index : nat; chunk : list item }.

Abbreviation groups_t := (list (string * list item)).
Abbreviation plan_t := (list (string * list (list item))).

Definition _build_chunk_plan (groups : groups_t) : plan_t :=
  map (fun g => (g.1, chunk_proposals _CHUNK_SIZE g.2)) groups.

Definition _pending_chunks (plan : plan_t) : list PendingChunk :=
  flat_map (fun g => imap (fun i c => Pending g.1 i c) g.2) plan.

Record DispatchTally : Type := Tally { t_total : nat; t_subjobs_expected : nat; n_agents : nat }.

Definition _init_fields (groups : groups_t) (agent_names : gmap string string) (plan : plan_t) (tally : DispatchTally)
    (now : string) : hash :=
  let dispatch_summary :=
    map (fun g => (g.1, default g.1 (agent_names !! g.1), Z.of_nat (length (default [] (dict_get g.1 plan))),
                   Z.of_nat (length g.2))) groups in
  let fields := list_to_map
    [("total", FInt (Z.of_nat (t_total tally))); ("completed", FInt 0); ("failed", FInt 0); ("copied", FInt 0);
     ("verified", FInt 0); ("deleted", FInt 0); ("subjobs_completed", FInt 0);
     ("subjobs_expected", FInt (Z.of_nat (t_subjobs_expected tally))); ("status", FStr "running"); ("started_at", FStr now);
     ("dispatch_summary", FSummary dispatch_summary)] in
  fold_left (fun h (g : string * list item) =>
    <[agent_field g.1 "failed" := FInt 0]> (<[agent_field g.1 "completed" := FInt 0]>
      (<[agent_field g.1 "total" := FInt (Z.of_nat (length g.2))]> h))) groups fields.

End plan.
Arguments PendingChunk : clear implicits.

(** ** The protocol *)

Inductive DispatchOutcomeKind : Type := STARTED | PARTIAL | REFUSED | EMPTY.

Record DispatchOutcome : Type := Outcome {
  kind : DispatchOutcomeKind;
  d_total : nat;
  d_subjobs_expected : nat;
  undispatched : nat;
  d_status : string;
}.

Record EnqueueResult : Type := EnqResult { enqueued_ok : nat; undispatched_by_agent : list (string * nat) }.

Definition total_undispatched (r : EnqueueResult) : nat := sum_list (map snd (undispatched_by_agent r)).

Definition _dispatched (k : DispatchOutcomeKind) (tally : DispatchTally) (undisp : nat) (status : string) : DispatchOutcome :=
  Outcome k (t_total tally) (t_subjobs_expected tally) undisp status.

(** How one await ends: it returns, or raises with or without its effect. *)
Inductive fate : Type := FDone | FLost (applied : bool).

(** How one enqueue ends.  [EInterrupted] is an exception outside [Exception],
    a cancellation; [landed] says whether the broker committed the sub-job. *)
Inductive enq_fate : Type :=
| ELanded
| EAmbiguous (landed : bool)
| EFailed
| EInterrupted (landed : bool).

(** What other coroutines do meanwhile: a sub-job on the broker reports its
    [k]-th proposal, or another dispatch tries to claim the sentinel. *)
Inductive event : Type :=
| EvPost (sub k : nat) (step : terminal_step) (at_ : option failed_at)
| EvRival (batch : string).

Section protocol.
Context {item : Type}.
Context (batch_id now : string) (agent_names : gmap string string).
Context (events : nat -> list event) (fates : nat -> fate) (enq : nat -> enq_fate).

(** [rid sub k] is the request id the agent keeps for the [k]-th proposal of
    sub-job [sub]. *)
Context (rid : nat -> nat -> string).

Abbreviation unit_t := (PendingChunk item).
Abbreviation key := (BATCH_KEY_PREFIX +:+ batch_id).

(** [landed]: the sub-jobs on the broker, as positions in the pending list. *)
Record sys : Type := Sys { rd : redis; landed : gset nat; clock : nat; trace : list (redis * gset nat) }.

Definition body_of (pending : list unit_t) (sub k : nat) (step : terminal_step) (at_ : option failed_at) : option payload :=
  match pending !! sub with
  | Some pc => if bool_decide (k < length (chunk pc))%nat
               then Some (Payload (rid sub k) (pc_agent pc) step at_ (bool_decide (S k = length (chunk pc))))
               else None
  | None => None
  end.

Definition set_rd (r : redis) (s : sys) : sys := Sys r (landed s) (clock s) ((r, landed s) :: trace s).

Definition run_event (pending : list unit_t) (s : sys) (e : event) : sys :=
  match e with
  | EvPost sub k step at_ =>
      if bool_decide (sub ∈ landed s) then
        match body_of pending sub k step at_ with
        | Some body => set_rd (post_exec_batch_progress (p_agent_id body) batch_id body (rd s)).1 s
        | None => s
        end
      else s
  | EvRival batch =>
      if bool_decide (batch = batch_id) then s
      else set_rd (claim_dispatch ACTIVE_DISPATCH_KEY batch BATCH_KEY_PREFIX (rd s)).1 s
  end.

Definition others_run (pending : list unit_t) (s : sys) : sys :=
  let s' := fold_left (run_event pending) (events (clock s)) s in
  Sys (rd s') (landed s') (S (clock s)) (trace s').

(** One Redis call. *)
Definition call {A} (pending : list unit_t) (f : redis -> redis * A) (s : sys) : sys * outcome string A :=
  let s1 := others_run pending s in
  match fates (clock s) with
  | FDone => (set_rd (f (rd s1)).1 s1, Ok (f (rd s1)).2)
  | FLost applied => (if applied : bool then set_rd (f (rd s1)).1 s1 else s1, Raise "RedisError"%string)
  end.

Definition del (k : string) (r : redis) : redis * unit := (Redis (strs r) (delete k (hashes r)), ()).

Definition _seed_batch_hash (fields : hash) (r : redis) : redis * unit :=
  (Redis (strs r) (<[key := fields ∪ default ∅ (hashes r !! key)]> (hashes r)), ()).

Definition _claim_active_sentinel (pending : list unit_t) (s : sys) : sys * outcome string nat :=
  match call pending (claim_dispatch ACTIVE_DISPATCH_KEY batch_id BATCH_KEY_PREFIX) s with
  | (s', Ok n) => (s', Ok n)
  | (s', Raise e) => ((call pending (del key) s').1, Raise e)
  end.

(** The reconcile's pipeline. *)
Definition reconcile_fields (result : EnqueueResult) (r : redis) : redis * unit :=
  let h := default ∅ (hashes r !! key) in
  let h1 := <["subjobs_expected"%string := FInt (Z.of_nat (enqueued_ok result))]> h in
  let h2 := hincrby_all (map (fun u : string * nat => (agent_field u.1 "failed", Z.of_nat u.2)) (undispatched_by_agent result)) h1 in
  let h3 := hincrby h2 ("failed"%string, Z.of_nat (total_undispatched result)) in
  let h4 := if bool_decide (enqueued_ok result = 0%nat) then <["status"%string := FStr "complete_with_errors"]> h3 else h3 in
  (Redis (strs r) (<[key := h4]> (hashes r)), ()).

Definition _reconcile_undispatched (pending : list unit_t) (result : EnqueueResult) (s : sys) : sys * outcome string string :=
  match call pending (reconcile_fields result) s with
  | (s1, Raise e) => (s1, Raise e)
  | (s1, Ok _) =>
      if bool_decide (enqueued_ok result = 0%nat) then
        match call pending (fun r => (release_dispatch ACTIVE_DISPATCH_KEY batch_id r, ())) s1 with
        | (s2, Ok _) => (s2, Ok "complete_with_errors"%string)
        | (s2, Raise e) => (s2, Raise e)
        end
      else
        match call pending (fun r => (phaze_promote key ACTIVE_DISPATCH_KEY batch_id r, ())) s1 with
        | (s2, Ok _) => (s2, Ok "running"%string)
        | (s2, Raise e) => (s2, Raise e)
        end
  end.

Definition land (sub : nat) (s : sys) : sys := Sys (rd s) ({[sub]} ∪ landed s) (clock s) ((rd s, {[sub]} ∪ landed s) :: trace s).

(** One enqueue: [Ok] says whether the chunk counts inside
    [subjobs_expected]; [Raise] is an exception outside [Exception]. *)
Definition _enqueue_one_chunk (pending : list unit_t) (sub : nat) (s : sys) : sys * outcome string bool :=
  let s1 := others_run pending s in
  match enq sub with
  | ELanded => (land sub s1, Ok true)
  | EAmbiguous l => (if l : bool then land sub s1 else s1, Ok true)
  | EFailed => (s1, Ok false)
  | EInterrupted l => (if l : bool then land sub s1 else s1, Raise "CancelledError"%string)
  end.

Definition bump (agent : string) (n : nat) (d : list (string * nat)) : list (string * nat) :=
  dict_set agent (default 0%nat (dict_get agent d) + n)%nat d.

Definition bump_all (items : list unit_t) (d : list (string * nat)) : list (string * nat) :=
  fold_left (fun d p => bump (pc_agent p) (length (chunk p)) d) items d.

(** The loop over the pending list from position [attempted]. *)
Fixpoint enqueue_loop (pending : list unit_t) (attempted : nat) (rest : list unit_t) (ok : nat)
    (undisp : list (string * nat)) (s : sys) : sys * outcome string EnqueueResult :=
  match rest with
  | [] => (s, Ok (EnqResult ok undisp))
  | p :: rest' =>
      match _enqueue_one_chunk pending attempted s with
      | (s', Ok true) => enqueue_loop pending (S attempted) rest' (S ok) undisp s'
      | (s', Ok false) => enqueue_loop pending (S attempted) rest' ok (bump (pc_agent p) (length (chunk p)) undisp) s'
      | (s', Raise e) =>
          ((_reconcile_undispatched pending (EnqResult (S ok) (bump_all rest' undisp)) s').1, Raise e)
      end
  end.

Definition _enqueue_all_chunks (pending : list unit_t) (s : sys) : sys * outcome string EnqueueResult :=
  enqueue_loop pending 0 pending 0 [] s.

Definition dispatch_approved_batch (groups : list (string * list item)) (s : sys) : sys * outcome string DispatchOutcome :=
  let total := sum_list (map (fun g => length g.2) groups) in
  if bool_decide (length groups = 0)%nat then (s, Ok (_dispatched EMPTY (Tally total 0 0) 0 "running"))
  else
    let plan := _build_chunk_plan groups in
    let subjobs_expected := sum_list (map (fun g => length g.2) plan) in
    let tally := Tally total subjobs_expected (length groups) in
    let pending := _pending_chunks plan in
    match call pending (_seed_batch_hash (_init_fields groups agent_names plan tally now)) s with
    | (s1, Raise e) => (s1, Raise e)
    | (s1, Ok _) =>
        match _claim_active_sentinel pending s1 with
        | (s2, Raise e) => (s2, Raise e)
        | (s2, Ok O) =>
            match call pending (del key) s2 with
            | (s3, Ok _) => (s3, Ok (Outcome REFUSED total subjobs_expected 0 "running"))
            | (s3, Raise e) => (s3, Raise e)
            end
        | (s2, Ok _) =>
            match _enqueue_all_chunks pending s2 with
            | (s3, Raise e) => (s3, Raise e)
            | (s3, Ok result) =>
                if bool_decide (total_undispatched result = 0%nat) then (s3, Ok (_dispatched STARTED tally 0 "running"))
                else
                  match _reconcile_undispatched pending result s3 with
                  | (s4, Raise e) => (s4, Raise e)
                  | (s4, Ok status) =>
                      (s4, Ok (_dispatched PARTIAL (Tally total (enqueued_ok result) (length groups))
                                 (total_undispatched result) status))
                  end
            end
        end
    end.

End protocol.

(** ** Chunking *)

Lemma chunks_from_spec {item} size fuel : (0 < size)%nat -> forall items : list item, (length items <= fuel)%nat ->
  concat (chunks_from fuel size items) = items /\
  (forall i c, chunks_from fuel size items !! i = Some c ->
     (0 < length c <= size)%nat /\ (S i < length (chunks_from fuel size items) -> length c = size)%nat) /\
  length (chunks_from fuel size items) = ((length items + size - 1) / size)%nat.
Proof.
  intros Hs. induction fuel as [|fuel IH]; intros items Hlen.
  { destruct items; [|simpl in Hlen; lia]. simpl. split; [done|]. split; [done|]. symmetry. apply Nat.div_small. lia. }
  destruct items as [|x items].
  { simpl. split; [done|]. split; [done|]. symmetry. apply Nat.div_small. lia. }
  cbn [chunks_from]. set (l := x :: items) in *.
  destruct (IH (drop size l)) as (Hc & Hi & Hn); [rewrite length_drop; simpl in *; lia|].
  split; [cbn [concat]; rewrite Hc; apply take_drop|]. split.
  - intros [|i] c; simpl.
    + intros [= <-]. rewrite length_take. split; [simpl; lia|]. intros Hmore. rewrite Hn, length_drop in Hmore.
      destruct (decide (length l <= size)%nat) as [Hle|Hgt]; [|lia].
      rewrite Nat.div_small in Hmore; lia.
    + intros Hl. destruct (Hi i c Hl) as [H1 H2]. split; [done|]. intros Hlt. apply H2. lia.
  - simpl length at 1. rewrite Hn, length_drop.
    destruct (decide (length l <= size)%nat) as [Hle|Hgt].
    + rewrite Nat.div_small by lia. apply (Nat.div_unique _ _ 1 (length l - 1)); simpl in *; lia.
    + replace (length l + size - 1)%nat with ((length l - size + size - 1) + 1 * size)%nat by lia.
      rewrite Nat.div_add by lia. lia.
Qed.

(** Chunking.  [chunk_proposals] loses nothing and keeps the order; every
    chunk is non-empty and within the wire cap, only the last may be short, and
    there are ceil(N / size) of them. *)
Theorem chunk_proposals_partition {item} size (items : list item) :
  (0 < size)%nat ->
  concat (chunk_proposals size items) = items /\
  length (chunk_proposals size items) = ((length items + size - 1) / size)%nat /\
  forall i c, chunk_proposals size items !! i = Some c ->
    (0 < length c <= size)%nat /\ (S i < length (chunk_proposals size items) -> length c = size)%nat.
Proof.
  intros Hs. destruct (chunks_from_spec size (length items) Hs items (le_n _)) as (? & ? & ?). done.
Qed.

Lemma chunk_proposals_partition_witness : chunk_proposals 2 [1; 2; 3; 4; 5] = [[1; 2]; [3; 4]; [5]] /\
  concat (chunk_proposals 2 [1; 2; 3; 4; 5]) = [1; 2; 3; 4; 5].
Proof. split; [by vm_compute|]. apply (chunk_proposals_partition 2 [1; 2; 3; 4; 5]). lia. Defined.

(** ** A batch is over only when every sub-job on the broker has reported *)

Section over.
Context {item : Type}.
Context (batch_id : string) (pending : list (PendingChunk item)) (rid : nat -> nat -> string).

Abbreviation key := (BATCH_KEY_PREFIX +:+ batch_id).

(** The marker of a sub-job's terminal report. *)
Definition terminal_marker (sub : nat) : string :=
  _REQ_PREFIX +:+ rid sub (pred (length (default [] (chunk <$> pending !! sub)))).

Definition reported (r : redis) : gset nat :=
  filter (fun sub => is_Some (strs r !! terminal_marker sub)) (set_seq 0 (length pending)).

Definition status_over (h : hash) : Prop :=
  h !! "status" = Some (FStr "complete") \/ h !! "status" = Some (FStr "complete_with_errors").

(** The batch is terminal, or another dispatch may have taken the sentinel. *)
Definition over (r : redis) : Prop :=
  (exists h, hashes r !! key = Some h /\ status_over h) \/ strs r !! ACTIVE_DISPATCH_KEY <> Some batch_id.

Definition good (p : redis * gset nat) : Prop := over p.1 -> p.2 ⊆ reported p.1.

(** The counters of the batch while [E] sub-jobs are expected. *)
Record tracked (E : Z) (r : redis) (L : gset nat) : Prop := {
  tk_hash : exists h, hashes r !! key = Some h /\ hget_int h "subjobs_expected" = E /\
    hget_int h "subjobs_completed" = Z.of_nat (size (reported r));
  tk_over : over r -> E <= Z.of_nat (size (reported r));
  tk_landed : reported r ⊆ L;
}.

Definition covered (E : Z) (L : gset nat) : Prop := exists C : gset nat, L ⊆ C /\ Z.of_nat (size C) <= E.

Lemma tracked_good E r L : tracked E r L -> covered E L -> good (r, L).
Proof.
  intros [_ Ho Hl] (C & HC & Hsz) Hov. simpl in *. specialize (Ho Hov).
  assert (Heq : reported r = C).
  { apply set_eq.
    assert (HRC : reported r ⊆ C) by set_solver. intros x. split; [set_solver|]. intros Hx.
    destruct (decide (x ∈ reported r)) as [|Hn]; [done|]. exfalso.
    assert (size ({[x]} ∪ reported r) <= size C)%nat by (apply subseteq_size; set_solver).
    rewrite size_union, size_singleton in * by set_solver. lia. }
  by rewrite Heq.
Qed.

Lemma elem_of_reported r sub :
  sub ∈ reported r <-> is_Some (strs r !! terminal_marker sub) /\ (sub < length pending)%nat.
Proof. unfold reported. rewrite elem_of_filter, elem_of_set_seq. intuition lia. Qed.

(** Only the markers matter. *)
Lemma reported_frame r r' :
  (forall x, strs r' !! (_REQ_PREFIX +:+ x) = strs r !! (_REQ_PREFIX +:+ x)) -> reported r' = reported r.
Proof.
  intros Hs. apply set_eq. intros sub. rewrite !elem_of_reported. unfold terminal_marker. by rewrite Hs.
Qed.

Lemma marker_not_active x : _REQ_PREFIX +:+ x <> ACTIVE_DISPATCH_KEY.
Proof. done. Qed.

Lemma reported_active r v hs : reported (Redis (<[ACTIVE_DISPATCH_KEY := v]> (strs r)) hs) = reported r.
Proof. apply reported_frame. intros x. simpl. by rewrite lookup_insert_ne. Qed.

Lemma reported_no_active r hs : reported (Redis (delete ACTIVE_DISPATCH_KEY (strs r)) hs) = reported r.
Proof. apply reported_frame. intros x. simpl. by rewrite lookup_delete_ne. Qed.

Lemma reported_hashes r hs : reported (Redis (strs r) hs) = reported r.
Proof. by apply reported_frame. Qed.

Lemma string_app_inj (p a b : string) : p +:+ a = p +:+ b -> a = b.
Proof. induction p as [|x p IH]; simpl; [done|]. intros [= H]. by apply IH. Qed.

Lemma hget_status h f v : f <> "status"%string -> hget_int (<["status"%string := v]> h) f = hget_int h f.
Proof. intros Hf. unfold hget_int. by rewrite lookup_insert_ne. Qed.

Lemma tracked_promote E r L : tracked E r L -> tracked E (phaze_promote key ACTIVE_DISPATCH_KEY batch_id r) L.
Proof.
  intros [(h & Hh & Hse & Hsc) Ho Hl]. unfold phaze_promote. rewrite Hh, Hse, Hsc.
  destruct (_ <? _) eqn:Hlt; [by constructor; [exists h|..]|]. bool_prop.
  set (v := FStr _). unfold release_active.
  assert (Hrep : forall ss, (ss = strs r \/ ss = delete ACTIVE_DISPATCH_KEY (strs r)) -> forall hs, reported (Redis ss hs) = reported r).
  { intros ss [-> | ->] hs; [apply reported_hashes|apply reported_no_active]. }
  case_bool_decide; simpl; constructor; rewrite ?Hrep by auto; try done;
    exists (<["status"%string := v]> h); simpl; rewrite lookup_insert_eq, !hget_status by done; rewrite ?Hrep by auto; done.
Qed.

(** A batch's hash is touched by nobody else's promotion. *)
Lemma promote_other r k active held : k <> key -> hashes (phaze_promote k active held r) !! key = hashes r !! key.
Proof.
  intros Hk. unfold phaze_promote. destruct (hashes r !! k) as [h|]; [|done]. destruct (_ <? _); [done|].
  unfold release_active. case_bool_decide; simpl; by rewrite lookup_insert_ne.
Qed.

Lemma promote_reported r k held : reported (phaze_promote k ACTIVE_DISPATCH_KEY held r) = reported r.
Proof.
  unfold phaze_promote. destruct (hashes r !! k) as [h|]; [|done]. destruct (_ <? _); [done|].
  unfold release_active. case_bool_decide; simpl; [by rewrite reported_no_active|by rewrite reported_hashes].
Qed.

Lemma over_status_frame r r' :
  hashes r' !! key = hashes r !! key ->
  (strs r' !! ACTIVE_DISPATCH_KEY <> Some batch_id -> strs r !! ACTIVE_DISPATCH_KEY <> Some batch_id \/ False) ->
  over r' -> over r.
Proof. intros Hh Hs [(h & Hk & Hst)|Ha]; [left; exists h; by rewrite <- Hh|]. right. destruct (Hs Ha); done. Qed.

(** A rival's claim takes the sentinel only from a batch that is over. *)
Lemma tracked_rival E r L rival :
  rival <> batch_id -> tracked E r L ->
  tracked E (claim_dispatch ACTIVE_DISPATCH_KEY rival BATCH_KEY_PREFIX r).1 L.
Proof.
  intros Hne Ht. pose proof Ht as [(h & Hh & Hse & Hsc) Ho Hl].
  assert (Htake : forall r1, tracked E r1 L -> (over r1 \/ E <= Z.of_nat (size (reported r1))) ->
    tracked E (Redis (<[ACTIVE_DISPATCH_KEY := rival]> (strs r1)) (hashes r1)) L).
  { intros r1 [Hh1 Ho1 Hl1] Hov. constructor; rewrite reported_active; try done. intros _. destruct Hov; auto. }
  unfold claim_dispatch. destruct (strs r !! ACTIVE_DISPATCH_KEY) as [held|] eqn:Hheld; simpl.
  2: { apply Htake; [done|]. left. right. congruence. }
  destruct (decide (held = batch_id)) as [->|Hb].
  - rewrite Hh. case_bool_decide as Hst; simpl; [apply Htake; [done|]; left; left; by exists h|].
    destruct (_ >=? _) eqn:Hge; simpl; [|done]. rewrite Z.geb_leb in Hge. bool_prop.
    apply Htake; [by apply tracked_promote|]. right. rewrite promote_reported. lia.
  - assert (Hov : over r) by (right; congruence).
    assert (Hk : BATCH_KEY_PREFIX +:+ held <> key) by (intros Heq%string_app_inj; done).
    destruct (hashes r !! (BATCH_KEY_PREFIX +:+ held)) as [h'|]; simpl; [|apply Htake; auto].
    case_bool_decide; simpl; [apply Htake; auto|]. destruct (_ >=? _); simpl; [|done].
    apply Htake; [|right; rewrite promote_reported; auto].
    constructor; rewrite promote_reported; [|auto..]. exists h. by rewrite promote_other.
Qed.

Context (rid_inj : forall s k s' k', rid s k = rid s' k' -> s = s' /\ k = k').

(** *** A report *)

Lemma hincrby_all_ne incs f h : (forall inc, inc ∈ incs -> inc.1 <> f) -> hincrby_all incs h !! f = h !! f.
Proof.
  unfold hincrby_all. revert h. induction incs as [|inc incs IH]; intros h Hne; [done|]. simpl.
  rewrite IH by (intros; apply Hne; by right). unfold hincrby. rewrite lookup_insert_ne; [done|]. apply Hne. by left.
Qed.

Lemma increments_fields body inc :
  inc ∈ _compute_increments body ->
  inc.1 <> "status"%string /\ inc.1 <> "subjobs_expected"%string /\ inc.1 <> "subjobs_completed"%string.
Proof.
  assert (Hall : Forall (fun inc : string * Z => inc.1 <> "status"%string /\ inc.1 <> "subjobs_expected"%string /\
                                       inc.1 <> "subjobs_completed"%string) (_compute_increments body)).
  { unfold _compute_increments. destruct (p_terminal_step body); [repeat constructor; done..|].
    destruct (failed_at_step body) as [[]|]; repeat constructor; done. }
  rewrite Forall_forall in Hall. apply Hall.
Qed.

Definition all_increments (body : payload) : list (string * Z) :=
  _compute_increments body ++ (if sub_batch_terminal body then [("subjobs_completed"%string, 1)] else []).

Lemma hget_int_eq h h' f : h !! f = h' !! f -> hget_int h f = hget_int h' f.
Proof. intros Hf. unfold hget_int. by rewrite Hf. Qed.

Lemma increments_counters body h :
  hincrby_all (all_increments body) h !! "status"%string = h !! "status"%string /\
  hget_int (hincrby_all (all_increments body) h) "subjobs_expected" = hget_int h "subjobs_expected" /\
  hget_int (hincrby_all (all_increments body) h) "subjobs_completed" =
    hget_int h "subjobs_completed" + (if sub_batch_terminal body then 1 else 0).
Proof.
  unfold all_increments, hincrby_all. rewrite fold_left_app. fold (hincrby_all (_compute_increments body) h).
  assert (Hk : forall f, f = "status"%string \/ f = "subjobs_expected"%string \/ f = "subjobs_completed"%string ->
    hincrby_all (_compute_increments body) h !! f = h !! f).
  { intros f Hf. apply hincrby_all_ne. intros inc Hin%increments_fields. intros <-. tauto. }
  destruct (sub_batch_terminal body); simpl; unfold hincrby; simpl.
  - split; [rewrite lookup_insert_ne by done; auto|]. split.
    + rewrite <- (hget_int_eq (hincrby_all (_compute_increments body) h) h) by auto. apply hget_int_eq.
      by rewrite lookup_insert_ne.
    + unfold hget_int at 1. rewrite lookup_insert_eq. by rewrite (hget_int_eq _ h) by auto.
  - split; [auto|]. split; [apply hget_int_eq; auto|]. rewrite (hget_int_eq _ h) by auto. lia.
Qed.

Lemma terminal_marker_eq sub pc : pending !! sub = Some pc ->
  terminal_marker sub = _REQ_PREFIX +:+ rid sub (pred (length (chunk pc))).
Proof. intros Hp. unfold terminal_marker. by rewrite Hp. Qed.

(** A fresh marker reports its own sub-job, when the proposal is its last. *)
Lemma reported_marker r hs sub k pc :
  pending !! sub = Some pc -> (k < length (chunk pc))%nat -> strs r !! (_REQ_PREFIX +:+ rid sub k) = None ->
  let r' := Redis (<[_REQ_PREFIX +:+ rid sub k := "1"%string]> (strs r)) hs in
  (sub ∉ reported r \/ S k <> length (chunk pc)) /\
  reported r' = if bool_decide (S k = length (chunk pc)) then {[sub]} ∪ reported r else reported r.
Proof using rid_inj.
  intros Hp Hk Hfree r'.
  assert (Hmk : forall x, (x < length pending)%nat -> terminal_marker x = _REQ_PREFIX +:+ rid sub k <-> x = sub /\ S k = length (chunk pc)).
  { intros x Hx. unfold terminal_marker. split.
    - intros Heq%string_app_inj. apply rid_inj in Heq as [-> Heq]. rewrite Hp in Heq. simpl in Heq. split; [done|lia].
    - intros [-> Heq]. rewrite Hp. simpl. f_equal. f_equal. lia. }
  pose proof (lookup_lt_Some _ _ _ Hp) as Hlt. split.
  - destruct (decide (S k = length (chunk pc))) as [Heq|]; [left|by right]. rewrite elem_of_reported.
    rewrite (proj2 (Hmk sub Hlt)) by done. rewrite Hfree. intros [[? ?] _]. done.
  - apply set_eq. intros x. subst r'. destruct (decide (x < length pending)%nat) as [Hx|Hx].
    2: { case_bool_decide; rewrite ?elem_of_union, !elem_of_reported, ?elem_of_singleton; [|tauto].
         split; [tauto|]. intros [->|?]; tauto. }
    case_bool_decide as Heq; rewrite ?elem_of_union, !elem_of_reported, ?elem_of_singleton; simpl.
    + destruct (decide (x = sub)) as [->|Hne].
      * rewrite (proj2 (Hmk sub Hlt)) by done. rewrite lookup_insert_eq. split; [by left|]. intros _. split; [by eexists|done].
      * rewrite lookup_insert_ne; [tauto|]. intros Hk2. symmetry in Hk2. apply Hmk in Hk2 as [? _]; [done|lia].
    + rewrite lookup_insert_ne; [done|]. intros Hk2. symmetry in Hk2. apply Hmk in Hk2 as [_ ?]; [done|lia].
Qed.

Lemma tracked_post E r L sub k step at_ body :
  sub ∈ L -> body_of rid pending sub k step at_ = Some body -> tracked E r L ->
  tracked E (post_exec_batch_progress (p_agent_id body) batch_id body r).1 L.
Proof using rid_inj.
  intros HL Hb Ht. unfold post_exec_batch_progress. rewrite bool_decide_eq_true_2 by done. simpl.
  case_bool_decide; [done|]. case_bool_decide; [done|]. simpl. fold (all_increments body).
  unfold body_of in Hb. destruct (pending !! sub) as [pc|] eqn:Hp; [|done].
  case_bool_decide as Hk; [|done]. injection Hb as <-. unfold apply_increments. simpl.
  pose proof Ht as [(h & Hh & Hse & Hsc) Ho Hl]. rewrite Hh.
  set (body := Payload _ _ _ _ _).
  destruct (decide (is_Some (strs r !! (_REQ_PREFIX +:+ rid sub k)))) as [Hdup|Hdup];
    [rewrite (bool_decide_eq_true_2 _ Hdup)|rewrite (bool_decide_eq_false_2 _ Hdup)].
  { destruct (bool_decide (S k = _)); simpl; [by apply tracked_promote|done]. }
  apply eq_None_not_Some in Hdup.
  destruct (reported_marker r (<[key := hincrby_all (all_increments body) h]> (hashes r)) sub k pc Hp Hk Hdup) as [Hfresh Hrep].
  destruct (increments_counters body h) as (Hst & He & Hc).
  set (r1 := Redis _ _) in Hrep.
  assert (H1 : tracked E r1 L).
  { assert (Hsz : Z.of_nat (size (reported r1)) = Z.of_nat (size (reported r)) + (if sub_batch_terminal body then 1 else 0)).
    { rewrite Hrep. simpl. case_bool_decide; [|lia]. rewrite size_union, size_singleton by (destruct Hfresh; set_solver). lia. }
    constructor.
    - exists (hincrby_all (all_increments body) h). simpl. rewrite lookup_insert_eq. split; [done|].
      split; [by rewrite He|]. rewrite Hc, Hsc. lia.
    - intros Hov. assert (Hovr : over r); [|specialize (Ho Hovr); destruct (sub_batch_terminal body); lia].
      destruct Hov as [(h' & Hk' & Hst')|Ha].
      + left. exists h. split; [done|]. simpl in Hk'. rewrite lookup_insert_eq in Hk'. injection Hk' as <-.
        unfold status_over in *. by rewrite Hst in Hst'.
      + right. simpl in Ha. by rewrite lookup_insert_ne in Ha.
    - rewrite Hrep. case_bool_decide; set_solver. }
  case_bool_decide; simpl; [by apply tracked_promote|done].
Qed.

(** *** Runs *)

Context (events : nat -> list event) (fates : nat -> fate) (enq : nat -> enq_fate).

Record inv (E : Z) (s : sys) : Prop := {
  inv_tracked : tracked E (rd s) (landed s);
  inv_covered : covered E (landed s);
  inv_trace : Forall good (trace s);
}.

Lemma inv_set_rd E E' s r : inv E s -> tracked E' r (landed s) -> covered E' (landed s) -> inv E' (set_rd r s).
Proof. intros [_ _ Htr] Ht Hc. constructor; simpl; try done. constructor; [by eapply tracked_good|done]. Qed.

Lemma inv_event E s e : inv E s ->
  inv E (run_event batch_id rid pending s e) /\ landed (run_event batch_id rid pending s e) = landed s.
Proof using rid_inj.
  intros Hi. pose proof Hi as [Ht Hc Htr]. destruct e as [sub k step at_|rival]; simpl.
  - case_bool_decide as Hs; [|done]. destruct (body_of rid pending sub k step at_) as [body|] eqn:Hb; [|done].
    split; [|done]. eapply inv_set_rd; [done| |done]. by eapply tracked_post.
  - case_bool_decide; [done|]. split; [|done]. eapply inv_set_rd; [done| |done]. by apply tracked_rival.
Qed.

Lemma inv_others E s : inv E s ->
  inv E (others_run batch_id events rid pending s) /\ landed (others_run batch_id events rid pending s) = landed s.
Proof using rid_inj.
  unfold others_run. generalize (events (clock s)). intros l.
  assert (Hl : forall s, inv E s -> inv E (fold_left (run_event batch_id rid pending) l s) /\
    landed (fold_left (run_event batch_id rid pending) l s) = landed s).
  { induction l as [|e l IH]; intros s0 H0; simpl; [done|]. destruct (inv_event E s0 e H0) as [H1 H2].
    destruct (IH _ H1) as [H3 H4]. split; [done|]. by rewrite H4. }
  intros Hi. destruct (Hl s Hi) as [[] ?]. by split; [constructor|].
Qed.

Lemma call_inv {A} E E' (f : redis -> redis * A) s :
  inv E s -> covered E' (landed s) ->
  (forall r, tracked E r (landed s) -> tracked E' (f r).1 (landed s)) ->
  let res := call batch_id events fates rid pending f s in
  landed res.1 = landed s /\ match res.2 with Ok _ => inv E' res.1 | Raise _ => exists E'', inv E'' res.1 end.
Proof using rid_inj.
  intros Hi Hc Hf. unfold call. destruct (inv_others E s Hi) as [H1 HL].
  assert (H2 : inv E' (set_rd (f (rd (others_run batch_id events rid pending s))).1 (others_run batch_id events rid pending s))).
  { eapply inv_set_rd; [done| |by rewrite HL]. rewrite HL. apply Hf. rewrite <- HL. apply H1. }
  destruct (fates (clock s)) as [|[]]; simpl; (split; [done|]); [done|by exists E'|by exists E].
Qed.

Lemma tracked_weaken E r L L' : tracked E r L -> L ⊆ L' -> tracked E r L'.
Proof. intros [Hh Ho Hl] HL. constructor; [done|done|]. by etransitivity. Qed.

Definition n_jobs : Z := Z.of_nat (length pending).

(** The loop at position [i], [ok] chunks counted. *)
Definition loop_inv (i ok : nat) (s : sys) : Prop :=
  inv n_jobs s /\ exists C : gset nat, landed s ⊆ C /\ C ⊆ set_seq 0 i /\ size C = ok.

Lemma enqueue_one_inv i ok s :
  (i < length pending)%nat -> loop_inv i ok s ->
  let res := _enqueue_one_chunk batch_id events enq rid pending i s in
  match res.2 with
  | Ok true | Raise _ => loop_inv (S i) (S ok) res.1
  | Ok false => loop_inv (S i) ok res.1
  end.
Proof using rid_inj fates.
  intros Hi [Hinv (C & HC & Hseq & Hsz)]. destruct (inv_others n_jobs s Hinv) as [H1 HL].
  set (s1 := others_run batch_id events rid pending s) in *.
  assert (Hfresh : i ∉ C) by (intros Hin%Hseq%elem_of_set_seq; lia).
  assert (Hseq' : C ⊆ set_seq 0 (S i)) by (intros x Hx%Hseq; apply elem_of_set_seq in Hx; apply elem_of_set_seq; lia).
  assert (HS : {[i]} ∪ C ⊆ set_seq 0 (S i)).
  { intros x [->%elem_of_singleton|Hx]%elem_of_union; [apply elem_of_set_seq; lia|by apply Hseq']. }
  assert (Hsize : size ({[i]} ∪ C) = S ok) by (rewrite size_union, size_singleton by set_solver; lia).
  assert (Hstay : loop_inv (S i) (S ok) s1).
  { split; [done|]. exists ({[i]} ∪ C). split; [rewrite HL; set_solver|done]. }
  assert (Hland : loop_inv (S i) (S ok) (land i s1)).
  { assert (Ht : tracked n_jobs (rd s1) ({[i]} ∪ landed s1)) by (eapply tracked_weaken; [apply H1|set_solver]).
    assert (Hcov : covered n_jobs ({[i]} ∪ landed s1)).
    { exists ({[i]} ∪ C). split; [rewrite HL; set_solver|]. unfold n_jobs.
      assert (size ({[i]} ∪ C) <= length pending)%nat; [|lia].
      rewrite <- (size_set_seq (C := gset nat) 0 (length pending)). apply subseteq_size.
      intros x Hx%HS. apply elem_of_set_seq in Hx. apply elem_of_set_seq. lia. }
    split; [|exists ({[i]} ∪ C); split; [change (landed (land i s1)) with ({[i]} ∪ landed s1); rewrite HL; set_solver|done]].
    constructor; [done|done|]. simpl. constructor; [by eapply tracked_good|apply H1]. }
  unfold _enqueue_one_chunk. fold s1. destruct (enq i) as [|[]| |[]]; simpl; try done.
  split; [done|]. exists C. by rewrite HL.
Qed.

Lemma reconcile_fields_tracked result r L :
  (enqueued_ok result <= length pending)%nat ->
  tracked n_jobs r L -> tracked (Z.of_nat (enqueued_ok result)) (reconcile_fields batch_id result r).1 L.
Proof.
  intros Hle [(h & Hh & Hse & Hsc) Ho Hl]. unfold reconcile_fields. rewrite Hh. simpl.
  set (h2 := hincrby_all _ _).
  assert (Hag : forall f, f <> "subjobs_expected"%string -> f = "status"%string \/ f = "subjobs_completed"%string -> h2 !! f = h !! f).
  { intros f Hf Hf2. unfold h2. rewrite hincrby_all_ne.
    - by rewrite lookup_insert_ne.
    - intros inc ([a n] & -> & _)%list_elem_of_fmap. simpl. by destruct Hf2 as [-> | ->]. }
  assert (Hse2 : hget_int h2 "subjobs_expected" = Z.of_nat (enqueued_ok result)).
  { unfold h2, hget_int. rewrite hincrby_all_ne, lookup_insert_eq; [done|].
    intros inc ([a n] & -> & _)%list_elem_of_fmap. done. }
  set (h3 := hincrby h2 _).
  assert (H3 : forall f, f <> "failed"%string -> h3 !! f = h2 !! f) by (intros f Hf; unfold h3, hincrby; by rewrite lookup_insert_ne).
  match goal with |- context [if ?b then ?x else h3] => set (h4 := if b then x else h3) end.
  assert (H4 : forall f, f <> "failed"%string -> f <> "status"%string -> h4 !! f = h2 !! f).
  { intros f Hf Hf2. unfold h4. case_bool_decide; [rewrite lookup_insert_ne by done|]; auto. }
  constructor; rewrite reported_hashes; [| |done].
  - exists h4. simpl. rewrite lookup_insert_eq. split; [done|]. rewrite !(hget_int_eq h4 h2) by (by apply H4).
    split; [done|]. rewrite (hget_int_eq h2 h); [done|]. apply Hag; auto.
  - destruct (decide (enqueued_ok result = 0%nat)) as [Hz|Hz]; [lia|].
    intros Hov. assert (Hovr : over r); [|specialize (Ho Hovr); unfold n_jobs in Ho; lia].
    destruct Hov as [(h' & Hk & Hst)|Ha]; [left|by right]. exists h. split; [done|].
    simpl in Hk. rewrite lookup_insert_eq in Hk. injection Hk as <-. unfold status_over in *.
    assert (Heq : h4 !! "status"%string = h !! "status"%string).
    { unfold h4. rewrite bool_decide_eq_false_2 by done. rewrite H3 by done. apply Hag; auto. }
    by rewrite Heq in Hst.
Qed.

Lemma covered_of s (C : gset nat) ok : landed s ⊆ C -> size C = ok -> covered (Z.of_nat ok) (landed s).
Proof. intros HC <-. by exists C. Qed.

Lemma reconcile_inv result s :
  loop_inv (length pending) (enqueued_ok result) s ->
  exists E, inv E (_reconcile_undispatched batch_id events fates rid pending result s).1.
Proof using rid_inj.
  intros [Hinv (C & HC & Hseq & Hsz)].
  assert (Hle : (enqueued_ok result <= length pending)%nat).
  { rewrite <- Hsz, <- (size_set_seq (C := gset nat) 0 (length pending)). by apply subseteq_size. }
  pose proof (covered_of s C _ HC Hsz) as Hcov.
  destruct (call_inv _ _ (reconcile_fields batch_id result) s Hinv Hcov
    (fun r => reconcile_fields_tracked result r (landed s) Hle)) as [HL1 H1].
  unfold _reconcile_undispatched. destruct (call _ _ _ _ _ (reconcile_fields batch_id result) s) as [s1 [u|e]]; simpl in *; [|done].
  rewrite <- HL1 in Hcov. case_bool_decide as Hz.
  - destruct (call_inv _ _ (fun r => (release_dispatch ACTIVE_DISPATCH_KEY batch_id r, ())) s1 H1 Hcov) as [_ H2].
    { intros r [(h & Hh & Hse & Hsc) Ho Hl]. unfold release_dispatch. case_bool_decide; simpl; [|constructor; [by exists h|done|done]].
      constructor; rewrite reported_no_active; [by exists h|lia|done]. }
    destruct (call _ _ _ _ _ _ s1) as [s2 [?|?]]; simpl in *; [by eexists|done].
  - destruct (call_inv _ _ (fun r => (phaze_promote key ACTIVE_DISPATCH_KEY batch_id r, ())) s1 H1 Hcov) as [_ H2].
    { intros r. apply tracked_promote. }
    destruct (call _ _ _ _ _ _ s1) as [s2 [?|?]]; simpl in *; [by eexists|done].
Qed.

Lemma loop_inv_widen i ok s : (i <= length pending)%nat -> loop_inv i ok s -> loop_inv (length pending) ok s.
Proof.
  intros Hi [Hinv (C & HC & Hseq & Hsz)]. split; [done|]. exists C. split; [done|]. split; [|done].
  intros x Hx%Hseq. apply elem_of_set_seq in Hx. apply elem_of_set_seq. lia.
Qed.

Lemma enqueue_loop_inv rest : forall i ok undisp s,
  (i + length rest = length pending)%nat -> loop_inv i ok s ->
  let res := enqueue_loop batch_id events fates enq rid pending i rest ok undisp s in
  match res.2 with Ok r => loop_inv (length pending) (enqueued_ok r) res.1 | Raise _ => exists E, inv E res.1 end.
Proof using rid_inj.
  induction rest as [|p rest IH]; intros i ok undisp s Hlen Hi; simpl in *.
  - by replace (length pending) with i by lia.
  - pose proof (enqueue_one_inv i ok s ltac:(lia) Hi) as H1.
    destruct (_enqueue_one_chunk batch_id events enq rid pending i s) as [s' [[]|e]]; simpl in H1.
    + apply IH; [lia|done].
    + apply IH; [lia|done].
    + simpl. apply reconcile_inv. simpl. by eapply loop_inv_widen; [|exact H1]; lia.
Qed.

(** *** Before the claim *)

Record fresh (s : sys) : Prop := {
  fr_landed : landed s = ∅;
  fr_reported : reported (rd s) = ∅;
  fr_active : strs (rd s) !! ACTIVE_DISPATCH_KEY <> Some batch_id;
  fr_trace : Forall good (trace s);
}.

Lemma good_empty r : good (r, ∅).
Proof. intros _. simpl. apply empty_subseteq. Qed.

Lemma claim_others r b : b <> batch_id ->
  strs r !! ACTIVE_DISPATCH_KEY <> Some batch_id ->
  let r' := (claim_dispatch ACTIVE_DISPATCH_KEY b BATCH_KEY_PREFIX r).1 in
  reported r' = reported r /\ strs r' !! ACTIVE_DISPATCH_KEY <> Some batch_id /\ hashes r' !! key = hashes r !! key.
Proof.
  intros Hb Ha. unfold claim_dispatch.
  assert (Htake : forall r1, reported r1 = reported r -> hashes r1 !! key = hashes r !! key ->
    let r' := Redis (<[ACTIVE_DISPATCH_KEY := b]> (strs r1)) (hashes r1) in
    reported r' = reported r /\ strs r' !! ACTIVE_DISPATCH_KEY <> Some batch_id /\ hashes r' !! key = hashes r !! key).
  { intros r1 H1 H2. simpl. rewrite reported_active, lookup_insert_eq. split; [done|]. split; [congruence|done]. }
  destruct (strs r !! ACTIVE_DISPATCH_KEY) as [held|] eqn:Hheld; simpl; [|by apply Htake].
  destruct (hashes r !! (BATCH_KEY_PREFIX +:+ held)) as [h|]; simpl; [|by apply Htake].
  case_bool_decide; simpl; [by apply Htake|]. destruct (_ >=? _); simpl; [|by rewrite Hheld].
  apply Htake; [apply promote_reported|]. apply promote_other. intros Heq%string_app_inj. congruence.
Qed.

Lemma fresh_set_rd s r : fresh s -> reported r = reported (rd s) -> strs r !! ACTIVE_DISPATCH_KEY <> Some batch_id ->
  fresh (set_rd r s).
Proof.
  intros [HL Hr Ha Ht] H1 H2. constructor; simpl; [done|congruence|done|]. rewrite HL.
  constructor; [apply good_empty|done].
Qed.

Lemma fresh_others s : fresh s ->
  fresh (others_run batch_id events rid pending s) /\
  hashes (rd (others_run batch_id events rid pending s)) !! key = hashes (rd s) !! key.
Proof.
  unfold others_run. generalize (events (clock s)). intros l.
  assert (Hl : forall s, fresh s -> fresh (fold_left (run_event batch_id rid pending) l s) /\
    hashes (rd (fold_left (run_event batch_id rid pending) l s)) !! key = hashes (rd s) !! key).
  { induction l as [|e l IH]; intros s0 H0; simpl; [done|].
    assert (H1 : fresh (run_event batch_id rid pending s0 e) /\
      hashes (rd (run_event batch_id rid pending s0 e)) !! key = hashes (rd s0) !! key).
    { destruct e as [sub k step at_|rival]; simpl.
      - rewrite (fr_landed _ H0). rewrite bool_decide_eq_false_2 by apply not_elem_of_empty. done.
      - case_bool_decide as Hb; [done|]. destruct (claim_others (rd s0) rival Hb (fr_active _ H0)) as (? & ? & ?).
        split; [by apply fresh_set_rd|done]. }
    destruct H1 as [H1 H2], (IH _ (proj1 (conj H1 H2))) as [H3 H4]. split; [done|]. by rewrite H4. }
  intros Hi. destruct (Hl s Hi) as [[] ?]. by split; [constructor|].
Qed.

Lemma fresh_call {A} (f : redis -> redis * A) s :
  fresh s ->
  (forall r, reported r = ∅ -> strs r !! ACTIVE_DISPATCH_KEY <> Some batch_id ->
     reported (f r).1 = reported r /\ strs (f r).1 !! ACTIVE_DISPATCH_KEY <> Some batch_id) ->
  let res := call batch_id events fates rid pending f s in
  fresh res.1 /\ (is_ok res.2 = true -> exists r, rd res.1 = (f r).1 /\ hashes r !! key = hashes (rd s) !! key).
Proof.
  intros Hs Hf. unfold call. destruct (fresh_others s Hs) as [H1 Hh].
  set (s1 := others_run batch_id events rid pending s) in *.
  destruct (Hf (rd s1) (fr_reported _ H1) (fr_active _ H1)) as [Hr Ha].
  assert (H2 : fresh (set_rd (f (rd s1)).1 s1)) by (by apply fresh_set_rd).
  destruct (fates (clock s)) as [|[]]; simpl; (split; [done|]); intros ?; try done. by exists (rd s1).
Qed.

(** Nothing on the broker: nothing to report. *)
Lemma idle_events l : forall s, landed s = ∅ -> Forall good (trace s) ->
  landed (fold_left (run_event batch_id rid pending) l s) = ∅ /\
  Forall good (trace (fold_left (run_event batch_id rid pending) l s)).
Proof.
  induction l as [|e l IH]; intros s3 HL3 Ht3; simpl; [done|]. apply IH; destruct e as [sub k step at_|rival]; simpl;
    rewrite ?HL3; rewrite ?(bool_decide_eq_false_2 (sub ∈ _)) by apply not_elem_of_empty; try done; case_bool_decide; try done; simpl;
    try (rewrite HL3; constructor; [apply good_empty|done]).
Qed.

(** Refused without a change, or taken on counters nobody touched. *)
Lemma claim_shape r fields :
  strs r !! ACTIVE_DISPATCH_KEY <> Some batch_id -> hashes r !! key = Some fields ->
  let res := claim_dispatch ACTIVE_DISPATCH_KEY batch_id BATCH_KEY_PREFIX r in
  res = (r, 0%nat) \/
  exists r1 n, res = (Redis (<[ACTIVE_DISPATCH_KEY := batch_id]> (strs r1)) (hashes r1), S n) /\
    reported r1 = reported r /\ hashes r1 !! key = Some fields.
Proof.
  intros Ha Hh. unfold claim_dispatch.
  destruct (strs r !! ACTIVE_DISPATCH_KEY) as [held|] eqn:Hheld; simpl; [|right; by exists r, 0%nat].
  destruct (hashes r !! (BATCH_KEY_PREFIX +:+ held)) as [h|]; simpl; [|right; by exists r, 1%nat].
  case_bool_decide; simpl; [right; by exists r, 1%nat|]. destruct (_ >=? _); simpl; [right|by left].
  eexists _, 1%nat. split; [done|]. split; [apply promote_reported|].
  rewrite promote_other; [done|]. intros Heq%string_app_inj. congruence.
Qed.

(** The claim: refused or failed with nothing on the broker, or the batch's
    counters start with the planned number of sub-jobs. *)
Lemma claim_start (fields : hash) s :
  fresh s -> hashes (rd s) !! key = Some fields -> hget_int fields "subjobs_expected" = n_jobs ->
  hget_int fields "subjobs_completed" = 0 -> fields !! "status"%string = Some (FStr "running") ->
  let res := _claim_active_sentinel batch_id events fates rid pending s in
  match res.2 with
  | Ok (S _) => loop_inv 0 0 res.1
  | Ok O => fresh res.1
  | Raise _ => landed res.1 = ∅ /\ Forall good (trace res.1)
  end.
Proof.
  intros Hs Hh Hse Hsc Hst. unfold _claim_active_sentinel.
  destruct (call batch_id events fates rid pending (claim_dispatch ACTIVE_DISPATCH_KEY batch_id BATCH_KEY_PREFIX) s)
    as [sc res] eqn:Hcl. unfold call in Hcl. destruct (fresh_others s Hs) as [H1 Hh1].
  set (s1 := others_run batch_id events rid pending s) in *.
  assert (Htrace : forall r, Forall good (trace (set_rd r s1))).
  { intros r. change (trace (set_rd r s1)) with ((r, landed s1) :: trace s1). rewrite (fr_landed _ H1). constructor; [apply good_empty|apply H1]. }
  assert (Hdel : forall s2, landed s2 = ∅ -> Forall good (trace s2) ->
    let s3 := (call batch_id events fates rid pending (del key) s2).1 in landed s3 = ∅ /\ Forall good (trace s3)).
  { intros s2 HL Ht. destruct (idle_events (events (clock s2)) s2 HL Ht) as [HL4 Ht4].
    unfold call, others_run. destruct (fates (clock s2)) as [|[]]; simpl; (split; [done|]); try done;
      (rewrite HL4; constructor; [apply good_empty|done]). }
  destruct (fates (clock s)) as [|applied]; injection Hcl as <- <-.
  2: { cbn [fst snd]. destruct applied; apply Hdel; try apply H1; apply Htrace. }
  assert (Hclaim : forall r1, reported r1 = ∅ -> hashes r1 !! key = Some fields ->
    loop_inv 0 0 (set_rd (Redis (<[ACTIVE_DISPATCH_KEY := batch_id]> (strs r1)) (hashes r1)) s1)).
  { intros r1 Hr1 Hk1. split; [constructor|].
    - unfold set_rd. cbn [rd landed]. constructor; rewrite reported_active, Hr1; [|intros Hov; exfalso|apply empty_subseteq].
      + exists fields. rewrite size_empty. done.
      + destruct Hov as [(h & Hk & [Ho|Ho])|Ha]; simpl in *; [congruence|congruence|]. by rewrite lookup_insert_eq in Ha.
    - exists ∅. unfold set_rd; cbn [landed]. rewrite (fr_landed _ H1), size_empty. split; [done|]. unfold n_jobs. lia.
    - apply Htrace.
    - exists ∅. unfold set_rd; cbn [landed]. rewrite (fr_landed _ H1), size_empty. split; [done|].
      split; [apply empty_subseteq|done]. }
  rewrite Hh in Hh1.
  destruct (claim_shape (rd s1) fields (fr_active _ H1) Hh1) as [Hc|(r1 & n & Hc & Hr1 & Hk1)];
    change (rd s1) with (rd (fold_left (run_event batch_id rid pending) (events (clock s)) s)) in Hc; rewrite Hc; cbn [fst snd].
  - apply fresh_set_rd; [done|done|apply H1].
  - apply Hclaim; [|done]. rewrite Hr1. apply H1.
Qed.

(** *** For ever after *)

Definition safe (s : sys) : Prop := Forall good (trace s) /\ (landed s = ∅ \/ exists E, inv E s).

Lemma inv_safe E s : inv E s -> safe s.
Proof. intros Hi. split; [apply Hi|]. right. by exists E. Qed.

Lemma fresh_safe s : fresh s -> safe s.
Proof. intros Hs. split; [apply Hs|]. left. apply Hs. Qed.

Lemma safe_events l s : safe s -> safe (fold_left (run_event batch_id rid pending) l s).
Proof using rid_inj.
  intros [Ht [HL|[E Hi]]].
  - destruct (idle_events l s HL Ht). split; [done|]. by left.
  - apply (inv_safe E). clear Ht. revert s Hi. induction l as [|e l IH]; intros s Hi; simpl; [done|].
    apply IH. by apply inv_event.
Qed.

Lemma safe_traced s : safe s -> forall r L, (r, L) ∈ trace s -> over r -> L ⊆ reported r.
Proof. intros [Ht _] r L Hin. rewrite Forall_forall in Ht. by apply (Ht (r, L)). Qed.

End over.

(** ** The seeded hash *)

Section seed.
Context {item : Type}.
Context (agent_names : gmap string string) (now : string).

Lemma agent_field_shape a w f : String.prefix "agent:" f = false -> agent_field a w <> f.
Proof.
  unfold agent_field. intros Hp <-. generalize dependent (a +:+ ":" +:+ w). intros x Hx.
  assert (String.prefix "agent:" ("agent:" +:+ x) = true) by (by destruct x). congruence.
Qed.

Lemma init_fields_batch (groups : list (string * list item)) f :
  String.prefix "agent:" f = false ->
  forall h0, fold_left (fun h (g : string * list item) =>
    <[agent_field g.1 "failed" := FInt 0]> (<[agent_field g.1 "completed" := FInt 0]>
      (<[agent_field g.1 "total" := FInt (Z.of_nat (length g.2))]> h))) groups h0 !! f = (h0 : hash) !! f.
Proof.
  intros Hf. induction groups as [|g groups IH]; intros h0; simpl; [done|].
  rewrite IH. by rewrite !lookup_insert_ne by by apply agent_field_shape.
Qed.

Lemma init_fields_start (groups : list (string * list item)) plan tally (old : hash) :
  let fields := _init_fields groups agent_names plan tally now ∪ old in
  fields !! "status"%string = Some (FStr "running") /\
  hget_int fields "subjobs_expected" = Z.of_nat (t_subjobs_expected tally) /\
  hget_int fields "subjobs_completed" = 0.
Proof.
  intros fields.
  assert (Hl : forall f v, String.prefix "agent:" f = false ->
    (list_to_map [("total", FInt (Z.of_nat (t_total tally))); ("completed", FInt 0); ("failed", FInt 0); ("copied", FInt 0);
     ("verified", FInt 0); ("deleted", FInt 0); ("subjobs_completed", FInt 0);
     ("subjobs_expected", FInt (Z.of_nat (t_subjobs_expected tally))); ("status", FStr "running")] : hash) !! f = Some v ->
    fields !! f = Some v).
  { intros f v Hf Hv. unfold fields. apply lookup_union_Some_l. unfold _init_fields.
    rewrite init_fields_batch by done. revert Hv. simpl. rewrite !lookup_insert_Some.
    rewrite lookup_empty. intuition congruence. }
  unfold hget_int. rewrite (Hl "status"%string (FStr "running")), (Hl "subjobs_expected"%string (FInt (Z.of_nat (t_subjobs_expected tally)))),
    (Hl "subjobs_completed"%string (FInt 0)); try done; simpl;
    repeat (rewrite lookup_insert_ne by done); by rewrite lookup_insert_eq.
Qed.

Lemma pending_chunks_length (groups : list (string * list item)) :
  length (_pending_chunks (_build_chunk_plan groups)) = sum_list (map (fun g => length g.2) (_build_chunk_plan groups)).
Proof.
  unfold _pending_chunks. induction (_build_chunk_plan groups) as [|g plan IH]; simpl; [done|].
  by rewrite length_app, length_imap, IH.
Qed.

End seed.

(** ** The dispatch *)

Section dispatch.
Context {item : Type}.
Context (batch_id now : string) (agent_names : gmap string string).
Context (events : nat -> list event) (fates : nat -> fate) (enq : nat -> enq_fate) (rid : nat -> nat -> string).
Context (groups : list (string * list item)).

Abbreviation planned := (_pending_chunks (_build_chunk_plan groups)).

Lemma dispatch_safe s :
  (forall s k s' k', rid s k = rid s' k' -> s = s' /\ k = k') ->
  fresh batch_id planned rid s ->
  safe batch_id planned rid (dispatch_approved_batch batch_id now agent_names events fates enq rid groups s).1.
Proof.
  intros Hinj Hs. unfold dispatch_approved_batch. case_bool_decide as He; [by apply fresh_safe|]. clear He.
  set (tally := Tally _ _ _). set (fields := _init_fields _ _ _ _ _).
  destruct (fresh_call batch_id planned rid events fates (_seed_batch_hash batch_id fields) s Hs) as [H1 Hrd].
  { intros r Hr Ha. split; [apply reported_hashes|done]. }
  destruct (call _ _ _ _ _ (_seed_batch_hash batch_id fields) s) as [s1 [u|e]]; cbn [fst snd] in *; [|by apply fresh_safe].
  destruct (Hrd eq_refl) as (r & Hr1 & _).
  destruct (init_fields_start agent_names now groups (_build_chunk_plan groups) tally
              (default ∅ (hashes r !! (BATCH_KEY_PREFIX +:+ batch_id)))) as (Hst & Hse & Hsc).
  assert (Hk : hashes (rd s1) !! (BATCH_KEY_PREFIX +:+ batch_id) =
    Some (fields ∪ default ∅ (hashes r !! (BATCH_KEY_PREFIX +:+ batch_id)))).
  { rewrite Hr1. simpl. by rewrite lookup_insert_eq. }
  pose proof (claim_start batch_id planned rid events fates _ s1 H1 Hk) as Hclaim.
  unfold n_jobs in Hclaim. rewrite pending_chunks_length in Hclaim. specialize (Hclaim Hse Hsc Hst).
  destruct (_claim_active_sentinel _ _ _ _ _ s1) as [s2 [[|n]|e]]; cbn [fst snd] in *.
  - destruct (fresh_call batch_id planned rid events fates (del (BATCH_KEY_PREFIX +:+ batch_id)) s2 Hclaim) as [H3 _].
    { intros r2 Hr2 Ha2. split; [apply reported_hashes|done]. }
    destruct (call _ _ _ _ _ (del _) s2) as [s3 [?|?]]; by apply fresh_safe.
  - pose proof (enqueue_loop_inv batch_id planned rid Hinj events fates enq planned 0 0 [] s2 eq_refl Hclaim) as Hl.
    unfold _enqueue_all_chunks. destruct (enqueue_loop _ _ _ _ _ _ _ _ _ _ s2) as [s3 [result|e]]; cbn [fst snd] in *.
    + case_bool_decide as Hu; [by eapply inv_safe, Hl|].
      destruct (reconcile_inv batch_id planned rid Hinj events fates result s3 Hl) as [E HE].
      destruct (_reconcile_undispatched _ _ _ _ _ result s3) as [s4 [?|?]]; by eapply inv_safe.
    + destruct Hl as [E HE]. by eapply inv_safe.
  - split; [apply Hclaim|]. left. apply Hclaim.
Qed.

(** C4: a batch is never over early.  However the awaits of a dispatch end
    (lost replies, failed, ambiguous or cancelled enqueues) and whatever
    sub-jobs and rival dispatches do in between and ever after, whenever the
    batch's status is terminal or its claim on [execdispatch:active] is gone,
    every sub-job on the broker has made its terminal report: no second
    dispatch ever starts while files of this one are still being moved. *)
Theorem no_premature_terminal s later r L :
  (forall s k s' k', rid s k = rid s' k' -> s = s' /\ k = k') ->
  landed s = ∅ -> trace s = [] -> strs (rd s) !! ACTIVE_DISPATCH_KEY <> Some batch_id ->
  (forall sub k, strs (rd s) !! (_REQ_PREFIX +:+ rid sub k) = None) ->
  let s1 := (dispatch_approved_batch batch_id now agent_names events fates enq rid groups s).1 in
  (r, L) ∈ trace (fold_left (run_event batch_id rid planned) later s1) ->
  over batch_id r -> L ⊆ reported planned rid r.
Proof.
  intros Hinj HL Ht Ha Hfree s1 Hin Hov.
  eapply (safe_traced batch_id planned rid); [|exact Hin|exact Hov].
  apply safe_events; [done|]. apply dispatch_safe; [done|]. constructor; [done| |done|by rewrite Ht].
  apply set_eq. intros sub. rewrite elem_of_reported. unfold terminal_marker. rewrite Hfree.
  rewrite elem_of_empty. split; [intros [[? ?] _]; done|done].
Qed.

End dispatch.

(** Two agents; the first one's sub-job lands, the second one's fails; the
    first reports its two proposals, the second report being terminal. *)
Definition demo_rid (sub k : nat) : string := Nat.iter (encode_nat (sub, k)) (String Ascii.zero) EmptyString.

Lemma demo_rid_inj s k s' k' : demo_rid s k = demo_rid s' k' -> s = s' /\ k = k'.
Proof.
  assert (Hlen : forall n, String.length (Nat.iter n (String Ascii.zero) EmptyString) = n) by (induction n; simpl; congruence).
  unfold demo_rid. intros Heq%(f_equal String.length). rewrite !Hlen in Heq.
  apply (inj encode_nat) in Heq. by injection Heq.
Qed.

Definition demo_groups : list (string * list nat) := [("nas", [1; 2]); ("attic", [3])]%nat.
Definition demo_enq (sub : nat) : enq_fate := match sub with O => ELanded | _ => EFailed end.
Abbreviation demo_dispatch :=
  (dispatch_approved_batch "b1" "now" ∅ (fun _ => []) (fun _ => FDone) demo_enq demo_rid demo_groups (Sys (Redis ∅ ∅) ∅ 0 [])).
Definition demo_later : list event := [EvPost 0 0 TDeleted None; EvRival "b2"; EvPost 0 1 TDeleted None].

Definition demo_end : redis * gset nat :=
  let s := fold_left (run_event "b1" demo_rid (_pending_chunks (_build_chunk_plan demo_groups))) demo_later demo_dispatch.1 in
  (rd s, landed s).

Lemma no_premature_terminal_witness :
  over "b1" demo_end.1 /\ demo_end.2 = {[0%nat]} /\
  demo_end.2 ⊆ reported (_pending_chunks (_build_chunk_plan demo_groups)) demo_rid demo_end.1.
Proof.
  assert (Hov : over "b1" demo_end.1).
  { right. apply (bool_decide_unpack _). vm_compute. exact I. }
  split; [exact Hov|]. split; [by vm_compute|].
  apply (no_premature_terminal "b1" "now" ∅ (fun _ => []) (fun _ => FDone) demo_enq demo_rid demo_groups
           (Sys (Redis ∅ ∅) ∅ 0 []) demo_later); [exact demo_rid_inj|done|done|done|done| |exact Hov].
  apply (list_elem_of_lookup_2 _ 0). by vm_compute.
Defined.

(** ** Accounting *)

#[export] Instance enq_fate_eq_dec : EqDecision enq_fate.
Proof. solve_decision. Defined.

Section accounting.
Context {item : Type}.
Context (batch_id now : string) (agent_names : gmap string string).
Context (events : nat -> list event) (fates : nat -> fate) (enq : nat -> enq_fate) (rid : nat -> nat -> string).

(** The chunks whose enqueue definitely failed, from position [i]. *)
Definition lost_from (i : nat) (rest : list (PendingChunk item)) : list (nat * PendingChunk item) :=
  filter (fun ip => enq ip.1 = EFailed) (zip (seq i (length rest)) rest).

Definition sizes (l : list (nat * PendingChunk item)) : nat := sum_list (map (fun ip => length (chunk ip.2)) l).

(** The positions whose sub-job the broker took, from position [i]. *)
Definition lands (i : nat) : bool := match enq i with ELanded | EAmbiguous true | EInterrupted true => true | _ => false end.

Lemma sum_bump agent n d : sum_list (map snd (bump agent n d)) = (sum_list (map snd d) + n)%nat.
Proof.
  unfold bump. induction d as [|[a m] d IH]; simpl; [lia|]. case_decide; simpl; [lia|]. rewrite IH. lia.
Qed.

Lemma lost_from_cons i p rest :
  lost_from i (p :: rest) = (if decide (enq i = EFailed) then [(i, p)] else []) ++ lost_from (S i) rest.
Proof. unfold lost_from. simpl. rewrite filter_cons. simpl. by case_decide. Qed.

Lemma others_landed pending s : landed (others_run (item := item) batch_id events rid pending s) = landed s.
Proof.
  unfold others_run. cbn [landed]. generalize (events (clock s)) at 1. intros l. revert s.
  induction l as [|e l IH]; intros s; simpl; [done|]. rewrite IH. destruct e as [sub k step at_|rival]; simpl.
  - case_bool_decide; [|done]. by destruct (body_of rid pending sub k step at_).
  - by case_bool_decide.
Qed.

Lemma call_landed {A} pending (f : redis -> redis * A) s :
  landed (call (item := item) batch_id events fates rid pending f s).1 = landed s.
Proof. unfold call. destruct (fates (clock s)) as [|[]]; simpl; apply others_landed. Qed.

Lemma enqueue_loop_accounts pending rest : forall i ok undisp s s' r,
  enqueue_loop batch_id events fates enq rid pending i rest ok undisp s = (s', Ok r) ->
  (enqueued_ok r + length (lost_from i rest) = ok + length rest)%nat /\
  total_undispatched r = (sum_list (map snd undisp) + sizes (lost_from i rest))%nat /\
  forall x, x ∈ landed s' <-> x ∈ landed s \/ (i <= x < i + length rest)%nat /\ lands x = true.
Proof.
  induction rest as [|p rest IH]; intros i ok undisp s s' r; simpl.
  - intros [= <- <-]. unfold total_undispatched, sizes. simpl. split; [lia|]. split; [lia|]. intros x. intuition lia.
  - rewrite lost_from_cons. unfold _enqueue_one_chunk.
    assert (Hx : forall b x P, (lands i = b) ->
      (P \/ (S i <= x < S i + length rest)%nat /\ lands x = true) \/ (x = i /\ b = true) <->
      P \/ (i <= x < i + S (length rest))%nat /\ lands x = true).
    { intros b x P Hb. split.
      - intros [[?|[? ?]]|[-> ->]]; [auto|right; split; [lia|done]|right; split; [lia|done]].
      - intros [?|[? Hl]]; [auto|]. destruct (decide (x = i)) as [->|]; [right; split; congruence|]. left. right. split; [lia|done]. }
    assert (Hland : forall s0 x, x ∈ landed (land i s0) <-> x = i \/ x ∈ landed s0).
    { intros s0 x. unfold land. cbn [landed]. by rewrite elem_of_union, elem_of_singleton. }
    destruct (enq i) as [|[]| |l] eqn:He; simpl.
    + intros (H1 & H2 & H3)%IH. split; [simpl in *; lia|]. split; [done|]. intros x. rewrite H3, Hland, others_landed.
      rewrite <- (Hx true) by (unfold lands; by rewrite He). intuition.
    + intros (H1 & H2 & H3)%IH. split; [simpl in *; lia|]. split; [done|]. intros x. rewrite H3, Hland, others_landed.
      rewrite <- (Hx true) by (unfold lands; by rewrite He). intuition.
    + intros (H1 & H2 & H3)%IH. split; [simpl in *; lia|]. split; [done|]. intros x. rewrite H3, others_landed.
      rewrite <- (Hx false) by (unfold lands; by rewrite He). intuition congruence.
    + intros (H1 & H2 & H3)%IH. rewrite sum_bump in H2. unfold sizes in *. simpl. split; [lia|]. split; [lia|].
      intros x. rewrite H3, others_landed. rewrite <- (Hx false) by (unfold lands; by rewrite He). intuition congruence.
    + destruct l; intros ?; done.
Qed.

End accounting.

Section accounted.
Context {item : Type}.
Implicit Types (groups : list (string * list item)).

Lemma pending_chunk_nonempty groups p :
  p ∈ _pending_chunks (_build_chunk_plan groups) -> (0 < length (chunk p) <= _CHUNK_SIZE)%nat.
Proof.
  unfold _pending_chunks, _build_chunk_plan. rewrite list_elem_of_In, in_flat_map.
  intros ([a chunks] & ([a' items] & [= <- <-] & _)%in_map_iff & Hp). simpl in Hp.
  apply list_elem_of_In, list_elem_of_lookup in Hp as [i Hi]. rewrite list_lookup_imap in Hi.
  destruct (chunk_proposals _CHUNK_SIZE items !! i) as [c|] eqn:Hc; [|done]. injection Hi as <-. simpl.
  eapply (chunks_from_spec _CHUNK_SIZE (length items)); [unfold _CHUNK_SIZE; lia|done|exact Hc].
Qed.

Lemma imap_sizes a (chunks : list (list item)) :
  map (fun p => length (chunk p)) (imap (fun i c => Pending a i c) chunks) = map length chunks.
Proof.
  change (map ?f ?l) with (f <$> l). rewrite fmap_imap. apply list_eq. intros i.
  rewrite list_lookup_imap. rewrite list_lookup_fmap. by destruct (chunks !! i).
Qed.

Lemma sum_lengths (chunks : list (list item)) : sum_list (map length chunks) = length (concat chunks).
Proof. induction chunks as [|c chunks IH]; simpl; [done|]. by rewrite length_app, IH. Qed.

Lemma pending_total groups :
  sum_list (map (fun p => length (chunk p)) (_pending_chunks (_build_chunk_plan groups))) =
  sum_list (map (fun g => length g.2) groups).
Proof.
  unfold _pending_chunks, _build_chunk_plan. induction groups as [|[a items] groups IH]; simpl; [done|].
  rewrite map_app, sum_list_with_app, imap_sizes, sum_lengths. f_equal; [|exact IH]. f_equal.
  apply (chunks_from_spec _CHUNK_SIZE (length items)); [unfold _CHUNK_SIZE; lia|done].
Qed.

End accounted.

Section outcome.
Context {item : Type}.
Context (batch_id now : string) (agent_names : gmap string string).
Context (events : nat -> list event) (fates : nat -> fate) (enq : nat -> enq_fate) (rid : nat -> nat -> string).
Implicit Types (groups : list (string * list item)).

Lemma sizes_zero groups :
  sizes (lost_from enq 0 (_pending_chunks (_build_chunk_plan groups))) = 0%nat ->
  lost_from enq 0 (_pending_chunks (_build_chunk_plan groups)) = [].
Proof.
  destruct (lost_from enq 0 _) as [|[i p] rest] eqn:Hl; [done|]. unfold sizes. simpl. intros Hz.
  assert (Hin : (i, p) ∈ lost_from enq 0 (_pending_chunks (_build_chunk_plan groups))) by (rewrite Hl; by left).
  unfold lost_from in Hin. apply list_elem_of_filter in Hin as [_ Hin].
  apply elem_of_zip_r, pending_chunk_nonempty in Hin. unfold id in Hz. lia.
Qed.

(** The outcome accounts for every proposal.  What a dispatch that returns
    reports is exactly what happened on the broker: nothing was enqueued when
    it was refused or had no work; otherwise the undispatched proposals are
    those of the chunks whose enqueue definitely failed, the expected sub-jobs
    are all the others, the sub-jobs on the broker are those it took, the
    outcome is partial exactly when something is missing, and it is terminal
    at once exactly when no chunk counts. *)
Theorem dispatch_outcome_exact groups s s' out :
  dispatch_approved_batch batch_id now agent_names events fates enq rid groups s = (s', Ok out) ->
  let pending := _pending_chunks (_build_chunk_plan groups) in
  let lost := lost_from enq 0 pending in
  d_total out = sum_list (map (fun p => length (chunk p)) pending) /\
  match kind out with
  | EMPTY => groups = [] /\ landed s' = landed s
  | REFUSED => landed s' = landed s
  | STARTED | PARTIAL =>
      undispatched out = sizes lost /\
      (kind out = PARTIAL <-> (0 < undispatched out)%nat) /\
      (d_subjobs_expected out + length lost = length pending)%nat /\
      (d_status out = "complete_with_errors"%string <-> kind out = PARTIAL /\ d_subjobs_expected out = 0%nat) /\
      forall x, x ∈ landed s' <-> x ∈ landed s \/ (x < length pending)%nat /\ lands enq x = true
  end.
Proof.
  intros Hd pending lost. unfold pending at 1. rewrite pending_total. revert Hd. unfold dispatch_approved_batch.
  case_bool_decide as He; [intros [= <- <-]; simpl; by destruct groups|]. fold pending.
  destruct (call _ _ _ _ _ (_seed_batch_hash _ _) s) as [s1 [u|e]] eqn:H1; [|done].
  assert (HL1 : landed s1 = landed s).
  { change s1 with (s1, Ok (E := string) u).1. rewrite <- H1. apply call_landed. }
  destruct (_claim_active_sentinel _ _ _ _ _ s1) as [s2 [n|e]] eqn:H2; [|by destruct groups].
  assert (HL2 : landed s2 = landed s1).
  { revert H2. unfold _claim_active_sentinel.
    destruct (call _ _ _ _ _ _ s1) as [sc [?|?]] eqn:Hc; [|done]. intros [= <- <-].
    change sc with (sc, Ok (E := string) a).1. rewrite <- Hc. apply call_landed. }
  destruct n as [|n].
  - destruct (call _ _ _ _ _ (del _) s2) as [s3 [v|e]] eqn:H3; [|done]. intros [= <- <-]. simpl. split; [done|].
    change s3 with (s3, Ok (E := string) v).1. rewrite <- H3, call_landed. congruence.
  - unfold _enqueue_all_chunks.
    destruct (enqueue_loop _ _ _ _ _ _ _ _ _ _ s2) as [s3 [result|e]] eqn:H3; [|done].
    apply enqueue_loop_accounts in H3 as (Hn & Hu & HL3). fold lost in Hn, Hu. simpl in Hn, Hu.
    setoid_rewrite HL2 in HL3. setoid_rewrite HL1 in HL3.
    assert (HL3' : forall x, x ∈ landed s3 <-> x ∈ landed s \/ (x < length pending)%nat /\ lands enq x = true).
    { intros x. rewrite HL3. intuition lia. }
    case_bool_decide as Hz.
    + intros [= <- <-]. simpl. split; [done|]. rewrite Hz in Hu. split; [lia|]. split; [split; [done|lia]|].
      assert (Hnil : lost = []) by (apply sizes_zero; unfold lost, pending in Hu; lia). rewrite Hnil. simpl.
      split; [unfold pending; rewrite pending_chunks_length; lia|].
      split; [by split; [|intros []]|done].
    + destruct (_reconcile_undispatched _ _ _ _ _ result s3) as [s4 [status|e]] eqn:H4; [|done].
      assert (HL4 : landed s4 = landed s3 /\ (status = "complete_with_errors"%string <-> enqueued_ok result = 0%nat)).
      { revert H4. unfold _reconcile_undispatched.
        destruct (call _ _ _ _ _ (reconcile_fields _ _) s3) as [sa [va|e]] eqn:Ha; [|done].
        pose proof (call_landed batch_id events fates rid pending (reconcile_fields batch_id result) s3) as HLa. rewrite Ha in HLa.
        case_bool_decide as Hk.
        - destruct (call _ _ _ _ _ _ sa) as [sb [vb|e]] eqn:Hb; [|done]. intros [= <- <-]. split; [|done].
          pose proof (call_landed batch_id events fates rid pending (fun r => (release_dispatch ACTIVE_DISPATCH_KEY batch_id r, ())) sa) as HLb.
          rewrite Hb in HLb. simpl in *. congruence.
        - destruct (call _ _ _ _ _ _ sa) as [sb [vb|e]] eqn:Hb; [|done]. intros [= <- <-]. split; [|by split].
          pose proof (call_landed batch_id events fates rid pending (fun r => (phaze_promote (BATCH_KEY_PREFIX +:+ batch_id) ACTIVE_DISPATCH_KEY batch_id r, ())) sa) as HLb.
          rewrite Hb in HLb. simpl in *. congruence. }
      destruct HL4 as [HL4 Hst]. intros [= <- <-]. simpl. split; [done|]. split; [done|].
      split; [split; [lia|done]|]. split; [lia|]. split; [rewrite Hst; intuition|]. intros x. by rewrite HL4.
Qed.

End outcome.

Lemma dispatch_outcome_exact_witness :
  demo_dispatch.2 = Ok (Outcome PARTIAL 3 1 1 "running") /\
  sizes (lost_from demo_enq 0 (_pending_chunks (_build_chunk_plan demo_groups))) = 1%nat.
Proof.
  assert (Hd : demo_dispatch.2 = Ok (Outcome PARTIAL 3 1 1 "running")) by (vm_compute; reflexivity).
  split; [exact Hd|].
  destruct (dispatch_outcome_exact "b1" "now" ∅ (fun _ => []) (fun _ => FDone) demo_enq demo_rid demo_groups
              (Sys (Redis ∅ ∅) ∅ 0 []) _ _ (pair_ok _ _ Hd)) as (_ & Hu & _). by rewrite <- Hu.
Defined.

(** ** At-least-once delivery *)

Section retry.
Implicit Types (r : redis) (body : payload).

Lemma promote_idem k batch r :
  phaze_promote k ACTIVE_DISPATCH_KEY batch (phaze_promote k ACTIVE_DISPATCH_KEY batch r) = phaze_promote k ACTIVE_DISPATCH_KEY batch r.
Proof.
  remember (phaze_promote k ACTIVE_DISPATCH_KEY batch r) as r1 eqn:Hr1. unfold phaze_promote in Hr1.
  destruct (hashes r !! k) as [h|] eqn:Hh; [|unfold phaze_promote; by rewrite Hr1, Hh].
  destruct (_ <? _) eqn:Hlt; [unfold phaze_promote; by rewrite Hr1, Hh, Hlt|].
  set (v := FStr _) in Hr1.
  assert (Hx : forall ss, ss !! ACTIVE_DISPATCH_KEY <> Some batch ->
    phaze_promote k ACTIVE_DISPATCH_KEY batch (Redis ss (<[k := <["status" := v]> h]> (hashes r))) =
    Redis ss (<[k := <["status" := v]> h]> (hashes r))).
  { intros ss Hss. unfold phaze_promote. simpl. rewrite lookup_insert_eq, !hget_status by done. rewrite Hlt. fold v.
    unfold release_active. simpl. rewrite bool_decide_eq_false_2 by tauto. by rewrite !insert_insert_eq. }
  subst r1. unfold release_active. case_bool_decide as Hb; simpl; apply Hx; [by rewrite lookup_delete_eq|].
  intros Ha. apply Hb. done.
Qed.

Lemma promote_fields k batch r k' f : f <> "status"%string ->
  hashes (phaze_promote k ACTIVE_DISPATCH_KEY batch r) !! k' ≫= (.!! f) = hashes r !! k' ≫= (.!! f).
Proof.
  intros Hf. unfold phaze_promote. destruct (hashes r !! k) as [h|] eqn:Hh; [|done]. destruct (_ <? _); [done|].
  unfold release_active. case_bool_decide; simpl; (destruct (decide (k' = k)) as [->|];
    [rewrite lookup_insert_eq, Hh; simpl; by rewrite lookup_insert_ne|by rewrite lookup_insert_ne]).
Qed.

Lemma promote_present k batch r k' :
  is_Some (hashes (phaze_promote k ACTIVE_DISPATCH_KEY batch r) !! k') <-> is_Some (hashes r !! k').
Proof.
  unfold phaze_promote. destruct (hashes r !! k) as [h|] eqn:Hh; [|done]. destruct (_ <? _); [done|].
  unfold release_active. case_bool_decide; simpl; (destruct (decide (k' = k)) as [->|];
    [rewrite lookup_insert_eq, Hh; split; intros; by eexists|by rewrite lookup_insert_ne]).
Qed.

Lemma promote_marker k batch r req :
  strs (phaze_promote k ACTIVE_DISPATCH_KEY batch r) !! (_REQ_PREFIX +:+ req) = strs r !! (_REQ_PREFIX +:+ req).
Proof.
  unfold phaze_promote. destruct (hashes r !! k) as [h|]; [|done]. destruct (_ <? _); [done|].
  unfold release_active. case_bool_decide; simpl; [by rewrite lookup_delete_ne|done].
Qed.

(** Applying twice is applying once. *)
Lemma apply_increments_idem k req t batch incs r :
  let r1 := (apply_increments k (_REQ_PREFIX +:+ req) ACTIVE_DISPATCH_KEY t batch incs r).1 in
  (apply_increments k (_REQ_PREFIX +:+ req) ACTIVE_DISPATCH_KEY t batch incs r1).1 = r1.
Proof.
  intros r2. subst r2. remember (apply_increments _ _ _ t batch incs r).1 as r2 eqn:Hr2. unfold apply_increments in Hr2.
  destruct (hashes r !! k) as [h|] eqn:Hh; [|subst r2; unfold apply_increments; simpl; by rewrite Hh].
  set (r1 := if bool_decide _ then r else _) in Hr2. simpl in Hr2. subst r2.
  assert (H1 : is_Some (strs r1 !! (_REQ_PREFIX +:+ req)) /\ is_Some (hashes r1 !! k)).
  { unfold r1. case_bool_decide as Hd; simpl; [by rewrite Hh|]. rewrite !lookup_insert_eq. split; by eexists. }
  destruct H1 as [Hm Hp]. destruct t; simpl; unfold apply_increments.
  - destruct (proj2 (promote_present k batch r1 k) Hp) as [h1 ->]. rewrite promote_marker, bool_decide_eq_true_2 by done.
    simpl. apply promote_idem.
  - destruct Hp as [h1 ->]. by rewrite bool_decide_eq_true_2.
Qed.

Lemma hincrby_all_some incs f (h : hash) : is_Some (h !! f) -> is_Some (hincrby_all incs h !! f).
Proof.
  unfold hincrby_all. revert h. induction incs as [|inc incs IH]; intros h Hs; simpl; [done|]. apply IH.
  unfold hincrby. destruct (decide (inc.1 = f)) as [<-|]; [rewrite lookup_insert_eq; by eexists|by rewrite lookup_insert_ne].
Qed.

Lemma apply_increments_fields k req t batch incs r f :
  is_Some (hashes r !! k ≫= (.!! f)) -> f <> "status"%string ->
  is_Some (hashes (apply_increments k req ACTIVE_DISPATCH_KEY t batch incs r).1 !! k ≫= (.!! f)).
Proof.
  intros Hs Hf. unfold apply_increments. destruct (hashes r !! k) as [h|] eqn:Hh; [|by destruct Hs].
  set (r1 := if bool_decide _ then r else _).
  assert (H1 : is_Some (hashes r1 !! k ≫= (.!! f))).
  { unfold r1. case_bool_decide; simpl; [by rewrite Hh|]. rewrite lookup_insert_eq. by apply hincrby_all_some. }
  destruct t; simpl; [|done]. by rewrite promote_fields.
Qed.

(** Reports are idempotent.  An agent posts each proposal's outcome at
    least once under one request id; re-sending the same report right away
    changes nothing at all and gets the same status code, and re-sending it
    any time later (its marker still held) moves no counter of any batch: at
    most it re-runs the promotion of a batch to terminal. *)
Theorem retried_report_counts_once agent_id batch_id body r :
  let post r := post_exec_batch_progress agent_id batch_id body r in
  post (post r).1 = post r /\
  (is_Some (strs r !! (_REQ_PREFIX +:+ request_id body)) ->
   forall k f, f <> "status"%string -> hashes (post r).1 !! k ≫= (.!! f) = hashes r !! k ≫= (.!! f)).
Proof.
  intros post. subst post. unfold post_exec_batch_progress. case_bool_decide as Ha; simpl; [|by split].
  set (k := BATCH_KEY_PREFIX +:+ batch_id). set (incs := _ ++ _).
  set (req := _REQ_PREFIX +:+ request_id body). split.
  - destruct (decide (default ∅ (hashes r !! k) !! "total"%string = None)) as [Ht|Ht];
      [by rewrite !(bool_decide_eq_true_2 _ Ht); simpl; rewrite ?(bool_decide_eq_true_2 _ Ht)|rewrite (bool_decide_eq_false_2 _ Ht)].
    destruct (decide (default ∅ (hashes r !! k) !! agent_field agent_id "total" = None)) as [Hat|Hat];
      [by rewrite !(bool_decide_eq_true_2 _ Hat); simpl; rewrite ?(bool_decide_eq_false_2 _ Ht), ?(bool_decide_eq_true_2 _ Hat)
      |rewrite (bool_decide_eq_false_2 _ Hat)]. simpl.
    set (r1 := (apply_increments _ _ _ _ _ _ r).1).
    assert (Hkeep : forall f, f <> "status"%string -> default ∅ (hashes r !! k) !! f <> None -> default ∅ (hashes r1 !! k) !! f <> None).
    { intros f Hf Hn. assert (Hs : is_Some (hashes r !! k ≫= (.!! f))).
      { destruct (hashes r !! k) as [h|]; simpl in *; [by apply not_eq_None_Some|by rewrite lookup_empty in Hn]. }
      pose proof (apply_increments_fields k req (sub_batch_terminal body) batch_id incs r f Hs Hf) as H1. fold r1 in H1.
      destruct (hashes r1 !! k) as [h|]; simpl in *; [by apply not_eq_None_Some|by destruct H1]. }
    rewrite (bool_decide_eq_false_2 (default ∅ (hashes r1 !! k) !! "total"%string = None)) by by apply Hkeep.
    rewrite (bool_decide_eq_false_2 (default ∅ (hashes r1 !! k) !! agent_field agent_id "total" = None)) by by apply Hkeep.
    f_equal. apply apply_increments_idem.
  - intros Hm k' f Hf. case_bool_decide; [done|]. case_bool_decide; [done|]. simpl. unfold apply_increments.
    destruct (hashes r !! k) as [h|] eqn:Hh; [|done]. rewrite bool_decide_eq_true_2 by done.
    destruct (sub_batch_terminal body); simpl; [by apply promote_fields|done].
Qed.

End retry.

Lemma retried_report_counts_once_witness :
  let r := demo_end.1 in
  let body := Payload (demo_rid 0 0) "nas" TDeleted None false in
  hashes (post_exec_batch_progress "nas" "b1" body r).1 !! "exec:b1" ≫= (.!! "deleted"%string) = Some (FInt 2).
Proof.
  intros r body. rewrite (proj2 (retried_report_counts_once "nas" "b1" body r));
    [by vm_compute|apply (bool_decide_unpack _); vm_compute; exact I|done].
Defined.
