(* ===== verification/ExecTask.v ===== *)
(** * Executing an approved sub-batch: [tasks/execution.py]

    The SAQ task around the move engine.  The job's [meta] is the only state
    that survives a replay; every API call and every [job.update] may fail with
    or without its effect, and the worker may be killed at any of them or
    during the engine's work.  The file-system facade only forwards to the
    engine and is MoveFs itself.  Parameters beyond those of MoveFs: [nfc],
    [uuid4] as a sequence, [errstr], the text of an [OSError], and [net], how
    each await ends. *)
From S2P Require Import Prelude Containment FsModel MoveFs MoveSafety Reports Dispatch.
From stdpp Require Import options.

(** ** Exceptions *)

Inductive xexn : Type :=
| FsExn (e : exn)
| CallError
| Killed
| ExecCommittedReportError
| ExecOutcomePersistenceError
| ExecBatchTerminalReportError
| RuntimeError (msg : string)
| KeyError.

(** How an await ends; [XKilled]: the worker dies or the task is cancelled. *)
Inductive xfate : Type := XDone | XLost (applied : bool) | XKilled (applied : bool).

(** ** The job and what it talks to *)

Inductive api_call : Type :=
| CallApi (r : Reports.request)
| CallProgress (proposal : string) (body : payload)
| CallUpdate (meta : gmap string string).

(** What happened, newest first.  [EngineReturned]: the engine answered with the
    destination, committed in this run or replayed; a run in which the engine
    raises has no such event, even when a file has moved before it raised. *)
Inductive xevent : Type :=
| Sent (c : api_call) (arrived acked : bool)
| Moving (proposal : string) (hash : option string)
| EngineReturned (proposal : string) (dest : path) (committed : bool).

Record xworld : Type := XWorld {
  meta : gmap string string;
  server : Reports.db;
  redis_state : redis;
  disk : FsModel.world FailedAtStep;
  drawn : nat;
  awaits : nat;
  history : list xevent;
}.

Definition X (A : Type) : Type := xworld -> xworld * outcome xexn A.

Definition xret {A} (a : A) : X A := fun w => (w, Ok a).
Definition xraise {A} (e : xexn) : X A := fun w => (w, Raise e).
Definition xbind {A B} (m : X A) (k : A -> X B) : X B := fun w =>
  match m w with (w', Ok a) => k a w' | (w', Raise e) => (w', Raise e) end.

(** [except Exception]: a cancellation is not one. *)
Definition except {A} (m : X A) (h : xexn -> X A) : X A := fun w =>
  match m w with
  | (w', Ok a) => (w', Ok a)
  | (w', Raise Killed) => (w', Raise Killed)
  | (w', Raise e) => h e w'
  end.

Notation "'let!' x <- m ; k" := (xbind m (fun x => k)) (at level 90, x pattern, m at level 80, right associativity) : phaze_scope.
Notation "'then!' m ; k" := (xbind m (fun _ => k)) (at level 90, m at level 80, right associativity) : phaze_scope.

(** ** Keys of [job.meta] *)

Definition _MOVED_FLAG_PREFIX : string := "moved:".
Definition _MOVE_INTENT_PREFIX : string := "move_intent_hash:".
Definition _moved_flag_key (p : string) : string := _MOVED_FLAG_PREFIX +:+ p.
Definition intent_key (p : string) : string := _MOVE_INTENT_PREFIX +:+ p.
Definition failed_step_key (p : string) : string := "failed_step:" +:+ p.
Definition failed_error_key (p : string) : string := "failed_error:" +:+ p.
Definition log_key (p : string) : string := "log_id:" +:+ p.
Definition request_key (p : string) : string := "req_id:" +:+ p.

Definition step_str (s : FailedAtStep) : string :=
  match s with StepCopy => "copy" | StepVerify => "verify" | StepDelete => "delete" end.

Definition step_of (s : string) : option failed_at :=
  if bool_decide (s = "copy") then Some AtCopy
  else if bool_decide (s = "verify") then Some AtVerify
  else if bool_decide (s = "delete") then Some AtDelete else None.

(** [sub in s] *)
Fixpoint contains (sub s : string) : bool :=
  String.prefix sub s || match s with EmptyString => false | String _ s' => contains sub s' end.

Fixpoint rstrip_slash (s : string) : string :=
  match s with
  | EmptyString => EmptyString
  | String c s' => match rstrip_slash s' with
                   | EmptyString => if bool_decide (String c EmptyString = "/") then EmptyString else String c EmptyString
                   | r => String c r
                   end
  end.

(** ** [_load_or_seed_uuids] *)

Record seeded : Type := Seeded {
  log_ids : gmap string string;
  request_ids : gmap string string;
  seeded_meta : gmap string string;
  changed : bool;
  seeded_drawn : nat;
}.

Definition seed_log (uuid4 : nat -> string) (s : seeded) (p : string) : seeded :=
  match seeded_meta s !! log_key p with
  | Some id => Seeded (<[p := id]> (log_ids s)) (request_ids s) (seeded_meta s) (changed s) (seeded_drawn s)
  | None =>
      let id := uuid4 (seeded_drawn s) in
      Seeded (<[p := id]> (log_ids s)) (request_ids s) (<[log_key p := id]> (seeded_meta s)) true (S (seeded_drawn s))
  end.

Definition seed_request (uuid4 : nat -> string) (s : seeded) (p : string) : seeded :=
  match seeded_meta s !! request_key p with
  | Some id => Seeded (log_ids s) (<[p := id]> (request_ids s)) (seeded_meta s) (changed s) (seeded_drawn s)
  | None =>
      let id := uuid4 (seeded_drawn s) in
      Seeded (log_ids s) (<[p := id]> (request_ids s)) (<[request_key p := id]> (seeded_meta s)) true (S (seeded_drawn s))
  end.

Definition seed_one (uuid4 : nat -> string) (s : seeded) (p : string) : seeded := seed_request uuid4 (seed_log uuid4 s p) p.

Definition _load_or_seed_uuids (uuid4 : nat -> string) (job_meta : gmap string string) (n : nat) (items : list Item) : seeded :=
  fold_left (seed_one uuid4) (map proposal_id items) (Seeded ∅ ∅ job_meta false n).

Section task.
Context (fold casefold sha256 : string -> string) (dev : dir -> nat) (env : nat -> env_step) (token : string).
Context (resolver : fs -> pure -> list string -> outcome string (dir * dir)).
Context (nfc : string -> string) (uuid4 : nat -> string) (errstr : errno -> string) (net : nat -> xfate).

(** The payload; [job]: whether the context has one. *)
Context (agent batch_id : string) (scan_roots : list string) (job : bool).

(** ** Awaits *)

Definition note (e : xevent) (w : xworld) : xworld :=
  XWorld (meta w) (server w) (redis_state w) (disk w) (drawn w) (awaits w) (e :: history w).

(** The other side of a call, and whether it answers with success. *)
Definition apply_call (c : api_call) (w : xworld) : xworld * bool :=
  match c with
  | CallApi r =>
      let '(d, code) := serve nfc agent r (server w) in
      (XWorld (meta w) d (redis_state w) (disk w) (drawn w) (awaits w) (history w), bool_decide (code = 200%Z))
  | CallProgress _ body =>
      let '(r, code) := post_exec_batch_progress agent batch_id body (redis_state w) in
      (XWorld (meta w) (server w) r (disk w) (drawn w) (awaits w) (history w), bool_decide (code = 200%Z))
  | CallUpdate m => (XWorld m (server w) (redis_state w) (disk w) (drawn w) (awaits w) (history w), true)
  end.

Definition next_await (w : xworld) : xworld :=
  XWorld (meta w) (server w) (redis_state w) (disk w) (drawn w) (S (awaits w)) (history w).

Definition send (c : api_call) : X unit := fun w =>
  let w1 := next_await w in
  match net (awaits w) with
  | XDone =>
      let '(w2, ok) := apply_call c w1 in
      (note (Sent c true ok) w2, if ok : bool then Ok () else Raise CallError)
  | XLost applied => (note (Sent c applied false) (if applied : bool then (apply_call c w1).1 else w1), Raise CallError)
  | XKilled applied => (note (Sent c applied false) (if applied : bool then (apply_call c w1).1 else w1), Raise Killed)
  end.

(** Work in the file system. *)
Definition on_disk {A} (m : M FailedAtStep A) : X A := fun w =>
  match net (awaits w) with
  | XKilled _ => (next_await w, Raise Killed)
  | _ =>
      let '(d, r) := m (disk w) in
      (XWorld (meta w) (server w) (redis_state w) d (drawn w) (S (awaits w)) (history w),
       match r with Ok a => Ok a | Raise e => Raise (FsExn e) end)
  end.

Definition get_meta : X (gmap string string) := fun w => (w, Ok (if job then meta w else ∅)).
Definition get_step : X FailedAtStep := fun w => (w, Ok (local (disk w))).
Definition set_step (s : FailedAtStep) : X unit := fun w =>
  (XWorld (meta w) (server w) (redis_state w) (set_local s (disk w)).1 (drawn w) (awaits w) (history w), Ok ()).
Definition record_event (e : xevent) : X unit := fun w => (note e w, Ok ()).

(** ** Reports *)

Definition exc_str (e : xexn) : string :=
  match e with
  | FsExn (OSError en) => errstr en
  | FsExn (FileExistsError msg) | FsExn (ValueError msg) | RuntimeError msg => msg
  | _ => ""
  end.

Definition _classify_failure_step (current_step : FailedAtStep) (exc : xexn) : FailedAtStep :=
  if contains "sha256 mismatch" (exc_str exc) then StepVerify else current_step.

(** [_ReportContext] *)
Record report_ctx : Type := ReportCtx {
  r_item : Item;
  execution_log_id : string;
  progress_request_id : string;
  is_last : bool;
  start_log : ExecutionLog;
}.

Definition post_execution_log (ctx : report_ctx) : X unit := send (CallApi (ReqCreate (execution_log_id ctx) (start_log ctx))).

Definition _ensure_start_log (ctx : report_ctx) (start_logged : bool) : X bool :=
  if start_logged then xret true
  else except (then! post_execution_log ctx; xret true) (fun _ => xret false).

Definition _report_progress_failure (ctx : report_ctx) : X unit :=
  if negb (is_last ctx) then xret () else xraise ExecBatchTerminalReportError.

Definition _finalize_execution_log (ctx : report_ctx) (patch : ExecutionLogPatch) (start_logged : bool) : X bool :=
  let! logged <- _ensure_start_log ctx start_logged;
  then! except (send (CallApi (ReqPatch (execution_log_id ctx) patch))) (fun _ => xret ());
  xret logged.

Definition _post_exec_batch_progress_terminal (ctx : report_ctx) (terminal : terminal_step) (failed_at_step : option failed_at) : X unit :=
  except (send (CallProgress (proposal_id (r_item ctx))
                  (Payload (progress_request_id ctx) agent terminal failed_at_step (is_last ctx))))
    (fun _ => _report_progress_failure ctx).

Definition _report_success (ctx : report_ctx) (proposed : path) (start_logged sha_verified : bool) : X unit :=
  then! _finalize_execution_log ctx (LogPatch XCOMPLETED (Some sha_verified) None) start_logged;
  then! except (send (CallApi (ReqState (proposal_id (r_item ctx))
                        (StatePatch EXECUTED (Some moved) (Some (path_str proposed)) None))))
          (fun _ => xraise ExecCommittedReportError);
  _post_exec_batch_progress_terminal ctx TDeleted None.

Definition _report_failure (ctx : report_ctx) (failed_step formatted_error : string) (start_logged : bool) : X unit :=
  then! _finalize_execution_log ctx (LogPatch XFAILED None (Some (Some formatted_error))) start_logged;
  then! except (send (CallApi (ReqState (proposal_id (r_item ctx)) (StatePatch FAILED None None (Some formatted_error)))))
          (fun _ => xret ());
  _post_exec_batch_progress_terminal ctx TFailed (step_of failed_step).

(** ** One proposal *)

Abbreviation query := (query (St := FailedAtStep) fold dev env).

(** No special files are modelled: what is no regular file is a directory. *)
Definition _hash_move_source (source : path) : M FailedAtStep string :=
  do! b <- query (fun s => match fs_read fold source s with
                           | Ok (_, b) => Ok b
                           | Raise (OSError EISDIR) => Raise (ValueError "move source is not a regular file")
                           | Raise e => Raise e
                           end);
  mret (sha256 b).

(** The paths of a move about to start, and whether only an old marker vouches
    for it. *)
Definition before_move (it : Item) : M FailedAtStep (path * bool) :=
  do! (source, root) <- resolve_containment fold dev env resolver (mk_path (source_path it)) scan_roots;
  do! destination <- resolve_destination fold dev env resolver it source root scan_roots;
  do! there <- exists_ fold dev env source;
  if (there : bool) then mret (source, false)
  else do! marked <- exists_ fold dev env (committed_copy_marker_path destination (proposal_id it)); mret (source, marked).

Definition record_intent (it : Item) (job_meta : gmap string string) : X (option string) :=
  let! (source, legacy_marker) <- on_disk (before_move it);
  if (legacy_marker : bool) then xret None
  else
    then! set_step StepVerify;
    let! h <- on_disk (_hash_move_source source);
    if match MoveFs.sha256_hash it with Some want => negb (bool_decide (h = want)) | None => false end
    then xraise (FsExn (ValueError "sha256 mismatch for move source"))
    else
      then! except (send (CallUpdate (<[intent_key (proposal_id it) := h]> job_meta))) (fun _ => xraise ExecOutcomePersistenceError);
      xret (Some h).

Definition with_hash (it : Item) (h : option string) : Item :=
  match h with
  | Some _ => {| proposal_id := proposal_id it; source_path := source_path it; proposed_path := proposed_path it;
                 proposed_filename := proposed_filename it; sha256_hash := h |}
  | None => it
  end.

Definition _compute_proposed (it : Item) : X path :=
  let p := proposal_id it in
  let! job_meta <- get_meta;
  let had_intent := bool_decide (is_Some (job_meta !! intent_key p)) in
  let moved := bool_decide (is_Some (job_meta !! _moved_flag_key p)) in
  let! intent_hash <- (if job && negb had_intent && negb moved then record_intent it job_meta
                       else xret (job_meta !! intent_key p));
  let checked_item := with_hash it intent_hash in
  then! set_step StepCopy;
  then! record_event (Moving p (sha256_hash checked_item));
  let! result <- on_disk (MoveFs.move fold casefold sha256 dev env token resolver
                            (MoveRequest checked_item scan_roots (moved || had_intent)));
  then! record_event (EngineReturned p (proposed result) (committed_now result));
  then! (if committed_now result && job then
           let! m <- get_meta;
           except (send (CallUpdate (<[_moved_flag_key p := "1"%string]> m))) (fun _ => xraise ExecCommittedReportError)
         else xret ());
  xret (proposed result).

Definition dest_display (it : Item) : string :=
  if bool_decide (proposed_path it = "") then proposed_filename it
  else rstrip_slash (proposed_path it) +:+ "/" +:+ proposed_filename it.

(** What an ordinary failure of a proposal leads to. *)
Definition settle_failure (ctx : report_ctx) (exc : xexn) (start_logged : bool) : X bool :=
  let p := proposal_id (r_item ctx) in
  let! current <- get_step;
  let failed_step := step_str (_classify_failure_step current exc) in
  let formatted_error := take_chars 500 (failed_step +:+ ": " +:+ exc_str exc) in
  then! (if job then
           let! m <- get_meta;
           except (send (CallUpdate (<[failed_error_key p := formatted_error]> (<[failed_step_key p := failed_step]> m))))
             (fun _ => xraise ExecOutcomePersistenceError)
         else xret ());
  then! _report_failure ctx failed_step formatted_error start_logged;
  xret false.

Definition _execute_one (it : Item) (last : bool) (log_id request_id : string) : X bool :=
  let p := proposal_id it in
  let ctx := ReportCtx it log_id request_id last
               (Log p "move" (source_path it) (dest_display it) false XIN_PROGRESS None) in
  let! start_logged <- except (then! post_execution_log ctx; xret true) (fun _ => xret false);
  let! job_meta <- get_meta;
  match job_meta !! failed_step_key p with
  | Some failed_step =>
      match job_meta !! failed_error_key p with
      | Some formatted_error => then! _report_failure ctx failed_step formatted_error start_logged; xret false
      | None => xraise KeyError
      end
  | None =>
      then! set_step StepCopy;
      except
        (let! proposed <- _compute_proposed it;
         then! _report_success ctx proposed start_logged (bool_decide (is_Some (sha256_hash it)));
         xret true)
        (fun exc => match exc with
                    | ExecBatchTerminalReportError | ExecCommittedReportError | ExecOutcomePersistenceError => xraise exc
                    | _ => settle_failure ctx exc start_logged
                    end)
  end.

(** ** The task *)

Record batch_result : Type := BatchResult { processed_count : nat; error_count : nat }.

(** [status] *)
Definition final_status (r : batch_result) : string :=
  if bool_decide (error_count r = 0) then "completed" else "completed_with_errors".

Fixpoint execute_loop (logs reqs : gmap string string) (items : list Item) (r : batch_result) : X batch_result :=
  match items with
  | [] => xret r
  | it :: rest =>
      let p := proposal_id it in
      let! ok <- _execute_one it (bool_decide (rest = [])) (default "" (logs !! p)) (default "" (reqs !! p));
      execute_loop logs reqs rest (BatchResult (S (processed_count r)) (if ok : bool then error_count r else S (error_count r)))
  end.

(** The identifiers of a run without a job: the audit ids first. *)
Definition fresh_uuids (items : list Item) : X (gmap string string) := fun w =>
  (XWorld (meta w) (server w) (redis_state w) (disk w) (drawn w + length items) (awaits w) (history w),
   Ok (fold_left (fun m (ip : nat * string) => <[ip.2 := uuid4 ip.1]> m)
         (zip (seq (drawn w) (length items)) (map proposal_id items)) ∅)).

Definition draw_seeds (items : list Item) : X seeded := fun w =>
  let s := _load_or_seed_uuids uuid4 (meta w) (drawn w) items in
  (XWorld (meta w) (server w) (redis_state w) (disk w) (seeded_drawn s) (awaits w) (history w), Ok s).

Definition execute_approved_batch (items : list Item) : X batch_result :=
  if bool_decide (scan_roots = []) then xraise (RuntimeError "agent has no scan_roots configured; cannot execute batch")
  else
    let! (logs, reqs) <- (if job then
                            let! s <- draw_seeds items;
                            then! (if changed s then send (CallUpdate (seeded_meta s)) else xret ());
                            xret (log_ids s, request_ids s)
                          else
                            let! l <- fresh_uuids items;
                            let! r <- fresh_uuids items;
                            xret (l, r));
    execute_loop logs reqs items (BatchResult 0 0).

End task.

(** ** What the job's meta knows about its reports *)

Definition failed_report (p : string) (e : xevent) : Prop :=
  match e with
  | Sent (CallApi (ReqState q b)) _ _ => q = p /\ proposal_state b = FAILED
  | Sent (CallProgress q b) _ _ => q = p /\ p_terminal_step b = TFailed
  | _ => False
  end.

(** The start of a move, and the reports of its success. *)
Definition acts (p : string) (e : xevent) : Prop :=
  match e with
  | Sent (CallApi (ReqState q b)) _ _ => q = p /\ proposal_state b <> FAILED
  | Sent (CallProgress q b) _ _ => q = p /\ p_terminal_step b <> TFailed
  | Moving q _ => q = p
  | _ => False
  end.

Definition failure_kept (m : gmap string string) (p : string) (Q : string -> string -> Prop) : Prop :=
  exists st err, m !! failed_step_key p = Some st /\ m !! failed_error_key p = Some err /\ Q st err.

Definition consistent (m : gmap string string) (e : xevent) : Prop :=
  match e with
  | Sent (CallApi (ReqCreate id row)) _ _ => m !! log_key (log_proposal row) = Some id
  | Sent (CallApi (ReqPatch id _)) _ _ => exists p, m !! log_key p = Some id
  | Sent (CallApi (ReqState p b)) _ _ =>
      proposal_state b = FAILED -> failure_kept m p (fun _ err => patch_error b = Some err)
  | Sent (CallProgress p b) _ _ =>
      m !! request_key p = Some (request_id b) /\
      (p_terminal_step b = TFailed -> failure_kept m p (fun st _ => failed_at_step b = step_of st))
  | _ => True
  end.

Fixpoint ordered (l : list xevent) : Prop :=
  match l with
  | [] => True
  | e :: l' => (forall p, acts p e -> Forall (fun e' => ~ failed_report p e') l') /\ ordered l'
  end.

Record replayable (w : xworld) : Prop := {
  rp_consistent : Forall (consistent (meta w)) (history w);
  rp_ordered : ordered (history w);
}.

(** What a meta update keeps. *)
Definition grows (m m' : gmap string string) : Prop :=
  (forall p v, m !! log_key p = Some v -> m' !! log_key p = Some v) /\
  (forall p v, m !! request_key p = Some v -> m' !! request_key p = Some v) /\
  (forall p st, m !! failed_step_key p = Some st ->
     m' !! failed_step_key p = Some st /\ m' !! failed_error_key p = m !! failed_error_key p).

#[export] Instance grows_preorder : PreOrder grows.
Proof.
  split; [by intros m; split_and!; auto|]. intros m1 m2 m3 (A1 & A2 & A3) (B1 & B2 & B3). split_and!; [auto|auto|].
  intros p st Hp. destruct (A3 p st Hp) as [H1 H2]. destruct (B3 p st H1) as [H3 H4]. split; congruence.
Qed.

Lemma consistent_grows m m' e : grows m m' -> consistent m e -> consistent m' e.
Proof.
  intros (Hl & Hr & Hf).
  assert (Hk : forall p Q, failure_kept m p Q -> failure_kept m' p Q).
  { intros p Q (st & err & H1 & H2 & H3). destruct (Hf p st H1) as [H4 H5]. exists st, err. split_and!; [done|congruence|done]. }
  destruct e as [[[q b|id row|id b]|q b|m1] arr ack|p h|p d c]; simpl; auto.
  - intros [p Hp]. eauto.
  - intros [H1 H2]. split; auto.
Qed.

(** No failure on record: none was reported. *)
Lemma no_failed_report m l p :
  Forall (consistent m) l -> m !! failed_step_key p = None -> Forall (fun e => ~ failed_report p e) l.
Proof.
  intros Hl Hn. eapply Forall_impl; [exact Hl|]. intros e He Hf.
  destruct e as [[[q b|id row|id b]|q b|m1] arr ack|q h|q d c]; simpl in *; try done; destruct Hf as [-> Hf].
  - destruct (He Hf) as (st & err & H1 & _). congruence.
  - destruct (proj2 He Hf) as (st & err & H1 & _). congruence.
Qed.

Lemma replayable_event w w' e :
  replayable w -> meta w' = meta w -> history w' = e :: history w -> consistent (meta w) e ->
  (forall p, acts p e -> meta w !! failed_step_key p = None) -> replayable w'.
Proof.
  intros [Hc Ho] Hm Hh He Ha. constructor; rewrite ?Hm, Hh; [by constructor|]. split; [|done].
  intros p Hp. by eapply no_failed_report; [|apply Ha].
Qed.

Lemma replayable_meta w w' :
  replayable w -> grows (meta w) (meta w') -> history w' = history w -> replayable w'.
Proof.
  intros [Hc Ho] Hg Hh. constructor; rewrite Hh; [|done]. eapply Forall_impl; [exact Hc|]. intros e. by apply consistent_grows.
Qed.

(** Keys with different prefixes. *)
Lemma intent_grows m p h : grows m (<[intent_key p := h]> m).
Proof. split_and!; intros; rewrite !lookup_insert_ne by done; auto. Qed.

Lemma moved_grows m p h : grows m (<[_moved_flag_key p := h]> m).
Proof. split_and!; intros; rewrite !lookup_insert_ne by done; auto. Qed.

Lemma failed_step_key_inj p q : failed_step_key p = failed_step_key q -> p = q.
Proof. unfold failed_step_key. apply string_app_inj. Qed.

Lemma failed_error_key_inj p q : failed_error_key p = failed_error_key q -> p = q.
Proof. unfold failed_error_key. apply string_app_inj. Qed.

Lemma failed_grows m p st err :
  m !! failed_step_key p = None -> grows m (<[failed_error_key p := err]> (<[failed_step_key p := st]> m)).
Proof.
  intros Hn. split_and!; [intros; by rewrite !lookup_insert_ne|intros; by rewrite !lookup_insert_ne|].
  intros q st' Hq. assert (p <> q) by (intros ->; congruence).
  rewrite (lookup_insert_ne _ (failed_error_key p) (failed_step_key q)) by done.
  rewrite (lookup_insert_ne _ (failed_step_key p) (failed_step_key q)) by (intros Heq%failed_step_key_inj; done).
  rewrite (lookup_insert_ne _ (failed_error_key p) (failed_error_key q)) by (intros Heq%failed_error_key_inj; done).
  by rewrite (lookup_insert_ne _ (failed_step_key p) (failed_error_key q)).
Qed.

(** ** A logic for the task

    [P] and [Q] speak of the meta; [R] holds when an ordinary exception
    leaves. *)
Definition tr {A} (P : gmap string string -> Prop) (m : X A) (Q : A -> gmap string string -> Prop)
    (R : gmap string string -> Prop) : Prop :=
  forall w, replayable w -> P (meta w) ->
  let res := m w in
  replayable res.1 /\ grows (meta w) (meta res.1) /\
  match res.2 with Ok a => Q a (meta res.1) | Raise Killed => True | Raise _ => R (meta res.1) end.

Section logic.
Implicit Types (P R : gmap string string -> Prop).

Lemma tr_ret {A} (a : A) P R : tr P (xret a) (fun _ => P) R.
Proof. intros w Hw HP. split_and!; done. Qed.

Lemma tr_raise {A} e P (Q : A -> _) : tr P (xraise e) Q P.
Proof. intros w Hw HP. split_and!; [done|done|]. by destruct e. Qed.

Lemma tr_pre {A} P P' (m : X A) Q R : tr P' m Q R -> (forall x, P x -> P' x) -> tr P m Q R.
Proof. intros Hm HP w Hw Hp. apply Hm; auto. Qed.

Lemma tr_post {A} P (m : X A) Q Q' R R' :
  tr P m Q' R' -> (forall a x, Q' a x -> Q a x) -> (forall x, R' x -> R x) -> tr P m Q R.
Proof.
  intros Hm HQ HR w Hw Hp. destruct (Hm w Hw Hp) as (H1 & H2 & H3). split_and!; [done|done|].
  destruct (m w).2 as [a|[]]; auto.
Qed.

Lemma tr_bind {A B} P (m : X A) (k : A -> X B) Q1 Q R :
  tr P m Q1 R -> (forall a, tr (Q1 a) (k a) Q R) -> tr P (xbind m k) Q R.
Proof.
  intros Hm Hk w Hw Hp. destruct (Hm w Hw Hp) as (H1 & H2 & H3). unfold xbind.
  destruct (m w) as [w' [a|e]]; cbn [fst snd] in *; [|done].
  destruct (Hk a w' H1 H3) as (H4 & H5 & H6). split_and!; [done|by etransitivity|done].
Qed.

Lemma tr_except {A} P (m : X A) h Q R1 R :
  tr P m Q R1 -> (forall e, tr R1 (h e) Q R) -> tr P (except m h) Q R.
Proof.
  intros Hm Hh w Hw Hp. destruct (Hm w Hw Hp) as (H1 & H2 & H3). unfold except.
  destruct (m w) as [w' [a|e]]; cbn [fst snd] in *; [done|].
  assert (Hx : match e with Killed => True | _ => R1 (meta w') end) by (by destruct e).
  assert (Hy : e <> Killed -> let res := h e w' in replayable res.1 /\ grows (meta w) (meta res.1) /\
    match res.2 with Ok a => Q a (meta res.1) | Raise Killed => True | Raise _ => R (meta res.1) end).
  { intros Hne. destruct (Hh e w' H1) as (H4 & H5 & H6); [by destruct e|]. split_and!; [done|by etransitivity|done]. }
  destruct e; try by apply Hy. by split_and!.
Qed.

End logic.

Section sound.
Context (fold casefold sha256 : string -> string) (dev : dir -> nat) (env : nat -> env_step) (token : string).
Context (resolver : fs -> pure -> list string -> outcome string (dir * dir)).
Context (nfc : string -> string) (uuid4 : nat -> string) (errstr : errno -> string) (net : nat -> xfate).
Context (agent batch_id : string) (scan_roots : list string).

Abbreviation send := (send nfc net agent batch_id).

(** A call that is no meta update. *)
Lemma apply_call_frame c w : (forall m, c <> CallUpdate m) ->
  meta (apply_call nfc agent batch_id c w).1 = meta w /\ history (apply_call nfc agent batch_id c w).1 = history w.
Proof.
  intros Hc. destruct c as [r|p b|m]; simpl; [| |by destruct (Hc m)].
  - by destruct (serve nfc agent r (server w)).
  - by destruct (post_exec_batch_progress agent batch_id b (redis_state w)).
Qed.

Lemma tr_send (P : gmap string string -> Prop) c :
  (forall m, c <> CallUpdate m) ->
  (forall m arrived acked, P m -> consistent m (Sent c arrived acked)) ->
  (forall m p arrived acked, P m -> acts p (Sent c arrived acked) -> m !! failed_step_key p = None) ->
  tr P (send c) (fun _ => P) P.
Proof.
  intros Hc Hcons Hacts w Hw HP. destruct (apply_call_frame c (next_await w) Hc) as [Hm Hh].
  assert (Hev : forall w' a k, meta w' = meta w -> history w' = Sent c a k :: history w ->
    replayable w' /\ grows (meta w) (meta w') /\ P (meta w')).
  { intros w' a k Hm' Hh'. split; [|rewrite Hm'; by split]. eapply replayable_event; [done|done|done|by apply Hcons|].
    intros p Hp. by eapply Hacts. }
  unfold ExecTask.send. destruct (net (awaits w)) as [|[]|[]]; cbn [fst snd].
  - destruct (apply_call nfc agent batch_id c (next_await w)) as [w2 ok]; cbn [fst snd] in *.
    destruct (Hev (note (Sent c true ok) w2) true ok) as (H1 & H2 & H3); [done|by simpl; rewrite Hh|].
    split_and!; [done|done|by destruct ok].
  - destruct (Hev (note (Sent c true false) (apply_call nfc agent batch_id c (next_await w)).1) true false) as (H1 & H2 & H3);
      [done|by simpl; rewrite Hh|]. by split_and!.
  - by apply (Hev _ false false).
  - destruct (Hev (note (Sent c true false) (apply_call nfc agent batch_id c (next_await w)).1) true false) as (H1 & H2 & H3);
      [done|by simpl; rewrite Hh|]. by split_and!.
  - destruct (Hev (note (Sent c false false) (next_await w)) false false) as (H1 & H2 & H3); [done|done|]. by split_and!.
Qed.

(** A meta update, from a known meta. *)
Lemma tr_update (P Q R : gmap string string -> Prop) m0 m' :
  grows m0 m' -> (P m0 -> Q m') -> (P m0 -> R m0 /\ R m') ->
  tr (fun m => m = m0 /\ P m) (send (CallUpdate m')) (fun _ => Q) R.
Proof.
  intros Hg HQ HR w Hw [Hm HP]. rewrite Hm in HP. destruct (HR HP) as [HR1 HR2].
  assert (Hev : forall w' a k, (meta w' = meta w \/ meta w' = m') -> history w' = Sent (CallUpdate m') a k :: history w ->
    replayable w' /\ grows (meta w) (meta w')).
  { intros w' a k Hm' Hh'. assert (Hg' : grows (meta w) (meta w')) by (destruct Hm' as [->|Hm']; [done|by rewrite Hm', Hm]).
    split; [|done]. constructor; rewrite Hh'; [|split; [by intros p []|apply Hw]].
    constructor; [done|]. eapply Forall_impl; [apply Hw|]. intros e. by apply consistent_grows. }
  unfold ExecTask.send. destruct (net (awaits w)) as [|[]|[]]; simpl.
  - destruct (Hev (note (Sent (CallUpdate m') true true) (apply_call nfc agent batch_id (CallUpdate m') (next_await w)).1) true true)
      as [H1 H2]; [by right|done|]. split_and!; [done|done|auto].
  - destruct (Hev (note (Sent (CallUpdate m') true false) (apply_call nfc agent batch_id (CallUpdate m') (next_await w)).1) true false)
      as [H1 H2]; [by right|done|]. split_and!; [done|done|auto].
  - destruct (Hev (note (Sent (CallUpdate m') false false) (next_await w)) false false)
      as [H1 H2]; [by left|done|]. split_and!; [done|done|by rewrite Hm].
  - destruct (Hev (note (Sent (CallUpdate m') true false) (apply_call nfc agent batch_id (CallUpdate m') (next_await w)).1) true false)
      as [H1 H2]; [by right|done|]. by split_and!.
  - destruct (Hev (note (Sent (CallUpdate m') false false) (next_await w)) false false)
      as [H1 H2]; [by left|done|]. by split_and!.
Qed.

Lemma tr_get_meta {A} P (k : gmap string string -> X A) Q R :
  (forall m0, P m0 -> tr (fun m => m = m0 /\ P m) (k m0) Q R) -> tr P (xbind (get_meta true) k) Q R.
Proof. intros Hk w Hw HP. unfold xbind, get_meta. by apply (Hk (meta w)). Qed.

(** What changes neither the meta nor the history. *)
Lemma tr_frame {A} P (m : X A) :
  (forall w, meta (m w).1 = meta w /\ history (m w).1 = history w) -> tr P m (fun _ => P) P.
Proof.
  intros Hf w Hw HP. destruct (Hf w) as [Hm Hh]. split_and!; [|by rewrite Hm|rewrite Hm; by destruct (m w).2 as [|[]]].
  eapply replayable_meta; [done|by rewrite Hm|done].
Qed.

Lemma tr_on_disk {A} P (m : M FailedAtStep A) : tr P (on_disk net m) (fun _ => P) P.
Proof. apply tr_frame. intros w. unfold on_disk. destruct (net (awaits w)); by destruct (m (disk w)) as [d [a|e]]. Qed.

Lemma tr_set_step P s : tr P (set_step s) (fun _ => P) P.
Proof. by apply tr_frame. Qed.

Lemma tr_get_step P : tr P get_step (fun _ => P) P.
Proof. by apply tr_frame. Qed.

Lemma tr_note (P : gmap string string -> Prop) e :
  (forall m, consistent m e) -> (forall m p, P m -> acts p e -> m !! failed_step_key p = None) ->
  tr P (record_event e) (fun _ => P) P.
Proof.
  intros Hc Ha w Hw HP. split_and!; [|done|done]. eapply replayable_event; [done|done|done|done|]. intros p Hp. by eapply Ha.
Qed.

(** *** Reports *)

Definition known (p lid rid : string) (m : gmap string string) : Prop :=
  m !! log_key p = Some lid /\ m !! request_key p = Some rid.

Definition ctx_known (ctx : report_ctx) (m : gmap string string) : Prop :=
  known (proposal_id (r_item ctx)) (execution_log_id ctx) (progress_request_id ctx) m /\
  log_proposal (start_log ctx) = proposal_id (r_item ctx).

Lemma tr_post_log (P : gmap string string -> Prop) ctx :
  (forall m, P m -> ctx_known ctx m) -> tr P (post_execution_log nfc net agent batch_id ctx) (fun _ => P) P.
Proof.
  intros HP. apply tr_send; [done| |done]. intros m a k Hm. destruct (HP m Hm) as [[H1 H2] H3]. simpl. by rewrite H3.
Qed.

Lemma tr_swallow {A B} P (m : X A) (a b : B) :
  tr P m (fun _ => P) P -> tr P (except (then! m; xret a) (fun _ => xret b)) (fun _ => P) P.
Proof.
  intros Hm. eapply tr_except with (R1 := P); [|intros; apply tr_ret].
  eapply tr_bind; [exact Hm|]. intros u. apply tr_ret.
Qed.

Lemma tr_finalize (P : gmap string string -> Prop) ctx patch b :
  (forall m, P m -> ctx_known ctx m) -> tr P (_finalize_execution_log nfc net agent batch_id ctx patch b) (fun _ => P) P.
Proof.
  intros HP. unfold _finalize_execution_log. eapply tr_bind with (Q1 := fun _ => P).
  - unfold _ensure_start_log. destruct b; [apply tr_ret|]. apply tr_swallow. by apply tr_post_log.
  - intros logged. eapply tr_bind with (Q1 := fun _ => P); [|intros; apply tr_ret].
    eapply tr_except with (R1 := P); [|intros; apply tr_ret]. apply tr_send; [done| |done].
    intros m a k Hm. destruct (HP m Hm) as [[H1 H2] H3]. simpl. by exists (proposal_id (r_item ctx)).
Qed.

Lemma tr_terminal (P : gmap string string -> Prop) ctx t f :
  (forall m, P m -> ctx_known ctx m) ->
  (forall m, P m -> t = TFailed -> failure_kept m (proposal_id (r_item ctx)) (fun st _ => f = step_of st)) ->
  (forall m, P m -> t <> TFailed -> m !! failed_step_key (proposal_id (r_item ctx)) = None) ->
  tr P (_post_exec_batch_progress_terminal nfc net agent batch_id ctx t f) (fun _ => P) P.
Proof.
  intros HP Hfail Hok. unfold _post_exec_batch_progress_terminal. eapply tr_except with (R1 := P).
  - apply tr_send; [done| |].
    + intros m a k Hm. destruct (HP m Hm) as [[H1 H2] H3]. simpl. split; [done|]. intros Ht. by apply Hfail.
    + intros m p a k Hm [<- Ht]. by apply Hok.
  - intros e. unfold _report_progress_failure. destruct (negb _); [apply tr_ret|apply tr_raise].
Qed.

Lemma tr_report_success (P : gmap string string -> Prop) ctx dest b v :
  (forall m, P m -> ctx_known ctx m /\ m !! failed_step_key (proposal_id (r_item ctx)) = None) ->
  tr P (_report_success nfc net agent batch_id ctx dest b v) (fun _ => P) P.
Proof.
  intros HP. unfold _report_success. eapply tr_bind with (Q1 := fun _ => P); [apply tr_finalize; intros m Hm; by apply HP|].
  intros u0. eapply tr_bind with (Q1 := fun _ => P).
  - eapply tr_except with (R1 := P); [|intros; apply tr_raise]. apply tr_send; [done|by intros m a k Hm|].
    intros m p a k Hm [<- _]. by apply HP.
  - intros u. apply tr_terminal; [intros m Hm; by apply HP|done|intros m Hm Ht; by apply HP].
Qed.

Lemma tr_report_failure (P : gmap string string -> Prop) ctx st err b :
  (forall m, P m -> ctx_known ctx m /\ m !! failed_step_key (proposal_id (r_item ctx)) = Some st /\
     m !! failed_error_key (proposal_id (r_item ctx)) = Some err) ->
  tr P (_report_failure nfc net agent batch_id ctx st err b) (fun _ => P) P.
Proof.
  intros HP. unfold _report_failure. eapply tr_bind with (Q1 := fun _ => P); [apply tr_finalize; intros m Hm; by apply HP|].
  intros u0. eapply tr_bind with (Q1 := fun _ => P).
  - eapply tr_except with (R1 := P); [|intros; apply tr_ret]. apply tr_send; [done| |].
    + intros m a k Hm _. destruct (HP m Hm) as (_ & H1 & H2). by exists st, err.
    + by intros m p a k Hm [_ Hne].
  - intros u. apply tr_terminal; [intros m Hm; by apply HP| |done].
    intros m Hm _. destruct (HP m Hm) as (_ & H1 & H2). by exists st, err.
Qed.

(** *** The task *)

Lemma tr_ret_true {A} (a : A) P : tr P (xret a) (fun _ _ => True) (fun _ => True).
Proof. by intros w Hw HP. Qed.

Lemma tr_raise_true {A} e P : tr P (xraise e) (fun (_ : A) _ => True) (fun _ => True).
Proof. intros w Hw HP. split_and!; [done|done|by destruct e]. Qed.

Definition unfailed (p lid rid : string) (m : gmap string string) : Prop :=
  known p lid rid m /\ m !! failed_step_key p = None.

Lemma unfailed_insert p lid rid m k v :
  k <> failed_step_key p -> (forall q, k <> log_key q) -> (forall q, k <> request_key q) ->
  unfailed p lid rid m -> unfailed p lid rid (<[k := v]> m).
Proof.
  intros H1 H2 H3 [[Hl Hr] Hf]. split; [split|]; by rewrite lookup_insert_ne.
Qed.

Lemma tr_record_intent it lid rid m0 :
  tr (fun m => m = m0 /\ unfailed (proposal_id it) lid rid m)
     (record_intent fold sha256 dev env resolver nfc net agent batch_id scan_roots it m0)
     (fun _ => unfailed (proposal_id it) lid rid) (unfailed (proposal_id it) lid rid).
Proof.
  unfold record_intent. set (P := fun m => m = m0 /\ unfailed (proposal_id it) lid rid m).
  assert (HPu : forall m, P m -> unfailed (proposal_id it) lid rid m) by (by intros m []).
  eapply tr_bind with (Q1 := fun _ => P); [eapply tr_post; [apply tr_on_disk|done|done]|].
  intros [source []]; [eapply tr_pre; [apply tr_ret|done]|].
  eapply tr_bind with (Q1 := fun _ => P); [eapply tr_post; [apply tr_set_step|done|done]|]. intros u0.
  eapply tr_bind with (Q1 := fun _ => P); [eapply tr_post; [apply tr_on_disk|done|done]|]. intros h.
  match goal with |- tr _ (if ?b then _ else _) _ _ => destruct b end; [eapply tr_pre; [apply tr_raise|done]|].
  eapply tr_bind with (Q1 := fun _ => unfailed (proposal_id it) lid rid); [|intros u; apply tr_ret].
  eapply tr_except with (R1 := unfailed (proposal_id it) lid rid); [|intros; apply tr_raise].
  apply tr_update; [apply intent_grows| |].
  - intros Hu. by apply unfailed_insert.
  - intros Hu. split; [done|]. by apply unfailed_insert.
Qed.

Lemma tr_compute_proposed it lid rid :
  tr (unfailed (proposal_id it) lid rid)
     (_compute_proposed fold casefold sha256 dev env token resolver nfc net agent batch_id scan_roots true it)
     (fun _ => unfailed (proposal_id it) lid rid) (unfailed (proposal_id it) lid rid).
Proof.
  unfold _compute_proposed. set (P := unfailed (proposal_id it) lid rid). apply tr_get_meta. intros m0 Hm0.
  eapply tr_bind with (Q1 := fun _ => P).
  { match goal with |- tr _ (if ?b then _ else _) _ _ => destruct b end; [apply tr_record_intent|].
    eapply tr_pre with (P' := P); [apply tr_ret|by intros m []]. }
  intros h. eapply tr_bind with (Q1 := fun _ => P); [apply tr_set_step|]. intros u0.
  eapply tr_bind with (Q1 := fun _ => P).
  { apply tr_note; [done|]. intros m p [_ Hf] <-. exact Hf. }
  intros u1. eapply tr_bind with (Q1 := fun _ => P); [apply tr_on_disk|]. intros result.
  eapply tr_bind with (Q1 := fun _ => P); [by apply tr_note|]. intros u2.
  eapply tr_bind with (Q1 := fun _ => P); [|intros u3; apply tr_ret].
  destruct (committed_now result && true); [|apply tr_ret]. apply tr_get_meta. intros m1 Hm1.
  eapply tr_except with (R1 := P); [|intros; apply tr_raise]. apply tr_update; [apply moved_grows| |].
  - intros Hu. by apply unfailed_insert.
  - intros Hu. split; [done|]. by apply unfailed_insert.
Qed.

Lemma tr_settle_failure ctx exc b :
  log_proposal (start_log ctx) = proposal_id (r_item ctx) ->
  tr (unfailed (proposal_id (r_item ctx)) (execution_log_id ctx) (progress_request_id ctx))
     (settle_failure nfc errstr net agent batch_id true ctx exc b) (fun _ _ => True) (fun _ => True).
Proof.
  intros Hctx. unfold settle_failure. set (P := unfailed _ _ _). set (p := proposal_id (r_item ctx)) in *.
  eapply tr_bind with (Q1 := fun _ => P); [eapply tr_post; [apply tr_get_step|done|done]|]. intros current.
  set (st := step_str _). set (err := take_chars _ _).
  set (Pf := fun m => ctx_known ctx m /\ m !! failed_step_key p = Some st /\ m !! failed_error_key p = Some err).
  eapply tr_bind with (Q1 := fun _ => Pf).
  - apply tr_get_meta. intros m0 Hm0. eapply tr_except with (R1 := fun _ => True).
    + apply tr_update; [apply failed_grows, Hm0| |done]. intros [[Hl Hr] Hf]. split.
      * split; [|done]. by split; rewrite !lookup_insert_ne.
      * rewrite lookup_insert_ne by done. by rewrite !lookup_insert_eq.
    + intros e. eapply tr_pre; [apply tr_raise|done].
  - intros u. eapply tr_bind with (Q1 := fun _ => Pf); [|intros u0; apply tr_ret_true].
    eapply tr_post; [apply (tr_report_failure Pf)|done|done]. by intros m Hm.
Qed.

Abbreviation execute_one := (_execute_one fold casefold sha256 dev env token resolver nfc errstr net agent batch_id scan_roots true).

Lemma tr_execute_one it last lid rid :
  tr (known (proposal_id it) lid rid) (execute_one it last lid rid) (fun _ _ => True) (fun _ => True).
Proof.
  unfold _execute_one. set (ctx := ReportCtx _ _ _ _ _). set (P := known (proposal_id it) lid rid).
  eapply tr_bind with (Q1 := fun _ => P).
  { eapply tr_post; [apply (tr_swallow P)|done|done]. apply tr_post_log. by intros m Hm. }
  intros b. apply tr_get_meta. intros m0 Hm0. destruct (m0 !! failed_step_key (proposal_id it)) as [st|] eqn:Hst.
  - destruct (m0 !! failed_error_key (proposal_id it)) as [err|] eqn:Herr; [|apply tr_raise_true].
    eapply tr_bind with (Q1 := fun _ _ => True); [|intros u; apply tr_ret_true].
    eapply tr_post; [apply (tr_report_failure (fun m => m = m0 /\ P m))|done|done]. intros m [-> Hm]. by split_and!.
  - set (U := unfailed (proposal_id it) lid rid). eapply tr_pre with (P' := U); [|intros m [-> ?]; by split].
    eapply tr_bind with (Q1 := fun _ => U); [eapply tr_post; [apply tr_set_step|done|done]|]. intros u0.
    eapply tr_except with (R1 := U).
    + eapply tr_bind with (Q1 := fun _ => U); [apply tr_compute_proposed|]. intros dest.
      eapply tr_bind with (Q1 := fun _ => U); [|intros u; apply tr_ret_true].
      apply tr_report_success. intros m [Hk Hn]. by split_and!.
    + intros exc. assert (Hr : tr U (xraise exc) (fun (_ : bool) _ => True) (fun _ => True)).
      { apply tr_raise_true. }
      destruct exc; try exact Hr; by apply (tr_settle_failure ctx).
Qed.

(** *** Seeding *)

Definition seeds_known (s : seeded) : Prop :=
  forall p, (forall v, log_ids s !! p = Some v -> seeded_meta s !! log_key p = Some v) /\
            (forall v, request_ids s !! p = Some v -> seeded_meta s !! request_key p = Some v).

Lemma key_inj pre p q : pre +:+ p = pre +:+ q -> p = q.
Proof. apply string_app_inj. Qed.

Lemma seed_one_known s p : seeds_known s ->
  seeds_known (seed_one uuid4 s p) /\ grows (seeded_meta s) (seeded_meta (seed_one uuid4 s p)) /\
  is_Some (log_ids (seed_one uuid4 s p) !! p) /\ is_Some (request_ids (seed_one uuid4 s p) !! p) /\
  (forall q, is_Some (log_ids s !! q) -> is_Some (log_ids (seed_one uuid4 s p) !! q)) /\
  (forall q, is_Some (request_ids s !! q) -> is_Some (request_ids (seed_one uuid4 s p) !! q)) /\
  (changed (seed_one uuid4 s p) = changed s /\ seeded_meta (seed_one uuid4 s p) = seeded_meta s \/
   changed (seed_one uuid4 s p) = true).
Proof.
  intros Hs. unfold seed_one.
  assert (Hins : forall (m : gmap string string) q v x, is_Some (m !! x) -> is_Some (<[q := v]> m !! x)).
  { intros m q v x Hx. destruct (decide (q = x)) as [->|]; [by rewrite lookup_insert_eq|by rewrite lookup_insert_ne]. }
  set (s1 := seed_log uuid4 s p).
  assert (H1 : seeds_known s1 /\ grows (seeded_meta s) (seeded_meta s1) /\ is_Some (log_ids s1 !! p) /\
    request_ids s1 = request_ids s /\ (forall q, is_Some (log_ids s !! q) -> is_Some (log_ids s1 !! q)) /\
    (changed s1 = changed s /\ seeded_meta s1 = seeded_meta s \/ changed s1 = true)).
  { unfold s1, seed_log. destruct (seeded_meta s !! log_key p) as [id|] eqn:Hid; simpl; split_and!; auto.
    - intros q. simpl. split; [|apply Hs]. intros v. rewrite lookup_insert_Some. intros [[<- <-]|[_ Hv]]; [done|by apply Hs].
    - done.
    - rewrite lookup_insert_eq. by eexists.
    - intros q. simpl. split.
      + intros v. rewrite lookup_insert_Some. intros [[<- <-]|[Hne Hv]]; [by rewrite lookup_insert_eq|].
        rewrite lookup_insert_ne; [by apply Hs|]. intros Heq%key_inj. done.
      + intros v Hv. rewrite lookup_insert_ne by done. by apply Hs.
    - split_and!; [|by intros; rewrite lookup_insert_ne|by intros; rewrite !lookup_insert_ne].
      intros q v Hv. rewrite lookup_insert_ne; [done|]. intros Heq. unfold log_key in *. congruence.
    - rewrite lookup_insert_eq. by eexists. }
  clearbody s1. destruct H1 as (Hk1 & Hg1 & Hl1 & Hr1 & Hm1 & Hc1). unfold seed_request.
  destruct (seeded_meta s1 !! request_key p) as [id|] eqn:Hid; simpl; split_and!; auto.
  - intros q. simpl. split; [apply Hk1|]. intros v. rewrite lookup_insert_Some. intros [[<- <-]|[_ Hv]]; [done|by apply Hk1].
  - rewrite lookup_insert_eq. by eexists.
  - intros q. rewrite <- Hr1. auto.
  - intros q. simpl. split.
    + intros v Hv. rewrite lookup_insert_ne by done. by apply Hk1.
    + intros v. rewrite lookup_insert_Some. intros [[<- <-]|[Hne Hv]]; [by rewrite lookup_insert_eq|].
      rewrite lookup_insert_ne; [by apply Hk1|]. intros Heq%key_inj. done.
  - etransitivity; [exact Hg1|]. split_and!; [by intros; rewrite lookup_insert_ne| |by intros; rewrite !lookup_insert_ne].
    intros q v Hv. rewrite lookup_insert_ne; [done|]. intros Heq. unfold request_key in *. congruence.
  - rewrite lookup_insert_eq. by eexists.
  - intros q. rewrite <- Hr1. auto.
Qed.

Lemma seed_all_known items m n :
  let s := _load_or_seed_uuids uuid4 m n items in
  seeds_known s /\ grows m (seeded_meta s) /\
  (forall it, it ∈ items -> is_Some (log_ids s !! proposal_id it) /\ is_Some (request_ids s !! proposal_id it)) /\
  (changed s = false -> seeded_meta s = m).
Proof.
  unfold _load_or_seed_uuids. set (s0 := Seeded ∅ ∅ m false n).
  assert (Hgen : forall items s, seeds_known s ->
    let s' := fold_left (seed_one uuid4) (map proposal_id items) s in
    seeds_known s' /\ grows (seeded_meta s) (seeded_meta s') /\
    (forall it, it ∈ items -> is_Some (log_ids s' !! proposal_id it) /\ is_Some (request_ids s' !! proposal_id it)) /\
    (forall q, is_Some (log_ids s !! q) -> is_Some (log_ids s' !! q)) /\
    (forall q, is_Some (request_ids s !! q) -> is_Some (request_ids s' !! q)) /\
    (changed s' = false -> changed s = false /\ seeded_meta s' = seeded_meta s)).
  { clear items. induction items as [|it items IH]; intros s Hs; simpl; [split_and!; try done; intros it []%elem_of_nil|].
    destruct (seed_one_known s (proposal_id it) Hs) as (K1 & G1 & L1 & R1 & LM & RM & C1).
    destruct (IH _ K1) as (K2 & G2 & A2 & LM2 & RM2 & C2). split_and!; [done|by etransitivity| |by auto|by auto|].
    - intros it' [->|Hin]%elem_of_cons; [split; auto|by apply A2].
    - intros Hc. destruct (C2 Hc) as [C3 M3]. destruct C1 as [[C1 M1]|C1]; [|congruence]. split; congruence. }
  destruct (Hgen items s0) as (K & G & A & _ & _ & C); [intros p; split; intros v Hv; simpl in Hv; by rewrite lookup_empty in Hv|].
  split_and!; [done|done|done|]. intros Hc. by apply C.
Qed.

Lemma tr_stable {A} (F P : gmap string string -> Prop) (m : X A) Q R :
  (forall x y, grows x y -> F x -> F y) -> tr P m Q R ->
  tr (fun x => P x /\ F x) m (fun a x => Q a x /\ F x) (fun x => R x /\ F x).
Proof.
  intros HF Hm w Hw [HP Hf]. destruct (Hm w Hw HP) as (H1 & H2 & H3). split_and!; [done|done|].
  specialize (HF _ _ H2 Hf). destruct (m w).2 as [a|[]]; by split.
Qed.

Definition ids_kept (logs reqs m : gmap string string) : Prop :=
  forall p, (forall v, logs !! p = Some v -> m !! log_key p = Some v) /\ (forall v, reqs !! p = Some v -> m !! request_key p = Some v).

Lemma ids_kept_grows logs reqs m m' : grows m m' -> ids_kept logs reqs m -> ids_kept logs reqs m'.
Proof. intros (H1 & H2 & _) Hk p. destruct (Hk p). split; auto. Qed.

Abbreviation run_loop := (execute_loop fold casefold sha256 dev env token resolver nfc errstr net agent batch_id scan_roots true).

Lemma tr_loop logs reqs items : forall r,
  (forall it, it ∈ items -> is_Some (logs !! proposal_id it) /\ is_Some (reqs !! proposal_id it)) ->
  tr (ids_kept logs reqs) (run_loop logs reqs items r) (fun _ _ => True) (fun _ => True).
Proof.
  induction items as [|it items IH]; intros r Hids; simpl; [apply tr_ret_true|].
  destruct (Hids it) as [[lid Hl] [rid Hr]]; [by left|]. rewrite Hl, Hr. simpl.
  eapply tr_bind with (Q1 := fun _ => ids_kept logs reqs).
  - eapply tr_pre with (P' := fun m => known (proposal_id it) lid rid m /\ ids_kept logs reqs m).
    + eapply tr_post; [apply tr_stable; [apply ids_kept_grows|apply tr_execute_one]|by intros a x []|done].
    + intros m Hm. split; [|done]. destruct (Hm (proposal_id it)) as [H1 H2]. split; auto.
  - intros ok. apply IH. intros it' Hin. apply Hids. by right.
Qed.

Lemma tr_batch items :
  tr (fun _ => True) (execute_approved_batch fold casefold sha256 dev env token resolver nfc uuid4 errstr net agent batch_id scan_roots true items)
    (fun _ _ => True) (fun _ => True).
Proof.
  unfold execute_approved_batch. case_bool_decide; [apply tr_raise_true|].
  eapply tr_bind with (Q1 := fun lr m => ids_kept lr.1 lr.2 m /\
    forall it, it ∈ items -> is_Some (lr.1 !! proposal_id it) /\ is_Some (lr.2 !! proposal_id it)).
  - intros w Hw _. unfold xbind, draw_seeds. destruct (seed_all_known items (meta w) (drawn w)) as (K & G & A & C).
    set (s := _load_or_seed_uuids uuid4 (meta w) (drawn w) items) in *.
    set (w1 := XWorld (meta w) (server w) (redis_state w) (disk w) (seeded_drawn s) (awaits w) (history w)).
    assert (Hw1 : replayable w1) by (eapply (replayable_meta w); [done|done|done]).
    destruct (changed s) eqn:Hch.
    + pose proof (tr_update (fun _ => True) (ids_kept (log_ids s) (request_ids s)) (fun _ => True) (meta w) (seeded_meta s) G
        (fun _ => K) (fun _ => conj I I) w1 Hw1 (conj eq_refl I)) as (H1 & H2 & H3).
      destruct (send (CallUpdate (seeded_meta s)) w1) as [w2 [u|e]]; cbn [fst snd] in *; [by split_and!|].
      by split_and!; [| |destruct e].
    + simpl. split_and!; [done|done| |done]. rewrite <- (C eq_refl). exact K.
  - intros [logs reqs]. intros w Hw [Hk Hin]. by apply (tr_loop logs reqs items (BatchResult 0 0) Hin w Hw Hk).
Qed.

End sound.

(** ** Replays of one job *)

(** What a replay starts with, apart from the job. *)
Record attempt : Type := Attempt {
  a_net : nat -> xfate;
  a_env : nat -> env_step;
  a_token : string;
  a_resolver : fs -> pure -> list string -> outcome string (dir * dir);
  a_disk : FsModel.world FailedAtStep;
  a_server : Reports.db;
  a_redis : redis;
}.

Section replays.
Context (fold casefold sha256 : string -> string) (dev : dir -> nat).
Context (nfc : string -> string) (uuid4 : nat -> string) (errstr : errno -> string).
Context (agent batch_id : string) (scan_roots : list string) (items : list Item).

Definition attempt_run (w : xworld) (a : attempt) : xworld * outcome xexn batch_result :=
  execute_approved_batch fold casefold sha256 dev (a_env a) (a_token a) (a_resolver a) nfc uuid4 errstr (a_net a) agent batch_id
     scan_roots true items
     (XWorld (meta w) (a_server a) (a_redis a) (a_disk a) (drawn w) 0 (history w)).

Definition attempts_run (l : list attempt) (w : xworld) : xworld := fold_left (fun w a => (attempt_run w a).1) l w.

Lemma attempts_replayable l w : replayable w -> replayable (attempts_run l w).
Proof.
  revert w. induction l as [|a l IH]; intros w Hw; simpl; [done|]. apply IH. unfold attempt_run.
  apply tr_batch; [|done]. by eapply (replayable_meta w).
Qed.

Lemma ordered_split l1 e l2 p : ordered (l1 ++ e :: l2) -> acts p e -> Forall (fun e' => ~ failed_report p e') l2.
Proof. induction l1 as [|e1 l1 IH]; simpl; [intros [H _] Ha; by apply H|]. intros [_ H]. by apply IH. Qed.

(** C8: replays tell one story.  Over any number of attempts at one job, each
    killed anywhere or failing anywhere, with any file system, server and
    network each time: a proposal is reported under one audit id and one
    request id; all its failure reports name one error and one step; and once
    a failure was reported, no attempt starts its move or reports it done. *)
Theorem replays_tell_one_story l w0 :
  history w0 = [] ->
  let h := history (attempts_run l w0) in
  (forall p b1 b2 a1 a2 k1 k2, Sent (CallProgress p b1) a1 k1 ∈ h -> Sent (CallProgress p b2) a2 k2 ∈ h ->
     request_id b1 = request_id b2 /\
     (p_terminal_step b1 = TFailed -> p_terminal_step b2 = TFailed -> failed_at_step b1 = failed_at_step b2)) /\
  (forall i1 i2 r1 r2 a1 a2 k1 k2, Sent (CallApi (ReqCreate i1 r1)) a1 k1 ∈ h -> Sent (CallApi (ReqCreate i2 r2)) a2 k2 ∈ h ->
     log_proposal r1 = log_proposal r2 -> i1 = i2) /\
  (forall p b1 b2 a1 a2 k1 k2, Sent (CallApi (ReqState p b1)) a1 k1 ∈ h -> Sent (CallApi (ReqState p b2)) a2 k2 ∈ h ->
     proposal_state b1 = FAILED -> proposal_state b2 = FAILED -> patch_error b1 = patch_error b2) /\
  (forall p later e earlier, h = later ++ e :: earlier -> acts p e -> forall e', e' ∈ earlier -> ~ failed_report p e').
Proof.
  intros Hh h. destruct (attempts_replayable l w0) as [Hc Ho]; [by constructor; rewrite Hh|]. fold h in Hc, Ho.
  rewrite Forall_forall in Hc. split_and!.
  - intros p b1 b2 a1 a2 k1 k2 H1%Hc H2%Hc. simpl in *. destruct H1 as [R1 F1], H2 as [R2 F2]. split; [congruence|].
    intros T1 T2. destruct (F1 T1) as (st1 & err1 & A1 & _ & B1), (F2 T2) as (st2 & err2 & A2 & _ & B2). congruence.
  - intros i1 i2 r1 r2 a1 a2 k1 k2 H1%Hc H2%Hc Heq. simpl in *. congruence.
  - intros p b1 b2 a1 a2 k1 k2 H1%Hc H2%Hc T1 T2. simpl in *.
    destruct (H1 T1) as (st1 & err1 & _ & A1 & B1), (H2 T2) as (st2 & err2 & _ & A2 & B2). congruence.
  - intros p later e earlier Heq Ha e' He'. rewrite Heq in Ho. pose proof (ordered_split _ _ _ _ Ho Ha) as Hf.
    rewrite Forall_forall in Hf. by apply Hf.
Qed.

End replays.

(** ** What one attempt reports *)

(** [ev m Phi]: the events a run of [m] adds, newest first, with its result. *)
Definition ev {A} (m : X A) (Phi : list xevent -> outcome xexn A -> Prop) : Prop :=
  forall w, exists n, history (m w).1 = n ++ history w /\ Phi n (m w).2.

Lemma ev_ret {A} (a : A) (Phi : _ -> _ -> Prop) : Phi [] (Ok a) -> ev (xret a) Phi.
Proof. intros H w. by exists []. Qed.

Lemma ev_raise {A} e (Phi : _ -> _ -> Prop) : Phi [] (Raise e) -> ev (xraise (A := A) e) Phi.
Proof. intros H w. by exists []. Qed.

Lemma ev_impl {A} (m : X A) (Phi Psi : _ -> _ -> Prop) : ev m Psi -> (forall n r, Psi n r -> Phi n r) -> ev m Phi.
Proof. intros Hm HP w. destruct (Hm w) as (n & H1 & H2). exists n. auto. Qed.

Lemma ev_bind {A B} (m : X A) (k : A -> X B) (Psi : list xevent -> outcome xexn A -> Prop) Phi :
  ev m Psi -> (forall n e, Psi n (Raise e) -> Phi n (Raise e)) ->
  (forall n a, Psi n (Ok a) -> ev (k a) (fun n2 r => Phi (n2 ++ n) r)) -> ev (xbind m k) Phi.
Proof.
  intros Hm He Hk w. destruct (Hm w) as (n & H1 & H2). unfold xbind. destruct (m w) as [w' [a|e]]; cbn [fst snd] in *.
  - destruct (Hk n a H2 w') as (n2 & H3 & H4). exists (n2 ++ n). by rewrite H3, H1, app_assoc.
  - exists n. auto.
Qed.

Lemma ev_except {A} (m : X A) h (Psi Phi : list xevent -> outcome xexn A -> Prop) :
  ev m Psi -> (forall n a, Psi n (Ok a) -> Phi n (Ok a)) -> (forall n, Psi n (Raise Killed) -> Phi n (Raise Killed)) ->
  (forall n e, e <> Killed -> Psi n (Raise e) -> ev (h e) (fun n2 r => Phi (n2 ++ n) r)) -> ev (except m h) Phi.
Proof.
  intros Hm Ho Hki Hh w. destruct (Hm w) as (n & H1 & H2). unfold except. destruct (m w) as [w' [a|e]]; cbn [fst snd] in *.
  - exists n. auto.
  - assert (Hd : e = Killed \/ e <> Killed) by (destruct e; auto). destruct Hd as [->|Hne]; [exists n; auto|].
    destruct (Hh n e Hne H2 w') as (n2 & H3 & H4).
    assert (Heq : match e with Killed => (w', Raise Killed) | _ => h e w' end = h e w') by by destruct e.
    rewrite Heq. exists (n2 ++ n). by rewrite H3, H1, app_assoc.
Qed.

(** Neither a finished move nor a failure report. *)
Definition calm (e : xevent) : Prop := (forall p d c, e <> EngineReturned p d c) /\ forall p, ~ failed_report p e.
Definition motionless (e : xevent) : Prop := forall p d c, e <> EngineReturned p d c.

Definition executed_report (p : string) (dest : path) : xevent :=
  Sent (CallApi (ReqState p (StatePatch EXECUTED (Some moved) (Some (path_str dest)) None))) true true.

Definition closing (n : list xevent) : Prop :=
  exists p b, Sent (CallProgress p b) true true ∈ n /\ sub_batch_terminal b = true.

Ltac audit_calm := constructor; [split; [done|let p := fresh in let H := fresh in by intros p H]|constructor].

Section attempt.
Context (fold casefold sha256 : string -> string) (dev : dir -> nat) (env : nat -> env_step) (token : string).
Context (resolver : fs -> pure -> list string -> outcome string (dir * dir)).
Context (nfc : string -> string) (uuid4 : nat -> string) (errstr : errno -> string) (net : nat -> xfate).
Context (agent batch_id : string) (scan_roots : list string) (job : bool).

Abbreviation send := (send nfc net agent batch_id).

Definition call_like {A} (r : outcome xexn A) : Prop := match r with Ok _ | Raise CallError | Raise Killed => True | _ => False end.

Lemma apply_call_history c w : history (apply_call nfc agent batch_id c w).1 = history w.
Proof.
  destruct c as [r|p b|m]; simpl; [by destruct (serve nfc agent r (server w))| |done].
  by destruct (post_exec_batch_progress agent batch_id b (redis_state w)).
Qed.

Lemma ev_send c : ev (send c) (fun n r => call_like r /\ exists a k, n = [Sent c a k] /\ (is_ok r = true -> a = true /\ k = true)).
Proof.
  intros w. unfold ExecTask.send. pose proof (apply_call_history c (next_await w)) as Hh.
  destruct (net (awaits w)) as [|[]|[]]; cbn [fst snd]; try (eexists [_]; split; [by simpl; rewrite ?Hh|split; [done|by eexists _, _]]).
  destruct (apply_call nfc agent batch_id c (next_await w)) as [w2 ok]; cbn [fst snd] in *.
  exists [Sent c true ok]. split; [by simpl; rewrite Hh|]. split; [by destruct ok|]. exists true, ok. split; [done|]. by destruct ok.
Qed.

Lemma ev_silent {A} (m : X A) : (forall w, history (m w).1 = history w) -> ev m (fun n r => n = []).
Proof. intros Hm w. exists []. split; [apply Hm|done]. Qed.

Lemma ev_on_disk {A} (m : M FailedAtStep A) :
  ev (on_disk net m) (fun n r => n = [] /\ match r with Ok _ | Raise (FsExn _) | Raise Killed => True | _ => False end).
Proof.
  intros w. exists []. unfold on_disk. destruct (net (awaits w)); [| |done]; by destruct (m (disk w)) as [d [a|e]].
Qed.

(** *** Reports *)

Definition quietly {A} (n : list xevent) (r : outcome xexn A) : Prop := Forall calm n /\ (is_ok r = true \/ r = Raise Killed).

Lemma ev_swallow {A} c (a b : A) :
  (forall x y, calm (Sent c x y)) -> ev (except (then! send c; xret a) (fun _ => xret b)) quietly.
Proof.
  intros Hc. eapply ev_except with (Psi := fun n (_ : outcome xexn A) => exists x y, n = [Sent c x y] /\ True).
  - eapply ev_bind; [apply ev_send| |].
    + intros n e [_ (x & y & H & _)]. by exists x, y.
    + intros n u [_ (x & y & -> & _)]. apply ev_ret. by exists x, y.
  - intros n a' (x & y & -> & _). split; [|by left]. constructor; [apply Hc|constructor].
  - intros n (x & y & -> & _). split; [|by right]. constructor; [apply Hc|constructor].
  - intros n e _ (x & y & -> & _). apply ev_ret. split; [|by left]. constructor; [apply Hc|constructor].
Qed.

Lemma quietly_bind {A B} (m : X A) (k : A -> X B) : ev m quietly -> (forall a, ev (k a) quietly) -> ev (xbind m k) quietly.
Proof.
  intros Hm Hk. eapply ev_bind; [exact Hm| |].
  - intros n e [Hn [?|Hr]]; [done|]. split; [done|]. injection Hr as ->. by right.
  - intros n a [Hn _]. eapply ev_impl; [apply Hk|]. intros n2 r [Hn2 Hr]. split; [by apply Forall_app|done].
Qed.

Lemma ev_finalize ctx patch b : ev (_finalize_execution_log nfc net agent batch_id ctx patch b) quietly.
Proof.
  assert (Hr : forall {A} (a : A), ev (xret a) quietly) by (intros; apply ev_ret; split; [constructor|by left]).
  apply quietly_bind; [unfold _ensure_start_log; destruct b; [apply Hr|apply ev_swallow; intros x y; split; [done|by intros p Hp]]|]. intros logged.
  apply quietly_bind; [|intros; apply Hr]. eapply ev_except; [apply ev_send|..].
  - intros n u [_ (x & y & -> & _)]. split; [audit_calm|by left].
  - intros n [_ (x & y & -> & _)]. split; [audit_calm|by right].
  - intros n e _ [_ (x & y & -> & _)]. apply ev_ret. split; [audit_calm|by left].
Qed.

(** The last event closes the sub-batch, or the task raises. *)
Lemma ev_terminal ctx t f :
  ev (_post_exec_batch_progress_terminal nfc net agent batch_id ctx t f)
    (fun n r => Forall motionless n /\ (t <> TFailed -> Forall calm n) /\
       match r with Ok _ => is_last ctx = true -> closing n | Raise Killed | Raise ExecBatchTerminalReportError => True | _ => False end).
Proof.
  unfold _post_exec_batch_progress_terminal. set (b := Payload _ _ _ _ _).
  assert (Hc : forall x y, Forall motionless [Sent (CallProgress (proposal_id (r_item ctx)) b) x y] /\
    (t <> TFailed -> Forall calm [Sent (CallProgress (proposal_id (r_item ctx)) b) x y])).
  { intros x y. split; [by constructor|]. intros Ht. constructor; [|constructor]. split; [done|]. intros p [_ Hp]. done. }
  eapply ev_except; [apply ev_send|..].
  - intros n u [_ (x & y & -> & Hok)]. destruct (Hc x y). split_and!; [done|done|]. intros Hl.
    destruct (Hok eq_refl) as [-> ->]. exists (proposal_id (r_item ctx)), b. split; [by left|done].
  - intros n [_ (x & y & -> & _)]. destruct (Hc x y). by split_and!.
  - intros n e _ [_ (x & y & -> & _)]. destruct (Hc x y). unfold _report_progress_failure.
    destruct (is_last ctx) eqn:Hl; simpl; [apply ev_raise|apply ev_ret]; by split_and!.
Qed.

Lemma ev_report_success ctx dest b v :
  ev (_report_success nfc net agent batch_id ctx dest b v)
    (fun n r => Forall calm n /\
       match r with
       | Ok _ => executed_report (proposal_id (r_item ctx)) dest ∈ n /\ (is_last ctx = true -> closing n)
       | Raise Killed | Raise ExecBatchTerminalReportError | Raise ExecCommittedReportError => True
       | _ => False
       end).
Proof.
  unfold _report_success. eapply ev_bind; [apply ev_finalize| |].
  { intros n e [Hn [?|Hr]]; [done|]. injection Hr as ->. by split. }
  intros n0 logged [Hn0 _]. eapply ev_bind with (Psi := fun n r => Forall calm n /\
    match r with Ok _ => executed_report (proposal_id (r_item ctx)) dest ∈ n
    | Raise Killed | Raise ExecCommittedReportError => True | _ => False end).
  - assert (Hc : forall x y, Forall calm [Sent (CallApi (ReqState (proposal_id (r_item ctx))
      (StatePatch EXECUTED (Some moved) (Some (path_str dest)) None))) x y]).
    { intros x y. constructor; [|constructor]. split; [done|]. by intros p [_ ?]. }
    eapply ev_except; [apply ev_send|..].
    + intros n u [_ (x & y & -> & Hok)]. destruct (Hok eq_refl) as [-> ->]. split; [done|by left].
    + intros n [_ (x & y & -> & _)]. split; [apply Hc|done].
    + intros n e _ [_ (x & y & -> & _)]. apply ev_raise. split; [apply Hc|done].
  - intros n e [Hn Hr]. split; [by apply Forall_app|]. by destruct e.
  - intros n u [Hn Hx]. eapply ev_impl; [apply ev_terminal|]. intros n2 r (_ & Hc & Hr).
    split; [repeat (apply Forall_app; split); auto; by apply Hc|].
    destruct r as [u2|[]]; try done. split; [apply elem_of_app; left; apply elem_of_app; by right|].
    intros Hl. destruct (Hr Hl) as (p & bd & Hin & Ht). exists p, bd. split; [|done].
    apply elem_of_app. left. apply elem_of_app. by left.
Qed.

Lemma ev_report_failure ctx st err b :
  ev (_report_failure nfc net agent batch_id ctx st err b)
    (fun n r => Forall motionless n /\
       match r with
       | Ok _ => is_last ctx = true -> closing n
       | Raise Killed | Raise ExecBatchTerminalReportError => True
       | _ => False
       end).
Proof.
  assert (Hcm : forall n, Forall calm n -> Forall motionless n) by (intros n Hn; eapply Forall_impl; [exact Hn|]; by intros e []).
  unfold _report_failure. eapply ev_bind; [apply ev_finalize| |].
  { intros n e [Hn [?|Hr]]; [done|]. injection Hr as ->. split; auto. }
  intros n0 logged [Hn0 _]. eapply ev_bind with (Psi := fun n r => Forall motionless n /\ (is_ok r = true \/ r = Raise Killed)).
  - eapply ev_except; [apply ev_send|..].
    + intros n u [_ (x & y & -> & Hok)]. split; [by constructor|by left].
    + intros n [_ (x & y & -> & _)]. split; [by constructor|by right].
    + intros n e _ [_ (x & y & -> & _)]. apply ev_ret. split; [by constructor|by left].
  - intros n e [Hn [?|Hr]]; [done|]. injection Hr as ->. split; [|done]. apply Forall_app; auto.
  - intros n u [Hn Hx]. eapply ev_impl; [apply ev_terminal|]. intros n2 r (Hc & _ & Hr).
    split; [repeat (apply Forall_app; split); auto|].
    destruct r as [u2|[]]; try done. intros Hl. destruct (Hr Hl) as (p & bd & Hin & Ht). exists p, bd. split; [|done].
    apply elem_of_app. left. apply elem_of_app. by left.
Qed.

(** *** One proposal *)

Lemma ev_quiet_bind {A B} (m : X A) (k : A -> X B) Phi :
  (forall w, history (m w).1 = history w) -> (forall w e, (m w).2 = Raise e -> Phi [] (Raise e)) ->
  (forall a, ev (k a) Phi) -> ev (xbind m k) Phi.
Proof.
  intros Hm He Hk w. unfold xbind. specialize (Hm w). specialize (He w). destruct (m w) as [w' [a|e]]; cbn [fst snd] in *.
  - destruct (Hk a w') as (n & H1 & H2). exists n. by rewrite H1, Hm.
  - exists []. split; [done|by apply He].
Qed.

Lemma ev_disk_bind {A B} (m : M FailedAtStep A) (k : A -> X B) Phi :
  Phi [] (Raise Killed) -> (forall e, Phi [] (Raise (FsExn e))) ->
  (forall a, ev (k a) Phi) -> ev (xbind (on_disk net m) k) Phi.
Proof.
  intros H1 H2 Hk. eapply ev_bind; [apply ev_on_disk| |].
  - intros n e [-> He]. by destruct e.
  - intros n a [-> _]. eapply ev_impl; [apply Hk|]. intros n2 r. by rewrite app_nil_r.
Qed.

(** A meta update whose failure becomes [x]. *)
Lemma ev_update m x :
  ev (except (send (CallUpdate m)) (fun _ => xraise x))
    (fun n r => Forall calm n /\ match r with Ok _ => True | Raise e => e = Killed \/ e = x end).
Proof.
  eapply ev_except; [apply ev_send|..].
  - intros n u [_ (y & z & -> & _)]. split; [audit_calm|done].
  - intros n [_ (y & z & -> & _)]. split; [audit_calm|by left].
  - intros n e _ [_ (y & z & -> & _)]. apply ev_raise. split; [audit_calm|by right].
Qed.

Lemma ev_record_intent it m :
  ev (record_intent fold sha256 dev env resolver nfc net agent batch_id scan_roots it m) (fun n r => Forall calm n).
Proof.
  unfold record_intent. apply ev_disk_bind; [done|done|]. intros [source []]; [by apply ev_ret|].
  apply ev_quiet_bind; [done|done|]. intros u. apply ev_disk_bind; [done|done|]. intros h.
  match goal with |- ev (if ?b then _ else _) _ => destruct b end; [by apply ev_raise|].
  eapply ev_bind; [apply ev_update|by intros n e []|]. intros n u0 [Hn _]. by apply ev_ret.
Qed.

Definition at_most_moved (p : string) (d : path) (n : list xevent) : Prop :=
  (exists c, EngineReturned p d c ∈ n) /\ forall q d' c, EngineReturned q d' c ∈ n -> q = p /\ d' = d.

Definition no_failure (n : list xevent) : Prop := Forall (fun e => forall p, ~ failed_report p e) n.

Lemma calm_no_failure n : Forall calm n -> no_failure n.
Proof. intros Hn. eapply Forall_impl; [exact Hn|]. by intros e []. Qed.

Lemma calm_not_moved n p d c : Forall motionless n -> EngineReturned p d c ∉ n.
Proof. rewrite Forall_forall. intros Hn Hin. by apply (Hn _ Hin p d c). Qed.

Lemma calm_motionless n : Forall calm n -> Forall motionless n.
Proof. intros Hn. eapply Forall_impl; [exact Hn|]. by intros e []. Qed.

Lemma at_most_moved_more p d n1 n2 : Forall motionless n1 -> at_most_moved p d n2 -> at_most_moved p d (n1 ++ n2).
Proof.
  intros H1 [[c Hc] Hu]. split; [exists c; apply elem_of_app; by right|]. intros q d' c' [Hin|Hin]%elem_of_app; [|by eapply Hu].
  by apply calm_not_moved in Hin.
Qed.

Lemma ev_compute_proposed it :
  ev (_compute_proposed fold casefold sha256 dev env token resolver nfc net agent batch_id scan_roots job it)
    (fun n r => no_failure n /\
       match r with
       | Ok d => at_most_moved (proposal_id it) d n
       | Raise Killed | Raise ExecCommittedReportError | Raise ExecBatchTerminalReportError =>
           forall q d c, EngineReturned q d c ∈ n -> q = proposal_id it
       | Raise _ => forall q d, EngineReturned q d true ∉ n
       end).
Proof.
  match goal with |- ev _ ?F => set (Phi := F) end.
  assert (Hcalm : forall n e, Forall calm n -> Phi n (Raise e)).
  { intros n e Hn. split; [by apply calm_no_failure|].
    assert (Hno : forall q d c, EngineReturned q d c ∉ n) by (intros; by apply calm_not_moved, calm_motionless).
    destruct e; intros q d; try apply Hno; intros c Hin; by apply Hno in Hin. }
  unfold _compute_proposed. apply ev_quiet_bind; [done|done|]. intros job_meta.
  eapply ev_bind with (Psi := fun n r => Forall calm n).
  { destruct (job && _ && _); [apply ev_record_intent|by apply ev_ret]. }
  { auto. }
  intros n0 h Hn0. apply ev_quiet_bind; [done|done|]. intros u0.
  set (it' := with_hash it h). set (p := proposal_id it).
  eapply ev_bind with (Psi := fun n r => n = [Moving p (MoveFs.sha256_hash it')] /\ is_ok r = true).
  { intros w. by exists [Moving p (MoveFs.sha256_hash it')]. }
  { by intros n e [_ ?]. }
  intros n1 u1 [-> _].
  assert (Hpre : Forall calm ([Moving p (MoveFs.sha256_hash it')] ++ n0)).
  { constructor; [split; [done|by intros q Hq]|done]. }
  set (n1 := [Moving p _] ++ n0) in *.
  apply (ev_impl _ _ (fun n2 r => Phi (n2 ++ n1) r)); [|intros n2 r HPhi; unfold n1 in HPhi; by rewrite app_assoc in HPhi].
  clearbody n1. apply ev_disk_bind.
  { by apply Hcalm. }
  { intros e. by apply Hcalm. }
  intros [d c]. simpl.
  eapply ev_bind with (Psi := fun n r => n = [EngineReturned p d c] /\ is_ok r = true).
  { intros w. by exists [EngineReturned p d c]. }
  { by intros n e [_ ?]. }
  intros n2 u2 [-> _].
  assert (Hmv : forall n3, Forall calm n3 -> no_failure (n3 ++ [EngineReturned p d c] ++ n1) /\ at_most_moved p d (n3 ++ [EngineReturned p d c] ++ n1)).
  { intros n3 Hn3. split.
    - apply Forall_app. split; [by apply calm_no_failure|]. constructor; [by intros q Hq|by apply calm_no_failure].
    - apply at_most_moved_more; [by apply calm_motionless|]. split; [exists c; by left|].
      intros q d' c' [Heq|Hin]%elem_of_cons; [by injection Heq|]. exfalso. revert Hin. by apply calm_not_moved, calm_motionless. }
  eapply ev_bind with (Psi := fun n r => Forall calm n /\ match r with Ok _ => True | Raise e => e = Killed \/ e = ExecCommittedReportError end).
  { destruct (c && job); [|apply ev_ret; by split]. apply ev_quiet_bind; [done|done|]. intros m. apply ev_update. }
  { intros n e [Hn He]. rewrite <- app_assoc. destruct (Hmv n Hn) as [Hf [_ Hu]].
    split; [done|]. by destruct He as [-> | ->]; intros q d' c' Hin; eapply Hu. }
  intros n3 u3 [Hn3 _]. apply ev_ret. rewrite app_nil_l, <- app_assoc. by apply Hmv.
Qed.

(** What a run of one proposal shows. *)
Definition settled (p : string) (last : bool) (n : list xevent) (r : outcome xexn bool) : Prop :=
  (forall q d, EngineReturned q d true ∈ n -> q = p /\ no_failure n /\
     match r with
     | Ok b => b = true /\ executed_report p d ∈ n
     | Raise e => e = Killed \/ e = ExecCommittedReportError \/ e = ExecBatchTerminalReportError
     end) /\
  (r = Ok true -> exists d c, EngineReturned p d c ∈ n /\ executed_report p d ∈ n) /\
  (forall b, r = Ok b -> last = true -> closing n).

Lemma closing_app n1 n2 : closing n1 -> closing (n1 ++ n2).
Proof. intros (p & b & Hin & Ht). exists p, b. split; [apply elem_of_app; by left|done]. Qed.

(** Nothing was moved: only the closing event is owed. *)
Lemma settled_still p last n r :
  (forall q d, EngineReturned q d true ∉ n) -> r <> Ok true -> (forall b, r = Ok b -> last = true -> closing n) -> settled p last n r.
Proof. intros Hm Hr Hc. split_and!; [by intros q d Hin%Hm|done|done]. Qed.

Lemma motionless_not_moved n q d : Forall motionless n -> EngineReturned q d true ∉ n.
Proof. intros Hn. by apply calm_not_moved. Qed.

Lemma ev_settle_failure ctx exc b n0 :
  (forall q d, EngineReturned q d true ∉ n0) ->
  ev (settle_failure nfc errstr net agent batch_id job ctx exc b)
    (fun n r => settled (proposal_id (r_item ctx)) (is_last ctx) (n ++ n0) r).
Proof.
  intros H0. assert (Hboth : forall n, Forall motionless n -> forall q d, EngineReturned q d true ∉ n ++ n0).
  { intros n Hn q d [Hin|Hin]%elem_of_app; [by apply motionless_not_moved in Hin|by apply H0 in Hin]. }
  eapply ev_impl with (Psi := fun n r => Forall motionless n /\
    match r with Ok x => x = false /\ (is_last ctx = true -> closing n) | _ => True end).
  2: { intros n r [Hn Hr]. apply settled_still; [by apply Hboth|by destruct r as [[]|]; [destruct Hr|..]|].
       intros x -> Hl. apply closing_app. by apply Hr. }
  unfold settle_failure. apply ev_quiet_bind; [done|done|]. intros current. set (st := step_str _). set (err := take_chars _ _).
  eapply ev_bind with (Psi := fun n _ => Forall motionless n).
  - destruct job; [|by apply ev_ret]. apply ev_quiet_bind; [done|done|]. intros m.
    eapply ev_impl; [apply ev_update|]. intros n r [Hn _]. by apply calm_motionless.
  - intros n e Hn. by split.
  - intros n1 u Hn1. eapply ev_bind; [apply ev_report_failure|..].
    + intros n e [Hn _]. split; [by apply Forall_app|done].
    + intros n u0 [Hn Hr]. apply ev_ret. split; [by apply Forall_app|]. split; [done|]. intros Hl.
      rewrite app_nil_l. by apply closing_app, Hr.
Qed.

Lemma ev_execute_one it last lid rid :
  ev (_execute_one fold casefold sha256 dev env token resolver nfc errstr net agent batch_id scan_roots job it last lid rid)
    (settled (proposal_id it) last).
Proof.
  unfold _execute_one. set (p := proposal_id it). set (ctx := ReportCtx _ _ _ _ _).
  assert (Hcalm : forall n, Forall calm n -> forall q d, EngineReturned q d true ∉ n).
  { intros n Hn q d. by apply motionless_not_moved, calm_motionless. }
  eapply ev_bind.
  { unfold post_execution_log. apply (ev_swallow _ true false). intros x y. split; [done|by intros q Hq]. }
  { intros n e [Hn [?|He]]; [done|]. injection He as ->. apply settled_still; [by apply Hcalm|done|done]. }
  intros n0 b [Hn0 _]. apply ev_quiet_bind; [done|done|]. intros m. destruct (m !! failed_step_key p) as [st|].
  - destruct (m !! failed_error_key p) as [err|].
    2: { apply ev_raise. apply settled_still; [by apply Hcalm|done|done]. }
    assert (Hx : forall n, Forall motionless n -> forall q d, EngineReturned q d true ∉ n ++ n0).
    { intros n Hn q d [Hin|Hin]%elem_of_app; [by apply motionless_not_moved in Hin|by apply Hcalm in Hin]. }
    eapply ev_bind; [apply ev_report_failure|..].
    + intros n e [Hn _]. apply settled_still; [by apply Hx|done|done].
    + intros n u [Hn Hr]. apply ev_ret. apply settled_still; [by apply (Hx ([] ++ n))|done|].
      intros x _ Hl. rewrite app_nil_l. by apply closing_app, Hr.
  - apply ev_quiet_bind; [done|done|]. intros u0.
    eapply ev_except with (Psi := fun n r => no_failure n /\
      match r with
      | Ok x => x = true /\ exists d, at_most_moved p d n /\ executed_report p d ∈ n /\ (last = true -> closing n)
      | Raise Killed | Raise ExecCommittedReportError => forall q d c, EngineReturned q d c ∈ n -> q = p
      | Raise ExecBatchTerminalReportError => forall q d c, EngineReturned q d c ∈ n -> q = p
      | Raise _ => forall q d, EngineReturned q d true ∉ n
      end).
    all: cycle 1.
    + intros n x (Hn & -> & d & [[c Hc] Hu] & Hex & Hcl). split_and!.
      * intros q d' [Hin|Hin%Hcalm]%elem_of_app; [|done|done]. destruct (Hu _ _ _ Hin) as [-> ->]. split; [done|].
        split; [apply Forall_app; split; [done|by apply calm_no_failure]|]. split; [done|]. apply elem_of_app. by left.
      * intros _. exists d, c. split; apply elem_of_app; by left.
      * intros x _ Hl. by apply closing_app, Hcl.
    + intros n [Hn Hu]. split_and!; [|done|done]. intros q d [Hin|Hin%Hcalm]%elem_of_app; [|done|done].
      split; [by eapply Hu|]. split; [apply Forall_app; split; [done|by apply calm_no_failure]|auto].
    + intros n e Hne [Hn Hu].
      assert (Hraise : (e = ExecCommittedReportError \/ e = ExecBatchTerminalReportError) -> (forall q d c, EngineReturned q d c ∈ n -> q = p) ->
        ev (xraise (A := bool) e) (fun n2 r => settled p last ((n2 ++ n) ++ n0) r)).
      { intros He Hq. apply ev_raise. rewrite app_nil_l. split_and!; [|done|done].
        intros q d [Hin|Hin%Hcalm]%elem_of_app; [|done|done]. split; [by eapply Hq|].
        split; [apply Forall_app; split; [done|by apply calm_no_failure]|auto]. }
      assert (Hset : (forall q d, EngineReturned q d true ∉ n) ->
        ev (settle_failure nfc errstr net agent batch_id job ctx e b) (fun n2 r => settled p last ((n2 ++ n) ++ n0) r)).
      { intros Hnm. eapply ev_impl; [apply (ev_settle_failure ctx e b (n ++ n0))|].
        - intros q d [Hin%Hnm|Hin%Hcalm]%elem_of_app; done.
        - intros n2 r Hs. by rewrite <- app_assoc. }
      destruct e; try done; try (apply Hset, Hu); try (apply Hraise; [auto|exact Hu]).
      apply ev_raise. rewrite app_nil_l. apply settled_still; [|done|done].
      intros q d [Hin%Hu|Hin%Hcalm]%elem_of_app; done.
    + eapply ev_bind; [apply ev_compute_proposed|..].
      * intros n e [Hn He]. split; [done|]. by destruct e.
      * intros n d [Hn [[c Hc] Hu]]. eapply ev_bind; [apply ev_report_success|..].
        -- intros n2 e [Hn2 He]. assert (Hq : forall q d' c', EngineReturned q d' c' ∈ n2 ++ n -> q = p).
           { intros q d' c' [Hin|Hin]%elem_of_app; [|by eapply Hu]. exfalso. revert Hin. by apply calm_not_moved, calm_motionless. }
           split; [apply Forall_app; split; [by apply calm_no_failure|done]|]. by destruct e.
        -- intros n2 u [Hn2 [Hex Hcl]]. apply ev_ret. rewrite app_nil_l.
           split; [apply Forall_app; split; [by apply calm_no_failure|done]|]. split; [done|]. exists d.
           split; [apply at_most_moved_more; [by apply calm_motionless|split; [by exists c|done]]|].
           split; [apply elem_of_app; by left|]. intros Hl. by apply closing_app, Hcl.
Qed.

(** C20: a move the engine has returned from is never reported failed.  Whatever
    fails around it, once the engine has answered in a run that it committed a
    proposal's move, the run reports no failure of it: it returns true with the new
    path acknowledged, or raises one of the errors that make SAQ replay the job.
    (An engine that raises after the file has moved is outside this promise:
    [marker_cleanup_reports_failed].)  A run returns true only
    when the place where the engine says the file is was acknowledged, and the
    last proposal only when the closing event was. *)
Theorem returned_move_not_reported_failed it last lid rid w :
  let p := proposal_id it in
  let res := _execute_one fold casefold sha256 dev env token resolver nfc errstr net agent batch_id scan_roots job it last lid rid w in
  exists n, history res.1 = n ++ history w /\
    (forall q d, EngineReturned q d true ∈ n -> q = p /\ no_failure n /\
       match res.2 with
       | Ok b => b = true /\ executed_report p d ∈ n
       | Raise e => e = Killed \/ e = ExecCommittedReportError \/ e = ExecBatchTerminalReportError
       end) /\
    (res.2 = Ok true -> exists d c, EngineReturned p d c ∈ n /\ executed_report p d ∈ n) /\
    (forall b, res.2 = Ok b -> last = true -> closing n).
Proof. apply ev_execute_one. Qed.

(** *** The whole sub-batch *)

Lemma ev_loop logs reqs items : forall r,
  ev (execute_loop fold casefold sha256 dev env token resolver nfc errstr net agent batch_id scan_roots job logs reqs items r)
    (fun n res => forall r', res = Ok r' ->
       processed_count r' = (processed_count r + length items)%nat /\
       (error_count r <= error_count r' <= error_count r + length items)%nat /\
       (items <> [] -> closing n) /\
       forall p d, EngineReturned p d true ∈ n -> executed_report p d ∈ n).
Proof.
  induction items as [|it items IH]; intros r; simpl.
  { apply ev_ret. intros r' [= <-]. split_and!; [lia|lia|lia|done|]. intros p d Hin. by apply elem_of_nil in Hin. }
  eapply ev_bind; [apply ev_execute_one|done|]. intros n ok (Hm & _ & Hc). eapply ev_impl; [apply IH|].
  intros n2 res Hres r' ->. destruct (Hres r' eq_refl) as (H1 & H2 & H3 & H4). simpl in *.
  split_and!; [lia|destruct ok; lia|destruct ok; lia| |].
  - intros _. destruct items as [|it2 items]; [|by apply closing_app, H3].
    destruct (Hc ok eq_refl) as (p & b & Hin & Ht); [by apply bool_decide_eq_true|].
    exists p, b. split; [apply elem_of_app; by right|done].
  - intros p d [Hin|Hin]%elem_of_app; [apply elem_of_app; left; auto|].
    destruct (Hm p d Hin) as (-> & _ & -> & Hex). apply elem_of_app. by right.
Qed.

(** C22: a returned batch was reported.  When the task returns, it processed
    every proposal, the event that closes the sub-batch was acknowledged (when
    there is any proposal), and the new path of every move the engine returned from as committed in this run
    was acknowledged as executed; it says "completed" exactly when it counted no error. *)
Theorem returned_batch_was_reported items w w' r :
  execute_approved_batch fold casefold sha256 dev env token resolver nfc uuid4 errstr net agent batch_id scan_roots job items w = (w', Ok r) ->
  exists n, history w' = n ++ history w /\
    processed_count r = length items /\ (error_count r <= length items)%nat /\
    (items <> [] -> closing n) /\
    (forall p d, EngineReturned p d true ∈ n -> executed_report p d ∈ n) /\
    (final_status r = "completed"%string <-> error_count r = 0%nat).
Proof.
  assert (Hev : ev (execute_approved_batch fold casefold sha256 dev env token resolver nfc uuid4 errstr net agent batch_id scan_roots job items)
    (fun n res => forall r', res = Ok r' -> processed_count r' = length items /\ (error_count r' <= length items)%nat /\
       (items <> [] -> closing n) /\ forall p d, EngineReturned p d true ∈ n -> executed_report p d ∈ n)).
  { unfold execute_approved_batch. case_bool_decide; [by apply ev_raise|].
    eapply ev_bind with (Psi := fun n _ => Forall calm n); [|done|].
    - destruct job.
      + apply ev_quiet_bind; [done|constructor|]. intros s. eapply ev_bind with (Psi := fun n _ => Forall calm n); [|done|].
        * destruct (changed s); [|by apply ev_ret]. eapply ev_impl; [apply ev_send|]. intros n r0 [_ (x & y & -> & _)]. audit_calm.
        * intros n u Hn. by apply ev_ret.
      + apply ev_quiet_bind; [done|constructor|]. intros l. apply ev_quiet_bind; [done|constructor|]. intros l2. by apply ev_ret.
    - intros n [logs reqs] Hn. eapply ev_impl; [apply ev_loop|]. intros n2 res Hres r' ->.
      destruct (Hres r' eq_refl) as (H1 & H2 & H3 & H4). simpl in *. split_and!; [lia|lia| |].
      + intros Hne. by apply closing_app, H3.
      + intros p d [Hin|Hin]%elem_of_app; [apply elem_of_app; left; auto|]. exfalso. revert Hin.
        by apply calm_not_moved, calm_motionless. }
  intros Hrun. destruct (Hev w) as (n & Hh & Hn). rewrite Hrun in Hh, Hn. cbn [fst snd] in *.
  destruct (Hn r eq_refl) as (H1 & H2 & H3 & H4). exists n. split_and!; try done; unfold final_status; by case_bool_decide.
Qed.

End attempt.

(** ** A job that fails once, is replayed, and a job that succeeds *)

Definition demo_uuid (n : nat) : string := demo_rid 0 n.
Definition demo_hash : hash :=
  {[ "total"%string := FInt 1; agent_field "nas" "total" := FInt 1; "subjobs_expected"%string := FInt 1 ]}.
Definition demo_redis : redis := Redis ∅ {[ "exec:b1"%string := demo_hash ]}.
Definition demo_start_world : xworld := XWorld ∅ demo_db demo_redis demo_world 0 0 [].

Definition demo_bad_item : Item :=
  {| proposal_id := "p1"; source_path := "/a/x"; proposed_path := "/b"; proposed_filename := "y"; sha256_hash := Some "noise"%string |}.

(** The first attempt loses its closing event, the second is healthy. *)
Definition demo_attempt (lose : nat) : attempt :=
  Attempt (fun n => if bool_decide (n = lose) then XLost false else XDone) (fun _ => quiet) "t" demo_resolver demo_world demo_db demo_redis.

Abbreviation demo_replays :=
  (attempts_run id id id demo_dev id demo_uuid (fun _ => "io"%string) "nas" "b1" ["/a"; "/b"]%string [demo_bad_item]
    [demo_attempt 7; demo_attempt 99] demo_start_world).

(** The closing event of each attempt, the newest one first. *)
Definition demo_post (i : nat) : payload :=
  match history demo_replays !! i with
  | Some (Sent (CallProgress _ b) _ _) => b
  | _ => Payload "" "" TDeleted None false
  end.

Lemma replays_tell_one_story_witness :
  p_terminal_step (demo_post 0) = TFailed /\ p_terminal_step (demo_post 4) = TFailed /\
  request_id (demo_post 0) = request_id (demo_post 4) /\ failed_at_step (demo_post 0) = failed_at_step (demo_post 4).
Proof.
  assert (H0 : history demo_replays !! 0 = Some (Sent (CallProgress "p1" (demo_post 0)) true true)) by (vm_compute; reflexivity).
  assert (H4 : history demo_replays !! 4 = Some (Sent (CallProgress "p1" (demo_post 4)) false false)) by (vm_compute; reflexivity).
  assert (T0 : p_terminal_step (demo_post 0) = TFailed) by (vm_compute; reflexivity).
  assert (T4 : p_terminal_step (demo_post 4) = TFailed) by (vm_compute; reflexivity).
  split; [exact T0|]. split; [exact T4|].
  destruct (proj1 (replays_tell_one_story id id id demo_dev id demo_uuid (fun _ => "io"%string) "nas" "b1" ["/a"; "/b"]%string
    [demo_bad_item] [demo_attempt 7; demo_attempt 99] demo_start_world eq_refl) _ _ _ _ _ _ _
    (list_elem_of_lookup_2 _ _ _ H0) (list_elem_of_lookup_2 _ _ _ H4)) as [Hid Hat].
  split; [exact Hid|exact (Hat T0 T4)].
Defined.

Abbreviation demo_run :=
  (execute_approved_batch id id id demo_dev (fun _ => quiet) "t" demo_resolver id demo_uuid (fun _ => "io"%string) (fun _ => XDone)
    "nas" "b1" ["/a"; "/b"]%string true [item demo_request] demo_start_world).

Lemma returned_batch_was_reported_witness :
  demo_run.2 = Ok (BatchResult 1 0) /\
  (Reports.proposals (server demo_run.1) !! "p1"%string ≫= (fun p => Some (status p))) = Some EXECUTED /\
  executed_report "p1" (Path ["b"] "y")%string ∈ history demo_run.1.
Proof.
  assert (Hr : demo_run.2 = Ok (BatchResult 1 0)) by (vm_compute; reflexivity).
  split; [exact Hr|]. split; [vm_compute; reflexivity|].
  destruct (returned_batch_was_reported id id id demo_dev (fun _ => quiet) "t" demo_resolver id demo_uuid (fun _ => "io"%string) (fun _ => XDone)
    "nas" "b1" ["/a"; "/b"]%string true [item demo_request] demo_start_world _ _ (pair_ok _ _ Hr)) as (n & Hh & _ & _ & _ & Hm & _).
  rewrite Hh. apply elem_of_app. left. apply Hm. rewrite app_nil_r in Hh. rewrite <- Hh.
  apply (list_elem_of_lookup_2 _ 4). by vm_compute.
Defined.

(** A replay whose first look at the paths fails (an unmounted root, say)
    reports a committed move as failed, for good: the first attempt moved the
    file but its report was lost. *)
Definition demo_first : xworld :=
  (attempt_run id id id demo_dev id demo_uuid (fun _ => "io"%string) "nas" "b1" ["/a"; "/b"]%string [item demo_request]
     demo_start_world (demo_attempt 8)).1.
Definition demo_second : xworld :=
  (attempt_run id id id demo_dev id demo_uuid (fun _ => "io"%string) "nas" "b1" ["/a"; "/b"]%string [item demo_request] demo_first
     (Attempt (fun _ => XDone) (fun _ => quiet) "t" (fun _ _ _ => Raise "not under any scan root"%string) (disk demo_first)
        (server demo_first) (redis_state demo_first))).1.

Lemma committed_replay_can_report_failed :
  (exists i, history demo_first !! i = Some (EngineReturned "p1" (Path ["b"] "y")%string true)) /\
  (exists row, Reports.proposals (server demo_second) !! "p1"%string = Some row /\ status row = FAILED).
Proof.
  split; [exists 3; vm_compute; reflexivity|].
  eexists; split; [vm_compute; reflexivity|reflexivity].
Qed.

(** The engine can raise after the file has moved: here the commit marker cannot be
    unlinked once the source is gone.  The run reports the proposal as failed. *)
Definition demo_late : xworld :=
  (attempt_run id id id demo_dev id demo_uuid (fun _ => "io"%string) "nas" "b1" ["/a"; "/b"]%string [item demo_request]
     demo_start_world (Attempt (fun _ => XDone) (fun n => if Nat.eqb n 26 then Env [] (Some EIO) 0 else quiet) "t" demo_resolver demo_world demo_db demo_redis)).1.
Example marker_cleanup_reports_failed :
  (status <$> Reports.proposals (server demo_late) !! "p1"%string) = Some FAILED /\
  entries (fsys (disk demo_late)) !! (["a"], "x")%string = None /\ is_Some (entries (fsys (disk demo_late)) !! (["b"], "y")%string).
Proof. split; [vm_compute; reflexivity|]. split; [vm_compute; reflexivity|]. vm_compute. eauto. Qed.
