(* ===== verification/StateErr.v ===== *)
(** * Stateful computations that may raise

    The monad of the cloud components: a state that survives an exception, as
    the database, the broker and S3 do, with the Hoare-style rules their proofs
    share. *)
From S2P Require Import Prelude.
From stdpp Require Import options.

Definition SE (S E A : Type) : Type := S -> S * outcome E A.

Section operations.
Context {S E : Type}.

Definition ret {A} (a : A) : SE S E A := fun s => (s, Ok a).
Definition raise {A} (e : E) : SE S E A := fun s => (s, Raise e).
Definition bind {A B} (m : SE S E A) (k : A -> SE S E B) : SE S E B := fun s =>
  match m s with (s', Ok a) => k a s' | (s', Raise e) => (s', Raise e) end.

(** [try: m except Exception as e: h e] *)
Definition catch {A} (m : SE S E A) (h : E -> SE S E A) : SE S E A := fun s =>
  match m s with (s', Ok a) => (s', Ok a) | (s', Raise e) => h e s' end.

Fixpoint for_each {A} (l : list A) (body : A -> SE S E unit) : SE S E unit :=
  match l with
  | [] => ret tt
  | a :: l' => bind (body a) (fun _ => for_each l' body)
  end.

(** How many of the calls answer [True]. *)
Fixpoint count_each {A} (l : list A) (body : A -> SE S E bool) : SE S E Z :=
  match l with
  | [] => ret 0%Z
  | a :: l' => bind (body a) (fun b => bind (count_each l' body) (fun n => ret (if b then 1 + n else n)%Z))
  end.
End operations.

Notation "'run!' x <- m ; k" := (bind m (fun x => k)) (at level 90, x pattern, m at level 80, right associativity) : phaze_scope.
Notation "'seq!' m ; k" := (bind m (fun _ => k)) (at level 90, m at level 80, right associativity) : phaze_scope.

Section rules.
Context {S E : Type}.

(** Every result and every final state. *)
Definition wp {A} (m : SE S E A) (s : S) (P : outcome E A -> S -> Prop) : Prop := let (s', r) := m s in P r s'.

Lemma wp_bind {A B} (m : SE S E A) (k : A -> SE S E B) s P :
  wp m s (fun r s' => match r with Ok a => wp (k a) s' P | Raise e => P (Raise e) s' end) -> wp (bind m k) s P.
Proof. unfold wp, bind. by destruct (m s) as [s' [a|e]]. Qed.

Lemma wp_catch {A} (m : SE S E A) h s P :
  wp m s (fun r s' => match r with Ok a => P (Ok a) s' | Raise e => wp (h e) s' P end) -> wp (catch m h) s P.
Proof. unfold wp, catch. by destruct (m s) as [s' [a|e]]. Qed.

Lemma wp_mono {A} (m : SE S E A) s (P Q : outcome E A -> S -> Prop) : wp m s P -> (forall r s', P r s' -> Q r s') -> wp m s Q.
Proof. unfold wp. destruct (m s). auto. Qed.

(** Two continuations that agree on what [m] may answer. *)
Lemma wp_same {A B} (m : SE S E A) (k k' : A -> SE S E B) s P :
  wp m s P -> (forall a s', P (Ok a) s' -> k a s' = k' a s') -> bind m k s = bind m k' s.
Proof. unfold wp, bind. destruct (m s) as [s' [a|e]]; auto. Qed.

(** An invariant of the state. *)
Definition keeps {A} (P : S -> Prop) (m : SE S E A) : Prop := forall s, P s -> P (m s).1.

Lemma keeps_ret {A} P (a : A) : keeps P (@ret S E A a).
Proof. by intros s. Qed.
Lemma keeps_raise {A} P (e : E) : keeps P (@raise S E A e).
Proof. by intros s. Qed.
Lemma keeps_bind {A B} P (m : SE S E A) (k : A -> SE S E B) : keeps P m -> (forall a, keeps P (k a)) -> keeps P (bind m k).
Proof. intros Hm Hk s Hs. unfold bind. specialize (Hm s Hs). destruct (m s) as [s' [a|e]]; [by apply Hk|done]. Qed.
Lemma keeps_catch {A} P (m : SE S E A) h : keeps P m -> (forall e, keeps P (h e)) -> keeps P (catch m h).
Proof. intros Hm Hh s Hs. unfold catch. specialize (Hm s Hs). destruct (m s) as [s' [a|e]]; [done|by apply Hh]. Qed.
Lemma keeps_for_each {A} P (l : list A) body : (forall a, keeps P (body a)) -> keeps P (for_each l body).
Proof. intros Hb. induction l as [|a l IH]; simpl; [apply keeps_ret|]. apply keeps_bind; auto. Qed.

Lemma keeps_count_each {A} P (l : list A) body : (forall a, keeps P (body a)) -> keeps P (count_each l body).
Proof.
  intros Hb. induction l as [|a l IH]; simpl; [apply keeps_ret|]. apply keeps_bind; [done|]. intros b. apply keeps_bind; [done|]. intros n. apply keeps_ret.
Qed.

(** Postconditions of both ways out. *)
Definition triple {A} (P : S -> Prop) (m : SE S E A) (Q : A -> S -> Prop) (R : S -> Prop) : Prop :=
  forall s, P s -> let (s', r) := m s in match r with Ok a => Q a s' | Raise _ => R s' end.

Lemma triples_ret {A} (a : A) Q R : triple (Q a) (@ret S E A a) Q R.
Proof. by intros s. Qed.
Lemma triples_raise {A} (e : E) (Q : A -> S -> Prop) R : triple R (raise e) Q R.
Proof. by intros s. Qed.
Lemma triples_bind {A B} P (m : SE S E A) (k : A -> SE S E B) Q Q' R :
  triple P m Q R -> (forall a, triple (Q a) (k a) Q' R) -> triple P (bind m k) Q' R.
Proof. intros Hm Hk s Hs. unfold bind. specialize (Hm s Hs). destruct (m s) as [s' [a|e]]; [by apply Hk|done]. Qed.
Lemma triples_catch {A} P (m : SE S E A) h Q R R' :
  triple P m Q R -> (forall e, triple R (h e) Q R') -> triple P (catch m h) Q R'.
Proof. intros Hm Hh s Hs. unfold catch. specialize (Hm s Hs). destruct (m s) as [s' [a|e]]; [done|by apply Hh]. Qed.
Lemma triple_weaken {A} (P P' : S -> Prop) (m : SE S E A) (Q Q' : A -> S -> Prop) (R R' : S -> Prop) :
  triple P m Q R -> (forall s, P' s -> P s) -> (forall a s, Q a s -> Q' a s) -> (forall s, R s -> R' s) -> triple P' m Q' R'.
Proof. intros Hm HP HQ HR s Hs. specialize (Hm s (HP s Hs)). destruct (m s) as [s' [a|e]]; auto. Qed.
End rules.

#[export] Hint Resolve keeps_ret keeps_raise keeps_bind keeps_catch keeps_for_each keeps_count_each : phaze.
