(* ===== verification/Quarantine.v ===== *)
(** * The quarantine move: [services/quarantine_move.py]

    An approved junk companion is renamed into [<root>/.phaze-quarantine/].  The
    file system is the tree of Containment with an inode table; between any two
    calls the environment may change it, and any call may fail, before or after its
    effect.  A resolution of a path reads one state of the tree.  The ghost field
    [steps] keeps the disks before and after each change the code makes. *)
From Stdlib Require Import Ascii.
From S2P Require Import Prelude StateErr Containment.
From stdpp Require Import gmap strings options.
Local Open Scope Z_scope.
Local Open Scope phaze_scope.

(** ** The file system *)

Record Inode : Type := MkInode { content : list Z; mtime_ns : Z; regular : bool }.
(** [inodes]: what a file number stands for, named or still held open. *)
Record disk : Type := Disk { names : tree; inodes : nat -> Inode }.

Inductive fault_kind : Type := Fine | FailsBefore | FailsAfter.
Inductive op : Type := Lstat | Lexists | Open | Fstat | Read | Mkdir | Rename.

(** Why a file is not in quarantine. *)
Inductive refusal : Type :=
| OutsideRoots | ThroughSymlink | IsScanRoot | AlreadyQuarantined | NotCompanion | CannotOpen | NotRegular | WrongSize | ChangedWhileHashing | WrongHash
| CannotCreate | NotRealDirectory | EscapedDirectory | DestinationExists | OtherFilesystem | ChangedAfterHash | NotMoved | Swapped | NotCorroborated.

Inductive exn : Type :=
| FileNotFoundError | FileExistsError | OSError
| QuarantineRefused (why : refusal)
| StillReading.                        (* the fuel of a read ran out *)
Definition is_OSError (e : exn) : bool := match e with FileNotFoundError | FileExistsError | OSError => true | _ => false end.

(** Why a lookup fails: no such entry, or another error of the walk. *)
Inductive errno : Type := ENOENT | EOTHER.
Fixpoint lookup_path (fuel : nat) (t : tree) (active : list dir) : dir -> dir -> outcome errno dir :=
  fix walk (acc rest : dir) {struct rest} : outcome errno dir :=
    match rest with
    | [] => Ok acc
    | c :: rest' =>
        if negb (bool_decide (t !! acc = Some NDir)) then Raise (if bool_decide (t !! acc = None) then ENOENT else EOTHER)
        else if bool_decide (c = "..") then walk (path_parent acc) rest'
        else
          let newpath := acc ++ [c] in
          match t !! newpath with
          | Some (NLink absolute target) =>
              if bool_decide (newpath ∈ active) then Raise EOTHER
              else match fuel with
                   | O => Raise EOTHER
                   | S fuel' =>
                       match lookup_path fuel' t (newpath :: active) (if absolute then [] else acc) target with
                       | Ok d => walk d rest'
                       | Raise e => Raise e
                       end
                   end
          | Some _ => walk newpath rest'
          | None => Raise ENOENT
          end
    end.

(** [lstat]: the last component is not followed. *)
Definition entry_of (cwd : dir) (t : tree) (p : pure) : outcome errno dir :=
  let start := if is_absolute p then [] else cwd in
  match last (parts p) with
  | Some c =>
      if bool_decide (c = "..") then lookup_path (size t) t [] start (parts p)
      else match lookup_path (size t) t [] start (removelast (parts p)) with
           | Ok d => if bool_decide (t !! d = Some NDir) then Ok (d ++ [c]) else Raise EOTHER
           | Raise e => Raise e
           end
  | None => Ok start
  end.

Inductive stat_result : Type :=
| StDir (dev : nat)
| StLink (dev : nat)
| StFile (ino dev : nat) (node : Inode).

Definition st_dev (st : stat_result) : nat := match st with StDir dev | StLink dev | StFile _ dev _ => dev end.

(** The device of an entry: its own for a directory, its directory's for the others. *)
Definition stat_at (mount : dir -> nat) (d : disk) (x : dir) : option stat_result :=
  match names d !! x with
  | Some NDir => Some (StDir (mount x))
  | Some (NLink _ _) => Some (StLink (mount (path_parent x)))
  | Some (NFile ino) => Some (StFile ino (mount (path_parent x)) (inodes d ino))
  | None => None
  end.

(** [rename(2)]; a directory takes what is below it along. *)
Definition moved_names (src dst : dir) (n : node) (t : tree) : tree :=
  match n with
  | NDir => list_to_map (map (fun e => if bool_decide (src `prefix_of` e.1) then (dst ++ drop (length src) e.1, e.2) else e) (map_to_list (delete dst t)))
  | _ => <[dst := n]> (delete src t)
  end.
Definition rename_names (mount : dir -> nat) (src dst : dir) (t : tree) : outcome exn tree :=
  match t !! src with
  | None => Raise FileNotFoundError
  | Some n =>
      if negb (bool_decide (mount (path_parent src) = mount (path_parent dst))) then Raise OSError
      else if bool_decide (src = dst) then Ok t
      else match n, t !! dst with
           | NFile i, Some (NFile j) => Ok (if bool_decide (i = j) then t else moved_names src dst n t)
           | NDir, Some NDir => if existsb (fun e => bool_decide (dst `prefix_of` e.1) && negb (bool_decide (e.1 = dst))) (map_to_list t) then Raise OSError
                                else if bool_decide (src `prefix_of` dst) then Raise OSError else Ok (moved_names src dst n t)
           | NDir, None => if bool_decide (src `prefix_of` dst) then Raise OSError else Ok (moved_names src dst n t)
           | NDir, Some _ | _, Some NDir => Raise OSError
           | _, _ => Ok (moved_names src dst n t)
           end
  end.

(** ** Calls *)

Record world : Type := World { now_disk : disk; tick : nat; steps : list (disk * disk) }.
Abbreviation M := (SE world exn).

Section calls.
Context (env : nat -> disk -> disk) (fault : nat -> op -> fault_kind) (mount : dir -> nat) (cwd : dir).

(** A call on the disk as the environment left it: [f] answers and, if it changes anything, says what to. *)
Definition call {A} (o : op) (f : disk -> outcome exn (option disk * A)) : M A := fun w =>
  let d := env (tick w) (now_disk w) in
  match fault (tick w) o, f d with
  | FailsBefore, _ => (World d (S (tick w)) (steps w), Raise OSError)
  | _, Raise e => (World d (S (tick w)) (steps w), Raise e)
  | k, Ok (d', a) =>
      let w' := match d' with Some d' => World d' (S (tick w)) ((d, d') :: steps w) | None => World d (S (tick w)) (steps w) end in
      (w', match k with FailsAfter => Raise OSError | _ => Ok a end)
  end.

(** A resolution of a path; it never raises an [OSError]. *)
Definition observe {A} (f : tree -> A) : M A := fun w =>
  let d := env (tick w) (now_disk w) in (World d (S (tick w)) (steps w), Ok (f (names d))).

Definition refuse {A} (why : refusal) : M A := raise (QuarantineRefused why).
Definition oserror {A} (e : errno) : outcome exn A := Raise (match e with ENOENT => FileNotFoundError | EOTHER => OSError end).

Definition stat_entry (d : disk) (p : pure) : outcome exn stat_result :=
  match entry_of cwd (names d) p with
  | Raise e => oserror e
  | Ok x => match stat_at mount d x with Some st => Ok st | None => Raise FileNotFoundError end
  end.
Definition lstat (p : pure) : M stat_result := call Lstat (fun d => match stat_entry d p with Ok st => Ok (None, st) | Raise e => Raise e end).

(** [os.path.lexists]: any [OSError] reads as [False]. *)
Definition lexists (p : pure) : M bool :=
  catch (call Lexists (fun d => match stat_entry d p with Ok _ => Ok (None, true) | Raise e => Raise e end))
        (fun e => if is_OSError e then ret false else raise e).

Definition mkdir (p : pure) : M unit :=
  call Mkdir (fun d =>
    match entry_of cwd (names d) p with
    | Raise e => oserror e
    | Ok x => match names d !! x with
              | Some _ => Raise FileExistsError
              | None => Ok (Some (Disk (<[x := NDir]> (names d)) (inodes d)), tt)
              end
    end).

Definition rename (src dst : pure) : M unit :=
  call Rename (fun d =>
    match entry_of cwd (names d) src, entry_of cwd (names d) dst with
    | Raise e, _ | _, Raise e => oserror e
    | Ok x, Ok y => match rename_names mount x y (names d) with
                    | Ok t => Ok (Some (Disk t (inodes d)), tt)
                    | Raise e => Raise e
                    end
    end).

(** [os.open] with [O_NOFOLLOW]: a directory opens too. *)
Definition open_nofollow (p : pure) : M stat_result :=
  call Open (fun d => match stat_entry d p with Ok (StLink _) => Raise OSError | Ok st => Ok (None, st) | Raise e => Raise e end).
Definition fstat (ino dev : nat) : M stat_result :=
  call Fstat (fun d => Ok (None, StFile ino dev (inodes d ino))).
Definition read_chunk (ino : nat) (offset size : nat) : M (list Z) :=
  call Read (fun d => Ok (None, take size (drop offset (content (inodes d ino))))).
End calls.

(** ** The move *)

Definition QUARANTINE_DIRNAME : string := ".phaze-quarantine".
Definition INGESTIBLE_COMPANION_EXTENSIONS : list string := [".cue"; ".m3u"; ".m3u8"; ".nfo"; ".pls"; ".txt"]%string.
Definition _HASH_CHUNK_SIZE : nat := Z.to_nat 65536.

Record _Identity : Type := Identity { id_ino : nat; id_dev : nat; id_size : Z; id_mtime_ns : Z }.
#[export] Instance Identity_eq_dec : EqDecision _Identity.
Proof. solve_decision. Defined.
Definition identity_of (ino dev : nat) (n : Inode) : _Identity := Identity ino dev (Z.of_nat (length (content n))) (mtime_ns n).

Record QuarantineOutcome : Type := Outcome { source : dir; destination : dir; replayed : bool }.

(** [os.path.abspath]: lexical. *)
Fixpoint normpath (acc rest : dir) : dir :=
  match rest with [] => acc | c :: rest => normpath (if bool_decide (c = "..") then path_parent acc else acc ++ [c]) rest end.

(** [Path.suffix]: from the last dot, unless only dots precede it. *)
Fixpoint suffix_from (seen : bool) (l : list ascii) : option (list ascii) :=
  match l with
  | [] => None
  | c :: l' =>
      let dot := Ascii.eqb c "."%char in
      match suffix_from (seen || negb dot) l' with
      | Some s => Some s
      | None => if dot && seen then Some l else None
      end
  end.
Definition suffix (name : string) : string := match suffix_from false (String.list_ascii_of_string name) with Some s => String.string_of_list_ascii s | None => "" end.

(** [str(path)] of an absolute path. *)
Definition show (d : dir) : string := match d with [] => "/" | _ => foldr (fun c s => ("/" +:+ c +:+ s)%string) "" d end.

Section move.
Context (env : nat -> disk -> disk) (fault : nat -> op -> fault_kind) (mount : dir -> nat) (cwd : dir).
Context (nfc lower : string -> string) (sha256_of : list Z -> string).

Abbreviation observe := (observe env).
Abbreviation lstat := (lstat env fault mount cwd).
Abbreviation fstat := (fstat env fault).

Definition abspath (p : pure) : dir := normpath (if is_absolute p then [] else cwd) (parts p).
Definition below (root d : dir) : dir := drop (length root) d.

Fixpoint match_roots (twin resolved owning_root : dir) (scan_roots : list string) : M (dir * dir) :=
  match scan_roots with
  | [] => refuse ThroughSymlink
  | root :: scan_roots =>
      let lexical_root := abspath (mk_path root) in
      run! real <- observe (fun t => resolve cwd t (Pure true lexical_root));
      if bool_decide (real = owning_root) && is_relative_to twin lexical_root && bool_decide (below lexical_root twin = below owning_root resolved)
      then ret (resolved, owning_root) else match_roots twin resolved owning_root scan_roots
  end.

Definition _contained_without_symlinks (candidate : pure) (scan_roots : list string) : M (dir * dir) :=
  run! found <- observe (fun t => resolve_media_path nfc cwd t candidate);
  run! contained <- observe (fun t => resolve_contained_twin nfc cwd t candidate scan_roots);
  match contained with
  | Raise _ => refuse OutsideRoots
  | Ok (resolved, owning_root) => match_roots (abspath found) resolved owning_root scan_roots
  end.

Definition _check_source_name (resolved owning_root : dir) : M dir :=
  let relative := below owning_root resolved in
  match last relative with
  | None => refuse IsScanRoot
  | Some name =>
      if bool_decide (QUARANTINE_DIRNAME ∈ relative) then refuse AlreadyQuarantined
      else if negb (bool_decide (lower (suffix name) ∈ INGESTIBLE_COMPANION_EXTENSIONS)) then refuse NotCompanion
      else ret relative
  end.

Fixpoint read_all (fuel ino : nat) (read : list Z) : M (list Z) :=
  match fuel with
  | O => raise StillReading
  | S fuel =>
      run! chunk <- read_chunk env fault ino (length read) _HASH_CHUNK_SIZE;
      match chunk with [] => ret read | _ => read_all fuel ino (read ++ chunk) end
  end.

Definition _hash_regular_file (fuel : nat) (path : pure) (sha256 : string) (size : Z) : M _Identity :=
  run! opened <- catch (open_nofollow env fault mount cwd path) (fun e => if is_OSError e then refuse CannotOpen else raise e);
  match opened with
  | StFile ino dev _ =>
      run! before <- fstat ino dev;
      match before with
      | StFile _ _ node =>
          if negb (regular node) then refuse NotRegular
          else if negb (bool_decide (id_size (identity_of ino dev node) = size)) then refuse WrongSize
          else
            run! read <- read_all fuel ino [];
            run! after <- fstat ino dev;
            match after with
            | StFile _ _ node' =>
                if negb (bool_decide (identity_of ino dev node' = identity_of ino dev node)) then refuse ChangedWhileHashing
                else if negb (bool_decide (sha256_of read = sha256)) then refuse WrongHash
                else ret (identity_of ino dev node)
            | _ => refuse ChangedWhileHashing
            end
      | _ => refuse NotRegular
      end
  | _ => refuse NotRegular
  end.

Fixpoint make_levels (level : dir) (names : list string) : M dir :=
  match names with
  | [] => ret level
  | part :: names =>
      let level := level ++ [part] in
      seq! catch (mkdir env fault cwd (Pure true level))
                 (fun e => match e with FileExistsError => ret tt | _ => if is_OSError e then refuse CannotCreate else raise e end);
      run! st <- lstat (Pure true level);
      match st with StDir _ => make_levels level names | _ => refuse NotRealDirectory end
  end.

Definition _make_destination_dirs (owning_root relative : dir) : M dir :=
  run! level <- make_levels owning_root (QUARANTINE_DIRNAME :: removelast relative);
  run! parent <- observe (fun t => resolve cwd t (Pure true level));
  if bool_decide (parent = level) && is_relative_to parent owning_root then ret (level ++ [List.last relative ""]) else refuse EscapedDirectory.

Definition _corroborated_replay (fuel : nat) (candidate : pure) (scan_roots : list string) (sha256 : string) (size : Z) : M QuarantineOutcome :=
  run! contained <- observe (fun t => resolve_contained_twin nfc cwd t candidate scan_roots);
  match contained with
  | Raise _ => refuse OutsideRoots
  | Ok (missing, owning_root) =>
      run! relative <- _check_source_name missing owning_root;
      let expected := owning_root ++ [QUARANTINE_DIRNAME] ++ relative in
      run! destination <- catch (run! found <- _contained_without_symlinks (Pure true expected) [show owning_root];
                                 seq! _hash_regular_file fuel (Pure true found.1) sha256 size; ret found.1)
                                (fun e => match e with QuarantineRefused _ => refuse NotCorroborated | _ => raise e end);
      ret (Outcome missing destination true)
  end.

Definition _prepare (fuel : nat) (candidate : pure) (scan_roots : list string) (sha256 : string) (size : Z) : M (dir * dir * _Identity) :=
  run! found <- _contained_without_symlinks candidate scan_roots;
  let (resolved, owning_root) := found : dir * dir in
  run! relative <- _check_source_name resolved owning_root;
  run! hashed <- _hash_regular_file fuel (Pure true resolved) sha256 size;
  run! destination <- _make_destination_dirs owning_root relative;
  run! there <- lexists env fault mount cwd (Pure true destination);
  if (there : bool) then refuse DestinationExists
  else
    run! parent <- lstat (Pure true (path_parent destination));
    if negb (bool_decide (st_dev parent = id_dev hashed)) then refuse OtherFilesystem
    else
      run! current <- lstat (Pure true resolved);
      match current with
      | StFile ino dev node => if bool_decide (identity_of ino dev node = hashed) then ret (resolved, destination, hashed) else refuse ChangedAfterHash
      | _ => refuse ChangedAfterHash
      end.

Definition quarantine_file (fuel : nat) (candidate : pure) (scan_roots : list string) (sha256 : string) (size : Z) : M QuarantineOutcome :=
  run! reached <- catch
    (run! found <- observe (fun t => resolve_media_path nfc cwd t candidate);
     run! present <- catch (seq! lstat found; ret true) (fun e => match e with FileNotFoundError => ret false | _ => raise e end);
     if (present : bool) then
       run! prepared <- _prepare fuel candidate scan_roots sha256 size;
       seq! rename env fault mount cwd (Pure true prepared.1.1) (Pure true prepared.1.2);
       ret (inl prepared)
     else run! outcome <- _corroborated_replay fuel candidate scan_roots sha256 size; ret (inr outcome))
    (fun e => if is_OSError e then refuse NotMoved else raise e);
  match reached with
  | inr outcome => ret outcome
  | inl (source, destination, hashed) =>
      run! moved <- lstat (Pure true destination);
      match moved with
      | StFile ino dev _ =>
          if bool_decide ((ino, dev) = (id_ino hashed, id_dev hashed)) then ret (Outcome source destination false) else refuse Swapped
      | _ => refuse Swapped
      end
  end.
End move.

(** ** What a run changes *)

Definition made (s : disk * disk) : Prop := exists x, names s.1 !! x = None /\ s.2 = Disk (<[x := NDir]> (names s.1)) (inodes s.1).
Definition renamed (mount : dir -> nat) (cwd src dst : dir) (s : disk * disk) : Prop :=
  exists x y, entry_of cwd (names s.1) (Pure true src) = Ok x /\ entry_of cwd (names s.1) (Pure true dst) = Ok y /\
    exists t, rename_names mount x y (names s.1) = Ok t /\ s.2 = Disk t (inodes s.1).

Section changes.
Context (env : nat -> disk -> disk) (fault : nat -> op -> fault_kind) (mount : dir -> nat) (cwd : dir).
Context (nfc lower : string -> string) (sha256_of : list Z -> string).

(** What a call that changes nothing keeps: the environment keeps it. *)
Class Stable (Q : world -> Prop) : Prop := stable w : Q w -> Q (World (env (tick w) (now_disk w)) (S (tick w)) (steps w)).

(** A property of the changes so far. *)
Definition kept (P : list (disk * disk) -> Prop) (w : world) : Prop := P (steps w).
#[export] Instance kept_stable P : Stable (kept P).
Proof. by intros w. Qed.

Lemma wp_keeps {A} (Q : world -> Prop) (m : M A) w : keeps Q m -> Q w -> wp m w (fun _ w' => Q w').
Proof. intros Hm Hw. specialize (Hm w Hw). unfold wp in *. by destruct (m w). Qed.

Section reading.
Context (Q : world -> Prop) `{!Stable Q}.

Lemma keeps_call {A} o (f : disk -> outcome exn (option disk * A)) :
  (forall w d' a, f (env (tick w) (now_disk w)) = Ok (Some d', a) -> Q w -> Q (World d' (S (tick w)) ((env (tick w) (now_disk w), d') :: steps w))) ->
  keeps Q (call env fault o f).
Proof using Stable0.
  intros Hf w Hw. specialize (Hf w). pose proof (stable w Hw) as Hs. unfold call.
  destruct (f (env (tick w) (now_disk w))) as [[[d'|] a]|e]; destruct (fault (tick w) o); simpl; try exact Hs; by apply (Hf d' a).
Qed.

Lemma keeps_observe {A} (f : tree -> A) : keeps Q (observe env f).
Proof using Stable0. intros w Hw. by apply (stable w). Qed.

Lemma keeps_lstat p : keeps Q (lstat env fault mount cwd p).
Proof using Stable0. apply keeps_call. intros w d' a. by destruct (stat_entry _ _ _ _). Qed.

Lemma keeps_lexists p : keeps Q (lexists env fault mount cwd p).
Proof using Stable0.
  apply keeps_catch; [apply keeps_call; intros w d' a; by destruct (stat_entry _ _ _ _)|]. intros e. destruct (is_OSError e); [apply keeps_ret|apply keeps_raise].
Qed.

Lemma keeps_open p : keeps Q (open_nofollow env fault mount cwd p).
Proof using Stable0. apply keeps_call. intros w d' a. by destruct (stat_entry _ _ _ _) as [[]|]. Qed.

Lemma keeps_fstat ino dev : keeps Q (fstat env fault ino dev).
Proof using Stable0. by apply keeps_call. Qed.

Lemma keeps_chunk ino offset size : keeps Q (read_chunk env fault ino offset size).
Proof using Stable0. by apply keeps_call. Qed.

Lemma keeps_refuse {A} why : keeps Q (refuse (A := A) why).
Proof using Type. apply keeps_raise. Qed.

Hint Resolve keeps_observe keeps_lstat keeps_lexists keeps_open keeps_fstat keeps_chunk keeps_refuse : phaze.

Ltac keeping := repeat first
  [ solve [eauto 2 with phaze nocore] | apply keeps_bind; [|intros ?] | apply keeps_catch; [|intros ?] | progress simpl
  | match goal with |- keeps _ (match ?x with _ => _ end) => destruct x end ].

Lemma keeps_contained p roots : keeps Q (_contained_without_symlinks env cwd nfc p roots).
Proof using Stable0.
  unfold _contained_without_symlinks. keeping. generalize (abspath cwd a). intros twin. induction roots as [|r roots IH]; simpl; keeping; auto.
Qed.

Lemma keeps_name d r : keeps Q (_check_source_name lower d r).
Proof using Type. unfold _check_source_name. keeping. Qed.

Lemma keeps_read_all fuel ino : forall l, keeps Q (read_all env fault fuel ino l).
Proof using Stable0. induction fuel as [|fuel IH]; intros l; simpl; keeping. Qed.
Hint Resolve keeps_read_all : phaze.

Lemma keeps_hash fuel p h n : keeps Q (_hash_regular_file env fault mount cwd sha256_of fuel p h n).
Proof using Stable0. unfold _hash_regular_file. keeping. Qed.
Hint Resolve keeps_contained keeps_name keeps_hash : phaze.

Lemma keeps_replay fuel p roots h n : keeps Q (_corroborated_replay env fault mount cwd nfc lower sha256_of fuel p roots h n).
Proof using Stable0. unfold _corroborated_replay. keeping. Qed.

(** Making the directories, and all that comes before the rename. *)
Context (Hmkdir : forall p, keeps Q (mkdir env fault cwd p)).
Hint Resolve keeps_replay Hmkdir : phaze.

Lemma keeps_levels names : forall level, keeps Q (make_levels env fault mount cwd level names).
Proof using Stable0 Hmkdir. induction names as [|part names IH]; intros level; simpl; keeping. Qed.
Hint Resolve keeps_levels : phaze.

Lemma keeps_prepare fuel p roots h n : keeps Q (_prepare env fault mount cwd nfc lower sha256_of fuel p roots h n).
Proof using Stable0 Hmkdir. unfold _prepare, _make_destination_dirs. keeping. Qed.
End reading.

(** Before the rename only directories are made. *)
Definition only_made (l : list (disk * disk)) : Prop := Forall made l.

Lemma mkdir_made p : keeps (kept only_made) (mkdir env fault cwd p).
Proof.
  apply keeps_call; [apply _|]. intros w d' a. set (d := env _ _). destruct (entry_of _ _ _) as [x|e]; [|by destruct e]. destruct (names d !! x) eqn:E; [done|].
  intros [= <- <-] Hw. apply List.Forall_cons; [by exists x|exact Hw].
Qed.

Lemma replay_marked fuel p roots h n w :
  wp (_corroborated_replay env fault mount cwd nfc lower sha256_of fuel p roots h n) w (fun r _ => match r with Ok o => replayed o = true | Raise _ => True end).
Proof.
  unfold _corroborated_replay. apply wp_bind. eapply (wp_mono _ _ (fun _ _ => True)); [unfold wp; by destruct (observe _ _ _)|].
  intros [[[missing root]|e]|e] w1 _; try done. apply wp_bind. eapply (wp_mono _ _ (fun _ _ => True)); [unfold wp; by destruct (_check_source_name _ _ _ _)|].
  intros [rel|e] w2 _; [|done]. apply wp_bind. eapply (wp_mono _ _ (fun _ _ => True)); [unfold wp; by destruct (catch _ _ _)|]. by intros [d|e] w3 _.
Qed.

Lemma rename_raises x y t e : rename_names mount x y t = Raise e -> is_OSError e = true.
Proof. unfold rename_names. repeat case_match; intros; by simplify_eq. Qed.

(** After the rename of [src] to [dst]. *)
Definition moved_last (src dst : dir) (l : list (disk * disk)) : Prop := exists s l', l = s :: l' /\ renamed mount cwd src dst s /\ only_made l'.

(** What a run may raise after the file has moved: the refusal of the look after the
    rename, an [OSError] of that look, which is no refusal (the job is retried), or
    the refusal of a [rename] that took effect and yet failed. *)
Definition moved_though (e : exn) : Prop :=
  e = QuarantineRefused Swapped \/ is_OSError e = true \/ e = QuarantineRefused NotMoved /\ exists n, fault n Rename = FailsAfter.

Lemma rename_records src dst w : only_made (steps w) ->
  wp (rename env fault mount cwd (Pure true src) (Pure true dst)) w
     (fun r w' => match r with
                  | Ok _ => moved_last src dst (steps w')
                  | Raise e => is_OSError e = true /\ (only_made (steps w') \/ moved_last src dst (steps w') /\ exists n, fault n Rename = FailsAfter) end).
Proof.
  intros Hw. unfold wp, rename, call. set (d := env _ _). destruct (fault (tick w) Rename) eqn:Ef; [|by split; [|left]|];
  (destruct (entry_of cwd (names d) (Pure true src)) as [x|[]] eqn:Ex; [|by split; [|left]..]);
  (destruct (entry_of cwd (names d) (Pure true dst)) as [y|[]] eqn:Ey; [|by split; [|left]..]);
  (destruct (rename_names mount x y (names d)) as [t|e] eqn:Et; simpl; [|split; [by eapply rename_raises|by left]]);
  [|split; [done|right; split; [|by exists (tick w)]]]; (eexists _, _; split; [done|]; split; [|done]; exists x, y; split_and!; [done|done|]; by exists t).
Qed.

Lemma lstat_raises p w w' e : lstat env fault mount cwd p w = (w', Raise e) -> is_OSError e = true.
Proof.
  assert (Hs : forall d e, stat_entry mount cwd d p = Raise e -> is_OSError e = true).
  { intros d e'. unfold stat_entry. destruct (entry_of cwd (names d) p) as [x|[]]; [destruct (stat_at mount d x)|..]; by intros [= <-]. }
  unfold lstat, call. set (d := env _ _). specialize (Hs d). destruct (stat_entry mount cwd d p) as [st|e'], (fault (tick w) Lstat); intros [= <- <-]; auto.
Qed.

(** C23: a refusal moves nothing.  Whatever the environment does and whatever fails,
    a run that raises has at most made directories, or it raises what
    [moved_though] lists after one rename, its last change: the refusal of a
    swapped source, the [OSError] of the look after the rename, or the refusal of
    a rename that took effect and yet failed.  A run that answers has
    renamed the source it names to the destination it names, as its last change,
    or has changed nothing when it reports an earlier attempt's move. *)
Theorem refusal_moves_nothing fuel candidate scan_roots sha256 size w :
  steps w = [] ->
  let (w', r) := quarantine_file env fault mount cwd nfc lower sha256_of fuel candidate scan_roots sha256 size w in
  match r with
  | Ok o => if replayed o then steps w' = [] else moved_last (source o) (destination o) (steps w')
  | Raise e => only_made (steps w') \/ moved_though e /\ exists src dst, moved_last src dst (steps w')
  end.
Proof.
  intros Hw. change (wp (quarantine_file env fault mount cwd nfc lower sha256_of fuel candidate scan_roots sha256 size) w
    (fun r w' => match r with
                 | Ok o => if replayed o then steps w' = [] else moved_last (source o) (destination o) (steps w')
                 | Raise e => only_made (steps w') \/ moved_though e /\ exists src dst, moved_last src dst (steps w')
                 end)).
  unfold quarantine_file. apply wp_bind. apply wp_mono with (P := fun r w' => match r with
    | Ok (inl (src, dst, _)) => moved_last src dst (steps w') | Ok (inr o) => replayed o = true /\ steps w' = []
    | Raise e => only_made (steps w') \/ moved_though e /\ exists src dst, moved_last src dst (steps w') end).
  - apply wp_catch. apply wp_bind. unfold wp at 1. simpl. apply wp_bind. apply wp_mono with (P := fun _ w' => steps w' = []).
    + apply (wp_keeps (kept (fun l => l = []))); [|done]. apply keeps_catch; [apply keeps_bind; [apply keeps_lstat, _|intros; apply keeps_ret]|].
      intros []; first [apply keeps_ret|apply keeps_raise].
    + intros [[|]|e] w1 Hw1; [| |destruct (is_OSError e); unfold wp; simpl; rewrite Hw1; left; constructor].
      * apply wp_bind. pose proof (keeps_prepare (kept only_made) mkdir_made fuel candidate scan_roots sha256 size w1) as Hp. unfold kept in Hp. rewrite Hw1 in Hp.
        specialize (Hp (List.Forall_nil _)). unfold wp at 1. destruct (_prepare _ _ _ _ _ _ _ _ _ _ _ _ w1) as [w2 [[[src dst] hashed]|e]]; simpl in Hp; [|destruct (is_OSError e); by left].
        apply wp_bind. eapply wp_mono; [exact (rename_records src dst w2 Hp)|]. intros [[]|e] w3 H3; [done|]. destruct H3 as [-> [H3|[H3 Hn]]]; [by left|].
        right. split; [right; right; by split|by eauto].
      * apply wp_bind. pose proof (keeps_replay (kept (fun l => l = [])) fuel candidate scan_roots sha256 size w1 Hw1) as Hp. unfold kept in Hp.
        pose proof (replay_marked fuel candidate scan_roots sha256 size w1) as Hm. unfold wp in *.
        destruct (_corroborated_replay _ _ _ _ _ _ _ _ _ _ _ _ w1) as [w2 [o|e]]; [done|]. simpl in Hp. destruct (is_OSError e); simpl; rewrite Hp; left; constructor.
  - intros [[[[src dst] hashed]|o]|e] w1 H1; [| |exact H1].
    + apply wp_bind. pose proof (keeps_lstat (kept (moved_last src dst)) (Pure true dst) w1 H1) as Hl. unfold kept in Hl. unfold wp at 1.
      assert (Hex : exists a b, moved_last a b (steps (lstat env fault mount cwd (Pure true dst) w1).1)) by eauto.
      destruct (lstat _ _ _ _ _ w1) as [w2 [st|e]] eqn:El.
      * assert (Hsw : moved_though (QuarantineRefused Swapped)) by by left. destruct st as [dev|dev|ino dev node]; [right; by eauto|right; by eauto|]. case_bool_decide; [done|]. right. by eauto.
      * right. split; [right; left; by eapply lstat_raises|done].
    + destruct H1 as [Hr Hs]. unfold wp. simpl. by rewrite Hr.
Qed.
End changes.

(** ** Paths that meet no link *)

Definition no_up (d : dir) : Prop := Forall (fun c => c <> "..") d.

Lemma removelast_app1 {A} (l : list A) x : removelast (l ++ [x]) = l.
Proof. apply removelast_last. Qed.

Lemma no_up_parent d : no_up d -> no_up (path_parent d).
Proof.
  unfold no_up, path_parent. destruct d as [|c d _] using rev_ind; [done|]. rewrite removelast_last. by intros [? _]%Forall_app.
Qed.

Lemma realpath_no_up fuel t : forall active acc rest, no_up acc -> no_up (realpath fuel t active acc rest).
Proof.
  induction fuel as [|fuel IH]; intros active acc rest; revert acc; induction rest as [|c rest IHr]; intros acc Hacc; simpl; try done;
    (case_bool_decide as Hc; [by apply IHr, no_up_parent|]);
    (assert (Hn : no_up (acc ++ [c])) by (apply Forall_app; split; [done|by apply Forall_singleton]));
    destruct (t !! (acc ++ [c])) as [[]|]; try (by apply IHr); case_bool_decide; try (by apply IHr).
  apply IHr, IH. destruct absolute; [constructor|done].
Qed.

Lemma wf_no_up t d : wf_tree t -> is_Some (t !! d) -> no_up d.
Proof.
  intros Hwf. induction d as [|c d IH] using rev_ind; intros Hd; [constructor|]. apply Forall_app. split.
  - apply IH. exists NDir. by eapply wf_parent.
  - apply Forall_singleton. by eapply wf_names.
Qed.

Lemma lookup_at_dir fuel t active acc rest : wf_tree t -> t !! (acc ++ rest) = Some NDir -> lookup_path fuel t active acc rest = Ok (acc ++ rest).
Proof.
  intros Hwf. destruct fuel as [|fuel]; revert acc; induction rest as [|c rest IH]; intros acc Hd; simpl; try (by rewrite app_nil_r);
    assert (Hacc : t !! acc = Some NDir) by (apply (wf_prefix t acc (c :: rest)); [done|by eexists|done]);
    rewrite bool_decide_eq_true_2 by done; simpl; replace (acc ++ c :: rest) with ((acc ++ [c]) ++ rest) in * by (by rewrite <- app_assoc);
    assert (Hc : t !! (acc ++ [c]) = Some NDir) by (destruct (decide (rest = [])) as [->|]; [by rewrite app_nil_r in Hd|eapply wf_prefix; [done|by eexists|done]]);
    rewrite bool_decide_eq_false_2 by (eapply wf_names; [done|by eexists]); rewrite Hc; by apply IH.
Qed.

Lemma entry_below cwd t level c : wf_tree t -> t !! level = Some NDir -> c <> ".." -> entry_of cwd t (Pure true (level ++ [c])) = Ok (level ++ [c]).
Proof.
  intros Hwf Hl Hc. unfold entry_of. cbn [parts is_absolute]. rewrite last_snoc, bool_decide_eq_false_2, removelast_last by done.
  rewrite (lookup_at_dir _ t [] [] level) by done. by rewrite bool_decide_eq_true_2.
Qed.

Lemma resolve_dir cwd t p : wf_tree t -> is_absolute p = true -> t !! parts p = Some NDir -> resolve cwd t p = parts p.
Proof.
  intros Hwf Ha Hd. unfold resolve. rewrite Ha. apply (kernel_realpath _ _ [] []). apply (kernel_at_physical _ _ [] []); [done|]. by exists NDir.
Qed.

(** ** A rename that meets nothing loses nothing *)

Definition named (t : tree) (ino : nat) : Prop := exists x, t !! x = Some (NFile ino).

(** A change after which every file still has a name and no entry was put in the place of another. *)
Definition loses_nothing (s : disk * disk) : Prop :=
  inodes s.2 = inodes s.1 /\ (forall ino, named (names s.1) ino -> named (names s.2) ino) /\
  forall z n, names s.1 !! z = Some n -> names s.2 !! z = Some n \/ names s.2 !! z = None.

Lemma made_loses_nothing s : made s -> loses_nothing s.
Proof.
  destruct s as [d d']. intros (x & Hx & E). simpl in *. subst d'. assert (Hk : forall z n, names d !! z = Some n -> <[x := NDir]> (names d) !! z = Some n).
  { intros z n Hz. rewrite lookup_insert_ne; [done|]. congruence. }
  split_and!; [done|intros ino [z Hz]; exists z; by apply Hk|intros z n Hz; left; by apply Hk].
Qed.

Lemma moved_dir_lookup src dst t z n : wf_tree t -> t !! dst = None -> t !! z = Some n ->
  moved_names src dst NDir t !! (if bool_decide (src `prefix_of` z) then dst ++ drop (length src) z else z) = Some n.
Proof.
  intros Hwf Hdst Hz. unfold moved_names. rewrite delete_id by done. apply elem_of_list_to_map_1.
  - rewrite <- list_fmap_compose. apply NoDup_fmap_2_strong; [|apply NoDup_map_to_list]. intros [a na] [b nb] Ha Hb. simpl.
    apply elem_of_map_to_list in Ha, Hb.
    assert (Hfar : forall k m rest, t !! k = Some m -> k <> dst ++ rest).
    { intros k m rest Hk ->. destruct (decide (rest = [])) as [->|Hr]; [rewrite app_nil_r in Hk; congruence|]. rewrite (wf_prefix t dst rest) in Hdst; by eauto. }
    case_bool_decide as Pa; case_bool_decide as Pb; simpl; intros E.
    + destruct Pa as [ra ->], Pb as [rb ->]. rewrite !drop_app_length in E. apply app_inv_head in E. subst rb. congruence.
    + by destruct (Hfar _ _ _ Hb (eq_sym E)).
    + by destruct (Hfar _ _ _ Ha E).
    + congruence.
  - apply list_elem_of_fmap. exists (z, n). split; [simpl; by destruct (bool_decide _)|by apply elem_of_map_to_list].
Qed.

Lemma moved_dir_origin src dst t z n : moved_names src dst NDir t !! z = Some n ->
  exists k, t !! k = Some n /\ z = if bool_decide (src `prefix_of` k) then dst ++ drop (length src) k else k.
Proof.
  unfold moved_names. intros H%elem_of_list_to_map_2. apply list_elem_of_fmap in H as ([k m] & E & Hk). apply elem_of_map_to_list in Hk.
  apply lookup_delete_Some in Hk as [_ Hk]. exists k. simpl in E. destruct (bool_decide (src `prefix_of` k)); by injection E as -> ->.
Qed.

Lemma rename_loses_nothing mount x y d t : wf_tree (names d) -> names d !! y = None -> rename_names mount x y (names d) = Ok t -> loses_nothing (d, Disk t (inodes d)).
Proof.
  intros Hwf Hy. unfold rename_names. destruct (names d !! x) as [n|] eqn:Hx; [|done]. destruct (negb _); [done|].
  rewrite bool_decide_eq_false_2 by congruence. rewrite Hy. intros E. unfold loses_nothing. simpl. split; [done|].
  assert (Hcase : (n = NDir /\ t = moved_names x y NDir (names d)) \/ (n <> NDir /\ t = <[y := n]> (delete x (names d)))).
  { destruct n; [right|left|right]; [by injection E as <-| |by injection E as <-]. by destruct (bool_decide _); [|injection E as <-]. }
  clear E. destruct Hcase as [[-> ->]|[Hn ->]].
  - split.
    + intros ino [z Hz]. eexists. by apply moved_dir_lookup.
    + intros z m Hz. destruct (moved_names x y NDir (names d) !! z) as [m'|] eqn:E; [|by right]. left. f_equal.
      apply moved_dir_origin in E as (k & Hk & Ez). case_bool_decide; [|subst; congruence]. exfalso.
      destruct (decide (drop (length x) k = [])) as [Er|Hr]; [rewrite Er, app_nil_r in Ez; congruence|].
      rewrite (wf_prefix (names d) y (drop (length x) k)) in Hy; [done|done|by rewrite <- Ez; eexists|done].
  - split.
    + intros ino [z Hz]. destruct (decide (z = x)) as [->|Hne]; [exists y; rewrite lookup_insert_eq; congruence|].
      exists z. rewrite lookup_insert_ne by congruence. by rewrite lookup_delete_ne.
    + intros z m Hz. rewrite lookup_insert_ne by congruence. destruct (decide (z = x)) as [->|Hne]; [right; apply lookup_delete_eq|left; by rewrite lookup_delete_ne].
Qed.

(** ** Among others *)

Definition in_area (x : dir) : Prop := QUARANTINE_DIRNAME ∈ x.

(** What the others do meanwhile: they create, change, replace and remove files and
    links where they like, but leave directories alone, and everything under a
    quarantine directory. *)
Record peaceful (env : nat -> disk -> disk) : Prop := {
  others_wf : forall n d, wf_tree (names d) -> wf_tree (names (env n d));
  others_dirs : forall n d x, names d !! x = Some NDir -> names (env n d) !! x = Some NDir;
  others_area : forall n d x, in_area x -> names (env n d) !! x = names d !! x;
}.

Definition real_root (t : tree) (root : string) : Prop := is_absolute (mk_path root) = true /\ t !! parts (mk_path root) = Some NDir.

Section safety.
Context (env : nat -> disk -> disk) (fault : nat -> op -> fault_kind) (mount : dir -> nat) (cwd : dir).
Context (nfc lower : string -> string) (sha256_of : list Z -> string) (scan_roots : list string).
Context (Henv : peaceful env) (Hlexists : forall n, fault n Lexists = Fine) (Hcwd : no_up cwd).

Abbreviation Stable := (Stable env).

Definition sound (w : world) : Prop :=
  wf_tree (names (now_disk w)) /\ Forall (real_root (names (now_disk w))) scan_roots /\ Forall loses_nothing (steps w).
#[local] Instance sound_stable : Stable sound.
Proof using Henv.
  intros w (Hwf & Hr & Hs). split_and!; [by apply others_wf|simpl|done]. revert Hr. apply List.Forall_impl. intros r [Ha Hd]. split; [done|]. by apply others_dirs.
Qed.

(** A directory where the destination will be, and nothing at the destination. *)
Definition at_dir (level : dir) (w : world) : Prop := sound w /\ names (now_disk w) !! level = Some NDir.
#[local] Instance at_dir_stable level : Stable (at_dir level).
Proof using Henv. intros w [Hs Hd]. split; [by apply (sound_stable w)|]. by apply others_dirs. Qed.

Definition free_at (level : dir) (c : string) (w : world) : Prop := at_dir level w /\ names (now_disk w) !! (level ++ [c]) = None.
Lemma free_at_stable level c : in_area (level ++ [c]) -> Stable (free_at level c).
Proof using Henv. intros Ha w [Hs Hd]. split; [by apply (at_dir_stable level w)|]. simpl. by rewrite others_area. Qed.

Lemma wp_observe {A} (f : tree -> A) (Q : world -> Prop) `{!Stable Q} w (P : outcome exn A -> world -> Prop) : Q w ->
  (forall d, Q (World d (S (tick w)) (steps w)) -> P (Ok (f (names d))) (World d (S (tick w)) (steps w))) -> wp (observe env f) w P.
Proof. intros Hw HP. unfold wp, observe. simpl. by apply HP, (stable _ w). Qed.

Lemma match_roots_found twin resolved root l : no_up resolved -> root `prefix_of` resolved -> forall w, at_dir root w ->
  wp (match_roots env cwd twin resolved root l) w
     (fun r w' => match r with Ok (resolved, root) => at_dir root w' /\ no_up resolved /\ root `prefix_of` resolved | Raise _ => True end).
Proof using Henv.
  intros Hn Hp. induction l as [|x l IH]; intros w Hw; simpl; [done|].
  apply wp_bind. apply (wp_observe _ (at_dir root)); [done|]. intros d H. destruct (_ && _); [done|by apply IH].
Qed.

(** The root a containment check answers is a directory, above what it resolved. *)
Lemma contained_found p w : sound w ->
  wp (_contained_without_symlinks env cwd nfc p scan_roots) w
     (fun r w' => match r with Ok (resolved, root) => at_dir root w' /\ no_up resolved /\ root `prefix_of` resolved | Raise _ => True end).
Proof using Henv Hcwd.
  intros Hw. unfold _contained_without_symlinks. apply wp_bind. apply (wp_observe _ sound); [done|]. intros d1 H1.
  apply wp_bind. apply (wp_observe _ sound); [done|]. intros d2 H2. unfold resolve_contained_twin, resolve_and_check_containment.
  set (twin := resolve_media_path nfc cwd (names d2) p).
  pose proof (check_roots_spec cwd (names d2) (resolve cwd (names d2) twin) scan_roots) as Hc.
  destruct (check_roots _ _ _ _) as [[resolved root]|e]; [|done]. destruct Hc as (-> & (r & Hr & ->) & Hp). destruct H2 as (Hwf & Hroots & Hs).
  pose proof (proj1 (Forall_forall _ _) Hroots r Hr) as [Habs Hdir].
  assert (Hnu : no_up (resolve cwd (names d2) twin)) by (apply realpath_no_up; destruct (is_absolute twin); [constructor|done]).
  apply match_roots_found; [done|done|]. rewrite resolve_dir by done. split; [by split_and!|done].
Qed.

Lemma mkdir_sound level c w : at_dir level w -> c <> ".." -> wp (mkdir env fault cwd (Pure true (level ++ [c]))) w (fun _ w' => at_dir level w').
Proof using Henv.
  intros Hw Hc. pose proof (at_dir_stable level w Hw) as Hs. unfold wp, mkdir, call. set (d := env (tick w) (now_disk w)) in *.
  destruct Hs as [(Hwf & Hr & Hst) Hd]. simpl in *. rewrite entry_below by done.
  destruct (names d !! (level ++ [c])) eqn:E; [by destruct (fault _ _)|]. assert (Hm : made (d, Disk (<[level ++ [c] := NDir]> (names d)) (inodes d))) by by exists (level ++ [c]).
  destruct (fault (tick w) Mkdir); try done; (split; [split_and!|]); simpl;
    [by apply wf_tree_insert| |apply List.Forall_cons; [by apply made_loses_nothing|done]| |by apply wf_tree_insert| |apply List.Forall_cons; [by apply made_loses_nothing|done]|];
    try (revert Hr; apply List.Forall_impl; intros r [? Hdir]; split; [done|]); rewrite lookup_insert_ne; try done; congruence.
Qed.

Lemma levels_made parts : forall level w, at_dir level w -> no_up parts ->
  wp (make_levels env fault mount cwd level parts) w (fun r w' => match r with Ok l => l = level ++ parts /\ at_dir l w' | Raise _ => sound w' end).
Proof using Henv.
  induction parts as [|c parts IH]; intros level w Hw Hn; simpl; [by rewrite app_nil_r|]. apply List.Forall_cons_iff in Hn as [Hc Hn].
  apply wp_bind. apply wp_mono with (P := fun _ w' => at_dir level w').
  { apply wp_catch. eapply wp_mono; [by apply mkdir_sound|]. intros [[]|e] w1 H1; [done|]. destruct e; simpl; unfold wp, refuse, raise, ret; simpl; try done. }
  intros [[]|e] w1 H1; [|by destruct H1]. apply wp_bind. unfold wp at 1, lstat, call. pose proof (at_dir_stable level w1 H1) as Hs. set (d := env _ _) in *.
  destruct Hs as [(Hwf & Hr & Hst) Hd]. simpl in *. unfold stat_entry. rewrite entry_below by done. unfold stat_at.
  assert (Hso : sound (World d (S (tick w1)) (steps w1))) by by split_and!.
  destruct (names d !! (level ++ [c])) as [[| |]|] eqn:E; destruct (fault _ _); try done.
  replace (level ++ c :: parts) with ((level ++ [c]) ++ parts) by by rewrite <- app_assoc. apply IH; [by split|done].
Qed.

Lemma wp_and {A} (m : M A) w (P Q : outcome exn A -> world -> Prop) : wp m w P -> wp m w Q -> wp m w (fun r w' => P r w' /\ Q r w').
Proof. unfold wp. by destruct (m w). Qed.

Lemma name_checked resolved root w : wp (_check_source_name lower resolved root) w
  (fun r w' => w' = w /\ match r with Ok relative => relative = below root resolved /\ relative <> [] | Raise _ => True end).
Proof using Type.
  unfold _check_source_name. destruct (last (below root resolved)) eqn:E; [|done].
  destruct (bool_decide _); [done|]. destruct (negb _); [done|]. split; [done|]. split; [done|]. intros Hn. by rewrite Hn in E.
Qed.

Lemma last_snoc_default {A} (l : list A) x : l <> [] -> removelast l ++ [List.last l x] = l.
Proof. intros H. symmetry. by apply app_removelast_last. Qed.

Lemma dirs_made root relative w : at_dir root w -> no_up relative -> relative <> [] ->
  wp (_make_destination_dirs env fault mount cwd root relative) w
     (fun r w' => match r with
                  | Ok dst => exists level c, dst = level ++ [c] /\ c <> ".." /\ in_area dst /\ at_dir level w'
                  | Raise _ => sound w' end).
Proof using Henv.
  intros Hw Hn Hne. unfold _make_destination_dirs. assert (Hsplit : no_up (removelast relative) /\ List.last relative ""%string <> ".."%string).
  { assert (Hn' : no_up (removelast relative ++ [List.last relative ""%string])) by (by rewrite last_snoc_default).
    apply Forall_app in Hn' as [? Hl]. split; [done|]. by apply List.Forall_inv in Hl. }
  destruct Hsplit as [Hr Hl]. apply wp_bind. eapply wp_mono; [apply (levels_made (QUARANTINE_DIRNAME :: removelast relative)); [done|by apply List.Forall_cons]|].
  intros [level|e] w1; [|done]. intros [-> H1]. apply wp_bind. eapply (wp_observe _ (at_dir _)); [exact H1|]. intros d H.
  destruct (bool_decide _ && _); [|by destruct H]. eexists _, _. split; [done|]. split_and!; [done| |done].
  unfold in_area. rewrite !elem_of_app. left. right. by left.
Qed.

Lemma checked_free level c w : at_dir level w -> c <> ".." -> in_area (level ++ [c]) ->
  wp (lexists env fault mount cwd (Pure true (level ++ [c]))) w
     (fun r w' => match r with Ok false => free_at level c w' | Ok true => sound w' | Raise _ => sound w' end).
Proof using Henv Hlexists.
  intros Hw Hc Ha. pose proof (at_dir_stable level w Hw) as Hs. unfold wp, lexists, catch, call. rewrite Hlexists. set (d := env _ _) in *.
  destruct Hs as [Hso Hd]. pose proof Hso as (Hwf & _). simpl in *. unfold stat_entry. rewrite entry_below by done. unfold stat_at.
  destruct (names d !! (level ++ [c])) as [[| |]|] eqn:E; [done..|]. by split.
Qed.

Lemma prepared fuel p sha256 size w : sound w ->
  wp (_prepare env fault mount cwd nfc lower sha256_of fuel p scan_roots sha256 size) w
     (fun r w' => match r with
                  | Ok (src, dst, _) => exists level c, dst = level ++ [c] /\ c <> ".." /\ in_area dst /\ free_at level c w'
                  | Raise _ => sound w' end).
Proof using Henv Hlexists Hcwd.
  intros Hw. unfold _prepare. apply wp_bind. eapply wp_mono; [apply wp_and; [by apply contained_found|apply (wp_keeps sound); [apply keeps_contained, _|done]]|].
  intros [[resolved root]|e] w1 [H1 H1']; [|done]. destruct H1 as (Hat & Hn & Hp). apply wp_bind. eapply wp_mono; [apply name_checked|].
  intros [relative|e] w2 [-> H2]; [|done]. destruct H2 as [-> Hne]. apply wp_bind. eapply wp_mono; [apply (wp_keeps (at_dir root)); [apply keeps_hash, _|done]|].
  intros [hashed|e] w3 H3; [|by destruct H3]. apply wp_bind. eapply wp_mono; [apply dirs_made; [done| |done]|].
  { destruct Hp as [rel ->]. unfold below. rewrite drop_app_length. unfold no_up in Hn. by apply Forall_app in Hn as [_ ?]. }
  intros [dst|e] w4 H4; [|done]. destruct H4 as (level & c & -> & Hc & Ha & H4). apply wp_bind. eapply wp_mono; [by apply checked_free|].
  intros [[]|e] w5 H5; [done| |done]. assert (Hst := free_at_stable level c Ha). assert (Hso : forall w, free_at level c w -> sound w) by by intros w' [[] _].
  apply wp_bind. eapply wp_mono; [apply (wp_keeps (free_at level c)); [by apply keeps_lstat|exact H5]|]. intros [parent|e] w6 H6; [|by apply Hso].
  destruct (negb _); [by apply Hso|]. apply wp_bind. eapply wp_mono; [apply (wp_keeps (free_at level c)); [by apply keeps_lstat|exact H6]|].
  intros [current|e] w7 H7; [|by apply Hso]. destruct current as [| |ino dev node]; [by apply Hso..|]. case_bool_decide; [|by apply Hso]. by exists level, c.
Qed.

Lemma rename_sound src level c w : free_at level c w -> c <> ".." -> in_area (level ++ [c]) ->
  wp (rename env fault mount cwd (Pure true src) (Pure true (level ++ [c]))) w (fun _ w' => Forall loses_nothing (steps w')).
Proof using Henv.
  intros Hw Hc Ha. pose proof (free_at_stable level c Ha w Hw) as [[(Hwf & _ & Hs) Hd] Hfree]. unfold wp, rename, call. set (d := env _ _) in *. simpl in *.
  rewrite entry_below by done. destruct (entry_of cwd (names d) (Pure true src)) as [x|[]]; [|by destruct (fault _ _)..].
  destruct (rename_names mount x (level ++ [c]) (names d)) as [t|e] eqn:E; [|by destruct (fault _ _)].
  assert (Hl : Forall loses_nothing ((d, Disk t (inodes d)) :: steps w)) by (apply List.Forall_cons; [by eapply rename_loses_nothing|done]).
  by destruct (fault _ _).
Qed.

(** C6: the quarantine loses nothing.  Among others that create, change, replace and
    remove files and links as they like, outside the quarantine directories, and
    leave directories alone, and whatever calls fail but the [lstat] inside
    [os.path.lexists] ([unreadable_destination_is_overwritten] shows what happens
    when that one does): after each change of a run, every file that had a name has one, no entry was put in the place of another,
    and no byte was written. *)
Theorem quarantine_loses_nothing fuel candidate sha256 size w :
  wf_tree (names (now_disk w)) -> Forall (real_root (names (now_disk w))) scan_roots -> steps w = [] ->
  Forall loses_nothing (steps (quarantine_file env fault mount cwd nfc lower sha256_of fuel candidate scan_roots sha256 size w).1).
Proof using Henv Hlexists Hcwd.
  intros Hwf Hr Hst. assert (Hw : sound w) by (split_and!; [done|done|rewrite Hst; constructor]).
  assert (Hm : wp (quarantine_file env fault mount cwd nfc lower sha256_of fuel candidate scan_roots sha256 size) w (fun _ w' => Forall loses_nothing (steps w'))).
  2: { unfold wp in Hm. by destruct (quarantine_file _ _ _ _ _ _ _ _ _ _ _ _ w). }
  set (P := fun l => Forall loses_nothing l). assert (Hso : forall w, sound w -> P (steps w)) by by intros w' (_ & _ & ?).
  unfold quarantine_file. apply wp_bind. apply wp_mono with (P := fun _ w' => P (steps w')).
  - apply wp_catch. apply wp_mono with (P := fun _ w' => P (steps w')).
    2: { intros [x|e] w' H; [done|]. by destruct (is_OSError e). }
    apply wp_bind. apply (wp_observe _ sound); [done|]. intros d1 H1. apply wp_bind. eapply wp_mono.
    { apply (wp_keeps sound); [|exact H1]. apply keeps_catch; [apply keeps_bind; [apply keeps_lstat, _|intros; apply keeps_ret]|]. intros []; first [apply keeps_ret|apply keeps_raise]. }
    intros [[]|e] w2 H2; [| |by apply Hso].
    + apply wp_bind. eapply wp_mono; [by apply prepared|]. intros [[[src dst] hashed]|e] w3 H3; [|by apply Hso]. destruct H3 as (level & c & -> & Hc & Ha & H3).
      apply wp_bind. eapply wp_mono; [by apply rename_sound|]. by intros [[]|e] w4 H4.
    + apply wp_bind. eapply wp_mono; [apply (wp_keeps (kept P)); [apply keeps_replay, _|by apply Hso]|]. by intros [o|e] w3 H3.
  - intros [[[[src dst] hashed]|o]|e] w1 H1; [|done|done]. apply wp_bind. eapply wp_mono; [apply (wp_keeps (kept P)); [apply keeps_lstat, _|exact H1]|].
    intros [st|e] w2 H2; [|done]. destruct st; try done. by case_bool_decide.
Qed.
End safety.

(** ** Only what was approved *)

(** What the files hold. *)
Definition holding (I : nat -> Inode) (w : world) : Prop := inodes (now_disk w) = I.

Section contents_kept.
Context (env : nat -> disk -> disk) (fault : nat -> op -> fault_kind) (mount : dir -> nat) (cwd : dir).
Context (nfc lower : string -> string) (sha256_of : list Z -> string).
(** The others write no file in place: they may still put another in its stead. *)
Context (Hcontents : forall n d, inodes (env n d) = inodes d) (I : nat -> Inode).

Abbreviation Stable := (Stable env).
#[local] Instance holding_stable : Stable (holding I).
Proof using Hcontents. intros w Hw. unfold holding in *. simpl. by rewrite Hcontents. Qed.

(** [m] leaves the contents alone and does not run out of fuel. *)
Definition ends {A} (m : M A) : Prop := forall w, holding I w -> wp m w (fun r w' => holding I w' /\ r <> Raise StillReading).

Lemma ends_ret {A} (a : A) : ends (ret a).
Proof using Type. by intros w Hw. Qed.
Lemma ends_raise {A} e : e <> StillReading -> ends (A := A) (raise e).
Proof using Type. intros He w Hw. split; [done|]. congruence. Qed.
Lemma ends_refuse {A} why : ends (A := A) (refuse why).
Proof using Type. by apply ends_raise. Qed.
Lemma ends_bind {A B} (m : M A) (k : A -> M B) : ends m -> (forall a, ends (k a)) -> ends (bind m k).
Proof using Type. intros Hm Hk w Hw. apply wp_bind. eapply wp_mono; [by apply Hm|]. intros [a|e] w' [Hw' He]; [by apply Hk|]. split; [done|]. congruence. Qed.
Lemma ends_catch {A} (m : M A) (h : exn -> M A) : ends m -> (forall e, e <> StillReading -> ends (h e)) -> ends (catch m h).
Proof using Type. intros Hm Hh w Hw. apply wp_catch. eapply wp_mono; [by apply Hm|]. intros [a|e] w' [Hw' He]; [done|]. apply Hh; [congruence|done]. Qed.

Lemma ends_call {A} o (f : disk -> outcome exn (option disk * A)) :
  (forall d, match f d with Ok (Some d', _) => inodes d' = inodes d | Ok (None, _) => True | Raise e => e <> StillReading end) -> ends (call env fault o f).
Proof using Hcontents.
  intros Hf w Hw. specialize (Hf (env (tick w) (now_disk w))). assert (Hd : inodes (env (tick w) (now_disk w)) = I) by by rewrite Hcontents.
  unfold wp, call, holding. destruct (f _) as [[[d'|] a]|e]; destruct (fault _ _); simpl; split; congruence.
Qed.
Lemma ends_observe {A} (f : tree -> A) : ends (observe env f).
Proof using Hcontents. intros w Hw. split; [by apply (holding_stable w)|done]. Qed.

Lemma stat_ends d p : match stat_entry mount cwd d p with Ok _ => True | Raise e => e <> StillReading end.
Proof using Type. unfold stat_entry. destruct (entry_of cwd (names d) p) as [x|[]]; [destruct (stat_at mount d x)|..]; done. Qed.
Lemma ends_lstat p : ends (lstat env fault mount cwd p).
Proof using Hcontents. apply ends_call. intros d. pose proof (stat_ends d p). by destruct (stat_entry _ _ _ _). Qed.
Lemma ends_open p : ends (open_nofollow env fault mount cwd p).
Proof using Hcontents. apply ends_call. intros d. pose proof (stat_ends d p). by destruct (stat_entry _ _ _ _) as [[]|]. Qed.
Lemma ends_lexists p : ends (lexists env fault mount cwd p).
Proof using Hcontents.
  apply ends_catch; [apply ends_call; intros d; pose proof (stat_ends d p); by destruct (stat_entry _ _ _ _)|]. intros e He. destruct (is_OSError e); [apply ends_ret|by apply ends_raise].
Qed.
Lemma ends_mkdir p : ends (mkdir env fault cwd p).
Proof using Hcontents. apply ends_call. intros d. destruct (entry_of _ _ _) as [x|[]]; [destruct (names d !! x)|..]; done. Qed.
Lemma rename_names_ends x y t : match rename_names mount x y t with Ok _ => True | Raise e => e <> StillReading end.
Proof using Type.
  assert (Hok : forall r : outcome exn tree, r <> Raise StillReading -> match r with Ok _ => True | Raise e => e <> StillReading end) by (intros [] ?; [done|congruence]).
  apply Hok. unfold rename_names. repeat case_match; discriminate.
Qed.
Lemma ends_rename src dst : ends (rename env fault mount cwd src dst).
Proof using Hcontents.
  apply ends_call. intros d. destruct (entry_of cwd (names d) src) as [x|[]]; [|done..].
  destruct (entry_of cwd (names d) dst) as [y|[]]; [|done..]. pose proof (rename_names_ends x y (names d)). by destruct (rename_names _ _ _ _).
Qed.
Hint Resolve ends_observe ends_lstat ends_open ends_lexists ends_mkdir ends_rename ends_refuse ends_ret : phaze.

Ltac ending := repeat first
  [ solve [eauto 2 with phaze nocore] | apply ends_raise; congruence | apply ends_bind; [|intros ?] | apply ends_catch; [|intros ??] | progress simpl
  | match goal with |- ends (match ?x with _ => _ end) => destruct x end ].

Lemma ends_contained p roots : ends (_contained_without_symlinks env cwd nfc p roots).
Proof using Hcontents.
  unfold _contained_without_symlinks. ending. generalize (abspath cwd a). intros twin. induction roots as [|r roots IH]; simpl; ending; auto.
Qed.
Lemma ends_name d r : ends (_check_source_name lower d r).
Proof using Type. unfold _check_source_name. ending. Qed.
Lemma ends_levels names : forall level, ends (make_levels env fault mount cwd level names).
Proof using Hcontents. induction names as [|part names IH]; intros level; simpl; ending. Qed.
Hint Resolve ends_contained ends_name ends_levels : phaze.

Lemma chunk_of_rest (k : list Z) : exists k', k = take _HASH_CHUNK_SIZE k ++ k' /\ (take _HASH_CHUNK_SIZE k = [] -> k = []).
Proof using Type.
  assert (Hpos : (0 < _HASH_CHUNK_SIZE)%nat) by (unfold _HASH_CHUNK_SIZE; lia). revert Hpos. generalize _HASH_CHUNK_SIZE. intros n Hn.
  exists (drop n k). split; [by rewrite take_drop|]. by destruct n, k; [lia|lia| |].
Qed.

(** Reading a file whose contents stay gives its contents, in at most one chunk per byte. *)
Lemma read_all_reads fuel ino : forall l w, holding I w -> l `prefix_of` content (I ino) ->
  wp (read_all env fault fuel ino l) w
     (fun r w' => holding I w' /\ (forall c, r = Ok c -> c = content (I ino)) /\ (length (content (I ino)) < fuel + length l -> r <> Raise StillReading)%nat).
Proof using Hcontents.
  induction fuel as [|fuel IH]; intros l w Hw [k Hk]; simpl.
  { split; [done|]. split; [done|]. rewrite Hk, length_app. intros; lia. }
  apply wp_bind. unfold wp at 1, read_chunk, call. assert (Hs := holding_stable w Hw). unfold holding in Hs. simpl in Hs. rewrite Hs, Hk, drop_app_length.
  set (chunk := take _HASH_CHUNK_SIZE k). destruct (chunk_of_rest k) as (k' & Hc & Hpos). fold chunk in Hc, Hpos. clearbody chunk.
  assert (Hread : forall w, holding I w -> wp (match chunk with [] => ret l | _ => read_all env fault fuel ino (l ++ chunk) end) w
    (fun r w' => holding I w' /\ (forall c, r = Ok c -> c = content (I ino)) /\ (length (content (I ino)) < S fuel + length l -> r <> Raise StillReading)%nat)).
  { intros w1 Hw1. destruct chunk as [|z chunk'] eqn:E.
    - split; [done|]. split; [|done]. intros c [= <-]. rewrite Hpos, app_nil_r in Hk by done. done.
    - rewrite <- E in *. eapply wp_mono; [apply IH; [done|]|]. { exists k'. by rewrite <- app_assoc, <- Hc. }
      intros r w2 (H1 & H2 & H3). split_and!; [done|done|]. intros Hl. apply H3. rewrite length_app, E. simpl. lia. }
  assert (Hnow : holding I (World (env (tick w) (now_disk w)) (S (tick w)) (steps w))) by exact Hs. specialize (Hread _ Hnow).
  destruct (fault _ _); simpl; [rewrite Hk in Hread; exact Hread|done|done].
Qed.
(** [m] leaves the contents alone, answers with [P] only, and does not run out of a
    fuel above [size]. *)
Section gives.
Context (fuel : nat) (size : Z).
Definition gives {A} (P : A -> Prop) (m : M A) : Prop := forall w, holding I w ->
  wp m w (fun r w' => holding I w' /\ (forall a, r = Ok a -> P a) /\ (size < Z.of_nat fuel -> r <> Raise StillReading)).

Lemma gives_ends {A} (P : A -> Prop) (m : M A) : ends m -> (forall a, P a) -> gives P m.
Proof using Type. intros Hm HP w Hw. eapply wp_mono; [by apply Hm|]. intros r w' [? ?]. by split_and!. Qed.
Lemma gives_bind {A B} (P : A -> Prop) (Q : B -> Prop) (m : M A) (k : A -> M B) : gives P m -> (forall a, P a -> gives Q (k a)) -> gives Q (bind m k).
Proof using Type.
  intros Hm Hk w Hw. apply wp_bind. eapply wp_mono; [by apply Hm|]. intros [a|e] w' (Hw' & Ha & He); [by apply Hk; [apply Ha|]|].
  split_and!; [done|done|]. intros Hs E. apply (He Hs). congruence.
Qed.
Lemma gives_catch {A} (P : A -> Prop) (m : M A) (h : exn -> M A) : gives P m -> (forall e, (size < Z.of_nat fuel -> e <> StillReading) -> gives P (h e)) -> gives P (catch m h).
Proof using Type.
  intros Hm Hh w Hw. apply wp_catch. eapply wp_mono; [by apply Hm|]. intros [a|e] w' (Hw' & Ha & He); [done|]. apply Hh; [|done]. intros Hs ->. by apply (He Hs).
Qed.
Lemma gives_raise {A} (P : A -> Prop) e : (size < Z.of_nat fuel -> e <> StillReading) -> gives (A := A) P (raise e).
Proof using Type. intros He w Hw. split_and!; [done|done|]. intros Hs [= E]. by apply (He Hs). Qed.
Lemma gives_refuse {A} (P : A -> Prop) why : gives (A := A) P (refuse why).
Proof using Type. by apply gives_raise. Qed.
Lemma gives_ret {A} (P : A -> Prop) a : P a -> gives (A := A) P (ret a).
Proof using Type. intros Ha w Hw. split_and!; [done|by intros ? [= <-]|done]. Qed.
End gives.

Lemma fstat_gives fuel size ino dev : gives fuel size (fun st => st = StFile ino dev (I ino)) (fstat env fault ino dev).
Proof using Hcontents.
  intros w Hw. unfold wp, fstat, call. assert (Hs := holding_stable w Hw). unfold holding in Hs. simpl in Hs. rewrite Hs.
  destruct (fault _ _); simpl; split_and!; try done; by intros ? [= <-].
Qed.

(** The file the approval names. *)
Definition approved (sha256 : string) (size : Z) (n : Inode) : Prop := regular n = true /\ Z.of_nat (length (content n)) = size /\ sha256_of (content n) = sha256.

Lemma hash_approves fuel p sha256 size : gives fuel size (fun i => approved sha256 size (I (id_ino i))) (_hash_regular_file env fault mount cwd sha256_of fuel p sha256 size).
Proof using Hcontents.
  apply (gives_bind _ _ (fun _ => True)); [apply gives_ends; [ending|done]|]. intros [dev|dev|ino dev node] _; try apply gives_refuse.
  eapply gives_bind; [apply fstat_gives|]. intros st ->. destruct (regular (I ino)) eqn:Er; [|apply gives_refuse].
  case_bool_decide as Hz; [|apply gives_refuse]. simpl in Hz. cbn [negb].
  apply (gives_bind _ _ (fun c => c = content (I ino))).
  { intros w Hw. eapply wp_mono; [apply (read_all_reads fuel ino []); [exact Hw|apply prefix_nil]|]. intros r w' (? & ? & Hf). split_and!; [done|done|].
    intros Hl. apply Hf. simpl. lia. }
  intros c ->. eapply gives_bind; [apply fstat_gives|]. intros st ->. rewrite bool_decide_eq_true_2 by done. cbn [negb].
  case_bool_decide as Hsha; [|apply gives_refuse]. by apply gives_ret.
Qed.

Lemma prepare_approves fuel p roots sha256 size :
  gives fuel size (fun x => approved sha256 size (I (id_ino x.2))) (_prepare env fault mount cwd nfc lower sha256_of fuel p roots sha256 size).
Proof using Hcontents.
  eapply gives_bind; [apply (gives_ends _ _ (fun _ => True)); [ending|done]|]. intros [resolved root] _.
  eapply gives_bind; [apply (gives_ends _ _ (fun _ => True)); [ending|done]|]. intros relative _.
  eapply gives_bind; [apply hash_approves|]. intros hashed Hh. apply (gives_bind _ _ (fun _ => True)); [apply gives_ends; [unfold _make_destination_dirs; ending|done]|]. intros dst _.
  apply (gives_bind _ _ (fun _ => True)); [apply gives_ends; [ending|done]|]. intros [] _; [apply gives_refuse|].
  apply (gives_bind _ _ (fun _ => True)); [apply gives_ends; [ending|done]|]. intros parent _. destruct (negb _); [apply gives_refuse|].
  apply (gives_bind _ _ (fun _ => True)); [apply gives_ends; [ending|done]|]. intros [| |ino dev node] _; try apply gives_refuse.
  destruct (bool_decide _); [by apply gives_ret|apply gives_refuse].
Qed.

Lemma replay_approves fuel p roots sha256 size :
  gives fuel size (fun o => replayed o = true /\ exists ino, approved sha256 size (I ino)) (_corroborated_replay env fault mount cwd nfc lower sha256_of fuel p roots sha256 size).
Proof using Hcontents.
  apply (gives_bind _ _ (fun _ => True)); [apply gives_ends; [ending|done]|]. intros [[missing root]|e] _; [|apply gives_refuse].
  apply (gives_bind _ _ (fun _ => True)); [apply gives_ends; [ending|done]|]. intros relative _.
  apply (gives_bind _ _ (fun _ => exists ino, approved sha256 size (I ino))); [|intros d Hd; by apply gives_ret].
  apply gives_catch; [|intros e He; destruct e; first [apply gives_refuse|apply gives_raise; exact He]].
  apply (gives_bind _ _ (fun _ => True)); [apply gives_ends; [ending|done]|]. intros found _. eapply gives_bind; [apply hash_approves|]. intros i Hi. apply gives_ret. by exists (id_ino i).
Qed.

(** C15: only what was approved.  Where the others write no file in place (they may
    still swap one for another at any moment), whatever calls fail: a run that
    answers answers for a regular file of the approved size and hash, which is what
    the destination names at the last look when this run moved it; and a fuel above
    the approved size is enough. *)
Theorem quarantined_is_approved fuel candidate scan_roots sha256 size w :
  holding I w ->
  let (w', r) := quarantine_file env fault mount cwd nfc lower sha256_of fuel candidate scan_roots sha256 size w in
  holding I w' /\ (size < Z.of_nat fuel -> r <> Raise StillReading) /\
  forall o, r = Ok o -> exists ino dev, approved sha256 size (I ino) /\
    (replayed o = false -> stat_entry mount cwd (now_disk w') (Pure true (destination o)) = Ok (StFile ino dev (I ino))).
Proof using Hcontents.
  intros Hw. set (post := fun (r : outcome exn QuarantineOutcome) w' => holding I w' /\ (size < Z.of_nat fuel -> r <> Raise StillReading) /\
    forall o, r = Ok o -> exists ino dev, approved sha256 size (I ino) /\
      (replayed o = false -> stat_entry mount cwd (now_disk w') (Pure true (destination o)) = Ok (StFile ino dev (I ino)))).
  change (wp (quarantine_file env fault mount cwd nfc lower sha256_of fuel candidate scan_roots sha256 size) w post).
  set (reached := fun x : dir * dir * _Identity + QuarantineOutcome => match x with
    | inl prepared => approved sha256 size (I (id_ino prepared.2)) | inr o => replayed o = true /\ exists ino, approved sha256 size (I ino) end).
  unfold quarantine_file. apply wp_bind. eapply wp_mono; [match goal with |- wp ?m w _ => assert (Hm : gives fuel size reached m); [|exact (Hm w Hw)] end|].
  - apply gives_catch; [|intros e He; destruct (is_OSError e); [apply gives_refuse|apply gives_raise; exact He]].
    apply (gives_bind _ _ (fun _ => True)); [apply gives_ends; [ending|done]|]. intros found _.
    apply (gives_bind _ _ (fun _ => True)); [apply gives_ends; [|done]|].
    { apply ends_catch; [ending|]. intros e He. destruct e; first [apply ends_ret|by apply ends_raise]. }
    intros [] _; (eapply gives_bind; [first [apply prepare_approves|apply replay_approves]|]); intros x Hx; [|by apply gives_ret].
    apply (gives_bind _ _ (fun _ => True)); [apply gives_ends; [ending|done]|]. intros _ _. by apply gives_ret.
  - intros [[[[src dst] hashed]|o]|e] w1 (H1 & Ha & Hf).
    + specialize (Ha _ eq_refl). simpl in Ha. apply wp_bind. unfold wp at 1, lstat, call. assert (Hs := holding_stable w1 H1).
      set (d := env (tick w1) (now_disk w1)) in *. pose proof (stat_ends d (Pure true dst)) as Hse.
      destruct (stat_entry mount cwd d (Pure true dst)) as [[| |ino dev node]|e] eqn:E; destruct (fault _ _); try done; try (split_and!; [done|congruence|done]).
      case_bool_decide as Hi; [|done]. injection Hi as Hi Hdv. split_and!; [done|done|]. intros o [= <-]. exists ino, dev. simpl. rewrite Hi. split; [done|]. intros _.
      fold d. rewrite E. f_equal. unfold stat_entry in E. destruct (entry_of cwd (names d) (Pure true dst)) as [x|[]]; [|done|done]. unfold stat_at in E.
      destruct (names d !! x) as [[]|]; try done. injection E as <- <- <-. unfold holding in Hs. simpl in Hs. by rewrite Hs, Hi.
    + destruct (Ha _ eq_refl) as [Hr [ino Hi]]. split_and!; [done|done|]. intros o' [= <-]. exists ino, 0%nat. split; [done|]. congruence.
    + split_and!; [done| |done]. intros Hs E. apply (Hf Hs). congruence.
Qed.
End contents_kept.

(** ** Samples *)

Definition sample_tree : tree :=
  <[["music"; "set"; "ad.nfo"]%string := NFile 7]> (<[["music"; "set"]%string := NDir]> (<[["music"]%string := NDir]> {[ [] := NDir ]})).
Definition sample_inodes (ino : nat) : Inode := MkInode (if bool_decide (ino = 7%nat) then [1; 2; 3] else [9]) 55 true.
Definition sample_sha (l : list Z) : string := if bool_decide (l = [1; 2; 3]) then "abc" else "def".
Definition alone (n : nat) (d : disk) : disk := d.
Definition no_fault (n : nat) (o : op) : fault_kind := Fine.
Definition sample_world (t : tree) : world := World (Disk t sample_inodes) 0 [].
Definition sample_run (fault : nat -> op -> fault_kind) (w : world) : world * outcome exn QuarantineOutcome :=
  quarantine_file alone fault (fun _ => 0%nat) [] id id sample_sha 5 (mk_path "/music/set/ad.nfo") ["/music"%string] "abc" 3 w.
Definition quarantined : dir := ["music"; ".phaze-quarantine"; "set"; "ad.nfo"]%string.

Lemma sample_wf : wf_tree sample_tree.
Proof.
  repeat first [apply wf_tree_root | refine (wf_tree_insert _ ["music"; "set"]%string _ _ _ _ _ _)
    | refine (wf_tree_insert _ ["music"]%string _ _ _ _ _ _) | refine (wf_tree_insert _ [] _ _ _ _ _ _)]; done.
Qed.

Lemma alone_peaceful : peaceful alone.
Proof. by split. Qed.

(** The file moves, and a second run reports the first one's move and changes nothing. *)
Example moves_then_replays :
  (sample_run no_fault (sample_world sample_tree)).2 = Ok (Outcome ["music"; "set"; "ad.nfo"]%string quarantined false) /\
  let w := (sample_run no_fault (sample_world sample_tree)).1 in
  length (steps w) = 3%nat /\ names (now_disk w) !! quarantined = Some (NFile 7) /\
  (sample_run no_fault w).2 = Ok (Outcome ["music"; "set"; "ad.nfo"]%string quarantined true) /\ length (steps (sample_run no_fault w).1) = 3%nat.
Proof. vm_compute. done. Qed.

Definition crowded_tree : tree := <[quarantined := NFile 9]> (<[["music"; ".phaze-quarantine"; "set"]%string := NDir]> (<[["music"; ".phaze-quarantine"]%string := NDir]> sample_tree)).

(** A file already at the destination stops the move; when the [lstat] inside
    [os.path.lexists] fails, it does not, and the older file has no name left. *)
Example unreadable_destination_is_overwritten :
  (sample_run no_fault (sample_world crowded_tree)).2 = Raise (QuarantineRefused DestinationExists) /\
  let fault (n : nat) (o : op) := match o with Lexists => FailsBefore | _ => Fine end in
  let (w, r) := sample_run fault (sample_world crowded_tree) in
  r = Ok (Outcome ["music"; "set"; "ad.nfo"]%string quarantined false) /\ names (now_disk w) !! quarantined = Some (NFile 7) /\
  forallb (fun e => negb (bool_decide (e.2 = NFile 9))) (map_to_list (names (now_disk w))) = true.
Proof. vm_compute. done. Qed.

(** A [rename] that took effect and then failed is reported as a refusal that moved
    nothing. *)
Example failed_rename_reports_not_moved :
  let fault (n : nat) (o : op) := match o with Rename => FailsAfter | _ => Fine end in
  let (w, r) := sample_run fault (sample_world sample_tree) in
  r = Raise (QuarantineRefused NotMoved) /\ names (now_disk w) !! quarantined = Some (NFile 7).
Proof. vm_compute. done. Qed.

Lemma refusal_moves_nothing_witness :
  let (w', r) := sample_run no_fault (sample_world sample_tree) in
  match r with
  | Ok o => if replayed o then steps w' = [] else moved_last (fun _ => 0%nat) [] (source o) (destination o) (steps w')
  | Raise e => only_made (steps w') \/ moved_though no_fault e /\ exists src dst, moved_last (fun _ => 0%nat) [] src dst (steps w')
  end.
Proof. apply (refusal_moves_nothing alone no_fault (fun _ => 0%nat) [] id id sample_sha 5). reflexivity. Defined.

Lemma quarantine_loses_nothing_witness : Forall loses_nothing (steps (sample_run no_fault (sample_world sample_tree)).1).
Proof.
  apply (quarantine_loses_nothing alone no_fault (fun _ => 0%nat) [] id id sample_sha ["/music"%string] alone_peaceful).
  - intros n. reflexivity.
  - constructor.
  - exact sample_wf.
  - constructor; [split; reflexivity|constructor].
  - reflexivity.
Defined.

Lemma quarantined_is_approved_witness :
  let (w', r) := sample_run no_fault (sample_world sample_tree) in
  holding sample_inodes w' /\ (3 < Z.of_nat 5 -> r <> Raise StillReading) /\
  forall o, r = Ok o -> exists ino dev, approved sample_sha "abc" 3 (sample_inodes ino) /\
    (replayed o = false -> stat_entry (fun _ => 0%nat) [] (now_disk w') (Pure true (destination o)) = Ok (StFile ino dev (sample_inodes ino))).
Proof.
  apply (quarantined_is_approved alone no_fault (fun _ => 0%nat) [] id id sample_sha); [|reflexivity]. intros n d. reflexivity.
Defined.
