(* ===== verification/Selection.v ===== *)
(** * Which backend takes a held file

    [services/cloud_budget.py] and [services/backend_selection.py].  A datetime
    is a UTC microsecond count that may lack its time zone; mixing the two kinds
    raises [TypeError].  Seconds, days and utilisations are exact rationals where
    Python rounds to a double. *)
From Stdlib Require Import QArith.
From S2P Require Import Prelude.
From stdpp Require Import options.
Local Open Scope Z_scope.

(** ** Datetimes *)

Record datetime : Type := Datetime { aware : bool; usec : Z }.

Inductive pyexn : Type := TypeError.

(** [a - b], in microseconds. *)
Definition dt_sub (a b : datetime) : outcome pyexn Z :=
  if Bool.eqb (aware a) (aware b) then Ok (usec a - usec b) else Raise TypeError.

Definition microsecond : Z := 1000000.

(** ** [ControlSettings], the knobs of the policy *)

Record ControlSettings : Type := Settings {
  cloud_submit_max_attempts : Z;
  cloud_budget_cooldown_days : Q;
  cloud_budget_max_chains : Z;
  cloud_budget_max_node_loss : Z;
  cloud_spill_to_local_after_seconds : Z;
}.

(** ** [cloud_budget.py] *)

Definition HOLD_CLOUD_BUDGET_COOLDOWN : string := "cloud_budget_cooldown".
Definition HOLD_CLOUD_BUDGET_CHAINS : string := "cloud_budget_chains_exhausted".
Definition HOLD_CLOUD_BUDGET_NODE_LOSS : string := "cloud_budget_node_loss_exhausted".

Record CloudBudgetState : Type := CloudBudget {
  chains_spent : Z;
  attempts_spent : Z;
  node_loss_spent : Z;
  budget_spent_at : datetime;
}.

(** Both datetimes made aware or naive like the other one. *)
Definition same_awareness (spent_at now : datetime) : datetime * datetime :=
  if negb (aware spent_at) && aware now then (Datetime true (usec spent_at), now)
  else if aware spent_at && negb (aware now) then (spent_at, Datetime true (usec now))
  else (spent_at, now).

Definition cloud_budget_hold_reason (budget : option CloudBudgetState) (now : datetime) (cfg : ControlSettings) :
    outcome pyexn string :=
  match budget with
  | None => Ok ""
  | Some b =>
      if negb (cloud_budget_max_chains cfg =? 0) && (chains_spent b >=? cloud_budget_max_chains cfg) then Ok HOLD_CLOUD_BUDGET_CHAINS
      else if negb (cloud_budget_max_node_loss cfg =? 0) && (node_loss_spent b >=? cloud_budget_max_node_loss cfg)
      then Ok HOLD_CLOUD_BUDGET_NODE_LOSS
      else
        let cooldown_sec := (cloud_budget_cooldown_days cfg * inject_Z 86400)%Q in
        if Qle_bool cooldown_sec 0 then Ok ""
        else
          let (spent_at, now') := same_awareness (budget_spent_at b) now in
          try! elapsed <- dt_sub now' spent_at;
          if negb (Qle_bool cooldown_sec (inject_Z elapsed / inject_Z microsecond)) then Ok HOLD_CLOUD_BUDGET_COOLDOWN else Ok ""
  end.

(** The upsert of one burned-out chain; [now] is the transaction's clock. *)
Definition record_cloud_budget_spent (now : datetime) (file_id : string) (attempts node_loss_redrives : Z)
    (table : gmap string CloudBudgetState) : gmap string CloudBudgetState :=
  <[file_id := match table !! file_id with
               | None => CloudBudget 1 attempts node_loss_redrives now
               | Some b => CloudBudget (chains_spent b + 1) (attempts_spent b + attempts)
                             (node_loss_spent b + node_loss_redrives) now
               end]> table.

(** ** [backend_selection.py] *)

(** The registry entry of [config_backends.py] a backend is bound to; the
    cluster connection of a kueue entry is not kept. *)
Inductive BackendKind : Type :=
| KLocal
| KCompute (agent_ref push_host scratch_dir ssh_user : option string)
| KKueue (buckets : list string).
#[export] Instance BackendKind_eq_dec : EqDecision BackendKind.
Proof. solve_decision. Defined.

Record Backend : Type := MkBackend { backend_id : string; rank : Z; backend_cap : Z; config : BackendKind }.

(** [isinstance(backend, LocalBackend)] *)
Definition is_local (b : Backend) : bool := match config b with KLocal => true | _ => false end.

#[export] Instance Backend_eq_dec : EqDecision Backend.
Proof. solve_decision. Defined.

Record BackendSlot : Type := Slot { backend : Backend; available : bool; remaining : Z; cap : Z }.

Definition HOLD_NO_FREE_SLOTS : string := "no_free_slots".
Definition HOLD_CLOUD_ATTEMPTS_EXHAUSTED : string := "cloud_attempts_exhausted".
Definition HOLD_LOCAL_SPILL_NOT_REACHED : string := "local_spill_not_reached".

Definition _utilization (slot : BackendSlot) : Q :=
  if cap slot <=? 0 then 0%Q else ((inject_Z (cap slot - remaining slot)) / inject_Z (cap slot))%Q.

(** The sort key: rank, utilisation, id. *)
Definition key_leb (a b : BackendSlot) : bool :=
  match rank (backend a) ?= rank (backend b) with
  | Lt => true
  | Gt => false
  | Eq => match Qcompare (_utilization a) (_utilization b) with
          | Lt => true
          | Gt => false
          | Eq => String.leb (backend_id (backend a)) (backend_id (backend b))
          end
  end.

(** The head of the list after its stable sort by that key. *)
Fixpoint sort_head (best : BackendSlot) (l : list BackendSlot) : BackendSlot :=
  match l with
  | [] => best
  | s :: l' => sort_head (if key_leb best s then best else s) l'
  end.

Abbreviation snapshot_t := (list (string * BackendSlot)).

Definition select_backend_with_reason (lane_entered_at : datetime) (cloud_attempts : Z) (snapshot : snapshot_t)
    (now : datetime) (cfg : ControlSettings) (cloud_budget : option CloudBudgetState) :
    outcome pyexn (option Backend * string) :=
  let slots := map snd snapshot in
  let eligible := List.filter (fun s => available s && (remaining s >? 0)) slots in
  match eligible with
  | [] => Ok (None, HOLD_NO_FREE_SLOTS)
  | _ =>
      try! cloud_barred_reason <-
        (if cloud_attempts >=? cloud_submit_max_attempts cfg then Ok HOLD_CLOUD_ATTEMPTS_EXHAUSTED
         else cloud_budget_hold_reason cloud_budget now cfg);
      let barred := negb (bool_decide (cloud_barred_reason = "")) in
      let eligible1 := if barred then List.filter (fun s => is_local (backend s)) eligible else eligible in
      match eligible1 with
      | [] => Ok (None, cloud_barred_reason)
      | _ =>
          let any_non_local_online := existsb (fun s => available s) (List.filter (fun s => negb (is_local (backend s))) slots) in
          try! waiting <- dt_sub now lane_entered_at;
          let waited := waiting >=? cloud_spill_to_local_after_seconds cfg * microsecond in
          let local_ok := negb any_non_local_online || waited || barred in
          let eligible2 := if local_ok then eligible1 else List.filter (fun s => negb (is_local (backend s))) eligible1 in
          match eligible2 with
          | [] => Ok (None, HOLD_LOCAL_SPILL_NOT_REACHED)
          | s :: rest => Ok (Some (backend (sort_head s rest)), "")
          end
      end
  end.

Definition select_backend (lane_entered_at : datetime) (cloud_attempts : Z) (snapshot : snapshot_t)
    (now : datetime) (cfg : ControlSettings) (cloud_budget : option CloudBudgetState) : outcome pyexn (option Backend) :=
  try! r <- select_backend_with_reason lane_entered_at cloud_attempts snapshot now cfg cloud_budget; Ok r.1.

(** ** The order of the candidates *)

Definition key_le (a b : BackendSlot) : Prop := key_leb a b = true.

Lemma ascii_compare_trans_Lt a b c : Ascii.compare a b = Lt -> Ascii.compare b c = Lt -> Ascii.compare a c = Lt.
Proof. unfold Ascii.compare. rewrite !N.compare_lt_iff. lia. Qed.

Lemma ascii_compare_eq a b : Ascii.compare a b = Eq <-> a = b.
Proof.
  unfold Ascii.compare. rewrite N.compare_eq_iff. split; [|congruence].
  intros H. rewrite <- (Ascii.ascii_N_embedding a), <- (Ascii.ascii_N_embedding b). congruence.
Qed.

Lemma string_compare_trans_Lt a : forall b c, String.compare a b = Lt -> String.compare b c = Lt -> String.compare a c = Lt.
Proof.
  induction a as [|x a IH]; intros [|y b] [|z c]; simpl; try done.
  destruct (Ascii.compare x y) eqn:H1; try done.
  - apply ascii_compare_eq in H1 as ->. intros H2. destruct (Ascii.compare y z) eqn:H3; try done. by apply IH.
  - intros _. destruct (Ascii.compare y z) eqn:H3; try done.
    + apply ascii_compare_eq in H3 as <-. by rewrite H1.
    + by rewrite (ascii_compare_trans_Lt _ _ _ H1 H3).
Qed.

Lemma string_leb_trans a b c : String.leb a b = true -> String.leb b c = true -> String.leb a c = true.
Proof.
  unfold String.leb. intros H1 H2. destruct (String.compare a b) eqn:Hab; try done.
  - apply String.compare_eq_iff in Hab as ->. done.
  - destruct (String.compare b c) eqn:Hbc; try done.
    + apply String.compare_eq_iff in Hbc as <-. by rewrite Hab.
    + by rewrite (string_compare_trans_Lt _ _ _ Hab Hbc).
Qed.

Lemma string_leb_refl a : String.leb a a = true.
Proof.
  unfold String.leb. induction a as [|x a IH]; simpl; [done|]. rewrite (proj2 (ascii_compare_eq x x) eq_refl). exact IH.
Qed.

Lemma string_leb_total a b : String.leb a b = false -> String.leb b a = true.
Proof. unfold String.leb. rewrite (String.compare_antisym b a). by destruct (String.compare a b). Qed.

(** A lexicographic reading of the key. *)
Lemma key_leb_spec a b : key_leb a b = true <->
  rank (backend a) < rank (backend b) \/
  rank (backend a) = rank (backend b) /\
    ((_utilization a < _utilization b)%Q \/
     (_utilization a == _utilization b)%Q /\ String.leb (backend_id (backend a)) (backend_id (backend b)) = true).
Proof.
  unfold key_leb. destruct (Z.compare_spec (rank (backend a)) (rank (backend b))) as [He|Hl|Hg].
  - destruct (Qcompare_spec (_utilization a) (_utilization b)) as [Qe|Ql|Qg].
    + split; [intros H; right; split; [done|]; by right|]. intros [?|[_ [Hq|[_ H]]]]; [lia| |done].
      rewrite Qe in Hq. by apply Qlt_irrefl in Hq.
    + split; [intros _; right; split; [done|]; by left|done].
    + split; [done|]. intros [?|[_ [Hq|[Hq _]]]]; [lia| |].
      * exfalso. by apply (Qlt_irrefl (_utilization a)), (Qlt_trans _ _ _ Hq).
      * rewrite Hq in Qg. by apply Qlt_irrefl in Qg.
  - split; [intros _; by left|done].
  - split; [done|]. intros [?|[? _]]; lia.
Qed.

#[export] Instance key_le_preorder : PreOrder key_le.
Proof.
  unfold key_le. split.
  - intros a. apply key_leb_spec. right. split; [done|]. right. split; [reflexivity|apply string_leb_refl].
  - intros a b c. rewrite !key_leb_spec. intros [H1|[H1 H1']] [H2|[H2 H2']]; [left; lia|left; lia|left; lia|].
    right. split; [congruence|]. destruct H1' as [Q1|[Q1 S1]], H2' as [Q2|[Q2 S2]].
    + left. by eapply Qlt_trans.
    + left. by rewrite <- Q2.
    + left. by rewrite Q1.
    + right. split; [by rewrite Q1|]. by eapply string_leb_trans.
Qed.

Lemma key_leb_total a b : key_leb a b = false -> key_leb b a = true.
Proof.
  intros Hn. apply key_leb_spec. destruct (Z.compare_spec (rank (backend a)) (rank (backend b))) as [He|Hl|Hg].
  - right. split; [done|]. destruct (Qcompare_spec (_utilization a) (_utilization b)) as [Qe|Ql|Qg].
    + right. split; [by rewrite Qe|]. apply string_leb_total. destruct (String.leb _ _) eqn:Hs; [|done].
      exfalso. assert (Ht : key_leb a b = true); [|congruence]. apply key_leb_spec. right. split; [done|]. by right.
    + exfalso. assert (Ht : key_leb a b = true); [|congruence]. apply key_leb_spec. right. split; [done|]. by left.
    + by left.
  - exfalso. assert (Ht : key_leb a b = true); [|congruence]. apply key_leb_spec. by left.
  - by left.
Qed.

Lemma sort_head_min l : forall best,
  sort_head best l ∈ best :: l /\ forall s, s ∈ best :: l -> key_le (sort_head best l) s.
Proof.
  induction l as [|x l IH]; intros best; simpl.
  - split; [by left|]. by intros s [->|Hs%elem_of_nil]%elem_of_cons.
  - destruct (key_leb best x) eqn:Hb.
    + destruct (IH best) as [Hin Hmin]. split.
      * apply elem_of_cons in Hin as [->|Hin]; [by left|by do 2 right].
      * intros s [->|[->|Hs]%elem_of_cons]%elem_of_cons; [apply Hmin; by left| |apply Hmin; by right].
        etransitivity; [apply Hmin; by left|exact Hb].
    + apply key_leb_total in Hb. destruct (IH x) as [Hin Hmin]. split; [by right|].
      intros s [->|Hs]%elem_of_cons; [|by apply Hmin]. etransitivity; [apply Hmin; by left|exact Hb].
Qed.

(** ** The policy against its reference definition *)

Section policy.
Context (lane_entered_at : datetime) (cloud_attempts : Z) (snapshot : snapshot_t) (now : datetime).
Context (cfg : ControlSettings) (budget : option CloudBudgetState).

(** The durable rule: a lifetime ceiling that is switched on, or a cooldown
    still running. *)
Definition chains_gone (b : CloudBudgetState) : Prop := cloud_budget_max_chains cfg <> 0 /\ chains_spent b >= cloud_budget_max_chains cfg.
Definition node_loss_gone (b : CloudBudgetState) : Prop := cloud_budget_max_node_loss cfg <> 0 /\ node_loss_spent b >= cloud_budget_max_node_loss cfg.
Definition cooling_down (b : CloudBudgetState) : Prop :=
  (inject_Z (usec now - usec (budget_spent_at b)) / inject_Z microsecond < cloud_budget_cooldown_days cfg * inject_Z 86400)%Q /\
  (0 < cloud_budget_cooldown_days cfg * inject_Z 86400)%Q.

(** What keeps the file off every cloud backend, and what it is called. *)
Inductive budget_bar : string -> Prop :=
| bar_chains b : budget = Some b -> chains_gone b -> budget_bar "cloud_budget_chains_exhausted"
| bar_node_loss b : budget = Some b -> ~ chains_gone b -> node_loss_gone b -> budget_bar "cloud_budget_node_loss_exhausted"
| bar_cooldown b : budget = Some b -> ~ chains_gone b -> ~ node_loss_gone b -> cooling_down b -> budget_bar "cloud_budget_cooldown".
Inductive bar : string -> Prop :=
| bar_attempts : cloud_attempts >= cloud_submit_max_attempts cfg -> bar "cloud_attempts_exhausted"
| bar_budget r : cloud_attempts < cloud_submit_max_attempts cfg -> budget_bar r -> bar r.

Definition barred_from_cloud : Prop := exists reason, bar reason.

Definition free_slot (s : BackendSlot) : Prop := available s = true /\ remaining s > 0.

Definition cloud_online : Prop := exists s, s ∈ map snd snapshot /\ is_local (backend s) = false /\ available s = true.

Definition waited_long_enough : Prop := usec now - usec lane_entered_at >= cloud_spill_to_local_after_seconds cfg * microsecond.

(** Where the file may go at all. *)
Definition allowed (s : BackendSlot) : Prop :=
  s ∈ map snd snapshot /\ free_slot s /\
  (is_local (backend s) = false -> ~ barred_from_cloud) /\
  (is_local (backend s) = true -> ~ cloud_online \/ waited_long_enough \/ barred_from_cloud).

(** The answer is the label of the bar, or empty when there is none. *)
Definition says (bar : string -> Prop) (reason : string) : Prop := reason <> "" /\ bar reason \/ reason = "" /\ forall r, ~ bar r.

Lemma ceiling_spec max spent : reflect (max <> 0 /\ spent >= max) (negb (max =? 0) && (spent >=? max)).
Proof. apply iff_reflect. rewrite andb_true_iff, negb_true_iff, Z.eqb_neq, Z.geb_leb, Z.leb_le. lia. Qed.

Lemma budget_reason_spec : exists reason, cloud_budget_hold_reason budget now cfg = Ok reason /\ says budget_bar reason.
Proof.
  unfold cloud_budget_hold_reason, says. destruct budget as [b|] eqn:Hbud.
  2: { exists "". split; [done|]. right. split; [done|]. intros r Hr. inversion Hr; congruence. }
  destruct (ceiling_spec (cloud_budget_max_chains cfg) (chains_spent b)) as [H1|H1].
  { eexists. split; [done|]. left. split; [done|]. by apply (bar_chains b). }
  destruct (ceiling_spec (cloud_budget_max_node_loss cfg) (node_loss_spent b)) as [H2|H2].
  { eexists. split; [done|]. left. split; [done|]. by apply (bar_node_loss b). }
  assert (Hno : ~ cooling_down b -> forall r, ~ budget_bar r).
  { intros Hc r Hr. destruct Hr as [b' Hb Hx|b' Hb _ Hx|b' Hb _ _ Hx]; rewrite Hbud in Hb; injection Hb as <-; auto. }
  unfold cooling_down in Hno. pose proof (bar_cooldown b Hbud H1 H2) as Hyes. unfold cooling_down in Hyes.
  set (cool := (cloud_budget_cooldown_days cfg * inject_Z 86400)%Q) in *.
  destruct (Qle_bool cool 0) eqn:H3.
  { exists "". split; [done|]. right. split; [done|]. apply Hno. intros [_ Hpos]. apply Qle_bool_iff in H3. by apply (Qlt_not_le _ _ Hpos). }
  assert (Hcool : (0 < cool)%Q) by (apply Qnot_le_lt; intros Hle; apply Qle_bool_iff in Hle; congruence).
  destruct (same_awareness (budget_spent_at b) now) as [spent_at now'] eqn:Hs.
  assert (Hsub : dt_sub now' spent_at = Ok (usec now - usec (budget_spent_at b))).
  { revert Hs. unfold same_awareness, dt_sub. destruct (budget_spent_at b) as [a1 u1], now as [a2 u2]. simpl.
    destruct a1, a2; simpl; by intros [= <- <-]. }
  rewrite Hsub. cbn [obind].
  match goal with |- context [Qle_bool cool ?x] => destruct (Qle_bool cool x) eqn:H4 end; cbn [negb]; (eexists; split; [done|]).
  - right. split; [done|]. apply Hno. intros [Hlt _]. apply Qle_bool_iff in H4. by apply (Qlt_not_le _ _ Hlt) in H4.
  - left. split; [done|]. apply Hyes. split; [|done]. apply Qnot_le_lt. intros Hle. apply Qle_bool_iff in Hle. congruence.
Qed.

Lemma filter_elem (f : BackendSlot -> bool) l s : s ∈ List.filter f l <-> s ∈ l /\ f s = true.
Proof. rewrite !list_elem_of_In. apply filter_In. Qed.

Lemma match_nil {A B} (l : list A) (a b : B) :
  l = [] /\ match l with [] => a | _ :: _ => b end = a \/ l <> [] /\ match l with [] => a | _ :: _ => b end = b.
Proof. destruct l; [by left|by right]. Qed.

(** A dispatch goes to a slot that is available and free. *)
Lemma select_picks_free lane tries snap n cfg' bud b reason :
  select_backend_with_reason lane tries snap n cfg' bud = Ok (Some b, reason) ->
  exists s, s ∈ map snd snap /\ backend s = b /\ available s = true /\ remaining s > 0.
Proof.
  unfold select_backend_with_reason. cbv zeta. set (slots := map snd snap). set (E0 := List.filter _ slots).
  assert (HE0 : forall s, s ∈ E0 -> s ∈ slots /\ available s = true /\ remaining s > 0).
  { intros s [Hin Hb]%filter_elem. apply andb_true_iff in Hb as [? ?]. split_and!; [done|done|lia]. }
  match goal with |- context [match E0 with [] => ?x | _ :: _ => ?y end] => destruct (match_nil E0 x y) as [[_ ->]|[_ ->]] end; [done|].
  match goal with |- context [obind ?m _] => destruct m as [r|e] end; cbn [obind]; [|done].
  set (E1 := if negb _ then _ else _).
  assert (HE1 : forall s, s ∈ E1 -> s ∈ E0) by (intros s; unfold E1; destruct (negb _); [by intros [? _]%filter_elem|done]).
  match goal with |- context [match E1 with [] => ?x | _ :: _ => ?y end] => destruct (match_nil E1 x y) as [[_ ->]|[_ ->]] end; [done|].
  destruct (dt_sub n lane) as [z|e]; cbn [obind]; [|done]. set (E2 := if _ || _ then _ else _).
  assert (HE2 : forall s, s ∈ E2 -> s ∈ E1) by (intros s; unfold E2; destruct (_ || _); [done|by intros [? _]%filter_elem]).
  destruct E2 as [|s rest]; [done|]. intros [= <- _]. destruct (sort_head_min rest s) as [Hin _].
  exists (sort_head s rest). apply HE2, HE1, HE0 in Hin. tauto.
Qed.

(** *** The three narrowings of the candidates *)

Definition with_slot : list BackendSlot := List.filter (fun s => available s && (remaining s >? 0)) (map snd snapshot).

Lemma with_slot_elem s : s ∈ with_slot <-> s ∈ map snd snapshot /\ free_slot s.
Proof. unfold with_slot, free_slot. rewrite filter_elem, andb_true_iff, Z.gtb_lt. split; intros (?&?&?); split_and!; try done; lia. Qed.

Lemma barred_reason_spec : exists reason,
  (if cloud_attempts >=? cloud_submit_max_attempts cfg then Ok HOLD_CLOUD_ATTEMPTS_EXHAUSTED else cloud_budget_hold_reason budget now cfg) = Ok reason /\
  says bar reason.
Proof.
  destruct (cloud_attempts >=? _) eqn:Hc; rewrite Z.geb_leb in Hc; bool_prop.
  - eexists. split; [done|]. left. split; [done|]. apply bar_attempts. lia.
  - destruct budget_reason_spec as (reason & -> & Hr). exists reason. split; [done|]. destruct Hr as [[Hne Hr]|[-> Hr]]; [left|right]; (split; [done|]).
    + apply bar_budget; [lia|done].
    + intros r [?|r' _ Hb]; [lia|by apply (Hr r')].
Qed.

Lemma says_barred reason : says bar reason -> (reason <> "" <-> barred_from_cloud) /\ (reason <> "" -> bar reason).
Proof.
  unfold barred_from_cloud. intros [[Hne Hb]|[-> Hno]]; [by split; [split; [by exists reason|]|]|]. split; [|done]. split; [done|]. intros [r Hr]. by destruct (Hno r).
Qed.

Definition in_reach (barred : bool) : list BackendSlot := if barred then List.filter (fun s => is_local (backend s)) with_slot else with_slot.

Lemma in_reach_elem barred s : reflect barred_from_cloud barred ->
  s ∈ in_reach barred <-> s ∈ map snd snapshot /\ free_slot s /\ (is_local (backend s) = false -> ~ barred_from_cloud).
Proof.
  unfold in_reach. intros [Hb|Hb].
  - rewrite filter_elem, with_slot_elem. split.
    + intros [[? ?] Hl]. split_and!; [done|done|]. congruence.
    + intros (? & ? & Hl). split; [done|]. destruct (is_local (backend s)); [done|]. by destruct (Hl eq_refl).
  - rewrite with_slot_elem. tauto.
Qed.

(** Nothing in reach, yet a slot is free: the cloud is barred and no local slot is free. *)
Lemma nothing_in_reach barred : reflect barred_from_cloud barred -> with_slot <> [] -> in_reach barred = [] ->
  barred_from_cloud /\ (forall s, ~ allowed s) /\ forall s, s ∈ map snd snapshot -> free_slot s -> is_local (backend s) = false.
Proof.
  intros Hb Hne Hnil. pose proof (fun s => in_reach_elem barred s Hb) as He. rewrite Hnil in He.
  assert (Hno : forall s, ~ (s ∈ map snd snapshot /\ free_slot s /\ (is_local (backend s) = false -> ~ barred_from_cloud))) by (intros s H%He; by apply elem_of_nil in H).
  assert (Hl : forall s, s ∈ map snd snapshot -> free_slot s -> is_local (backend s) = false).
  { intros s Hin Hf. destruct (is_local (backend s)) eqn:E; [|done]. exfalso. apply (Hno s). split_and!; [done|done|congruence]. }
  split_and!; [|intros s (? & ? & ? & _); by apply (Hno s)|done].
  destruct with_slot as [|s l] eqn:E; [done|]. assert (Hs : s ∈ with_slot) by (rewrite E; by left). apply with_slot_elem in Hs as [Hin Hf].
  destruct Hb as [|Hb]; [done|]. exfalso. apply (Hno s). by split_and!.
Qed.

Definition local_ok (barred : bool) : bool :=
  negb (existsb (fun s => available s) (List.filter (fun s => negb (is_local (backend s))) (map snd snapshot))) ||
  (usec now - usec lane_entered_at >=? cloud_spill_to_local_after_seconds cfg * microsecond) || barred.

Lemma online_spec : reflect cloud_online (existsb (fun s => available s) (List.filter (fun s => negb (is_local (backend s))) (map snd snapshot))).
Proof.
  apply iff_reflect. unfold cloud_online. rewrite existsb_exists. split.
  - intros (s & Hin & Hl & Ha). exists s. split; [|done]. apply list_elem_of_In, filter_elem. by rewrite Hl.
  - intros (s & Hin & Ha). apply list_elem_of_In, filter_elem in Hin as [Hin Hl]. apply negb_true_iff in Hl. by exists s.
Qed.

Lemma waited_spec : reflect waited_long_enough (usec now - usec lane_entered_at >=? cloud_spill_to_local_after_seconds cfg * microsecond).
Proof. apply iff_reflect. unfold waited_long_enough. rewrite Z.geb_leb, Z.leb_le. lia. Qed.

Definition candidates (barred : bool) : list BackendSlot :=
  if local_ok barred then in_reach barred else List.filter (fun s => negb (is_local (backend s))) (in_reach barred).

Lemma candidates_elem barred s : reflect barred_from_cloud barred -> s ∈ candidates barred <-> allowed s.
Proof.
  intros Hb. unfold candidates, local_ok, allowed. destruct (local_ok barred) eqn:E; unfold local_ok in E; rewrite E.
  - rewrite in_reach_elem by done. assert (H : ~ cloud_online \/ waited_long_enough \/ barred_from_cloud); [|tauto].
    apply orb_true_iff in E as [[E|E]%orb_true_iff|E]; [left; by destruct online_spec|right; left; by destruct waited_spec|right; right; by destruct Hb].
  - rewrite filter_elem, in_reach_elem, negb_true_iff by done. apply orb_false_iff in E as [[E1 E2]%orb_false_iff E3].
    destruct online_spec, waited_spec, Hb; try done. destruct (is_local (backend s)); intuition congruence.
Qed.

(** No candidate, yet one in reach: a cloud backend is online and the file has not waited. *)
Lemma gated barred : reflect barred_from_cloud barred -> in_reach barred <> [] -> candidates barred = [] ->
  ~ barred_from_cloud /\ cloud_online /\ ~ waited_long_enough.
Proof.
  unfold candidates. destruct (local_ok barred) eqn:E; [done|]. intros Hb _ _. unfold local_ok in E.
  apply orb_false_iff in E as [[E1 E2]%orb_false_iff E3]. by destruct online_spec, waited_spec, Hb.
Qed.

(** The order of preference: rank, utilisation, id. *)
Definition precedes (a b : BackendSlot) : Prop :=
  rank (backend a) < rank (backend b) \/
  rank (backend a) = rank (backend b) /\
    ((_utilization a < _utilization b)%Q \/
     (_utilization a == _utilization b)%Q /\ String.leb (backend_id (backend a)) (backend_id (backend b)) = true).

(** C18: the routing policy.  It never raises on a clock of the file's kind; it
    dispatches exactly when some backend is allowed, and then to the allowed
    one of least rank, utilisation and id; a hold carries the label of its cause:
    everything down or full; the cloud barred, by the very bar named, and local
    full; or local still gated. *)
Theorem selection_is_best_allowed :
  aware now = aware lane_entered_at ->
  exists choice reason,
    select_backend_with_reason lane_entered_at cloud_attempts snapshot now cfg budget = Ok (choice, reason) /\
    match choice with
    | Some b => reason = "" /\ exists s, backend s = b /\ allowed s /\ forall s', allowed s' -> precedes s s'
    | None =>
        (forall s, ~ allowed s) /\
        ((forall s, s ∈ map snd snapshot -> ~ free_slot s) /\ reason = "no_free_slots" \/
         bar reason /\ (forall s, s ∈ map snd snapshot -> free_slot s -> is_local (backend s) = false) /\
           (exists s, s ∈ map snd snapshot /\ free_slot s) \/
         (forall r, ~ bar r) /\ cloud_online /\ ~ waited_long_enough /\ (exists s, s ∈ map snd snapshot /\ free_slot s) /\ reason = "local_spill_not_reached")
    end.
Proof.
  intros Haw. unfold select_backend_with_reason. cbv zeta. fold with_slot.
  assert (Hd : with_slot = [] \/ with_slot <> []) by (destruct with_slot; [by left|by right]). destruct Hd as [HE|Hne].
  { rewrite HE. eexists _, _. split; [done|]. assert (Hno : forall s, ~ (s ∈ map snd snapshot /\ free_slot s)) by (intros s H%with_slot_elem; rewrite HE in H; by apply elem_of_nil in H).
    split; [intros s (? & ? & _); by apply (Hno s)|]. left. split; [|done]. intros s ? ?. by apply (Hno s). }
  assert (Hfree : exists s, s ∈ map snd snapshot /\ free_slot s).
  { destruct with_slot as [|s l] eqn:E; [done|]. exists s. apply with_slot_elem. rewrite E. by left. }
  destruct barred_reason_spec as (reason & -> & [Hbar Hlab]%says_barred). cbn [obind]. set (barred := negb (bool_decide (reason = ""))).
  assert (Hb : reflect barred_from_cloud barred) by (apply iff_reflect; unfold barred; rewrite negb_true_iff, bool_decide_eq_false; by symmetry).
  fold (in_reach barred). unfold dt_sub. rewrite Haw, eqb_reflx. cbn [obind]. fold (local_ok barred). fold (candidates barred).
  destruct with_slot as [|s0 l0] eqn:E0; [done|]. destruct (in_reach barred) as [|s1 l1] eqn:E1.
  - destruct (nothing_in_reach barred Hb) as (Ht & Ha & Hl); [by rewrite E0|done|]. eexists _, _. split; [done|]. split; [done|]. right. left. split_and!; [by apply Hlab, Hbar|done|done].
  - pose proof (fun s => candidates_elem barred s Hb) as Hc. destruct (candidates barred) as [|s l] eqn:E2.
    + eexists _, _. split; [done|]. split; [intros s H%Hc; by apply elem_of_nil in H|]. right. right.
      destruct (gated barred Hb) as (H & ? & ?); [by rewrite E1|done|]. split_and!; [|done..]. intros r Hr. apply H. by exists r.
    + destruct (sort_head_min l s) as [Hin Hmin]. eexists _, _. split; [done|]. split; [done|]. exists (sort_head s l). split_and!; [done|by apply Hc|].
      intros s' H%Hc. apply key_leb_spec. by apply Hmin.
Qed.

End policy.

(** Two online clusters, one full; the file has waited a second. *)
Local Open Scope string_scope.
Definition demo_cfg : ControlSettings := Settings 3 (inject_Z 14) 3 3 900.
Definition demo_snapshot : snapshot_t :=
  [("burst", Slot (MkBackend "burst" 10 4 (KKueue ["staging"])) true 0 4); ("vox", Slot (MkBackend "vox" 20 4 (KKueue ["staging"])) true 2 4);
   ("local", Slot (MkBackend "local" 99 1 KLocal) true 1 1)]%string.
Definition demo_now : datetime := Datetime true 1000000.
Definition demo_lane : datetime := Datetime true 0.

Lemma selection_is_best_allowed_witness :
  select_backend_with_reason demo_lane 0 demo_snapshot demo_now demo_cfg None = Ok (Some (MkBackend "vox" 20 4 (KKueue ["staging"])), "") /\
  exists s, backend s = MkBackend "vox" 20 4 (KKueue ["staging"]) /\ allowed demo_lane 0 demo_snapshot demo_now demo_cfg None s /\
    forall s', allowed demo_lane 0 demo_snapshot demo_now demo_cfg None s' -> precedes s s'.
Proof.
  split; [reflexivity|].
  destruct (selection_is_best_allowed demo_lane 0 demo_snapshot demo_now demo_cfg None eq_refl) as (choice & reason & Hc & Hs).
  assert (Hcomp : select_backend_with_reason demo_lane 0 demo_snapshot demo_now demo_cfg None = Ok (Some (MkBackend "vox" 20 4 (KKueue ["staging"])), ""%string))
    by reflexivity.
  rewrite Hcomp in Hc. injection Hc as <- <-. exact (proj2 Hs).
Defined.
