(* ===== verification/Breaker.v ===== *)
(** * The control-plane-unreachable breaker: [services/backend_breaker.py]

    One row per backend, and the failure columns of [cloud_job].  Every function
    runs in its caller's transaction under the row lock, so it is one step on
    the tables.  Clocks are UTC ([now] is always aware). *)
From S2P Require Import Prelude Selection.
From stdpp Require Import pretty options.
Local Open Scope Z_scope.

Definition UNREACHABLE_EXIT_CODE : Z := 14.
Definition TRIP_DISTINCT_FILES : Z := 3.
Definition TRIP_WINDOW_SECONDS : Z := 15 * 60.
Definition PROBE_INTERVAL_SECONDS : Z := 15 * 60.

(** [models/backend_breaker.py] *)
Record BackendBreaker : Type := Breaker {
  tripped_at : option datetime;
  trip_reason : option string;
  next_probe_at : option datetime;
  reset_at : option datetime;
}.

(** The columns of [cloud_job] the breaker reads. *)
Record CloudJob : Type := Job {
  job_backend : option string;
  last_exit_code : option Z;
  last_failed_at : option datetime;
}.

Record tables : Type := Tables { breakers : gmap string BackendBreaker; cloud_jobs : gmap string CloudJob }.

Record OpenBreaker : Type := MkOpen {
  o_backend_id : string;
  o_tripped_at : datetime;
  o_trip_reason : option string;
  o_next_probe_at : option datetime;
}.

Record UnreachableVerdict : Type := Verdict { held : bool; tripped_now : bool; v_reason : option string }.

Definition _aware (value : option datetime) : option datetime :=
  match value with
  | Some v => if aware v then Some v else Some (Datetime true (usec v))
  | None => None
  end.

Definition timedelta (seconds : Z) (d : datetime) : datetime := Datetime (aware d) (usec d + seconds * microsecond).

(** Aware datetimes, and timestamps in SQL, compare as instants. *)
Definition later (a b : datetime) : bool := usec a >? usec b.

Definition _lock_breaker_row (backend : string) (t : tables) : tables * BackendBreaker :=
  match breakers t !! backend with
  | Some b => (t, b)
  | None => let b := Breaker None None None None in (Tables (<[backend := b]> (breakers t)) (cloud_jobs t), b)
  end.

Definition set_breaker (backend : string) (b : BackendBreaker) (t : tables) : tables :=
  Tables (<[backend := b]> (breakers t)) (cloud_jobs t).

(** The rows the count of other files sees. *)
Definition counts (backend : string) (file : string) (since : datetime) (row : string * CloudJob) : bool :=
  bool_decide (job_backend row.2 = Some backend) &&
  bool_decide (last_exit_code row.2 = Some UNREACHABLE_EXIT_CODE) &&
  match last_failed_at row.2 with Some f => later f since | None => false end &&
  negb (bool_decide (row.1 = file)).

Definition since_of (breaker : BackendBreaker) (now : datetime) : datetime :=
  let since := timedelta (- TRIP_WINDOW_SECONDS) now in
  match _aware (reset_at breaker) with
  | Some r => if later r since then r else since
  | None => since
  end.

Definition record_unreachable_exit (backend file : string) (now : datetime) (previous_exit_code : option Z)
    (previous_failed_at : option datetime) (t : tables) : tables * UnreachableVerdict :=
  let (t1, breaker) := _lock_breaker_row backend t in
  match tripped_at breaker with
  | Some at_ =>
      (set_breaker backend (Breaker (Some at_) (trip_reason breaker) (Some (timedelta PROBE_INTERVAL_SECONDS now)) (reset_at breaker)) t1,
       Verdict true false (trip_reason breaker))
  | None =>
      let since := since_of breaker now in
      let repeat := bool_decide (previous_exit_code = Some UNREACHABLE_EXIT_CODE) &&
                    match _aware previous_failed_at with Some p => later p since | None => false end in
      let others := Z.of_nat (length (List.filter (counts backend file since) (map_to_list (cloud_jobs t1)))) in
      let distinct_files := others + 1 in
      let tail := " min"%string in
      let trip reason :=
        (set_breaker backend (Breaker (Some now) (Some reason) (Some (timedelta PROBE_INTERVAL_SECONDS now)) (reset_at breaker)) t1,
         Verdict true true (Some reason)) in
      if repeat then
        trip ("file " +:+ file +:+ " exited " +:+ pretty UNREACHABLE_EXIT_CODE +:+ " (control plane unreachable) twice within "
              +:+ pretty (TRIP_WINDOW_SECONDS / 60) +:+ tail)
      else if distinct_files >=? TRIP_DISTINCT_FILES then
        trip (pretty distinct_files +:+ " files exited " +:+ pretty UNREACHABLE_EXIT_CODE +:+ " (control plane unreachable) within "
              +:+ pretty (TRIP_WINDOW_SECONDS / 60) +:+ tail)
      else (t1, Verdict false false None)
  end.

(** [readable]: whether the SELECT succeeds. *)
Definition load_open_breakers (readable : bool) (t : tables) : gmap string OpenBreaker :=
  if readable then
    map_imap (fun id b => match tripped_at b with
                          | Some at_ => Some (MkOpen id (default at_ (_aware (Some at_))) (trip_reason b) (_aware (next_probe_at b)))
                          | None => None
                          end) (breakers t)
  else ∅.

Definition gate_remaining (breaker : option OpenBreaker) (remaining : Z) (now : datetime) : Z * bool :=
  match breaker with
  | None => (remaining, false)
  | Some b =>
      if match o_next_probe_at b with Some n => later n now | None => false end then (0, false)
      else let probe_slots := Z.min remaining 1 in (probe_slots, probe_slots >? 0)
  end.

Definition arm_next_probe (backend : string) (now : datetime) (t : tables) : tables :=
  match breakers t !! backend with
  | Some b => match tripped_at b with
              | Some at_ => set_breaker backend (Breaker (Some at_) (trip_reason b) (Some (timedelta PROBE_INTERVAL_SECONDS now)) (reset_at b)) t
              | None => t
              end
  | None => t
  end.

Definition close_breaker (backend : string) (now : datetime) (t : tables) : tables * bool :=
  match breakers t !! backend with
  | Some b => match tripped_at b with
              | Some _ => (set_breaker backend (Breaker None None None (Some now)) t, true)
              | None => (t, false)
              end
  | None => (t, false)
  end.

(** ** Its callers *)

(** [_hold_for_breaker] of [tasks/release_awaiting_cloud.py]; [armed]: whether
    the savepoint around the write succeeds. *)
Definition _hold_for_breaker (breaker : OpenBreaker) (remaining : Z) (now : datetime) (armed : bool) (t : tables) : tables * Z :=
  let (slots, probe) := gate_remaining (Some breaker) remaining now in
  (if probe && armed then arm_next_probe (o_backend_id breaker) now t else t, slots).

(** What happens to a backend: a pod's exit is recorded on its row (an
    unreachable control plane is fed to the breaker first), the drain snapshots
    the backend with [free] slots, a presign succeeds, a file changes backend. *)
Inductive event : Type :=
| Exit (file : string) (code : Z) (now : datetime)
| Tick (backend : string) (readable armed : bool) (free : Z) (now : datetime)
| Presign (backend : string) (now : datetime)
| Dispatch (file backend : string) (now : datetime).

Definition clock (e : event) : Z :=
  match e with Exit _ _ n | Tick _ _ _ _ n | Presign _ n | Dispatch _ _ n => usec n end.

(** What the caller gets. *)
Inductive output : Type :=
| OVerdict (backend : string) (v : UnreachableVerdict)
| OSlots (backend : string) (slots : Z)
| OClosed (backend : string)
| ONothing.

Definition stamp (file : string) (code : Z) (now : datetime) (t : tables) : tables :=
  match cloud_jobs t !! file with
  | Some j => Tables (breakers t) (<[file := Job (job_backend j) (Some code) (Some now)]> (cloud_jobs t))
  | None => t
  end.

Definition step (e : event) (t : tables) : tables * output :=
  match e with
  | Exit file code now =>
      match cloud_jobs t !! file with
      | Some j =>
          match job_backend j with
          | Some b =>
              if code =? UNREACHABLE_EXIT_CODE then
                let (t1, v) := record_unreachable_exit b file now (last_exit_code j) (last_failed_at j) t in
                (stamp file code now t1, OVerdict b v)
              else (stamp file code now t, ONothing)
          | None => (stamp file code now t, ONothing)
          end
      | None => (t, ONothing)
      end
  | Tick b readable armed free now =>
      match load_open_breakers readable t !! b with
      | Some o => let (t1, slots) := _hold_for_breaker o free now armed t in (t1, OSlots b slots)
      | None => (t, OSlots b free)
      end
  | Presign b now => let (t1, closed) := close_breaker b now t in (t1, if closed : bool then OClosed b else ONothing)
  | Dispatch file b now =>
      (match cloud_jobs t !! file with
       | Some j => Tables (breakers t) (<[file := Job (Some b) (last_exit_code j) (last_failed_at j)]> (cloud_jobs t))
       | None => Tables (breakers t) (<[file := Job (Some b) None None]> (cloud_jobs t))
       end, ONothing)
  end.

Fixpoint run (es : list event) (t : tables) : tables * list output :=
  match es with
  | [] => (t, [])
  | e :: es' => let (t1, o) := step e t in let (t2, os) := run es' t1 in (t2, o :: os)
  end.

(** ** The hold *)

Section held.
Context (b : string).

(** Held at least until [c]. *)
Definition held_until (c : Z) (t : tables) : Prop :=
  exists br at_ n, breakers t !! b = Some br /\ tripped_at br = Some at_ /\ next_probe_at br = Some n /\ c <= usec n.

Definition interval : Z := PROBE_INTERVAL_SECONDS * microsecond.

Lemma held_until_stamp c f code now t : held_until c t -> held_until c (stamp f code now t).
Proof. unfold held_until, stamp. destruct (cloud_jobs t !! f); done. Qed.

Lemma held_until_other c b' br t : b' <> b -> held_until c t -> held_until c (set_breaker b' br t).
Proof. intros Hne (x & a & n & H & ?). exists x, a, n. unfold set_breaker. simpl. by rewrite lookup_insert_ne. Qed.

Lemma held_until_set c br at_ n t : tripped_at br = Some at_ -> next_probe_at br = Some n -> c <= usec n ->
  held_until c (set_breaker b br t).
Proof. intros H1 H2 H3. exists br, at_, n. unfold set_breaker. simpl. by rewrite lookup_insert_eq. Qed.

Lemma lock_row b' t : exists t' br, _lock_breaker_row b' t = (t', br) /\ cloud_jobs t' = cloud_jobs t /\
  breakers t' !! b' = Some br /\ (forall x, x <> b' -> breakers t' !! x = breakers t !! x) /\
  (forall br', breakers t !! b' = Some br' -> t' = t /\ br = br') /\ (breakers t !! b' = None -> br = Breaker None None None None).
Proof.
  unfold _lock_breaker_row. destruct (breakers t !! b') as [br|] eqn:Hb.
  - exists t, br. split_and!; try done. by intros br' [= <-].
  - eexists _, _. split; [done|]. simpl. rewrite lookup_insert_eq. split_and!; try done. intros x Hx. by rewrite lookup_insert_ne.
Qed.

(** A held verdict reloads the probe clock. *)
Lemma record_held b' f now code failed t :
  let (t', v) := record_unreachable_exit b' f now code failed t in
  cloud_jobs t' = cloud_jobs t /\ (forall x, x <> b' -> breakers t' !! x = breakers t !! x) /\
  (held v = true -> exists br at_, breakers t' !! b' = Some br /\ tripped_at br = Some at_ /\
     next_probe_at br = Some (timedelta PROBE_INTERVAL_SECONDS now)).
Proof.
  unfold record_unreachable_exit. destruct (lock_row b' t) as (t1 & br & -> & Hj & Hb & Ho & _).
  assert (Hset : forall br' at_, tripped_at br' = Some at_ -> next_probe_at br' = Some (timedelta PROBE_INTERVAL_SECONDS now) ->
    cloud_jobs (set_breaker b' br' t1) = cloud_jobs t /\ (forall x, x <> b' -> breakers (set_breaker b' br' t1) !! x = breakers t !! x) /\
    (true = true -> exists br at_, breakers (set_breaker b' br' t1) !! b' = Some br /\ tripped_at br = Some at_ /\
       next_probe_at br = Some (timedelta PROBE_INTERVAL_SECONDS now))).
  { intros br' at_ H1 H2. unfold set_breaker. simpl. split_and!; [done| |].
    - intros x Hx. rewrite lookup_insert_ne by done. by apply Ho.
    - intros _. exists br', at_. by rewrite lookup_insert_eq. }
  destruct (tripped_at br) as [at_|]; [by eapply Hset|]. cbv zeta.
  destruct (_ && _); [by eapply Hset|]. destruct (_ >=? _); [by eapply Hset|]. by split_and!.
Qed.

(** Held rows stay held until their backend's breaker closes. *)
Lemma step_held c e t :
  c <= clock e + interval -> held_until c t -> (step e t).2 <> OClosed b -> held_until c (step e t).1.
Proof.
  intros Hc Hh Hno. destruct e as [f code now|b' readable armed free now|b' now|f b' now]; simpl in *.
  - destruct (cloud_jobs t !! f) as [j|]; [|done]. destruct (job_backend j) as [b'|]; [|by apply held_until_stamp].
    destruct (code =? _); [|by apply held_until_stamp].
    pose proof (record_held b' f now (last_exit_code j) (last_failed_at j) t) as Hr.
    destruct (record_unreachable_exit b' f now (last_exit_code j) (last_failed_at j) t) as [t1 v] eqn:Hrec. simpl.
    destruct Hr as (_ & Ho & Hv). apply held_until_stamp. destruct (decide (b' = b)) as [->|Hne].
    + destruct Hh as (br & at_ & n & Hb & Ht & _ & _).
      assert (Hheld : held v = true).
      { revert Hrec. unfold record_unreachable_exit, _lock_breaker_row. rewrite Hb, Ht. by intros [= _ <-]. }
      destruct (Hv Hheld) as (br' & at' & H1 & H2 & H3). exists br', at'. eexists. split_and!; [done|done|done|].
      unfold timedelta. simpl. unfold interval in Hc. lia.
    + destruct Hh as (br & at_ & n & Hb & H). exists br, at_, n. by rewrite Ho.
  - destruct (load_open_breakers readable t !! b') as [o|] eqn:Ho; [|done]. unfold _hold_for_breaker.
    destruct (gate_remaining (Some o) free now) as [slots probe]. simpl. destruct (probe && armed); [|done].
    assert (Hid : o_backend_id o = b').
    { revert Ho. unfold load_open_breakers. destruct readable; [|by rewrite lookup_empty].
      rewrite map_lookup_imap. destruct (breakers t !! b') as [br|]; simpl; [|done]. destruct (tripped_at br); [|done]. by intros [= <-]. }
    rewrite Hid. unfold arm_next_probe. destruct (breakers t !! b') as [br|] eqn:Hb'; [|done].
    destruct (tripped_at br) as [at_|] eqn:Ht; [|done]. destruct (decide (b' = b)) as [->|Hne]; [|by apply held_until_other].
    eapply held_until_set; [done|done|]. unfold timedelta. simpl. unfold interval in Hc. lia.
  - unfold close_breaker in *. destruct (breakers t !! b') as [br|] eqn:Hb'; [|done].
    destruct (tripped_at br) as [at_|] eqn:Ht; [|done]. simpl in *. apply held_until_other; [|done]. congruence.
  - destruct (cloud_jobs t !! f); simpl; done.
Qed.

Lemma run_held c es : forall t,
  Forall (fun e => c <= clock e + interval) es -> held_until c t -> OClosed b ∉ (run es t).2 -> held_until c (run es t).1.
Proof.
  induction es as [|e es IH]; intros t Hes Hh Hno; simpl in *; [done|]. apply Forall_cons in Hes as [He Hes].
  destruct (step e t) as [t1 o] eqn:Hs. destruct (run es t1) as [t2 os] eqn:Hr. simpl in *.
  rewrite not_elem_of_cons in Hno. destruct Hno as [Hno Hnos].
  specialize (IH t1 Hes). rewrite Hr in IH. apply IH; [|done].
  replace t1 with (step e t).1 by by rewrite Hs. apply step_held; [done|done|]. rewrite Hs. simpl. congruence.
Qed.

(** What the drain may use on a held backend. *)
Lemma tick_held c t armed free now :
  held_until c t -> 0 <= free ->
  exists slots, (step (Tick b true armed free now) t).2 = OSlots b slots /\ 0 <= slots <= 1 /\ (usec now < c -> slots = 0) /\
    (slots = 1 -> armed = true -> held_until (usec now + interval) (step (Tick b true armed free now) t).1).
Proof.
  intros (br & at_ & n & Hb & Ht & Hn & Hc) Hfree. simpl. unfold load_open_breakers. rewrite map_lookup_imap, Hb. simpl.
  rewrite Ht. unfold _hold_for_breaker, gate_remaining. cbn [o_next_probe_at]. rewrite Hn.
  assert (Hau : exists n', _aware (Some n) = Some n' /\ usec n' = usec n).
  { unfold _aware. destruct (aware n); by eexists. }
  destruct Hau as (n' & -> & Hn'). unfold later. destruct (usec n' >? usec now) eqn:Hlt; simpl.
  - exists 0. split_and!; [done|lia|lia|done|done].
  - exists (Z.min free 1). split_and!; [done|lia|lia| |].
    + intros Hlt2. rewrite Z.gtb_ltb in Hlt. bool_prop. lia.
    + intros Hone ->. rewrite Hone. simpl. unfold arm_next_probe. rewrite Hb, Ht.
      eapply held_until_set; [done|done|]. unfold timedelta, interval. simpl. lia.
Qed.

End held.

(** A held backend is probed rarely.  Start anywhere; once an exit finds
    the breaker of a backend held, or the drain grants it a probe (and records
    it), then as long as no presign closes that breaker, whatever happens at no
    earlier clock, every snapshot the drain takes of it offers at most one slot,
    and none at all within the probe interval. *)
Theorem held_backend_probed_rarely b first mid armed free now t :
  (match first with
   | Exit _ _ _ => exists v, (step first t).2 = OVerdict b v /\ held v = true
   | Tick b' readable armed' _ _ =>
       b' = b /\ readable = true /\ armed' = true /\ (exists c, held_until b c t) /\ (step first t).2 = OSlots b 1
   | _ => False
   end) ->
  Forall (fun e => clock first <= clock e) mid ->
  OClosed b ∉ (run mid (step first t).1).2 -> 0 <= free ->
  exists slots, (step (Tick b true armed free now) (run mid (step first t).1).1).2 = OSlots b slots /\
    0 <= slots <= 1 /\ (usec now < clock first + PROBE_INTERVAL_SECONDS * microsecond -> slots = 0).
Proof.
  intros Hfirst Hmid Hno Hfree.
  assert (Hh : held_until b (clock first + interval) (step first t).1).
  { destruct first as [f code n|b' readable armed' free' n| |]; simpl in Hfirst; try done.
    - destruct Hfirst as (v & Hv & Hheld). revert Hv. simpl. destruct (cloud_jobs t !! f) as [j|]; [|done].
      destruct (job_backend j) as [b'|]; [|done]. destruct (code =? _); [|done].
      pose proof (record_held b' f n (last_exit_code j) (last_failed_at j) t) as Hr.
      destruct (record_unreachable_exit b' f n (last_exit_code j) (last_failed_at j) t) as [t1 v1]. simpl.
      intros [= -> ->]. destruct Hr as (_ & _ & Hr). destruct (Hr Hheld) as (br & at_ & H1 & H2 & H3).
      apply held_until_stamp. exists br, at_. eexists. split_and!; [done|done|done|]. cbn [clock]. unfold timedelta, interval. simpl. lia.
    - destruct Hfirst as (-> & -> & -> & [c Hc] & Hout).
      assert (Hf : 0 <= free').
      { revert Hout. destruct Hc as (br & at_ & x & Hb & Ht & Hx & _). simpl. unfold load_open_breakers. rewrite map_lookup_imap, Hb. simpl.
        rewrite Ht. unfold _hold_for_breaker, gate_remaining. cbn [o_next_probe_at]. rewrite Hx.
        unfold _aware. destruct (aware x); simpl;
          match goal with |- context [if ?b then _ else _] => destruct b end; simpl; intros [= Hs]; lia. }
      destruct (tick_held b c t true free' n Hc Hf) as (slots & Ho & _ & _ & Harm). assert (slots = 1) as ->.
      { cut (OSlots b slots = OSlots b 1); [by intros [= ->]|]. etransitivity; [symmetry; exact Ho|exact Hout]. }
      by apply Harm. }
  assert (Hrun : held_until b (clock first + interval) (run mid (step first t).1).1).
  { apply run_held; [|done|done]. eapply Forall_impl; [exact Hmid|]. intros e He. simpl in *. lia. }
  destruct (tick_held b _ _ armed free now Hrun Hfree) as (slots & H1 & H2 & H3 & _). exists slots. split_and!; [done|lia|lia|done].
Qed.

Lemma held_backend_probed_rarely_witness :
  let at_ s := Datetime true (s * microsecond) in
  let job := Job (Some "vox"%string) None None in
  let t0 := Tables ∅ {["f" := job; "g" := job; "h" := job]} in
  let t := (run [Exit "f" 14 (at_ 0); Exit "g" 14 (at_ 60)] t0).1 in
  let first := Exit "h" 14 (at_ 120) in
  let mid := [Exit "f" 0 (at_ 180); Tick "vox" true true 4 (at_ 1019)] in
  (run [Exit "f" 14 (at_ 0); Exit "g" 14 (at_ 60)] t0).2 = [OVerdict "vox" (Verdict false false None); OVerdict "vox" (Verdict false false None)] /\
  exists slots, (step (Tick "vox" true true 4 (at_ 1020)) (run mid (step first t).1).1).2 = OSlots "vox" slots /\
    0 <= slots <= 1 /\ (usec (at_ 1020) < clock first + PROBE_INTERVAL_SECONDS * microsecond -> slots = 0).
Proof.
  intros at_ job t0 t first mid. split; [vm_compute; reflexivity|].
  apply (held_backend_probed_rarely "vox" first mid true 4 (at_ 1020) t).
  - eexists. split; vm_compute; reflexivity.
  - repeat constructor; vm_compute; discriminate.
  - replace (run mid (step first t).1).2 with [ONothing; OSlots "vox" 0] by (vm_compute; reflexivity).
    rewrite !not_elem_of_cons. split; [discriminate|]. split; [discriminate|]. apply not_elem_of_nil.
  - lia.
Defined.

(** ** The trip rule *)

(** An instant counts: within the window, and after the last operator or
    presign reset of the backend. *)
Definition in_window (t : tables) (backend : string) (now at_ : datetime) : Prop :=
  usec now - TRIP_WINDOW_SECONDS * microsecond < usec at_ /\
  forall br r, breakers t !! backend = Some br -> reset_at br = Some r -> usec r < usec at_.

Definition recent_failure (t : tables) (backend : string) (now : datetime) (file : string) : Prop :=
  exists j f, cloud_jobs t !! file = Some j /\ job_backend j = Some backend /\
    last_exit_code j = Some UNREACHABLE_EXIT_CODE /\ last_failed_at j = Some f /\ in_window t backend now f.

Lemma usec_aware d : option_map usec (_aware d) = option_map usec d.
Proof. destruct d as [v|]; [|done]. unfold _aware. destruct (aware v) eqn:H; [|done]. by destruct v. Qed.

Lemma later_since t backend now br : (forall br', breakers t !! backend = Some br' -> br = br') ->
  (breakers t !! backend = None -> reset_at br = None) ->
  forall at_,
  later at_ (since_of br now) = true <-> in_window t backend now at_.
Proof.
  intros Hsome Hnone at_. pose proof (usec_aware (reset_at br)) as Ha.
  unfold in_window, since_of, later, timedelta in *. cbv zeta.
  destruct (_aware (reset_at br)) as [r'|]; destruct (reset_at br) as [r|] eqn:Hr; simpl in *; try discriminate.
  - injection Ha as Ha. assert (Hrow : forall br' r'', breakers t !! backend = Some br' -> reset_at br' = Some r'' -> r'' = r).
    { intros br' r'' Hb H. apply Hsome in Hb as <-. congruence. }
    assert (Hin : exists br', breakers t !! backend = Some br' /\ reset_at br' = Some r).
    { destruct (breakers t !! backend) as [br'|] eqn:Hb; [|specialize (Hnone eq_refl); congruence].
      exists br'. split; [done|]. by rewrite <-(Hsome br' eq_refl). }
    destruct (usec r' >? _) eqn:Hgt; simpl; rewrite Z.gtb_gt; rewrite Z.gtb_ltb in Hgt.
    + split; [intros Hlt; split; [bool_prop; lia|intros br' r'' Hb H; rewrite (Hrow _ _ Hb H); lia]|].
      intros [_ H]. destruct Hin as (br' & Hb & Hr'). specialize (H _ _ Hb Hr'). lia.
    + apply Z.ltb_ge in Hgt. split; [intros Hlt; split; [lia|intros br' r'' Hb H; rewrite (Hrow _ _ Hb H); lia]|intros [H _]; lia].
  - rewrite Z.gtb_gt. split; [intros Hlt; split; [lia|]|intros [H _]; lia]. intros br' r Hb H. apply Hsome in Hb as <-. congruence.
Qed.

(** Two distinct members are a count of at least two. *)
Lemma two_members {K A} `{Countable K} (P : K * A -> bool) (m : gmap K A) :
  (2 <= length (List.filter P (map_to_list m)))%nat <->
  exists k1 k2 x1 x2, k1 <> k2 /\ m !! k1 = Some x1 /\ m !! k2 = Some x2 /\ P (k1, x1) = true /\ P (k2, x2) = true.
Proof.
  assert (Hin : forall k x, In (k, x) (List.filter P (map_to_list m)) <-> m !! k = Some x /\ P (k, x) = true).
  { intros k x. by rewrite filter_In, <-list_elem_of_In, elem_of_map_to_list. }
  assert (Hnd : base.NoDup (List.filter P (map_to_list m))).
  { apply NoDup_ListNoDup, List.NoDup_filter, NoDup_ListNoDup, NoDup_map_to_list. }
  split.
  - destruct (List.filter P (map_to_list m)) as [|[k1 x1] [|[k2 x2] l]]; simpl; intros Hlen; [lia|lia|].
    destruct (proj1 (Hin k1 x1)) as [H1 P1]; [by left|]. destruct (proj1 (Hin k2 x2)) as [H2 P2]; [by right; left|].
    exists k1, k2, x1, x2. split_and!; try done. intros ->. apply NoDup_cons in Hnd as [Hnd _]. apply Hnd.
    rewrite H1 in H2. injection H2 as ->. by left.
  - intros (k1 & k2 & x1 & x2 & Hne & H1 & H2 & P1 & P2).
    assert (I1 : In (k1, x1) (List.filter P (map_to_list m))) by by apply Hin.
    assert (I2 : In (k2, x2) (List.filter P (map_to_list m))) by by apply Hin.
    destruct (List.filter P (map_to_list m)) as [|a [|a' l]]; simpl in *; [done| |lia].
    destruct I1 as [->|[]], I2 as [[= ]|[]]. done.
Qed.

Lemma counts_recent backend file now br t f j :
  (forall br', breakers t !! backend = Some br' -> br = br') -> (breakers t !! backend = None -> reset_at br = None) ->
  cloud_jobs t !! f = Some j ->
  counts backend file (since_of br now) (f, j) = true <-> f <> file /\ recent_failure t backend now f.
Proof.
  intros Hsome Hnone Hj. unfold counts, recent_failure. cbn [fst snd].
  rewrite !andb_true_iff, !bool_decide_eq_true, negb_true_iff, bool_decide_eq_false. split.
  - intros [[[H1 H2] H3] H4]. split; [done|]. destruct (last_failed_at j) as [at_|] eqn:Hat; [|done].
    exists j, at_. split_and!; try done. by apply (later_since t backend now br).
  - intros [H4 (j' & at_ & H & H1 & H2 & H3 & Hw)]. rewrite Hj in H. injection H as <-. rewrite H3. split_and!; try done.
    by apply (later_since t backend now br).
Qed.

(** The verdict of an unreachable exit. *)
Theorem trip_rule_exact backend file now previous_exit_code previous_failed_at t :
  let (t', v) := record_unreachable_exit backend file now previous_exit_code previous_failed_at t in
  let open_ := exists br at_, breakers t !! backend = Some br /\ tripped_at br = Some at_ in
  let again := previous_exit_code = Some UNREACHABLE_EXIT_CODE /\ exists p, previous_failed_at = Some p /\ in_window t backend now p in
  let burst := exists f1 f2, f1 <> f2 /\ f1 <> file /\ f2 <> file /\ recent_failure t backend now f1 /\ recent_failure t backend now f2 in
  (held v = true <-> open_ \/ again \/ burst) /\
  (tripped_now v = true <-> ~ open_ /\ (again \/ burst)) /\
  (held v = true -> exists br at_, breakers t' !! backend = Some br /\ tripped_at br = Some at_ /\ trip_reason br = v_reason v /\
     next_probe_at br = Some (timedelta PROBE_INTERVAL_SECONDS now) /\ (tripped_now v = true -> at_ = now)) /\
  (held v = false -> forall br, breakers t' !! backend = Some br -> tripped_at br = None) /\
  (forall x, x <> backend -> breakers t' !! x = breakers t !! x) /\ cloud_jobs t' = cloud_jobs t.
Proof.
  unfold record_unreachable_exit. destruct (lock_row backend t) as (t1 & br & -> & Hj & Hb & Ho & Hsame & Hnew).
  assert (Hsome : forall br', breakers t !! backend = Some br' -> br = br') by (intros; by apply Hsame).
  assert (Hnone : breakers t !! backend = None -> reset_at br = None) by (intros H; by rewrite (Hnew H)).
  set (open_ := exists br at_, _). set (again := _ /\ exists p, _). set (burst := exists f1 f2, _). cbv zeta.
  assert (Hset : forall br', cloud_jobs (set_breaker backend br' t1) = cloud_jobs t /\
    breakers (set_breaker backend br' t1) !! backend = Some br' /\
    forall x, x <> backend -> breakers (set_breaker backend br' t1) !! x = breakers t !! x).
  { intros br'. unfold set_breaker. simpl. rewrite lookup_insert_eq. split_and!; [done|done|].
    intros x Hx. rewrite lookup_insert_ne by done. by apply Ho. }
  destruct (tripped_at br) as [at_|] eqn:Htrip.
  - assert (open_). { exists br, at_. split; [|done]. destruct (breakers t !! backend) eqn:E; [by rewrite (Hsome _ eq_refl)|].
      rewrite (Hnew eq_refl) in Htrip. done. }
    edestruct Hset as (H1 & H2 & H3). simpl. split_and!; [naive_solver|naive_solver| |done|exact H3|exact H1].
    intros _. eexists _, _. split_and!; [exact H2|done|done|done|done].
  - assert (Hopen : ~ open_). { intros (br' & at_ & Hb' & Ht'). apply Hsome in Hb' as <-. congruence. }
    set (since := since_of br now).
    assert (Hagain : bool_decide (previous_exit_code = Some UNREACHABLE_EXIT_CODE) &&
      match _aware previous_failed_at with Some p => later p since | None => false end = true <-> again).
    { rewrite andb_true_iff, bool_decide_eq_true. unfold again. apply and_iff_compat_l.
      pose proof (usec_aware previous_failed_at) as Ha.
      destruct (_aware previous_failed_at) as [p'|], previous_failed_at as [p|]; simpl in Ha; try discriminate.
      - injection Ha as Ha. transitivity (later p since = true); [unfold later; by rewrite Ha|].
        unfold since. rewrite (later_since t backend) by done. naive_solver.
      - naive_solver. }
    assert (Hburst : (Z.of_nat (length (List.filter (counts backend file since) (map_to_list (cloud_jobs t1)))) + 1 >=? TRIP_DISTINCT_FILES) = true <-> burst).
    { rewrite Z.geb_leb, Z.leb_le. transitivity (2 <= length (List.filter (counts backend file since) (map_to_list (cloud_jobs t1))))%nat;
        [unfold TRIP_DISTINCT_FILES; lia|]. rewrite two_members, Hj. unfold burst. split.
      - intros (f1 & f2 & j1 & j2 & Hne & H1 & H2 & P1 & P2). unfold since in *.
        apply (counts_recent backend file now br t f1 j1 Hsome Hnone H1) in P1 as [? ?].
        apply (counts_recent backend file now br t f2 j2 Hsome Hnone H2) in P2 as [? ?]. by exists f1, f2.
      - intros (f1 & f2 & Hne & N1 & N2 & R1 & R2). pose proof R1 as (j1 & _ & E1 & _). pose proof R2 as (j2 & _ & E2 & _).
        exists f1, f2, j1, j2. split_and!; try done; unfold since; apply (counts_recent backend file now br t); done. }
    assert (Htripped : forall reason, again \/ burst ->
      let t' := set_breaker backend (Breaker (Some now) (Some reason) (Some (timedelta PROBE_INTERVAL_SECONDS now)) (reset_at br)) t1 in
      let v := Verdict true true (Some reason) in
      (held v = true <-> open_ \/ again \/ burst) /\ (tripped_now v = true <-> ~ open_ /\ (again \/ burst)) /\
      (held v = true -> exists br at_, breakers t' !! backend = Some br /\ tripped_at br = Some at_ /\ trip_reason br = v_reason v /\
         next_probe_at br = Some (timedelta PROBE_INTERVAL_SECONDS now) /\ (tripped_now v = true -> at_ = now)) /\
      (held v = false -> forall br, breakers t' !! backend = Some br -> tripped_at br = None) /\
      (forall x, x <> backend -> breakers t' !! x = breakers t !! x) /\ cloud_jobs t' = cloud_jobs t).
    { intros reason Hab. edestruct Hset as (H1 & H2 & H3). simpl. split_and!; [tauto|tauto| |done|exact H3|exact H1].
      intros _. eexists _, _. split_and!; [exact H2|done|done|done|done]. }
    destruct (_ && _) eqn:Ha; [apply Htripped; left; by apply Hagain|].
    destruct (_ >=? _) eqn:Hc; [apply Htripped; right; by apply Hburst|]. simpl.
    assert (~ again) by (intros Hx; apply Hagain in Hx; congruence). assert (~ burst) by (intros Hx; apply Hburst in Hx; congruence).
    split_and!; [naive_solver|naive_solver|done| |done|done]. intros _ br' Hb'. rewrite Hb in Hb'. by injection Hb' as <-.
Qed.
