(* ===== verification/KubeObserve.v ===== *)
(** * What the reconciler may conclude from Kubernetes

    [tasks/cloud_reconcile_observation.py] and the pod classifier of
    [services/kube_staging.py].  The status dictionaries of the API are records
    of the fields that are read; an absent or unreadable field is [None].
    Instants are microseconds since the epoch. *)
From S2P Require Import Prelude Selection Breaker.
From stdpp Require Import options.
Local Open Scope Z_scope.

(** ** Objects *)

(** An entry of [status.conditions]; [c_since] is its [lastTransitionTime] as
    [_parse_k8s_time] reads it. *)
Record Condition : Type := Cond { c_type : string; c_status : string; c_reason : option string; c_since : option Z }.

(** [exitCode] when it is an integer. *)
Record Terminated : Type := Term { t_exit_code : option Z; t_reason : option string; finished_at : string }.

Record Container : Type := Ctr { waiting_reason : option string; terminated : option Terminated }.

Record Pod : Type := MkPod {
  phase : string;
  pod_reason : option string;
  pod_conditions : list Condition;
  init_containers : list Container;
  containers : list Container;
}.

(** [status] counters as [int()] reads them, [status.startTime], [spec.suspend];
    the pods and the workload are what their listings return for this Job. *)
Record KJob : Type := MkJob {
  job_uid : string;
  suspended : bool;
  succeeded : option Z;
  failed : option Z;
  active : option Z;
  job_conditions : list Condition;
  start_time : option Z;
  pods : list Pod;
  workload : option (list Condition);
}.

(** ** Conditions *)

Definition PENDING_SUBMIT_CONFIRMATION_SECONDS : Z := 3600.
Definition NO_POD_PROBE_SECONDS : Z := 900.
Definition UNSCHEDULABLE_PROBE_SECONDS : Z := 900.

Definition condition_is (type status : string) (c : Condition) : bool :=
  bool_decide (c_type c = type) && bool_decide (c_status c = status).

Definition job_counter (counter : option Z) : Z := default 0 counter.

Definition job_has_true_condition (j : KJob) (type : string) : bool := existsb (condition_is type "True") (job_conditions j).

(** The first entry of the type. *)
Definition workload_condition (w : list Condition) (type : string) : option Condition :=
  List.find (fun c => bool_decide (c_type c = type)) w.

Definition condition_true (c : option Condition) : bool :=
  match c with Some c => bool_decide (c_status c = "True"%string) | None => false end.

Definition quota_hold_reason (c : option Condition) : option string :=
  match c with
  | Some c => if bool_decide (c_status c = "False"%string) then c_reason c else None
  | None => None
  end.

(** ** Jobs and workloads *)

Inductive JobDisposition : Type := JOB_SUCCEEDED | JOB_FAILED | JOB_IN_FLIGHT.
Inductive WorkloadDisposition : Type := EVICTED | INADMISSIBLE | PENDING | ADMITTED | QUOTA_RESERVED | UNKNOWN.
Inductive PendingConfirmationDisposition : Type := FRESH | EXPIRED.

Definition classify_job (j : KJob) : JobDisposition :=
  if (job_counter (succeeded j) >=? 1) || job_has_true_condition j "Complete" then JOB_SUCCEEDED
  else if (job_counter (failed j) >=? 1) || job_has_true_condition j "Failed" then JOB_FAILED
  else JOB_IN_FLIGHT.

Definition classify_workload (w : list Condition) : WorkloadDisposition :=
  if condition_true (workload_condition w "Evicted") then EVICTED
  else
    let quota_reserved := workload_condition w "QuotaReserved" in
    let hold_reason := quota_hold_reason quota_reserved in
    if bool_decide (hold_reason = Some "Inadmissible"%string) then INADMISSIBLE
    else if bool_decide (hold_reason = Some "Pending"%string) then PENDING
    else if condition_true (workload_condition w "Admitted") then ADMITTED
    else if condition_true quota_reserved then QUOTA_RESERVED
    else UNKNOWN.

(** The age in microseconds. *)
Definition classify_pending_confirmation (age : Z) : PendingConfirmationDisposition :=
  if age <=? PENDING_SUBMIT_CONFIRMATION_SECONDS * microsecond then FRESH else EXPIRED.

(** ** Pods *)

Definition _ALIVE_POD_PHASES : list string := ["Running"; "Succeeded"]%string.
Definition DEAD_BEFORE_START_WAITING_REASONS : list string :=
  ["ImagePullBackOff"; "ErrImagePull"; "InvalidImageName"; "CreateContainerConfigError"]%string.
Definition NODE_LOSS_POD_STATUS_REASONS : list string := ["NodeLost"; "NodeShutdown"; "Shutdown"; "NodeAffinity"; "Evicted"]%string.

Inductive PodLiveness : Type := ALIVE | NODE_LOST | DEAD_BEFORE_START | UNSCHEDULABLE | STARTING.
#[export] Instance PodLiveness_eq_dec : EqDecision PodLiveness.
Proof. solve_decision. Defined.

Definition liveness_value (l : PodLiveness) : string :=
  match l with
  | ALIVE => "alive" | NODE_LOST => "node_lost" | DEAD_BEFORE_START => "dead_before_start"
  | UNSCHEDULABLE => "unschedulable" | STARTING => "starting"
  end.

Definition fatal_waiting (c : Container) : option string :=
  match waiting_reason c with
  | Some r => if bool_decide (r ∈ DEAD_BEFORE_START_WAITING_REASONS) then Some r else None
  | None => None
  end.

Fixpoint first_some {A B} (f : A -> option B) (l : list A) : option B :=
  match l with
  | [] => None
  | a :: l' => match f a with Some b => Some b | None => first_some f l' end
  end.

Definition _dead_before_start_reason (p : Pod) : option string := first_some fatal_waiting (init_containers p ++ containers p).

Definition _node_lost_by_status_reason (p : Pod) : option string :=
  match pod_reason p with
  | Some r => if bool_decide (r ∈ NODE_LOSS_POD_STATUS_REASONS) then Some r else None
  | None => None
  end.

(** Python's [s or t]. *)
Definition or_else (s : option string) (t : string) : string :=
  match s with Some s => if bool_decide (s = ""%string) then t else s | None => t end.

Definition _node_lost_by_disruption_condition (p : Pod) : option string :=
  match List.find (condition_is "DisruptionTarget" "True") (pod_conditions p) with
  | Some c => Some ("DisruptionTarget/" +:+ or_else (c_reason c) "unknown")
  | None => None
  end.

Definition _node_lost_reason (p : Pod) : option string :=
  match _node_lost_by_status_reason p with Some r => Some r | None => _node_lost_by_disruption_condition p end.

Definition is_unschedulable (c : Condition) : bool :=
  condition_is "PodScheduled" "False" c && bool_decide (c_reason c = Some "Unschedulable"%string).

Definition _unschedulable_since (p : Pod) : option Z := List.find is_unschedulable (pod_conditions p) ≫= c_since.

Definition pod_alive (p : Pod) : bool := bool_decide (phase p ∈ _ALIVE_POD_PHASES).

Definition unscheduled_past (now : Z) (p : Pod) : bool :=
  match _unschedulable_since p with
  | Some since => now - since >? UNSCHEDULABLE_PROBE_SECONDS * microsecond
  | None => false
  end.

Definition classify_job_pods (ps : list Pod) (now : Z) : PodLiveness :=
  if existsb pod_alive ps then ALIVE
  else if existsb (fun p => bool_decide (is_Some (_node_lost_reason p))) ps then NODE_LOST
  else if existsb (fun p => bool_decide (is_Some (_dead_before_start_reason p))) ps then DEAD_BEFORE_START
  else if existsb (unscheduled_past now) ps then UNSCHEDULABLE
  else STARTING.

Definition describe_pod (p : Pod) : string :=
  let reason := match _node_lost_reason p with Some r => Some r | None => _dead_before_start_reason p end in
  or_else (Some (phase p)) "unknown" +:+ match reason with Some r => "/" +:+ r | None => "" end.

Definition describe_job_pods (ps : list Pod) : string :=
  match ps with [] => "no-pods" | _ => String.concat "," (map describe_pod ps) end.

(** ** Verdicts *)

Record Wedge : Type := MkWedge { wedge_reason : string; node_loss : bool }.
Record TerminalFailure : Type := Failure { exit_code : option Z; reason : string }.

Definition classify_pod_wedge (j : KJob) (ps : list Pod) (now : Z) : option Wedge :=
  match classify_job_pods ps now with
  | ALIVE => None
  | STARTING =>
      if negb (bool_decide (ps = [])) || negb (job_counter (active j) =? 0) || suspended j then None
      else
        match start_time j with
        | None => None
        | Some started =>
            if now - started <=? NO_POD_PROBE_SECONDS * microsecond then None
            else Some (MkWedge "no_pod (job un-suspended with zero active pods past the probe)" false)
        end
  | verdict => Some (MkWedge (liveness_value verdict +:+ " (" +:+ describe_job_pods ps +:+ ")") (bool_decide (verdict = NODE_LOST)))
  end.

Definition terminal_node_loss_reason (ps : list Pod) (now : Z) : option string :=
  if bool_decide (classify_job_pods ps now = NODE_LOST) then Some ("node_lost (" +:+ describe_job_pods ps +:+ ")") else None.

(** The container that ended last, the later one on a tie. *)
Definition later_failure (latest : option (string * TerminalFailure)) (c : Container) : option (string * TerminalFailure) :=
  match terminated c with
  | None => latest
  | Some t =>
      let f := Failure (t_exit_code t) (or_else (t_reason t) "terminated") in
      match latest with
      | Some (finished, _) => if String.leb finished (finished_at t) then Some (finished_at t, f) else latest
      | None => Some (finished_at t, f)
      end
  end.

Definition terminal_failure (ps : list Pod) : option TerminalFailure :=
  match ps with
  | [] => None
  | _ => match foldl later_failure None (concat (map containers ps)) with
         | Some (_, f) => Some f
         | None => Some (Failure None (describe_job_pods ps))
         end
  end.

(** ** The wedge verdict *)

Lemma existsb_elem {A} (f : A -> bool) l : existsb f l = true <-> exists x, x ∈ l /\ f x = true.
Proof. rewrite existsb_exists. by setoid_rewrite list_elem_of_In. Qed.

Lemma existsb_none {A} (f : A -> bool) l : existsb f l = false <-> forall x, x ∈ l -> f x = false.
Proof.
  rewrite <- not_true_iff_false, existsb_elem. split.
  - intros H x Hx. apply not_true_is_false. intros Hf. apply H. by exists x.
  - intros H (x & Hx & Hf). by rewrite H in Hf.
Qed.

Lemma existsb_perm {A} (f : A -> bool) l l' : l ≡ₚ l' -> existsb f l = existsb f l'.
Proof. intros Hp. apply eq_true_iff_eq. rewrite !existsb_elem. by setoid_rewrite Hp. Qed.

#[export] Instance classify_job_pods_proper : Proper ((≡ₚ) ==> (=) ==> (=)) classify_job_pods.
Proof. intros l l' Hp n ? <-. unfold classify_job_pods. by rewrite !(existsb_perm _ _ _ Hp). Qed.

(** *** What proves that nobody works

    Stated on the objects as Kubernetes documents them, without the code's own
    predicates. *)

Inductive working (p : Pod) : Prop :=
| runs : phase p = "Running"%string -> working p
| has_succeeded : phase p = "Succeeded"%string -> working p.

(** The pod went down with its node. *)
Inductive lost_with_node (p : Pod) : Prop :=
| by_status r : pod_reason p = Some r -> r ∈ ["NodeLost"; "NodeShutdown"; "Shutdown"; "NodeAffinity"; "Evicted"]%string -> lost_with_node p
| by_disruption c : c ∈ pod_conditions p -> c_type c = "DisruptionTarget"%string -> c_status c = "True"%string -> lost_with_node p.

(** One of its containers, an init container or not, waits for what will not come. *)
Inductive waits_in_vain (p : Pod) : Prop :=
| at_container c r : c ∈ init_containers p \/ c ∈ containers p -> waiting_reason c = Some r ->
    r ∈ ["ImagePullBackOff"; "ErrImagePull"; "InvalidImageName"; "CreateContainerConfigError"]%string -> waits_in_vain p.

Definition not_schedulable (c : Condition) : Prop :=
  c_type c = "PodScheduled"%string /\ c_status c = "False"%string /\ c_reason c = Some "Unschedulable"%string.

(** Its first such condition holds for more than fifteen minutes. *)
Inductive unplaced (now : Z) (p : Pod) : Prop :=
| since before c after t : pod_conditions p = before ++ c :: after -> Forall (fun d => ~ not_schedulable d) before -> not_schedulable c ->
    c_since c = Some t -> now - t > 15 * 60 * 1000000 -> unplaced now p.

(** [wedged j ps now b]: no pod works, and there is proof that none will; [b] when the
    proof is a lost node. *)
Inductive wedged (j : KJob) (ps : list Pod) (now : Z) : bool -> Prop :=
| node_lost p : (forall q, q ∈ ps -> ~ working q) -> p ∈ ps -> lost_with_node p -> wedged j ps now true
| cannot_start p : (forall q, q ∈ ps -> ~ working q /\ ~ lost_with_node q) -> p ∈ ps -> waits_in_vain p \/ unplaced now p -> wedged j ps now false
| no_pod started : ps = [] -> default 0 (active j) = 0 -> suspended j = false -> start_time j = Some started -> now - started > 15 * 60 * 1000000 ->
    wedged j ps now false.

Lemma pod_alive_working p : pod_alive p = true <-> working p.
Proof.
  unfold pod_alive, _ALIVE_POD_PHASES. rewrite bool_decide_eq_true. split.
  - intros [H|[H|[]%elem_of_nil]%elem_of_cons]%elem_of_cons; [by left|by right].
  - intros [H|H]; rewrite H; set_solver.
Qed.

Lemma condition_is_spec t v c : condition_is t v c = true <-> c_type c = t /\ c_status c = v.
Proof. unfold condition_is. by rewrite andb_true_iff, !bool_decide_eq_true. Qed.

Lemma find_some_iff {A} (f : A -> bool) l a : List.find f l = Some a <-> exists l1 l2, l = l1 ++ a :: l2 /\ Forall (fun x => f x = false) l1 /\ f a = true.
Proof.
  induction l as [|x l IH]; simpl; [split; [done|by intros ([]&?&?&_)]|]. destruct (f x) eqn:E.
  - split; [intros [= <-]; by exists [], l|]. intros ([|y l1] & l2 & [= -> ->] & H & _); [done|]. apply List.Forall_cons_iff in H as [? _]. congruence.
  - rewrite IH. split.
    + intros (l1 & l2 & -> & H & Ha). exists (x :: l1), l2. split; [done|]. split; [by apply List.Forall_cons|done].
    + intros ([|y l1] & l2 & [= -> ->] & H & Ha); [congruence|]. apply List.Forall_cons_iff in H as [_ H]. by exists l1, l2.
Qed.

Lemma node_lost_reason_iff p : is_Some (_node_lost_reason p) <-> lost_with_node p.
Proof.
  unfold _node_lost_reason, _node_lost_by_status_reason, _node_lost_by_disruption_condition. split.
  - assert (Hd : is_Some (match List.find (condition_is "DisruptionTarget" "True") (pod_conditions p) with
        | Some c => Some ("DisruptionTarget/" +:+ or_else (c_reason c) "unknown")%string | None => None end) -> lost_with_node p).
    { destruct (List.find _ _) as [c|] eqn:E; [|by intros [? ?]]. intros _. apply find_some_iff in E as (l1 & l2 & El & _ & [? ?]%condition_is_spec).
      apply (by_disruption p c); [rewrite El; set_solver|done..]. }
    destruct (pod_reason p) as [r|] eqn:E; [|exact Hd]. case_bool_decide; [|exact Hd]. intros _. by apply (by_status p r).
  - intros [r Hr Hin|c Hc Ht Hs]; [rewrite Hr, bool_decide_eq_true_2 by exact Hin; by eexists|].
    destruct (match pod_reason p with Some _ => _ | None => _ end); [by eexists|]. destruct (List.find _ _) as [d|] eqn:E; [by eexists|].
    exfalso. pose proof (List.find_none _ _ E c (proj1 (list_elem_of_In _ _) Hc)) as Hf. by rewrite (proj2 (condition_is_spec _ _ _) (conj Ht Hs)) in Hf.
Qed.

Lemma first_some_iff {A B} (f : A -> option B) l : is_Some (first_some f l) <-> exists a, a ∈ l /\ is_Some (f a).
Proof.
  induction l as [|a l IH]; simpl; [split; [by intros [? ?]|by intros (a & []%elem_of_nil & _)]|]. destruct (f a) eqn:E.
  - split; [|by eexists]. intros _. exists a. split; [by left|by eexists].
  - rewrite IH. split; [intros (x & ? & ?); exists x; split; [by right|done]|]. intros (x & [->|Hx]%elem_of_cons & Hs); [destruct Hs; congruence|by exists x].
Qed.

Lemma dead_before_start_iff p : is_Some (_dead_before_start_reason p) <-> waits_in_vain p.
Proof.
  unfold _dead_before_start_reason. rewrite first_some_iff. unfold fatal_waiting, DEAD_BEFORE_START_WAITING_REASONS. split.
  - intros (c & Hc%elem_of_app & H). destruct (waiting_reason c) as [r|] eqn:E; [|by destruct H]. case_bool_decide; [|by destruct H].
    by apply (at_container p c r).
  - intros [c r Hc Hr Hin]. exists c. split; [by apply elem_of_app|]. rewrite Hr, bool_decide_eq_true_2 by exact Hin. by eexists.
Qed.

Lemma is_unschedulable_spec c : is_unschedulable c = true <-> not_schedulable c.
Proof. unfold is_unschedulable, not_schedulable. rewrite andb_true_iff, condition_is_spec, bool_decide_eq_true. tauto. Qed.

Lemma unscheduled_past_iff now p : unscheduled_past now p = true <-> unplaced now p.
Proof.
  unfold unscheduled_past, _unschedulable_since, UNSCHEDULABLE_PROBE_SECONDS, microsecond. split.
  - destruct (List.find is_unschedulable (pod_conditions p)) as [c|] eqn:E; [simpl|done]. apply find_some_iff in E as (l1 & l2 & El & H1 & Hc).
    destruct (c_since c) as [t|] eqn:Et; [|done]. intros Hgt. apply (since now p l1 c l2 t); [done| |by apply is_unschedulable_spec|done|lia].
    revert H1. apply List.Forall_impl. intros d Hd Hn%is_unschedulable_spec. congruence.
  - intros [l1 c l2 t El H1 Hc Ht Hgt]. assert (E : List.find is_unschedulable (pod_conditions p) = Some c).
    { apply find_some_iff. exists l1, l2. split_and!; [done| |by apply is_unschedulable_spec]. revert H1. apply List.Forall_impl. intros d Hd.
      apply not_true_is_false. by rewrite is_unschedulable_spec. }
    rewrite E. simpl. rewrite Ht. lia.
Qed.

Definition held_back (now : Z) (p : Pod) : Prop := waits_in_vain p \/ unplaced now p.

Lemma existsb_iff {A} (f : A -> bool) (P : A -> Prop) l : (forall x, f x = true <-> P x) ->
  (existsb f l = true <-> exists x, x ∈ l /\ P x) /\ (existsb f l = false <-> forall x, x ∈ l -> ~ P x).
Proof.
  intros Hf. split; [rewrite existsb_elem|rewrite existsb_none]; [by setoid_rewrite Hf|]. apply forall_proper. intros x. rewrite <- Hf.
  split; intros H Hx; specialize (H Hx); [congruence|by apply not_true_is_false].
Qed.

Lemma pods_verdict ps now :
  match classify_job_pods ps now with
  | ALIVE => exists p, p ∈ ps /\ working p
  | NODE_LOST => (forall p, p ∈ ps -> ~ working p) /\ exists p, p ∈ ps /\ lost_with_node p
  | DEAD_BEFORE_START | UNSCHEDULABLE =>
      (forall p, p ∈ ps -> ~ working p /\ ~ lost_with_node p) /\ exists p, p ∈ ps /\ held_back now p
  | STARTING => forall p, p ∈ ps -> ~ working p /\ ~ lost_with_node p /\ ~ held_back now p
  end.
Proof.
  assert (Hd : forall {A} (o : option A) (P : Prop), (is_Some o <-> P) -> bool_decide (is_Some o) = true <-> P) by (intros A o P <-; apply bool_decide_eq_true).
  unfold classify_job_pods, held_back. destruct (existsb_iff _ _ ps pod_alive_working) as [H1 H1'].
  destruct (existsb_iff _ _ ps (fun p => Hd _ _ _ (node_lost_reason_iff p))) as [H2 H2'].
  destruct (existsb_iff _ _ ps (fun p => Hd _ _ _ (dead_before_start_iff p))) as [H3 H3'].
  destruct (existsb_iff _ _ ps (unscheduled_past_iff now)) as [H4 H4'].
  destruct (existsb pod_alive ps); [by apply H1|]. apply proj1 in H1'. specialize (H1' eq_refl).
  destruct (existsb (fun p => bool_decide (is_Some (_node_lost_reason p))) ps); [split; [done|by apply H2]|]. apply proj1 in H2'. specialize (H2' eq_refl).
  destruct (existsb (fun p => bool_decide (is_Some (_dead_before_start_reason p))) ps).
  { split; [by auto|]. destruct (proj1 H3 eq_refl) as (p & ? & ?). eauto. }
  apply proj1 in H3'. specialize (H3' eq_refl). destruct (existsb (unscheduled_past now) ps).
  { split; [by auto|]. destruct (proj1 H4 eq_refl) as (p & ? & ?). eauto. }
  apply proj1 in H4'. specialize (H4' eq_refl). intros p Hp. split_and!; [by apply H1'|by apply H2'|]. intros [H|H]; [by apply (H3' p)|by apply (H4' p)].
Qed.

(** C21: only proof terminalizes.  A job's pods are called wedged exactly when there is
    proof that none works or will: no pod runs or has succeeded, whatever the
    clocks say, and either some pod went down with its node, or one waits in vain
    for its image or configuration or has been unschedulable for more than fifteen
    minutes, or an un-suspended job that counts no active pod has had none for
    fifteen minutes since its start; and the node is blamed exactly when a pod went
    down with it. *)
Theorem wedged_only_on_proof j ps now b : node_loss <$> classify_pod_wedge j ps now = Some b <-> wedged j ps now b.
Proof.
  pose proof (pods_verdict ps now) as H. unfold held_back in H.
  unfold classify_pod_wedge. destruct (classify_job_pods ps now); simpl.
  - split; [done|]. destruct H as (p & Hp & Hw). intros [q Hq|q Hq|st ->]; [by destruct (Hq p Hp)|by destruct (Hq p Hp)|by apply elem_of_nil in Hp].
  - destruct H as (Ha & p & Hp & Hl). split; [intros [= <-]; by apply (node_lost j ps now p)|].
    intros [q Hq|q Hq|st ->]; [done|by destruct (Hq p Hp)|by apply elem_of_nil in Hp].
  - destruct H as (Ha & p & Hp & Hl). split; [intros [= <-]; by apply (cannot_start j ps now p)|].
    intros [q Hq Hin Hlost|q Hq|st ->]; [by destruct (Ha q Hin)|done..].
  - destruct H as (Ha & p & Hp & Hl). split; [intros [= <-]; by apply (cannot_start j ps now p)|].
    intros [q Hq Hin Hlost|q Hq|st ->]; [by destruct (Ha q Hin)|done..].
  - split.
    + destruct (bool_decide (ps = [])) eqn:He; [apply bool_decide_eq_true in He as ->|done]. simpl.
      destruct (job_counter (active j) =? 0) eqn:Hc; [apply Z.eqb_eq in Hc|done]. destruct (suspended j) eqn:Hs; [done|]. simpl.
      destruct (start_time j) as [st|] eqn:Ht; [|done]. destruct (now - st <=? _) eqn:Hle; [done|apply Z.leb_gt in Hle]. intros [= <-].
      apply (no_pod j [] now st); try done. unfold NO_POD_PROBE_SECONDS, microsecond in Hle. lia.
    + intros [q Hq Hin Hlost|q Hq Hin Hheld|st -> Hact Hsus Hst Hgt]; [by destruct (H q Hin) as (_ & ? & _)|by destruct (H q Hin) as (_ & _ & ?)|].
      unfold job_counter. rewrite Hact, Hsus, Hst. simpl. destruct (now - st <=? _) eqn:Hle; [|done]. apply Z.leb_le in Hle.
      unfold NO_POD_PROBE_SECONDS, microsecond in Hle. lia.
Qed.
