(* ===== verification/CloudJobs.v ===== *)
(** * The cloud window: [services/backends/], [services/cloud_staging.py]

    The [cloud_job] sidecar, its single [awaiting] writer, the three backends'
    [dispatch] and the parked enqueues.  A session runs under READ COMMITTED:
    [others] is what the other sessions commit before each of its statements.
    The database, S3 and the broker may fail at any call; a failed statement
    poisons the transaction until it is rolled back. *)
From S2P Require Import Prelude StateErr Selection Breaker.
From stdpp Require Import sorting options.
Local Open Scope Z_scope.

(** ** Tables *)

(** [models/cloud_job.py] *)
Inductive CloudJobStatus : Type := UPLOADING | UPLOADED | FAILED | SUBMITTED | RUNNING | SUCCEEDED | AWAITING.
#[export] Instance CloudJobStatus_eq_dec : EqDecision CloudJobStatus.
Proof. solve_decision. Defined.

Record CloudJob : Type := Job {
  status : CloudJobStatus;
  job_backend_id : option string;
  s3_key : option string;
  upload_id : option string;
  staging_bucket : option string;
  attempts : Z;
  node_loss_redrives : Z;
  cloud_phase : option string;
  updated_at : datetime;
}.

(** The columns of [files] this code reads; [created_at] in microseconds. *)
Record FileRecord : Type := File {
  original_path : string;
  file_type : string;
  file_size : Z;
  created_at : Z;
  sha256_hash : option string;
}.

(** A [scheduling_ledger] row; the hook never touches [redrive_attempt]. *)
Record LedgerRow : Type := Ledger { redrive_attempt : option Z }.

Record tables : Type := Tables {
  files : gmap string FileRecord;
  cloud_job : gmap string CloudJob;
  cloud_budget : gmap string CloudBudgetState;
  ledger : gmap string LedgerRow;
  breaker_rows : gmap string BackendBreaker;
}.

Definition set_cloud_job (m : gmap string CloudJob) (t : tables) : tables :=
  Tables (files t) m (cloud_budget t) (ledger t) (breaker_rows t).
Definition set_cloud_budget (m : gmap string CloudBudgetState) (t : tables) : tables :=
  Tables (files t) (cloud_job t) m (ledger t) (breaker_rows t).
Definition set_ledger (m : gmap string LedgerRow) (t : tables) : tables :=
  Tables (files t) (cloud_job t) (cloud_budget t) m (breaker_rows t).

(** ** Configuration *)

Record BucketConfig : Type := Bucket { bucket_id : string; bucket_name : string }.

Record CloudSettings : Type := CloudCfg {
  policy : ControlSettings;
  registry : list Backend;
  buckets : list BucketConfig;
  push_max_attempts : Z;
  s3_multipart_part_size_bytes : Z;
  s3_presign_put_ttl_sec : Z;
  cloud_submitted_stale_after_sec : Z;
  cloud_uploading_stale_after_sec : Z;
  cloud_uploaded_stale_after_sec : Z;
  models_path : string;
}.

(** ** Sessions *)

Inductive cexn : Type :=
| NoActiveAgentError
| NoCloudJobToRedriveError
| S3StagingError
| S3ClientError              (* what the S3 client raises that is no [ClientError]: no connection, a timeout *)
| ValidationError
| ValueError
| DbError
| BrokerError
| KubeStagingError
| PolicyError (e : pyexn)
| UnresolvableStagingBucketError
| UnknownUploadFileError
| Forbidden.

Record job : Type := SaqJob { job_function : string; job_key : string; job_agent : string; job_timeout : Z; job_retries : option Z; job_dest : option string }.

Record PendingS3 : Type := Pending { pending_job : job; pending_file : string; pending_upload : string; pending_bucket : BucketConfig }.

(** How S3 answers a completion; [NoSuchUpload]: it was completed or aborted before. *)
Inductive complete_fate : Type := Assembled | NoSuchUpload | CompleteFails (reached : bool).

(** How a call of the S3 client ends; only an answer of S3, a [ClientError], becomes
    an [S3StagingError]. *)
Inductive s3_fate : Type := S3Done | S3Fails (reached : bool).
Inductive create_fate : Type := Created (upload : string) | CreateFails (reached : bool).
Definition s3_error (reached : bool) : cexn := if reached then S3StagingError else S3ClientError.

Inductive s3_call : Type :=
| CreateMultipart (file bucket upload : string)
| CompleteMultipart (file bucket upload : string) (parts : list (Z * string)) (answer : complete_fate)
| AbortMultipart (file bucket upload : string)
| DeleteObject (file bucket : string).

(** How a COMMIT ends; [CommitLost]: it is applied but the answer is lost. *)
Inductive commit_fate : Type := Committed | Refused | CommitLost.

(** How an enqueue ends, whether the ledger hook ran and whether the job landed. *)
Inductive enqueue_fate : Type := EnqJob | EnqDedup (hook_ran : bool) | EnqRaises (hook_ran landed : bool).

(** A statement in a SAVEPOINT. *)
Inductive nested_fate : Type := NestedOk | NestedNoTable | NestedFails.

Record world : Type := World {
  committed : tables;
  view : tables;
  poisoned : bool;
  parked_s3 : list PendingS3;
  parked_push : list job;
  broker : list job;
  s3_log : list s3_call;
  calls : nat;
}.

Abbreviation M := (SE world cexn).

Definition tick (w : world) : world :=
  World (committed w) (view w) (poisoned w) (parked_s3 w) (parked_push w) (broker w) (s3_log w) (S (calls w)).
Definition set_view (t : tables) (w : world) : world :=
  World (committed w) t (poisoned w) (parked_s3 w) (parked_push w) (broker w) (s3_log w) (calls w).
Definition poison (w : world) : world :=
  World (committed w) (view w) true (parked_s3 w) (parked_push w) (broker w) (s3_log w) (calls w).
Definition parked (s : list PendingS3) (p : list job) (w : world) : world :=
  World (committed w) (view w) (poisoned w) s p (broker w) (s3_log w) (calls w).
Definition log_s3 (c : s3_call) (w : world) : world :=
  World (committed w) (view w) (poisoned w) (parked_s3 w) (parked_push w) (broker w) (c :: s3_log w) (calls w).

(** ** Part geometry: [tasks/s3_upload.py], [tasks/push.py], [services/s3_staging.py] *)

Definition ceil_div (a b : Z) : Z := - ((- a) / b).

Definition S3_MAX_PART_COUNT : Z := 10000.
Definition S3_MAX_OBJECT_SIZE_BYTES : Z := 5 * 1024 ^ 4.
Definition S3_MAX_PRESIGN_EXPIRES_SEC : Z := 604800.

Definition upload_file_saq_timeout_sec (part_count : Z) : Z := (600 + 30) * Z.max 1 part_count + 30.

Definition push_transfer_budget_sec (file_size_bytes io_stall_timeout_sec : Z) : Z :=
  Z.max io_stall_timeout_sec (Z.max 0 file_size_bytes / 1000000) + 30.
Definition push_file_saq_timeout_sec (file_size_bytes : Z) : Z := push_transfer_budget_sec file_size_bytes 600 + 30.

Definition staged_object_key (file : string) : string := "phaze-staging/" +:+ file.

Record _PresignedParts : Type := Parts { part_size_bytes : Z; part_count : Z; expires_in_sec : Z }.

(** The sizes [_presign_multipart_parts] derives.  The double quotients it
    rounds up are below 2^53 and no closer to an integer than 1/part_size, so
    their ceilings are the exact ones. *)
Definition part_plan (cfg : CloudSettings) (size : Z) : _PresignedParts :=
  let part_size := Z.max (s3_multipart_part_size_bytes cfg) (ceil_div size S3_MAX_PART_COUNT) in
  let count := Z.max 1 (ceil_div size part_size) in
  Parts part_size count (Z.max (s3_presign_put_ttl_sec cfg) (upload_file_saq_timeout_sec count)).

(** ** Buckets *)

Definition string_le (a b : string) : Prop := String.leb a b = true.
#[export] Instance string_le_dec : RelDecision string_le.
Proof. unfold string_le. intros a b. apply _. Defined.
#[export] Instance string_le_total : Total string_le.
Proof. intros a b. unfold string_le. destruct (String.leb a b) eqn:H; [by left|]. right. by apply string_leb_total. Qed.
#[export] Instance string_le_trans : Transitive string_le.
Proof. intros a b c. apply string_leb_trans. Qed.
#[export] Instance string_le_antisymm : AntiSymm (=) string_le.
Proof. intros a b. apply String.leb_antisym. Qed.

(** [sorted(bucket_ids)], then the digest of the file's id. *)
Definition sorted_ids (ids : list string) : list string := merge_sort string_le ids.

Definition pick_bucket (digest : Z) (ids : list string) : outcome cexn string :=
  let ordered := sorted_ids ids in
  match ordered with
  | [] => Raise S3StagingError
  | _ => match ordered !! Z.to_nat (digest mod Z.of_nat (length ordered)) with
         | Some b => Ok b
         | None => Raise S3StagingError
         end
  end.

Definition resolve_bucket_config (cfg : CloudSettings) (id : option string) : option BucketConfig :=
  match id with
  | None => None
  | Some i => list_find (fun b => bucket_id b = i) (rev (buckets cfg)) ≫= fun p => Some p.2
  end.

(** ** Backends *)

Definition IN_FLIGHT : list CloudJobStatus := [UPLOADING; UPLOADED; SUBMITTED; RUNNING].
Definition STAGING : list CloudJobStatus := [UPLOADING; UPLOADED].

Definition occupies (backend : string) (j : CloudJob) : bool :=
  bool_decide (job_backend_id j = Some backend) && bool_decide (status j ∈ IN_FLIGHT).

Definition in_flight_count (backend : string) (t : tables) : Z :=
  Z.of_nat (size (filter (fun r => occupies backend r.2 = true) (cloud_job t))).

Definition resolve_compute_backend (cfg : CloudSettings) (id : option string) : option Backend :=
  match id with
  | None => None
  | Some i => list_find (fun b => backend_id b = i /\ (match config b with KCompute _ _ _ _ => true | _ => false end) = true)
                (rev (registry cfg)) ≫= fun p => Some p.2
  end.

Definition agent_ref (b : Backend) : option string := match config b with KCompute r _ _ _ => r | _ => None end.
Definition push_host (b : Backend) : option string := match config b with KCompute _ h _ _ => h | _ => None end.
Definition scratch_dir (b : Backend) : option string := match config b with KCompute _ _ s _ => s | _ => None end.
Definition ssh_user (b : Backend) : option string := match config b with KCompute _ _ _ u => u | _ => None end.

(** [not value] of a string that may be None. *)
Definition falsy (s : option string) : bool := match s with Some s => bool_decide (s = ""%string) | None => true end.

Definition _destination (b : Backend) : outcome cexn (option string * option string * option string) :=
  if falsy (push_host b) || falsy (scratch_dir b) then Raise ValueError else Ok (push_host b, scratch_dir b, ssh_user b).

(** [schemas/agent_tasks.py]: what [PushFilePayload] validates. *)
Definition FORBIDDEN : list Ascii.ascii :=
  map Ascii.ascii_of_nat [9; 10; 13]%nat ++ String.list_ascii_of_string " ;|&$`()<>".
Definition clean (s : string) : bool := forallb (fun c => negb (bool_decide (c ∈ FORBIDDEN))) (String.list_ascii_of_string s).
Definition ascii_alnum (c : Ascii.ascii) : bool :=
  let n := Ascii.N_of_ascii c in
  ((48 <=? n) && (n <=? 57) || (65 <=? n) && (n <=? 90) || (97 <=? n) && (n <=? 122))%N.
Definition opt_all (f : string -> bool) (s : option string) : bool := match s with Some s => f s | None => true end.

Definition push_payload_valid (f : FileRecord) (dest : option string * option string * option string) : bool :=
  let '(host, scratch, user) := dest in
  String.prefix "/" (original_path f) &&
  negb (bool_decide (file_type f = ""%string)) && forallb ascii_alnum (String.list_ascii_of_string (file_type f)) &&
  opt_all (fun s => String.prefix "/" s && clean s) scratch && opt_all clean host && opt_all clean user.

Definition upload_payload_valid (f : FileRecord) (p : _PresignedParts) : bool :=
  String.prefix "/" (original_path f) && (part_count p >=? 1) && (part_size_bytes p >? 0).

Definition push_file_job_key (file : string) : string := "push_file:" +:+ file.
Definition s3_upload_key (file : string) : string := "s3_upload:" +:+ file.
Definition process_file_job_key (file : string) : string := "process_file:" +:+ file.

Section session.
Context (others : nat -> tables -> tables) (stmt_ok : nat -> bool) (nested_at : nat -> nested_fate).
Context (commit_at : nat -> commit_fate) (agent_at : nat -> option string).
Context (s3_create : nat -> create_fate) (s3_at : nat -> s3_fate) (enqueue_at : nat -> enqueue_fate).
Context (digest : string -> Z) (cfg : CloudSettings) (now : datetime).

(** ** Statements *)

(** The other sessions commit; the clock of outside calls advances. *)
Definition elapse (w : world) : world :=
  let n := calls w in
  World (others n (committed w)) (others n (view w)) (poisoned w) (parked_s3 w) (parked_push w) (broker w) (s3_log w) (S n).

Definition stmt {A} (q : nat -> tables -> tables * A) : M A := fun w =>
  let n := calls w in
  let w1 := elapse w in
  if poisoned w1 then (w1, Raise DbError)
  else if stmt_ok n then let (t, a) := q n (view w1) in (set_view t w1, Ok a)
  else (poison w1, Raise DbError).

(** [async with session.begin_nested()]: a failure is undone on its own. *)
Definition nested {A} (q : nat -> tables -> tables * A) (no_table : M A) (failed : M A) : M A := fun w =>
  let n := calls w in
  let w1 := elapse w in
  if poisoned w1 then failed w1
  else match nested_at n with
       | NestedOk => let (t, a) := q n (view w1) in (set_view t w1, Ok a)
       | NestedNoTable => no_table w1
       | NestedFails => failed w1
       end.

Definition commit : M unit := fun w =>
  let n := calls w in
  let w1 := elapse w in
  let applied := World (view w1) (view w1) false (parked_s3 w1) (parked_push w1) (broker w1) (s3_log w1) (calls w1) in
  let undone := World (committed w1) (committed w1) false (parked_s3 w1) (parked_push w1) (broker w1) (s3_log w1) (calls w1) in
  if poisoned w1 then (undone, Raise DbError)
  else match commit_at n with
       | Committed => (applied, Ok tt)
       | Refused => (undone, Raise DbError)
       | CommitLost => (applied, Raise DbError)
       end.

Definition rollback : M unit := fun w =>
  let w1 := elapse w in
  (World (committed w1) (committed w1) false (parked_s3 w1) (parked_push w1) (broker w1) (s3_log w1) (calls w1), Ok tt).

(** [session.execute(select(...))]: no effect. *)
Definition query {A} (q : nat -> tables -> A) : M A := stmt (fun n t => (t, q n t)).

Definition select_active_agent : M string :=
  run! a <- query (fun n _ => agent_at n);
  match a with Some a => ret a | None => raise NoActiveAgentError end.

(** A blocking job of the key keeps its row: a queued or an active one, or only a
    queued one when [from_running_job].  [blocking] is that probe. *)
Definition clear_ledger_entry (blocking : nat -> string -> bool) (key : string) : M unit :=
  nested (fun n t => (if blocking n key then t else set_ledger (delete key (ledger t)) t, tt))
    (stmt (fun _ t => (set_ledger (delete key (ledger t)) t, tt)))
    (ret tt).

(** ** The broker *)

(** The hook upserts the ledger row in a session of its own, then the job lands. *)
Definition upsert_ledger_entry (key : string) (t : tables) : tables :=
  set_ledger (<[key := Ledger (ledger t !! key ≫= redrive_attempt)]> (ledger t)) t.

Definition land (hook landed : bool) (j : job) (w : world) : world :=
  let f t := if hook then upsert_ledger_entry (job_key j) t else t in
  World (f (committed w)) (f (view w)) (poisoned w) (parked_s3 w) (parked_push w)
    (if landed then j :: broker w else broker w) (s3_log w) (calls w).

Definition enqueue (j : job) : M bool := fun w =>
  let n := calls w in
  let w1 := elapse w in
  match enqueue_at n with
  | EnqJob => (land true true j w1, Ok true)
  | EnqDedup hook => (land hook false j w1, Ok false)
  | EnqRaises hook landed => (land hook landed j w1, Raise BrokerError)
  end.

(** ** S3 *)

Definition create_multipart_upload (file : string) (b : BucketConfig) : M string := fun w =>
  let n := calls w in
  let w1 := elapse w in
  match s3_create n with
  | Created u => (log_s3 (CreateMultipart file (bucket_id b) u) w1, Ok u)
  | CreateFails reached => (w1, Raise (s3_error reached))
  end.

Definition abort_multipart_upload (file u : string) (b : BucketConfig) : M unit := fun w =>
  let n := calls w in
  let w1 := log_s3 (AbortMultipart file (bucket_id b) u) (elapse w) in
  match s3_at n with S3Done => (w1, Ok tt) | S3Fails reached => (w1, Raise (s3_error reached)) end.

Definition delete_staged_object (file : string) (b : BucketConfig) : M unit := fun w =>
  let n := calls w in
  let w1 := log_s3 (DeleteObject file (bucket_id b)) (elapse w) in
  match s3_at n with S3Done => (w1, Ok tt) | S3Fails reached => (w1, Raise (s3_error reached)) end.

(** Too many parts are refused, the lifetime is clamped. *)
Definition presign_upload_parts (p : _PresignedParts) : M _PresignedParts := fun w =>
  if part_count p >? S3_MAX_PART_COUNT then (w, Raise S3StagingError)
  else
    let n := calls w in
    let w1 := elapse w in
    match s3_at n with
    | S3Done => (w1, Ok (Parts (part_size_bytes p) (part_count p) (Z.max 1 (Z.min (expires_in_sec p) S3_MAX_PRESIGN_EXPIRES_SEC))))
    | S3Fails reached => (w1, Raise (s3_error reached))
    end.

Definition _presign_multipart_parts (f : FileRecord) : M _PresignedParts := presign_upload_parts (part_plan cfg (file_size f)).

Definition _best_effort_abort_orphaned_multipart (file u : string) (b : BucketConfig) : M unit :=
  catch (abort_multipart_upload file u b) (fun _ => ret tt).

(** ** Parked enqueues: [session.info] *)

Definition _park_s3_enqueue (p : PendingS3) : M unit := fun w => (parked (parked_s3 w ++ [p]) (parked_push w) w, Ok tt).
Definition _park_push_file_enqueue (j : job) : M unit := fun w => (parked (parked_s3 w) (parked_push w ++ [j]) w, Ok tt).

Definition pop_parked_s3 : M (list PendingS3) := fun w => (parked [] (parked_push w) w, Ok (parked_s3 w)).
Definition pop_parked_push : M (list job) := fun w => (parked (parked_s3 w) [] w, Ok (parked_push w)).

Definition drop_pending_s3_enqueues : M unit :=
  run! pending <- pop_parked_s3;
  for_each pending (fun p => _best_effort_abort_orphaned_multipart (pending_file p) (pending_upload p) (pending_bucket p)).

Definition flush_pending_s3_enqueues : M Z :=
  run! pending <- pop_parked_s3;
  count_each pending (fun p => catch (enqueue (pending_job p)) (fun _ => ret false)).

Definition drop_pending_push_file_enqueues : M unit := seq! pop_parked_push; ret tt.

Definition flush_pending_push_file_enqueues : M unit :=
  run! pending <- pop_parked_push;
  for_each pending (fun j => catch (seq! enqueue j; ret tt) (fun _ => ret tt)).

(** ** The [awaiting] writer: [admission.py] *)

Record _PriorChain : Type := Prior { p_status : CloudJobStatus; p_attempts : Z; p_node_loss_redrives : Z }.

Definition cap_attempts : Z := cloud_submit_max_attempts (policy cfg).

Definition _fold_spent_budget_if_edge (file : string) (attempts_ : Z) (prior : option _PriorChain) : M unit :=
  if attempts_ <? cap_attempts then ret tt
  else if match prior with
          | Some p => bool_decide (p_status p = AWAITING) && (p_attempts p >=? cap_attempts)
          | None => false
          end then ret tt
  else
    let lost := match prior with Some p => p_node_loss_redrives p | None => 0 end in
    stmt (fun _ t => (set_cloud_budget (record_cloud_budget_spent now file attempts_ lost (cloud_budget t)) t, tt)).

Definition hold_upsert (file : string) (attempts_ : Z) (t : tables) : tables :=
  set_cloud_job (<[file := match cloud_job t !! file with
                           | Some j => Job AWAITING (job_backend_id j) (s3_key j) (upload_id j) (staging_bucket j) attempts_
                                         (node_loss_redrives j) (cloud_phase j) now
                           | None => Job AWAITING None None None None attempts_ 0 None now
                           end]> (cloud_job t)) t.

(** The compare-and-set: [true] when a row was moved. *)
Definition spill_cas (file : string) (attempts_ : Z) (expect_status : list CloudJobStatus) (expect_upload_id : option string)
    (clear_cloud_phase : bool) (t : tables) : tables * bool :=
  match cloud_job t !! file with
  | Some j =>
      if bool_decide (status j ∈ expect_status) &&
         match expect_upload_id with Some u => bool_decide (upload_id j = Some u) | None => true end
      then (set_cloud_job (<[file := Job AWAITING (job_backend_id j) (s3_key j) (upload_id j) (staging_bucket j) attempts_
                                       (node_loss_redrives j) (if clear_cloud_phase then None else cloud_phase j) now]> (cloud_job t)) t, true)
      else (t, false)
  | None => (t, false)
  end.

Definition hold_awaiting_cloud (file : string) (attempts_ : Z) (expect_status : option (list CloudJobStatus))
    (expect_upload_id : option string) (clear_cloud_phase : bool) : M bool :=
  run! prior <-
    (if attempts_ >=? cap_attempts then
       query (fun _ t => match cloud_job t !! file with
                         | Some j => Some (Prior (status j) (attempts j) (node_loss_redrives j))
                         | None => None
                         end)
     else ret None);
  match expect_status with
  | None =>
      seq! stmt (fun _ t => (hold_upsert file attempts_ t, tt));
      seq! _fold_spent_budget_if_edge file attempts_ prior;
      ret true
  | Some expected =>
      run! wrote <- stmt (fun _ t => spill_cas file attempts_ expected expect_upload_id clear_cloud_phase t);
      seq! (if wrote : bool then _fold_spent_budget_if_edge file attempts_ prior else ret tt);
      ret wrote
  end.

(** ** [dispatch] *)

Definition enqueue_process_file (file : string) (agent : string) (scratch_path : option string) : M bool :=
  enqueue (SaqJob "process_file" (process_file_job_key file) agent 0 (Some 2) scratch_path).

(** [local.py] *)
Definition local_dispatch (file : string) : M bool :=
  run! agent <- catch (run! a <- select_active_agent; ret (Some a))
                  (fun e => match e with NoActiveAgentError => ret None | _ => raise e end);
  match agent with
  | None => ret false
  | Some a => enqueue_process_file file a None
  end.

(** [compute_agent.py]: the upsert first, then the payload. *)
Definition submitted_upsert (b : Backend) (file : string) (t : tables) : tables :=
  set_cloud_job (<[file := match cloud_job t !! file with
                           | Some j => Job SUBMITTED (Some (backend_id b)) (s3_key j) (upload_id j) (staging_bucket j) (attempts j)
                                         (node_loss_redrives j) (cloud_phase j) now
                           | None => Job SUBMITTED (Some (backend_id b)) None None None 0 0 None now
                           end]> (cloud_job t)) t.

Definition lift {A} (o : outcome cexn A) : M A := fun w => (w, o).

Definition _build_push_file_enqueue_kwargs (file : string) (f : FileRecord) (agent : string)
    (dest : option string * option string * option string) : outcome cexn job :=
  if push_payload_valid f dest
  then Ok (SaqJob "push_file" (push_file_job_key file) agent (push_file_saq_timeout_sec (file_size f)) (Some 2) dest.1.1)
  else Raise ValidationError.

Definition compute_dispatch (b : Backend) (file : string) (f : FileRecord) : M bool :=
  run! agent <- select_active_agent;
  seq! stmt (fun _ t => (submitted_upsert b file t, tt));
  run! dest <- lift (_destination b);
  run! j <- lift (_build_push_file_enqueue_kwargs file f agent dest);
  seq! _park_push_file_enqueue j;
  ret true.

(** [cloud_staging.py] *)
Definition _uploading_cloud_job_upsert (file u : string) (bucket : BucketConfig) (t : tables) : tables :=
  set_cloud_job (<[file := match cloud_job t !! file with
                           | Some j => Job UPLOADING (job_backend_id j) (Some (staged_object_key file)) (Some u) (Some (bucket_id bucket))
                                         (attempts j) (node_loss_redrives j) (cloud_phase j) now
                           | None => Job UPLOADING None (Some (staged_object_key file)) (Some u) (Some (bucket_id bucket)) 0 0 None now
                           end]> (cloud_job t)) t.

Definition _stage_file_to_s3 (file : string) (f : FileRecord) (bucket : BucketConfig) : M unit :=
  run! agent <- select_active_agent;
  if file_size f >? S3_MAX_OBJECT_SIZE_BYTES then raise S3StagingError
  else
    run! u <- create_multipart_upload file bucket;
    catch
      (run! parts <- _presign_multipart_parts f;
       seq! stmt (fun _ t => (_uploading_cloud_job_upsert file u bucket t, tt));
       if upload_payload_valid f parts then
         _park_s3_enqueue (Pending (SaqJob "s3_upload" (s3_upload_key file) agent (upload_file_saq_timeout_sec (part_count parts)) (Some 0) None)
                             file u bucket)
       else raise ValidationError)
      (fun e => seq! _best_effort_abort_orphaned_multipart file u bucket; raise e).

(** [kueue.py] *)
Definition stamp_backend (b : Backend) (bucket : string) (file : string) (t : tables) : tables :=
  match cloud_job t !! file with
  | Some j => set_cloud_job (<[file := Job (status j) (Some (backend_id b)) (s3_key j) (upload_id j) (Some bucket) (attempts j)
                                         (node_loss_redrives j) (cloud_phase j) now]> (cloud_job t)) t
  | None => t
  end.

Definition kueue_buckets (b : Backend) : list string := match config b with KKueue l => l | _ => [] end.

Definition kueue_dispatch (b : Backend) (file : string) (f : FileRecord) : M bool :=
  run! id <- lift (pick_bucket (digest file) (kueue_buckets b));
  match resolve_bucket_config cfg (Some id) with
  | None => raise S3StagingError
  | Some bucket =>
      seq! _stage_file_to_s3 file f bucket;
      seq! stmt (fun _ t => (stamp_backend b id file t, tt));
      ret true
  end.

Definition dispatch (b : Backend) (file : string) (f : FileRecord) : M bool :=
  match config b with
  | KLocal => local_dispatch file
  | KCompute _ _ _ _ => compute_dispatch b file f
  | KKueue _ => kueue_dispatch b file f
  end.

End session.

(** ** Part geometry *)

Lemma ceil_div_spec a b : 0 < b -> (ceil_div a b - 1) * b < a <= ceil_div a b * b.
Proof. intros Hb. unfold ceil_div. pose proof (Z.div_mod (- a) b ltac:(lia)). pose proof (Z.mod_pos_bound (- a) b Hb). nia. Qed.

Lemma ceil_div_le a b c : 0 < b -> a <= c * b -> ceil_div a b <= c.
Proof. intros Hb Hle. pose proof (ceil_div_spec a b Hb). nia. Qed.

(** The multipart plan.  Whatever the configured part size and the size the
    agent reported, an upload that is not refused has between one and 10,000
    parts of at least that size, they cover the file, none of them but a single
    one is empty, and the presigned URLs live at least as long as the configured
    floor and as the upload job may run, up to the longest time S3 grants. *)
Theorem multipart_plan_covers cfg f :
  0 < s3_multipart_part_size_bytes cfg -> 0 <= file_size f <= S3_MAX_OBJECT_SIZE_BYTES ->
  forall others s3_at w p w',
  _presign_multipart_parts others s3_at cfg f w = (w', Ok p) ->
  1 <= part_count p <= S3_MAX_PART_COUNT /\ s3_multipart_part_size_bytes cfg <= part_size_bytes p /\
  file_size f <= part_count p * part_size_bytes p /\
  (1 < part_count p -> (part_count p - 1) * part_size_bytes p < file_size f) /\
  Z.min S3_MAX_PRESIGN_EXPIRES_SEC (Z.max (s3_presign_put_ttl_sec cfg) (upload_file_saq_timeout_sec (part_count p))) = expires_in_sec p.
Proof.
  intros Hfloor Hsize others s3_at w p w'. unfold _presign_multipart_parts, presign_upload_parts, part_plan. cbn [part_count part_size_bytes expires_in_sec].
  set (ps := Z.max (s3_multipart_part_size_bytes cfg) _). set (pc := Z.max 1 _).
  assert (Hps : 0 < ps) by lia.
  pose proof (ceil_div_spec (file_size f) S3_MAX_PART_COUNT ltac:(done)) as Hc1.
  pose proof (ceil_div_spec (file_size f) ps Hps) as Hc2.
  assert (Hpc : ceil_div (file_size f) ps <= S3_MAX_PART_COUNT).
  { apply ceil_div_le; [done|]. assert (ceil_div (file_size f) S3_MAX_PART_COUNT <= ps) by lia. nia. }
  destruct (pc >? S3_MAX_PART_COUNT); [done|]. destruct (s3_at _); [|done]. intros [= _ <-]. cbn [part_count part_size_bytes expires_in_sec].
  split_and!; [lia|unfold S3_MAX_PART_COUNT in *; lia|lia|nia|intros; nia|].
  unfold upload_file_saq_timeout_sec, S3_MAX_PRESIGN_EXPIRES_SEC. lia.
Qed.

Definition demo_policy : ControlSettings := Settings 3 (QArith_base.inject_Z 14) 3 3 900.
Definition demo_settings (registry : list Backend) : CloudSettings :=
  CloudCfg demo_policy registry [Bucket "staging" "s3-staging"] 3 67108864 3600 3600 21600 21600 "/models".
Definition empty_world (t : tables) : world := World t t false [] [] [] [] 0.

Lemma multipart_plan_covers_witness :
  let f := File "/media/long.mp3" "mp3" 5497558138880 0 None in
  exists p, 1 <= part_count p <= S3_MAX_PART_COUNT /\ file_size f <= part_count p * part_size_bytes p.
Proof.
  intros f. exists (Parts 549755814 10000 604800).
  destruct (multipart_plan_covers (demo_settings []) f ltac:(done) ltac:(split; vm_compute; discriminate)
    (fun _ t => t) (fun _ => S3Done) (empty_world (Tables ∅ ∅ ∅ ∅ ∅)) (Parts 549755814 10000 604800)
    (World (Tables ∅ ∅ ∅ ∅ ∅) (Tables ∅ ∅ ∅ ∅ ∅) false [] [] [] [] 1) ltac:(vm_compute; reflexivity)) as (H1 & _ & H2 & _).
  split; assumption.
Defined.

(** ** Buckets *)

Lemma sorted_ids_perm l l' : l ≡ₚ l' -> sorted_ids l = sorted_ids l'.
Proof.
  intros Hp. unfold sorted_ids. apply (Sorted_unique string_le); [apply (Sorted_merge_sort _)..|]. by rewrite !merge_sort_Permutation.
Qed.

(** The choice of a bucket depends on the file and on the set of bound ids,
    not on their order; it is one of them, and only an empty set raises. *)
Theorem pick_bucket_stable digest ids ids' :
  ids ≡ₚ ids' -> pick_bucket digest ids = pick_bucket digest ids' /\
  (ids <> [] -> exists b, pick_bucket digest ids = Ok b /\ b ∈ ids) /\ (ids = [] -> pick_bucket digest ids = Raise S3StagingError).
Proof.
  intros Hp. assert (Hs : sorted_ids ids ≡ₚ ids) by apply merge_sort_Permutation. split; [|split].
  - unfold pick_bucket. by rewrite (sorted_ids_perm _ _ Hp).
  - intros Hne. unfold pick_bucket. destruct (sorted_ids ids) as [|x l] eqn:Hx; [by apply Permutation_nil in Hs|].
    destruct ((x :: l) !! _) as [b|] eqn:Hl.
    + exists b. split; [done|]. rewrite <-Hs. by eapply list_elem_of_lookup_2.
    + apply lookup_ge_None in Hl. pose proof (Z.mod_pos_bound digest (Z.of_nat (length (x :: l))) ltac:(simpl; lia)). lia.
  - by intros ->.
Qed.

Lemma pick_bucket_stable_witness :
  pick_bucket 7 ["b"; "a"; "c"] = pick_bucket 7 ["c"; "b"; "a"] /\ pick_bucket 7 ["b"; "a"; "c"] = Ok "b"%string.
Proof.
  split; [|vm_compute; reflexivity].
  apply (pick_bucket_stable 7 ["b"; "a"; "c"] ["c"; "b"; "a"]). apply (bool_decide_unpack _). vm_compute. exact I.
Defined.

(** ** Counting slots *)

Definition occ (backend : string) (t : tables) (file : string) : Z :=
  match cloud_job t !! file with Some j => if occupies backend j then 1 else 0 | None => 0 end.

Lemma count_delete backend (m : gmap string CloudJob) f :
  Z.of_nat (size (filter (fun r : string * CloudJob => occupies backend r.2 = true) m)) =
  Z.of_nat (size (filter (fun r : string * CloudJob => occupies backend r.2 = true) (delete f m))) +
  match m !! f with Some j => if occupies backend j then 1 else 0 | None => 0 end.
Proof.
  destruct (m !! f) as [j|] eqn:Hf; [|rewrite delete_id by done; lia].
  rewrite map_filter_delete. destruct (occupies backend j) eqn:Ho.
  - assert (Hin : filter (fun r : string * CloudJob => occupies backend r.2 = true) m !! f = Some j) by by apply map_lookup_filter_Some_2.
    rewrite map_size_delete_Some by by eexists.
    assert (size (filter (fun r : string * CloudJob => occupies backend r.2 = true) m) <> 0%nat).
    { apply map_size_non_empty_iff. intros He. rewrite He in Hin. by rewrite lookup_empty in Hin. }
    lia.
  - rewrite delete_id; [lia|]. apply map_lookup_filter_None_2. right. intros x Hx. simpl. rewrite Hf in Hx. injection Hx as <-. congruence.
Qed.

Lemma count_set backend f j t :
  in_flight_count backend (set_cloud_job (<[f := j]> (cloud_job t)) t) =
  in_flight_count backend t - occ backend t f + (if occupies backend j then 1 else 0).
Proof.
  unfold in_flight_count, occ. cbn [cloud_job set_cloud_job]. rewrite (count_delete backend (cloud_job t) f).
  rewrite (count_delete backend (<[f := j]> (cloud_job t)) f), lookup_insert_eq, delete_insert_eq. lia.
Qed.

Lemma occ_bounds backend t f : 0 <= occ backend t f <= 1.
Proof. unfold occ. destruct (cloud_job t !! f) as [j|]; [|lia]. destruct (occupies backend j); lia. Qed.

Lemma count_occ backend (m : gmap string CloudJob) :
  Z.of_nat (size (filter (fun r : string * CloudJob => occupies backend r.2 = true) m)) =
  Z.of_nat (size (dom (filter (fun r : string * CloudJob => occupies backend r.2 = true) m))).
Proof. by rewrite size_dom. Qed.

(** Rows other than [f] took no slot. *)
Lemma in_flight_except backend f t t' :
  (forall g, g <> f -> occ backend t' g <= occ backend t g) ->
  in_flight_count backend t' <= in_flight_count backend t - occ backend t f + occ backend t' f.
Proof.
  intros Hle. unfold in_flight_count. rewrite (count_delete backend (cloud_job t) f), (count_delete backend (cloud_job t') f).
  fold (occ backend t f) (occ backend t' f). rewrite !count_occ.
  assert (size (dom (filter (fun r : string * CloudJob => occupies backend r.2 = true) (delete f (cloud_job t')))) <=
          size (dom (filter (fun r : string * CloudJob => occupies backend r.2 = true) (delete f (cloud_job t)))))%nat; [|lia].
  apply subseteq_size. intros g. rewrite !elem_of_dom. intros [j Hj]. apply map_lookup_filter_Some in Hj as [Hj Ho]. simpl in Ho.
  destruct (decide (g = f)) as [->|Hne]; [by rewrite lookup_delete_eq in Hj|]. rewrite lookup_delete_ne in Hj by done.
  specialize (Hle g Hne). unfold occ in Hle. rewrite Hj, Ho in Hle. destruct (cloud_job t !! g) as [j'|] eqn:Hj'; [|lia].
  destruct (occupies backend j') eqn:Ho'; [|lia]. exists j'. apply map_lookup_filter_Some. by rewrite lookup_delete_ne.
Qed.

Lemma in_flight_under backend t t' : (forall g, occ backend t' g <= occ backend t g) -> in_flight_count backend t' <= in_flight_count backend t.
Proof. intros Hle. pose proof (in_flight_except backend ""%string t t' (fun g _ => Hle g)). specialize (Hle ""%string). lia. Qed.

Lemma keeps_lift {A} (P : world -> Prop) (o : outcome cexn A) : keeps P (lift o).
Proof. by intros w. Qed.

#[export] Hint Resolve keeps_lift : phaze.

(** ** Table properties that every statement keeps

    [P] is kept by the other sessions and does not look at the ledger. *)
Section kept.
Context (others : nat -> tables -> tables) (stmt_ok : nat -> bool) (nested_at : nat -> nested_fate).
Context (commit_at : nat -> commit_fate) (agent_at : nat -> option string).
Context (s3_create : nat -> create_fate) (s3_at : nat -> s3_fate) (enqueue_at : nat -> enqueue_fate).
Context (cfg : CloudSettings) (now : datetime).
Context (P : tables -> Prop) (rely : forall n t, P t -> P (others n t)).
Context (blind : forall m t, P t -> P (set_ledger m t)).

Definition both (w : world) : Prop := P (committed w) /\ P (view w).

Lemma both_elapse w : both w -> both (elapse others w).
Proof using rely. intros [? ?]. split; by apply rely. Qed.

Lemma keeps_stmt {A} (q : nat -> tables -> tables * A) : (forall n t, P t -> P (q n t).1) -> keeps both (stmt others stmt_ok q).
Proof using rely.
  intros Hq w Hw%both_elapse. unfold stmt. destruct (poisoned _); [done|]. destruct (stmt_ok _); [|done].
  specialize (Hq (calls w) (view (elapse others w)) (proj2 Hw)). destruct (q _ _) as [t a]. split; [apply Hw|done].
Qed.

Lemma keeps_query {A} (q : nat -> tables -> A) : keeps both (query others stmt_ok q).
Proof using rely. by apply keeps_stmt. Qed.

Lemma keeps_nested {A} (q : nat -> tables -> tables * A) m1 m2 :
  (forall n t, P t -> P (q n t).1) -> keeps both m1 -> keeps both m2 -> keeps both (nested others nested_at q m1 m2).
Proof using rely.
  intros Hq H1 H2 w Hw%both_elapse. unfold nested. destruct (poisoned _); [by apply H2|].
  destruct (nested_at _); [|by apply H1|by apply H2].
  specialize (Hq (calls w) (view (elapse others w)) (proj2 Hw)). destruct (q _ _) as [t a]. split; [apply Hw|done].
Qed.

Lemma keeps_commit : keeps both (commit others commit_at).
Proof using rely.
  intros w [Hc Hv]%both_elapse. unfold commit. destruct (poisoned _); [by split|]. destruct (commit_at _); by split.
Qed.

Lemma keeps_rollback : keeps both (rollback others).
Proof using rely. intros w [Hc Hv]%both_elapse. by split. Qed.

Lemma keeps_select_active_agent : keeps both (select_active_agent others stmt_ok agent_at).
Proof using rely. apply keeps_bind; [apply keeps_query|]. intros [a|]; [apply keeps_ret|apply keeps_raise]. Qed.

Lemma keeps_clear_ledger blocking k : keeps both (clear_ledger_entry others stmt_ok nested_at blocking k).
Proof using rely blind.
  apply keeps_nested; [| |apply keeps_ret].
  - intros n t Ht. destruct (blocking n k); [done|]. by apply blind.
  - apply keeps_stmt. intros n t Ht. by apply blind.
Qed.

Lemma keeps_enqueue j : keeps both (enqueue others enqueue_at j).
Proof using rely blind.
  intros w Hw%both_elapse. unfold enqueue. assert (Hl : forall h l, both (land h l j (elapse others w))).
  { intros h l. destruct Hw as [Hc Hv]. unfold land, both. simpl. destruct h; [|by split]. split; by apply blind. }
  destruct (enqueue_at _); apply Hl.
Qed.

Lemma keeps_s3_abort f u b : keeps both (abort_multipart_upload others s3_at f u b).
Proof using rely. intros w Hw%both_elapse. unfold abort_multipart_upload. by destruct (s3_at _). Qed.
Lemma keeps_s3_delete f b : keeps both (delete_staged_object others s3_at f b).
Proof using rely. intros w Hw%both_elapse. unfold delete_staged_object. by destruct (s3_at _). Qed.
Lemma keeps_s3_create f b : keeps both (create_multipart_upload others s3_create f b).
Proof using rely. intros w Hw%both_elapse. unfold create_multipart_upload. by destruct (s3_create _). Qed.
Lemma keeps_presign f : keeps both (_presign_multipart_parts others s3_at cfg f).
Proof using rely.
  intros w Hw. unfold _presign_multipart_parts, presign_upload_parts. destruct (_ >? _); [done|]. apply both_elapse in Hw.
  by destruct (s3_at _).
Qed.
Lemma keeps_best_effort_abort f u b : keeps both (_best_effort_abort_orphaned_multipart others s3_at f u b).
Proof using rely. apply keeps_catch; [apply keeps_s3_abort|]. intros e. apply keeps_ret. Qed.

Lemma keeps_fold f a prior : (forall m t, P t -> P (set_cloud_budget m t)) ->
  keeps both (_fold_spent_budget_if_edge others stmt_ok cfg now f a prior).
Proof using rely.
  intros Hb. unfold _fold_spent_budget_if_edge. destruct (_ <? _); [apply keeps_ret|].
  destruct (match prior with Some _ => _ | None => _ end); [apply keeps_ret|]. apply keeps_stmt. intros n t Ht. by apply Hb.
Qed.

(** A write through the single [awaiting] writer. *)
Lemma keeps_hold f a exp u clr :
  (forall m t, P t -> P (set_cloud_budget m t)) ->
  (forall t, P t -> P (hold_upsert now f a t)) -> (forall e t, P t -> P (spill_cas now f a e u clr t).1) ->
  keeps both (hold_awaiting_cloud others stmt_ok cfg now f a exp u clr).
Proof using rely.
  intros Hb Hh Hs. unfold hold_awaiting_cloud. apply keeps_bind.
  { destruct (_ >=? _); [apply keeps_query|apply keeps_ret]. }
  intros prior. destruct exp as [expected|].
  - apply keeps_bind; [apply keeps_stmt; intros n t; apply Hs|]. intros []; (apply keeps_bind; [|intros; apply keeps_ret]).
    + by apply keeps_fold.
    + apply keeps_ret.
  - apply keeps_bind; [apply keeps_stmt; intros n t; apply Hh|]. intros _. apply keeps_bind; [by apply keeps_fold|].
    intros _. apply keeps_ret.
Qed.

Lemma keeps_park_s3 p : keeps both (_park_s3_enqueue p).
Proof. by intros w. Qed.
Lemma keeps_park_push j : keeps both (_park_push_file_enqueue j).
Proof. by intros w. Qed.
Lemma keeps_flush_s3 : keeps both (flush_pending_s3_enqueues others enqueue_at).
Proof using rely blind.
  apply keeps_bind; [by intros w|]. intros l. apply keeps_count_each. intros p. apply keeps_catch; [apply keeps_enqueue|intros; apply keeps_ret].
Qed.
Lemma keeps_flush_push : keeps both (flush_pending_push_file_enqueues others enqueue_at).
Proof using rely blind.
  apply keeps_bind; [by intros w|]. intros l. apply keeps_for_each. intros p. apply keeps_catch; [|intros; apply keeps_ret].
  apply keeps_bind; [apply keeps_enqueue|intros; apply keeps_ret].
Qed.
Lemma keeps_drop_s3 : keeps both (drop_pending_s3_enqueues others s3_at).
Proof using rely. apply keeps_bind; [by intros w|]. intros l. apply keeps_for_each. intros p. apply keeps_best_effort_abort. Qed.
Lemma keeps_drop_push : keeps both drop_pending_push_file_enqueues.
Proof. apply keeps_bind; [by intros w|]. intros l. apply keeps_ret. Qed.

End kept.

#[export] Hint Resolve keeps_stmt keeps_query keeps_nested keeps_commit keeps_rollback keeps_select_active_agent keeps_clear_ledger
  keeps_enqueue keeps_s3_abort keeps_s3_delete keeps_s3_create keeps_presign keeps_best_effort_abort keeps_park_s3 keeps_park_push
  keeps_flush_s3 keeps_flush_push keeps_drop_s3 keeps_drop_push : phaze.
