(* ===== verification/Callbacks.v ===== *)
(** * Who ends a cloud job: [routers/agent_push.py] and the reapers

    The callbacks of the agents and the two age-bounded reapers of
    [compute_agent.py] and [kueue.py], over the sessions of CloudJobs.v. *)
From S2P Require Import Prelude StateErr Selection Breaker CloudJobs.
From stdpp Require Import options.
Local Open Scope Z_scope.

Section handlers.
Context (others : nat -> tables -> tables) (stmt_ok : nat -> bool) (nested_at : nat -> nested_fate).
Context (commit_at : nat -> commit_fate) (agent_at : nat -> option string) (live_at : nat -> string -> bool).
Context (s3_at : nat -> s3_fate) (enqueue_at : nat -> enqueue_fate).
Context (cfg : CloudSettings) (now : datetime).

Abbreviation stmt := (stmt others stmt_ok).
Abbreviation query := (query others stmt_ok).
Abbreviation commit := (commit others commit_at).
Abbreviation rollback := (rollback others).
Abbreviation hold_awaiting_cloud := (hold_awaiting_cloud others stmt_ok cfg now).
Abbreviation clear_ledger_entry := (clear_ledger_entry others stmt_ok nested_at).
Abbreviation enqueue := (enqueue others enqueue_at).

(** The session of a request: an exception rolls it back. *)
Definition request {A} (m : M A) : M A := catch m (fun e => seq! rollback; raise e).

Definition advisory_lock : M unit := query (fun _ _ => tt).

(** A guarded UPDATE of the status. *)
Definition status_cas (file : string) (expected : list CloudJobStatus) (target : CloudJobStatus) (t : tables) : tables * bool :=
  match cloud_job t !! file with
  | Some j =>
      if bool_decide (status j ∈ expected)
      then (set_cloud_job (<[file := Job target (job_backend_id j) (s3_key j) (upload_id j) (staging_bucket j) (attempts j)
                                       (node_loss_redrives j) (cloud_phase j) now]> (cloud_job t)) t, true)
      else (t, false)
  | None => (t, false)
  end.

Definition recorded_backend (file : string) : M (option Backend) :=
  run! id <- query (fun _ t => cloud_job t !! file ≫= job_backend_id);
  ret (resolve_compute_backend cfg id).

Definition build_scratch_path (dir file type : string) : string := dir +:+ "/" +:+ file +:+ "." +:+ type.

(** ** [/pushed] *)

Definition report_pushed (file : string) : M unit :=
  run! f <- query (fun _ t => files t !! file);
  match f with
  | None => ret tt
  | Some f =>
      run! backend <- recorded_backend file;
      match backend with
      | None => ret tt
      | Some b =>
          run! moved <- stmt (fun _ t => status_cas file [SUBMITTED] SUCCEEDED t);
          if moved : bool then
            seq! clear_ledger_entry live_at (push_file_job_key file);
            seq! commit;
            catch (seq! enqueue_process_file others enqueue_at file (default "None"%string (agent_ref b))
                     (Some (build_scratch_path (default "None"%string (scratch_dir b)) file (file_type f)));
                   ret tt)
              (fun _ => ret tt)
          else commit
      end
  end.

(** ** [/failed] *)

Definition report_push_failed (file : string) : M bool :=
  run! f <- query (fun _ t => files t !! file);
  match f with
  | None => ret false
  | Some _ =>
      run! cleared <- hold_awaiting_cloud file (cap_attempts cfg) (Some [SUBMITTED]) None false;
      seq! (if cleared : bool then clear_ledger_entry live_at (push_file_job_key file) else ret tt);
      seq! commit;
      ret cleared
  end.

(** ** [/mismatch] *)

Definition _hold_push_mismatch : M bool := seq! commit; ret false.

Definition _spill_over_cap_push (file : string) : M bool :=
  run! f <- query (fun _ t => files t !! file);
  run! cleared <- (if f is Some _ then hold_awaiting_cloud file (cap_attempts cfg) (Some [SUBMITTED; SUCCEEDED]) None false else ret false);
  if cleared : bool then
    seq! clear_ledger_entry live_at (push_file_job_key file);
    seq! commit;
    ret true
  else seq! commit; ret false.

Definition stamp_attempt (key : string) (n : Z) (t : tables) : tables :=
  match ledger t !! key with
  | Some _ => set_ledger (<[key := Ledger (Some n)]> (ledger t)) t
  | None => t
  end.

Definition _redrive_under_cap_push (file : string) (backend : option Backend) (next_attempt : Z) : M bool :=
  match backend with
  | None => _hold_push_mismatch
  | Some b =>
      run! f <- query (fun _ t => files t !! file);
      match f with
      | None => _hold_push_mismatch
      | Some f =>
          run! agent <- catch (run! a <- select_active_agent others stmt_ok agent_at; ret (Some a))
                          (fun e => match e with NoActiveAgentError => ret None | _ => raise e end);
          match agent with
          | None => _hold_push_mismatch
          | Some a =>
              run! armed <- stmt (fun _ t => status_cas file [SUBMITTED; SUCCEEDED] SUBMITTED t);
              if armed : bool then
                run! j <- lift (_build_push_file_enqueue_kwargs file f a (push_host b, scratch_dir b, ssh_user b));
                seq! enqueue j;
                seq! stmt (fun _ t => (stamp_attempt (push_file_job_key file) next_attempt t, tt));
                seq! commit;
                ret false
              else seq! commit; ret false
          end
      end
  end.

Definition report_push_mismatch (agent file : string) : M bool :=
  let key := push_file_job_key file in
  run! backend <- recorded_backend file;
  if match backend with Some b => negb (bool_decide (agent_ref b = Some agent)) | None => false end then raise Forbidden
  else
    seq! advisory_lock;
    run! current_attempt <- query (fun _ t => default 0 (ledger t !! key ≫= redrive_attempt));
    let next_attempt := current_attempt + 1 in
    if next_attempt >? push_max_attempts cfg then _spill_over_cap_push file
    else _redrive_under_cap_push file backend next_attempt.

(** ** Reapers *)

(** [now - updated_at], assuming UTC, in microseconds. *)
Definition silence (j : CloudJob) : Z := usec now - usec (updated_at j).

Definition get_live_job_keys : M (string -> bool) :=
  nested others nested_at (fun n t => (t, live_at n)) (ret (fun _ => false)) (ret (fun _ => false)).

(** Each row is its own unit of work. *)
Definition per_row (body : M bool) : M bool := catch body (fun _ => seq! rollback; ret false).

Definition skip : M bool := seq! rollback; ret false.

(** [compute_agent.py] *)
Definition _reap_submitted_row (known : gset string) (live_keys : string -> bool) (file : string) : M bool :=
  seq! advisory_lock;
  run! j <- query (fun _ t => cloud_job t !! file);
  match j with
  | None => skip
  | Some j =>
      if negb (bool_decide (status j = SUBMITTED)) then skip
      else if live_keys (push_file_job_key file) then skip
      else if silence j <? cloud_submitted_stale_after_sec cfg * microsecond then skip
      else
        run! spilled <- (if bool_decide (file ∈ known)
                         then hold_awaiting_cloud file (Z.min (attempts j + 1) (cap_attempts cfg)) (Some [SUBMITTED]) None false
                         else ret false);
        if spilled : bool then
          seq! clear_ledger_entry live_at (push_file_job_key file);
          seq! commit;
          ret true
        else skip
  end.

Fixpoint sweep (body : string -> M bool) (rows : list string) : M Z :=
  match rows with
  | [] => ret 0
  | r :: rows' => run! reaped <- per_row (body r); run! n <- sweep body rows'; ret ((if reaped : bool then 1 else 0) + n)
  end.

Definition rows_of (statuses : list CloudJobStatus) (b : Backend) (t : tables) : list string :=
  (filter (fun r => status r.2 ∈ statuses /\ job_backend_id r.2 = Some (backend_id b)) (map_to_list (cloud_job t))).*1.

Definition known_files (rows : list string) (t : tables) : gset string :=
  list_to_set (filter (fun r => is_Some (files t !! r)) rows).

Definition _reap_stranded_submitted (b : Backend) : M Z :=
  run! rows <- query (fun _ t => rows_of [SUBMITTED] b t);
  run! known <- query (fun _ t => known_files rows t);
  run! live_keys <- get_live_job_keys;
  sweep (_reap_submitted_row known live_keys) rows.

(** [kueue.py] *)
Definition _staging_stale_bound_sec (s : CloudJobStatus) : Z :=
  if bool_decide (s = UPLOADING) then cloud_uploading_stale_after_sec cfg else cloud_uploaded_stale_after_sec cfg.

Definition submit_key (file : string) : string := "submit_cloud_job:" +:+ file.

Definition _cleanup_reaped_staging_object (bucket : BucketConfig) (file : string) (u : option string) : M unit :=
  catch
    (seq! match u with
          | Some u => if bool_decide (u = ""%string) then ret tt else abort_multipart_upload others s3_at file u bucket
          | None => ret tt
          end;
     run! current <- catch (run! c <- query (fun _ t => cloud_job t !! file); seq! rollback; ret c) (fun e => seq! rollback; raise e);
     match current with
     | Some c => if bool_decide (status c = AWAITING) && bool_decide (upload_id c = u) then delete_staged_object others s3_at file bucket else ret tt
     | None => ret tt
     end)
    (fun _ => ret tt).

Definition _reap_staging_row (known : gset string) (live_keys : string -> bool) (file : string) : M bool :=
  seq! advisory_lock;
  run! j <- query (fun _ t => cloud_job t !! file);
  match j with
  | None => skip
  | Some j =>
      if negb (bool_decide (status j ∈ STAGING)) then skip
      else if live_keys (if bool_decide (status j = UPLOADING) then s3_upload_key file else submit_key file) then skip
      else if silence j <? _staging_stale_bound_sec (status j) * microsecond then skip
      else
        run! spilled <- (if bool_decide (file ∈ known)
                         then hold_awaiting_cloud file (Z.min (attempts j + 1) (cap_attempts cfg)) (Some [status j]) (upload_id j) true
                         else ret false);
        if spilled : bool then
          seq! clear_ledger_entry live_at (s3_upload_key file);
          seq! (if bool_decide (status j = UPLOADED) then clear_ledger_entry live_at (submit_key file) else ret tt);
          seq! commit;
          match resolve_bucket_config cfg (staging_bucket j) with
          | Some bucket => seq! _cleanup_reaped_staging_object bucket file (upload_id j); ret true
          | None => ret true
          end
        else skip
  end.

Definition _reap_stranded_staging (b : Backend) : M Z :=
  run! rows <- query (fun _ t => rows_of STAGING b t);
  run! known <- query (fun _ t => known_files rows t);
  run! live_keys <- get_live_job_keys;
  sweep (_reap_staging_row known live_keys) rows.

End handlers.

(** ** Slots *)

(** Only files of [S] occupy a slot of [b]. *)
Definition within (b : string) (S : gset string) (t : tables) : Prop := forall f, occ b t f = 1 -> f ∈ S.

Lemma within_blind b S m t : within b S t -> within b S (set_ledger m t).
Proof. done. Qed.
Lemma within_budget b S m t : within b S t -> within b S (set_cloud_budget m t).
Proof. done. Qed.

(** A row written out of the window frees its slot. *)
Lemma within_freed b S t f j : status j ∉ IN_FLIGHT -> within b S t -> within b S (set_cloud_job (<[f := j]> (cloud_job t)) t).
Proof.
  intros Hs Ht g. unfold occ. simpl. destruct (decide (g = f)) as [->|Hne]; [|rewrite lookup_insert_ne by done; apply Ht].
  rewrite lookup_insert_eq. unfold occupies. rewrite (bool_decide_eq_false_2 (status j ∈ IN_FLIGHT)) by done. by rewrite andb_false_r.
Qed.

Lemma awaiting_free : AWAITING ∉ IN_FLIGHT.
Proof. by apply (bool_decide_unpack _). Qed.
Lemma succeeded_free : SUCCEEDED ∉ IN_FLIGHT.
Proof. by apply (bool_decide_unpack _). Qed.

Lemma within_hold b S now f a t : within b S t -> within b S (hold_upsert now f a t).
Proof. intros Ht. unfold hold_upsert. apply within_freed; [|done]. destruct (cloud_job t !! f); apply awaiting_free. Qed.
Lemma within_spill b S now f a e u clr t : within b S t -> within b S (spill_cas now f a e u clr t).1.
Proof.
  intros Ht. unfold spill_cas. destruct (cloud_job t !! f) as [j|]; [|done]. destruct (_ && _); [|done].
  apply within_freed; [apply awaiting_free|done].
Qed.
Lemma within_succeeded b S now f e t : within b S t -> within b S (status_cas now f e SUCCEEDED t).1.
Proof.
  intros Ht. unfold status_cas. destruct (cloud_job t !! f) as [j|]; [|done]. destruct (bool_decide _); [|done].
  apply within_freed; [apply succeeded_free|done].
Qed.

#[export] Hint Resolve within_blind within_budget within_hold within_spill within_succeeded : phaze.

(** One step of a proof that a handler keeps [both P]. *)
Ltac keep_step :=
  match goal with
  | |- forall _, _ => intro
  | |- keeps _ (bind _ _) => apply keeps_bind
  | |- keeps _ (catch _ _) => apply keeps_catch
  | |- keeps _ (for_each _ _) => apply keeps_for_each
  | |- keeps _ (count_each _ _) => apply keeps_count_each
  | |- keeps _ (match ?x with _ => _ end) => destruct x
  | |- keeps _ _ => solve [eauto with phaze]
  end.
Ltac keep := repeat keep_step.

Section slots.
Context (others : nat -> tables -> tables) (stmt_ok : nat -> bool) (nested_at : nat -> nested_fate).
Context (commit_at : nat -> commit_fate) (agent_at : nat -> option string) (live_at : nat -> string -> bool).
Context (s3_at : nat -> s3_fate) (enqueue_at : nat -> enqueue_fate).
Context (cfg : CloudSettings) (now : datetime).
Context (b : string) (S : gset string) (rely : forall n t, within b S t -> within b S (others n t)).

Abbreviation kept m := (keeps (both (within b S)) m).

Lemma kept_hold f a e u clr : kept (hold_awaiting_cloud others stmt_ok cfg now f a e u clr).
Proof using rely. apply keeps_hold; auto with phaze. Qed.
#[local] Hint Resolve kept_hold : phaze.

Lemma kept_sweep body rows : (forall r, kept (body r)) -> kept (sweep others body rows).
Proof using rely. intros Hb. induction rows as [|r rows IH]; simpl; [apply keeps_ret|]. unfold per_row. keep. Qed.

(** C25: only the drain takes slots of a backend.  The single writer of
    [awaiting], the callbacks of a push that ends and both reapers never make a
    file occupy a slot of a backend it did not occupy, however they interleave
    with other sessions that do not either, whatever fails and however often it
    is retried. *)
Theorem callbacks_never_take_a_slot file backend :
  kept (request others (report_pushed others stmt_ok nested_at commit_at live_at enqueue_at cfg now file)) /\
  kept (request others (report_push_failed others stmt_ok nested_at commit_at live_at cfg now file)) /\
  kept (_spill_over_cap_push others stmt_ok nested_at commit_at live_at cfg now file) /\
  kept (_reap_stranded_submitted others stmt_ok nested_at commit_at live_at cfg now backend) /\
  kept (_reap_stranded_staging others stmt_ok nested_at commit_at live_at s3_at cfg now backend) /\
  (forall attempts_ expect upload clear, kept (hold_awaiting_cloud others stmt_ok cfg now file attempts_ expect upload clear)).
Proof using rely.
  split_and!.
  - unfold request, report_pushed, recorded_backend, enqueue_process_file. keep.
  - unfold request, report_push_failed. keep.
  - unfold _spill_over_cap_push. keep.
  - unfold _reap_stranded_submitted, get_live_job_keys. keep. apply kept_sweep. intros r.
    unfold _reap_submitted_row, advisory_lock, skip. keep.
  - unfold _reap_stranded_staging, get_live_job_keys. keep. apply kept_sweep. intros r.
    unfold _reap_staging_row, advisory_lock, skip, _cleanup_reaped_staging_object. keep.
  - auto with phaze.
Qed.
End slots.

Lemma callbacks_never_take_a_slot_witness :
  let a1 := MkBackend "a1" 10 1 (KCompute (Some "vox") (Some "vox.lan") (Some "/scratch") None) in
  let t := Tables {["f" := File "/media/f.mp3" "mp3" 1000 0 None]} {["f" := Job SUBMITTED (Some "a1") None None None 0 0 None (Datetime true 0)]} ∅ ∅ ∅ in
  let w' := (request (fun _ t => t) (report_pushed (fun _ t => t) (fun _ => true) (fun _ => NestedOk) (fun _ => Committed) (fun _ _ => false)
               (fun _ => EnqJob) (demo_settings [a1]) (Datetime true 60) "f") (empty_world t)).1 in
  map job_function (broker w') = ["process_file"] /\ within "a1" {["f"]} (committed w').
Proof.
  intros a1 t w'. split; [vm_compute; reflexivity|].
  destruct (callbacks_never_take_a_slot (fun _ t => t) (fun _ => true) (fun _ => NestedOk) (fun _ => Committed) (fun _ _ => false)
    (fun _ => S3Done) (fun _ => EnqJob) (demo_settings [a1]) (Datetime true 60) "a1" {["f"]} ltac:(done) "f" a1) as [H _].
  assert (Ht : within "a1" {["f"]} t).
  { intros g. unfold occ, t. cbn [cloud_job]. destruct (decide (g = "f"%string)) as [->|Hne]; [set_solver|].
    by rewrite lookup_singleton_ne. }
  destruct (H (empty_world t) (conj Ht Ht)) as [Hc _]. exact Hc.
Defined.

(** ** Chains *)

(** The row rests with its budget spent. *)
Definition parked_spent (cfg : CloudSettings) (t : tables) (f : string) : bool :=
  match cloud_job t !! f with
  | Some j => bool_decide (status j = AWAITING) && (attempts j >=? cap_attempts cfg)
  | None => false
  end.

Definition chains (t : tables) (f : string) : Z :=
  match cloud_budget t !! f with Some b => chains_spent b | None => 0 end.

Lemma chains_record now f a l t g :
  chains (set_cloud_budget (record_cloud_budget_spent now f a l (cloud_budget t)) t) g = chains t g + (if bool_decide (g = f) then 1 else 0).
Proof.
  unfold chains, record_cloud_budget_spent. simpl. destruct (decide (g = f)) as [->|Hne].
  - rewrite lookup_insert_eq, bool_decide_eq_true_2 by done. destruct (cloud_budget t !! f); simpl; lia.
  - rewrite lookup_insert_ne, bool_decide_eq_false_2 by done. lia.
Qed.

Section charge.
Context (stmt_ok : nat -> bool) (cfg : CloudSettings) (now : datetime) (file : string).

Abbreviation alone := (fun (_ : nat) (t : tables) => t).

(** The fold charges exactly the edge. *)
Lemma fold_charges a prior w :
  poisoned w = false ->
  let (w', r) := _fold_spent_budget_if_edge alone stmt_ok cfg now file a prior w in
  let edge := (a >=? cap_attempts cfg) && negb match prior with
                | Some p => bool_decide (p_status p = AWAITING) && (p_attempts p >=? cap_attempts cfg) | None => false end in
  committed w' = committed w /\ cloud_job (view w') = cloud_job (view w) /\
  match r with
  | Raise _ => poisoned w' = true
  | Ok _ => poisoned w' = false /\ forall g, chains (view w') g = chains (view w) g + (if edge && bool_decide (g = file) then 1 else 0)
  end.
Proof.
  intros Hp. unfold _fold_spent_budget_if_edge. rewrite Z.geb_leb, Z.ltb_antisym.
  destruct (cap_attempts cfg <=? a); simpl; [|split_and!; try done; intros; lia].
  destruct (match prior with Some _ => _ | None => _ end); simpl; [split_and!; try done; intros; lia|].
  unfold stmt, elapse. simpl. rewrite Hp. destruct (stmt_ok (calls w)); simpl; [|done].
  split_and!; [done|done|done|]. intros g. apply chains_record.
Qed.
(** What a write through [hold_awaiting_cloud] must find. *)
Definition expected_row (t : tables) (exp : option (list CloudJobStatus)) (u : option string) : Prop :=
  match exp with
  | None => True
  | Some l => exists j, cloud_job t !! file = Some j /\ status j ∈ l /\ forall x, u = Some x -> upload_id j = Some x
  end.

Lemma spill_cas_spec a l u clr t :
  let (t', moved) := spill_cas now file a l u clr t in
  (moved = true <-> expected_row t (Some l) u) /\ (moved = false -> t' = t) /\
  (moved = true -> exists j, t' = set_cloud_job (<[file := j]> (cloud_job t)) t /\ status j = AWAITING /\ attempts j = a).
Proof.
  unfold spill_cas, expected_row. destruct (cloud_job t !! file) as [j|]; [|naive_solver].
  destruct (bool_decide (status j ∈ l)) eqn:Hl; simpl; [apply bool_decide_eq_true in Hl|apply bool_decide_eq_false in Hl; naive_solver].
  destruct (match u with Some _ => _ | None => _ end) eqn:Hu.
  - split; [|split; [done|]]; [|intros _; by eexists]. split; [|done]. intros _. exists j. split_and!; [done|done|].
    intros x ->. by apply bool_decide_eq_true in Hu.
  - split; [|split; [done|done]]. split; [done|]. intros (j' & [= <-] & _ & Hx). destruct u as [u|]; [|done].
    rewrite bool_decide_eq_true_2 in Hu by by apply Hx. done.
Qed.

Lemma hold_upsert_spec a t : exists j, hold_upsert now file a t = set_cloud_job (<[file := j]> (cloud_job t)) t /\ status j = AWAITING /\ attempts j = a.
Proof. unfold hold_upsert. eexists. split; [done|]. by destruct (cloud_job t !! file). Qed.

Lemma stmt_alone {A} (q : nat -> tables -> tables * A) w :
  poisoned w = false ->
  stmt alone stmt_ok q w =
  if stmt_ok (calls w) then let (t, x) := q (calls w) (view w) in (set_view t (tick w), Ok x) else (poison (tick w), Raise DbError).
Proof. intros Hp. unfold stmt. simpl. rewrite Hp. by destruct (stmt_ok (calls w)). Qed.

(** The fold after the row [j] was written. *)
Lemma write_then_fold a prior w w1 j :
  poisoned w1 = false -> committed w1 = committed w ->
  view w1 = set_cloud_job (<[file := j]> (cloud_job (view w))) (view w) -> status j = AWAITING -> attempts j = a ->
  ((a >=? cap_attempts cfg) = true ->
   match prior with
   | Some p => bool_decide (p_status p = AWAITING) && (p_attempts p >=? cap_attempts cfg)
   | None => false
   end = parked_spent cfg (view w) file) ->
  let (w', r) := _fold_spent_budget_if_edge alone stmt_ok cfg now file a prior w1 in
  committed w' = committed w /\
  match r with
  | Raise _ => poisoned w' = true
  | Ok _ =>
      poisoned w' = false /\ (exists j, cloud_job (view w') !! file = Some j /\ status j = AWAITING /\ attempts j = a) /\
      chains (view w') file =
        chains (view w) file + (if parked_spent cfg (view w') file && negb (parked_spent cfg (view w) file) then 1 else 0) /\
      forall g, g <> file -> chains (view w') g = chains (view w) g /\ cloud_job (view w') !! g = cloud_job (view w) !! g
  end.
Proof.
  intros Hp Hc Hv Hs Ha Hprior. pose proof (fold_charges a prior w1 Hp) as Hf.
  destruct (_fold_spent_budget_if_edge _ _ _ _ _ _ _ _) as [w' r]. cbv zeta in Hf. destruct Hf as (Hc' & Hj & Hr).
  rewrite Hv in Hj. split; [congruence|]. destruct r as [[]|e]; [|done]. destruct Hr as [Hp' Hch]. split; [done|].
  assert (Hrow : cloud_job (view w') !! file = Some j) by (rewrite Hj; apply lookup_insert_eq).
  assert (Hback : forall g, chains (view w1) g = chains (view w) g) by (intros g; by rewrite Hv).
  split; [by exists j|]. split.
  - rewrite Hch, Hback, (bool_decide_eq_true_2 (file = file)), andb_true_r by done. unfold parked_spent at 1.
    rewrite Hrow, Hs, Ha, bool_decide_eq_true_2 by done. simpl.
    destruct (a >=? cap_attempts cfg); [by rewrite Hprior|done].
  - intros g Hg. rewrite Hch, Hback, bool_decide_eq_false_2, andb_false_r by done. split; [lia|].
    rewrite Hj. simpl. by rewrite lookup_insert_ne.
Qed.

Definition spent_before (prior : option _PriorChain) : bool :=
  match prior with Some p => bool_decide (p_status p = AWAITING) && (p_attempts p >=? cap_attempts cfg) | None => false end.

(** What a write of the row through the writer may leave of [w]. *)
Definition charged (a : Z) (exp : option (list CloudJobStatus)) (u : option string) (w w' : world) (r : outcome cexn bool) : Prop :=
  committed w' = committed w /\
  match r with
  | Raise _ => poisoned w' = true
  | Ok moved =>
      poisoned w' = false /\ (moved = true <-> expected_row (view w) exp u) /\ (moved = false -> view w' = view w) /\
      (moved = true -> exists j, cloud_job (view w') !! file = Some j /\ status j = AWAITING /\ attempts j = a) /\
      chains (view w') file =
        chains (view w) file + (if moved && parked_spent cfg (view w') file && negb (parked_spent cfg (view w) file) then 1 else 0) /\
      forall g, g <> file -> chains (view w') g = chains (view w) g /\ cloud_job (view w') !! g = cloud_job (view w) !! g
  end.

Section write.
Context (a : Z) (w w1 : world) (prior : option _PriorChain).
Context (Hp : poisoned w1 = false) (Hc : committed w1 = committed w) (Hv : view w1 = view w).
Context (Hprior : (a >=? cap_attempts cfg) = true -> spent_before prior = parked_spent cfg (view w) file).

Lemma row_written j exp u : status j = AWAITING -> attempts j = a -> expected_row (view w) exp u ->
  let (w', o) := (seq! _fold_spent_budget_if_edge alone stmt_ok cfg now file a prior; ret true)
                   (set_view (set_cloud_job (<[file := j]> (cloud_job (view w))) (view w)) (tick w1)) in
  charged a exp u w w' o.
Proof using Hp Hc Hprior.
  intros Hs Ha He. assert (Hf := write_then_fold a prior w (set_view (set_cloud_job (<[file := j]> (cloud_job (view w))) (view w)) (tick w1)) j Hp Hc eq_refl Hs Ha Hprior).
  unfold bind. destruct (_fold_spent_budget_if_edge _ _ _ _ _ _ _ _) as [w' [[]|e]]; [|done]. destruct Hf as (? & ? & ? & ? & ?). by split_and!.
Qed.

Lemma spill_charges l u clr :
  let (w', r) := (run! wrote <- stmt alone stmt_ok (fun _ t => spill_cas now file a l u clr t);
                  seq! (if wrote : bool then _fold_spent_budget_if_edge alone stmt_ok cfg now file a prior else ret tt); ret wrote) w1 in
  charged a (Some l) u w w' r.
Proof using Hp Hc Hv Hprior.
  unfold bind at 1. rewrite stmt_alone, Hv by done. pose proof (spill_cas_spec a l u clr (view w)) as Hs. destruct (stmt_ok (calls w1)); [|done].
  destruct (spill_cas now file a l u clr (view w)) as [t' moved]. destruct Hs as (Hm & Hno & Hyes). destruct moved.
  - destruct (Hyes eq_refl) as (j & -> & Hst & Hat). apply (row_written j); [done|done|by apply Hm].
  - rewrite (Hno eq_refl). unfold bind, ret, charged. simpl. split_and!; try done. lia.
Qed.

Lemma hold_charges u :
  let (w', r) := (seq! stmt alone stmt_ok (fun _ t => (hold_upsert now file a t, tt));
                  seq! _fold_spent_budget_if_edge alone stmt_ok cfg now file a prior; ret true) w1 in
  charged a None u w w' r.
Proof using Hp Hc Hv Hprior.
  unfold bind at 1. rewrite stmt_alone, Hv by done. destruct (stmt_ok (calls w1)); [|done].
  destruct (hold_upsert_spec a (view w)) as (j & -> & Hst & Hat). by apply (row_written j).
Qed.
End write.

(** C13: a burned-out cloud chain is charged exactly once.  A write through the
    single [awaiting] writer either raises, and then nothing of it can commit,
    or moves the row exactly when it finds what it expects, and then the
    lifetime ledger gains one chain exactly when the row newly rests with its
    budget spent; nothing else changes, and nothing is committed. *)
Theorem chain_charged_once a exp u clr w :
  poisoned w = false ->
  let (w', r) := hold_awaiting_cloud alone stmt_ok cfg now file a exp u clr w in
  committed w' = committed w /\
  match r with
  | Raise _ => poisoned w' = true
  | Ok moved =>
      poisoned w' = false /\ (moved = true <-> expected_row (view w) exp u) /\ (moved = false -> view w' = view w) /\
      (moved = true -> exists j, cloud_job (view w') !! file = Some j /\ status j = AWAITING /\ attempts j = a) /\
      chains (view w') file =
        chains (view w) file + (if moved && parked_spent cfg (view w') file && negb (parked_spent cfg (view w) file) then 1 else 0) /\
      forall g, g <> file -> chains (view w') g = chains (view w) g /\ cloud_job (view w') !! g = cloud_job (view w) !! g
  end.
Proof.
  intros Hp. unfold hold_awaiting_cloud. unfold bind at 1.
  set (q := fun (_ : nat) (t : tables) => match cloud_job t !! file with Some j => Some (Prior (status j) (attempts j) (node_loss_redrives j)) | None => None end).
  assert (Hprior : spent_before (q 0%nat (view w)) = parked_spent cfg (view w) file) by (unfold q, parked_spent; by destruct (cloud_job (view w) !! file)).
  assert (Hread : forall w1 pr, poisoned w1 = false -> committed w1 = committed w -> view w1 = view w ->
            ((a >=? cap_attempts cfg) = true -> spent_before pr = parked_spent cfg (view w) file) ->
            let (w', r) := (match exp with
                            | Some l => run! wrote <- stmt alone stmt_ok (fun _ t => spill_cas now file a l u clr t);
                                        seq! (if wrote : bool then _fold_spent_budget_if_edge alone stmt_ok cfg now file a pr else ret tt); ret wrote
                            | None => seq! stmt alone stmt_ok (fun _ t => (hold_upsert now file a t, tt));
                                      seq! _fold_spent_budget_if_edge alone stmt_ok cfg now file a pr; ret true
                            end) w1 in charged a exp u w w' r).
  { intros w1 pr H1 H2 H3 H4. destruct exp as [l|]; [by apply spill_charges|by apply hold_charges]. }
  destruct (a >=? cap_attempts cfg) eqn:Hcap; [unfold query; rewrite stmt_alone by done; destruct (stmt_ok (calls w)); [|done]|]; by apply Hread.
Qed.
End charge.

Lemma chain_charged_once_witness :
  let row := Job RUNNING (Some "burst"%string) None None None 3 0 None (Datetime true 0) in
  let w := empty_world (Tables ∅ {["f" := row]} ∅ ∅ ∅) in
  let w' := (hold_awaiting_cloud (fun _ t => t) (fun _ => true) (demo_settings []) (Datetime true 60) "f" 3 (Some [SUBMITTED; RUNNING]) None true w).1 in
  parked_spent (demo_settings []) (view w') "f" = true /\
  chains (view w') "f" = chains (view w) "f" + (if true && parked_spent (demo_settings []) (view w') "f" && negb (parked_spent (demo_settings []) (view w) "f") then 1 else 0).
Proof.
  intros row w w'. split; [vm_compute; reflexivity|].
  pose proof (chain_charged_once (fun _ => true) (demo_settings []) (Datetime true 60) "f" 3 (Some [SUBMITTED; RUNNING]) None true w eq_refl) as H.
  assert (Hr : (hold_awaiting_cloud (fun _ t => t) (fun _ => true) (demo_settings []) (Datetime true 60) "f" 3 (Some [SUBMITTED; RUNNING]) None true w).2 = Ok true)
    by (vm_compute; reflexivity).
  rewrite (pair_ok _ _ Hr) in H. destruct H as (_ & _ & _ & _ & _ & H & _). exact H.
Defined.

(** ** The push budget *)

(** One request of its own session, everything else answering well; [live]:
    whether the broker still holds the job of a key that is cleared. *)
Definition answer {A} (m : M A) (t : tables) : tables := committed (request (fun _ t => t) m (empty_world t)).1.

Section push_loop.
Context (cfg : CloudSettings) (now : datetime) (fs ref file : string) (live : bool) (fr : FileRecord) (b : Backend).

Definition pushed : tables -> tables :=
  answer (report_pushed (fun _ t => t) (fun _ => true) (fun _ => NestedOk) (fun _ => Committed) (fun _ _ => live) (fun _ => EnqJob) cfg now file).
Definition mismatch : tables -> tables :=
  answer (report_push_mismatch (fun _ t => t) (fun _ => true) (fun _ => NestedOk) (fun _ => Committed) (fun _ => Some fs) (fun _ _ => live)
            (fun _ => EnqJob) cfg now ref file).

(** A push arrives and its hash is found wrong. *)
Definition bad_round (t : tables) : tables := mismatch (pushed t).

(** The row of the file, its backend, and the counter of its push ledger row. *)
Definition push_state (s : CloudJobStatus) (k : option Z) (t : tables) : Prop :=
  files t !! file = Some fr /\
  (exists j, cloud_job t !! file = Some j /\ status j = s /\ job_backend_id j = Some (backend_id b)) /\
  ledger t !! push_file_job_key file ≫= redrive_attempt = k.

Context (attributed : resolve_compute_backend cfg (Some (backend_id b)) = Some b) (dispatched : agent_ref b = Some ref).
Context (valid : push_payload_valid fr (push_host b, scratch_dir b, ssh_user b) = true).

Lemma process_key_other : process_file_job_key file <> push_file_job_key file.
Proof. intros H. by apply (f_equal (String.get 1)) in H. Qed.

Lemma pushed_state k t : push_state SUBMITTED k t -> push_state SUCCEEDED (if live then k else None) (pushed t).
Proof using attributed.
  intros (Hf & (j & Hj & Hs & Hb) & Hk). unfold pushed, answer, request, catch, report_pushed, recorded_backend, bind, query, stmt, empty_world.
  simpl. rewrite Hf. simpl. rewrite Hj. simpl. rewrite Hb, attributed. simpl. unfold status_cas. rewrite Hj, Hs. simpl.
  split; [by destruct live|]. split.
  - destruct live; simpl; rewrite lookup_insert_eq; eexists; by split_and!.
  - unfold upsert_ledger_entry. simpl. rewrite lookup_insert_ne by apply process_key_other.
    destruct live; simpl; [done|]. by rewrite lookup_delete_eq.
Qed.

Ltac run_mismatch :=
  unfold mismatch, answer, request, report_push_mismatch, recorded_backend, _redrive_under_cap_push, _spill_over_cap_push,
    _hold_push_mismatch, advisory_lock, select_active_agent, CloudJobs.enqueue, CloudJobs.commit, CloudJobs.query, CloudJobs.stmt,
    bind, catch, lift, empty_world, elapse; simpl.

Lemma mismatch_under_cap k t :
  push_state SUCCEEDED k t -> default 0 k + 1 <= push_max_attempts cfg -> push_state SUBMITTED (Some (default 0 k + 1)) (mismatch t).
Proof using attributed dispatched valid.
  intros (Hf & (j & Hj & Hs & Hb) & Hk) Hcap. run_mismatch. rewrite Hj. simpl. rewrite Hb, attributed. simpl.
  rewrite dispatched, bool_decide_eq_true_2 by done. simpl. rewrite Hk.
  destruct (default 0 k + 1 >? push_max_attempts cfg) eqn:Hgt; [rewrite Z.gtb_ltb in Hgt; bool_prop; lia|].
  simpl. rewrite Hf. simpl. unfold status_cas. rewrite Hj, Hs. simpl. unfold _build_push_file_enqueue_kwargs. rewrite valid. simpl.
  unfold stamp_attempt, upsert_ledger_entry. simpl. rewrite lookup_insert_eq. split; [done|]. split.
  - simpl. rewrite lookup_insert_eq. eexists. by split_and!.
  - simpl. by rewrite lookup_insert_eq.
Qed.

Lemma mismatch_over_cap k t :
  push_state SUCCEEDED k t -> push_max_attempts cfg < default 0 k + 1 -> parked_spent cfg (mismatch t) file = true.
Proof using attributed dispatched.
  intros (Hf & (j & Hj & Hs & Hb) & Hk) Hcap. run_mismatch. rewrite Hj. simpl. rewrite Hb, attributed. simpl.
  rewrite dispatched, bool_decide_eq_true_2 by done. simpl. rewrite Hk.
  destruct (default 0 k + 1 >? push_max_attempts cfg) eqn:Hgt; [|rewrite Z.gtb_ltb in Hgt; bool_prop; lia].
  simpl. rewrite Hf. simpl. unfold hold_awaiting_cloud. rewrite Z.geb_leb, Z.leb_refl.
  unfold CloudJobs.query, CloudJobs.stmt, bind, elapse. simpl. rewrite Hj. simpl. unfold spill_cas. rewrite Hj, Hs. simpl.
  unfold _fold_spent_budget_if_edge. rewrite Z.ltb_irrefl. simpl. unfold CloudJobs.stmt, elapse. simpl.
  unfold parked_spent. destruct live; simpl; rewrite lookup_insert_eq; simpl; apply Z.geb_le; lia.
Qed.
End push_loop.

(** The re-push budget.  While the push job is still held by the broker when
    its arrival is recorded, a file whose hash never matches is pushed again at
    most [push_max_attempts] times and then rests with its cloud budget spent. *)
Theorem mismatch_budget_spills cfg now fs ref file fr b t n :
  resolve_compute_backend cfg (Some (backend_id b)) = Some b -> agent_ref b = Some ref ->
  push_payload_valid fr (push_host b, scratch_dir b, ssh_user b) = true ->
  push_state file fr b SUBMITTED None t -> Z.of_nat n = push_max_attempts cfg ->
  (forall m, (0 < m <= n)%nat -> push_state file fr b SUBMITTED (Some (Z.of_nat m)) (Nat.iter m (bad_round cfg now fs ref file true) t)) /\
  parked_spent cfg (bad_round cfg now fs ref file true (Nat.iter n (bad_round cfg now fs ref file true) t)) file = true.
Proof.
  intros Hatt Hdis Hval Ht Hn.
  assert (Hround : forall m, (m <= n)%nat -> push_state file fr b SUBMITTED (if decide (m = 0)%nat then None else Some (Z.of_nat m))
                                 (Nat.iter m (bad_round cfg now fs ref file true) t)).
  { induction m as [|m IH]; intros Hm; [done|]. simpl. specialize (IH ltac:(lia)).
    apply (pushed_state cfg now file true fr b Hatt) in IH. simpl in IH.
    apply (mismatch_under_cap cfg now fs ref file true fr b Hatt Hdis Hval) in IH; [|destruct (decide (m = 0)%nat); simpl; lia].
    unfold bad_round at 1. destruct (decide (m = 0)%nat) as [->|Hne]; [exact IH|]. simpl in IH.
    by replace (Z.of_nat (S m)) with (Z.of_nat m + 1) by lia. }
  split.
  - intros m Hm. specialize (Hround m ltac:(lia)). by destruct (decide (m = 0)%nat); [lia|].
  - specialize (Hround n ltac:(lia)). apply (pushed_state cfg now file true fr b Hatt) in Hround. simpl in Hround.
    eapply (mismatch_over_cap cfg now fs ref file true fr b Hatt Hdis); [exact Hround|]. destruct (decide (n = 0)%nat); simpl; lia.
Qed.

(** The counter is lost when the arrival is recorded after the push job left
    the broker: then [/pushed] deletes the ledger row that carries it, every
    mismatch is the first one, and the file is pushed again for ever. *)
Theorem pushed_resets_mismatch_budget cfg now fs ref file fr b t n :
  resolve_compute_backend cfg (Some (backend_id b)) = Some b -> agent_ref b = Some ref ->
  push_payload_valid fr (push_host b, scratch_dir b, ssh_user b) = true ->
  push_state file fr b SUBMITTED None t -> 1 <= push_max_attempts cfg ->
  push_state file fr b SUBMITTED (Some 1) (Nat.iter (S n) (bad_round cfg now fs ref file false) t).
Proof.
  intros Hatt Hdis Hval Ht Hmax.
  assert (Hround : forall k t, push_state file fr b SUBMITTED k t -> push_state file fr b SUBMITTED (Some 1) (bad_round cfg now fs ref file false t)).
  { intros k t' Hk. apply (pushed_state cfg now file false fr b Hatt) in Hk.
    by apply (mismatch_under_cap cfg now fs ref file false fr b Hatt Hdis Hval) in Hk. }
  induction n as [|n IH]; simpl; [by eapply Hround|]. by eapply Hround.
Qed.

Definition demo_compute : Backend := MkBackend "a1" 10 1 (KCompute (Some "vox") (Some "vox.lan") (Some "/scratch") None).
Definition demo_file : FileRecord := File "/media/f.mp3" "mp3" 1000 0 None.
Definition demo_pushing : tables :=
  Tables {["f" := demo_file]} {["f" := Job SUBMITTED (Some "a1"%string) None None None 0 0 None (Datetime true 0)]} ∅ ∅ ∅.

Lemma demo_push_state : push_state "f" demo_file demo_compute SUBMITTED None demo_pushing.
Proof. split; [reflexivity|]. split; [|reflexivity]. eexists. split; [reflexivity|]. by split. Qed.

Lemma mismatch_budget_spills_witness :
  let cfg := demo_settings [demo_compute] in
  let round := bad_round cfg (Datetime true 60) "nas" "vox" "f" true in
  push_max_attempts cfg = 3 /\ parked_spent cfg (round (Nat.iter 3 round demo_pushing)) "f" = true.
Proof.
  intros cfg round. split; [reflexivity|].
  exact (proj2 (mismatch_budget_spills cfg (Datetime true 60) "nas" "vox" "f" demo_file demo_compute demo_pushing 3
    eq_refl eq_refl eq_refl demo_push_state eq_refl)).
Defined.

Lemma pushed_resets_mismatch_budget_witness :
  let cfg := demo_settings [demo_compute] in
  push_state "f" demo_file demo_compute SUBMITTED (Some 1) (Nat.iter 40 (bad_round cfg (Datetime true 60) "nas" "vox" "f" false) demo_pushing).
Proof.
  intros cfg. exact (pushed_resets_mismatch_budget cfg (Datetime true 60) "nas" "vox" "f" demo_file demo_compute demo_pushing 39
    eq_refl eq_refl eq_refl demo_push_state ltac:(done)).
Defined.
