(* ===== verification/UploadReports.v ===== *)
(** * How an upload ends: [services/agent_s3_reports.py]

    The agent's [/uploaded] and [/failed] reports and [redrive_upload] of
    [services/cloud_staging.py], over the sessions of CloudJobs.v.  S3 answers a
    completion as [s3_complete] says, and [queued_at] says whether the broker still
    holds a queued job of a key.  A row the session has loaded keeps the
    attributes of its first load: [redrive_upload] is handed that row. *)
From S2P Require Import Prelude StateErr Selection Breaker CloudJobs Callbacks.
From stdpp Require Import sorting options.
Local Open Scope Z_scope.

(** ** Results *)

Inductive ProtocolOutcome : Type := COMPLETED | HELD | NOOP | SPILLED.

Inductive UploadedReason : Type :=
| ABSENT_OR_LATE | EMPTY_PARTS | ENQUEUE_FAILED | MULTIPART_COMPLETED | SUBMIT_ROUTED | UPLOAD_ID_CAS_MISS.

Inductive UploadFailedReason : Type :=
| NO_AGENT | OVER_CAP_CAS_MISS | REDRIVEN | SPILLED_OVER_CAP | STAGING_UNAVAILABLE | UNDER_CAP_LATE.

Record UploadedResult : Type := Uploaded {
  outcome_ : ProtocolOutcome;
  reason : UploadedReason;
  cleanup_error : option cexn;
  enqueue_error : option cexn;
}.

Record _UploadFailureDecision : Type := FailureDecision { ledger_key : string; attempt : Z; cap_ : Z }.
Definition over_cap (d : _UploadFailureDecision) : bool := attempt d >? cap_ d.

Record UploadFailedResult : Type := UploadFailed {
  failed_outcome : ProtocolOutcome;
  failed_reason : UploadFailedReason;
  decision : _UploadFailureDecision;
  failed_cleanup_error : option cexn;
  hold_error : option cexn;
}.

(** The table has no entry for EMPTY_PARTS. *)
Definition _UPLOADED_OUTCOME_BY_REASON (r : UploadedReason) : option ProtocolOutcome :=
  match r with
  | ABSENT_OR_LATE => Some NOOP
  | ENQUEUE_FAILED => Some HELD
  | MULTIPART_COMPLETED => Some COMPLETED
  | SUBMIT_ROUTED => Some COMPLETED
  | UPLOAD_ID_CAS_MISS => Some NOOP
  | EMPTY_PARTS => None
  end.

Definition _UPLOAD_FAILED_OUTCOME_BY_REASON (r : UploadFailedReason) : ProtocolOutcome :=
  match r with
  | NO_AGENT => HELD
  | OVER_CAP_CAS_MISS => NOOP
  | REDRIVEN => COMPLETED
  | SPILLED_OVER_CAP => SPILLED
  | STAGING_UNAVAILABLE => HELD
  | UNDER_CAP_LATE => NOOP
  end.

Definition _uploaded_result (r : UploadedReason) (spilled : bool) (cleanup enqueue : option cexn) : UploadedResult :=
  Uploaded (match _UPLOADED_OUTCOME_BY_REASON r with
            | Some o => o
            | None => if spilled then SPILLED else NOOP
            end) r cleanup enqueue.

Definition _upload_failed_result (r : UploadFailedReason) (d : _UploadFailureDecision) (cleanup hold : option cexn) : UploadFailedResult :=
  UploadFailed (_UPLOAD_FAILED_OUTCOME_BY_REASON r) r d cleanup hold.

Definition cleared (r : UploadFailedResult) : bool := match failed_outcome r with SPILLED => true | _ => false end.

(** ** Decisions *)

Definition _upload_id_to_complete (j : CloudJob) : option string :=
  if bool_decide (status j = UPLOADING) then upload_id j else None.

Definition _decide_upload_failure (file : string) (row : option LedgerRow) (cap : Z) : _UploadFailureDecision :=
  FailureDecision (s3_upload_key file) (default 0 (row ≫= redrive_attempt) + 1) cap.

(** [sorted(parts)]: by number, then by ETag. *)
Definition part_le (p q : Z * string) : Prop := p.1 < q.1 \/ p.1 = q.1 /\ string_le p.2 q.2.
#[export] Instance part_le_dec : RelDecision part_le.
Proof. intros p q. unfold part_le. apply _. Defined.
Definition sorted_parts (parts : list (Z * string)) : list (Z * string) := merge_sort part_le parts.

(** [registry.py]: the kind of the cloud lane. *)
Definition kind (b : Backend) : string :=
  match config b with KLocal => "local" | KCompute _ _ _ _ => "compute" | KKueue _ => "kueue" end.

Definition cloud_enabled (cfg : CloudSettings) : bool := existsb (fun b => negb (String.eqb (kind b) "local")) (registry cfg).

Definition resolved_non_local_kind (cfg : CloudSettings) : string :=
  if negb (cloud_enabled cfg) then "local"
  else
    let non_local := List.filter (fun b => negb (String.eqb (kind b) "local")) (registry cfg) in
    if existsb (fun b => String.eqb (kind b) "kueue") non_local then "kueue"
    else match non_local with b :: _ => kind b | [] => "local" end.

(** [cloud_staging.py]: the buckets a backend is bound to. *)
Definition _bucket_ids_bound_to_backend (cfg : CloudSettings) (id : string) : list string :=
  match list_find (fun b => backend_id b = id /\ kueue_buckets b <> []) (registry cfg) with
  | Some (_, b) => kueue_buckets b
  | None => []
  end.

Definition truthy (s : option string) : option string := if falsy s then None else s.

Definition _redrive_bucket (digest : string -> Z) (cfg : CloudSettings) (existing : option CloudJob) (file : string) : outcome cexn (option BucketConfig) :=
  match existing with
  | None => Ok None
  | Some j =>
      match truthy (staging_bucket j) with
      | Some id => Ok (resolve_bucket_config cfg (Some id))
      | None =>
          match truthy (job_backend_id j) with
          | None => Ok None
          | Some b =>
              match _bucket_ids_bound_to_backend cfg b with
              | [] => Ok None
              | ids => try! id <- pick_bucket (digest file) ids; Ok (resolve_bucket_config cfg (Some id))
              end
          end
      end
  end.

Section reports.
Context (others : nat -> tables -> tables) (stmt_ok : nat -> bool) (nested_at : nat -> nested_fate).
Context (commit_at : nat -> commit_fate) (agent_at : nat -> option string) (queued_at : nat -> string -> bool).
Context (s3_create : nat -> create_fate) (s3_at : nat -> s3_fate) (s3_complete : nat -> string -> complete_fate).
Context (enqueue_at : nat -> enqueue_fate) (digest : string -> Z) (cfg : CloudSettings) (now : datetime).

Abbreviation stmt := (stmt others stmt_ok).
Abbreviation query := (query others stmt_ok).
Abbreviation commit := (commit others commit_at).
Abbreviation rollback := (rollback others).
Abbreviation hold_awaiting_cloud := (hold_awaiting_cloud others stmt_ok cfg now).
Abbreviation clear_ledger_entry := (clear_ledger_entry others stmt_ok nested_at).
Abbreviation enqueue := (enqueue others enqueue_at).
Abbreviation abort_multipart_upload := (abort_multipart_upload others s3_at).
Abbreviation delete_staged_object := (delete_staged_object others s3_at).

(** [s3_staging.py] *)
Definition complete_multipart_upload (file u : string) (parts : list (Z * string)) (b : BucketConfig) : M unit := fun w =>
  let answer := s3_complete (calls w) u in
  let w1 := log_s3 (CompleteMultipart file (bucket_id b) u (sorted_parts parts) answer) (elapse others w) in
  match answer with
  | Assembled | NoSuchUpload => (w1, Ok tt)
  | CompleteFails reached => (w1, Raise (s3_error reached))
  end.

(** ** [/uploaded] *)

Definition _best_effort_cleanup (file : string) (u : option string) (b : BucketConfig) : M (option cexn) :=
  catch (seq! match truthy u with Some u => abort_multipart_upload file u b | None => ret tt end;
         seq! delete_staged_object file b;
         ret None)
    (fun e => ret (Some e)).

(** The generation-pinned compare-and-set. *)
Definition uploaded_cas (file u : string) (t : tables) : tables * bool :=
  match cloud_job t !! file with
  | Some j => if bool_decide (upload_id j = Some u) then status_cas now file [UPLOADING] UPLOADED t else (t, false)
  | None => (t, false)
  end.

Definition process_uploaded (file : string) (parts : list (Z * string)) : M UploadedResult :=
  run! row <- query (fun _ t => cloud_job t !! file);
  match row with
  | None => ret (_uploaded_result ABSENT_OR_LATE false None None)
  | Some j =>
      match _upload_id_to_complete j with
      | None => ret (_uploaded_result ABSENT_OR_LATE false None None)
      | Some u =>
          let bucket := resolve_bucket_config cfg (staging_bucket j) in
          match parts with
          | [] =>
              run! f <- query (fun _ t => files t !! file);
              run! gone <- (if f is Some _ then hold_awaiting_cloud file (cap_attempts cfg) (Some [UPLOADING; UPLOADED]) None true else ret false);
              seq! (if gone : bool then clear_ledger_entry queued_at (s3_upload_key file) else ret tt);
              seq! commit;
              run! err <- (if gone : bool then match bucket with Some b => _best_effort_cleanup file (Some u) b | None => ret None end else ret None);
              ret (_uploaded_result EMPTY_PARTS gone err None)
          | _ =>
              match bucket with
              | None => raise UnresolvableStagingBucketError
              | Some b =>
                  seq! commit;
                  seq! complete_multipart_upload file u parts b;
                  run! moved <- stmt (fun _ t => uploaded_cas file u t);
                  if negb moved then seq! commit; ret (_uploaded_result UPLOAD_ID_CAS_MISS false None None)
                  else
                    seq! clear_ledger_entry queued_at (s3_upload_key file);
                    if String.eqb (resolved_non_local_kind cfg) "kueue" then
                      seq! commit;
                      catch (seq! enqueue (SaqJob "submit_cloud_job" (submit_key file) "controller" 0 None None);
                             ret (_uploaded_result SUBMIT_ROUTED false None None))
                        (fun e => ret (_uploaded_result ENQUEUE_FAILED false None (Some e)))
                    else seq! commit; ret (_uploaded_result MULTIPART_COMPLETED false None None)
              end
          end
      end
  end.

(** ** [redrive_upload]

    [loaded] is the row as this session first saw it, if it did. *)
Definition redrive_upload (loaded : option CloudJob) (file : string) (f : FileRecord) : M unit :=
  run! row <- query (fun _ t => cloud_job t !! file);
  match row with
  | None => raise NoCloudJobToRedriveError
  | Some row =>
      let j := default row loaded in
      run! bucket <- lift (_redrive_bucket digest cfg (Some j) file);
      match bucket with
      | None => raise S3StagingError
      | Some b =>
          seq! match truthy (upload_id j) with
               | Some u => catch (abort_multipart_upload file u b) (fun _ => ret tt)
               | None => ret tt
               end;
          _stage_file_to_s3 others stmt_ok agent_at s3_create s3_at cfg now file f b
      end
  end.

(** ** [/failed] *)

Definition _spill_failed_upload (file : string) (d : _UploadFailureDecision) : M UploadFailedResult :=
  run! row <- query (fun _ t => cloud_job t !! file);
  run! f <- query (fun _ t => files t !! file);
  run! gone <- (if f is Some _ then hold_awaiting_cloud file (cap_attempts cfg) (Some [UPLOADING; UPLOADED]) None true else ret false);
  if negb gone then seq! commit; ret (_upload_failed_result OVER_CAP_CAS_MISS d None None)
  else
    let bucket := row ≫= fun j => resolve_bucket_config cfg (staging_bucket j) in
    seq! clear_ledger_entry queued_at (ledger_key d);
    seq! commit;
    run! err <- match bucket with Some b => _best_effort_cleanup file (row ≫= upload_id) b | None => ret None end;
    ret (_upload_failed_result SPILLED_OVER_CAP d err None).

Definition process_upload_failed (file : string) : M UploadFailedResult :=
  seq! query (fun _ _ => tt);
  run! row <- query (fun _ t => ledger t !! s3_upload_key file);
  let d := _decide_upload_failure file row (push_max_attempts cfg) in
  if over_cap d then _spill_failed_upload file d
  else
    run! f <- query (fun _ t => files t !! file);
    match f with
    | None => raise UnknownUploadFileError
    | Some f =>
        run! j <- query (fun _ t => cloud_job t !! file);
        if match j with Some j => negb (bool_decide (status j = UPLOADING)) | None => true end
        then seq! commit; ret (_upload_failed_result UNDER_CAP_LATE d None None)
        else
          run! held <- catch (seq! redrive_upload j file f; ret None)
            (fun e => match e with
                      | NoActiveAgentError => seq! commit; ret (Some (_upload_failed_result NO_AGENT d None None))
                      | S3StagingError | NoCloudJobToRedriveError =>
                          seq! commit; ret (Some (_upload_failed_result STAGING_UNAVAILABLE d None (Some e)))
                      | _ => raise e
                      end);
          match held with
          | Some r => ret r
          | None =>
              seq! catch (seq! stmt (fun _ t => (stamp_attempt (s3_upload_key file) (attempt d) t, tt)); commit)
                     (fun e => seq! rollback; seq! drop_pending_s3_enqueues others s3_at; raise e);
              seq! flush_pending_s3_enqueues others enqueue_at;
              ret (_upload_failed_result REDRIVEN d None None)
          end
    end.

End reports.

(** ** Only an upload S3 has answered for is [UPLOADED] *)

(** Every [UPLOADED] row carries an upload of [A]. *)
Definition staged (A : string -> option string -> Prop) (t : tables) : Prop :=
  forall f j, cloud_job t !! f = Some j -> status j = UPLOADED -> A f (upload_id j).

(** Another session moves rows to [UPLOADED] for uploads of [A] only. *)
Definition stages_only (A : string -> option string -> Prop) (t t' : tables) : Prop :=
  forall f j, cloud_job t' !! f = Some j -> status j = UPLOADED ->
    A f (upload_id j) \/ exists j0, cloud_job t !! f = Some j0 /\ status j0 = UPLOADED /\ upload_id j0 = upload_id j.

(** S3 assembled the upload, or answered that it holds no such upload. *)
Definition answered (file u : string) (log : list s3_call) : Prop :=
  exists bucket parts, CompleteMultipart file bucket u parts Assembled ∈ log \/ CompleteMultipart file bucket u parts NoSuchUpload ∈ log.

Lemma staged_weaken (A B : string -> option string -> Prop) t : (forall f x, A f x -> B f x) -> staged A t -> staged B t.
Proof. unfold staged. eauto. Qed.

Lemma staged_others A B t t' : (forall f x, A f x -> B f x) -> stages_only A t t' -> staged B t -> staged B t'.
Proof.
  intros HAB Ho Ht f j Hj Hs. destruct (Ho f j Hj Hs) as [|(j0 & Hj0 & Hs0 & <-)]; [auto|]. by apply (Ht f j0).
Qed.

Lemma staged_blind A m t : staged A t -> staged A (set_ledger m t).
Proof. done. Qed.
Lemma staged_budget A m t : staged A t -> staged A (set_cloud_budget m t).
Proof. done. Qed.
Lemma staged_stamp A key n t : staged A t -> staged A (stamp_attempt key n t).
Proof. unfold stamp_attempt. by destruct (ledger t !! key). Qed.

Lemma staged_write A f j t : (status j = UPLOADED -> A f (upload_id j)) -> staged A t -> staged A (set_cloud_job (<[f := j]> (cloud_job t)) t).
Proof.
  intros Hj Ht g i. simpl. destruct (decide (g = f)) as [->|Hne]; [rewrite lookup_insert_eq; by intros [= <-]|].
  rewrite lookup_insert_ne by done. apply Ht.
Qed.

Lemma staged_hold A now f a t : staged A t -> staged A (hold_upsert now f a t).
Proof. intros Ht. apply staged_write; [|done]. by destruct (cloud_job t !! f). Qed.
Lemma staged_spill A now f a e u clr t : staged A t -> staged A (spill_cas now f a e u clr t).1.
Proof.
  intros Ht. unfold spill_cas. destruct (cloud_job t !! f) as [j|]; [|done]. destruct (_ && _); [|done]. by apply staged_write.
Qed.
Lemma staged_restage A now f u b t : staged A t -> staged A (_uploading_cloud_job_upsert now f u b t).
Proof. intros Ht. apply staged_write; [|done]. by destruct (cloud_job t !! f). Qed.
Lemma staged_cas (A : string -> option string -> Prop) now f u t : A f (Some u) -> staged A t -> staged A (uploaded_cas now f u t).1.
Proof.
  intros HA Ht. unfold uploaded_cas, status_cas. destruct (cloud_job t !! f) as [j|]; [|done].
  destruct (bool_decide (upload_id j = Some u)) eqn:Hu; [|done]. apply bool_decide_eq_true in Hu.
  destruct (bool_decide _); [|done]. apply staged_write; [|done]. simpl. by rewrite Hu.
Qed.

#[export] Hint Resolve staged_blind staged_budget staged_stamp staged_hold staged_spill staged_restage : phaze.

Section staging.
Context (others : nat -> tables -> tables) (stmt_ok : nat -> bool) (nested_at : nat -> nested_fate).
Context (commit_at : nat -> commit_fate) (agent_at : nat -> option string) (queued_at : nat -> string -> bool).
Context (s3_create : nat -> create_fate) (s3_at : nat -> s3_fate) (s3_complete : nat -> string -> complete_fate).
Context (enqueue_at : nat -> enqueue_fate) (digest : string -> Z) (cfg : CloudSettings) (now : datetime).
Context (A : string -> option string -> Prop) (rely : forall n t, stages_only A t (others n t)).

Section wider.
Context (B : string -> option string -> Prop) (HAB : forall f x, A f x -> B f x).

Lemma wider_rely n t : staged B t -> staged B (others n t).
Proof using rely HAB. by apply (staged_others A). Qed.
#[local] Hint Resolve wider_rely : phaze.

Lemma kept_hold_staged f a e u clr : keeps (both (staged B)) (hold_awaiting_cloud others stmt_ok cfg now f a e u clr).
Proof using rely HAB. apply keeps_hold; auto with phaze. Qed.
#[local] Hint Resolve kept_hold_staged : phaze.

Lemma kept_cleanup f u b : keeps (both (staged B)) (_best_effort_cleanup others s3_at f u b).
Proof using rely HAB. unfold _best_effort_cleanup. keep. Qed.
#[local] Hint Resolve kept_cleanup : phaze.

Lemma kept_redrive loaded f fr : keeps (both (staged B)) (redrive_upload others stmt_ok agent_at s3_create s3_at digest cfg now loaded f fr).
Proof using rely HAB. unfold redrive_upload, _stage_file_to_s3. keep. Qed.
#[local] Hint Resolve kept_redrive : phaze.

Lemma kept_failed file : keeps (both (staged B)) (request others
  (process_upload_failed others stmt_ok nested_at commit_at agent_at queued_at s3_create s3_at enqueue_at digest cfg now file)).
Proof using rely HAB. unfold request, process_upload_failed, _spill_failed_upload. keep. Qed.

End wider.
End staging.

(** The database and the broker leave the log of S3 calls alone. *)
Section log.
Context (others : nat -> tables -> tables) (L : list s3_call -> Prop).
Abbreviation logged := (fun w => L (s3_log w)).

Lemma logged_stmt stmt_ok {B} (q : nat -> tables -> tables * B) : keeps logged (stmt others stmt_ok q).
Proof. intros w Hw. unfold stmt. destruct (poisoned _); [done|]. destruct (stmt_ok _); [|done]. by destruct (q _ _). Qed.
Lemma logged_nested nested_at {B} (q : nat -> tables -> tables * B) m1 m2 :
  keeps logged m1 -> keeps logged m2 -> keeps logged (nested others nested_at q m1 m2).
Proof.
  intros H1 H2 w Hw. unfold nested. destruct (poisoned _); [by apply H2|]. destruct (nested_at _); [|by apply H1|by apply H2].
  by destruct (q _ _).
Qed.
Lemma logged_commit commit_at : keeps logged (commit others commit_at).
Proof. intros w Hw. unfold commit. destruct (poisoned _); [done|]. by destruct (commit_at _). Qed.
Lemma logged_enqueue enqueue_at j : keeps logged (enqueue others enqueue_at j).
Proof. intros w Hw. unfold enqueue. by destruct (enqueue_at _). Qed.
Lemma logged_clear stmt_ok nested_at blocking k : keeps logged (clear_ledger_entry others stmt_ok nested_at blocking k).
Proof. apply logged_nested; [apply logged_stmt|apply keeps_ret]. Qed.
End log.
#[export] Hint Resolve logged_stmt logged_commit logged_enqueue logged_clear : phaze.

Section answers.
Context (others : nat -> tables -> tables) (stmt_ok : nat -> bool) (nested_at : nat -> nested_fate).
Context (commit_at : nat -> commit_fate) (queued_at : nat -> string -> bool).
Context (s3_at : nat -> s3_fate) (s3_complete : nat -> string -> complete_fate).
Context (enqueue_at : nat -> enqueue_fate) (cfg : CloudSettings) (now : datetime).
Context (A : string -> option string -> Prop) (rely : forall n t, stages_only A t (others n t)) (file : string).

Definition or_answered (log : list s3_call) : string -> option string -> Prop :=
  fun f x => A f x \/ f = file /\ exists u, x = Some u /\ answered file u log.
Definition justified (w : world) : Prop := both (staged (or_answered (s3_log w))) w.

(** After S3 has answered for [u] its row may be staged. *)
Definition or_this (u : string) : string -> option string -> Prop := fun f x => A f x \/ f = file /\ x = Some u.

Lemma both_weaken (B C : string -> option string -> Prop) w : (forall f x, B f x -> C f x) -> both (staged B) w -> both (staged C) w.
Proof. intros H [Hc Hv]. split; by eapply staged_weaken. Qed.

Lemma justified_keeps {B} (m : M B) : keeps (both (staged A)) m -> triple (both (staged A)) m (fun _ => justified) justified.
Proof. intros Hm w Hw. specialize (Hm w Hw). destruct (m w) as [w' [b|e]]; (eapply both_weaken; [|done]); by left. Qed.

Lemma justified_then {B C} (m : M B) (k : B -> M C) :
  keeps (both (staged A)) m -> (forall b, triple (both (staged A)) (k b) (fun _ => justified) justified) ->
  triple (both (staged A)) (bind m k) (fun _ => justified) justified.
Proof.
  intros Hm. apply triples_bind. intros w Hw. specialize (Hm w Hw). destruct (m w) as [w' [b|e]]; [done|].
  eapply both_weaken; [|done]. by left.
Qed.

Lemma justified_tail u {B} (m : M B) :
  keeps (both (staged (or_this u))) m -> keeps (fun w => answered file u (s3_log w)) m ->
  triple (fun w => both (staged (or_this u)) w /\ answered file u (s3_log w)) m (fun _ => justified) justified.
Proof.
  intros Hm Hc w [Hw Hu]. specialize (Hm w Hw). specialize (Hc w Hu). destruct (m w) as [w' [b|e]];
    (eapply both_weaken; [|done]); (intros f x [?|[-> ->]]; [by left|right]; split; [done|]; by exists u).
Qed.

Lemma complete_answers u parts b :
  triple (both (staged A)) (complete_multipart_upload others s3_complete file u parts b)
    (fun _ w => both (staged (or_this u)) w /\ answered file u (s3_log w)) justified.
Proof using rely.
  intros w Hw. assert (He : both (staged A) (elapse others w)) by (destruct Hw; split; by apply (wider_rely others A rely A)).
  unfold complete_multipart_upload.
  destruct (s3_complete (calls w) u) eqn:Ha; (split || idtac);
    try (eapply both_weaken; [|exact He]; by left);
    (exists (bucket_id b), (sorted_parts parts); first [left; by left|right; by left]).
Qed.

Lemma justified_rollback {B} (e : cexn) : triple justified (seq! rollback others; raise e) (fun (_ : B) => justified) justified.
Proof using rely.
  intros w [Hc Hv]. simpl. split; apply (wider_rely others A rely); try done; by left.
Qed.

Lemma report_justified parts : triple (both (staged A))
  (request others (process_uploaded others stmt_ok nested_at commit_at queued_at s3_at s3_complete enqueue_at cfg now file parts))
  (fun _ => justified) justified.
Proof using rely.
  eapply triples_catch; [|intros e; apply justified_rollback].
  pose proof (wider_rely others A rely A ltac:(done)) as HrA.
  pose proof (fun u => wider_rely others A rely (or_this u) (fun f x H => or_introl H)) as HrU.
  assert (HholdA : forall f a e u clr, keeps (both (staged A)) (hold_awaiting_cloud others stmt_ok cfg now f a e u clr)) by (by eapply kept_hold_staged).
  assert (HcleanA : forall f u b, keeps (both (staged A)) (_best_effort_cleanup others s3_at f u b)) by (by eapply kept_cleanup).
  unfold process_uploaded. apply justified_then; [keep|]. intros [j|]; [|apply justified_keeps; keep].
  destruct (_upload_id_to_complete j) as [u|]; [|apply justified_keeps; keep].
  destruct parts as [|p parts]; [apply justified_keeps; keep|].
  destruct (resolve_bucket_config cfg (staging_bucket j)) as [b|]; [|apply justified_keeps; keep].
  apply justified_then; [keep|]. intros _. eapply triples_bind; [apply complete_answers|]. intros ?.
  apply justified_tail.
  - apply keeps_bind; [|keep]. apply keeps_stmt; [apply HrU|]. intros n t. apply staged_cas. by right.
  - keep.
Qed.
End answers.

(** C9: an upload is never taken for done on the agent's word alone.  Whatever the
    other sessions do, as long as they too move rows to [UPLOADED] only for
    uploads of [A], and whatever fails, a row is [UPLOADED] after a report of
    success only for an upload of [A], or for the very upload the report completes
    when S3 assembled it, or answered [NoSuchUpload], which the code reads as
    assembled before (it may have been aborted instead:
    [held_redrive_strands_upload]); a report of failure stages nothing. *)
Theorem uploaded_only_if_answered others stmt_ok nested_at commit_at agent_at queued_at s3_create s3_at s3_complete enqueue_at
    digest cfg now A file parts w :
  (forall n t, stages_only A t (others n t)) -> both (staged A) w ->
  justified A file (request others (process_uploaded others stmt_ok nested_at commit_at queued_at s3_at s3_complete enqueue_at cfg now file parts) w).1 /\
  both (staged A) (request others
    (process_upload_failed others stmt_ok nested_at commit_at agent_at queued_at s3_create s3_at enqueue_at digest cfg now file) w).1.
Proof.
  intros rely Hw. split.
  - assert (Hr := report_justified others stmt_ok nested_at commit_at queued_at s3_at s3_complete enqueue_at cfg now A rely file parts w Hw).
    by destruct (request _ _ w) as [w' [r|e]].
  - by eapply kept_failed.
Qed.

(** ** The upload budget *)

(** What a session has committed and what it sees. *)
Definition sess (P Q : tables -> Prop) (w : world) : Prop := P (committed w) /\ Q (view w).

Section sessions.
Context (stmt_ok : nat -> bool) (nested_at : nat -> nested_fate) (commit_at : nat -> commit_fate) (s3_at : nat -> s3_fate).
Context (enqueue_at : nat -> enqueue_fate).
Abbreviation alone := (fun (_ : nat) (t : tables) => t).

Lemma sess_stmt {B} (P Q : tables -> Prop) (Q' : B -> tables -> Prop) (q : nat -> tables -> tables * B) :
  (forall n t, Q t -> Q' (q n t).2 (q n t).1) ->
  triple (sess P Q) (stmt alone stmt_ok q) (fun b => sess P (Q' b)) (sess P Q).
Proof.
  intros Hq w [Hc Hv]. unfold stmt, elapse. simpl. destruct (poisoned w); [done|]. destruct (stmt_ok (calls w)); [|done].
  specialize (Hq (calls w) (view w) Hv). by destruct (q (calls w) (view w)).
Qed.

Lemma sess_query {B} (P Q : tables -> Prop) (q : nat -> tables -> B) :
  triple (sess P Q) (query alone stmt_ok q) (fun b => sess P (fun t => Q t /\ exists n, b = q n t)) (sess P Q).
Proof. eapply sess_stmt. simpl. eauto. Qed.

Lemma sess_keeps {B} (P Q : tables -> Prop) (m : M B) : keeps (sess P Q) m -> triple (sess P Q) m (fun _ => sess P Q) (sess P Q).
Proof. intros Hm w Hw. specialize (Hm w Hw). by destruct (m w) as [w' [b|e]]. Qed.

Lemma keeps_sess {B} (P Q : tables -> Prop) (m : M B) (Q' : B -> tables -> Prop) :
  triple (sess P Q) m (fun b => sess P (Q' b)) (sess P Q) -> (forall b t, Q' b t -> Q t) -> keeps (sess P Q) m.
Proof. intros Hm HQ w Hw. specialize (Hm w Hw). destruct (m w) as [w' [b|e]]; [|done]. destruct Hm. split; [done|by eapply HQ]. Qed.

Lemma sess_read {B} (P Q : tables -> Prop) (q : nat -> tables -> B) : keeps (sess P Q) (query alone stmt_ok q).
Proof. eapply keeps_sess; [apply sess_query|]. by intros b t [? _]. Qed.

Lemma sess_write {B} (P Q : tables -> Prop) (q : nat -> tables -> tables * B) :
  (forall n t, Q t -> Q (q n t).1) -> keeps (sess P Q) (stmt alone stmt_ok q).
Proof. intros Hq. eapply keeps_sess; [apply (sess_stmt P Q (fun _ => Q)), Hq|done]. Qed.

Lemma sess_clear (P Q : tables -> Prop) blocking key : (forall t, Q t -> Q (set_ledger (delete key (ledger t)) t)) ->
  keeps (sess P Q) (clear_ledger_entry alone stmt_ok nested_at blocking key).
Proof.
  intros HQ w [Hc Hv]. unfold clear_ledger_entry, nested, elapse, stmt. simpl. destruct (poisoned w); [done|].
  destruct (nested_at (calls w)); simpl.
  - split; simpl; [done|]. destruct (blocking (calls w) key); auto.
  - destruct (stmt_ok _); split; simpl; auto.
  - done.
Qed.

(** A commit that is answered is applied; one that is not may be. *)
Lemma sess_commit (P Q : tables -> Prop) : (forall t, Q t -> P t) ->
  triple (sess P Q) (commit alone commit_at) (fun _ => sess Q Q) (sess P P).
Proof.
  intros HQ w [Hc Hv]. unfold commit, elapse. simpl. destruct (poisoned w); [done|].
  destruct (commit_at (calls w)); split; simpl; auto.
Qed.

Lemma sess_rollback (P Q : tables -> Prop) : triple (sess P Q) (rollback alone) (fun _ => sess P P) (sess P P).
Proof. by intros w [Hc Hv]. Qed.

Lemma sess_s3_abort (P Q : tables -> Prop) f u b : keeps (sess P Q) (abort_multipart_upload alone s3_at f u b).
Proof. intros w Hw. unfold abort_multipart_upload. by destruct (s3_at _). Qed.
Lemma sess_s3_delete (P Q : tables -> Prop) f b : keeps (sess P Q) (delete_staged_object alone s3_at f b).
Proof. intros w Hw. unfold delete_staged_object. by destruct (s3_at _). Qed.
Lemma sess_s3_create s3_create (P Q : tables -> Prop) f b : keeps (sess P Q) (create_multipart_upload alone s3_create f b).
Proof. intros w Hw. unfold create_multipart_upload. by destruct (s3_create _). Qed.
Lemma sess_s3_complete s3_complete (P Q : tables -> Prop) f u parts b : keeps (sess P Q) (complete_multipart_upload alone s3_complete f u parts b).
Proof. intros w Hw. unfold complete_multipart_upload. by destruct (s3_complete _ _). Qed.
Lemma sess_presign cfg (P Q : tables -> Prop) f : keeps (sess P Q) (_presign_multipart_parts alone s3_at cfg f).
Proof.
  intros w Hw. unfold _presign_multipart_parts, presign_upload_parts. destruct (_ >? _); [done|]. by destruct (s3_at _).
Qed.
Lemma sess_park (P Q : tables -> Prop) p : keeps (sess P Q) (_park_s3_enqueue p).
Proof. by intros w. Qed.
Lemma sess_pop (P Q : tables -> Prop) : keeps (sess P Q) pop_parked_s3.
Proof. by intros w. Qed.
Lemma sess_enqueue (P Q : tables -> Prop) j : (forall k t, P t -> P (upsert_ledger_entry k t)) -> (forall k t, Q t -> Q (upsert_ledger_entry k t)) ->
  keeps (sess P Q) (enqueue alone enqueue_at j).
Proof.
  intros HP HQ w [Hc Hv]. unfold enqueue. destruct (enqueue_at _) as [|h|h l]; simpl; split; simpl; auto; destruct h; auto.
Qed.
End sessions.

#[export] Hint Resolve sess_read sess_s3_abort sess_s3_delete sess_s3_create sess_s3_complete sess_presign sess_park sess_pop : phaze.

(** How everything outside one report behaves while it is handled. *)
Record env : Type := Env {
  e_stmt : nat -> bool;
  e_nested : nat -> nested_fate;
  e_commit : nat -> commit_fate;
  e_agent : nat -> option string;
  e_queued : nat -> string -> bool;
  e_create : nat -> create_fate;
  e_s3 : nat -> s3_fate;
  e_complete : nat -> string -> complete_fate;
  e_enqueue : nat -> enqueue_fate;
  e_digest : string -> Z;
  e_now : datetime;
}.

Section budget.
Context (cfg : CloudSettings) (file : string).
Abbreviation alone := (fun (_ : nat) (t : tables) => t).

(** The file has used [k] attempts of its upload budget, or is not being uploaded. *)
Definition counted (k : Z) (t : tables) : Prop := exists r, ledger t !! s3_upload_key file = Some r /\ k <= default 0 (redrive_attempt r).
Definition ended (t : tables) : Prop := forall j, cloud_job t !! file = Some j -> status j <> UPLOADING.
Definition spent (k : Z) (t : tables) : Prop := counted k t \/ ended t.

Lemma counted_hook k x t : counted k t -> counted k (upsert_ledger_entry x t).
Proof.
  intros (r & Hr & Hk). unfold counted, upsert_ledger_entry. simpl. destruct (decide (x = s3_upload_key file)) as [->|Hne].
  - rewrite lookup_insert_eq, Hr. by eexists.
  - rewrite lookup_insert_ne by done. by exists r.
Qed.
Lemma spent_hook k x t : spent k t -> spent k (upsert_ledger_entry x t).
Proof. intros [?|?]; [left; by apply counted_hook|by right]. Qed.
Lemma spent_less k k' t : k' <= k -> spent k t -> spent k' t.
Proof. intros Hk [(r & Hr & ?)|?]; [left; exists r; split; [done|lia]|by right]. Qed.
Lemma ended_write j t : status j <> UPLOADING -> ended (set_cloud_job (<[file := j]> (cloud_job t)) t).
Proof. intros Hs i. simpl. rewrite lookup_insert_eq. by intros [= <-]. Qed.

Lemma spill_cas_ends now a l u clr k t : spent k t ->
  let (t', moved) := spill_cas now file a l u clr t in spent k t' /\ (moved = true -> ended t').
Proof.
  intros Ht. unfold spill_cas. destruct (cloud_job t !! file) as [j|]; [|done]. destruct (_ && _); [|done].
  assert (He : ended (set_cloud_job (<[file := Job AWAITING (job_backend_id j) (s3_key j) (upload_id j) (staging_bucket j) a
    (node_loss_redrives j) (if clr : bool then None else cloud_phase j) now]> (cloud_job t)) t)) by by apply ended_write.
  split; [by right|done].
Qed.

Lemma staged_ends now u k t : spent k t ->
  let (t', moved) := uploaded_cas now file u t in spent k t' /\ (moved = true -> ended t').
Proof.
  intros Ht. unfold uploaded_cas, status_cas. destruct (cloud_job t !! file) as [j|]; [|done].
  destruct (bool_decide (upload_id j = _)); [|done]. destruct (bool_decide _); [|done].
  split; [right|intros _]; by apply ended_write.
Qed.

Lemma triple_pure {S E B} (phi : Prop) (P : S -> Prop) (m : SE S E B) Q R :
  (forall s, P s -> phi) -> (phi -> triple P m Q R) -> triple P m Q R.
Proof. intros Hp Hm s Hs. exact (Hm (Hp s Hs) s Hs). Qed.

Section report.
Context (e : env) (k : Z).
Abbreviation J := (sess (spent k) (spent k)).
Abbreviation over := (sess (spent k) ended).

Lemma over_J w : over w -> J w.
Proof. intros [? ?]. split; [done|by right]. Qed.

Lemma fold_rests (Q : tables -> Prop) f a prior : (forall m t, Q t -> Q (set_cloud_budget m t)) ->
  keeps (sess (spent k) Q) (_fold_spent_budget_if_edge alone (e_stmt e) cfg (e_now e) f a prior).
Proof.
  intros HQ. unfold _fold_spent_budget_if_edge. destruct (_ <? _); [apply keeps_ret|].
  destruct (match prior with Some _ => _ | None => _ end); [apply keeps_ret|].
  eapply keeps_sess; [apply (sess_stmt _ _ _ (fun _ => Q)); simpl; auto|done].
Qed.

Lemma hold_ends a l u clr :
  triple J (hold_awaiting_cloud alone (e_stmt e) cfg (e_now e) file a (Some l) u clr)
    (fun moved w => if moved then over w else J w) J.
Proof.
  unfold hold_awaiting_cloud. eapply triples_bind.
  { apply sess_keeps. destruct (_ >=? _); [apply sess_read|apply keeps_ret]. }
  intros prior. eapply (triples_bind _ _ _ (fun moved w => if moved : bool then over w else J w)).
  - eapply triple_weaken; [apply (sess_stmt _ (spent k) (spent k) (fun moved t => spent k t /\ (moved = true -> ended t)))|done| |done].
    + intros n t Ht. pose proof (spill_cas_ends (e_now e) a l u clr k t Ht). by destruct (spill_cas _ _ _ _ _ _ t).
    + intros [] w [Hc [Hv He]]; split; auto.
  - intros []; [|by intros w].
    eapply triples_bind; [|intros ? w Hw; exact Hw].
    eapply triple_weaken; [apply sess_keeps, (fold_rests ended); by intros|done|intros ? w Hw; exact Hw|apply over_J].
Qed.

Lemma cleanup_rests (P Q : tables -> Prop) u b : keeps (sess P Q) (_best_effort_cleanup alone (e_s3 e) file u b).
Proof. unfold _best_effort_cleanup. keep. Qed.

Lemma ended_cleared t : ended t -> ended (set_ledger (delete (s3_upload_key file) (ledger t)) t).
Proof. done. Qed.

(** A file that stopped uploading may lose its counter. *)
Lemma over_commit {B} (m : M B) Q : triple J m Q J ->
  triple over (seq! clear_ledger_entry alone (e_stmt e) (e_nested e) (e_queued e) (s3_upload_key file);
               seq! commit alone (e_commit e); m) Q J.
Proof.
  intros Hm. eapply triples_bind.
  { eapply triple_weaken; [apply sess_keeps, sess_clear, ended_cleared|done|intros ? w Hw; exact Hw|apply over_J]. }
  intros ?. eapply triples_bind; [eapply (sess_commit _ (spent k) ended); by right|].
  intros ?. eapply triple_weaken; [exact Hm|by intros w [? ?]; split; right|done|done].
Qed.

Lemma enqueue_rests j : keeps J (enqueue alone (e_enqueue e) j).
Proof. apply sess_enqueue; apply spent_hook. Qed.
#[local] Hint Resolve enqueue_rests cleanup_rests : phaze.

Lemma commit_rests : triple J (commit alone (e_commit e)) (fun _ => J) J.
Proof. by apply sess_commit. Qed.
Lemma commit_keeps : keeps J (commit alone (e_commit e)).
Proof. intros w Hw. pose proof (commit_rests w Hw) as H. by destruct (commit _ _ w) as [w' [?|?]]. Qed.
#[local] Hint Resolve commit_keeps : phaze.

Definition failure : M UploadFailedResult :=
  process_upload_failed alone (e_stmt e) (e_nested e) (e_commit e) (e_agent e) (e_queued e) (e_create e) (e_s3 e) (e_enqueue e)
    (e_digest e) cfg (e_now e) file.
Definition success (parts : list (Z * string)) : M UploadedResult :=
  process_uploaded alone (e_stmt e) (e_nested e) (e_commit e) (e_queued e) (e_s3 e) (e_complete e) (e_enqueue e) cfg (e_now e) file parts.

Lemma success_rests parts : triple J (success parts) (fun _ => J) J.
Proof.
  unfold success, process_uploaded. eapply triples_bind; [apply sess_keeps, sess_read|]. intros [j|]; [|by intros w Hw].
  destruct (_upload_id_to_complete j) as [u|]; [|by intros w Hw]. destruct parts as [|p parts].
  - eapply triples_bind; [apply sess_keeps, sess_read|]. intros f.
    eapply (triples_bind _ _ _ (fun (moved : bool) w => if moved then over w else J w)).
    { destruct f; [apply hold_ends|by intros w Hw]. }
    intros []; [apply over_commit, sess_keeps; keep|]. eapply (triples_bind _ _ _ (fun _ => J)); [by intros w Hw|]. intros ?. apply sess_keeps. keep.
  - destruct (resolve_bucket_config cfg (staging_bucket j)) as [b|]; [|by intros w Hw].
    eapply triples_bind; [apply commit_rests|]. intros ?. eapply triples_bind; [apply sess_keeps; auto with phaze|]. intros ?.
    eapply (triples_bind _ _ _ (fun (moved : bool) w => if moved then over w else J w)).
    { eapply triple_weaken; [apply (sess_stmt _ (spent k) (spent k) (fun moved t => spent k t /\ (moved = true -> ended t)))|done| |done].
      - intros n t Ht. pose proof (staged_ends (e_now e) u k t Ht). by destruct (uploaded_cas _ _ _ t).
      - intros [] w [Hc [Hv He]]; split; auto. }
    intros []; cbn [negb]; [|apply sess_keeps; keep]. destruct (String.eqb _ _); apply over_commit, sess_keeps; keep.
Qed.

(** Reports that re-drive the upload use an attempt. *)
Definition after (r : UploadFailedResult) (w : world) : Prop :=
  match failed_reason r with
  | REDRIVEN => k + 1 <= push_max_attempts cfg /\ sess (spent (k + 1)) (spent (k + 1)) w
  | _ => J w
  end.

Lemma no_redrive {B} (P : world -> Prop) (m : M B) (r : B -> UploadFailedResult) :
  triple P m (fun _ => J) J -> (forall b, failed_reason (r b) <> REDRIVEN) -> triple P (run! b <- m; ret (r b)) after J.
Proof.
  intros Hm Hr. eapply triples_bind; [exact Hm|]. intros b w Hw. simpl. unfold after. specialize (Hr b). by destruct (failed_reason (r b)).
Qed.

Lemma spill_rests d : ledger_key d = s3_upload_key file ->
  triple J (_spill_failed_upload alone (e_stmt e) (e_nested e) (e_commit e) (e_queued e) (e_s3 e) cfg (e_now e) file d) after J.
Proof.
  intros Hd. unfold _spill_failed_upload. eapply triples_bind; [apply sess_keeps, sess_read|]. intros row.
  eapply triples_bind; [apply sess_keeps, sess_read|]. intros f.
  eapply (triples_bind _ _ _ (fun (moved : bool) w => if moved then over w else J w)).
  { destruct f; [apply hold_ends|by intros w Hw]. }
  intros []; cbn [negb]; [rewrite Hd; apply over_commit|]; (apply no_redrive; [apply sess_keeps; keep|done]).
Qed.

(** Under the cap the session holds the counter it has read. *)
Definition holding (row : option LedgerRow) (t : tables) : Prop := counted k t /\ row = ledger t !! s3_upload_key file.
Abbreviation H row := (sess (spent k) (holding row)).

Lemma holding_J row w : H row w -> J w.
Proof. intros [? [? _]]. split; [done|by left]. Qed.

Lemma redrive_rests row loaded f :
  keeps (H row) (redrive_upload alone (e_stmt e) (e_agent e) (e_create e) (e_s3 e) (e_digest e) cfg (e_now e) loaded file f).
Proof.
  unfold redrive_upload, _stage_file_to_s3, select_active_agent, _best_effort_abort_orphaned_multipart. keep.
  by apply sess_write.
Qed.

Lemma stamp_counts row d : attempt d = default 0 (row ≫= redrive_attempt) + 1 ->
  triple (H row) (seq! stmt alone (e_stmt e) (fun _ t => (stamp_attempt (s3_upload_key file) (attempt d) t, tt)); commit alone (e_commit e))
    (fun _ => sess (counted (k + 1)) (counted (k + 1))) J.
Proof.
  intros Hd. eapply triples_bind.
  { eapply triple_weaken; [apply (sess_stmt _ (spent k) (holding row) (fun _ => counted (k + 1)))|done|intros ? w Hw; exact Hw|apply holding_J].
    intros n t [(r & Hr & Hk) ->]. unfold stamp_attempt. rewrite Hr in *. simpl in *. exists (Ledger (Some (attempt d))).
    simpl. rewrite lookup_insert_eq. split; [done|]. simpl. destruct (redrive_attempt r); simpl in *; lia. }
  intros ?. apply sess_commit. intros t Ht. apply (spent_less (k + 1)); [lia|by left].
Qed.

Lemma flush_rests Q : (forall x t, Q t -> Q (upsert_ledger_entry x t)) -> keeps (sess Q Q) (flush_pending_s3_enqueues alone (e_enqueue e)).
Proof. intros HQ. unfold flush_pending_s3_enqueues. keep. by apply sess_enqueue. Qed.

(** What the handler knows once it has read the counter. *)
Abbreviation read row := (sess (spent k) (fun t => spent k t /\ row = ledger t !! s3_upload_key file)).

Lemma read_J row w : read row w -> J w.
Proof. by intros [? [? _]]. Qed.

(** The re-drive, and the two ways it is held. *)
Lemma attempt_charges row d loaded f : attempt d = default 0 (row ≫= redrive_attempt) + 1 -> over_cap d = false -> cap_ d = push_max_attempts cfg ->
  triple (H row)
    (run! held <- catch (seq! redrive_upload alone (e_stmt e) (e_agent e) (e_create e) (e_s3 e) (e_digest e) cfg (e_now e) loaded file f; ret None)
            (fun x => match x with
                      | NoActiveAgentError => seq! commit alone (e_commit e); ret (Some (_upload_failed_result NO_AGENT d None None))
                      | S3StagingError | NoCloudJobToRedriveError =>
                          seq! commit alone (e_commit e); ret (Some (_upload_failed_result STAGING_UNAVAILABLE d None (Some x)))
                      | _ => raise x
                      end);
     match held with
     | Some r => ret r
     | None =>
         seq! catch (seq! stmt alone (e_stmt e) (fun _ t => (stamp_attempt (s3_upload_key file) (attempt d) t, tt)); commit alone (e_commit e))
                (fun x => seq! rollback alone; seq! drop_pending_s3_enqueues alone (e_s3 e); raise x);
         seq! flush_pending_s3_enqueues alone (e_enqueue e);
         ret (_upload_failed_result REDRIVEN d None None)
     end) after J.
Proof.
  intros Hd Hcap Hmax. apply (triple_pure (k + 1 <= push_max_attempts cfg)); [|intros Hle].
  { intros w [_ [(r & Hr & Hk) ->]]. rewrite Hr in Hd. simpl in Hd. unfold over_cap in Hcap.
    rewrite Z.gtb_ltb in Hcap. apply Z.ltb_ge in Hcap. destruct (redrive_attempt r); simpl in *; lia. }
  eapply (triples_bind _ _ _ (fun held w => match held with Some r => failed_reason r <> REDRIVEN /\ J w | None => H row w end)).
  { eapply (triples_catch _ _ _ _ (H row)).
    - eapply triples_bind; [apply (sess_keeps (spent k) (holding row)), redrive_rests|]. intros ? w Hw. exact Hw.
    - assert (Hheld : forall r, failed_reason r <> REDRIVEN -> triple (H row) (seq! commit alone (e_commit e); ret (Some r))
         (fun held w => match held with Some r => failed_reason r <> REDRIVEN /\ J w | None => H row w end) J).
      { intros r Hr. eapply triples_bind; [|intros ? w Hw; simpl; split; [done|exact Hw]].
        eapply triple_weaken; [apply commit_rests|apply holding_J|done|done]. }
      intros []; try (by apply Hheld); intros w Hw; by apply (holding_J row). }
  intros [r|].
  - intros w [Hr Hw]. simpl. unfold after. by destruct (failed_reason r).
  - eapply (triples_bind _ _ _ (fun _ => sess (counted (k + 1)) (counted (k + 1)))).
    + eapply triples_catch; [by apply stamp_counts|]. intros x.
      eapply triples_bind; [apply sess_rollback|]. intros ?.
      eapply (triples_bind _ _ _ (fun _ => J)); [|by intros ? w Hw].
      apply sess_keeps. unfold drop_pending_s3_enqueues, _best_effort_abort_orphaned_multipart. keep.
    + intros ?. eapply (triples_bind _ _ _ (fun _ => sess (counted (k + 1)) (counted (k + 1)))).
      * eapply triple_weaken; [apply sess_keeps, flush_rests, counted_hook|done|intros ? w Hw; exact Hw|].
        intros w [H1 H2]. split; apply (spent_less (k + 1)); try lia; by left.
      * intros ? w [H1 H2]. simpl. unfold after. simpl. split; [|split; by left].
        done.
Qed.

Lemma failure_charges : triple J failure after J.
Proof.
  unfold failure, process_upload_failed. eapply triples_bind; [apply sess_keeps, sess_read|]. intros ?.
  eapply (triples_bind _ _ _ (fun row => read row)).
  { eapply triple_weaken; [apply (sess_query _ (spent k) (spent k) (fun _ t => ledger t !! s3_upload_key file))|done| |done].
    intros row w [Hc [Hv [n ->]]]. by split. }
  intros row. set (d := _decide_upload_failure _ _ _). destruct (over_cap d) eqn:Hcap.
  { eapply triple_weaken; [by apply (spill_rests d)|apply read_J|done|done]. }
  eapply triples_bind; [eapply triple_weaken; [apply sess_keeps, (sess_read _ (spent k) (fun t => spent k t /\ row = ledger t !! s3_upload_key file))|done|intros ? w Hw; exact Hw|apply read_J]|].
  intros [f|]; [|by intros w Hw; apply (read_J row)].
  eapply (triples_bind _ _ _ (fun j => sess (spent k) (fun t => (spent k t /\ row = ledger t !! s3_upload_key file) /\ j = cloud_job t !! file))).
  { eapply triple_weaken; [apply (sess_query _ (spent k) (fun t => spent k t /\ row = ledger t !! s3_upload_key file) (fun _ t => cloud_job t !! file))|done| |apply read_J].
    intros j w [Hc [Hv [n ->]]]. by split. }
  intros j. destruct (match j with Some _ => _ | None => true end) eqn:Hj.
  { apply (no_redrive _ _ (fun _ => _)); [|done]. eapply triple_weaken; [apply commit_rests| |done|done]. intros w [Hc [[Hv _] _]]. by split. }
  destruct j as [j|]; [|done]. apply negb_false_iff, bool_decide_eq_true in Hj.
  eapply triple_weaken; [by apply (attempt_charges row d (Some j) f)| |done|done].
  intros w [Hc [[[Hv|He] Hr] Hrow]]; [by split|]. by destruct (He j).
Qed.
End report.

(** ** A history of reports *)

Inductive report : Type :=
| Failure (e : env)
| Success (e : env) (parts : list (Z * string))
| Elsewhere (f : tables -> tables).

(** A request runs in a session of its own; the flag: the upload was re-driven. *)
Definition serve (r : report) (t : tables) : tables * bool :=
  match r with
  | Failure e =>
      let (w, x) := request alone (failure e) (empty_world t) in
      (committed w, match x with Ok x => match failed_reason x with REDRIVEN => true | _ => false end | Raise _ => false end)
  | Success e parts => (committed (request alone (success e parts) (empty_world t)).1, false)
  | Elsewhere f => (f t, false)
  end.

Fixpoint history (rs : list report) (t : tables) : tables * Z :=
  match rs with
  | [] => (t, 0)
  | r :: rs' => let (t1, again) := serve r t in let (t2, n) := history rs' t1 in (t2, Z.b2z again + n)
  end.

(** Between reports the counter only grows while the file uploads. *)
Definition restful (r : report) : Prop := match r with Elsewhere f => forall k t, spent k t -> spent k (f t) | _ => True end.

Lemma request_committed {B} (P : tables -> Prop) (Q : B -> world -> Prop) (m : M B) t :
  triple (sess P P) m Q (sess P P) -> P t ->
  let (w, x) := request alone m (empty_world t) in match x with Ok b => Q b w | Raise _ => P (committed w) end.
Proof.
  intros Hm Ht. unfold request, catch, bind, rollback, raise. specialize (Hm (empty_world t) (conj Ht Ht)).
  destruct (m (empty_world t)) as [w [b|x]]; [done|]. by destruct Hm.
Qed.

Lemma serve_charges r k t : restful r -> spent k t ->
  let (t', again) := serve r t in spent (k + Z.b2z again) t' /\ (again = true -> k + 1 <= push_max_attempts cfg).
Proof.
  intros Hr Ht. destruct r as [e|e parts|f]; simpl.
  - pose proof (request_committed _ _ _ t (failure_charges e k) Ht) as H. destruct (request _ _ _) as [w [x|x]]; simpl.
    + unfold after in H. destruct (failed_reason x); simpl; rewrite ?Z.add_0_r; try (by destruct H).
      destruct H as (? & ? & ?). by split.
    + by rewrite Z.add_0_r.
  - pose proof (request_committed _ _ _ t (success_rests e k parts) Ht) as H. rewrite Z.add_0_r. split; [|done].
    destruct (request _ _ _) as [w [x|x]]; [by destruct H|done].
  - rewrite Z.add_0_r. split; [by apply Hr|done].
Qed.
End budget.

(** C28: the upload budget is a bound.  From a file with [k] attempts used, over
    any sequence of failure and success reports, whatever fails in each, and
    any other activity that does not reset the counter of a file that is
    uploading, at most [push_max_attempts - k] uploads are re-driven. *)
Theorem redrives_within_budget cfg file rs k t :
  spent file k t -> Forall (restful file) rs -> (history cfg file rs t).2 <= Z.max 0 (push_max_attempts cfg - k).
Proof.
  intros Ht Hrs. revert k t Ht. induction Hrs as [|r rs Hr Hrs IH]; intros k t Ht; simpl; [lia|].
  pose proof (serve_charges cfg file r k t Hr Ht) as Hs. destruct (serve cfg file r t) as [t1 again]. destruct Hs as [Hk Hcap].
  specialize (IH _ _ Hk). destruct (history cfg file rs t1) as [t2 n]. simpl in *. destruct again; simpl in *; [specialize (Hcap eq_refl)|]; lia.
Qed.

(** ** Unhindered failures *)

(** Everything answers well; a fileserver is online. *)
Definition healthy (agent upload : string) (now : datetime) : env :=
  Env (fun _ => true) (fun _ => NestedOk) (fun _ => Committed) (fun _ => Some agent) (fun _ _ => false) (fun _ => Created upload)
    (fun _ => S3Done) (fun _ _ => Assembled) (fun _ => EnqJob) (fun _ => 0) now.

Section spilling.
Context (cfg : CloudSettings) (file agent : string) (now : datetime) (f : FileRecord) (b : BucketConfig).
Context (recorded : resolve_bucket_config cfg (Some (bucket_id b)) = Some b) (named : bucket_id b <> ""%string).
Context (small : file_size f <= S3_MAX_OBJECT_SIZE_BYTES) (absolute : String.prefix "/" (original_path f) = true).
Context (floor : 0 < s3_multipart_part_size_bytes cfg) (measured : 0 <= file_size f).

(** The file is uploading, on its [c]-th attempt. *)
Definition uploading (c : Z) (t : tables) : Prop :=
  files t !! file = Some f /\
  (exists j, cloud_job t !! file = Some j /\ status j = UPLOADING /\ staging_bucket j = Some (bucket_id b)) /\
  (exists r, ledger t !! s3_upload_key file = Some r /\ default 0 (redrive_attempt r) = c).

Definition fails (upload : string) (t : tables) : tables := (serve cfg file (Failure (healthy agent upload now)) t).1.

Lemma plan_accepted : part_count (part_plan cfg (file_size f)) <= S3_MAX_PART_COUNT /\ 1 <= part_count (part_plan cfg (file_size f)) /\
  0 < part_size_bytes (part_plan cfg (file_size f)).
Proof using small floor measured.
  unfold part_plan. cbn [part_count part_size_bytes]. set (ps := Z.max (s3_multipart_part_size_bytes cfg) _).
  assert (Hps : 0 < ps) by lia. pose proof (ceil_div_spec (file_size f) S3_MAX_PART_COUNT ltac:(done)) as Hc1.
  assert (ceil_div (file_size f) ps <= S3_MAX_PART_COUNT); [|unfold S3_MAX_PART_COUNT in *; lia].
  apply ceil_div_le; [done|]. assert (ceil_div (file_size f) S3_MAX_PART_COUNT <= ps) by lia. nia.
Qed.

#[local] Arguments part_plan : simpl never.
#[local] Arguments cap_attempts : simpl never.
#[local] Arguments S3_MAX_PART_COUNT : simpl never.
#[local] Arguments S3_MAX_OBJECT_SIZE_BYTES : simpl never.
#[local] Arguments upload_file_saq_timeout_sec : simpl never.
#[local] Arguments resolve_bucket_config : simpl never.
#[local] Arguments s3_upload_key : simpl never.
#[local] Arguments over_cap : simpl never.
#[local] Arguments staged_object_key : simpl never.
#[local] Arguments upload_payload_valid : simpl never.

Lemma payload_accepted n : upload_payload_valid f (Parts (part_size_bytes (part_plan cfg (file_size f))) (part_count (part_plan cfg (file_size f))) n) = true.
Proof using small absolute floor measured.
  destruct plan_accepted as (Hp1 & Hp2 & Hp3). unfold upload_payload_valid. rewrite absolute. cbn [andb part_count part_size_bytes].
  apply andb_true_intro. split; [apply Z.geb_le|apply Z.gtb_lt]; lia.
Qed.

Lemma fails_redrives c u t : uploading c t -> c + 1 <= push_max_attempts cfg ->
  uploading (c + 1) (fails u t) /\ exists j, cloud_job (fails u t) !! file = Some j /\ upload_id j = Some u.
Proof using recorded named small absolute floor measured.
  intros (Hf & (j & Hj & Hs & Hb) & (r & Hr & Hc)) Hcap. destruct plan_accepted as (Hp1 & Hp2 & Hp3).
  assert (Hsize : (file_size f >? S3_MAX_OBJECT_SIZE_BYTES) = false) by (rewrite Z.gtb_ltb; by apply Z.ltb_ge).
  assert (Hcount : (part_count (part_plan cfg (file_size f)) >? S3_MAX_PART_COUNT) = false) by (rewrite Z.gtb_ltb; by apply Z.ltb_ge).
  pose proof payload_accepted as Hpay. clear Hp1 Hp2 Hp3. unfold fails, serve, failure, process_upload_failed, request, query, stmt, bind, catch, elapse, empty_world, healthy. simpl. rewrite Hr. simpl.
  replace (over_cap _) with false by (symmetry; unfold over_cap; simpl; rewrite Z.gtb_ltb; apply Z.ltb_ge; lia).
  simpl. rewrite Hf. simpl. rewrite Hj. simpl. rewrite Hs. simpl.
  unfold redrive_upload, query, stmt, bind, elapse. simpl. rewrite Hj. simpl. unfold truthy, falsy. rewrite Hb. simpl.
  rewrite bool_decide_eq_false_2 by done. simpl. rewrite recorded. simpl.
  unfold catch, abort_multipart_upload, _stage_file_to_s3, select_active_agent, query, stmt, bind, commit, elapse, create_multipart_upload.
  destruct (upload_id j) as [v|]; [destruct (bool_decide (v = ""))|]; simpl.
  all: rewrite Hsize; simpl; unfold _presign_multipart_parts, presign_upload_parts, catch;
    revert Hcount Hpay; generalize (part_plan cfg (file_size f)); intros pl Hcount Hpay; simpl.
  all: rewrite Hcount; simpl; rewrite Hpay; simpl.
  all: unfold stamp_attempt; simpl; rewrite Hr; simpl.
  all: split; [|rewrite lookup_insert_eq, Hj; by eexists]; split; [done|]; split; simpl.
  all: rewrite ?lookup_insert_eq, ?Hj; simpl; eexists; (by split_and!) || (split; [done|]; simpl; by rewrite <-Hc).
Qed.

Lemma fails_spills c u t : uploading c t -> push_max_attempts cfg < c + 1 ->
  parked_spent cfg (fails u t) file = true /\ ledger (fails u t) !! s3_upload_key file = None.
Proof using recorded named.
  intros (Hf & (j & Hj & Hs & Hb) & (r & Hr & Hc)) Hcap.
  unfold fails, serve, failure, process_upload_failed, request, query, stmt, bind, catch, elapse, empty_world, healthy. simpl. rewrite Hr. simpl.
  replace (over_cap _) with true by (symmetry; unfold over_cap; simpl; rewrite Z.gtb_ltb; apply Z.ltb_lt; lia).
  unfold _spill_failed_upload, query, stmt, bind, elapse. simpl. rewrite Hf. simpl. unfold hold_awaiting_cloud.
  rewrite Z.geb_leb, Z.leb_refl. unfold query, stmt, bind, elapse. simpl. rewrite Hj. simpl. unfold spill_cas. rewrite Hj, Hs. simpl.
  unfold _fold_spent_budget_if_edge. rewrite Z.ltb_irrefl. simpl. unfold stmt, elapse. simpl. rewrite Hb, recorded.
  unfold _best_effort_cleanup, abort_multipart_upload, delete_staged_object, catch, bind. simpl.
  destruct (truthy (upload_id j)); simpl; (split; [|by rewrite lookup_delete_eq]); unfold parked_spent; simpl; rewrite lookup_insert_eq;
    simpl; apply Z.geb_le; lia.
Qed.
End spilling.

(** An upload that keeps failing comes back.  While nothing else fails and a
    fileserver is online, a file that has used [c] attempts is uploaded again
    with a fresh multipart until its budget is used, one attempt per failure,
    and the next failure parks it with its cloud budget spent and its upload
    counter gone. *)
Theorem failing_upload_ends cfg file agent now f b c u t n :
  resolve_bucket_config cfg (Some (bucket_id b)) = Some b -> bucket_id b <> ""%string ->
  0 <= file_size f <= S3_MAX_OBJECT_SIZE_BYTES -> String.prefix "/" (original_path f) = true -> 0 < s3_multipart_part_size_bytes cfg ->
  uploading file f b c t -> c + Z.of_nat n = push_max_attempts cfg ->
  let fail := fails cfg file agent now u in
  (forall m, (m <= n)%nat -> uploading file f b (c + Z.of_nat m) (Nat.iter m fail t)) /\
  parked_spent cfg (fail (Nat.iter n fail t)) file = true /\ ledger (fail (Nat.iter n fail t)) !! s3_upload_key file = None.
Proof.
  intros Hb Hn [Hs0 Hs] Ha Hp Ht Hc fail.
  assert (Hm : forall m, (m <= n)%nat -> uploading file f b (c + Z.of_nat m) (Nat.iter m fail t)).
  { induction m as [|m IH]; intros Hm; [by rewrite Z.add_0_r|]. specialize (IH ltac:(lia)).
    apply (fails_redrives cfg file agent now f b Hb Hn Hs Ha Hp Hs0 _ u) in IH as [IH _]; [|lia].
    by replace (c + Z.of_nat (S m)) with (c + Z.of_nat m + 1) by lia. }
  split; [done|]. apply (fails_spills cfg file agent now f b Hb Hn (c + Z.of_nat n)); [by apply Hm|lia].
Qed.

(** ** Slots *)

(** A staged row keeps the slot it had. *)
Lemma within_staged b S now f u t : within b S t -> within b S (uploaded_cas now f u t).1.
Proof.
  intros Ht. unfold uploaded_cas, status_cas. destruct (cloud_job t !! f) as [j|] eqn:Hj; [|done].
  destruct (bool_decide (upload_id j = _)); [|done]. destruct (bool_decide (status j ∈ _)) eqn:Hs; [|done].
  apply bool_decide_eq_true, list_elem_of_singleton in Hs. intros g. specialize (Ht g). unfold occ in *. simpl.
  destruct (decide (g = f)) as [->|Hne]; [|by rewrite lookup_insert_ne].
  rewrite lookup_insert_eq. rewrite Hj in Ht. unfold occupies in *. simpl. by rewrite Hs in Ht.
Qed.
#[export] Hint Resolve within_staged : phaze.

(** A report of success and a spill never make a file occupy a slot. *)
Theorem uploads_never_take_a_slot others stmt_ok nested_at commit_at queued_at s3_at s3_complete enqueue_at cfg now b S file parts d :
  (forall n t, within b S t -> within b S (others n t)) ->
  keeps (both (within b S)) (request others (process_uploaded others stmt_ok nested_at commit_at queued_at s3_at s3_complete enqueue_at cfg now file parts)) /\
  keeps (both (within b S)) (_spill_failed_upload others stmt_ok nested_at commit_at queued_at s3_at cfg now file d).
Proof.
  intros rely.
  assert (Hhold : forall f a e u clr, keeps (both (within b S)) (hold_awaiting_cloud others stmt_ok cfg now f a e u clr)) by (intros; apply keeps_hold; auto with phaze).
  assert (Hcomplete : forall f u p k, keeps (both (within b S)) (complete_multipart_upload others s3_complete f u p k)).
  { intros f u p k w Hw. assert (He : both (within b S) (elapse others w)) by (destruct Hw; split; by apply rely).
    unfold complete_multipart_upload. by destruct (s3_complete _ _). }
  split; unfold request, process_uploaded, _spill_failed_upload, _best_effort_cleanup; keep.
Qed.

(** ** Gaps *)

Definition demo_bucket : Backend := MkBackend "burst" 5 1 (KKueue ["staging"%string]).
Definition demo_cfg : CloudSettings := demo_settings [demo_bucket].
Definition demo_row (s : CloudJobStatus) (u : string) : CloudJob :=
  Job s (Some "burst"%string) (Some "phaze-staging/f"%string) (Some u) (Some "staging"%string) 0 0 None (Datetime true 0).
Definition demo_uploading : tables :=
  Tables {["f" := demo_file]} {["f" := demo_row UPLOADING "u1"]} ∅ {[s3_upload_key "f" := Ledger None]} ∅.
Definition row_of (f : string) (t : tables) : option (CloudJobStatus * option string) :=
  (fun j => (status j, upload_id j)) <$> cloud_job t !! f.
Definition at_call (k : nat) (g : tables -> tables) (n : nat) (t : tables) : tables := if decide (n = k) then g t else t.

(** No fileserver is online, and S3 no longer knows an upload it has aborted. *)
Definition offline : env :=
  Env (fun _ => true) (fun _ => NestedOk) (fun _ => Committed) (fun _ => None) (fun _ _ => false) (fun _ => Created "u2")
    (fun _ => S3Done) (fun _ _ => NoSuchUpload) (fun _ => EnqJob) (fun _ => 0) (Datetime true 60).

(** The re-drive aborts the multipart before it looks for a fileserver.  When it
    is held the row keeps the aborted upload; a late report of success for it is
    answered [NoSuchUpload], which counts as assembled, and the file is
    submitted although no object exists. *)
Theorem held_redrive_strands_upload :
  let w := (request (fun _ t => t) (failure demo_cfg "f" offline) (empty_world demo_uploading)).1 in
  let w' := (request (fun _ t => t) (success demo_cfg "f" offline [(1, "etag"%string)]) (empty_world (committed w))).1 in
  s3_log w = [AbortMultipart "f" "staging" "u1"] /\ row_of "f" (committed w) = Some (UPLOADING, Some "u1"%string) /\
  row_of "f" (committed w') = Some (UPLOADED, Some "u1"%string) /\ map job_function (broker w') = ["submit_cloud_job"%string].
Proof. vm_compute. by split_and!. Qed.

(** The handler of a failure, everything answering well, among other sessions. *)
Definition among (others : nat -> tables -> tables) : tables :=
  committed (request others (process_upload_failed others (fun _ => true) (fun _ => NestedOk) (fun _ => Committed) (fun _ => Some "nas"%string)
    (fun _ _ => false) (fun _ => Created "u2") (fun _ => S3Done) (fun _ => EnqJob) (fun _ => 0) demo_cfg (Datetime true 60) "f")
    (empty_world demo_uploading)).1.

(** The status is checked before the S3 calls and the upsert is unconditional: a
    success recorded meanwhile is overwritten. *)
Theorem late_redrive_undoes_success :
  row_of "f" (uploaded_cas (Datetime true 60) "f" "u1" demo_uploading).1 = Some (UPLOADED, Some "u1"%string) /\
  row_of "f" (among (at_call 7 (fun t => (uploaded_cas (Datetime true 60) "f" "u1" t).1))) = Some (UPLOADING, Some "u2"%string).
Proof. vm_compute. by split_and!. Qed.

(** And so is a spill, after which the drain may have given the slot away. *)
Theorem late_redrive_overshoots_cap :
  let give t := set_cloud_job (<["g" := demo_row UPLOADING "u9"]> (cloud_job t)) t in
  let spill t := (spill_cas (Datetime true 60) "f" 3 [UPLOADING; UPLOADED] None true t).1 in
  backend_cap demo_bucket = 1 /\ in_flight_count "burst" (give (spill demo_uploading)) = 1 /\
  in_flight_count "burst" (among (at_call 7 (fun t => give (spill t)))) = 2.
Proof. vm_compute. by split_and!. Qed.

(** The counter is stamped on the ledger row before the parked enqueue writes it:
    when there is no row the attempt is not counted. *)
Theorem first_attempt_uncounted :
  let t := set_ledger ∅ demo_uploading in
  let t' := fails demo_cfg "f" "nas" (Datetime true 60) "u2" t in
  row_of "f" t' = Some (UPLOADING, Some "u2"%string) /\ ledger t' !! s3_upload_key "f" = Some (Ledger None).
Proof. vm_compute. by split_and!. Qed.

(** ** Witnesses *)

Lemma uploaded_only_if_answered_witness :
  let A := fun (f : string) (x : option string) => f = "g"%string /\ x = Some "u9"%string in
  let others := at_call 2 (fun t => set_cloud_job (<["g" := demo_row UPLOADED "u9"]> (cloud_job t)) t) in
  let w' := (request others (process_uploaded others (fun _ => true) (fun _ => NestedOk) (fun _ => Committed) (fun _ _ => false)
    (fun _ => S3Done) (fun _ _ => Assembled) (fun _ => EnqJob) demo_cfg (Datetime true 60) "f" [(1, "etag"%string)]) (empty_world demo_uploading)).1 in
  row_of "f" (committed w') = Some (UPLOADED, Some "u1"%string) /\ row_of "g" (committed w') = Some (UPLOADED, Some "u9"%string) /\
  justified A "f" w'.
Proof.
  intros A others w'. split; [vm_compute; reflexivity|]. split; [vm_compute; reflexivity|].
  refine (proj1 (uploaded_only_if_answered others (fun _ => true) (fun _ => NestedOk) (fun _ => Committed) (fun _ => None) (fun _ _ => false)
    (fun _ => CreateFails true) (fun _ => S3Done) (fun _ _ => Assembled) (fun _ => EnqJob) (fun _ => 0) demo_cfg (Datetime true 60) A "f" [(1, "etag"%string)]
    (empty_world demo_uploading) _ _)).
  - intros n t f j. unfold others, at_call. destruct (decide (n = 2%nat)); [|by right; exists j]. simpl.
    destruct (decide (f = "g"%string)) as [->|Hne]; [rewrite lookup_insert_eq; intros [= <-] _; by left|].
    rewrite lookup_insert_ne by done. right. by exists j.
  - assert (Ht : staged A demo_uploading); [|by split]. intros f j Hj Hs. unfold demo_uploading in Hj. simpl in Hj.
    apply lookup_singleton_Some in Hj as [<- <-]. discriminate.
Defined.

Definition demo_history : list report :=
  repeat (Failure (healthy "nas" "u2" (Datetime true 60))) 5 ++ [Success offline [(1, "etag"%string)]].

Lemma redrives_within_budget_witness :
  (history demo_cfg "f" demo_history demo_uploading).2 = 3 /\ (history demo_cfg "f" demo_history demo_uploading).2 <= Z.max 0 (3 - 0).
Proof.
  split; [vm_compute; reflexivity|].
  refine (redrives_within_budget demo_cfg "f" demo_history 0 demo_uploading _ _).
  - left. exists (Ledger None). split; [vm_compute; reflexivity|reflexivity].
  - repeat constructor.
Defined.

Lemma failing_upload_ends_witness :
  let fail := fails demo_cfg "f" "nas" (Datetime true 60) "u2" in
  parked_spent demo_cfg (fail (Nat.iter 3 fail demo_uploading)) "f" = true.
Proof.
  intros fail.
  refine (proj1 (proj2 (failing_upload_ends demo_cfg "f" "nas" (Datetime true 60) demo_file (Bucket "staging" "s3-staging") 0 "u2" demo_uploading 3
    eq_refl _ _ eq_refl eq_refl _ eq_refl))).
  - discriminate.
  - split; vm_compute; discriminate.
  - split; [reflexivity|]. split; [exists (demo_row UPLOADING "u1"); split_and!; reflexivity|exists (Ledger None); split; reflexivity].
Defined.
