(* ===== verification/Recovery.v ===== *)
(** * Who owes a ledger row its end: recovery and the ledger reaper

    [tasks/recovery_policy.py], [tasks/recovery_queries.py], the read phase of
    [tasks/reenqueue.py] and [tasks/ledger_reaper.py], over the tables of
    StageSql.v.  A statement reads the database of the moment: [read n] is what
    the [n]-th one sees.  [repr] is [str()] of a JSON value that is not a string. *)
From Stdlib Require Import Ascii.
From S2P Require Import Prelude Stage StageSql.
From stdpp Require Import options.
Local Open Scope Z_scope.

(** ** [models/scheduling_ledger.py]

    A JSON payload; a naive [enqueued_at] counts as UTC, so it is an instant. *)
Inductive json : Type :=
| JNull
| JBool (b : bool)
| JNum (n : Z)
| JStr (s : string)
| JArr (l : list json)
| JObj (l : list (string * json)).

Record SchedulingLedger : Type := Row {
  key : string;
  function : string;
  routing : string;
  payload : list (string * json);
  enqueued_at : Z;
  timeout : option Z;
  retries : option Z;
}.

(** ** [str(uuid.UUID(s))] *)

Definition code (c : Ascii.ascii) : N := Ascii.N_of_ascii c.
Definition space (c : Ascii.ascii) : bool := let n := code c in ((9 <=? n) && (n <=? 13) || (28 <=? n) && (n <=? 32))%N.
Definition hex_digit (c : Ascii.ascii) : option N :=
  let n := code c in
  if ((48 <=? n) && (n <=? 57))%N then Some (n - 48)%N
  else if ((65 <=? n) && (n <=? 70))%N then Some (n - 55)%N
  else if ((97 <=? n) && (n <=? 102))%N then Some (n - 87)%N
  else None.

Fixpoint drop_while (p : Ascii.ascii -> bool) (l : list Ascii.ascii) : list Ascii.ascii :=
  match l with c :: l' => if p c then drop_while p l' else l | [] => [] end.
Definition strip (p : Ascii.ascii -> bool) (l : list Ascii.ascii) : list Ascii.ascii := rev (drop_while p (rev (drop_while p l))).

(** [int(_, 16)] after the sign and the prefix: digits, single underscores between. *)
Fixpoint hex_digits (acc : N) (l : list Ascii.ascii) : option N :=
  match l with
  | [] => None
  | c :: l' =>
      match hex_digit c with
      | None => None
      | Some d =>
          let acc := (16 * acc + d)%N in
          match l' with
          | [] => Some acc
          | "_"%char :: l'' => hex_digits acc l''
          | _ => hex_digits acc l'
          end
      end
  end.

Definition int16 (l : list Ascii.ascii) : option N :=
  let body := fun l => match l with
                       | "0"%char :: ("x" | "X")%char :: "_"%char :: l' => hex_digits 0 l'
                       | "0"%char :: ("x" | "X")%char :: l' => hex_digits 0 l'
                       | _ => hex_digits 0 l
                       end in
  match strip space l with
  | "-"%char :: l' => match body l' with Some 0%N => Some 0%N | _ => None end
  | "+"%char :: l' => body l'
  | l' => body l'
  end.

(** [s.replace(old, "")] *)
Fixpoint replace_out (old : list Ascii.ascii) (skip : nat) (l : list Ascii.ascii) : list Ascii.ascii :=
  match l with
  | [] => []
  | c :: l' =>
      match skip with
      | S n => replace_out old n l'
      | O => if bool_decide (take (length old) l = old) then replace_out old (pred (length old)) l' else c :: replace_out old 0 l'
      end
  end.

Definition hex_char (n : N) : Ascii.ascii := Ascii.ascii_of_N (if (n <? 10)%N then 48 + n else 87 + n)%N.
Fixpoint hex_text (digits : nat) (n : N) (acc : list Ascii.ascii) : list Ascii.ascii :=
  match digits with
  | O => acc
  | S d => hex_text d (n / 16) (hex_char (n mod 16) :: acc)
  end.

Definition uuid (s : string) : option string :=
  let l := replace_out ["u"; "u"; "i"; "d"; ":"]%char 0 (replace_out ["u"; "r"; "n"; ":"]%char 0 (String.list_ascii_of_string s)) in
  let h := List.filter (fun c => negb (bool_decide (c = "-"%char))) (strip (fun c => bool_decide (c = "{"%char \/ c = "}"%char)) l) in
  if negb (length h =? 32)%nat then None
  else match int16 h with
       | None => None
       | Some n =>
           let t := hex_text 32 n [] in
           Some (String.string_of_list_ascii
                   (take 8 t ++ "-"%char :: take 4 (drop 8 t) ++ "-"%char :: take 4 (drop 12 t) ++ "-"%char :: take 4 (drop 16 t) ++ "-"%char :: drop 20 t))
       end.

(** ** The recovery policy *)

Definition _DOMAIN_COMPLETED_STAGES : list string := ["process_file"; "extract_file_metadata"; "push_file"; "s3_upload"].
Definition _CLOUD_OWNED_FUNCTIONS : list string := ["process_file"; "push_file"; "s3_upload"; "submit_cloud_job"].
Definition CLOUD_LANE_FUNCTIONS : list string := ["push_file"; "s3_upload"].

Record _DoneSets : Type := DoneSets {
  analyze_done : gset string;
  metadata_domain_completed : gset string;
  metadata_failed_at : gmap string Z;
  metadata_skipped : gset string;
  cloud_lane_done : gset string;
}.

Section policy.
Context (repr : json -> string).

Definition py_str (j : json) : string := match j with JStr s => s | _ => repr j end.

(** [payload.get(k)], [None] when it is absent or null. *)
Definition payload_get (k : string) (p : list (string * json)) : option json :=
  match dict_get k p with Some JNull => None | x => x end.

Definition _natural_id (row : SchedulingLedger) : option string := py_str <$> payload_get "file_id" (payload row).

Fixpoint fids_from (seen : list string) (rows : list SchedulingLedger) : list string :=
  match rows with
  | [] => []
  | r :: rows' =>
      match _natural_id r ≫= uuid with
      | Some fid => if bool_decide (fid ∈ seen) then fids_from seen rows' else fid :: fids_from (fid :: seen) rows'
      | None => fids_from seen rows'
      end
  end.
Definition _ledger_fids (rows : list SchedulingLedger) : list string := fids_from [] rows.

Definition _is_metadata_domain_completed (fid : string) (at_ : Z) (s : _DoneSets) : bool :=
  if bool_decide (fid ∈ metadata_skipped s) then true
  else if negb (bool_decide (fid ∈ metadata_domain_completed s)) then false
  else match metadata_failed_at s !! fid with
       | None => true
       | Some failed_at => at_ <=? failed_at
       end.

Definition is_domain_completed (row : SchedulingLedger) (s : _DoneSets) : bool :=
  if negb (bool_decide (function row ∈ _DOMAIN_COMPLETED_STAGES)) then false
  else match _natural_id row with
       | None => false
       | Some fid =>
           if bool_decide (function row = "process_file"%string) then bool_decide (fid ∈ analyze_done s)
           else if bool_decide (function row ∈ CLOUD_LANE_FUNCTIONS) then bool_decide (fid ∈ cloud_lane_done s)
           else _is_metadata_domain_completed fid (enqueued_at row) s
       end.

Definition _has_live_job (row : SchedulingLedger) (live : gset string) : bool := bool_decide (key row ∈ live).

Definition _is_owned_by_the_cloud_lane (row : SchedulingLedger) (in_flight awaiting_cloud : gset string) : bool :=
  if negb (bool_decide (function row ∈ _CLOUD_OWNED_FUNCTIONS)) then false
  else match _natural_id row with
       | Some fid => bool_decide (fid ∈ in_flight) || bool_decide (fid ∈ awaiting_cloud)
       | None => false
       end.

Definition _is_orphaned (row : SchedulingLedger) (live : gset string) (s : _DoneSets) (in_flight awaiting_cloud : gset string) : bool :=
  negb (_has_live_job row live) && negb (is_domain_completed row s) && negb (_is_owned_by_the_cloud_lane row in_flight awaiting_cloud).

(** ** The recovery queries *)

Record snapshot : Type := Snap { files : gmap string file_row; tables : db; ledger_rows : list SchedulingLedger }.

(** [select(FileRecord.id).where(FileRecord.id = ANY(fids), clause)] *)
Definition ids_where (fids : list string) (c : clause) (s : snapshot) : gset string :=
  list_to_set (List.filter (fun fid => match files s !! fid with Some f => c (tables s) f | None => false end) fids).

Definition _select_done_analyze_ids (fids : list string) (s : snapshot) : outcome string (gset string) :=
  try! c <- _recovery_domain_completed_clause ANALYZE; Ok (ids_where fids c s).
Definition _select_cloud_lane_done_ids (fids : list string) (s : snapshot) : outcome string (gset string) :=
  try! c <- cloud_lane_completed_clause; Ok (ids_where fids c s).

Definition failed_at_of (fids : list string) (s : snapshot) : gmap string Z :=
  filter (fun p => p.1 ∈ fids) (omap m_failed_at (metadata (tables s))).

Definition _build_done_sets (read : nat -> snapshot) (fids : list string) : outcome string _DoneSets :=
  match fids with
  | [] => Ok (DoneSets ∅ ∅ ∅ ∅ ∅)
  | _ =>
      try! a <- _select_done_analyze_ids fids (read 2%nat);
      try! mc <- domain_completed_clause METADATA None None None;
      try! ms <- skipped_clause METADATA;
      try! c <- _select_cloud_lane_done_ids fids (read 6%nat);
      Ok (DoneSets a (ids_where fids mc (read 3%nat)) (failed_at_of fids (read 4%nat)) (ids_where fids ms (read 5%nat)) c)
  end.

Definition jobs_in (statuses : list string) (s : snapshot) : gset string :=
  dom (filter (fun p => p.2 ∈ statuses) (cloud_job (tables s))).
Definition IN_FLIGHT : list string := ["uploading"; "uploaded"; "submitted"; "running"].
Definition _awaiting_cloud_job_ids (s : snapshot) : gset string := jobs_in ["awaiting"] s.
Definition _in_flight_cloud_job_ids (s : snapshot) : gset string := jobs_in IN_FLIGHT s.

(** [get_live_job_keys]: no keys when the probe fails. *)
Definition get_live_job_keys (probe_ok : bool) (s : snapshot) : gset string :=
  if probe_ok then dom (filter (fun p => p.2 ∈ _LIVE_SAQ_STATUSES) (saq_jobs (tables s))) else ∅.

(** ** The read phase of [recover_orphaned_work] *)

Definition _scope_recovery_rows (rows : list SchedulingLedger) (only_keys : option (gset string)) : list SchedulingLedger :=
  match only_keys with
  | None => rows
  | Some ks => List.filter (fun r => bool_decide (key r ∈ ks)) rows
  end.

Definition find_orphans (read : nat -> snapshot) (probe_ok : bool) (only_keys : option (gset string)) : outcome string (list SchedulingLedger) :=
  let rows := _scope_recovery_rows (ledger_rows (read 0%nat)) only_keys in
  let live := get_live_job_keys probe_ok (read 1%nat) in
  try! done_sets <- _build_done_sets read (_ledger_fids rows);
  let in_flight := _in_flight_cloud_job_ids (read 7%nat) in
  let awaiting_cloud := _awaiting_cloud_job_ids (read 8%nat) in
  Ok (List.filter (fun r => _is_orphaned r live done_sets in_flight awaiting_cloud) rows).
End policy.

(** ** The ledger reaper *)

Definition set_scheduling_ledger (m : gmap string ledger_row) (d : db) : db :=
  Db (analysis d) (metadata d) (stage_skip d) (proposals d) (execution_log d) m (saq_jobs d) (cloud_job d)
    (dedup_resolution d) (selections d) (observations d) (tracklists d).

(** [ELIGIBLE_AFTER_FAILURE], sorted by value. *)
Definition _REAPABLE_STAGES : list Stage := [ANALYZE; METADATA].

Definition keys_where (fn : string) (c : clause) (s : snapshot) : gset string :=
  list_to_set (ledger_key_for_function fn <$> List.filter (c (tables s)) (map_to_list (files s)).*2).

Definition _resolved_keys_subquery (stage : Stage) (fn : string) (s : snapshot) : outcome string (gset string) :=
  try! c <- resolved_ledger_clause stage; Ok (keys_where fn c s).
Definition _resolved_cloud_keys_subquery (fn : string) (s : snapshot) : outcome string (gset string) :=
  try! c <- resolved_cloud_ledger_clause fn; Ok (keys_where fn c s).

Definition delete_keys (ks : gset string) (s : snapshot) : snapshot :=
  Snap (files s) (set_scheduling_ledger (filter (fun p => p.1 ∉ ks) (scheduling_ledger (tables s))) (tables s))
    (List.filter (fun r => negb (bool_decide (key r ∈ ks))) (ledger_rows s)).

(** One DELETE in a SAVEPOINT; [ok]: whether it succeeds. *)
Definition _reap_keys (ok : bool) (ks : gset string) (s : snapshot) : snapshot * Z :=
  if ok then (delete_keys ks s, Z.of_nat (size (filter (fun p => p.1 ∈ ks) (scheduling_ledger (tables s))))) else (s, 0).

Definition lane (stage : option Stage) (fn : string) (s : snapshot) : outcome string (gset string) :=
  match stage with Some st => _resolved_keys_subquery st fn s | None => _resolved_cloud_keys_subquery fn s end.
Definition lanes : list (option Stage * string) :=
  ((fun st => (Some st, default ""%string (STAGE_TO_FUNCTION st))) <$> _REAPABLE_STAGES) ++ ((fun fn => (None, fn)) <$> CLOUD_LANE_FUNCTIONS).

Fixpoint reap_lanes (ok : string -> bool) (others : string -> snapshot -> snapshot) (ls : list (option Stage * string)) (s : snapshot) :
    outcome string (snapshot * list Z) :=
  match ls with
  | [] => Ok (s, [])
  | (st, fn) :: ls' =>
      let s := others fn s in
      try! ks <- lane st fn s;
      let (s, n) := _reap_keys (ok fn) ks s in
      try! r <- reap_lanes ok others ls' s;
      Ok (r.1, n :: r.2)
  end.

Definition reap_resolved_ledger_rows (ok : string -> bool) (others : string -> snapshot -> snapshot) (s : snapshot) : outcome string (snapshot * Z) :=
  try! r <- reap_lanes ok others lanes s; Ok (r.1, foldr Z.add 0 r.2).

(** ** The reaper's statements *)

(** The row of the file under [fn] is resolved. *)
Definition resolved_row (fn : string) : clause := fun d f =>
  match resolved_ledger_clause ANALYZE, resolved_ledger_clause METADATA, resolved_cloud_ledger_clause fn with
  | Ok a, Ok m, Ok c =>
      if bool_decide (fn = "process_file"%string) then a d f
      else if bool_decide (fn = "extract_file_metadata"%string) then m d f
      else c d f
  | _, _, _ => false
  end.

Definition resolved_keys (fn : string) (s : snapshot) : gset string := keys_where fn (resolved_row fn) s.

Definition reap_quietly (s : snapshot) : outcome string (snapshot * Z) := reap_resolved_ledger_rows (fun _ => true) (fun _ s => s) s.

Lemma lane_is_resolved p s : p ∈ lanes -> lane p.1 p.2 s = Ok (resolved_keys p.2 s).
Proof.
  unfold lanes. simpl. intros Hp. repeat (apply elem_of_cons in Hp as [->|Hp]; [reflexivity|]). by apply elem_of_nil in Hp.
Qed.

Lemma keys_where_spec fn c s k :
  k ∈ keys_where fn c s <-> exists i f, files s !! i = Some f /\ c (tables s) f = true /\ k = ledger_key_for_function fn f.
Proof.
  unfold keys_where. rewrite elem_of_list_to_set, list_elem_of_fmap. split.
  - intros (f & -> & Hf). apply list_elem_of_In, filter_In in Hf as [Hf Hc]. apply list_elem_of_In, list_elem_of_fmap in Hf as ([i g] & -> & Hg).
    apply elem_of_map_to_list in Hg. eauto.
  - intros (i & f & Hi & Hc & ->). exists f. split; [done|]. apply list_elem_of_In, filter_In. split; [|done].
    apply list_elem_of_In, list_elem_of_fmap. exists (i, f). split; [done|]. by apply elem_of_map_to_list.
Qed.

Lemma ledger_after ks s k :
  scheduling_ledger (tables (delete_keys ks s)) !! k = if bool_decide (k ∈ ks) then None else scheduling_ledger (tables s) !! k.
Proof.
  simpl. case_bool_decide as Hk.
  - apply map_lookup_filter_None_2. right. intros x _ Hx. by apply Hx.
  - destruct (scheduling_ledger (tables s) !! k) as [x|] eqn:E; [by apply map_lookup_filter_Some_2|].
    apply map_lookup_filter_None_2. by left.
Qed.

Lemma resolved_in_ledger fn d f : resolved_row fn d f = true -> is_Some (scheduling_ledger d !! ledger_key_for_function fn f).
Proof.
  unfold resolved_row. cbn -[orb live_job_for_function cloud_busy_clause]. repeat case_bool_decide; simplify_eq; intros Hr; bool_prop; first [done | by eapply bool_decide_eq_true_1].
Qed.

Lemma resolved_depends fn m d f :
  m !! ledger_key_for_function fn f = scheduling_ledger d !! ledger_key_for_function fn f ->
  resolved_row fn (set_scheduling_ledger m d) f = resolved_row fn d f.
Proof.
  intros H. unfold resolved_row. cbn -[orb]. unfold inflight_for_function, _metadata_orphaned_retry_clause, _analyze_orphaned_backfill_clause.
  destruct (decide (fn = "process_file"%string)) as [->|]; [|destruct (decide (fn = "extract_file_metadata"%string)) as [->|]].
  all: rewrite ?bool_decide_eq_true_2, ?bool_decide_eq_false_2 by done.
  all: change (scheduling_ledger (set_scheduling_ledger m d)) with m; by rewrite H.
Qed.

(** Deleting rows resolves no other row. *)
Lemma resolved_after ks s fn f :
  resolved_row fn (tables (delete_keys ks s)) f = resolved_row fn (tables s) f && negb (bool_decide (ledger_key_for_function fn f ∈ ks)).
Proof.
  pose proof (ledger_after ks s (ledger_key_for_function fn f)) as Hl. case_bool_decide as Hk; rewrite ?andb_false_r, ?andb_true_r.
  - apply not_true_iff_false. intros [x Hx]%resolved_in_ledger. congruence.
  - by apply resolved_depends.
Qed.

Lemma resolved_keys_after ks s fn : resolved_keys fn (delete_keys ks s) = resolved_keys fn s ∖ ks.
Proof.
  apply set_eq. intros k. rewrite elem_of_difference. unfold resolved_keys. rewrite !keys_where_spec. split.
  - intros (i & f & Hf & Hr & ->). rewrite resolved_after in Hr. bool_prop. split; [by exists i, f|]. by eapply bool_decide_eq_false_1.
  - intros ((i & f & Hf & Hr & ->) & Hk). exists i, f. rewrite resolved_after, Hr, bool_decide_eq_false_2; done.
Qed.

Lemma delete_delete ks js s : delete_keys ks (delete_keys js s) = delete_keys (js ∪ ks) s.
Proof.
  unfold delete_keys, set_scheduling_ledger. simpl. f_equal; [f_equal|].
  - rewrite map_filter_filter. apply map_filter_ext. set_solver.
  - induction (ledger_rows s) as [|r l IH]; [done|]. simpl. repeat case_bool_decide; simpl; repeat case_bool_decide; rewrite ?IH; try done; set_solver.
Qed.

Definition all_resolved (ls : list (option Stage * string)) (s : snapshot) : gset string := ⋃ ((fun p => resolved_keys p.2 s) <$> ls).

Lemma elem_of_all_resolved ls s k : k ∈ all_resolved ls s <-> exists p, p ∈ ls /\ k ∈ resolved_keys p.2 s.
Proof.
  unfold all_resolved. rewrite elem_of_union_list. split.
  - intros (X & (p & -> & Hp)%list_elem_of_fmap & Hk). by exists p.
  - intros (p & Hp & Hk). exists (resolved_keys p.2 s). split; [|done]. apply list_elem_of_fmap. by exists p.
Qed.

Lemma all_resolved_after ls ks s : all_resolved ls (delete_keys ks s) = all_resolved ls s ∖ ks.
Proof.
  apply set_eq. intros k. rewrite elem_of_difference, !elem_of_all_resolved. setoid_rewrite resolved_keys_after. set_solver.
Qed.

Lemma delete_nothing s : delete_keys ∅ s = s.
Proof.
  destruct s as [fs t l]. unfold delete_keys, set_scheduling_ledger. simpl. f_equal.
  - rewrite map_filter_id by set_solver. by destruct t.
  - induction l as [|r l IH]; [done|]. simpl. by rewrite IH.
Qed.

(** An undisturbed pass deletes exactly the rows resolved when it began. *)
Lemma reap_lanes_quietly ls s :
  ls ⊆ lanes ->
  exists ns, reap_lanes (fun _ => true) (fun _ s => s) ls s = Ok (delete_keys (all_resolved ls s) s, ns) /\
    (all_resolved ls s = ∅ -> foldr Z.add 0 ns = 0).
Proof.
  revert s. induction ls as [|[st fn] ls IH]; intros s Hls; simpl.
  - exists []. by rewrite delete_nothing.
  - assert (Hl : lane st fn s = Ok (resolved_keys fn s)) by (apply (lane_is_resolved (st, fn)); set_solver).
    rewrite Hl. simpl. destruct (IH (delete_keys (resolved_keys fn s) s)) as (ns & -> & H0); [set_solver|]. simpl.
    eexists. split; [f_equal; f_equal|].
    + rewrite delete_delete, all_resolved_after. f_equal. unfold all_resolved. simpl. apply set_eq. intros k.
      destruct (decide (k ∈ resolved_keys fn s)); set_solver.
    + rewrite all_resolved_after in H0. unfold all_resolved in *. simpl. intros He.
      assert (resolved_keys fn s = ∅) as -> by set_solver.
      rewrite H0 by set_solver.
      rewrite map_empty_filter_2, map_size_empty; [done|]. intros ? ? _; set_solver.
Qed.

Lemma reap_quietly_spec s : exists n, reap_quietly s = Ok (delete_keys (all_resolved lanes s) s, n) /\ (all_resolved lanes s = ∅ -> n = 0).
Proof.
  unfold reap_quietly, reap_resolved_ledger_rows. destruct (reap_lanes_quietly lanes s) as (ns & -> & H0); [done|]. simpl. eauto.
Qed.

(** ** Recovery and the reaper side by side *)

Definition running (fn : string) : clause := fun d f =>
  live_job_for_function fn d f || (negb (bool_decide (fn = "extract_file_metadata"%string)) && cloud_busy_clause d f).

Definition completed_row (fn : string) : clause := fun d f =>
  match _recovery_domain_completed_clause ANALYZE, _recovery_domain_completed_clause METADATA, cloud_lane_completed_clause with
  | Ok a, Ok m, Ok c =>
      if bool_decide (fn = "process_file"%string) then a d f
      else if bool_decide (fn = "extract_file_metadata"%string) then m d f
      else c d f
  | _, _, _ => false
  end.

Definition reaped_functions : list string := snd <$> lanes.

Lemma resolved_row_split fn d f :
  fn ∈ reaped_functions -> resolved_row fn d f = inflight_for_function fn d f && negb (running fn d f) && completed_row fn d f.
Proof.
  unfold reaped_functions, lanes. simpl. intros Hp. rewrite !elem_of_cons, elem_of_nil in Hp. unfold resolved_row, running, completed_row.
  cbn -[orb andb inflight_for_function live_job_for_function cloud_busy_clause _metadata_orphaned_retry_clause _analyze_orphaned_backfill_clause].
  destruct Hp as [->|[->|[->|[->|[]]]]].
  all: rewrite ?bool_decide_eq_true_2, ?bool_decide_eq_false_2 by done.
  all: destruct (inflight_for_function _ d f), (live_job_for_function _ d f), (cloud_busy_clause d f); reflexivity.
Qed.

(** A lost operator retry of a file that was force-skipped since. *)
Definition skipped_retry (r : SchedulingLedger) (f : file_row) (s : snapshot) : bool :=
  bool_decide (function r = "extract_file_metadata"%string) && bool_decide ((f_id f, "metadata"%string) ∈ stage_skip (tables s))
  && _metadata_orphaned_retry_clause (tables s) f.

Section agreement.
Context (repr : json -> string).

Record recorded (s : snapshot) (r : SchedulingLedger) (f : file_row) : Prop := {
  rec_row : r ∈ ledger_rows s;
  rec_key : key r = ledger_key_for_function (function r) f;
  rec_file : files s !! f_id f = Some f;
  rec_payload : _natural_id repr r = Some (f_id f);
  rec_uuid : uuid (f_id f) = Some (f_id f);
  rec_ledger : exists t, scheduling_ledger (tables s) !! key r = Some (Ledger (enqueued_at r) t);
}.

Lemma in_ledger_fids rows r fid seen :
  r ∈ rows -> _natural_id repr r ≫= uuid = Some fid -> fid ∈ fids_from repr seen rows \/ fid ∈ seen.
Proof.
  revert seen. induction rows as [|r' rows IH]; intros seen Hr Hu; [by apply elem_of_nil in Hr|]. simpl.
  apply elem_of_cons in Hr as [<-|Hr].
  - rewrite Hu. case_bool_decide; [by right|]. left. by left.
  - destruct (_natural_id repr r' ≫= uuid) as [fid'|]; [|by apply IH].
    case_bool_decide; [by apply IH|]. destruct (IH (fid' :: seen) Hr Hu) as [?|[->|?]%elem_of_cons]; [left; by right|left; by left|by right].
Qed.

Lemma elem_of_ids_where fids c s fid f :
  files s !! fid = Some f -> fid ∈ fids -> bool_decide (fid ∈ ids_where fids c s) = c (tables s) f.
Proof.
  intros Hf Hin. unfold ids_where. destruct (c (tables s) f) eqn:E.
  - apply bool_decide_eq_true. rewrite elem_of_list_to_set. apply list_elem_of_In, filter_In. split; [by apply list_elem_of_In|]. by rewrite Hf.
  - apply bool_decide_eq_false. rewrite elem_of_list_to_set. intros [_ H]%list_elem_of_In%filter_In. rewrite Hf in H. congruence.
Qed.

Lemma failed_at_quiet fids s fid :
  fid ∈ fids -> failed_at_of fids s !! fid = metadata (tables s) !! fid ≫= m_failed_at.
Proof.
  intros Hin. unfold failed_at_of. rewrite <- (lookup_omap m_failed_at).
  destruct (omap m_failed_at (metadata (tables s)) !! fid) as [t|] eqn:E.
  - by apply map_lookup_filter_Some_2.
  - apply map_lookup_filter_None_2. by left.
Qed.

(** What recovery takes for complete: what the reaper does, and a skipped retry. *)
Lemma domain_completed_quiet s r f fids :
  recorded s r f -> f_id f ∈ fids -> function r ∈ reaped_functions ->
  exists ds, _build_done_sets (fun _ => s) fids = Ok ds /\
    is_domain_completed repr r ds = completed_row (function r) (tables s) f || skipped_retry r f s.
Proof.
  intros [Hrow Hkey Hfile Hpay Huuid [t Hl]] Hin Hfn.
  destruct fids as [|fid fids]; [by apply elem_of_nil in Hin|].
  unfold _build_done_sets, _select_done_analyze_ids, _select_cloud_lane_done_ids.
  cbn -[_recovery_domain_completed_clause cloud_lane_completed_clause ids_where failed_at_of].
  set (l := fid :: fids) in *. clearbody l.
  destruct (_recovery_domain_completed_clause ANALYZE) as [a|] eqn:Ea; [|discriminate].
  destruct cloud_lane_completed_clause as [c|] eqn:Ec; [|discriminate].
  eexists. split; [reflexivity|].
  unfold is_domain_completed, completed_row, _is_metadata_domain_completed. rewrite Hpay, Ea, Ec. simpl.
  unfold skipped_retry. rewrite Hkey in Hl. unfold reaped_functions, lanes in Hfn. simpl in Hfn. rewrite !elem_of_cons, elem_of_nil in Hfn.
  destruct Hfn as [E|[E|[E|[E|[]]]]]; rewrite E in *; simpl.
  - rewrite (elem_of_ids_where l a s _ f) by done. by rewrite orb_false_r.
  - rewrite !(elem_of_ids_where l _ s _ f) by done. rewrite failed_at_quiet by done. simpl.
    unfold _metadata_orphaned_retry_clause. rewrite Hl. simpl.
    destruct (metadata (tables s) !! f_id f) as [[[t0|]]|], (bool_decide ((f_id f, "metadata"%string) ∈ stage_skip (tables s))); simpl; try done.
    + by destruct (bool_decide (enqueued_at r > t0)).
    + rewrite orb_false_r. destruct (Z.leb_spec (enqueued_at r) t0); [by rewrite bool_decide_eq_false_2 by lia|by rewrite bool_decide_eq_true_2 by lia].
  - rewrite (elem_of_ids_where l c s _ f) by done. by rewrite orb_false_r.
  - rewrite (elem_of_ids_where l c s _ f) by done. by rewrite orb_false_r.
Qed.

(** The files of the archive are keyed by their ids. *)
Definition well_keyed (s : snapshot) : Prop := forall i f, files s !! i = Some f -> f_id f = i.

Lemma ledger_key_inj fn fn' f g :
  fn ∈ reaped_functions -> fn' ∈ reaped_functions ->
  ledger_key_for_function fn f = ledger_key_for_function fn' g -> fn = fn' /\ f_id f = f_id g.
Proof.
  unfold reaped_functions, lanes, ledger_key_for_function. simpl. rewrite !elem_of_cons, !elem_of_nil.
  intros H H' E. destruct H as [->|[->|[->|[->|[]]]]], H' as [->|[->|[->|[->|[]]]]]; simpl in E; try discriminate E.
  all: split; [done|]; by injection E.
Qed.

Lemma reaped_iff s r f :
  well_keyed s -> recorded s r f -> function r ∈ reaped_functions ->
  key r ∈ all_resolved lanes s <-> resolved_row (function r) (tables s) f = true.
Proof.
  intros Hw [Hrow Hkey Hfile Hpay Huuid Hl] Hfn. rewrite elem_of_all_resolved. split.
  - intros (p & Hp & (i & g & Hg & Hres & E)%keys_where_spec). rewrite Hkey in E. apply ledger_key_inj in E as [E' E].
    + rewrite (Hw _ _ Hg) in E. rewrite E'. congruence.
    + done.
    + apply list_elem_of_fmap. by exists p.
  - intros Hres. apply list_elem_of_fmap in Hfn as (p & Hp & Hin). exists p. split; [done|].
    apply keys_where_spec. exists (f_id f), f. rewrite <- Hp. auto.
Qed.

Lemma dom_filter_status ls (m : gmap string string) k : bool_decide (k ∈ dom (filter (fun p => p.2 ∈ ls) m)) = status_in ls (m !! k).
Proof.
  unfold status_in. destruct (m !! k) as [st|] eqn:E; [apply bool_decide_ext|apply bool_decide_eq_false_2]; rewrite elem_of_dom.
  - unfold is_Some. setoid_rewrite map_lookup_filter_Some. naive_solver.
  - rewrite map_lookup_filter_None_2 by (by left). by intros [? ?].
Qed.

(** Owned: a live job or, for the cloud functions, a cloud job. *)
Lemma owned_quiet s r f :
  recorded s r f -> function r ∈ reaped_functions ->
  _has_live_job r (get_live_job_keys true s) || _is_owned_by_the_cloud_lane repr r (_in_flight_cloud_job_ids s) (_awaiting_cloud_job_ids s)
  = running (function r) (tables s) f.
Proof.
  intros [Hrow Hkey Hfile Hpay Huuid Hl] Hfn. unfold _has_live_job, get_live_job_keys, running, live_job_for_function.
  rewrite dom_filter_status, <- Hkey. f_equal.
  unfold _is_owned_by_the_cloud_lane, _in_flight_cloud_job_ids, _awaiting_cloud_job_ids, jobs_in, cloud_busy_clause.
  rewrite Hpay, !dom_filter_status.
  unfold reaped_functions, lanes in Hfn. simpl in Hfn. rewrite !elem_of_cons, elem_of_nil in Hfn.
  assert (Hb : status_in IN_FLIGHT (cloud_job (tables s) !! f_id f) || status_in ["awaiting"] (cloud_job (tables s) !! f_id f)
    = status_in _CLOUD_BUSY_STATUSES (cloud_job (tables s) !! f_id f)).
  { destruct (cloud_job (tables s) !! f_id f) as [st|]; [|done]. simpl. rewrite <- bool_decide_or. apply bool_decide_ext.
    unfold IN_FLIGHT, _CLOUD_BUSY_STATUSES. rewrite !elem_of_cons, !elem_of_nil. tauto. }
  destruct Hfn as [->|[->|[->|[->|[]]]]]; simpl; by rewrite ?Hb.
Qed.

(** C14: recovery and the ledger reaper share the ledger out.  On a database
    nothing else touches, a row of one of the four reaped functions is replayed
    exactly when the reaper keeps it, nothing runs it and it is not a lost retry
    of a force-skipped file; a running row is never deleted, and a skipped retry
    is neither replayed nor deleted. *)
Theorem replayed_or_reaped s r f :
  well_keyed s -> recorded s r f -> function r ∈ reaped_functions ->
  exists orphans s' n,
    find_orphans repr (fun _ => s) true None = Ok orphans /\ reap_quietly s = Ok (s', n) /\
    (r ∈ orphans <-> is_Some (scheduling_ledger (tables s') !! key r) /\ running (function r) (tables s) f = false /\ skipped_retry r f s = false) /\
    (running (function r) (tables s) f = true \/ skipped_retry r f s = true -> is_Some (scheduling_ledger (tables s') !! key r)).
Proof.
  intros Hw Hr Hfn. pose proof Hr as [Hrow Hkey Hfile Hpay Huuid [t Hl]].
  destruct (reap_quietly_spec s) as (n & Hreap & _). unfold find_orphans. simpl.
  destruct (domain_completed_quiet s r f (_ledger_fids repr (ledger_rows s)) Hr) as (ds & Hds & Hdone); [|done|].
  { destruct (in_ledger_fids (ledger_rows s) r (f_id f) []) as [|[]%elem_of_nil]; [done| |done]. by rewrite Hpay. }
  rewrite Hds. simpl. eexists _, _, n. split; [reflexivity|]. split; [exact Hreap|].
  assert (Hkept : is_Some (scheduling_ledger (tables (delete_keys (all_resolved lanes s) s)) !! key r)
    <-> running (function r) (tables s) f = true \/ completed_row (function r) (tables s) f = false).
  { rewrite ledger_after. pose proof (reaped_iff s r f Hw Hr Hfn) as Hre. rewrite (resolved_row_split _ _ _ Hfn) in Hre.
    unfold inflight_for_function in Hre. rewrite (bool_decide_eq_true_2 (is_Some _)) in Hre by (rewrite <- Hkey; eauto).
    case_bool_decide as Hin; [apply Hre in Hin|].
    - bool_prop. split; [by intros [? ?]|]. intros [?|?]; congruence.
    - split; [intros _|eauto]. destruct (running _ _ _), (completed_row _ _ _); auto. tauto. }
  rewrite Hkept.
  assert (Hskip : skipped_retry r f s = true -> completed_row (function r) (tables s) f = false).
  { unfold skipped_retry, completed_row. intros Hs. bool_prop. apply bool_decide_eq_true in H as ->. by cbn -[_metadata_orphaned_retry_clause]; rewrite H0, andb_false_r. }
  rewrite list_elem_of_In, filter_In, <- list_elem_of_In. unfold _is_orphaned. rewrite Hdone.
  pose proof (owned_quiet s r f Hr Hfn) as Ho.
  destruct (_has_live_job _ _), (_is_owned_by_the_cloud_lane _ _ _ _), (running _ _ _), (completed_row _ _ _), (skipped_retry _ _ _); simpl in *; intuition discriminate.
Qed.
End agreement.

(** Twice is once, and the second pass counts nothing. *)
Theorem reaper_is_idempotent s s' n : reap_quietly s = Ok (s', n) -> reap_quietly s' = Ok (s', 0).
Proof.
  destruct (reap_quietly_spec s) as (m & -> & _). intros [= <- _].
  destruct (reap_quietly_spec (delete_keys (all_resolved lanes s) s)) as (k & -> & Hk).
  rewrite all_resolved_after in *. rewrite delete_delete, Hk by set_solver. do 3 f_equal. set_solver.
Qed.

(** ** A demonstration *)

Definition demo_fid : string := "0b5e4d1c-6a7f-4c3d-9e2b-1f0a8d7c6b5e".
Definition demo_repr (j : json) : string := match j with JBool true => "True" | JBool false => "False" | _ => "" end.
Definition demo_file : file_row := File demo_fid None.
Definition demo_row (fn : string) (at_ : Z) : SchedulingLedger := Row (fn +:+ ":" +:+ demo_fid) fn "agent" [("file_id"%string, JStr demo_fid)] at_ None None.

(** One file: its metadata failed at 100, was retried at [retry] and perhaps skipped. *)
Definition demo_snapshot (retry : Z) (skips : list string) (live : bool) : snapshot :=
  Snap {[demo_fid := demo_file]}
    (Db ∅ {[demo_fid := Metadata (Some 100)]} (list_to_set ((fun s => (demo_fid, s)) <$> skips)) [] []
      {[("extract_file_metadata:" +:+ demo_fid)%string := Ledger retry None]}
      (if live then {[("extract_file_metadata:" +:+ demo_fid)%string := "active"%string]} else ∅) ∅ [] [] [] [])
    [demo_row "extract_file_metadata" retry].

(** Replayed, and still in the ledger after a reaper pass. *)
Definition demo_fate (s : snapshot) : option (bool * bool) :=
  match find_orphans demo_repr (fun _ => s) true None, reap_quietly s with
  | Ok l, Ok (s', _) => Some (negb (length l =? 0)%nat, negb (size (scheduling_ledger (tables s')) =? 0)%nat)
  | _, _ => None
  end.

Lemma demo_recorded retry skips live : recorded demo_repr (demo_snapshot retry skips live) (demo_row "extract_file_metadata" retry) demo_file.
Proof.
  split; [by left|done|apply lookup_singleton_eq|done|by vm_compute|]. exists None. apply lookup_singleton_eq.
Qed.

Lemma demo_keyed retry skips live : well_keyed (demo_snapshot retry skips live).
Proof. intros i f H. cbn in H. apply lookup_singleton_Some in H as [<- <-]. done. Qed.

Lemma replayed_or_reaped_witness :
  well_keyed (demo_snapshot 200 [] false) /\
  exists orphans s' n, find_orphans demo_repr (fun _ => demo_snapshot 200 [] false) true None = Ok orphans /\
    reap_quietly (demo_snapshot 200 [] false) = Ok (s', n) /\ demo_row "extract_file_metadata" 200 ∈ orphans.
Proof.
  split; [apply demo_keyed|].
  destruct (replayed_or_reaped demo_repr (demo_snapshot 200 [] false) (demo_row "extract_file_metadata" 200) demo_file) as (o & s' & n & Ho & Hs & Hin & _).
  - apply demo_keyed.
  - apply demo_recorded.
  - right. by left.
  - exists o, s', n. split; [exact Ho|]. split; [exact Hs|]. apply Hin. clear Ho Hin. split; [|vm_compute; split; reflexivity].
    vm_compute in Hs. injection Hs as <- <-. vm_compute. eexists. reflexivity.
Defined.

(** The four fates of one row: reaped, replayed, running, and the lost retry of a
    skipped file, which nobody ends. *)
Example demo_fates :
  demo_fate (demo_snapshot 50 [] false) = Some (false, false) /\
  demo_fate (demo_snapshot 200 [] false) = Some (true, true) /\
  demo_fate (demo_snapshot 50 [] true) = Some (false, true) /\
  demo_fate (demo_snapshot 200 ["metadata"%string] false) = Some (false, true).
Proof. by vm_compute. Qed.

(** That file reads as in flight for good. *)
Theorem skipped_retry_reads_in_flight r f s :
  skipped_retry r f s = true -> stage_status_case METADATA (tables s) f = "in_flight"%string.
Proof.
  unfold skipped_retry. intros H. rewrite stage_status_case_ladder. bool_prop.
  unfold _metadata_orphaned_retry_clause in *. unfold inflight_clause. cbn [STAGE_TO_FUNCTION]. unfold inflight_for_function.
  rewrite (bool_decide_eq_true_2 (is_Some _)); [done|].
  destruct (scheduling_ledger (tables s) !! ledger_key_for_function "extract_file_metadata" f); [by eexists|discriminate].
Qed.
