(* ===== verification/ReplaySafety.v ===== *)
(** * What a ledger row is: its key and its payload

    [tasks/_shared/deterministic_key.py] and [tasks/_shared/replay_safety.py].
    Strings are UTF-8.  [lower] is [str.lower()] (ill-formed bytes replaced first),
    [netloc_ok] whether [urlsplit] accepts a host part with matching brackets,
    [sha256] the hex digest; [repr] as in Recovery.v. *)
From Stdlib Require Import Ascii.
From S2P Require Import Prelude Stage StageSql StateErr Selection Breaker CloudJobs Recovery.
From stdpp Require Import sorting pretty options.
Local Open Scope Z_scope.

Abbreviation chars := (list ascii).
Abbreviation chars_of := String.list_ascii_of_string.
Abbreviation string_of := String.string_of_list_ascii.

(** ** [deterministic_key.py] *)

Inductive key_error : Type := KeyError | TypeError.

Section keys.
Context (repr : json -> string) (sha256 : string -> string).
Abbreviation py_str := (py_str repr).

Definition field (k : string) (kwargs : list (string * json)) : outcome key_error string :=
  match dict_get k kwargs with Some v => Ok (py_str v) | None => Raise KeyError end.

(** Iteration over a JSON value; a string gives its characters. *)
Definition code_points (s : chars) : list chars :=
  (foldr (fun c st => if ((128 <=? N_of_ascii c) && (N_of_ascii c <? 192))%N then (c :: st.1, st.2) else ([], (c :: st.1) :: st.2)) ([], []) s).2.

Definition iterate (j : json) : option (list json) :=
  match j with
  | JArr l => Some l
  | JObj kvs => Some (JStr <$> kvs.*1)
  | JStr s => Some (JStr ∘ string_of <$> code_points (chars_of s))
  | _ => None
  end.

Definition _hash_ids (file_ids : json) : outcome key_error string :=
  match iterate file_ids with
  | Some l => Ok (sha256 (String.concat "," (sorted_ids (py_str <$> l))))
  | None => Raise TypeError
  end.

Definition _KEY_BUILDERS (function : string) : option (list (string * json) -> outcome key_error string) :=
  if bool_decide (function ∈ ["process_file"; "extract_file_metadata"; "push_file"; "s3_upload"; "submit_cloud_job"]%string) then Some (field "file_id")
  else if bool_decide (function = "match_tracklist_to_discogs"%string) then Some (field "tracklist_id")
  else if bool_decide (function = "match_recording_source_to_discogs"%string) then
    Some (fun k => try! m <- field "media_id" k; try! o <- field "expected_observation_id" k; try! t <- field "expected_selection_token" k;
                   Ok (m +:+ ":" +:+ o +:+ ":" +:+ t))
  else if bool_decide (function = "generate_proposals"%string) then
    Some (fun k => match dict_get "file_ids" k with Some j => _hash_ids j | None => Raise KeyError end)
  else if bool_decide (function = "write_file_tags"%string) then Some (field "log_id")
  else if bool_decide (function = "learn_filename_conventions"%string) then Some (fun _ => Ok "release_group:date_order"%string)
  else if bool_decide (function = "quarantine_companion"%string) then Some (field "review_id")
  else if bool_decide (function = "import_agent_companions"%string) then
    Some (fun k => try! r <- field "run_id" k; try! s <- field "step" k; Ok (r +:+ ":" +:+ s))
  else if bool_decide (function = "associate_agent_companions"%string) then
    Some (fun k => try! a <- field "agent_id" k; try! w <- field "window" k; Ok (a +:+ ":" +:+ w))
  else None.
Definition _ALL_KEYED_FUNCTIONS : list string :=
  ["process_file"; "extract_file_metadata"; "match_tracklist_to_discogs"; "match_recording_source_to_discogs"; "generate_proposals"; "push_file";
   "s3_upload"; "submit_cloud_job"; "write_file_tags"; "learn_filename_conventions"; "quarantine_companion"; "import_agent_companions";
   "associate_agent_companions"]%string.

(** The key the hook gives a job that was enqueued under [key]. *)
Definition apply_deterministic_key (function key : string) (kwargs : list (string * json)) : outcome key_error string :=
  match _KEY_BUILDERS function with
  | None => Ok key
  | Some builder => try! id <- builder kwargs; Ok (function +:+ ":" +:+ id)
  end.

Theorem keyed_functions_are_built fn : fn ∈ _ALL_KEYED_FUNCTIONS <-> is_Some (_KEY_BUILDERS fn).
Proof.
  unfold _KEY_BUILDERS, _ALL_KEYED_FUNCTIONS. repeat case_bool_decide; (split; [eauto|]); rewrite ?elem_of_cons, ?elem_of_nil in *; try tauto.
  by intros [? [=]].
Qed.

(** A batch is its set of files: two payloads that list the same ids in a
    different order get the same key. *)
Theorem batch_key_ignores_order key key' p p' l l' :
  dict_get "file_ids" p = Some (JArr l) -> dict_get "file_ids" p' = Some (JArr l') -> Permutation l l' ->
  exists k, apply_deterministic_key "generate_proposals" key p = Ok k /\ apply_deterministic_key "generate_proposals" key' p' = Ok k.
Proof.
  intros Hp Hp' Hl. eexists. unfold apply_deterministic_key. simpl. rewrite Hp, Hp'. simpl.
  split; [reflexivity|]. by rewrite (sorted_ids_perm _ _ (fmap_Permutation py_str _ _ Hl)).
Qed.
End keys.

(** ** [replay_safety.py] *)

Definition LEDGER_REPLAY_TIME_INVARIANT : list string :=
  ["process_file"; "extract_file_metadata"; "match_tracklist_to_discogs"; "match_recording_source_to_discogs"; "generate_proposals"; "push_file";
   "submit_cloud_job"; "write_file_tags"; "learn_filename_conventions"; "quarantine_companion"; "associate_agent_companions";
   "import_agent_companions"]%string.
Definition LEDGER_REPLAY_REGENERATED : list string := ["s3_upload"]%string.

Definition _PRESIGN_QUERY_PARAMS : list string :=
  ["x-amz-signature"; "x-amz-credential"; "x-amz-expires"; "x-amz-security-token"; "awsaccesskeyid"; "signature"; "expires"; "googleaccessid"; "se";
   "sig"; "token"; "access_token"; "x-goog-signature"]%string.
Definition _TIME_LIMITED_KEY_MARKERS : list string :=
  ["presigned"; "presign"; "signed_url"; "signature"; "credential"; "access_token"; "auth_token"; "bearer"; "sas_token"; "expires_at"; "expires_in";
   "valid_until"; "not_after"]%string.
Definition _URL_SCHEMES : list string := ["http"; "https"]%string.
Definition _MAX_DEPTH : Z := 8.

(** *** [urlsplit] and [parse_qsl] *)

Fixpoint take_while (p : ascii -> bool) (l : chars) : chars :=
  match l with c :: l' => if p c then c :: take_while p l' else [] | [] => [] end.

(** The text before the first [c], and the text after it if there is one. *)
Fixpoint split_once (c : ascii) (l : chars) : chars * option chars :=
  match l with
  | [] => ([], None)
  | x :: l' => if bool_decide (x = c) then ([], Some l') else let (a, b) := split_once c l' in (x :: a, b)
  end.
Fixpoint split_all (c : ascii) (l : chars) : list chars :=
  match l with
  | [] => [[]]
  | x :: l' => if bool_decide (x = c) then [] :: split_all c l' else match split_all c l' with u :: us => (x :: u) :: us | [] => [[x]] end
  end.
Definition has (c : ascii) (l : chars) : bool := existsb (fun x => bool_decide (x = c)) l.

Definition ascii_alpha (c : ascii) : bool := let n := N_of_ascii c in ((65 <=? n) && (n <=? 90) || (97 <=? n) && (n <=? 122))%N.
Definition ascii_digit (c : ascii) : bool := let n := N_of_ascii c in ((48 <=? n) && (n <=? 57))%N.
Definition scheme_char (c : ascii) : bool := ascii_alpha c || ascii_digit c || bool_decide (c ∈ ["+"; "-"; "."]%char).
Definition ascii_lower (c : ascii) : ascii := let n := N_of_ascii c in if ((65 <=? n) && (n <=? 90))%N then ascii_of_N (n + 32) else c.
Definition control_or_space (c : ascii) : bool := (N_of_ascii c <=? 32)%N.
Definition tab_or_newline (c : ascii) : bool := let n := N_of_ascii c in ((n =? 9) || (n =? 10) || (n =? 13))%N.
Definition ends_netloc (c : ascii) : bool := bool_decide (c ∈ ["/"; "?"; "#"]%char).

Section detector.
Context (lower : string -> string) (netloc_ok : string -> bool).

(** The scheme and the query; [None] on a ValueError. *)
Definition urlsplit (value : chars) : option (chars * chars) :=
  let url := List.filter (fun c => negb (tab_or_newline c)) (drop_while control_or_space value) in
  let (scheme, url) :=
    match split_once ":" url with
    | ((c :: _) as pre, Some post) => if ascii_alpha c && forallb scheme_char pre then (ascii_lower <$> pre, post) else ([], url)
    | _ => ([], url)
    end in
  let (netloc, url) :=
    match url with
    | "/"%char :: "/"%char :: rest => (take_while (fun c => negb (ends_netloc c)) rest, drop_while (fun c => negb (ends_netloc c)) rest)
    | _ => ([], url)
    end in
  if xorb (has "[" netloc) (has "]" netloc) || negb (netloc_ok (string_of netloc)) then None
  else Some (scheme, default [] (split_once "?" (split_once "#" url).1).2).

Fixpoint unquote (l : chars) : chars :=
  match l with
  | "%"%char :: ((a :: ((b :: l'') as l1)) as l') =>
      match hex_digit a, hex_digit b with
      | Some x, Some y => ascii_of_N (16 * x + y) :: unquote l''
      | _, _ => "%"%char :: unquote l'
      end
  | c :: l' => c :: unquote l'
  | [] => []
  end.

(** The names [parse_qsl(query, keep_blank_values=True)] gives. *)
Definition query_names (query : chars) : list string :=
  (fun nv => string_of (unquote ((fun c => if bool_decide (c = "+"%char) then " "%char else c) <$> (split_once "=" nv).1)))
    <$> List.filter (fun nv => match nv with [] => false | _ => true end) (split_all "&" query).

Definition _string_is_time_limited (value : string) : bool :=
  let value := chars_of value in
  if negb (has "?" value) then false
  else match urlsplit value with
       | None => false
       | Some (scheme, query) =>
           if negb (bool_decide (string_of scheme ∈ _URL_SCHEMES)) || bool_decide (query = []) then false
           else existsb (fun name => bool_decide (lower name ∈ _PRESIGN_QUERY_PARAMS)) (query_names query)
       end.

Fixpoint contains (marker l : chars) : bool :=
  bool_decide (take (length marker) l = marker) || match l with [] => false | _ :: l' => contains marker l' end.

Definition _key_is_time_limited (key : string) : bool :=
  let lowered := lower key in existsb (fun marker => contains (chars_of marker) (chars_of lowered)) _TIME_LIMITED_KEY_MARKERS.

Fixpoint _walk (value : json) (path : string) (depth : Z) : list string :=
  if depth >? _MAX_DEPTH then []
  else match value with
       | JStr s => if _string_is_time_limited s then [path] else []
       | JObj kvs =>
           (fix items (kvs : list (string * json)) : list string :=
              match kvs with
              | [] => []
              | (key, child) :: kvs' =>
                  let child_path := if bool_decide (path = ""%string) then key else path +:+ "." +:+ key in
                  (if _key_is_time_limited key then [child_path] else _walk child child_path (depth + 1)) ++ items kvs'
              end) kvs
       | JArr l =>
           (fix items (index : nat) (l : list json) : list string :=
              match l with
              | [] => []
              | child :: l' => _walk child (path +:+ "[" +:+ pretty index +:+ "]") (depth + 1) ++ items (S index) l'
              end) 0%nat l
       | _ => []
       end.

Definition find_time_limited_paths (payload : list (string * json)) : list string := _walk (JObj payload) "" 0.

(** Material within [n] more levels. *)
Inductive tainted : nat -> json -> Prop :=
| tainted_string n s : _string_is_time_limited s = true -> tainted n (JStr s)
| tainted_key n kvs k v : (k, v) ∈ kvs -> _key_is_time_limited k = true -> tainted n (JObj kvs)
| tainted_value n kvs k v : (k, v) ∈ kvs -> tainted n v -> tainted (S n) (JObj kvs)
| tainted_item n l v : v ∈ l -> tainted n v -> tainted (S n) (JArr l).

Lemma walk_too_deep v path depth : _MAX_DEPTH < depth -> _walk v path depth = [].
Proof. intros H. destruct v; simpl; rewrite (proj2 (Z.gtb_lt depth _MAX_DEPTH)); done. Qed.

(** The two loops of the walk, one key or index at a time. *)
Definition walk_items (path : string) (depth : Z) : list (string * json) -> list string :=
  fix items kvs := match kvs with
                   | [] => []
                   | (key, child) :: kvs' =>
                       let child_path := if bool_decide (path = ""%string) then key else path +:+ "." +:+ key in
                       (if _key_is_time_limited key then [child_path] else _walk child child_path (depth + 1)) ++ items kvs'
                   end.
Definition walk_elements (path : string) (depth : Z) : nat -> list json -> list string :=
  fix items index l := match l with
                       | [] => []
                       | child :: l' => _walk child (path +:+ "[" +:+ pretty index +:+ "]") (depth + 1) ++ items (S index) l'
                       end.

Lemma walk_object kvs path depth : depth <= _MAX_DEPTH -> _walk (JObj kvs) path depth = walk_items path depth kvs.
Proof. intros H. cbn [_walk]. destruct (Z.gtb_spec depth _MAX_DEPTH); [lia|done]. Qed.
Lemma walk_array l path depth : depth <= _MAX_DEPTH -> _walk (JArr l) path depth = walk_elements path depth 0 l.
Proof. intros H. cbn [_walk]. destruct (Z.gtb_spec depth _MAX_DEPTH); [lia|done]. Qed.

Lemma app_not_nil {A} (l k : list A) : l ++ k <> [] <-> l <> [] \/ k <> [].
Proof. destruct l, k; simpl; split; intuition congruence. Qed.

Lemma walk_items_found path depth kvs (bad : json -> Prop) :
  (forall v p, _walk v p (depth + 1) <> [] <-> bad v) ->
  walk_items path depth kvs <> [] <-> exists k v, (k, v) ∈ kvs /\ (_key_is_time_limited k = true \/ bad v).
Proof.
  intros Hb. induction kvs as [|[k v] kvs IH]; simpl.
  - split; [done|]. intros (k & v & []%elem_of_nil & _).
  - rewrite app_not_nil, IH. clear IH. split.
    + intros [H|(k' & v' & Hin & H)]; [|exists k', v'; split; [by right|done]]. exists k, v. split; [by left|].
      destruct (_key_is_time_limited k); [by left|right]. by eapply Hb.
    + intros (k' & v' & [[= -> ->]|Hin]%elem_of_cons & H); [left|right; eauto].
      destruct (_key_is_time_limited k); [done|]. apply Hb. by destruct H.
Qed.

Lemma walk_elements_found path depth i l (bad : json -> Prop) :
  (forall v p, _walk v p (depth + 1) <> [] <-> bad v) -> walk_elements path depth i l <> [] <-> exists v, v ∈ l /\ bad v.
Proof.
  intros Hb. revert i. induction l as [|v l IH]; intros i; simpl.
  - split; [done|]. intros (v & []%elem_of_nil & _).
  - rewrite app_not_nil, IH, Hb. setoid_rewrite elem_of_cons. naive_solver.
Qed.

Lemma tainted_object n kvs :
  tainted n (JObj kvs) <-> exists k v, (k, v) ∈ kvs /\ (_key_is_time_limited k = true \/ match n with O => False | S n => tainted n v end).
Proof.
  split; [inversion 1; subst; eauto 6|]. intros (k & v & Hin & [Hk|Hv]); [by eapply tainted_key|].
  destruct n; [done|by eapply tainted_value].
Qed.
Lemma tainted_array n l : tainted n (JArr l) <-> exists v, v ∈ l /\ match n with O => False | S n => tainted n v end.
Proof. split; [inversion 1; subst; eauto|]. intros (v & Hin & Hv). destruct n; [done|by eapply tainted_item]. Qed.

Lemma walk_step n v path depth :
  depth <= _MAX_DEPTH -> (forall v p, _walk v p (depth + 1) <> [] <-> match n with O => False | S n => tainted n v end) ->
  _walk v path depth <> [] <-> tainted n v.
Proof.
  intros Hle Hb. destruct v.
  5: { rewrite walk_array, tainted_array by done. by apply walk_elements_found. }
  5: { rewrite walk_object, tainted_object by done. by apply walk_items_found. }
  all: simpl; destruct (Z.gtb_spec depth _MAX_DEPTH); [lia|].
  4: { destruct (_string_is_time_limited s) eqn:E; split; [by constructor|done|done|inversion 1; subst; congruence]. }
  all: split; [done|inversion 1].
Qed.

Lemma walk_tainted n v path depth : depth = _MAX_DEPTH - Z.of_nat n -> _walk v path depth <> [] <-> tainted n v.
Proof.
  revert v path depth. induction n as [|n IH]; intros v path depth Hd.
  - assert (Hb : forall v p, _walk v p (depth + 1) <> [] <-> False) by (intros v' p; by rewrite walk_too_deep by lia).
    apply walk_step; [lia|done].
  - assert (Hb : forall v p, _walk v p (depth + 1) <> [] <-> tainted n v) by (intros v' p; apply IH; lia).
    apply walk_step; [lia|done].
Qed.

(** The detector is exact to eight levels: it reports a path exactly when the
    payload carries, at most that deep, a URL with a credential in its query or a
    key that names one. *)
Theorem detector_exact payload : find_time_limited_paths payload <> [] <-> tainted 8 (JObj payload).
Proof. unfold find_time_limited_paths. by apply walk_tainted. Qed.
End detector.
