(* ===== verification/Replay.v ===== *)
(** * Replaying orphaned ledger rows

    The replay half of [tasks/recovery_policy.py], [tasks/recovery_replay.py] and
    the handler of [tasks/reenqueue.py].  Its one session is the one of CloudJobs.v.
    [connect_ok] and [queue_ok] say whether reaching the broker and building an
    agent's queue succeed, [agents_at] what the [agents] table holds. *)
From S2P Require Import Prelude Stage StageSql StateErr Selection Breaker CloudJobs Callbacks UploadReports Recovery ReplaySafety.
From stdpp Require Import pretty options.
Local Open Scope Z_scope.

(** ** Tallies *)

Record tally : Type := Tally { reenqueued : Z; skipped : Z; errored : Z; unreplayable : Z }.
Definition _zero : tally := Tally 0 0 0 0.

Inductive mark : Type := Reenqueued | Skipped | Errored | Unreplayable.
Definition add (m : mark) (t : tally) : tally :=
  match m with
  | Reenqueued => Tally (reenqueued t + 1) (skipped t) (errored t) (unreplayable t)
  | Skipped => Tally (reenqueued t) (skipped t + 1) (errored t) (unreplayable t)
  | Errored => Tally (reenqueued t) (skipped t) (errored t + 1) (unreplayable t)
  | Unreplayable => Tally (reenqueued t) (skipped t) (errored t) (unreplayable t + 1)
  end.

(** ** The plan *)

Record _RegenTarget : Type := RegenTarget { target_key : string; target_function : string; target_payload : list (string * json) }.
Record _OwnerGroup : Type := OwnerGroup { owner_id : string; rows : list SchedulingLedger }.
Record _OwnerPlan : Type := OwnerPlan { groups : list _OwnerGroup; ownerless : list SchedulingLedger }.
Record _ReplayPlan : Type := ReplayPlan {
  regenerated : list _RegenTarget;
  controller_rows : list SchedulingLedger;
  push_rows : list SchedulingLedger;
  other_agent_rows : list SchedulingLedger;
}.

Definition is_regenerated (r : SchedulingLedger) : bool := bool_decide (function r ∈ LEDGER_REPLAY_REGENERATED).
Definition routed (to : string) (r : SchedulingLedger) : bool := bool_decide (routing r = to).
Definition is_push (r : SchedulingLedger) : bool := bool_decide (function r = "push_file"%string).
Definition target (r : SchedulingLedger) : _RegenTarget := RegenTarget (key r) (function r) (payload r).

Definition _plan_replay (orphaned : list SchedulingLedger) : _ReplayPlan :=
  let replayable := List.filter (fun r => negb (is_regenerated r)) orphaned in
  let agent_rows := List.filter (routed "agent") replayable in
  ReplayPlan (target <$> List.filter is_regenerated orphaned) (List.filter (routed "controller") replayable)
    (List.filter is_push agent_rows) (List.filter (fun r => negb (is_push r)) agent_rows).

(** ** Owners: [enqueue_router.py] *)

Record Agent : Type := MkAgent { agent_id : string; agent_kind : string; revoked_at : option Z; last_seen_at : option Z }.

Definition select_agents_by_ids (agents : list Agent) (ids : list string) (kind : option string) : gset string :=
  list_to_set (agent_id <$> List.filter (fun a =>
    bool_decide (agent_id a ∈ ids) && negb (is_not_null (revoked_at a)) && is_not_null (last_seen_at a)
    && match kind with Some k => bool_decide (agent_kind a = k) | None => true end) agents).

Definition lane_for_task (task : string) : option string :=
  if bool_decide (task = "process_file"%string) then Some "analyze"%string
  else if bool_decide (task ∈ ["extract_file_metadata"; "scan_directory"; "execute_approved_batch"; "write_file_tags"; "write_cue_sheet";
                               "read_companion_files"; "capture_companion_source"; "extract_companion_features"; "quarantine_companion"]%string)
  then Some "meta"%string
  else if bool_decide (task ∈ ["s3_upload"; "push_file"]%string) then Some "io"%string
  else None.

Definition queue_name (agent lane : string) : string := "phaze-agent-" +:+ agent +:+ "-" +:+ lane.

(** ** The replay's state *)

Inductive rexn : Type := Cloud (e : cexn) | StaleLedgerRow | UnreplayableRow | ClashingKeyword | Unroutable | Unkeyed (e : key_error).

(** The arguments of one call of [queue.enqueue], under the key the hook gives;
    [sent] has the calls with their answers. *)
Record sent_job : Type := Sent {
  sent_queue : string;
  sent_function : string;
  sent_key : string;
  sent_timeout : option Z;
  sent_retries : option Z;
  sent_payload : list (string * json);
}.

Record rworld : Type := RWorld { cloud : world; stages : gmap string tally; sent : list (sent_job * enqueue_fate) }.
Abbreviation R := (SE rworld rexn).

Definition on_cloud {A} (m : M A) : R A := fun w =>
  let (c, r) := m (cloud w) in
  (RWorld c (stages w) (sent w), match r with Ok a => Ok a | Raise e => Raise (Cloud e) end).

Definition bump (fn : string) (m : mark) : R unit := fun w =>
  (RWorld (cloud w) (<[fn := add m (default _zero (stages w !! fn))]> (stages w)) (sent w), Ok tt).

Section replay.
Context (repr : json -> string) (sha256 lower : string -> string) (netloc_ok : string -> bool).
Context (others : nat -> CloudJobs.tables -> CloudJobs.tables) (stmt_ok : nat -> bool) (commit_at : nat -> commit_fate).
Context (connect_ok queue_ok : nat -> bool) (agents_at : nat -> list Agent) (agent_at : nat -> option string).
Context (s3_create : nat -> create_fate) (s3_at : nat -> s3_fate) (enqueue_at : nat -> enqueue_fate).
Context (digest : string -> Z) (cfg : CloudSettings) (now : datetime).

Abbreviation query := (query others stmt_ok).
Abbreviation commit := (commit others commit_at).

Fixpoint group_row (owner : string) (r : SchedulingLedger) (gs : list _OwnerGroup) : list _OwnerGroup :=
  match gs with
  | [] => [OwnerGroup owner [r]]
  | g :: gs' => if bool_decide (owner_id g = owner) then OwnerGroup owner (rows g ++ [r]) :: gs' else g :: group_row owner r gs'
  end.

Definition owner (r : SchedulingLedger) : option string := py_str repr <$> payload_get "agent_id" (payload r).

Definition _plan_owner_groups (rs : list SchedulingLedger) : _OwnerPlan :=
  OwnerPlan (foldl (fun gs r => match owner r with Some o => group_row o r gs | None => gs end) [] rs)
    (List.filter (fun r => match owner r with Some _ => false | None => true end) rs).

(** A keyword given twice is refused before the call. *)
Definition clashes (r : SchedulingLedger) : bool :=
  let has k := bool_decide (is_Some (dict_get k (payload r))) in
  has "key"%string || (has "timeout"%string && is_not_null (timeout r)) || (has "retries"%string && is_not_null (retries r)).

Definition connect : M unit := fun w =>
  let n := calls w in if connect_ok n then (elapse others w, Ok tt) else (elapse others w, Raise BrokerError).

(** [queue.enqueue]: the hook keys the job and writes the ledger, then the job lands. *)
Definition send (queue : string) (r : SchedulingLedger) : R bool := fun w =>
  match apply_deterministic_key repr sha256 (function r) (key r) (payload r) with
  | Raise e => (w, Raise (Unkeyed e))
  | Ok k =>
      let n := calls (cloud w) in
      let c := elapse others (cloud w) in
      let hooked h := land h false (SaqJob (function r) k queue 0 None None) c in
      let sent' := sent w ++ [(Sent queue (function r) k (timeout r) (retries r) (payload r), enqueue_at n)] in
      match enqueue_at n with
      | EnqJob => (RWorld (hooked true) (stages w) sent', Ok true)
      | EnqDedup h => (RWorld (hooked h) (stages w) sent', Ok false)
      | EnqRaises h _ => (RWorld (hooked h) (stages w) sent', Raise (Cloud BrokerError))
      end
  end.

Definition _replay_row (queue : string) (r : SchedulingLedger) : R unit :=
  match find_time_limited_paths lower netloc_ok (payload r) with
  | _ :: _ => bump (function r) Unreplayable
  | [] =>
      seq! on_cloud connect;
      if clashes r then raise ClashingKeyword
      else run! landed <- send queue r; bump (function r) (if landed : bool then Reenqueued else Skipped)
  end.

Definition _replay_row_isolated (queue : string) (r : SchedulingLedger) : R unit :=
  catch (_replay_row queue r) (fun _ => bump (function r) Errored).

Definition _replay_owner_group (g : _OwnerGroup) : R unit :=
  for_each (rows g) (fun r =>
    match lane_for_task (function r) with
    | None => bump (function r) Errored
    | Some lane => fun w =>
        if queue_ok (calls (cloud w)) then _replay_row_isolated (queue_name (owner_id g) lane) r (RWorld (tick (cloud w)) (stages w) (sent w))
        else bump (function r) Errored (RWorld (tick (cloud w)) (stages w) (sent w))
    end).

Definition _replay_agent_rows_by_owner (rs : list SchedulingLedger) (required_kind : option string) : R unit :=
  let plan := _plan_owner_groups rs in
  match groups plan with
  | [] => ret tt
  | gs =>
      run! live <- on_cloud (query (fun n _ => select_agents_by_ids (agents_at n) (owner_id <$> gs) required_kind));
      seq! on_cloud commit;
      for_each gs (fun g => if bool_decide (owner_id g ∈ live) then _replay_owner_group g else ret tt)
  end.

(** ** Regeneration *)

Definition undo {A} (e : rexn) : R A :=
  seq! on_cloud (rollback others);
  seq! on_cloud (drop_pending_s3_enqueues others s3_at);
  raise match e with
        | Cloud NoCloudJobToRedriveError => StaleLedgerRow
        | Cloud (NoActiveAgentError | S3StagingError) => UnreplayableRow
        | _ => e
        end.

Definition _regenerate_s3_upload (t : _RegenTarget) : R unit :=
  match payload_get "file_id" (target_payload t) with
  | None => raise UnreplayableRow
  | Some raw_fid =>
      match uuid (py_str repr raw_fid) with
      | None => raise UnreplayableRow
      | Some fid =>
          run! f <- on_cloud (query (fun _ t => CloudJobs.files t !! fid));
          match f with
          | None => raise UnreplayableRow
          | Some f =>
              seq! catch (on_cloud (seq! redrive_upload others stmt_ok agent_at s3_create s3_at digest cfg now None fid f; commit)) undo;
              run! fired <- on_cloud (flush_pending_s3_enqueues others enqueue_at);
              bump (target_function t) (if fired =? 0 then Skipped else Reenqueued)
          end
      end
  end.

Definition _regenerate_row_isolated (t : _RegenTarget) : R unit :=
  catch (_regenerate_s3_upload t)
    (fun e => bump (target_function t) (match e with StaleLedgerRow | UnreplayableRow => Unreplayable | _ => Errored end)).

(** ** The handler *)

Definition replay (plan : _ReplayPlan) : R unit :=
  seq! for_each (controller_rows plan) (_replay_row_isolated "controller");
  seq! _replay_agent_rows_by_owner (push_rows plan) (Some "fileserver"%string);
  seq! _replay_agent_rows_by_owner (other_agent_rows plan) None;
  for_each (regenerated plan) _regenerate_row_isolated.

Inductive recovery : Type :=
| NoOp
| Recovered (detected_loss forced : bool) (unreplayable_total : Z) (stages : gmap string tally).

Definition count_inflight_jobs (probe_ok : bool) (s : snapshot) : Z :=
  if probe_ok then Z.of_nat (size (filter (fun p => p.2 ∈ _LIVE_SAQ_STATUSES) (saq_jobs (tables s)))) else 0.

Definition total_unreplayable (m : gmap string tally) : Z := map_fold (fun _ t n => unreplayable t + n) 0 m.

(** [reads]: whether the session's reads succeed; [probed], [listed]: whether the two
    probes of [saq_jobs] do; [read n]: what the statements after the probe see. *)
Definition recover_orphaned_work (reads probed listed : bool) (first : snapshot) (read : nat -> snapshot)
    (force : bool) (only_keys : option (gset string)) : R recovery :=
  let detected_loss := count_inflight_jobs probed first =? 0 in
  if negb force && negb detected_loss then ret NoOp
  else if negb reads then raise (Cloud DbError)
  else match find_orphans repr read listed only_keys with
       | Raise _ => raise (Cloud ValueError)
       | Ok orphaned =>
           seq! on_cloud commit;
           seq! (fun w => (RWorld (cloud w) (list_to_map ((fun fn => (fn, _zero)) <$> _ALL_KEYED_FUNCTIONS)) (sent w), Ok tt));
           seq! replay (_plan_replay orphaned);
           fun w => (w, Ok (Recovered detected_loss force (total_unreplayable (stages w)) (stages w)))
       end.
End replay.

(** ** Accounting *)

(** The tally of some marks, each under the function of its row. *)
Definition tallied (ms : list (SchedulingLedger * mark)) : gmap string tally :=
  foldl (fun st (rm : SchedulingLedger * mark) => <[function rm.1 := add rm.2 (default _zero (st !! function rm.1))]> st)
    (list_to_map ((fun fn => (fn, _zero)) <$> _ALL_KEYED_FUNCTIONS)) ms.

Section effects.
Context (repr : json -> string) (sha256 lower : string -> string) (netloc_ok : string -> bool).
Context (connect_ok queue_ok : nat -> bool).

(** Where a row may go, and as what job. *)
Definition queue_of (r : SchedulingLedger) : option string :=
  if routed "controller" r then Some "controller"%string
  else o ← owner repr r; lane ← lane_for_task (function r); Some (queue_name o lane).

Definition job_of (r : SchedulingLedger) : option sent_job :=
  match queue_of r, apply_deterministic_key repr sha256 (function r) (key r) (payload r) with
  | Some q, Ok k => Some (Sent q (function r) k (timeout r) (retries r) (payload r))
  | _, _ => None
  end.

Definition unexpiring (r : SchedulingLedger) : Prop := find_time_limited_paths lower netloc_ok (payload r) = [].

(** [js] are the jobs of some of the rows, in their order. *)
Definition jobs_of (rs : list SchedulingLedger) (js : list sent_job) : Prop :=
  exists rs', rs' `sublist_of` rs /\ Some <$> js = job_of <$> rs' /\ Forall unexpiring rs'.

Lemma jobs_nil : jobs_of [] [].
Proof. by exists []. Qed.
Lemma jobs_skip rs l js : jobs_of rs js -> jobs_of (rs ++ l) js.
Proof. intros (rs' & Hs & Hj & Hc). exists rs'. split; [|done]. by apply sublist_inserts_r. Qed.
Lemma jobs_one rs r js j : jobs_of rs js -> job_of r = Some j -> unexpiring r -> jobs_of (rs ++ [r]) (js ++ [j]).
Proof.
  intros (rs' & Hs & Hj & Hc) Hr Hcl. exists (rs' ++ [r]). split; [by apply sublist_app|]. split.
  - rewrite !fmap_app, Hj. simpl. by rewrite Hr.
  - by apply Forall_app; split; [|constructor].
Qed.

(** Why a row cannot be sent: the broker or its queue does not answer, the call or
    its key cannot be built, or its enqueue fails. *)
Definition troubled (js : list (sent_job * enqueue_fate)) (r : SchedulingLedger) : Prop :=
  (exists n, connect_ok n = false \/ queue_ok n = false) \/ clashes r = true \/ job_of r = None \/
  exists j h e, job_of r = Some j /\ (j, EnqRaises h e) ∈ js.

(** What a mark says of a row that is replayed as it is: an unreplayable one may
    carry a credential, a re-enqueued one has landed, a skipped one was there, an
    error has a cause. *)
Definition justified (js : list (sent_job * enqueue_fate)) (rm : SchedulingLedger * mark) : Prop :=
  is_regenerated rm.1 = false ->
  match rm.2 with
  | Errored => troubled js rm.1
  | Unreplayable => ~ unexpiring rm.1
  | Reenqueued => exists j, job_of rm.1 = Some j /\ (j, EnqJob) ∈ js
  | Skipped => exists j h, job_of rm.1 = Some j /\ (j, EnqDedup h) ∈ js
  end.

Lemma justified_more js l ms : Forall (justified js) ms -> Forall (justified (js ++ l)) ms.
Proof.
  apply List.Forall_impl. intros [r m] H Hr. specialize (H Hr). destruct m; simpl in *.
  - destruct H as (j & ? & ?). exists j. split; [done|]. apply elem_of_app. by left.
  - destruct H as (j & h & ? & ?). exists j, h. split; [done|]. apply elem_of_app. by left.
  - destruct H as [|[|[|(j & h & e & ? & ?)]]]; [by left|right; by left|right; right; by left|]. do 3 right. exists j, h, e. split; [done|]. apply elem_of_app. by left.
  - done.
Qed.

(** Jobs of [rs] sent so far, and the rows [hs] marked. *)
Definition at_ (rs hs : list SchedulingLedger) (w : rworld) : Prop :=
  jobs_of rs (sent w).*1 /\ exists ms, ms.*1 = hs /\ stages w = tallied ms /\ Forall (justified (sent w)) ms.

Lemma at_skip rs l hs w : at_ rs hs w -> at_ (rs ++ l) hs w.
Proof. intros [? ?]. split; [by apply jobs_skip|done]. Qed.

Lemma at_cloud {A} rs hs (m : M A) : triple (at_ rs hs) (on_cloud m) (fun _ => at_ rs hs) (at_ rs hs).
Proof. intros w Hw. unfold on_cloud. by destruct (m (cloud w)) as [c [a|e]]. Qed.

Lemma at_bump rs hs r m R : triple (fun w => at_ rs hs w /\ justified (sent w) (r, m)) (bump (function r) m) (fun _ => at_ rs (hs ++ [r])) R.
Proof.
  intros w [[Hj (ms & Hhs & Hst & Hms)] Hjust]. split; [done|]. exists (ms ++ [(r, m)]). split; [by rewrite fmap_app, Hhs|].
  split; [|apply Forall_app; split; [done|by apply Forall_singleton]]. unfold tallied in *. rewrite foldl_app. simpl. by rewrite Hst.
Qed.

Lemma at_errored rs hs r R : triple (fun w => at_ rs hs w /\ troubled (sent w) r) (bump (function r) Errored) (fun _ => at_ rs (hs ++ [r])) R.
Proof. intros w [Hw Ht]. apply (at_bump rs hs r Errored R). split; [done|]. intros _. exact Ht. Qed.

(** ** One row *)

Section rows.
Context (others : nat -> CloudJobs.tables -> CloudJobs.tables) (stmt_ok : nat -> bool) (commit_at : nat -> commit_fate).
Context (agents_at : nat -> list Agent) (agent_at : nat -> option string).
Context (s3_create : nat -> create_fate) (s3_at : nat -> s3_fate) (enqueue_at : nat -> enqueue_fate).
Context (digest : string -> Z) (cfg : CloudSettings) (now : datetime).

Abbreviation replay_row := (_replay_row repr sha256 lower netloc_ok others connect_ok enqueue_at).
Abbreviation replay_row_isolated := (_replay_row_isolated repr sha256 lower netloc_ok others connect_ok enqueue_at).
Abbreviation replay_owner_group := (_replay_owner_group repr sha256 lower netloc_ok others connect_ok queue_ok enqueue_at).
Abbreviation replay_by_owner := (_replay_agent_rows_by_owner repr sha256 lower netloc_ok others stmt_ok commit_at connect_ok queue_ok agents_at enqueue_at).
Abbreviation regenerate := (_regenerate_row_isolated repr others stmt_ok commit_at agent_at s3_create s3_at enqueue_at digest cfg now).

Lemma at_send rs hs q r :
  queue_of r = Some q -> unexpiring r ->
  triple (at_ rs hs) (send repr sha256 others enqueue_at q r)
    (fun b w => at_ (rs ++ [r]) hs w /\ justified (sent w) (r, if b : bool then Reenqueued else Skipped))
    (fun w => at_ (rs ++ [r]) hs w /\ troubled (sent w) r).
Proof.
  intros Hq Hc w [Hj (ms & Hhs & Hst & Hms)]. unfold send. destruct (apply_deterministic_key _ _ _ _ _) as [key'|e] eqn:E.
  2: { split; [by apply at_skip; split; [|exists ms]|]. right. right. left. unfold job_of. by rewrite Hq, E. }
  set (j := Sent q (function r) key' (timeout r) (retries r) (payload r)).
  assert (Hjob : job_of r = Some j) by (unfold job_of; by rewrite Hq, E).
  assert (Hs : forall c a, at_ (rs ++ [r]) hs (RWorld c (stages w) (sent w ++ [(j, a)]))).
  { intros c a. split; [simpl; rewrite fmap_app; by apply jobs_one|]. exists ms. split_and!; [done|done|]. by apply justified_more. }
  destruct (enqueue_at _); (split; [apply Hs|]).
  - intros _. exists j. split; [done|]. apply elem_of_app. right. by left.
  - intros _. eexists j, _. split; [done|]. apply elem_of_app. right. by left.
  - do 3 right. eexists j, _, _. split; [done|]. apply elem_of_app. right. by left.
Qed.

Lemma at_replay_row rs hs q r :
  queue_of r = Some q ->
  triple (at_ rs hs) (replay_row q r) (fun _ => at_ (rs ++ [r]) (hs ++ [r])) (fun w => at_ (rs ++ [r]) hs w /\ troubled (sent w) r).
Proof.
  intros Hq. unfold _replay_row. destruct (find_time_limited_paths _ _ _) as [|p ps] eqn:E.
  - apply (triples_bind _ _ _ (fun _ => at_ rs hs)).
    + intros w Hw. unfold on_cloud, connect. destruct (connect_ok _) eqn:Ec; [done|]. split; [by apply at_skip|]. left. exists (calls (cloud w)). by left.
    + intros _. destruct (clashes r) eqn:Ek; [intros w Hw; split; [by apply at_skip|right; by left]|].
      eapply triples_bind; [by apply at_send|]. intros b. apply at_bump.
  - eapply triple_weaken; [apply (at_bump (rs ++ [r]) hs r Unreplayable (fun _ => False))| |done|done]. intros w Hw. split; [by apply at_skip|].
    intros _. unfold unexpiring. simpl. by rewrite E.
Qed.

Lemma at_isolated rs hs q r :
  queue_of r = Some q -> triple (at_ rs hs) (replay_row_isolated q r) (fun _ => at_ (rs ++ [r]) (hs ++ [r])) (fun _ => False).
Proof. intros Hq. eapply triples_catch; [by apply at_replay_row|]. intros e. apply at_errored. Qed.

Lemma at_each rs hs (l : list SchedulingLedger) (body : SchedulingLedger -> R unit) :
  (forall rs hs r, r ∈ l -> triple (at_ rs hs) (body r) (fun _ => at_ (rs ++ [r]) (hs ++ [r])) (fun _ => False)) ->
  triple (at_ rs hs) (for_each l body) (fun _ => at_ (rs ++ l) (hs ++ l)) (fun _ => False).
Proof.
  revert rs hs. induction l as [|r l IH]; intros rs hs Hb; simpl.
  - rewrite !app_nil_r. by intros w.
  - eapply triples_bind; [apply Hb; by left|]. intros ?. eapply triple_weaken; [apply (IH (rs ++ [r]) (hs ++ [r])); intros rs' hs' r' Hr; apply Hb; by right|done| |done].
    intros ? w. by rewrite <- !app_assoc.
Qed.

(** ** The rows of an owner *)

Definition grouped (gs : list _OwnerGroup) : list SchedulingLedger := mjoin (rows <$> gs).
Definition owns_its_rows (g : _OwnerGroup) : Prop := forall r, r ∈ rows g -> owner repr r = Some (owner_id g) /\ routed "controller" r = false.

Lemma at_owner_group rs hs g :
  owns_its_rows g -> triple (at_ rs hs) (replay_owner_group g) (fun _ => at_ (rs ++ rows g) (hs ++ rows g)) (fun _ => False).
Proof.
  intros Hg. apply at_each. intros rs' hs' r [Ho Hc]%Hg. destruct (lane_for_task (function r)) as [lane|] eqn:El.
  - intros w Hw. destruct (queue_ok _) eqn:Eq.
    + apply at_isolated; [|done]. unfold queue_of. rewrite Hc, Ho. simpl. by rewrite El.
    + apply (at_errored (rs' ++ [r]) hs' r (fun _ => False)). split; [by apply at_skip|]. left. exists (calls (cloud w)). by right.
  - eapply triple_weaken; [apply (at_errored (rs' ++ [r]) hs' r (fun _ => False))| |done|done]. intros w Hw. split; [by apply at_skip|].
    right. right. left. unfold job_of, queue_of. rewrite Hc, Ho. simpl. by rewrite El.
Qed.

Definition live_rows (live : gset string) (gs : list _OwnerGroup) : list SchedulingLedger :=
  grouped (List.filter (fun g => bool_decide (owner_id g ∈ live)) gs).

Lemma at_groups live gs rs hs :
  Forall owns_its_rows gs ->
  triple (at_ rs hs) (for_each gs (fun g => if bool_decide (owner_id g ∈ live) then replay_owner_group g else ret tt))
    (fun _ => at_ (rs ++ grouped gs) (hs ++ live_rows live gs)) (fun _ => False).
Proof.
  revert rs hs. induction gs as [|g gs IH]; intros rs hs Hgs; simpl.
  - unfold grouped, live_rows. simpl. rewrite !app_nil_r. by intros w.
  - inversion Hgs as [|? ? Hg Hgs']; subst. unfold live_rows, grouped in *. simpl.
    apply (triples_bind _ _ _ (fun _ => at_ (rs ++ rows g) (hs ++ if bool_decide (owner_id g ∈ live) then rows g else []))).
    + destruct (bool_decide (owner_id g ∈ live)); [by apply at_owner_group|]. rewrite app_nil_r. intros w. apply at_skip.
    + intros _. eapply triple_weaken; [by apply IH|done| |done]. intros ? w. rewrite <- !app_assoc.
      by destruct (bool_decide (owner_id g ∈ live)).
Qed.

Lemma grouped_app gs gs' : grouped (gs ++ gs') = grouped gs ++ grouped gs'.
Proof. unfold grouped. by rewrite fmap_app, join_app. Qed.

Lemma group_row_rows o r gs : grouped (group_row o r gs) ≡ₚ grouped gs ++ [r].
Proof.
  unfold grouped. induction gs as [|g gs IH]; simpl; [done|]. case_bool_decide; simpl.
  - rewrite <- !app_assoc. apply Permutation_app_head. by rewrite Permutation_app_comm.
  - by rewrite IH, app_assoc.
Qed.

Lemma group_row_owned o r gs :
  owner repr r = Some o -> routed "controller" r = false -> Forall owns_its_rows gs -> Forall owns_its_rows (group_row o r gs).
Proof.
  intros Ho Hr. assert (Hone : forall l, (forall r', r' ∈ l -> owner repr r' = Some o /\ routed "controller" r' = false) -> owns_its_rows (OwnerGroup o (l ++ [r]))).
  { intros l Hl r' [?|Hr']%elem_of_app; simpl; [by apply Hl|]. apply list_elem_of_singleton in Hr' as ->. by split. }
  induction gs as [|g gs IH]; simpl; intros Hg.
  - constructor; [|done]. apply (Hone []). intros r' []%elem_of_nil.
  - inversion Hg; subst. case_bool_decide; subst; constructor; auto.
Qed.

Lemma plan_groups rs :
  Forall (fun r => routed "controller" r = false) rs ->
  Forall owns_its_rows (groups (_plan_owner_groups repr rs)) /\
  rs ≡ₚ grouped (groups (_plan_owner_groups repr rs)) ++ ownerless (_plan_owner_groups repr rs).
Proof.
  unfold _plan_owner_groups. simpl. intros Hrs.
  cut (forall gs, Forall owns_its_rows gs -> let gs' := foldl (fun gs r => match owner repr r with Some o => group_row o r gs | None => gs end) gs rs in
    Forall owns_its_rows gs' /\ grouped gs ++ rs ≡ₚ grouped gs' ++ List.filter (fun r => match owner repr r with Some _ => false | None => true end) rs).
  { intros H. by apply (H []). }
  induction Hrs as [|r rs Hr Hrs IH]; intros gs Hgs; simpl; [done|].
  destruct (owner repr r) as [o|] eqn:Ho.
  - destruct (IH (group_row o r gs)) as [Ho' Hp]; [by apply group_row_owned|]. split; [done|].
    rewrite <- Hp, group_row_rows, <- app_assoc. done.
  - destruct (IH gs Hgs) as [Ho' Hp]. split; [done|]. rewrite <- !Permutation_middle. by rewrite Hp.
Qed.

Lemma live_rows_split live gs :
  Forall owns_its_rows gs ->
  exists rest, grouped gs ≡ₚ live_rows live gs ++ rest /\
    Forall (fun r => exists g, g ∈ gs /\ owner repr r = Some (owner_id g) /\ owner_id g ∉ live) rest /\
    Forall (fun r => routed "controller" r = false /\ exists o, owner repr r = Some o /\ o ∈ live) (live_rows live gs).
Proof.
  unfold live_rows, grouped. induction gs as [|g gs IH]; intros Hgs; simpl; [by exists []|].
  inversion Hgs as [|? ? Hg Hgs']; subst. destruct (IH Hgs') as (rest & Hp & Hr & Hl).
  assert (Hr' : Forall (fun r => exists g', g' ∈ g :: gs /\ owner repr r = Some (owner_id g') /\ owner_id g' ∉ live) rest).
  { eapply Forall_impl; [exact Hr|]. intros r (g' & Hin & ?). exists g'. split; [by right|done]. }
  case_bool_decide; simpl.
  - exists rest. split; [by rewrite Hp, app_assoc|]. split; [done|]. apply Forall_app. split; [|done].
    apply Forall_forall. intros r [Ho Hc]%Hg. split; [done|]. by exists (owner_id g).
  - exists (rows g ++ rest). split; [rewrite Hp; by rewrite Permutation_app_swap_app|]. split; [|done]. apply Forall_app. split; [|done].
    apply Forall_forall. intros r Hin. exists g. split; [by left|]. split; [by apply Hg|done].
Qed.

(** The agent is registered, not revoked, and has been seen. *)
Definition here (kind : option string) (n : nat) (o : string) : Prop :=
  exists a, a ∈ agents_at n /\ agent_id a = o /\ revoked_at a = None /\ is_Some (last_seen_at a) /\ (forall k, kind = Some k -> agent_kind a = k).

Lemma elem_of_select ids kind n o : o ∈ select_agents_by_ids (agents_at n) ids kind <-> o ∈ ids /\ here kind n o.
Proof.
  unfold select_agents_by_ids, here. rewrite elem_of_list_to_set, list_elem_of_fmap. setoid_rewrite list_elem_of_In at 1. setoid_rewrite filter_In. split.
  - intros (a & -> & Ha & Hb). bool_prop. apply bool_decide_eq_true in H. split; [done|]. exists a. rewrite list_elem_of_In.
    destruct (revoked_at a); [done|]. destruct (last_seen_at a); [|done]. do 4 (split; [done|]). intros k ->. by apply bool_decide_eq_true in H0.
  - intros (Hin & a & Ha & <- & Hr & [t Ht] & Hk). exists a. split; [done|]. rewrite <- list_elem_of_In. split; [done|].
    rewrite bool_decide_eq_true_2, Hr, Ht by done. simpl. destruct kind as [k|]; [|done]. apply bool_decide_eq_true. by apply Hk.
Qed.

(** No one to send the row to: it names no agent, or its agent was away at [n]. *)
Definition unowned (kind : option string) (n : nat) (r : SchedulingLedger) : Prop :=
  owner repr r = None \/ exists o, owner repr r = Some o /\ ~ here kind n o.

(** The order rows are replayed in. *)
Definition by_owner (l : list SchedulingLedger) : list SchedulingLedger := grouped (groups (_plan_owner_groups repr l)).

Lemma at_query {A} rs hs (q : nat -> CloudJobs.tables -> A) :
  triple (at_ rs hs) (on_cloud (query others stmt_ok q)) (fun a w => at_ rs hs w /\ exists n t, a = q n t) (at_ rs hs).
Proof.
  intros w Hw. unfold on_cloud, query, stmt. destruct (poisoned _); [done|]. destruct (stmt_ok _); [|done]. split; [done|eauto].
Qed.

(** The rows of [l] split: those handled have their agent, the others have none. *)
Definition split_at (kind : option string) (n : nat) (l handled rest : list SchedulingLedger) : Prop :=
  l ≡ₚ handled ++ rest /\ Forall (unowned kind n) rest /\ Forall (fun r => ~ unowned kind n r) handled.

Lemma at_by_owner rs hs l kind :
  Forall (fun r => routed "controller" r = false) l ->
  triple (at_ rs hs) (replay_by_owner l kind)
    (fun _ w => exists n handled rest, split_at kind n l handled rest /\ at_ (rs ++ by_owner l) (hs ++ handled) w)
    (fun w => exists hs', at_ rs hs' w).
Proof.
  intros [Howns Hperm]%plan_groups. unfold _replay_agent_rows_by_owner, by_owner.
  assert (Hless : forall n, Forall (unowned kind n) (ownerless (_plan_owner_groups repr l))).
  { intros n. apply Forall_forall. intros r [_ Hr]%list_elem_of_In%filter_In. left. by destruct (owner repr r). }
  destruct (groups (_plan_owner_groups repr l)) as [|g gs].
  - intros w Hw. exists 0%nat, [], l. unfold grouped in *. simpl in *. rewrite !app_nil_r. split; [|done]. split; [done|]. split; [by rewrite Hperm|constructor].
  - revert Howns Hperm. generalize (g :: gs). intros gs' Howns Hperm.
    eapply triples_bind; [eapply triple_weaken; [apply (at_query rs hs)|done|intros ? w Hw; exact Hw|eauto]|]. intros live.
    apply (triples_bind _ _ _ (fun _ w => at_ rs hs w /\ exists n, live = select_agents_by_ids (agents_at n) (owner_id <$> gs') kind)).
    { intros w [Hw (n & t & ->)]. pose proof (at_cloud rs hs (commit others commit_at) w Hw) as H. destruct (on_cloud _ w) as [w' [[]|e]]; eauto. }
    intros ? w [Hw [n ->]]. pose proof (at_groups (select_agents_by_ids (agents_at n) (owner_id <$> gs') kind) gs' rs hs Howns w Hw) as H.
    destruct (for_each gs' _ w) as [w' [[]|e]]; [|done].
    destruct (live_rows_split (select_agents_by_ids (agents_at n) (owner_id <$> gs') kind) gs' Howns) as (rest & Hr & Haway & Hlive).
    exists n. eexists _, (rest ++ ownerless (_plan_owner_groups repr l)). split; [|exact H]. split; [etrans; [exact Hperm|]; by rewrite Hr, app_assoc|]. split.
    + apply Forall_app. split; [|done]. eapply Forall_impl; [exact Haway|]. intros r (g' & Hin & Ho & Hn).
      right. exists (owner_id g'). split; [done|]. rewrite elem_of_select in Hn. intros Hh. apply Hn. split; [|done]. apply list_elem_of_fmap. eauto.
    + eapply Forall_impl; [exact Hlive|]. intros r (_ & o & Ho & [_ Hh]%elem_of_select) [Hno|(o' & Ho' & Hn)]; [congruence|].
      rewrite Ho in Ho'. injection Ho' as <-. by apply Hn.
Qed.

Lemma at_regenerate rs hs r : is_regenerated r = true -> triple (at_ rs hs) (regenerate (target r)) (fun _ => at_ rs (hs ++ [r])) (fun _ => False).
Proof.
  intros Hreg. assert (Hb : forall m (R : rworld -> Prop), triple (at_ rs hs) (bump (target_function (target r)) m) (fun _ => at_ rs (hs ++ [r])) R).
  { intros m R w Hw. apply (at_bump rs hs r m R). split; [done|]. unfold justified. simpl. congruence. }
  apply (triples_catch _ _ _ _ (at_ rs hs)); [|intros e; apply Hb].
  unfold _regenerate_s3_upload. destruct (payload_get _ _) as [raw|]; [|by intros w].
  destruct (uuid _) as [fid|]; [|by intros w].
  apply (triples_bind _ _ _ (fun _ => at_ rs hs)); [apply at_cloud|]. intros [f|]; [|by intros w].
  apply (triples_bind _ _ _ (fun _ => at_ rs hs)).
  - apply (triples_catch _ _ _ _ (at_ rs hs)); [apply at_cloud|]. intros e.
    do 2 (apply (triples_bind _ _ _ (fun _ => at_ rs hs)); [apply at_cloud|intros ?]). by intros w.
  - intros ?. apply (triples_bind _ _ _ (fun _ => at_ rs hs)); [apply at_cloud|]. intros fired. apply Hb.
Qed.

Lemma at_regenerate_all rs hs l : Forall (fun r => is_regenerated r = true) l ->
  triple (at_ rs hs) (for_each (target <$> l) regenerate) (fun _ => at_ rs (hs ++ l)) (fun _ => False).
Proof.
  intros Hl. revert hs. induction Hl as [|r l Hr Hl IH]; intros hs; simpl; [rewrite app_nil_r; by intros w|].
  eapply triples_bind; [by apply at_regenerate|]. intros ?. eapply triple_weaken; [apply (IH (hs ++ [r]))|done| |done].
  intros ? w. by rewrite <- app_assoc.
Qed.

Abbreviation recover := (recover_orphaned_work repr sha256 lower netloc_ok others stmt_ok commit_at connect_ok queue_ok agents_at agent_at s3_create s3_at
  enqueue_at digest cfg now).

Definition replay_order (plan : _ReplayPlan) : list SchedulingLedger :=
  controller_rows plan ++ by_owner (push_rows plan) ++ by_owner (other_agent_rows plan).

(** The rows of a plan: [Nat] many of them are accounted for. *)
Definition unrouted (orphaned : list SchedulingLedger) : list SchedulingLedger :=
  List.filter (fun r => negb (is_regenerated r) && negb (routed "controller" r) && negb (routed "agent" r)) orphaned.

Lemma plan_parts orphaned :
  orphaned ≡ₚ List.filter is_regenerated orphaned ++ controller_rows (_plan_replay orphaned) ++ push_rows (_plan_replay orphaned)
    ++ other_agent_rows (_plan_replay orphaned) ++ unrouted orphaned.
Proof.
  unfold _plan_replay, unrouted. simpl. induction orphaned as [|r l IH]; [done|]. simpl.
  destruct (is_regenerated r); simpl; [by rewrite IH at 1|].
  destruct (routed "controller" r) eqn:Ec, (routed "agent" r) eqn:Ea; simpl.
  - unfold routed in *. apply bool_decide_eq_true in Ec, Ea. congruence.
  - rewrite IH at 1. solve_Permutation.
  - destruct (is_push r); simpl; rewrite IH at 1; solve_Permutation.
  - rewrite IH at 1. solve_Permutation.
Qed.

(** Rows that may be left alone: an agent's, and replayed as they are. *)
Definition may_wait (r : SchedulingLedger) : Prop := is_regenerated r = false /\ routed "controller" r = false.

Lemma plan_may_wait orphaned :
  Forall may_wait (push_rows (_plan_replay orphaned)) /\ Forall may_wait (other_agent_rows (_plan_replay orphaned)) /\ Forall may_wait (unrouted orphaned).
Proof.
  assert (H : forall p, Forall may_wait (List.filter p (List.filter (routed "agent") (List.filter (fun r => negb (is_regenerated r)) orphaned)))).
  { intros p. apply Forall_forall. intros r [[[_ Hn]%filter_In Hr]%filter_In _]%list_elem_of_In%filter_In. bool_prop. split; [done|].
    unfold routed in *. apply bool_decide_eq_true in Hr as ->. done. }
  split; [apply H|]. split; [apply H|]. apply Forall_forall. intros r [_ Hr]%list_elem_of_In%filter_In. bool_prop. by split.
Qed.

Lemma plan_kinds orphaned :
  Forall (fun r => is_push r = true) (push_rows (_plan_replay orphaned)) /\
  Forall (fun r => is_push r = false) (other_agent_rows (_plan_replay orphaned)) /\ Forall (fun r => routed "agent" r = false) (unrouted orphaned).
Proof. split_and!; apply Forall_forall; intros r [_ Hr]%list_elem_of_In%filter_In; by bool_prop. Qed.

Lemma may_wait_not_controller l : Forall may_wait l -> Forall (fun r => routed "controller" r = false) l.
Proof. intros H. eapply Forall_impl; [exact H|]. by intros r [_ Hr]. Qed.

Lemma at_controller rs hs l :
  Forall (fun r => routed "controller" r = true) l ->
  triple (at_ rs hs) (for_each l (replay_row_isolated "controller")) (fun _ => at_ (rs ++ l) (hs ++ l)) (fun _ => False).
Proof. rewrite Forall_forall. intros Hl. apply at_each. intros rs' hs' r Hr. apply at_isolated. unfold queue_of. by rewrite (Hl r Hr). Qed.

(** A row left alone: not regenerated, and of no queue, or of an agent that cannot be
    told or was away at the lookup of its kind, [n1] for pushes and [n2] for the
    others. *)
Definition waits (n1 n2 : nat) (r : SchedulingLedger) : Prop :=
  may_wait r /\ (routed "agent" r = true -> if is_push r then unowned (Some "fileserver"%string) n1 r else unowned None n2 r).

Lemma plan_agents orphaned :
  Forall (fun r => routed "agent" r = true) (push_rows (_plan_replay orphaned)) /\
  Forall (fun r => routed "agent" r = true) (other_agent_rows (_plan_replay orphaned)).
Proof. split; apply Forall_forall; intros r [[_ Hr]%filter_In _]%list_elem_of_In%filter_In; by bool_prop. Qed.

Lemma plan_regenerated orphaned : Forall (fun r => is_regenerated r = true) (List.filter is_regenerated orphaned).
Proof. apply Forall_forall. by intros r [_ Hr]%list_elem_of_In%filter_In. Qed.

(** The two splits make one. *)
Lemma waits_exactly orphaned n1 n2 h1 r1 h2 r2 : let plan := _plan_replay orphaned in
  split_at (Some "fileserver"%string) n1 (push_rows plan) h1 r1 -> split_at None n2 (other_agent_rows plan) h2 r2 ->
  Forall (waits n1 n2) (r1 ++ r2 ++ unrouted orphaned) /\
  Forall (fun r => ~ waits n1 n2 r) (controller_rows plan ++ h1 ++ h2 ++ List.filter is_regenerated orphaned).
Proof.
  intros plan (Hp1 & Hu1 & Hh1) (Hp2 & Hu2 & Hh2). destruct (plan_may_wait orphaned) as (Hpush & Hother & Hun). destruct (plan_kinds orphaned) as (Kpush & Kother & Kun).
  destruct (plan_agents orphaned) as [Apush Aother]. fold plan in Hpush, Hother, Kpush, Kother, Apush, Aother.
  rewrite Hp1 in Hpush, Kpush, Apush. rewrite Hp2 in Hother, Kother, Aother.
  apply Forall_app in Hpush as [_ W1], Hother as [_ W2], Kpush as [L1 K1], Kother as [L2 K2], Apush as [A1 _], Aother as [A2 _].
  split; repeat (apply Forall_app; split); rewrite ?Forall_forall in *; intros r Hr.
  - split; [by auto|]. rewrite (K1 r Hr). auto.
  - split; [by auto|]. rewrite (K2 r Hr). auto.
  - split; [by auto|]. by rewrite (Kun r Hr).
  - intros [[_ Hc] _]. apply list_elem_of_In, filter_In in Hr as [_ Hr]. congruence.
  - intros [_ Hw]. specialize (Hw (A1 r Hr)). rewrite (L1 r Hr) in Hw. by apply (Hh1 r).
  - intros [_ Hw]. specialize (Hw (A2 r Hr)). rewrite (L2 r Hr) in Hw. by apply (Hh2 r).
  - intros [[Hc _] _]. apply list_elem_of_In, filter_In in Hr as [_ Hr]. congruence.
Qed.

(** Every row of the plan is marked once, except those that wait for their owner. *)
Lemma at_replay orphaned :
  triple (at_ [] []) (replay repr sha256 lower netloc_ok others stmt_ok commit_at connect_ok queue_ok agents_at agent_at s3_create s3_at enqueue_at digest cfg now
      (_plan_replay orphaned))
    (fun _ w => exists n1 n2 handled rest, orphaned ≡ₚ handled ++ rest /\ Forall (waits n1 n2) rest /\ Forall (fun r => ~ waits n1 n2 r) handled /\
       at_ (replay_order (_plan_replay orphaned)) handled w)
    (fun w => exists hs, at_ (replay_order (_plan_replay orphaned)) hs w).
Proof.
  pose proof (plan_parts orphaned) as Hparts. destruct (plan_may_wait orphaned) as (Hpush & Hother & _).
  assert (Hctl : Forall (fun r => routed "controller" r = true) (controller_rows (_plan_replay orphaned))).
  { apply Forall_forall. by intros r [_ Hr]%list_elem_of_In%filter_In. }
  pose proof (fun n1 n2 h1 r1 h2 r2 => waits_exactly orphaned n1 n2 h1 r1 h2 r2) as Hexact. pose proof (plan_regenerated orphaned) as Hregen.
  unfold replay, replay_order. change (regenerated (_plan_replay orphaned)) with (target <$> List.filter is_regenerated orphaned).
  revert Hparts Hpush Hother Hctl Hexact. generalize (_plan_replay orphaned). intros plan Hparts Hpush Hother Hctl Hexact.
  eapply triples_bind; [eapply triple_weaken; [apply (at_controller [] [] (controller_rows plan) Hctl)|done|intros ? w Hw; exact Hw|done]|]. intros ?.
  apply (triples_bind _ _ _ (fun _ w => exists n1 h1 r1, split_at (Some "fileserver"%string) n1 (push_rows plan) h1 r1 /\
    at_ ((([] : list _) ++ controller_rows plan) ++ by_owner (push_rows plan)) (([] ++ controller_rows plan) ++ h1) w)).
  { eapply triple_weaken; [by apply at_by_owner, may_wait_not_controller|done|done|].
    intros w [k' Hw]. exists k'. by apply (at_skip (controller_rows plan)). }
  intros ?. apply (triples_bind _ _ _ (fun _ w => exists n1 h1 r1 n2 h2 r2, split_at (Some "fileserver"%string) n1 (push_rows plan) h1 r1 /\
    split_at None n2 (other_agent_rows plan) h2 r2 /\
    at_ ((([] : list _) ++ controller_rows plan) ++ by_owner (push_rows plan) ++ by_owner (other_agent_rows plan))
      ((([] ++ controller_rows plan) ++ h1) ++ h2) w)).
  { intros w (n1 & h1 & r1 & Hp1 & Hw). pose proof (at_by_owner _ _ (other_agent_rows plan) None (may_wait_not_controller _ Hother) w Hw) as H.
    destruct (replay_by_owner _ _ _) as [w' [[]|e]].
    - destruct H as (n2 & h2 & r2 & Hp2 & H). exists n1, h1, r1, n2, h2, r2. do 2 (split; [done|]). by rewrite app_assoc.
    - destruct H as [k' H]. exists k'. rewrite app_assoc. by apply at_skip. }
  intros ? w (n1 & h1 & r1 & n2 & h2 & r2 & Hp1 & Hp2 & Hw). pose proof (at_regenerate_all _ _ _ Hregen w Hw) as H.
  destruct (for_each _ _ _) as [w' [[]|e]]; [|done]. destruct (Hexact _ _ _ _ _ _ Hp1 Hp2) as [Hwait Hhand].
  exists n1, n2, (controller_rows plan ++ h1 ++ h2 ++ List.filter is_regenerated orphaned), (r1 ++ r2 ++ unrouted orphaned). split_and!; [|done|done|].
  - rewrite Hparts at 1. rewrite (proj1 Hp1), (proj1 Hp2). solve_Permutation.
  - simpl in H. rewrite <- !app_assoc in H. exact H.
Qed.

Lemma Forall_part {A} (P : A -> Prop) l k : l ⊆+ k -> Forall P k -> Forall P l.
Proof. rewrite !Forall_forall. intros Hs Hk x Hx. apply Hk. by eapply elem_of_submseteq. Qed.

Lemma by_owner_subset l : Forall may_wait l -> by_owner l ⊆+ l.
Proof. intros [_ Hp]%may_wait_not_controller%plan_groups. rewrite Hp at 2. by apply submseteq_inserts_r. Qed.

Lemma replay_order_subset orphaned : replay_order (_plan_replay orphaned) ⊆+ orphaned.
Proof.
  rewrite (plan_parts orphaned) at 2. destruct (plan_may_wait orphaned) as (Hpush & Hother & _). unfold replay_order.
  apply submseteq_inserts_l, submseteq_app; [done|]. apply submseteq_app; [by apply by_owner_subset|]. by apply submseteq_inserts_r, by_owner_subset.
Qed.

Lemma replay_order_whole orphaned : Forall (fun r => is_regenerated r = false) (replay_order (_plan_replay orphaned)).
Proof.
  destruct (plan_may_wait orphaned) as (Hpush & Hother & _). unfold replay_order. apply Forall_app; split; [|apply Forall_app; split].
  - apply Forall_forall. intros r [[_ Hr]%filter_In _]%list_elem_of_In%filter_In. by bool_prop.
  - eapply Forall_part; [by apply by_owner_subset|]. eapply Forall_impl; [exact Hpush|]. by intros r [? _].
  - eapply Forall_part; [by apply by_owner_subset|]. eapply Forall_impl; [exact Hother|]. by intros r [? _].
Qed.

Lemma find_orphans_ok read listed only : exists orphaned, find_orphans repr read listed only = Ok orphaned.
Proof. unfold find_orphans, _build_done_sets. by destruct (_ledger_fids _ _); eexists. Qed.

Definition fresh : gmap string tally := list_to_map ((fun fn => (fn, _zero)) <$> _ALL_KEYED_FUNCTIONS).
Lemma at_fresh c : at_ [] [] (RWorld c fresh []).
Proof. split; [apply jobs_nil|]. by exists []. Qed.

Lemma recover_spec reads probed listed first read force only c m orphaned :
  find_orphans repr read listed only = Ok orphaned ->
  let (w', res) := recover reads probed listed first read force only (RWorld c m []) in
  match res with
  | Ok NoOp => sent w' = []
  | Ok (Recovered _ _ _ st) => st = stages w' /\ exists n1 n2 handled rest, orphaned ≡ₚ handled ++ rest /\
      Forall (waits n1 n2) rest /\ Forall (fun r => ~ waits n1 n2 r) handled /\ at_ (replay_order (_plan_replay orphaned)) handled w'
  | Raise _ => jobs_of (replay_order (_plan_replay orphaned)) (sent w').*1
  end.
Proof.
  intros Ho. assert (Hnone : forall rs, jobs_of rs ([] : list (sent_job * enqueue_fate)).*1) by (intros rs; apply (jobs_skip []), jobs_nil).
  unfold recover_orphaned_work. rewrite Ho. destruct (negb force && _); [done|]. destruct (negb reads); [by apply Hnone|].
  unfold bind at 1. unfold on_cloud at 1. simpl. destruct (commit _ _ c) as [c' [[]|e]]; [|by apply Hnone]. simpl.
  unfold bind. pose proof (at_replay orphaned (RWorld c' fresh []) (at_fresh c')) as H.
  fold fresh. destruct (replay _ _ _ _ _ _ _ _ _ _ _ _ _ _ _ _ _ _ _) as [w' [[]|e]]; [split; [done|exact H]|]. by destruct H as [hs [Hj _]].
Qed.

(** ** The jobs a run adds to the broker

    Its replayed rows are in [sent]; the only others are fresh uploads. *)

Section broker.
Context (P : CloudJobs.job -> Prop).
Definition only_uploads (w : world) : Prop := Forall P (broker w) /\ Forall (fun p => P (pending_job p)) (parked_s3 w).
Definition uploads_in (w : rworld) : Prop := only_uploads (cloud w).

Lemma only_stmt {A} (q : nat -> CloudJobs.tables -> CloudJobs.tables * A) : keeps only_uploads (stmt others stmt_ok q).
Proof. intros w Hw. unfold stmt. simpl. destruct (poisoned _); [done|]. destruct (stmt_ok _); [|done]. by destruct (q _ _). Qed.
Lemma only_query {A} (q : nat -> CloudJobs.tables -> A) : keeps only_uploads (query others stmt_ok q).
Proof. apply only_stmt. Qed.
Lemma only_commit : keeps only_uploads (commit others commit_at).
Proof. intros w Hw. unfold CloudJobs.commit. simpl. destruct (poisoned _); [done|]. by destruct (commit_at _). Qed.
Lemma only_rollback : keeps only_uploads (rollback others).
Proof. by intros w. Qed.
Lemma only_connect : keeps only_uploads (connect others connect_ok).
Proof. intros w Hw. unfold connect. by destruct (connect_ok _). Qed.
Lemma only_abort f u b : keeps only_uploads (abort_multipart_upload others s3_at f u b).
Proof. intros w Hw. unfold abort_multipart_upload. by destruct (s3_at _). Qed.
Lemma only_create f b : keeps only_uploads (create_multipart_upload others s3_create f b).
Proof. intros w Hw. unfold create_multipart_upload. by destruct (s3_create _). Qed.
Lemma only_presign f : keeps only_uploads (_presign_multipart_parts others s3_at cfg f).
Proof. intros w Hw. unfold _presign_multipart_parts, presign_upload_parts. destruct (_ >? _); [done|]. by destruct (s3_at _). Qed.
Lemma only_lift {A} (o : outcome cexn A) : keeps only_uploads (lift o).
Proof. by intros w. Qed.
Lemma only_park p : P (pending_job p) -> keeps only_uploads (_park_s3_enqueue p).
Proof. intros Hp w [Hb Hq]. split; [done|]. apply Forall_app. split; [done|by apply Forall_singleton]. Qed.
Lemma only_enqueue j : P j -> keeps only_uploads (enqueue others enqueue_at j).
Proof.
  intros Hj w [Hb Hq]. unfold enqueue, land. destruct (enqueue_at _) as [|h|h [|]]; split; simpl; try done; by apply List.Forall_cons.
Qed.
Hint Resolve only_stmt only_query only_commit only_rollback only_connect only_abort only_create only_presign only_lift : phaze.

Lemma only_drop : keeps only_uploads (drop_pending_s3_enqueues others s3_at).
Proof. apply keeps_bind; [intros w [Hb Hq]; by split; [|constructor]|]. intros l. unfold _best_effort_abort_orphaned_multipart. keep. Qed.

Lemma only_flush : keeps only_uploads (flush_pending_s3_enqueues others enqueue_at).
Proof.
  intros w [Hb Hq]. unfold flush_pending_s3_enqueues, bind, pop_parked_s3, parked. simpl. set (w0 := World _ _ _ _ _ _ _ _).
  assert (H0 : only_uploads w0) by by split; [|constructor]. revert H0. generalize w0. clear Hb w0. induction Hq as [|p l Hp Hl IH]; [done|]. simpl.
  change (keeps only_uploads (run! b <- catch (enqueue others enqueue_at (pending_job p)) (fun _ => ret false);
    run! n <- count_each l (fun p => catch (enqueue others enqueue_at (pending_job p)) (fun _ => ret false)); ret (if b then 1 + n else n))).
  apply keeps_bind; [apply keeps_catch; [by apply only_enqueue|keep]|]. intros b. apply keeps_bind; [exact IH|keep].
Qed.

(** The job an upload of [fid] is re-driven as. *)
Definition upload_job (fid : string) (j : CloudJobs.job) : Prop :=
  exists agent timeout, j = SaqJob "s3_upload" (s3_upload_key fid) agent timeout (Some 0) None.

Lemma only_redrive loaded fid f : (forall j, upload_job fid j -> P j) ->
  keeps only_uploads (redrive_upload others stmt_ok agent_at s3_create s3_at digest cfg now loaded fid f).
Proof.
  intros HP. unfold redrive_upload, _stage_file_to_s3, select_active_agent, _best_effort_abort_orphaned_multipart. keep.
  apply only_park, HP. by eexists _, _.
Qed.

Lemma in_cloud {A} (m : M A) : keeps only_uploads m -> keeps uploads_in (on_cloud m).
Proof. intros Hm w Hw. specialize (Hm (cloud w) Hw). unfold on_cloud. by destruct (m (cloud w)) as [c [a|e]]. Qed.
Lemma in_bump fn m : keeps uploads_in (bump fn m).
Proof. by intros w. Qed.
Lemma in_send q r : keeps uploads_in (send repr sha256 others enqueue_at q r).
Proof.
  intros w Hw. unfold send. destruct (apply_deterministic_key _ _ _ _ _); [|done]. by destruct (enqueue_at _).
Qed.
Hint Resolve in_bump in_send only_drop only_flush : phaze.
Hint Extern 2 (keeps uploads_in (on_cloud _)) => apply in_cloud : phaze.

Lemma in_row q r : keeps uploads_in (replay_row_isolated q r).
Proof. unfold _replay_row_isolated, _replay_row. keep. Qed.
Hint Resolve in_row : phaze.

Lemma in_owners l kind : keeps uploads_in (replay_by_owner l kind).
Proof.
  unfold _replay_agent_rows_by_owner. destruct (groups _); [keep|]. keep. unfold _replay_owner_group. keep.
  intros w Hw. destruct (queue_ok _); [|done]. by apply in_row.
Qed.

(** The file an [s3_upload] row names. *)
Definition upload_fid (r : SchedulingLedger) : option string :=
  match payload_get "file_id" (payload r) with Some raw => uuid (py_str repr raw) | None => None end.

Lemma in_regenerate r : (forall fid j, upload_fid r = Some fid -> upload_job fid j -> P j) -> keeps uploads_in (regenerate (target r)).
Proof.
  unfold upload_fid. intros HP. unfold _regenerate_row_isolated, _regenerate_s3_upload, undo. simpl.
  destruct (payload_get _ _) as [raw|]; [|keep]. destruct (uuid _) as [fid|]; [|keep]. keep.
  apply in_cloud, keeps_bind; [apply only_redrive; eauto|keep].
Qed.
End broker.

(** What a run may leave in the broker besides the jobs it sent. *)
Definition expected (c : world) (orphaned : list SchedulingLedger) (j : CloudJobs.job) : Prop :=
  j ∈ broker c \/ j ∈ pending_job <$> parked_s3 c \/
  exists r fid, r ∈ orphaned /\ function r = "s3_upload"%string /\ upload_fid r = Some fid /\ upload_job fid j.

Lemma expected_start c orphaned : only_uploads (expected c orphaned) c.
Proof.
  split; apply Forall_forall; intros x Hx; [by left|right; left]. apply list_elem_of_fmap. eauto.
Qed.

Lemma recover_uploads reads probed listed first read force only c m orphaned :
  find_orphans repr read listed only = Ok orphaned ->
  Forall (expected c orphaned) (broker (cloud (recover reads probed listed first read force only (RWorld c m [])).1)).
Proof.
  intros Ho. cut (keeps (uploads_in (expected c orphaned)) (recover reads probed listed first read force only)).
  { intros H. exact (proj1 (H (RWorld c m []) (expected_start c orphaned))). }
  assert (Hreg : forall r, r ∈ List.filter is_regenerated orphaned -> keeps (uploads_in (expected c orphaned)) (regenerate (target r))).
  { intros r [Hin Hr]%list_elem_of_In%filter_In. apply in_regenerate. intros fid j Hfid Hj. right. right. exists r, fid. split_and!; try done; [by apply list_elem_of_In|].
    unfold is_regenerated in Hr. apply bool_decide_eq_true in Hr. by apply list_elem_of_singleton in Hr. }
  unfold recover_orphaned_work. rewrite Ho. destruct (negb force && _); [keep|]. destruct (negb reads); [keep|].
  apply keeps_bind; [apply in_cloud, only_commit|]. intros _. apply keeps_bind; [by intros w|]. intros _. apply keeps_bind; [|by intros _ w].
  unfold replay. simpl. do 3 (apply keeps_bind; [first [apply in_owners|apply keeps_for_each; intros; apply in_row]|intros _]).
  induction (List.filter is_regenerated orphaned) as [|r l IH]; simpl; [keep|]. apply keeps_bind; [apply Hreg; by left|]. intros _. apply IH.
  intros r' Hr'. apply Hreg. by right.
Qed.

(** C10: recovery enqueues what it owns and nothing else.  Whatever fails and whoever
    interferes, every job a run replays is the job of an orphaned row, each row's
    at most once, with the row's own payload and policy, on the controller's queue
    or on the queue of the row's own agent; never of an [s3_upload] row, and never
    of a payload that carries a credential within eight levels.  Every other job
    that is new in the broker is an [s3_upload] of the file some orphaned
    [s3_upload] row names, re-driven with URLs presigned afresh. *)
Theorem recovery_replays_only_orphans reads probed listed first read force only c m :
  exists orphaned, find_orphans repr read listed only = Ok orphaned /\
    (exists rs, rs ⊆+ orphaned /\
      Some <$> (sent (recover reads probed listed first read force only (RWorld c m [])).1).*1 = job_of <$> rs /\
      Forall (fun r => is_regenerated r = false /\ ~ tainted lower netloc_ok 8 (JObj (payload r))) rs) /\
    Forall (expected c orphaned) (broker (cloud (recover reads probed listed first read force only (RWorld c m [])).1)).
Proof.
  destruct (find_orphans_ok read listed only) as [orphaned Ho]. exists orphaned. split; [done|]. split; [|by apply recover_uploads].
  pose proof (recover_spec reads probed listed first read force only c m orphaned Ho) as H.
  destruct (recover _ _ _ _ _ _ _ _) as [w' res]. simpl.
  assert (Hj : jobs_of (replay_order (_plan_replay orphaned)) (sent w').*1).
  { destruct res as [[|]|]; [|by destruct H as (_ & ? & ? & ? & ? & _ & _ & _ & [? _])|done]. rewrite H. apply (jobs_skip []), jobs_nil. }
  destruct Hj as (rs & Hsub & Hjobs & Hclean). exists rs. split; [|split; [done|]].
  - etrans; [by apply sublist_submseteq|apply replay_order_subset].
  - pose proof (replay_order_whole orphaned) as Hw. apply (Forall_part _ _ _ (sublist_submseteq _ _ Hsub)) in Hw.
    apply Forall_and; split; [done|]. eapply Forall_impl; [exact Hclean|]. intros r Hr. rewrite <- detector_exact. auto.
Qed.

(** C30: the report of a run accounts for every orphan.  Each row is marked exactly
    once, under its own function, and the tallies are the sums of these marks,
    except that a row waits, exactly when it is neither regenerated nor of the
    controller, and it is of no queue at all, or of an agent that it does not name
    or that was not registered, revoked, never seen or, for a push, no fileserver,
    when the agents of its kind were looked up.  A row replayed as it is counts as
    re-enqueued only when its job landed, as skipped only when its job was there, as
    unreplayable only when the detector found a credential, and as an error only
    when its job could not be built, its enqueue failed, or the broker or a queue
    did not answer some call of the run. *)
Theorem recovery_accounts_for_every_row reads probed listed first read force only c m :
  let (w', res) := recover reads probed listed first read force only (RWorld c m []) in
  match res with
  | Ok (Recovered _ _ _ st) =>
      exists orphaned marks waiting n1 n2, find_orphans repr read listed only = Ok orphaned /\ orphaned ≡ₚ marks.*1 ++ waiting /\
        Forall (waits n1 n2) waiting /\ Forall (fun r => ~ waits n1 n2 r) marks.*1 /\
        st = tallied marks /\ Forall (justified (sent w')) marks
  | _ => True
  end.
Proof.
  destruct (find_orphans_ok read listed only) as [orphaned Ho].
  pose proof (recover_spec reads probed listed first read force only c m orphaned Ho) as H.
  destruct (recover _ _ _ _ _ _ _ _) as [w' [[|]|]]; [done| |done].
  destruct H as (-> & n1 & n2 & handled & rest & Hp & Hr & Hh & _ & ms & <- & Hst & Hms). by exists orphaned, ms, rest, n1, n2.
Qed.
End rows.
End effects.

(** ** One regeneration and the next *)

(** Nothing is parked on the session and it can still run statements. *)
Definition calm (w : rworld) : Prop := poisoned (cloud w) = false /\ parked_s3 (cloud w) = [].

Section isolation.
Context (repr : json -> string) (others : nat -> CloudJobs.tables -> CloudJobs.tables) (stmt_ok : nat -> bool) (commit_at : nat -> commit_fate).
Context (agent_at : nat -> option string) (s3_create : nat -> create_fate) (s3_at : nat -> s3_fate) (enqueue_at : nat -> enqueue_fate).
Context (digest : string -> Z) (cfg : CloudSettings) (now : datetime).

Abbreviation regenerate := (_regenerate_row_isolated repr others stmt_ok commit_at agent_at s3_create s3_at enqueue_at digest cfg now).

Lemma calm_on_cloud {A} (m : M A) (P Q : world -> Prop) :
  (forall w, P w -> Q (m w).1) -> triple (fun w => P (cloud w)) (on_cloud m) (fun _ w => Q (cloud w)) (fun w => Q (cloud w)).
Proof. intros H w Hw. unfold on_cloud. specialize (H (cloud w) Hw). by destruct (m (cloud w)) as [c [a|e]]. Qed.

Lemma drop_empties w : let w' := (drop_pending_s3_enqueues others s3_at w).1 in parked_s3 w' = [] /\ poisoned w' = poisoned w.
Proof.
  unfold drop_pending_s3_enqueues, bind, pop_parked_s3, parked. simpl.
  set (w0 := World _ _ _ _ _ _ _ _). assert (H0 : parked_s3 w0 = [] /\ poisoned w0 = poisoned w) by done. revert H0. generalize w0. clear w0.
  change (forall w0, (fun v => parked_s3 v = [] /\ poisoned v = poisoned w) w0 -> (fun v => parked_s3 v = [] /\ poisoned v = poisoned w)
    (for_each (parked_s3 w) (fun p => _best_effort_abort_orphaned_multipart others s3_at (pending_file p) (pending_upload p) (pending_bucket p)) w0).1).
  apply keeps_for_each. intros p. apply keeps_catch; [|intros; apply keeps_ret]. intros v [H1 H2]. unfold abort_multipart_upload. by destruct (s3_at _).
Qed.

Lemma flush_empties w : let w' := (flush_pending_s3_enqueues others enqueue_at w).1 in parked_s3 w' = [] /\ poisoned w' = poisoned w.
Proof.
  unfold flush_pending_s3_enqueues, bind, pop_parked_s3, parked. simpl.
  set (w0 := World _ _ _ _ _ _ _ _). assert (H0 : parked_s3 w0 = [] /\ poisoned w0 = poisoned w) by done. revert H0. generalize w0. clear w0.
  change (forall w0, (fun v => parked_s3 v = [] /\ poisoned v = poisoned w) w0 -> (fun v => parked_s3 v = [] /\ poisoned v = poisoned w)
    (count_each (parked_s3 w) (fun p => catch (enqueue others enqueue_at (pending_job p)) (fun _ => ret false)) w0).1).
  apply keeps_count_each. intros p. apply keeps_catch; [|intros; apply keeps_ret]. intros v [H1 H2]. unfold enqueue, land.
  destruct (enqueue_at _) as [|h|h l]; by split.
Qed.

Lemma undo_calms {A} e (Q : A -> rworld -> Prop) : triple (fun _ => True) (undo others s3_at e) Q calm.
Proof.
  intros w _. unfold undo, bind, on_cloud, rollback. simpl.
  set (v := World _ _ _ _ _ _ _ _). pose proof (drop_empties v) as [H1 H2].
  destruct (drop_pending_s3_enqueues others s3_at v) as [v' [[]|x]]; by split; simpl in *.
Qed.

Lemma commit_unpoisons w : poisoned (commit others commit_at w).1 = false.
Proof. unfold CloudJobs.commit. simpl. by destruct (poisoned w), (commit_at (calls w)). Qed.

(** C38: a regeneration that fails leaves nothing behind for the next one: whatever
    goes wrong after its file is looked up, the session is rolled back, its parked
    job is dropped and its fresh multipart aborted. *)
Theorem regeneration_is_isolated t w : calm w -> stmt_ok (calls (cloud w)) = true -> calm (regenerate t w).1.
Proof.
  intros Hw Hok. unfold _regenerate_row_isolated, catch at 1.
  assert (Hbump : forall fn m v, calm v -> calm (bump fn m v).1) by done.
  assert (H : calm (_regenerate_s3_upload repr others stmt_ok commit_at agent_at s3_create s3_at enqueue_at digest cfg now t w).1).
  { unfold _regenerate_s3_upload. destruct (payload_get _ _) as [raw|]; [|done]. destruct (uuid _) as [fid|]; [|done].
    unfold bind at 1. unfold on_cloud at 1, query, stmt. simpl. destruct Hw as [Hp Hq]. rewrite Hp, Hok. simpl.
    destruct (CloudJobs.files _ !! fid) as [f|]; [|by split].
    set (v := RWorld _ _ _). clearbody v. clear.
    assert (Hredo : triple (fun _ => True) (catch (on_cloud (seq! redrive_upload others stmt_ok agent_at s3_create s3_at digest cfg now None fid f;
      commit others commit_at)) (undo others s3_at)) (fun _ w => poisoned (cloud w) = false) calm).
    { apply (triples_catch _ _ _ _ (fun _ => True)); [|intros e; apply undo_calms]. intros v' _. unfold on_cloud, bind.
      destruct (redrive_upload _ _ _ _ _ _ _ _ _ _ _ _) as [c [[]|e]]; [|done]. pose proof (commit_unpoisons c) as Hc.
      destruct (commit _ _ c) as [c' [[]|e]]; done. }
    unfold bind. specialize (Hredo v I). destruct (catch _ _ v) as [v' [[]|e]]; [|done]. unfold on_cloud.
    pose proof (flush_empties (cloud v')) as [H1 H2]. destruct (flush_pending_s3_enqueues _ _ _) as [c [n|e]]; simpl in *; split; simpl; congruence. }
  destruct (_regenerate_s3_upload _ _ _ _ _ _ _ _ _ _ _ _ w) as [w' [[]|e]]; [done|by apply Hbump].
Qed.
End isolation.

(** ** A demonstration *)

Definition second_fid : string := "7c9e6679-7425-40de-944b-e07fc1f90ae7".
Definition lowered (s : string) : string := string_of (ascii_lower <$> chars_of s).
Definition demo_ledger (fn id : string) (extra : list (string * json)) : SchedulingLedger :=
  Row (fn +:+ ":" +:+ id) fn (if bool_decide (fn = "submit_cloud_job"%string) then "controller" else "agent") (("file_id"%string, JStr id) :: extra) 100 None None.

(** Two uploads that failed, their files and their buckets known. *)
Definition demo_failed : CloudJobs.tables :=
  Tables (CloudJobs.files demo_uploading ∪ ((fun _ => CloudJobs.File "/m/f" "flac" 1000 0 None) <$> ({[demo_fid := tt; second_fid := tt]} : gmap string unit)))
    {[demo_fid := UploadReports.demo_row FAILED "u1"; second_fid := UploadReports.demo_row FAILED "u2"]} ∅ ∅ ∅.

Definition demo_plan : _ReplayPlan := _plan_replay [demo_ledger "s3_upload" demo_fid []; demo_ledger "s3_upload" second_fid []].

(** The replay of the plan, statement [lost] failing. *)
Definition demo_replay (plan : _ReplayPlan) (lost : option nat) : rworld :=
  (replay demo_repr id lowered (fun _ => true) (fun _ t => t) (fun n => negb (bool_decide (lost = Some n))) (fun _ => Committed) (fun _ => true) (fun _ => true)
     (fun _ => [MkAgent "nas" "fileserver" None (Some 1)]) (fun _ => Some "nas"%string) (fun n => Created (pretty n)) (fun _ => S3Done) (fun _ => EnqJob) (fun _ => 0) demo_cfg
     (Datetime true 60) plan (RWorld (empty_world demo_failed) fresh [])).1.
Definition demo_tally (fn : string) (w : rworld) : Z * Z * Z * Z :=
  let t := default _zero (stages w !! fn) in (reenqueued t, skipped t, errored t, unreplayable t).

(** The lookup of a file is outside the handler that rolls back: when it fails, the
    session stays in its failed transaction and every upload after it fails too. *)
Theorem lookup_failure_fails_the_rest :
  demo_tally "s3_upload" (demo_replay demo_plan None) = (2, 0, 0, 0) /\
  demo_tally "s3_upload" (demo_replay demo_plan (Some 0%nat)) = (0, 0, 2, 0) /\
  poisoned (cloud (demo_replay demo_plan (Some 0%nat))) = true.
Proof. vm_compute. by split_and!. Qed.

(** One row of each kind: sent, refused, without an agent, regenerated; and the
    second upload fails on its own when its agent cannot be read. *)
Example demo_run :
  let plan := _plan_replay [demo_ledger "submit_cloud_job" demo_fid []; demo_ledger "process_file" demo_fid [("agent_id"%string, JStr "nas")];
    demo_ledger "push_file" demo_fid [("agent_id"%string, JStr "nas"); ("url"%string, JStr "https://h/o?X-Amz-Signature=1")];
    demo_ledger "process_file" second_fid []; demo_ledger "s3_upload" second_fid []] in
  let w := demo_replay plan None in
  (fun j => (sent_queue j, sent_key j)) <$> (sent w).*1 =
    [("controller", "submit_cloud_job:" +:+ demo_fid); ("phaze-agent-nas-analyze", "process_file:" +:+ demo_fid)]%string /\
  demo_tally "submit_cloud_job" w = (1, 0, 0, 0) /\ demo_tally "process_file" w = (1, 0, 0, 0) /\
  demo_tally "push_file" w = (0, 0, 0, 1) /\ demo_tally "s3_upload" w = (1, 0, 0, 0) /\
  demo_tally "s3_upload" (demo_replay demo_plan (Some 3%nat)) = (1, 0, 1, 0).
Proof. vm_compute. by split_and!. Qed.

Lemma regeneration_is_isolated_witness :
  let w := RWorld (empty_world demo_failed) fresh [] in
  calm w /\ calm (_regenerate_row_isolated demo_repr (fun _ t => t) (fun n => negb (bool_decide (n = 3%nat))) (fun _ => Committed) (fun _ => Some "nas"%string)
    (fun n => Created (pretty n)) (fun _ => S3Done) (fun _ => EnqJob) (fun _ => 0) demo_cfg (Datetime true 60) (target (demo_ledger "s3_upload" demo_fid [])) w).1.
Proof. split; [by split|]. apply regeneration_is_isolated; [by split|reflexivity]. Defined.
