(* ===== verification/Reconcile.v ===== *)
(** * The in-flight reconcile cron: [tasks/reconcile_cloud_jobs.py]

    One row of a Kueue backend against its Job, and [submit_cloud_job], the task
    a re-drive enqueues.  The session is that of CloudJobs.v, extended with the
    columns of [cloud_job] only this code uses; every statement, commit, call to
    the cluster, S3 or the broker may fail, and a deleted Job may linger.
    Nothing else runs inside one row's unit of work.  Two ghost fields:
    [created], the file of every Job the cluster has created, and [uncharged],
    how many exits were neither charged nor held. *)
From S2P Require Import Prelude StateErr Selection Breaker KubeObserve CloudJobs Callbacks.
From stdpp Require Import options.
Local Open Scope Z_scope.

(** ** State *)

(** The other columns of [cloud_job]. *)
Record Lifecycle : Type := Life {
  kueue_workload : option string;
  node_loss_pending : option string;
  redrive_after : option datetime;
  last_exit_code : option Z;
  last_failure_reason : option string;
  last_failed_at : option datetime;
  inadmissible : bool;
  started_at : option Z;
}.
#[export] Instance Lifecycle_eq_dec : EqDecision Lifecycle.
Proof. unfold EqDecision. intros [] []. assert (EqDecision datetime) by solve_decision. solve_decision. Defined.
#[export] Instance CloudJob_eq_dec : EqDecision CloudJobs.CloudJob.
Proof. assert (EqDecision datetime) by solve_decision. solve_decision. Defined.

Definition no_lifecycle : Lifecycle := Life None None None None None None false None.

Record rworld : Type := RWorld {
  base : world;
  life_committed : gmap string Lifecycle;
  life_view : gmap string Lifecycle;
  cluster : gmap string KJob;
  completed : gset string;
  submits : gset string;
  tally : gmap string Z;
  created : list string;
  uncharged : Z;
}.

Abbreviation R := (SE rworld cexn).

Definition with_base (b : world) (w : rworld) : rworld :=
  RWorld b (life_committed w) (life_view w) (cluster w) (completed w) (submits w) (tally w) (created w) (uncharged w).
Definition with_life (l : gmap string Lifecycle) (w : rworld) : rworld :=
  RWorld (base w) (life_committed w) l (cluster w) (completed w) (submits w) (tally w) (created w) (uncharged w).
Definition with_cluster (c : gmap string KJob) (w : rworld) : rworld :=
  RWorld (base w) (life_committed w) (life_view w) c (completed w) (submits w) (tally w) (created w) (uncharged w).
Definition with_submits (s : gset string) (w : rworld) : rworld :=
  RWorld (base w) (life_committed w) (life_view w) (cluster w) (completed w) s (tally w) (created w) (uncharged w).
Definition with_tally (t : gmap string Z) (w : rworld) : rworld :=
  RWorld (base w) (life_committed w) (life_view w) (cluster w) (completed w) (submits w) t (created w) (uncharged w).

(** A step of the session of CloudJobs.v; nobody else writes meanwhile. *)
Definition db {A} (m : M A) : R A := fun w => let (b, r) := m (base w) in (with_base b w, r).
Abbreviation alone := (fun (_ : nat) (t : tables) => t).

Definition bump (key : string) : R unit := fun w => (with_tally (<[key := default 0 (tally w !! key) + 1]> (tally w)) w, Ok tt).

Definition FAILURE_JOB_VANISHED : string := "job_vanished".
Definition FAILURE_PENDING_CONFIRMATION_EXPIRED : string := "pending_confirmation_expired".
Definition FAILURE_POD_NOT_FOUND : string := "pod_not_found".

(** [CloudPhase] *)
Definition QUEUED_BEHIND_QUOTA : string := "queued_behind_quota".
Definition PHASE_ADMITTED : string := "admitted".
Definition PHASE_RUNNING : string := "running".
Definition PHASE_FINISHED : string := "finished".

Definition submit_cloud_job_key (file : string) : string := "submit_cloud_job:" +:+ file.
Definition job_name (file : string) : string := "phaze-analyze-" +:+ file.

Definition redrive_backoff_seconds (schedule : list Z) (redrive_number : Z) : Z :=
  if bool_decide (schedule = []) || (redrive_number <? 1) then 0
  else default 0 (schedule !! Z.to_nat (Z.min redrive_number (Z.of_nat (length schedule)) - 1)).

(** Which counter a re-drive spends. *)
Inductive Budget : Type := ATTEMPTS | NODE_LOSS_REDRIVES | UNCHARGED.
#[export] Instance Budget_eq_dec : EqDecision Budget.
Proof. solve_decision. Defined.

(** A row as the handlers see it. *)
Definition Row : Type := CloudJobs.CloudJob * Lifecycle.

Definition set_status (s : CloudJobStatus) (j : CloudJobs.CloudJob) : CloudJobs.CloudJob :=
  CloudJobs.Job s (job_backend_id j) (s3_key j) (upload_id j) (staging_bucket j) (attempts j) (node_loss_redrives j) (cloud_phase j) (updated_at j).
Definition set_phase (p : option string) (j : CloudJobs.CloudJob) : CloudJobs.CloudJob :=
  CloudJobs.Job (status j) (job_backend_id j) (s3_key j) (upload_id j) (staging_bucket j) (attempts j) (node_loss_redrives j) p (updated_at j).
Definition clear_bucket (j : CloudJobs.CloudJob) : CloudJobs.CloudJob :=
  CloudJobs.Job (status j) (job_backend_id j) (s3_key j) (upload_id j) None (attempts j) (node_loss_redrives j) (cloud_phase j) (updated_at j).
Definition set_updated (d : datetime) (j : CloudJobs.CloudJob) : CloudJobs.CloudJob :=
  CloudJobs.Job (status j) (job_backend_id j) (s3_key j) (upload_id j) (staging_bucket j) (attempts j) (node_loss_redrives j) (cloud_phase j) d.
Definition charge (b : Budget) (n : Z) (j : CloudJobs.CloudJob) : CloudJobs.CloudJob :=
  match b with
  | UNCHARGED => j
  | NODE_LOSS_REDRIVES => CloudJobs.Job (status j) (job_backend_id j) (s3_key j) (upload_id j) (staging_bucket j) (attempts j) n (cloud_phase j) (updated_at j)
  | ATTEMPTS => CloudJobs.Job (status j) (job_backend_id j) (s3_key j) (upload_id j) (staging_bucket j) n (node_loss_redrives j) (cloud_phase j) (updated_at j)
  end.

Definition set_inadmissible (b : bool) (l : Lifecycle) : Lifecycle :=
  Life (kueue_workload l) (node_loss_pending l) (redrive_after l) (last_exit_code l) (last_failure_reason l) (last_failed_at l) b (started_at l).
Definition set_pending (p : option string) (l : Lifecycle) : Lifecycle :=
  Life (kueue_workload l) p (redrive_after l) (last_exit_code l) (last_failure_reason l) (last_failed_at l) (inadmissible l) (started_at l).
Definition set_redrive_after (d : option datetime) (l : Lifecycle) : Lifecycle :=
  Life (kueue_workload l) (node_loss_pending l) d (last_exit_code l) (last_failure_reason l) (last_failed_at l) (inadmissible l) (started_at l).
Definition set_workload (n : option string) (l : Lifecycle) : Lifecycle :=
  Life n (node_loss_pending l) (redrive_after l) (last_exit_code l) (last_failure_reason l) (last_failed_at l) (inadmissible l) (started_at l).
Definition set_started (s : option Z) (l : Lifecycle) : Lifecycle :=
  Life (kueue_workload l) (node_loss_pending l) (redrive_after l) (last_exit_code l) (last_failure_reason l) (last_failed_at l) (inadmissible l) s.

Definition _record_failure (f : TerminalFailure) (failed_at : option datetime) (l : Lifecycle) : Lifecycle :=
  Life (kueue_workload l) (node_loss_pending l) (redrive_after l) (exit_code f) (Some (reason f)) failed_at (inadmissible l) (started_at l).

(** The exit status a deferral stashed wins over a marker. *)
Definition _effective_failure (l : Lifecycle) (f : TerminalFailure) : TerminalFailure :=
  match exit_code f, last_failed_at l, last_failure_reason l with
  | None, None, Some r => Failure (last_exit_code l) r
  | _, _, _ => f
  end.

Section reconcile.
Context (stmt_ok : nat -> bool) (commit_at : nat -> commit_fate) (s3_at : nat -> s3_fate) (enqueue_at : nat -> enqueue_fate).
(** Whether the cluster answers; whether a deleted Job is still there. *)
Context (kube_ok : nat -> bool) (lingers : nat -> bool).
Context (cfg : CloudSettings) (cloud_node_loss_max_redrives : Z) (cloud_redrive_backoff_sec : list Z) (now : datetime) (file : string).

(** ** Session *)

Definition the_row : R (option Row) := fun w =>
  (w, Ok (match cloud_job (view (base w)) !! file with
          | Some j => Some (j, default no_lifecycle (life_view w !! file))
          | None => None
          end)).

(** Assigning attributes of the row object. *)
Definition set_row (fj : CloudJobs.CloudJob -> CloudJobs.CloudJob) (fl : Lifecycle -> Lifecycle) : R unit := fun w =>
  match cloud_job (view (base w)) !! file with
  | Some j =>
      let t := view (base w) in
      (with_life (<[file := fl (default no_lifecycle (life_view w !! file))]> (life_view w))
         (with_base (set_view (set_cloud_job (<[file := fj j]> (cloud_job t)) t) (base w)) w), Ok tt)
  | None => (w, Ok tt)
  end.

(** [updated_at] has [onupdate=func.now()]: it moves when a column does. *)
Definition touched (w : rworld) : rworld :=
  match cloud_job (view (base w)) !! file with
  | Some j =>
      if bool_decide (cloud_job (committed (base w)) !! file = Some j /\ default no_lifecycle (life_committed w !! file) = default no_lifecycle (life_view w !! file)) then w
      else let t := view (base w) in with_base (set_view (set_cloud_job (<[file := set_updated now j]> (cloud_job t)) t) (base w)) w
  | None => w
  end.

Definition commit : R unit := fun w =>
  let w1 := touched w in
  let n := calls (base w) in
  let (b, r) := CloudJobs.commit alone commit_at (base w1) in
  let applied := negb (poisoned (base w)) && match commit_at n with Refused => false | _ => true end in
  let l := if applied then life_view w1 else life_committed w1 in
  (RWorld b l l (cluster w1) (completed w1) (submits w1) (tally w1) (created w1) (uncharged w1), r).

Definition rollback : R unit := fun w =>
  let (b, r) := CloudJobs.rollback alone (base w) in (with_life (life_committed w) (with_base b w), r).

Definition stmt {A} (q : nat -> tables -> tables * A) : R A := db (CloudJobs.stmt alone stmt_ok q).
Definition query {A} (q : nat -> tables -> A) : R A := db (CloudJobs.query alone stmt_ok q).

Definition advisory_lock : R unit := query (fun _ _ => tt).

(** ** Cluster and broker *)

Definition kube {A} (f : gmap string KJob -> nat -> gmap string KJob * outcome cexn A) : R A := fun w =>
  let n := calls (base w) in
  let w1 := with_base (tick (base w)) w in
  if kube_ok n then let (c, r) := f (cluster w) n in (with_cluster c w1, r) else (w1, Raise KubeStagingError).

(** A 404 is [None]. *)
Definition get_job (name : string) : R (option KJob) := kube (fun c _ => (c, Ok (c !! name))).
Definition list_pods_for_job (name : string) : R (list Pod) :=
  kube (fun c _ => (c, Ok (match c !! name with Some j => pods j | None => [] end))).
Definition get_workload_for (j : KJob) : R (option (list Condition)) := kube (fun c _ => (c, Ok (workload j))).
Definition delete_job (name : string) : R unit := kube (fun c n => (if lingers n then c else delete name c, Ok tt)).

Definition _enqueue_resubmit : R unit := fun w =>
  let n := calls (base w) in
  let w1 := with_base (tick (base w)) w in
  let landed := with_submits ({[file]} ∪ submits w1) w1 in
  match enqueue_at n with
  | EnqRaises _ landed_ => (if landed_ then landed else w1, Raise BrokerError)
  | _ => (landed, Ok tt)
  end.

(** ** Observations *)

Definition quietly {A} (a : A) (m : R A) : R A := catch m (fun _ => ret a).
Definition observe_pods (name : string) : R (list Pod) := quietly [] (list_pods_for_job name).

Definition _terminal_node_loss_reason (name : string) : R (option string) :=
  run! ps <- observe_pods name; ret (terminal_node_loss_reason ps (usec now)).
Definition _terminal_failure (name : string) : R (option TerminalFailure) :=
  run! ps <- observe_pods name; ret (terminal_failure ps).

Definition _job_gone (name : option string) : R bool :=
  match name with
  | None => ret true
  | Some n => run! j <- get_job n; ret (negb (bool_decide (is_Some j)))
  end.

Definition _pod_wedge_reason (j : KJob) (name : string) : R (option Wedge) :=
  run! ps <- list_pods_for_job name; ret (classify_pod_wedge j ps (usec now)).

Definition _analysis_completed : R bool := fun w =>
  let (w1, r) := query (fun _ _ => tt) w in
  (w1, match r with Ok _ => Ok (bool_decide (file ∈ completed w1)) | Raise e => Raise e end).

(** ** Terminals *)

Definition delete_named (name : option string) : R unit := match name with Some n => delete_job n | None => ret tt end.

Definition _record_success (name : option string) : R unit :=
  seq! set_row (fun j => set_phase (Some PHASE_FINISHED) (set_status SUCCEEDED j)) (set_inadmissible false);
  seq! commit;
  seq! delete_named name;
  bump "succeeded".

Definition _spill_to_awaiting (r : Row) (name : option string) (attempts_ : Z) (failure : TerminalFailure) : R unit :=
  seq! match resolve_bucket_config cfg (staging_bucket r.1) with
       | Some bucket => quietly tt (db (delete_staged_object alone s3_at file bucket))
       | None => ret tt
       end;
  run! f <- query (fun _ t => files t !! file);
  seq! match f with
       | Some _ => seq! db (hold_awaiting_cloud alone stmt_ok cfg now file attempts_ (Some [SUBMITTED; RUNNING]) None true); ret tt
       | None => ret tt
       end;
  seq! set_row clear_bucket
         (fun l => _record_failure failure (Some now) (set_redrive_after None (set_pending None (set_inadmissible false l))));
  seq! commit;
  delete_named name.

Definition _spill_to_awaiting_at_ceiling (r : Row) (name : option string) (failure : TerminalFailure) : R unit :=
  seq! _spill_to_awaiting r name (cap_attempts cfg) failure;
  bump "failed".

Definition add_seconds (s : Z) (d : datetime) : datetime := Datetime (aware d) (usec d + s * microsecond).

Definition _redrive_under_ceiling (name : option string) (next_attempt : Z) (budget : Budget) (node_loss_reason : option string)
    (failure : TerminalFailure) (backoff_seconds : Z) : R unit :=
  seq! delete_named name;
  run! gone <- _job_gone name;
  if negb gone then
    seq! set_row id (fun l => _record_failure failure None (set_pending node_loss_reason l));
    commit
  else
    let resubmitted l := _record_failure failure (Some now) (set_workload None (set_pending None (set_inadmissible false (set_started None l)))) in
    seq! set_row (fun j => set_status SUBMITTED (charge budget next_attempt j)) resubmitted;
    if backoff_seconds >? 0 then
      seq! set_row (set_phase None) (set_redrive_after (Some (add_seconds backoff_seconds now)));
      seq! commit;
      bump "backoff_held"
    else
      seq! commit;
      seq! _enqueue_resubmit;
      bump "redriven".

(** The failure columns the breaker counts. *)
Definition breaker_tables (t : tables) (l : gmap string Lifecycle) : Breaker.tables :=
  Breaker.Tables (breaker_rows t)
    (map_imap (fun f j => let l := default no_lifecycle (l !! f) in Some (Breaker.Job (job_backend_id j) (last_exit_code l) (last_failed_at l)))
       (cloud_job t)).

Definition set_breakers (m : gmap string BackendBreaker) (t : tables) : tables :=
  Tables (files t) (cloud_job t) (cloud_budget t) (ledger t) m.

Definition note_uncharged : R unit := fun w =>
  (RWorld (base w) (life_committed w) (life_view w) (cluster w) (completed w) (submits w) (tally w) (created w) (uncharged w + 1), Ok tt).

Definition record_unreachable (r : Row) : R UnreachableVerdict := fun w =>
  match job_backend_id r.1 with
  | None => (w, Ok (Verdict true false (Some "cloud_job has no backend_id"%string)))
  | Some b =>
      stmt (fun _ t =>
        let (t', v) := record_unreachable_exit b file now (last_exit_code r.2) (last_failed_at r.2) (breaker_tables t (life_view w)) in
        (set_breakers (breakers t') t, v)) w
  end.

Definition _hold_control_plane_unreachable (r : Row) (name : option string) (failure : TerminalFailure) : R unit :=
  run! verdict <- record_unreachable r;
  if held verdict then
    seq! _spill_to_awaiting r name (attempts r.1) failure;
    bump "unreachable_held"
  else
    seq! note_uncharged;
    _redrive_under_ceiling name (attempts r.1) UNCHARGED None failure 0.

Definition _handle_no_callback_terminal (r : Row) (name : option string) (failure : TerminalFailure) (node_loss_reason : option string) : R unit :=
  let failure := _effective_failure r.2 failure in
  if bool_decide (exit_code failure = Some UNREACHABLE_EXIT_CODE) then _hold_control_plane_unreachable r name failure
  else
    let effective := match node_loss_reason with Some _ => node_loss_reason | None => node_loss_pending r.2 end in
    let '(next_attempt, ceiling, budget) :=
      match effective with
      | Some _ => (node_loss_redrives r.1 + 1, cloud_node_loss_max_redrives, NODE_LOSS_REDRIVES)
      | None => (attempts r.1 + 1, cap_attempts cfg, ATTEMPTS)
      end in
    if next_attempt >? ceiling then _spill_to_awaiting_at_ceiling r name failure
    else _redrive_under_ceiling name next_attempt budget effective failure (redrive_backoff_seconds cloud_redrive_backoff_sec next_attempt).

Definition _finalize_or_redrive (r : Row) (name : option string) (no_pod_marker : string) (probe_node_loss : bool) : R unit :=
  run! done_ <- _analysis_completed;
  if done_ : bool then _record_success name
  else
    run! seen <- match name, probe_node_loss with
                 | Some n, true => run! lost <- _terminal_node_loss_reason n; run! failure <- _terminal_failure n; ret (lost, failure)
                 | _, _ => ret (None, None)
                 end;
    _handle_no_callback_terminal r name (default (Failure None no_pod_marker) seen.2) seen.1.

(** ** Rows without a Job *)

Definition _reconcile_backoff (due : datetime) : R unit :=
  if usec now <? usec due then seq! commit; bump "backoff_held"
  else
    seq! set_row id (set_redrive_after None);
    seq! commit;
    seq! _enqueue_resubmit;
    bump "redriven".

Definition row_age (j : CloudJobs.CloudJob) : Z := usec now - usec (updated_at j).

Definition _reconcile_pending_confirmation (r : Row) : R unit :=
  match classify_pending_confirmation (row_age r.1) with
  | FRESH => commit
  | EXPIRED => _finalize_or_redrive r None FAILURE_PENDING_CONFIRMATION_EXPIRED false
  end.

(** ** Rows with a Job *)

Definition _terminalize_if_wedged (r : Row) (j : KJob) (name : string) : R bool :=
  run! wedge <- _pod_wedge_reason j name;
  match wedge with
  | None => ret false
  | Some w =>
      run! done_ <- _analysis_completed;
      if done_ : bool then ret false
      else
        run! observed <- _terminal_failure name;
        let failure := match observed with
                       | Some f => match exit_code f with Some _ => f | None => Failure None (wedge_reason w) end
                       | None => Failure None (wedge_reason w)
                       end in
        seq! _handle_no_callback_terminal r (Some name) failure (if node_loss w then Some (wedge_reason w) else None);
        ret true
  end.

Definition _hold_inadmissible : R unit :=
  seq! set_row id (set_inadmissible true);
  seq! commit;
  bump "inadmissible".

Definition _hold_pending_quota : R unit :=
  seq! set_row (set_phase (Some QUEUED_BEHIND_QUOTA)) (set_inadmissible false);
  seq! commit;
  bump "pending".

Definition _advance_admitted (r : Row) (j : KJob) (name : string) (admitted_true : bool) : R unit :=
  run! gone <- _terminalize_if_wedged r j name;
  if gone : bool then ret tt
  else
    let phase_ := if admitted_true then PHASE_RUNNING else PHASE_ADMITTED in
    seq! set_row (fun c => set_phase (Some phase_) (set_status RUNNING c))
           (fun l => set_inadmissible false (match start_time j with Some s => set_started (Some s) l | None => l end));
    seq! commit;
    bump "running".

Definition _reconcile_workload_state (r : Row) (j : KJob) (w : list Condition) (name : string) : R unit :=
  match classify_workload w with
  | EVICTED => _finalize_or_redrive r (Some name) FAILURE_POD_NOT_FOUND true
  | INADMISSIBLE => _hold_inadmissible
  | PENDING => _hold_pending_quota
  | ADMITTED => _advance_admitted r j name true
  | QUOTA_RESERVED => _advance_admitted r j name false
  | UNKNOWN => seq! bump "unknown_workload_disposition"; commit
  end.

Definition truthy (s : option string) : option string :=
  match s with Some n => if bool_decide (n = ""%string) then None else Some n | None => None end.

Definition _reconcile_one (r : Row) : R unit :=
  match truthy (kueue_workload r.2) with
  | None =>
      match redrive_after r.2 with
      | Some due => _reconcile_backoff due
      | None => _reconcile_pending_confirmation r
      end
  | Some name =>
      run! job <- get_job name;
      match job with
      | None => _finalize_or_redrive r (Some name) FAILURE_JOB_VANISHED false
      | Some j =>
          match classify_job j with
          | JOB_SUCCEEDED => _record_success (Some name)
          | JOB_FAILED => _finalize_or_redrive r (Some name) FAILURE_POD_NOT_FOUND true
          | JOB_IN_FLIGHT =>
              run! w <- (if bool_decide (job_uid j = ""%string) then ret None else get_workload_for j);
              match w with
              | None => commit
              | Some w => _reconcile_workload_state r j w name
              end
          end
      end
  end.

(** One row's unit of work in [KueueBackend.reconcile]: an exception rolls it back. *)
Definition reconcile_row : R unit :=
  catch
    (seq! advisory_lock;
     run! r <- the_row;
     match r with
     | None => rollback
     | Some r => seq! bump "reconciled"; _reconcile_one r
     end)
    (fun _ => rollback).

(** ** [submit_cloud_job]

    [fresh] is what the cluster shows of a Job it has just created. *)
Context (fresh : nat -> KJob).

Definition _resolve_backend_kube (id : option string) : bool :=
  match truthy id with
  | None => false
  | Some i => bool_decide (Exists (fun b => backend_id b = i /\ (match config b with KKueue _ => true | _ => false end) = true) (registry cfg))
  end.

Definition note_created (w : rworld) : rworld :=
  RWorld (base w) (life_committed w) (life_view w) (cluster w) (completed w) (submits w) (tally w) (file :: created w) (uncharged w).

(** The POST of a deterministic name: 409 when the Job is there. *)
Definition submit_job : R string := fun w =>
  let n := calls (base w) in
  let w1 := with_base (tick (base w)) w in
  if kube_ok n then
    match cluster w !! job_name file with
    | Some _ => (w1, Ok (job_name file))
    | None => (note_created (with_cluster (<[job_name file := fresh n]> (cluster w)) w1), Ok (job_name file))
    end
  else (w1, Raise KubeStagingError).

Definition submitted_cas (name : string) : R bool := fun w =>
  let (w1, r) := query (fun _ _ => tt) w in
  match r with
  | Raise e => (w1, Raise e)
  | Ok _ =>
      match cloud_job (view (base w1)) !! file with
      | None =>
          let t := view (base w1) in
          let j := CloudJobs.Job SUBMITTED None (Some (staged_object_key file)) None None 0 0 (Some QUEUED_BEHIND_QUOTA) now in
          (with_life (<[file := set_workload (Some name) no_lifecycle]> (life_view w1))
             (with_base (set_view (set_cloud_job (<[file := j]> (cloud_job t)) t) (base w1)) w1), Ok true)
      | Some j =>
          if bool_decide (status j ∈ [UPLOADED; SUBMITTED])
          then
            let (w2, _) := set_row (fun j => set_updated now (set_phase (Some QUEUED_BEHIND_QUOTA) (set_status SUBMITTED j)))
                             (fun l => set_started None (set_workload (Some name) l)) w1 in (w2, Ok true)
          else (w1, Ok false)
      end
  end.

Definition submit_cloud_job : R unit :=
  run! backend <- query (fun _ t => cloud_job t !! file ≫= job_backend_id);
  seq! rollback;
  if negb (_resolve_backend_kube backend) then raise KubeStagingError
  else
    (* the telemetry slot, in a transaction of its own *)
    seq! query (fun _ _ => tt);
    seq! commit;
    run! name <- submit_job;
    run! wrote <- submitted_cas name;
    if wrote : bool then commit
    else
      run! current <- query (fun _ t => status <$> cloud_job t !! file);
      seq! rollback;
      if bool_decide (current ∈ [Some AWAITING; Some SUCCEEDED; Some FAILED]) then delete_job name
      else ret tt.

(** The queue runs the task of a live key; a failed run is retried or given up,
    [retried] says which. *)
Definition run_submit (retried : bool) (w : rworld) : rworld :=
  if bool_decide (file ∈ submits w) then
    let (w1, r) := submit_cloud_job w in
    match r with
    | Ok _ => with_submits (submits w1 ∖ {[file]}) w1
    | Raise _ => let (w2, _) := rollback w1 in if retried then w2 else with_submits (submits w2 ∖ {[file]}) w2
    end
  else w.
End reconcile.
