(* ===== verification/ReconcileBudget.v ===== *)
(** * What a row may cost

    Every Job created for a file is paid for: by an upload, by a unit of one of
    the two re-drive budgets, or by an exit the breaker did not hold. *)
From S2P Require Import Prelude StateErr Selection Breaker KubeObserve CloudJobs Callbacks Reconcile.
From stdpp Require Import options.
Local Open Scope Z_scope.

Section budget.
Context (cfg : CloudSettings) (nmax : Z) (schedule : list Z) (file : string).

(** ** The account *)

(** Attempts, node-loss re-drives, and whether a paid re-drive waits out its backoff. *)
Definition entry : Type := Z * Z * bool.
Definition waiting (l : Lifecycle) : bool := bool_decide (is_Some (redrive_after l)).
Definition counters (t : tables) (l : gmap string Lifecycle) : option entry :=
  (fun j => (attempts j, node_loss_redrives j, waiting (default no_lifecycle (l !! file)))) <$> cloud_job t !! file.
Definition worth (c : entry) : Z := c.1.1 + c.1.2 - Z.b2z c.2.
Definition total (c : option entry) : Z := match c with Some c => worth c | None => 0 end.
Definition made (w : rworld) : Z := Z.of_nat (length (filter (fun f => f = file) (created w))).

(** A queued submit that will create a Job. *)
Definition owed (w : rworld) : Z := if bool_decide (file ∈ submits w /\ cluster w !! job_name file = None) then 1 else 0.

(** What has been paid and not yet spent. *)
Definition spare (w : rworld) : Z := uncharged w + total (counters (committed (base w)) (life_committed w)) - made w - owed w.

Definition within_budget (c : entry) : Prop := c.1.1 <= cap_attempts cfg /\ c.1.2 <= nmax.
Definition named (l : gmap string Lifecycle) : Prop :=
  kueue_workload (default no_lifecycle (l !! file)) = None \/ kueue_workload (default no_lifecycle (l !! file)) = Some (job_name file).

(** A unit of work deletes no Job a queued submit has created, or the Job that
    submit will create again is paid for beforehand. *)
Definition unsubmitted (name : option string) (k : Z) (w : rworld) : Prop :=
  name = None \/ name = Some (job_name file) /\ ((file ∈ submits w -> cluster w !! job_name file = None) \/ k <= spare w + owed w - 1).

(** Inside the unit of work: [c] is committed, [v] is in the session. *)
Definition accounts (name : option string) (k : Z) (c v : entry) (w : rworld) : Prop :=
  k <= spare w /\ counters (committed (base w)) (life_committed w) = Some c /\ counters (view (base w)) (life_view w) = Some v /\
  within_budget c /\ within_budget v /\ named (life_committed w) /\ named (life_view w) /\ unsubmitted name k w.

(** Between units of work. *)
Definition settled (k : Z) (w : rworld) : Prop :=
  k <= spare w /\ (exists c, counters (committed (base w)) (life_committed w) = Some c /\ within_budget c) /\ named (life_committed w).

Lemma unsubmitted_shift name k k' w w' : unsubmitted name k w -> submits w' = submits w -> cluster w' = cluster w -> k' - k <= spare w' - spare w ->
  unsubmitted name k' w'.
Proof.
  intros [?|[? [Hu|Hu]]] Hs Hc Hk; [by left|right..]; (split; [done|]); [left; by rewrite Hs, Hc|]. right.
  assert (owed w' = owed w) as -> by (unfold owed; by rewrite Hs, Hc). lia.
Qed.


Lemma accounts_less name k k' c v w : k' <= k -> accounts name k c v w -> accounts name k' c v w.
Proof.
  intros Hk (Hs & Hc & Hv & Hwc & Hwv & Hnc & Hnv & Hu). split_and!; try done; [lia|apply Hwc..|]. eapply unsubmitted_shift; [exact Hu|done..|lia].
Qed.


(** ** Steps that move no money *)


Section steps.
Context (stmt_ok : nat -> bool) (commit_at : nat -> commit_fate) (s3_at : nat -> s3_fate) (enqueue_at : nat -> enqueue_fate).
Context (kube_ok lingers : nat -> bool) (now : datetime) (name : option string) (k : Z) (c v : entry).

Abbreviation J := (accounts name k c v).










Lemma set_row_exact fj fl w : counters (view (base w)) (life_view w) = Some v ->
  exists j, let l := default no_lifecycle (life_view w !! file) in
    v = (attempts j, node_loss_redrives j, waiting l) /\
    (set_row file fj fl w).1 = with_life (<[file := fl l]> (life_view w))
         (with_base (set_view (set_cloud_job (<[file := fj j]> (cloud_job (view (base w)))) (view (base w))) (base w)) w).
Proof.
  unfold counters, set_row. intros Hv. apply fmap_Some in Hv as (j & Hj & ->). rewrite Hj. by exists j.
Qed.

(** What the assignment does to the account; it never invents a workload. *)
Definition books (v' : entry) (fj : CloudJobs.CloudJob -> CloudJobs.CloudJob) (fl : Lifecycle -> Lifecycle) : Prop :=
  (forall j l, v = (attempts j, node_loss_redrives j, waiting l) -> v' = (attempts (fj j), node_loss_redrives (fj j), waiting (fl l))) /\
  (forall l, kueue_workload (fl l) = kueue_workload l \/ kueue_workload (fl l) = None).

Lemma named_insert fl (l : gmap string Lifecycle) :
  (forall x, kueue_workload (fl x) = kueue_workload x \/ kueue_workload (fl x) = None) -> named l ->
  named (<[file := fl (default no_lifecycle (l !! file))]> l).
Proof.
  unfold named. intros Hf Hl. rewrite lookup_insert_eq. simpl. destruct (Hf (default no_lifecycle (l !! file))) as [->| ->]; auto.
Qed.

Lemma set_row_books v' fj fl w : books v' fj fl -> within_budget v' -> J w -> accounts name k c v' (set_row file fj fl w).1.
Proof.
  intros [Hj Hl] Hb (Hs & Hc & Hv & Hwc & Hwv & Hnc & Hnv & Hu). destruct (set_row_exact fj fl w Hv) as (j & Heq & ->).
  split_and!; try done; simpl.
  - unfold counters. simpl. rewrite !lookup_insert_eq. simpl. by rewrite <-(Hj j _ Heq).
  - by apply named_insert.
Qed.

Lemma keeps_set_row fj fl : books v fj fl -> keeps J (set_row file fj fl).
Proof. intros Hf w Hw. apply set_row_books; [done| |done]. apply Hw. Qed.
End steps.

(** ** Steps that move money *)

Section handlers.
Context (stmt_ok : nat -> bool) (commit_at : nat -> commit_fate) (s3_at : nat -> s3_fate) (enqueue_at : nat -> enqueue_fate).
Context (kube_ok lingers : nat -> bool) (now : datetime).




Lemma rollback_settled k w : settled k w -> settled k (rollback w).1.
Proof. done. Qed.

(** *** Rules *)

Abbreviation ends k m w := (wp m w (fun _ w' => settled k w')).






(** ** The handlers *)








(** *** The spill *)










(** *** The terminals *)











(** *** The row *)









(** A queued submit, whose task failed after its POST, has created the Job the row
    names, and runs again. *)
Definition overtaken (w : rworld) : bool :=
  bool_decide (is_Some (kueue_workload (default no_lifecycle (life_committed w !! file))) /\ file ∈ submits w /\ is_Some (cluster w !! job_name file)).


(** ** The submit task *)

Context (fresh : nat -> KJob).











End handlers.

(** ** Histories *)

(** Each unit of work opens a session of its own. *)
Definition open_session (w : rworld) : rworld :=
  let b := base w in
  with_life (life_committed w)
    (with_base (World (committed b) (committed b) false (parked_s3 b) (parked_push b) (broker b) (s3_log b) (calls b)) w).

(** The database after somebody else's transaction. *)
Definition rewritten (t : tables) (l : gmap string Lifecycle) (w : rworld) : rworld :=
  let b := base w in
  RWorld (World t t false (parked_s3 b) (parked_push b) (broker b) (s3_log b) (calls b)) l l (cluster w) (completed w) (submits w) (tally w) (created w)
    (uncharged w).


Definition with_completed (c : gset string) (w : rworld) : rworld :=
  RWorld (base w) (life_committed w) (life_view w) (cluster w) c (submits w) (tally w) (created w) (uncharged w).









End budget.

(** An upload, a Job, its ordinary failure, the re-drive, a second Job. *)
Definition demo_cfg : CloudSettings := demo_settings [MkBackend "k1" 5 2 (KKueue ["staging"%string])].
Definition demo_row : CloudJobs.CloudJob := CloudJobs.Job UPLOADED (Some "k1"%string) None None None 0 0 None (Datetime true 0).
Definition demo_tables : tables := Tables ∅ {["f" := demo_row]} ∅ ∅ ∅.
Definition demo_start : rworld := RWorld (empty_world demo_tables) ∅ ∅ ∅ ∅ ∅ ∅ [] 0.
Definition demo_job (failures : option Z) : KJob := MkJob "uid" false None failures None [] None [] None.
Definition demo_submit (w : rworld) : rworld :=
  run_submit (fun _ => true) (fun _ => Committed) (fun _ => true) (fun _ => false) demo_cfg (Datetime true 60) "f" (fun _ => demo_job None) true (open_session w).
Definition demo_uploaded : rworld := with_submits ({["f"]} ∪ submits demo_start) (rewritten demo_tables ∅ demo_start).


(** The answer of a submit's commit is lost, a tick finds the analysis finished and
    removes the Job, and the submit runs again: a second Job, which nothing paid. *)
Definition demo_unanswered : rworld :=
  with_completed {["f"]} (run_submit (fun _ => true) (fun n => if Nat.eqb n 6 then CommitLost else Committed) (fun _ => true) (fun _ => false) demo_cfg
    (Datetime true 60) "f" (fun _ => demo_job None) true (open_session demo_uploaded)).
Definition demo_finished : rworld := with_cluster {[job_name "f" := MkJob "uid" false (Some 1) None None [] None [] None]} demo_unanswered.
Definition demo_over : rworld :=
  (reconcile_row (fun _ => true) (fun _ => Committed) (fun _ => S3Done) (fun _ => EnqJob) (fun _ => true) (fun _ => false) demo_cfg 1 []
     (Datetime true 120) "f" (open_session demo_finished)).1.
Example overtaken_submit_creates_unpaid_job :
  made "f" (demo_submit demo_over) = 2 /\ overtaken "f" demo_finished = true /\ uncharged (demo_submit demo_over) = 0 /\
  (fun j => (status j, attempts j, node_loss_redrives j)) <$> cloud_job (committed (base (demo_submit demo_over))) !! "f"%string = Some (SUCCEEDED, 0, 0).
Proof. vm_compute. done. Qed.
