(* ===== verification/Mpeg.v ===== *)
(** * The MPEG stream behind a junk prefix: [services/mpeg_frames.py]

    Bytes are integers, a file is a list of them.  The loops of the source are
    bounded by their counters: [MAX_ID3V2_TAGS + 1] tag headers, [limit] frames
    of a chain, one candidate per byte.  [write_splice] is [_write_splice] of
    [services/video_audio.py]. *)
From S2P Require Import Prelude.
From stdpp Require Import options.
Local Open Scope Z_scope.

Definition MIN_CHAIN_FRAMES : Z := 8.
Definition MAX_SCAN_BYTES : Z := 64 * 1024 * 1024.
Definition MAX_ID3V2_BYTES : Z := MAX_SCAN_BYTES.
Definition MAX_ID3V2_TAGS : nat := 8.
Definition _ID3V2_HEADER_LEN : Z := 10.
Definition _ID3V2_FOOTER_FLAG : Z := 16.

Definition byte (b : Z) : Prop := 0 <= b < 256.

(** [len], [data\[i\]], [data\[a : a + n\]]. *)
Definition len {A} (l : list A) : Z := Z.of_nat (length l).
Definition get (data : list Z) (i : Z) : Z := default 0 (data !! Z.to_nat i).
Definition slice (data : list Z) (a n : Z) : list Z := take (Z.to_nat n) (drop (Z.to_nat a) data).

(** ** ID3v2 tags *)

Definition id3v2_tag_size (header : list Z) : option Z :=
  if (len header <? _ID3V2_HEADER_LEN) || negb (bool_decide (take 3 header = [73; 68; 51])) || bool_decide (255 ∈ slice header 3 2) then None
  else
    let size_bytes := slice header 6 4 in
    if existsb (fun b => negb (Z.land b 128 =? 0)) size_bytes then None
    else
      let size := Z.lor (Z.lor (Z.lor (Z.shiftl (get size_bytes 0) 21) (Z.shiftl (get size_bytes 1) 14)) (Z.shiftl (get size_bytes 2) 7)) (get size_bytes 3) in
      let footer := if negb (Z.land (get header 5) _ID3V2_FOOTER_FLAG =? 0) then _ID3V2_HEADER_LEN else 0 in
      Some (_ID3V2_HEADER_LEN + size + footer).

Fixpoint region_walk (read_at : Z -> Z -> list Z) (total_size : Z) (tags : nat) (stop : Z) : option Z :=
  match tags with
  | O => None
  | S tags =>
      match id3v2_tag_size (read_at stop _ID3V2_HEADER_LEN) with
      | None => Some stop
      | Some size =>
          if stop + size >? Z.min total_size MAX_ID3V2_BYTES then None else region_walk read_at total_size tags (stop + size)
      end
  end.
Definition id3v2_region_end (read_at : Z -> Z -> list Z) (total_size : Z) : option Z :=
  region_walk read_at total_size (S MAX_ID3V2_TAGS) 0.

Record ScanWindow : Type := Window { id3v2_end : Z; data : list Z }.

Definition scan_window_from_bytes (file : list Z) : option ScanWindow :=
  match id3v2_region_end (slice file) (len file) with
  | None => None
  | Some tag_end => Some (Window tag_end (slice file tag_end MAX_SCAN_BYTES))
  end.

(** A file that nobody writes meanwhile. *)
Definition read_scan_window (file : list Z) : option ScanWindow :=
  let total_size := len file in
  match id3v2_region_end (slice file) total_size with
  | None => None
  | Some tag_end => Some (Window tag_end (slice file tag_end (Z.min MAX_SCAN_BYTES (total_size - tag_end))))
  end.

(** ** Frame headers *)

Record FrameHeader : Type := Header { version : Z; layer : Z; sample_rate : Z; bitrate_kbps : Z; frame_length : Z }.
#[export] Instance FrameHeader_eq_dec : EqDecision FrameHeader.
Proof. solve_decision. Defined.

Definition _BITRATES_V1 (layer : Z) : list Z :=
  match layer with
  | 1 => [0; 32; 64; 96; 128; 160; 192; 224; 256; 288; 320; 352; 384; 416; 448]
  | 2 => [0; 32; 48; 56; 64; 80; 96; 112; 128; 160; 192; 224; 256; 320; 384]
  | 3 => [0; 32; 40; 48; 56; 64; 80; 96; 112; 128; 160; 192; 224; 256; 320]
  | _ => []
  end.
Definition _BITRATES_V2 (layer : Z) : list Z :=
  match layer with
  | 1 => [0; 32; 48; 56; 64; 80; 96; 112; 128; 144; 160; 176; 192; 224; 256]
  | 2 => [0; 8; 16; 24; 32; 40; 48; 56; 64; 80; 96; 112; 128; 144; 160]
  | 3 => [0; 8; 16; 24; 32; 40; 48; 56; 64; 80; 96; 112; 128; 144; 160]
  | _ => []
  end.
Definition _SAMPLE_RATES (version : Z) : list Z :=
  match version with
  | 3 => [44100; 48000; 32000]
  | 2 => [22050; 24000; 16000]
  | 0 => [11025; 12000; 8000]
  | _ => []
  end.

Definition parse_frame_header (data : list Z) (pos : Z) : option FrameHeader :=
  if (pos <? 0) || (pos + 4 >? len data) then None
  else
    let b1 := get data (pos + 1) in
    let b2 := get data (pos + 2) in
    let b3 := get data (pos + 3) in
    if negb (get data pos =? 255) || negb (Z.land b1 224 =? 224) then None
    else
      let version := Z.land (Z.shiftr b1 3) 3 in
      let layer := 4 - Z.land (Z.shiftr b1 1) 3 in
      let bitrate_index := Z.land (Z.shiftr b2 4) 15 in
      let rate_index := Z.land (Z.shiftr b2 2) 3 in
      if (version =? 1) || (layer =? 4) || bool_decide (bitrate_index ∈ [0; 15]) || (rate_index =? 3) || (Z.land b3 3 =? 2) then None
      else
        let table := if version =? 3 then _BITRATES_V1 else _BITRATES_V2 in
        let bitrate := get (table layer) bitrate_index * 1000 in
        let sample_rate := get (_SAMPLE_RATES version) rate_index in
        let padding := Z.land (Z.shiftr b2 1) 1 in
        let length :=
          if layer =? 1 then (12 * bitrate / sample_rate + padding) * 4
          else if (layer =? 3) && negb (version =? 3) then 72 * bitrate / sample_rate + padding
          else 144 * bitrate / sample_rate + padding in
        Some (Header version layer sample_rate (bitrate / 1000) length).

(** ** Chains *)

Definition same_stream (a b : FrameHeader) : bool :=
  bool_decide ((version a, layer a, sample_rate a) = (version b, layer b, sample_rate b)).

(** [while count < limit]: one turn per missing frame. *)
Fixpoint extend_chain (data : list Z) (first : FrameHeader) (turns : nat) (count pos : Z) : Z :=
  match turns with
  | O => count
  | S turns =>
      match parse_frame_header data pos with
      | None => count
      | Some frame =>
          if negb (same_stream frame first) then count
          else if pos + frame_length frame >? len data then count
          else extend_chain data first turns (count + 1) (pos + frame_length frame)
      end
  end.

Definition chain_length (data : list Z) (start limit : Z) : Z * option FrameHeader :=
  match parse_frame_header data start with
  | None => (0, None)
  | Some first =>
      if start + frame_length first >? len data then (0, None)
      else (extend_chain data first (Z.to_nat (limit - 1)) 1 (start + frame_length first), Some first)
  end.

(** The positions [_SYNC] matches from [start], in order. *)
Definition is_sync (data : list Z) (pos : Z) : bool :=
  (pos + 1 <? len data) && (get data pos =? 255) && (224 <=? get data (pos + 1)) && (get data (pos + 1) <=? 255).
Definition sync_positions (data : list Z) (start : Z) : list Z :=
  List.filter (is_sync data) (seqZ start (len data - start)).

Fixpoint first_stream (data : list Z) (min_frames : Z) (positions : list Z) : option (Z * FrameHeader) :=
  match positions with
  | [] => None
  | pos :: positions =>
      match chain_length data pos min_frames with
      | (count, Some first) => if count >=? min_frames then Some (pos, first) else first_stream data min_frames positions
      | (_, None) => first_stream data min_frames positions
      end
  end.
Definition find_stream (data : list Z) (start min_frames : Z) : option (Z * FrameHeader) :=
  first_stream data min_frames (sync_positions data start).

(** ** The verdict *)

Definition layer_for_codec (codec_name : option string) : option Z :=
  match codec_name with
  | Some "mp3"%string => Some 3
  | Some "mp2"%string => Some 2
  | Some "mp1"%string => Some 1
  | _ => None
  end.

Record MisdetectionVerdict : Type := Verdict {
  misdetected : bool;
  splice_offset : option Z;
  verdict_end : Z;
  chain_layer : option Z;
  probed_layer : option Z;
}.

Definition detect_misdetection (window : ScanWindow) (probed_codec : option string) (min_frames : Z) : MisdetectionVerdict :=
  let probed := layer_for_codec probed_codec in
  match find_stream (data window) 0 min_frames with
  | None => Verdict false None (id3v2_end window) None probed
  | Some (offset, header) =>
      Verdict (negb (bool_decide (Some (layer header) = probed))) (Some (id3v2_end window + offset)) (id3v2_end window) (Some (layer header)) probed
  end.

Definition write_splice (file : list Z) (id3v2_end splice_offset : Z) : list Z :=
  slice file 0 id3v2_end ++ drop (Z.to_nat splice_offset) file.

(** ** Bytes and slices *)

Lemma len_nonneg {A} (l : list A) : 0 <= len l.
Proof. unfold len. lia. Qed.

Lemma len_slice l a n : 0 <= a -> 0 <= n -> len (slice l a n) = Z.max 0 (Z.min n (len l - a)).
Proof. intros. unfold len, slice. rewrite length_take, length_drop. lia. Qed.

Lemma get_slice l a n i : 0 <= a -> 0 <= i -> i < n -> get (slice l a n) i = get l (a + i).
Proof.
  intros. unfold get, slice. rewrite lookup_take_lt, lookup_drop by lia. by replace (Z.to_nat a + Z.to_nat i)%nat with (Z.to_nat (a + i)) by lia.
Qed.

Lemma get_byte l i : Forall byte l -> byte (get l i).
Proof.
  intros Hl. unfold get. destruct (l !! Z.to_nat i) as [b|] eqn:E; simpl; [|unfold byte; lia]. by eapply Forall_lookup_1.
Qed.

Lemma slice_slice l a n b m : 0 <= a -> 0 <= b -> 0 <= m -> b + m <= n -> slice (slice l a n) b m = slice l (a + b) m.
Proof.
  intros. unfold slice. rewrite List.skipn_firstn_comm, take_take, drop_drop. f_equal; [lia|f_equal; lia].
Qed.

Lemma land_small x n : 0 <= n -> 0 <= Z.land x (Z.ones n) < 2 ^ n.
Proof. intros Hn. rewrite Z.land_ones by done. apply Z.mod_pos_bound. lia. Qed.

(** ** Frame sizes *)

Definition frame_bytes (version layer bitrate_index rate_index padding : Z) : Z :=
  let table := if version =? 3 then _BITRATES_V1 else _BITRATES_V2 in
  let bitrate := get (table layer) bitrate_index * 1000 in
  let sample_rate := get (_SAMPLE_RATES version) rate_index in
  if layer =? 1 then (12 * bitrate / sample_rate + padding) * 4
  else if (layer =? 3) && negb (version =? 3) then 72 * bitrate / sample_rate + padding
  else 144 * bitrate / sample_rate + padding.

Definition in_table (v l b r p : Z) : bool := (24 <=? frame_bytes v l b r p) && (frame_bytes v l b r p <=? 2881).

Lemma frame_bytes_table :
  forallb (fun v => forallb (fun l => forallb (fun b => forallb (fun r => forallb (in_table v l b r) [0; 1]) [0; 1; 2]) (seqZ 1 14)) [1; 2; 3]) [0; 2; 3] = true.
Proof. by vm_compute. Qed.

Lemma forallb_in {A} (f : A -> bool) (l : list A) x : forallb f l = true -> x ∈ l -> f x = true.
Proof. intros H Hx. rewrite List.forallb_forall in H. by apply H, list_elem_of_In. Qed.

Lemma frame_bytes_bounds v l b r p : v ∈ [0; 2; 3] -> 1 <= l <= 3 -> 1 <= b <= 14 -> 0 <= r <= 2 -> 0 <= p <= 1 -> 24 <= frame_bytes v l b r p <= 2881.
Proof.
  intros Hv Hl Hb Hr Hp. pose proof frame_bytes_table as H.
  apply (forallb_in _ _ v) in H; [|done]. apply (forallb_in _ _ l) in H; [|rewrite !elem_of_cons; lia].
  apply (forallb_in _ _ b) in H; [|apply elem_of_seqZ; lia]. apply (forallb_in _ _ r) in H; [|rewrite !elem_of_cons; lia].
  apply (forallb_in _ _ p) in H; [|rewrite !elem_of_cons; lia]. unfold in_table in H. bool_prop. lia.
Qed.

(** What a parsed header is. *)
Lemma parse_inv data pos h : parse_frame_header data pos = Some h ->
  0 <= pos /\ pos + 4 <= len data /\ get data pos = 255 /\ Z.land (get data (pos + 1)) 224 = 224 /\ 24 <= frame_length h <= 2881 /\ 1 <= layer h <= 3.
Proof.
  unfold parse_frame_header. destruct (pos <? 0) eqn:Hp; [done|]. destruct (pos + 4 >? len data) eqn:Hl; [done|]. simpl.
  destruct (get data pos =? 255) eqn:H0; [|done]. destruct (Z.land (get data (pos + 1)) 224 =? 224) eqn:H1; [|done]. simpl.
  set (v := Z.land (Z.shiftr _ 3) 3). set (l := 4 - _). set (b := Z.land _ 15). set (r := Z.land _ 3). set (pad := Z.land _ 1).
  pose proof (land_small (Z.shiftr (get data (pos + 1)) 3) 2 ltac:(lia)) as Hv. change (Z.land _ (Z.ones 2)) with v in Hv.
  pose proof (land_small (Z.shiftr (get data (pos + 1)) 1) 2 ltac:(lia)) as Hlay.
  pose proof (land_small (Z.shiftr (get data (pos + 2)) 4) 4 ltac:(lia)) as Hb. change (Z.land _ (Z.ones 4)) with b in Hb.
  pose proof (land_small (Z.shiftr (get data (pos + 2)) 2) 2 ltac:(lia)) as Hr. change (Z.land _ (Z.ones 2)) with r in Hr.
  pose proof (land_small (Z.shiftr (get data (pos + 2)) 1) 1 ltac:(lia)) as Hpad. change (Z.land _ (Z.ones 1)) with pad in Hpad.
  assert (Hl2 : 1 <= l <= 4) by (change (Z.ones 2) with 3 in Hlay; unfold l; lia).
  destruct (v =? 1) eqn:Hv1; [done|]. destruct (l =? 4) eqn:Hl4; [done|]. case_bool_decide as Hbi; [done|].
  destruct (r =? 3) eqn:Hr3; [done|]. destruct (_ =? 2); [done|]. simpl. intros [= <-]. simpl. bool_prop.
  rewrite Z.gtb_ltb in Hl. bool_prop. change (2 ^ 2) with 4 in *. change (2 ^ 4) with 16 in *. change (2 ^ 1) with 2 in *.
  rewrite !elem_of_cons in Hbi. split_and!; try lia;
    pose proof (frame_bytes_bounds v l b r pad ltac:(rewrite !elem_of_cons; lia) ltac:(lia) ltac:(lia) ltac:(lia) ltac:(lia)) as Hf;
    unfold frame_bytes in Hf; lia.
Qed.

(** ** Chains *)

Definition params (h : FrameHeader) : Z * Z * Z := (version h, layer h, sample_rate h).

(** [n] consecutive frames of one stream, all within the data. *)
Inductive chain (data : list Z) (p : Z * Z * Z) : nat -> Z -> Prop :=
| chain_end pos : chain data p 0 pos
| chain_frame n pos h : parse_frame_header data pos = Some h -> params h = p -> pos + frame_length h <= len data ->
    chain data p n (pos + frame_length h) -> chain data p (S n) pos.

Lemma same_stream_spec a b : same_stream a b = true <-> params a = params b.
Proof. unfold same_stream. apply bool_decide_eq_true. Qed.

Lemma extend_chain_between data first turns count pos :
  count <= extend_chain data first turns count pos <= count + Z.of_nat turns.
Proof.
  revert count pos. induction turns as [|turns IH]; intros count pos; simpl; [lia|].
  destruct (parse_frame_header data pos) as [f|]; [|lia]. destruct (same_stream f first); simpl; [|lia].
  destruct (_ >? _); [lia|]. specialize (IH (count + 1) (pos + frame_length f)). lia.
Qed.

Lemma extend_chain_ge data first turns count pos k : (k <= turns)%nat ->
  count + Z.of_nat k <= extend_chain data first turns count pos <-> chain data (params first) k pos.
Proof.
  revert count pos k. induction turns as [|turns IH]; intros count pos k Hk.
  { replace k with 0%nat by lia. simpl. split; [intros; apply chain_end|lia]. }
  destruct k as [|k]; [pose proof (extend_chain_between data first (S turns) count pos); split; [intros; apply chain_end|lia]|].
  simpl. destruct (parse_frame_header data pos) as [f|] eqn:E; [|split; [lia|inversion 1; congruence]].
  destruct (same_stream f first) eqn:Hs; simpl; cycle 1.
  { split; [lia|]. inversion 1 as [|? ? h Hp Heq]. exfalso. assert (h = f) as -> by congruence. apply same_stream_spec in Heq. congruence. }
  apply same_stream_spec in Hs. rewrite Z.gtb_ltb. destruct (len data <? pos + frame_length f) eqn:Hl; bool_prop.
  { split; [lia|]. inversion 1; simplify_eq. lia. }
  specialize (IH (count + 1) (pos + frame_length f) k ltac:(lia)). split.
  - intros Hle. apply (chain_frame _ _ _ _ f); [done..|]. apply IH. lia.
  - inversion 1; simplify_eq. match goal with H : chain _ _ k _ |- _ => apply IH in H end. lia.
Qed.

Definition stream_at (data : list Z) (n pos : Z) (h : FrameHeader) : Prop :=
  parse_frame_header data pos = Some h /\ chain data (params h) (Z.to_nat n) pos.

Lemma chain_length_ge data start limit : 1 <= limit ->
  match chain_length data start limit with
  | (count, Some h) => if limit <=? count then stream_at data limit start h else forall h', ~ stream_at data limit start h'
  | (_, None) => forall h, ~ stream_at data limit start h
  end.
Proof.
  intros Hn. unfold chain_length, stream_at. replace (Z.to_nat limit) with (S (Z.to_nat (limit - 1))) by lia.
  destruct (parse_frame_header data start) as [h|] eqn:E; [|by intros h [? _]].
  rewrite Z.gtb_ltb. destruct (_ <? _) eqn:Hl; bool_prop.
  - intros h' [[= <-] Hc]. inversion Hc; simplify_eq. lia.
  - pose proof (extend_chain_ge data h (Z.to_nat (limit - 1)) 1 (start + frame_length h) (Z.to_nat (limit - 1)) ltac:(lia)) as H.
    destruct (limit <=? _) eqn:Hle; bool_prop.
    + split; [done|]. apply (chain_frame _ _ _ _ h); [done..|]. apply H. lia.
    + intros h' [[= <-] Hc]. inversion Hc; simplify_eq. match goal with Hx : chain _ _ _ (_ + _) |- _ => apply H in Hx end. lia.
Qed.

Lemma sync_bits : forallb (fun b => (224 <=? b) || negb (Z.land b 224 =? 224)) (seqZ 0 256) = true.
Proof. by vm_compute. Qed.

(** The prefilter misses no frame. *)
Lemma parse_is_sync data pos h : Forall byte data -> parse_frame_header data pos = Some h -> is_sync data pos = true.
Proof.
  intros Hb (Hp & Hl & H0 & H1 & _)%parse_inv. pose proof (get_byte data (pos + 1) Hb) as [Hlo Hhi].
  pose proof (forallb_in _ _ (get data (pos + 1)) sync_bits ltac:(apply elem_of_seqZ; lia)) as H. simpl in H.
  unfold is_sync. rewrite H0, (proj2 (Z.ltb_lt _ _)), (proj2 (Z.leb_le (get _ _) 255)) by lia.
  rewrite H1 in H. simpl in H. by destruct (224 <=? get data (pos + 1)).
Qed.

Lemma first_stream_least data min_frames n a : Forall byte data -> 1 <= min_frames ->
  match first_stream data min_frames (List.filter (is_sync data) (seqZ a (Z.of_nat n))) with
  | Some (o, h) => a <= o < a + Z.of_nat n /\ stream_at data min_frames o h /\ forall o' h', a <= o' < o -> ~ stream_at data min_frames o' h'
  | None => forall o h, a <= o < a + Z.of_nat n -> ~ stream_at data min_frames o h
  end.
Proof.
  intros Hb Hm. revert a. induction n as [|n IH]; intros a; [simpl; lia|].
  rewrite (seqZ_cons a) by lia. replace (Z.pred (Z.of_nat (S n))) with (Z.of_nat n) by lia. simpl.
  assert (Hrest : (forall h, ~ stream_at data min_frames a h) ->
    match first_stream data min_frames (List.filter (is_sync data) (seqZ (Z.succ a) (Z.of_nat n))) with
    | Some (o, h) => a <= o < a + Z.of_nat (S n) /\ stream_at data min_frames o h /\ forall o' h', a <= o' < o -> ~ stream_at data min_frames o' h'
    | None => forall o h, a <= o < a + Z.of_nat (S n) -> ~ stream_at data min_frames o h
    end).
  { intros Hno. specialize (IH (Z.succ a)). destruct (first_stream _ _ _) as [[o h]|].
    - destruct IH as (H1 & H2 & H3). split; [lia|]. split; [done|]. intros o' h' Ho.
      destruct (decide (o' = a)) as [->|]; [apply Hno|apply H3; lia].
    - intros o h Ho. destruct (decide (o = a)) as [->|]; [apply Hno|apply IH; lia]. }
  destruct (is_sync data a) eqn:Hs.
  - simpl. pose proof (chain_length_ge data a min_frames Hm) as Hc. destruct (chain_length data a min_frames) as [count [h|]]; [|by apply Hrest].
    rewrite Z.geb_leb. destruct (min_frames <=? count); [|by apply Hrest].
    split; [lia|]. split; [done|]. intros o' h' ?. lia.
  - apply Hrest. intros h [Hp _]. apply parse_is_sync in Hp; [congruence|done].
Qed.

Definition least_stream (data : list Z) (start n : Z) (found : option (Z * FrameHeader)) : Prop :=
  match found with
  | Some (o, h) => start <= o /\ stream_at data n o h /\ forall o' h', start <= o' < o -> ~ stream_at data n o' h'
  | None => forall o h, start <= o -> ~ stream_at data n o h
  end.

Lemma stream_at_within data n o h : stream_at data n o h -> 0 <= o < len data.
Proof. intros [(Hp & Hl & _)%parse_inv _]. lia. Qed.

Lemma find_stream_cases data start min_frames : Forall byte data -> 1 <= min_frames ->
  least_stream data start min_frames (find_stream data start min_frames).
Proof.
  intros Hb Hm. unfold find_stream, sync_positions.
  assert (Heq : seqZ start (len data - start) = seqZ start (Z.of_nat (Z.to_nat (len data - start)))) by (unfold seqZ; by rewrite Nat2Z.id).
  rewrite Heq. pose proof (first_stream_least data min_frames (Z.to_nat (len data - start)) start Hb Hm) as H.
  unfold least_stream. destruct (first_stream _ _ _) as [[o h]|].
  - destruct H as (H1 & H2 & H3). split; [lia|done].
  - intros o h Ho Hst. pose proof (stream_at_within _ _ _ _ Hst). apply (H o h); [lia|done].
Qed.

(** C33: [find_stream] returns the least offset at which [min_frames] consecutive
    frames of one stream lie within the data, with its first header, and [None]
    exactly when no offset has such a chain: the sync prefilter and the early
    exits lose nothing, and the header is a real one, of 24 to 2,881 bytes. *)
Theorem find_stream_least data start min_frames : Forall byte data -> 1 <= min_frames ->
  least_stream data start min_frames (find_stream data start min_frames) /\
  forall o h, find_stream data start min_frames = Some (o, h) -> 24 <= frame_length h <= 2881 /\ 1 <= layer h <= 3.
Proof.
  intros Hb Hm. pose proof (find_stream_cases data start min_frames Hb Hm) as H. split; [exact H|].
  intros o h E. rewrite E in H. destruct H as (_ & [(_ & _ & _ & _ & Hf & Hl)%parse_inv _] & _). done.
Qed.

(** Two MPEG-1 Layer 3 frames of 417 bytes behind three junk bytes. *)
Definition demo_frame : list Z := [255; 251; 144; 0] ++ replicate 413 0.
Definition demo_stream : list Z := [1; 255; 226] ++ demo_frame ++ demo_frame.

Lemma byteb_spec data : forallb (fun b => (0 <=? b) && (b <? 256)) data = true -> Forall byte data.
Proof.
  intros H. apply Forall_forall. intros b Hb. apply (forallb_in _ _ b) in H; [|done]. unfold byte. simpl in H. bool_prop. lia.
Qed.

Lemma find_stream_least_witness :
  find_stream demo_stream 0 2 = Some (3, Header 3 3 44100 128 417) /\
  least_stream demo_stream 0 2 (find_stream demo_stream 0 2) /\
  forall o h, find_stream demo_stream 0 2 = Some (o, h) -> 24 <= frame_length h <= 2881 /\ 1 <= layer h <= 3.
Proof.
  split; [vm_compute; reflexivity|].
  exact (find_stream_least demo_stream 0 2 (byteb_spec demo_stream ltac:(vm_compute; reflexivity)) ltac:(lia)).
Defined.

(** ** The tag region *)

Lemma tag_size_min header size : Forall byte header -> id3v2_tag_size header = Some size -> _ID3V2_HEADER_LEN <= size.
Proof.
  intros Hb. unfold id3v2_tag_size. destruct (_ || _); [done|]. destruct (existsb _ _); [done|]. intros [= <-].
  assert (Hg : forall i, 0 <= get (slice header 6 4) i) by (intros i; apply get_byte; unfold slice; by apply Forall_take, Forall_drop).
  assert (0 <= Z.lor (Z.lor (Z.lor (Z.shiftl (get (slice header 6 4) 0) 21) (Z.shiftl (get (slice header 6 4) 1) 14))
                  (Z.shiftl (get (slice header 6 4) 2) 7)) (get (slice header 6 4) 3)).
  { rewrite !Z.lor_nonneg, !Z.shiftl_nonneg. auto. }
  destruct (negb _); unfold _ID3V2_HEADER_LEN; lia.
Qed.

Lemma not_a_tag header : get header 0 <> 73 -> id3v2_tag_size header = None.
Proof.
  intros H. unfold id3v2_tag_size. destruct (bool_decide (take 3 header = _)) eqn:E.
  - apply bool_decide_eq_true in E. destruct header as [|x l]; [done|]. simpl in E. by simplify_eq.
  - by rewrite orb_true_r.
Qed.

Lemma region_walk_ge read total tags stop e : (forall a, Forall byte (read a _ID3V2_HEADER_LEN)) ->
  region_walk read total tags stop = Some e -> stop <= e /\ (e = stop \/ e <= Z.min total MAX_ID3V2_BYTES).
Proof.
  intros Hb. revert stop. induction tags as [|tags IH]; intros stop; simpl; [done|].
  destruct (id3v2_tag_size _) as [size|] eqn:E; [|intros [= ->]; auto with lia].
  apply tag_size_min in E; [|done]. unfold _ID3V2_HEADER_LEN in E. rewrite Z.gtb_ltb. destruct (_ <? _) eqn:Hl; [done|]. bool_prop.
  intros [H1 H2]%IH. split; [lia|]. right. destruct H2 as [->|]; lia.
Qed.

(** A file with the same tags and nothing that looks like one after them. *)
Lemma region_walk_agree read read' total total' tags stop e : (forall a, Forall byte (read a _ID3V2_HEADER_LEN)) ->
  (forall a, 0 <= a -> a + _ID3V2_HEADER_LEN <= e -> read' a _ID3V2_HEADER_LEN = read a _ID3V2_HEADER_LEN) ->
  id3v2_tag_size (read' e _ID3V2_HEADER_LEN) = None -> e <= total' -> 0 <= stop ->
  region_walk read total tags stop = Some e -> region_walk read' total' tags stop = Some e.
Proof.
  intros Hb Hsame Hend Ht. revert stop. induction tags as [|tags IH]; intros stop H0; simpl; [done|].
  destruct (id3v2_tag_size (read stop _)) as [size|] eqn:E; [|intros [= ->]; by rewrite Hend].
  pose proof (tag_size_min _ _ (Hb stop) E) as Hsize. unfold _ID3V2_HEADER_LEN in Hsize. rewrite Z.gtb_ltb.
  destruct (_ <? _) eqn:Hl; [done|]. bool_prop. intros Hw. pose proof (region_walk_ge _ _ _ _ _ Hb Hw) as [Hle Hcap].
  rewrite Hsame, E by (unfold _ID3V2_HEADER_LEN; lia). rewrite Z.gtb_ltb, (proj2 (Z.ltb_ge _ _)) by lia. apply IH; [lia|done].
Qed.

(** ** Splicing *)

(** What [data'] shows of the data from [o0] on. *)
Definition suffix_of (data data' : list Z) (o0 : Z) : Prop :=
  len data - o0 <= len data' /\ forall i, 0 <= i -> o0 + i < len data -> get data' i = get data (o0 + i).

Lemma parse_shift data data' o0 x h : suffix_of data data' o0 -> 0 <= x ->
  parse_frame_header data (o0 + x) = Some h -> parse_frame_header data' x = Some h.
Proof.
  intros [Hlen Hget] Hx Hp. pose proof (parse_inv _ _ _ Hp) as (Hlo & Hhi & _). revert Hp. unfold parse_frame_header.
  rewrite !Z.gtb_ltb, (proj2 (Z.ltb_ge (o0 + x) 0)), (proj2 (Z.ltb_ge x 0)), (proj2 (Z.ltb_ge (len data) _)), (proj2 (Z.ltb_ge (len data') _)) by lia.
  simpl. rewrite (Hget x), (Hget (x + 1)), (Hget (x + 2)), (Hget (x + 3)), !Z.add_assoc by lia. done.
Qed.

Lemma chain_shift data data' o0 p n x : suffix_of data data' o0 -> 0 <= x -> chain data p n (o0 + x) -> chain data' p n x.
Proof.
  intros Hs. revert x. induction n as [|n IH]; intros x Hx Hc; [apply chain_end|].
  inversion Hc as [|? ? h Hp Hpar Hend Hrest]; subst. pose proof (parse_inv _ _ _ Hp) as (_ & _ & _ & _ & Hf & _).
  apply (chain_frame _ _ _ _ h); [by eapply parse_shift|done| |].
  - destruct Hs. lia.
  - apply IH; [lia|]. by rewrite Z.add_assoc.
Qed.

Lemma read_scan_window_inv file w : Forall byte file -> read_scan_window file = Some w ->
  0 <= id3v2_end w <= len file /\ id3v2_region_end (slice file) (len file) = Some (id3v2_end w) /\
  data w = slice file (id3v2_end w) (Z.min MAX_SCAN_BYTES (len file - id3v2_end w)).
Proof.
  intros Hb. unfold read_scan_window. destruct (id3v2_region_end (slice file) (len file)) as [e|] eqn:E; [|done]. intros [= <-]. simpl.
  split; [|done]. apply region_walk_ge in E; [|intros a; unfold slice; by apply Forall_take, Forall_drop].
  pose proof (len_nonneg file). lia.
Qed.

Lemma Forall_byte_slice file a n : Forall byte file -> Forall byte (slice file a n).
Proof. intros. unfold slice. by apply Forall_take, Forall_drop. Qed.

Lemma len_app {A} (l l' : list A) : len (l ++ l') = len l + len l'.
Proof. unfold len. rewrite length_app. lia. Qed.
Lemma len_drop {A} (l : list A) n : 0 <= n <= len l -> len (drop (Z.to_nat n) l) = len l - n.
Proof. unfold len. intros. rewrite length_drop. lia. Qed.

Lemma get_app_l l l' i : 0 <= i < len l -> get (l ++ l') i = get l i.
Proof. unfold get, len. intros. by rewrite lookup_app_l by lia. Qed.
Lemma get_app_r l l' i : len l <= i -> get (l ++ l') i = get l' (i - len l).
Proof. pose proof (len_nonneg l). unfold get, len in *. intros. rewrite lookup_app_r by lia. by replace (Z.to_nat i - length l)%nat with (Z.to_nat (i - Z.of_nat (length l))) by lia. Qed.
Lemma get_drop l n i : 0 <= n -> 0 <= i -> get (drop (Z.to_nat n) l) i = get l (n + i).
Proof. unfold get. intros. rewrite lookup_drop. by replace (Z.to_nat n + Z.to_nat i)%nat with (Z.to_nat (n + i)) by lia. Qed.

Lemma slice_ext l l' a n : 0 <= a -> 0 <= n -> a + n <= len l -> a + n <= len l' -> (forall i, 0 <= i < n -> get l' (a + i) = get l (a + i)) -> slice l' a n = slice l a n.
Proof.
  intros Ha Hn Hl Hl' Hg. apply list_eq. intros i. unfold slice. destruct (decide (i < Z.to_nat n)%nat) as [Hi|Hi]; [|by rewrite !lookup_take_ge by lia].
  rewrite !lookup_take_lt, !lookup_drop by done. specialize (Hg (Z.of_nat i) ltac:(lia)). unfold get, len in *.
  replace (Z.to_nat (a + Z.of_nat i)) with (Z.to_nat a + i)%nat in Hg by lia.
  destruct (lookup_lt_is_Some_2 l (Z.to_nat a + i)) as [x Hx]; [lia|]. destruct (lookup_lt_is_Some_2 l' (Z.to_nat a + i)) as [y Hy]; [lia|].
  rewrite Hx, Hy in *. simpl in Hg. by subst.
Qed.

(** The two readers of the window agree. *)
Lemma scan_windows_agree file : Forall byte file -> scan_window_from_bytes file = read_scan_window file.
Proof.
  intros Hb. destruct (read_scan_window file) as [w|] eqn:E.
  - pose proof (read_scan_window_inv _ _ Hb E) as (He & Hr & Hd). unfold scan_window_from_bytes. rewrite Hr. destruct w as [e d]. simpl in *. subst d.
    f_equal. f_equal. unfold slice. destruct (decide (len file - e <= MAX_SCAN_BYTES)).
    + assert (length (drop (Z.to_nat e) file) = Z.to_nat (len file - e)) by (rewrite length_drop; unfold len in *; lia).
      rewrite !take_ge by lia. done.
    + by rewrite Z.min_l by lia.
  - revert E. unfold read_scan_window, scan_window_from_bytes. by destruct (id3v2_region_end _ _).
Qed.

Section splice.
Context (file : list Z) (w : ScanWindow) (o0 : Z).
Context (bytes : Forall byte file) (seen : read_scan_window file = Some w) (inside : 0 <= o0 < len (data w)).
Let e := id3v2_end w.
Let spliced := write_splice file e (e + o0).

Lemma window_len : len (data w) = Z.min MAX_SCAN_BYTES (len file - e) /\ 0 <= e.
Proof using bytes seen.
  destruct (read_scan_window_inv _ _ bytes seen) as (He & _ & ->). split; [|unfold e; lia]. fold e in He |- *. rewrite len_slice; unfold MAX_SCAN_BYTES; lia.
Qed.

Lemma spliced_len : len spliced = len file - o0.
Proof using bytes inside seen.
  destruct window_len as [Hw He]. unfold spliced, write_splice. rewrite len_app, len_slice, len_drop by (pose proof (len_nonneg file); lia). lia.
Qed.

Lemma spliced_head i : 0 <= i < e -> get spliced i = get file i.
Proof using bytes inside seen.
  intros Hi. destruct window_len as [Hw He]. unfold spliced, write_splice. rewrite get_app_l, get_slice by (rewrite ?len_slice; lia). done.
Qed.

Lemma spliced_tail i : 0 <= i -> get spliced (e + i) = get file (e + o0 + i).
Proof using bytes inside seen.
  intros Hi. destruct window_len as [Hw He]. unfold spliced, write_splice.
  assert (Hl : len (slice file 0 e) = e) by (rewrite len_slice; lia).
  rewrite get_app_r, Hl, get_drop by lia. f_equal. lia.
Qed.

Lemma spliced_region : get file (e + o0) <> 73 -> id3v2_region_end (slice spliced) (len spliced) = Some e.
Proof using bytes inside seen.
  intros Hsync. destruct window_len as [Hw He]. pose proof spliced_len as Hlen. pose proof (read_scan_window_inv _ _ bytes seen) as (Hb & Hr & _).
  fold e in Hb, Hr. apply (region_walk_agree (slice file) _ (len file)); [intros; by apply Forall_byte_slice| | |lia|lia|exact Hr].
  - unfold _ID3V2_HEADER_LEN. intros a Ha Hae. apply slice_ext; try lia. intros i Hi. apply spliced_head. lia.
  - apply not_a_tag. rewrite get_slice by (unfold _ID3V2_HEADER_LEN; lia). rewrite spliced_tail by lia. by rewrite Z.add_0_r.
Qed.

Lemma spliced_window : get file (e + o0) <> 73 ->
  exists w', read_scan_window spliced = Some w' /\ id3v2_end w' = e /\ Forall byte (data w') /\ suffix_of (data w) (data w') o0.
Proof using bytes inside seen.
  intros Hsync. destruct window_len as [Hw He]. pose proof spliced_len as Hlen. pose proof (read_scan_window_inv _ _ bytes seen) as (Hb & _ & Hd).
  fold e in Hb, Hd. unfold read_scan_window. rewrite spliced_region by done. eexists. split; [done|]. simpl. split; [done|]. split.
  - apply Forall_byte_slice. unfold spliced, write_splice. apply Forall_app. split; [by apply Forall_byte_slice|by apply Forall_drop].
  - split.
    + rewrite len_slice by (unfold MAX_SCAN_BYTES; lia). lia.
    + intros i Hi Hio. rewrite Hd, !get_slice by lia. rewrite spliced_tail by lia. f_equal. lia.
Qed.
End splice.

(** C32: Splicing out the junk prefix settles the file.  The spliced file keeps
    the tags byte for byte and loses exactly the junk; a second scan finds the
    same tag region and the stream of the first verdict right behind it, so
    whatever codec is probed then, the verdict's offset removes nothing, and
    it is a misdetection only for a codec of another layer. *)
Theorem splice_settles file w codec codec' min_frames o : Forall byte file -> 1 <= min_frames -> read_scan_window file = Some w ->
  let v := detect_misdetection w codec min_frames in
  splice_offset v = Some o ->
  let file' := write_splice file (verdict_end v) o in
  slice file' 0 (verdict_end v) = slice file 0 (verdict_end v) /\ len file' = len file - (o - verdict_end v) /\
  exists w', read_scan_window file' = Some w' /\
    detect_misdetection w' codec' min_frames =
      Verdict (negb (bool_decide (chain_layer v = layer_for_codec codec'))) (Some (verdict_end v)) (verdict_end v) (chain_layer v) (layer_for_codec codec') /\
    write_splice file' (verdict_end v) (verdict_end v) = file'.
Proof.
  intros Hb Hm Hw v. unfold v, detect_misdetection. pose proof (read_scan_window_inv _ _ Hb Hw) as (He & _ & Hd).
  assert (Hbd : Forall byte (data w)) by (rewrite Hd; by apply Forall_byte_slice).
  pose proof (find_stream_cases (data w) 0 min_frames Hbd Hm) as Hfind.
  destruct (find_stream (data w) 0 min_frames) as [[o0 h]|] eqn:Ef; [|done]. simpl. intros [= <-].
  destruct Hfind as (Ho & [Hp Hc] & _). pose proof (stream_at_within _ _ _ _ (conj Hp Hc)) as Hin.
  pose proof (spliced_len _ _ _ Hb Hw Hin) as Hlen. pose proof (window_len _ _ Hb Hw) as [Hwl _].
  assert (Hsync : get file (id3v2_end w + o0) <> 73).
  { pose proof (parse_inv _ _ _ Hp) as (_ & _ & H255 & _). rewrite Hd, get_slice in H255 by lia. by rewrite H255. }
  destruct (spliced_window _ _ _ Hb Hw Hin Hsync) as (w' & Hw' & He' & Hb' & Hs).
  split; [|split; [lia|]].
  { apply slice_ext; try lia. intros i Hi. by apply (spliced_head _ _ _ Hb Hw Hin). }
  exists w'. split; [exact Hw'|]. split.
  - pose proof (find_stream_cases (data w') 0 min_frames Hb' Hm) as Hfind.
    assert (Hat : stream_at (data w') min_frames 0 h).
    { rewrite <-(Z.add_0_r o0) in Hp, Hc. split; [by eapply parse_shift|by eapply chain_shift]. }
    destruct (find_stream (data w') 0 min_frames) as [[o' h']|]; [|by destruct (Hfind 0 h ltac:(lia))].
    destruct Hfind as (Ho' & [Hp' _] & Hleast). assert (o' = 0) as -> by (destruct (decide (o' = 0)); [done|by destruct (Hleast 0 h ltac:(lia))]).
    destruct Hat as [Hp2 _]. assert (h' = h) as -> by congruence. by rewrite He', Z.add_0_r.
  - unfold write_splice at 1, slice. rewrite drop_0. apply take_drop.
Qed.

Definition demo_tagged : list Z := [73; 68; 51; 4; 0; 0; 0; 0; 0; 2; 9; 9] ++ demo_stream.

Lemma splice_settles_witness :
  let file' := write_splice demo_tagged 12 15 in
  slice file' 0 12 = slice demo_tagged 0 12 /\ len file' = len demo_tagged - (15 - 12) /\
  exists w', read_scan_window file' = Some w' /\
    detect_misdetection w' (Some "mp3"%string) 2 = Verdict false (Some 12) 12 (Some 3) (Some 3) /\ write_splice file' 12 12 = file'.
Proof.
  exact (splice_settles demo_tagged (Window 12 demo_stream) None (Some "mp3"%string) 2 15 (byteb_spec demo_tagged ltac:(vm_compute; reflexivity)) ltac:(lia)
    ltac:(vm_compute; reflexivity) ltac:(vm_compute; reflexivity)).
Defined.
