(* ===== verification/CueText.v ===== *)
(** * Rendering a CUE sheet: [services/cue_generator.py]

    A Python string is its list of code points.  [int()] of a non-ASCII decimal
    digit is a parameter.  Offsets are fractions, as [qualified_legacy_offset]
    hands them over; a float offset is not modelled.  The directory a sheet is
    written into may change between any two calls. *)
From S2P Require Import Prelude.
From Stdlib Require Import QArith.QArith_base.
From stdpp Require Import options.
Local Open Scope Z_scope.

Abbreviation text := (list Z).

Definition lit (s : string) : text := (fun c => Z.of_N (Ascii.N_of_ascii c)) <$> String.list_ascii_of_string s.

Definition NL : Z := 10.
Definition QUOTE : Z := 34.

(** ** Numbers *)

Fixpoint dec_go (fuel : nat) (n : Z) (acc : text) : text :=
  match fuel with
  | O => acc
  | S fuel => let acc := (48 + n mod 10) :: acc in if n / 10 =? 0 then acc else dec_go fuel (n / 10) acc
  end.
(** [str(n)]; a number has at most one decimal digit per bit. *)
Definition dec (n : Z) : text := if n <? 0 then 45 :: dec_go (S (Z.to_nat (Z.log2 (- n)))) (- n) [] else dec_go (S (Z.to_nat (Z.log2 n))) n [].
(** [f"{n:02d}"] *)
Definition pad2 (n : Z) : text := if (0 <=? n) && (n <? 10) then 48 :: dec n else dec n.

(** ** The sheet *)

Record CueTrackData : Type := CueTrack {
  position : Z;
  title : option text;
  artist : option text;
  timestamp_seconds : option Q;
  genre : option text;
  label : option text;
  year : option Z;
}.

(** [_FILE_TYPE_MAP.get(file_type.lower(), "WAVE")]; every key is ASCII. *)
Definition lower (t : text) : text := (fun c => if (65 <=? c) && (c <=? 90) then c + 32 else c) <$> t.
Definition _FILE_TYPE_MAP : list (text * text) :=
  [(lit "mp2", lit "MP3"); (lit "mp3", lit "MP3"); (lit "wav", lit "WAVE"); (lit "wave", lit "WAVE"); (lit "aiff", lit "AIFF");
   (lit "aif", lit "AIFF"); (lit "flac", lit "WAVE"); (lit "ogg", lit "WAVE"); (lit "m4a", lit "WAVE"); (lit "opus", lit "WAVE")].
Definition cue_type (file_type : text) : text := default (lit "WAVE") (dict_get (lower file_type) _FILE_TYPE_MAP).

Definition cue_frames (total_seconds : Q) : Z := Z.quot (Qnum total_seconds * 75) (Zpos (Qden total_seconds)).
Definition timestamp_of_frames (total_frames : Z) : text :=
  let frames := total_frames mod 75 in
  let total_secs := total_frames / 75 in
  pad2 (total_secs / 60) ++ lit ":" ++ pad2 (total_secs mod 60) ++ lit ":" ++ pad2 frames.
Definition seconds_to_cue_timestamp (total_seconds : Q) : text := timestamp_of_frames (cue_frames total_seconds).

Definition control (c : Z) : bool := (0 <=? c) && (c <=? 31) || (c =? 127).
Definition _cue_quote (value : text) : text :=
  List.filter (fun c => negb (c =? QUOTE)) ((fun c => if control c then 32 else c) <$> value).

(** A line for a value that is there and not empty. *)
Definition field (before : string) (value : option text) : list text :=
  match value with
  | Some ((_ :: _) as v) => [lit before ++ [QUOTE] ++ _cue_quote v ++ [QUOTE]]
  | _ => []
  end.

Definition _cue_track_record (track_number : Z) (track : CueTrackData) : list text :=
  [lit "  TRACK " ++ pad2 track_number ++ lit " AUDIO"]
  ++ field "    REM GENRE " (genre track)
  ++ field "    REM LABEL " (label track)
  ++ match year track with
     | Some y => if y =? 0 then [] else [lit "    REM YEAR " ++ [QUOTE] ++ dec y ++ [QUOTE]]
     | None => []
     end
  ++ field "    TITLE " (title track)
  ++ field "    PERFORMER " (artist track)
  ++ match timestamp_seconds track with
     | None => []
     | Some s => [lit "    INDEX 01 " ++ seconds_to_cue_timestamp s]
     end.

(** [sorted(..., key=position)] is stable. *)
Fixpoint insert_track (t : CueTrackData) (l : list CueTrackData) : list CueTrackData :=
  match l with
  | [] => [t]
  | u :: l' => if position t <=? position u then t :: l else u :: insert_track t l'
  end.
Definition by_position (l : list CueTrackData) : list CueTrackData := foldr insert_track [] l.

Definition valid_tracks (tracks : list CueTrackData) : list CueTrackData :=
  by_position (List.filter (fun t => match timestamp_seconds t with Some _ => true | None => false end) tracks).

Fixpoint records (i : Z) (tracks : list CueTrackData) : list text :=
  match tracks with
  | [] => []
  | t :: tracks => _cue_track_record i t ++ records (i + 1) tracks
  end.

(** ["\n".join(lines)] *)
Fixpoint join_lines (lines : list text) : text :=
  match lines with
  | [] => []
  | [l] => l
  | l :: lines => l ++ NL :: join_lines lines
  end.

Definition file_line (audio_filename : text) : text := lit "FILE " ++ [QUOTE] ++ _cue_quote audio_filename ++ [QUOTE].

Definition generate_cue_content (audio_filename file_type : text) (tracks : list CueTrackData) : text :=
  join_lines ([lit "REM COMMENT " ++ [QUOTE] ++ lit "Generated by Phaze" ++ [QUOTE]; file_line audio_filename ++ lit " " ++ cue_type file_type]
              ++ records 1 (valid_tracks tracks)) ++ [NL].

(** ** Retargeting *)

Inductive cue_error : Type := ValueError | FileExistsError | RuntimeError.

Fixpoint after_quote (l : text) : option text :=
  match l with [] => None | c :: l => if c =? QUOTE then Some l else after_quote l end.
Fixpoint strip_prefix (p l : text) : option text :=
  match p, l with
  | [], _ => Some l
  | a :: p, b :: l => if a =? b then strip_prefix p l else None
  | _ :: _, [] => None
  end.

(** [_CUE_FILE_DIRECTIVE_RE] at the head of a line: what follows the match. *)
Definition file_directive (l : text) : option text := strip_prefix (lit "FILE " ++ [QUOTE]) l ≫= after_quote.

(** [subn] from left to right; one turn per character is enough. *)
Fixpoint retarget_scan (replacement : text) (fuel : nat) (bol : bool) (l : text) : text * Z :=
  match fuel, l with
  | O, _ | _, [] => ([], 0)
  | S fuel, c :: l' =>
      match (if bol then file_directive l else None) with
      | Some rest => let (out, n) := retarget_scan replacement fuel false rest in (replacement ++ out, n + 1)
      | None => let (out, n) := retarget_scan replacement fuel (c =? NL) l' in (c :: out, n)
      end
  end.

Definition retarget_cue_file_line (content audio_filename : text) : outcome cue_error text :=
  let (patched, count) := retarget_scan (file_line audio_filename) (length content) true content in
  if negb (count =? 1) then Raise ValueError else Ok patched.

(** ** Versions *)

Section versions.
(** [int()] of a decimal digit that is not ASCII. *)
Context (other_digit : Z -> option Z).

Definition digit (c : Z) : option Z :=
  if (48 <=? c) && (c <=? 57) then Some (c - 48) else if c <? 128 then None else other_digit c.
Definition int_of (t : text) : Z := fold_left (fun n c => 10 * n + default 0 (digit c)) t 0.
Definition is_digit (c : Z) : bool := match digit c with Some _ => true | None => false end.
Fixpoint span (p : Z -> bool) (l : text) : text * text :=
  match l with
  | c :: l' => if p c then let (a, b) := span p l' in (c :: a, b) else ([], l)
  | [] => ([], [])
  end.

(** [^<base>\.v(\d+)\.cue$]; [$] also matches before a last newline. *)
Definition cue_version (base name : text) : option Z :=
  match strip_prefix (base ++ lit ".v") name with
  | None => None
  | Some rest =>
      let (digits, tail) := span is_digit rest in
      if negb (bool_decide (digits = [])) && bool_decide (tail ∈ [lit ".cue"; lit ".cue" ++ [NL]]) then Some (int_of digits) else None
  end.

Definition base_cue (base : text) : text := base ++ lit ".cue".
Definition max_version (base : text) (dir : list text) : Z :=
  fold_left (fun m f => match cue_version base f with Some v => Z.max m v | None => m end) dir 1.

(** [before] is the directory [exists()] sees, [listing] what [iterdir()] returns. *)
Definition next_cue_path_and_version (base : text) (before listing : list text) : text * Z :=
  if negb (bool_decide (base_cue base ∈ before)) then (base_cue base, 1)
  else
    let v := max_version base listing + 1 in
    (base ++ lit ".v" ++ dec v ++ lit ".cue", v).

Definition _MAX_VERSION_CLAIM_ATTEMPTS : nat := 50.

(** [dir n] is the directory at the [n]-th call; [O_EXCL] refuses a name that is there. *)
Fixpoint claim (dir : nat -> list text) (base : text) (attempts n : nat) : outcome cue_error (text * Z * nat) :=
  match attempts with
  | O => Raise RuntimeError
  | S attempts =>
      let (path, version) := next_cue_path_and_version base (dir n) (dir (S n)) in
      if bool_decide (path ∈ dir (S (S n))) then claim dir base attempts (S (S (S n)))
      else Ok (path, version, S (S n))
  end.

(** The path, its version, and the call that created the file. *)
Definition write_cue_file (dir : nat -> list text) (base : text) : outcome cue_error (text * Z * nat) :=
  claim dir base _MAX_VERSION_CLAIM_ATTEMPTS 0.
End versions.

(** ** Lines *)

#[local] Arguments lit _ : simpl never.
#[local] Arguments _cue_track_record _ _ : simpl never.

Lemma quote_clean v : QUOTE ∉ _cue_quote v /\ forall c, control c = true -> c ∉ _cue_quote v.
Proof.
  unfold _cue_quote. split.
  - rewrite list_elem_of_In, List.filter_In. intros [_ H]. done.
  - intros c Hc. rewrite list_elem_of_In, List.filter_In. intros [Hin _]. apply list_elem_of_In, list_elem_of_fmap in Hin as (d & Heq & _).
    destruct (control d) eqn:E; [by subst|congruence].
Qed.

Lemma dec_go_digits fuel n acc c : 0 <= n -> c ∈ dec_go fuel n acc -> c ∈ acc \/ 48 <= c <= 57.
Proof.
  revert n acc. induction fuel as [|fuel IH]; intros n acc Hn; simpl; [by left|].
  pose proof (Z.mod_pos_bound n 10 ltac:(lia)). destruct (_ =? 0).
  - rewrite elem_of_cons. intros [->|]; [right; lia|by left].
  - intros H1. apply IH in H1; [|apply Z.div_pos; lia]. rewrite elem_of_cons in H1. destruct H1 as [[->|]|]; [right; lia|by left|by right].
Qed.

Lemma dec_chars n c : c ∈ dec n -> c = 45 \/ 48 <= c <= 57.
Proof.
  unfold dec. destruct (n <? 0) eqn:E; bool_prop.
  - rewrite elem_of_cons. intros [->|H]; [by left|]. apply dec_go_digits in H; [|lia]. rewrite elem_of_nil in H. tauto.
  - intros H. apply dec_go_digits in H; [|lia]. rewrite elem_of_nil in H. tauto.
Qed.

Lemma pad2_chars n c : c ∈ pad2 n -> c = 45 \/ 48 <= c <= 57.
Proof.
  unfold pad2. destruct (_ && _); [|by apply dec_chars]. rewrite elem_of_cons. intros [->|H]; [right; lia|by eapply dec_chars].
Qed.

(** A line that cannot start a [FILE] directive, nor end early. *)
Definition safe_line (l : text) : Prop := NL ∉ l /\ head l <> Some 70.

Lemma safe_app a b : a <> [] -> NL ∉ b -> safe_line a -> safe_line (a ++ b).
Proof. intros Ha Hb [Hn Hh]. split; [rewrite elem_of_app; tauto|]. by destruct a. Qed.

Lemma no_newline_quoted v : NL ∉ [QUOTE] ++ _cue_quote v ++ [QUOTE].
Proof. rewrite !elem_of_app, !list_elem_of_singleton. intros [H|[H|H]]; [done| |done]. by apply (proj2 (quote_clean v) NL). Qed.

Lemma no_newline_number (t : text) : (forall c, c ∈ t -> c = 45 \/ 48 <= c <= 57) -> NL ∉ t.
Proof. intros H Hin. apply H in Hin. unfold NL in Hin. lia. Qed.

Lemma no_newline_lit s : bool_decide (NL ∈ lit s) = false -> NL ∉ lit s.
Proof. intros H. by apply bool_decide_eq_false in H. Qed.

Lemma safe_lit s : bool_decide (NL ∈ lit s) = false -> head (lit s) <> Some 70 -> safe_line (lit s).
Proof. intros H. by apply bool_decide_eq_false in H. Qed.

Ltac safe_head := apply safe_app; [discriminate| |apply safe_lit; [by vm_compute|discriminate]].

Lemma field_safe before v : lit before <> [] -> safe_line (lit before) -> Forall safe_line (field before v).
Proof.
  intros Hne Hb. unfold field. destruct v as [[|c v]|]; try apply Forall_nil_2. apply Forall_singleton.
  apply safe_app; [done|apply no_newline_quoted|done].
Qed.

Lemma no_newline_type t : NL ∉ cue_type t.
Proof.
  unfold cue_type. assert (Hall : Forall (fun p => bool_decide (NL ∈ p.2) = false) _FILE_TYPE_MAP) by (repeat constructor).
  induction _FILE_TYPE_MAP as [|[k v] m IH]; simpl; [by apply no_newline_lit|]. apply Forall_cons in Hall as [Hv Hall].
  destruct (decide (lower t = k)); [by apply bool_decide_eq_false in Hv|by apply IH].
Qed.

Lemma no_newline_timestamp s : NL ∉ seconds_to_cue_timestamp s.
Proof.
  unfold seconds_to_cue_timestamp, timestamp_of_frames. rewrite !elem_of_app.
  assert (Hc : NL ∉ lit ":") by (by apply no_newline_lit).
  intros [H|[H|[H|[H|H]]]]; try done; by apply (no_newline_number _ (pad2_chars _)) in H.
Qed.

Lemma track_record_safe i t : Forall safe_line (_cue_track_record i t).
Proof.
  unfold _cue_track_record. rewrite !Forall_app. split_and!.
  - apply Forall_singleton. safe_head. rewrite elem_of_app. intros [H|H].
    + by apply (no_newline_number _ (pad2_chars _)) in H.
    + revert H. by apply no_newline_lit.
  - apply field_safe; [discriminate|apply safe_lit; [by vm_compute|discriminate]].
  - apply field_safe; [discriminate|apply safe_lit; [by vm_compute|discriminate]].
  - destruct (year t) as [y|]; [|apply Forall_nil_2]. destruct (y =? 0); [apply Forall_nil_2|]. apply Forall_singleton. safe_head.
    rewrite !elem_of_app, !list_elem_of_singleton. intros [H|[H|H]]; [done| |done]. by apply (no_newline_number _ (dec_chars _)) in H.
  - apply field_safe; [discriminate|apply safe_lit; [by vm_compute|discriminate]].
  - apply field_safe; [discriminate|apply safe_lit; [by vm_compute|discriminate]].
  - destruct (timestamp_seconds t) as [s|]; [|apply Forall_nil_2]. apply Forall_singleton. safe_head. apply no_newline_timestamp.
Qed.

Lemma records_safe i l : Forall safe_line (records i l).
Proof. revert i. induction l as [|t l IH]; intros i; [apply Forall_nil_2|]. cbn [records]. apply Forall_app_2; [apply track_record_safe|apply IH]. Qed.

Definition unlines (lines : list text) : text := concat (map (fun l => l ++ [NL]) lines).

Lemma join_unlines lines : lines <> [] -> join_lines lines ++ [NL] = unlines lines.
Proof.
  induction lines as [|l [|l' lines] IH]; intros Hne; [done|unfold unlines; simpl; by rewrite app_nil_r|].
  change (join_lines (l :: l' :: lines)) with (l ++ NL :: join_lines (l' :: lines)). rewrite <-app_assoc, <-app_comm_cons, IH by done.
  unfold unlines. cbn [map concat]. by rewrite <-!app_assoc.
Qed.

(** ** The scan *)

Lemma after_quote_shorter l rest : after_quote l = Some rest -> (length rest < length l)%nat.
Proof. induction l as [|c l IH]; simpl; [done|]. destruct (c =? QUOTE); [intros [= ->]; lia|]. intros H%IH. lia. Qed.

Lemma strip_prefix_length p l rest : strip_prefix p l = Some rest -> length l = (length p + length rest)%nat.
Proof.
  revert l. induction p as [|a p IH]; intros [|b l]; simpl; intros Heq; try (by simplify_eq).
  destruct (a =? b); [|done]. apply IH in Heq. lia.
Qed.

Lemma file_directive_shorter l rest : file_directive l = Some rest -> (length rest < length l)%nat.
Proof.
  unfold file_directive. intros (m & H & H1)%bind_Some. apply after_quote_shorter in H1. apply strip_prefix_length in H. lia.
Qed.

Lemma scan_fuel r f g bol l : (length l <= f)%nat -> (length l <= g)%nat -> retarget_scan r f bol l = retarget_scan r g bol l.
Proof.
  revert g bol l. induction f as [|f IH]; intros [|g] bol [|c l] Hf Hg; simpl in Hf, Hg; try lia; simpl; try done.
  destruct (if bol then file_directive (c :: l) else None) as [rest|] eqn:E.
  - assert (length rest < length (c :: l))%nat by (destruct bol; [by apply file_directive_shorter|done]). simpl in *. by rewrite (IH g) by lia.
  - by rewrite (IH g) by lia.
Qed.

Definition scan (r : text) (bol : bool) (l : text) : text * Z := retarget_scan r (length l) bol l.

Lemma scan_cons r bol c l : (if (bol : bool) then file_directive (c :: l) else None) = None ->
  scan r bol (c :: l) = (c :: (scan r (c =? NL) l).1, (scan r (c =? NL) l).2).
Proof. intros E. unfold scan. simpl. rewrite E. by destruct (retarget_scan r (length l) (c =? NL) l). Qed.

Lemma scan_inside r l rest : NL ∉ l -> scan r false (l ++ NL :: rest) = (l ++ NL :: (scan r true rest).1, (scan r true rest).2).
Proof.
  induction l as [|c l IH]; intros Hn; simpl app; rewrite scan_cons by done; [done|].
  rewrite not_elem_of_cons in Hn. destruct Hn as [Hc Hn]. rewrite (proj2 (Z.eqb_neq c NL)) by congruence. by rewrite IH.
Qed.

Lemma file_directive_head c l : c <> 70 -> file_directive (c :: l) = None.
Proof.
  intros Hc. unfold file_directive. change (lit "FILE " ++ [QUOTE]) with [70; 73; 76; 69; 32; 34]. cbn [strip_prefix].
  by rewrite (proj2 (Z.eqb_neq 70 c)) by congruence.
Qed.

Lemma scan_safe r l rest : safe_line l -> scan r true (l ++ NL :: rest) = (l ++ NL :: (scan r true rest).1, (scan r true rest).2).
Proof.
  intros [Hn Hh]. destruct l as [|c l]; simpl app; rewrite scan_cons; try done.
  - rewrite not_elem_of_cons in Hn. destruct Hn as [Hc Hn]. rewrite (proj2 (Z.eqb_neq c NL)) by congruence. by rewrite scan_inside.
  - apply file_directive_head. simpl in Hh. congruence.
Qed.

Lemma scan_unlines r lines rest : Forall safe_line lines -> scan r true (unlines lines ++ rest) = (unlines lines ++ (scan r true rest).1, (scan r true rest).2).
Proof.
  induction 1 as [|l lines Hl _ IH]; unfold unlines in *; simpl; [by destruct (scan r true rest)|].
  rewrite <-!app_assoc. simpl. rewrite scan_safe by done. by rewrite IH.
Qed.

Lemma after_quote_app v rest : QUOTE ∉ v -> after_quote (v ++ QUOTE :: rest) = Some rest.
Proof.
  induction v as [|c v IH]; intros Hq; simpl; [done|]. rewrite not_elem_of_cons in Hq. destruct Hq as [Hc Hq].
  rewrite (proj2 (Z.eqb_neq c QUOTE)) by congruence. by apply IH.
Qed.

Lemma strip_prefix_app p l : strip_prefix p (p ++ l) = Some l.
Proof. induction p as [|a p IH]; simpl; [done|]. by rewrite Z.eqb_refl. Qed.

Lemma scan_file_line r name rest : scan r true (file_line name ++ rest) = (r ++ (scan r false rest).1, (scan r false rest).2 + 1).
Proof.
  assert (Hd : file_directive (file_line name ++ rest) = Some rest).
  { unfold file_line. rewrite <-!app_assoc, app_assoc. unfold file_directive. rewrite strip_prefix_app. simpl.
    by apply after_quote_app, (proj1 (quote_clean name)). }
  assert (Hl : length (file_line name ++ rest) = S (length (drop 1 (file_line name ++ rest)))) by done.
  unfold scan. rewrite Hl. remember (file_line name ++ rest) as t eqn:Ht. destruct t as [|c t]; [done|]. simpl. rewrite Hd.
  rewrite (scan_fuel _ _ (length rest)); [|pose proof (file_directive_shorter _ _ Hd); simpl in *; rewrite ?drop_0; lia|done].
  by destruct (retarget_scan r (length rest) false rest).
Qed.

(** C35: Retargeting is rendering.  Whatever the tracks, their titles and their
    artists say, a rendered sheet carries exactly one [FILE] directive, and
    retargeting it to another name is rendering it under that name. *)
Theorem retarget_is_render audio_filename file_type tracks name :
  retarget_cue_file_line (generate_cue_content audio_filename file_type tracks) name = Ok (generate_cue_content name file_type tracks).
Proof.
  set (first := lit "REM COMMENT " ++ [QUOTE] ++ lit "Generated by Phaze" ++ [QUOTE]).
  assert (Hgen : forall n, generate_cue_content n file_type tracks =
            unlines [first] ++ file_line n ++ (lit " " ++ cue_type file_type) ++ NL :: unlines (records 1 (valid_tracks tracks)) ++ []).
  { intros n. unfold generate_cue_content. rewrite join_unlines by done. unfold unlines. cbn [map concat app]. fold first.
    rewrite !app_nil_r, <-!app_assoc. cbn [app]. by rewrite <-!app_assoc. }
  unfold retarget_cue_file_line. change (retarget_scan ?r (length ?l) true ?l) with (scan r true l). rewrite (Hgen audio_filename).
  assert (Hfirst : safe_line first).
  { split; [|discriminate]. assert (bool_decide (NL ∈ first) = false) as Hd by (by vm_compute). by apply bool_decide_eq_false in Hd. }
  assert (Htype : NL ∉ lit " " ++ cue_type file_type).
  { rewrite elem_of_app. intros [H|H]; [by apply (no_newline_lit " ") in H|]. revert H. apply no_newline_type. }
  rewrite scan_unlines by (by apply Forall_singleton). rewrite scan_file_line, scan_inside by done.
  rewrite scan_unlines by apply records_safe. simpl. by rewrite (Hgen name).
Qed.

(** ** Decimal numbers *)

Definition ascii_digit (c : Z) : Prop := 48 <= c <= 57.
Definition value_from (a : Z) (t : text) : Z := fold_left (fun n c => 10 * n + (c - 48)) t a.

Lemma value_from_snoc a t c : value_from a (t ++ [c]) = 10 * value_from a t + (c - 48).
Proof. unfold value_from. by rewrite fold_left_app. Qed.

Lemma dec_go_spec fuel n acc k : 0 <= n < 2 ^ Z.of_nat fuel -> 1 <= k -> n < 10 ^ k ->
  exists ds, dec_go fuel n acc = ds ++ acc /\ ds <> [] /\ Forall ascii_digit ds /\ value_from 0 ds = n /\ Z.of_nat (length ds) <= k \/ fuel = O.
Proof.
  revert n acc k. induction fuel as [|fuel IH]; intros n acc k Hn Hk Hp; [by exists []; right|]. simpl.
  pose proof (Z.mod_pos_bound n 10 ltac:(lia)) as Hm. pose proof (Z.div_mod n 10 ltac:(lia)) as Hd.
  destruct (n / 10 =? 0) eqn:E; bool_prop.
  { exists [48 + n mod 10]. left. split_and!; try done; [apply Forall_singleton; unfold ascii_digit; lia|unfold value_from; cbn [fold_left]; lia]. }
  assert (Hk2 : 2 <= k). { destruct (decide (k = 1)) as [->|]; [|lia]. exfalso. apply E. apply Z.div_small. simpl in Hp. lia. }
  rewrite Nat2Z.inj_succ, Z.pow_succ_r in Hn by lia.
  assert (Hpow : n / 10 < 10 ^ (k - 1)).
  { apply Z.div_lt_upper_bound; [lia|]. replace k with (Z.succ (k - 1)) in Hp by lia. rewrite Z.pow_succ_r in Hp by lia. lia. }
  destruct (IH (n / 10) ((48 + n mod 10) :: acc) (k - 1)) as (ds & [(Heq & Hne & Hf & Hv & Hl)|Hz]); [|lia|done| |].
  - split; [apply Z.div_pos; lia|]. apply Z.div_lt_upper_bound; lia.
  - exists (ds ++ [48 + n mod 10]). left. split_and!.
    + by rewrite Heq, <-app_assoc.
    + by destruct ds.
    + apply Forall_app_2; [done|]. apply Forall_singleton. unfold ascii_digit. lia.
    + rewrite value_from_snoc, Hv. lia.
    + rewrite length_app. simpl. lia.
  - subst fuel. simpl in Hn. exfalso. apply E, Z.div_small. lia.
Qed.

(** What a printed number is: at most [k] digits, of its value. *)
Definition prints (k n : Z) (t : text) : Prop :=
  t <> [] /\ Forall ascii_digit t /\ value_from 0 t = n /\ Z.of_nat (length t) <= k.

Lemma dec_prints n k : 0 <= n < 10 ^ k -> 1 <= k -> prints k n (dec n).
Proof.
  intros Hn Hk. unfold dec. rewrite (proj2 (Z.ltb_ge n 0)) by lia.
  destruct (dec_go_spec (S (Z.to_nat (Z.log2 n))) n [] k) as (ds & [(Heq & H)|H]); [|lia|lia| |lia].
  - split; [lia|]. rewrite Nat2Z.inj_succ, Z2Nat.id by apply Z.log2_nonneg. destruct (decide (n = 0)) as [->|]; [done|].
    apply Z.log2_spec. lia.
  - rewrite app_nil_r in Heq. rewrite Heq. exact H.
Qed.

Lemma pad2_prints n k : 0 <= n < 10 ^ k -> 2 <= k -> prints k n (pad2 n).
Proof.
  intros Hn Hk. unfold pad2. destruct ((0 <=? n) && (n <? 10)) eqn:E; [|apply dec_prints; lia]. bool_prop.
  destruct (dec_prints n 1 ltac:(lia) ltac:(lia)) as (Hne & Hf & Hv & Hl). split_and!; [done| |exact Hv|simpl; lia].
  apply Forall_cons. split; [unfold ascii_digit; lia|done].
Qed.

(** Below a hundred, two digits. *)
Lemma pad2_two n : 0 <= n < 100 -> exists a b, pad2 n = [a; b] /\ ascii_digit a /\ ascii_digit b /\ 10 * (a - 48) + (b - 48) = n.
Proof.
  intros Hn.
  assert (H : forallb (fun n => match pad2 n with
                              | [a; b] => (48 <=? a) && (a <=? 57) && (48 <=? b) && (b <=? 57) && (10 * (a - 48) + (b - 48) =? n)
                              | _ => false end) (seqZ 0 100) = true) by (by vm_compute).
  rewrite List.forallb_forall in H. specialize (H n). rewrite <-list_elem_of_In, elem_of_seqZ in H. specialize (H ltac:(lia)).
  destruct (pad2 n) as [|a [|b [|]]]; try done. bool_prop. exists a, b. unfold ascii_digit. by split_and!; try lia.
Qed.

Section digits.
Context (other_digit : Z -> option Z).

Lemma digit_ascii c : ascii_digit c -> digit other_digit c = Some (c - 48).
Proof. intros [? ?]. unfold digit. by rewrite (proj2 (Z.leb_le 48 c)), (proj2 (Z.leb_le c 57)) by lia. Qed.

Lemma int_of_value t : Forall ascii_digit t -> int_of other_digit t = value_from 0 t.
Proof.
  unfold int_of. enough (H : forall a, Forall ascii_digit t -> fold_left (fun n c => 10 * n + default 0 (digit other_digit c)) t a = value_from a t) by apply H.
  induction t as [|c t IH]; intros a Ht; [done|]. apply Forall_cons in Ht as [Hc Ht]. simpl. rewrite digit_ascii by done. by apply IH.
Qed.

Lemma span_app p l rest : Forall (fun c => p c = true) l -> match rest with c :: _ => p c = false | [] => True end -> span p (l ++ rest) = (l, rest).
Proof.
  intros Hl Hr. induction Hl as [|c l Hc Hl IH]; simpl.
  - destruct rest as [|c rest]; [done|]. simpl. by rewrite Hr.
  - by rewrite Hc, IH.
Qed.

Lemma digits_span t rest : Forall ascii_digit t -> match rest with c :: _ => is_digit other_digit c = false | [] => True end ->
  span (is_digit other_digit) (t ++ rest) = (t, rest).
Proof.
  intros Ht. apply span_app. eapply Forall_impl; [exact Ht|]. intros c Hc. unfold is_digit. by rewrite digit_ascii.
Qed.

(** *** A version is fresh *)

Lemma cue_version_of base v : 0 <= v -> cue_version other_digit base (base ++ lit ".v" ++ dec v ++ lit ".cue") = Some v.
Proof.
  intros Hv. unfold cue_version. rewrite app_assoc, strip_prefix_app.
  destruct (dec_prints v (Z.succ v)) as (Hne & Hf & Hval & _); [split; [done|]; pose proof (Z.pow_gt_lin_r 10 (Z.succ v)); lia|lia|].
  rewrite (digits_span _ (lit ".cue")); [|done|done]. rewrite bool_decide_eq_false_2 by done. simpl. by rewrite int_of_value, Hval.
Qed.

Lemma max_version_from base dir m : fold_left (fun m f => match cue_version other_digit base f with Some v => Z.max m v | None => m end) dir m >= m /\
  forall f v, f ∈ dir -> cue_version other_digit base f = Some v ->
    v <= fold_left (fun m f => match cue_version other_digit base f with Some v => Z.max m v | None => m end) dir m.
Proof.
  revert m. induction dir as [|g dir IH]; intros m; simpl; [split; [lia|]; intros f v Hf; by apply elem_of_nil in Hf|].
  destruct (IH (match cue_version other_digit base g with Some v => Z.max m v | None => m end)) as [H1 H2]. split.
  - destruct (cue_version other_digit base g); lia.
  - intros f v [->|Hf]%elem_of_cons Hv; [rewrite Hv in *; lia|by eapply H2].
Qed.

Lemma next_cue_fresh base before listing : let (path, version) := next_cue_path_and_version other_digit base before listing in
  if bool_decide (base_cue base ∈ before) then path ∉ listing /\ 2 <= version else path ∉ before /\ version = 1.
Proof.
  unfold next_cue_path_and_version. case_bool_decide as Hb; simpl; [|done]. destruct (max_version_from base listing 1) as [H1 H2].
  fold (max_version other_digit base listing) in H1, H2. split; [|lia]. intros Hin.
  pose proof (H2 _ _ Hin (cue_version_of base (max_version other_digit base listing + 1) ltac:(lia))). lia.
Qed.
End digits.
