(* ===== verification/CueRead.v ===== *)
(** * Reading a CUE sheet: [tracklist_providers/local_parser.py]

    [_cue] of the local interpreter, line by line, on the lines [interpret]
    splits the text into.  The regular expressions are written out as the
    functions they are; [\s] is the whitespace of [str.isspace], [\d] any decimal
    digit.  Row fields [_cue] never assigns are left out. *)
From S2P Require Import Prelude CueText.
From stdpp Require Import options.
Local Open Scope Z_scope.

(** ** Python's strings *)

Definition space (c : Z) : bool :=
  ((9 <=? c) && (c <=? 13)) || ((28 <=? c) && (c <=? 32)) || bool_decide (c ∈ [133; 160; 5760; 8232; 8233; 8239; 8287; 12288])
  || ((8192 <=? c) && (c <=? 8202)).
Definition lstrip (l : text) : text := (span space l).2.
Definition rstrip (l : text) : text := reverse (lstrip (reverse l)).
Definition strip (l : text) : text := rstrip (lstrip l).

Definition line_break (c : Z) : bool := ((10 <=? c) && (c <=? 13)) || ((28 <=? c) && (c <=? 30)) || bool_decide (c ∈ [133; 8232; 8233]).
(** [acc] is the current line, reversed. *)
Fixpoint splitlines_go (l acc : text) : list text :=
  match l with
  | [] => match acc with [] => [] | _ => [reverse acc] end
  | c :: l' =>
      if line_break c then
        reverse acc :: splitlines_go (match l' with d :: l'' => if (c =? 13) && (d =? 10) then l'' else l' | [] => l' end) []
      else splitlines_go l' (c :: acc)
  end.
Definition splitlines (l : text) : list text := splitlines_go l [].
Definition BOM : Z := 65279.
Definition removeprefix_bom (l : text) : text := match l with c :: l' => if c =? BOM then l' else l | [] => [] end.

Definition ascii_alpha (c : Z) : bool := ((65 <=? c) && (c <=? 90)) || ((97 <=? c) && (c <=? 122)).
Definition upper_char (c : Z) : Z := if (97 <=? c) && (c <=? 122) then c - 32 else c.

(** [IGNORECASE] against the words below: dotted and dotless I match I. *)
Definition ci (p c : Z) : bool := (upper_char c =? p) || ((p =? 73) && ((c =? 304) || (c =? 305))).
Fixpoint ci_match (p t : text) : bool :=
  match p, t with
  | [], [] => true
  | a :: p, b :: t => ci a b && ci_match p t
  | _, _ => false
  end.

(** [casefold] as far as the words of [_UNKNOWN] can tell: the Kelvin sign and
    the ligature of f and i are the only other characters that fold into them. *)
Definition fold_char (c : Z) : text :=
  if (65 <=? c) && (c <=? 90) then [c + 32] else if c =? 8490 then [107] else if c =? 64257 then [102; 105] else [c].
Definition casefold (t : text) : text := concat (map fold_char t).
Definition _UNKNOWN : list text := [lit "id"; lit "unknown"; lit "unidentified"; lit "?"; lit "???"].
Definition _known (value : text) : option text :=
  if bool_decide (casefold (strip value) ∈ _UNKNOWN) then None
  else match strip value with [] => None | v => Some v end.

(** ** The grammar *)

Fixpoint before_comment (quoted : bool) (l : text) : option text :=
  match l with
  | [] => None
  | c :: l' =>
      if c =? QUOTE then cons c <$> before_comment (negb quoted) l'
      else if (c =? 59) && negb quoted then Some []
      else cons c <$> before_comment quoted l'
  end.
Definition cue_line (line : text) : text := match before_comment false line with Some p => rstrip p | None => line end.

Definition _DIRECTIVE (line : text) : option (text * text) :=
  let (keyword, rest) := span ascii_alpha line in
  let (blank, value) := span space rest in
  if bool_decide (keyword = []) || bool_decide (blank = []) || bool_decide (value = []) || bool_decide (NL ∈ value) then None
  else Some (upper_char <$> keyword, value).

Definition plain (c : Z) : bool := negb (c =? QUOTE) && negb (c =? NL).
Definition _QUOTED (value : text) : option text :=
  match value with
  | 34 :: rest => let (body, tail) := span plain rest in if bool_decide (tail = [QUOTE]) then Some body else None
  | _ => None
  end.
Definition _cue_value (value : text) : option text :=
  match _QUOTED value with
  | Some v => Some v
  | None => if negb (bool_decide (value = [])) && forallb (fun c => negb (space c) && negb (c =? QUOTE)) value then Some value else None
  end.

Definition file_types : list text := [lit "WAVE"; lit "MP3"; lit "AIFF"; lit "BINARY"; lit "MOTOROLA"].
Definition type_tail (l : text) : bool :=
  let (blank, t) := span space l in negb (bool_decide (blank = [])) && existsb (fun p => ci_match p t) file_types.
(** The name, quoted or one token. *)
Definition _FILE (value : text) : option text :=
  let quoted := match value with
                | 34 :: rest =>
                    let (name, tail) := span plain rest in
                    match tail with
                    | 34 :: tail => if negb (bool_decide (name = [])) && type_tail tail then Some name else None
                    | _ => None
                    end
                | _ => None
                end in
  match quoted with
  | Some n => Some n
  | None =>
      let (name, tail) := span (fun c => negb (space c)) value in
      if negb (bool_decide (name = [])) && type_tail tail then Some name else None
  end.

Section grammar.
Context (other_digit : Z -> option Z).
Abbreviation is_digit := (is_digit other_digit).
Abbreviation int_of := (int_of other_digit).

Definition _TRACK (value : text) : option Z :=
  let (digits, rest) := span is_digit value in
  let (blank, t) := span space rest in
  if (1 <=? Z.of_nat (length digits)) && (Z.of_nat (length digits) <=? 4) && negb (bool_decide (blank = [])) && ci_match (lit "AUDIO") t
  then Some (int_of digits) else None.

Definition two_digits (a b : Z) : bool := is_digit a && is_digit b.
(** Index number, minutes, seconds, frames. *)
Definition _INDEX (value : text) : option (text * text * text * text) :=
  match value with
  | a :: b :: rest =>
      let (blank, rest) := span space rest in
      let (minutes, rest) := span is_digit rest in
      match rest with
      | [58; s1; s2; 58; f1; f2] =>
          if two_digits a b && negb (bool_decide (blank = [])) && (1 <=? Z.of_nat (length minutes)) && (Z.of_nat (length minutes) <=? 6)
             && two_digits s1 s2 && two_digits f1 f2
          then Some ([a; b], minutes, [s1; s2], [f1; f2]) else None
      | _ => None
      end
  | _ => None
  end.

(** ** State *)

Inductive Precision : Type := cue_frame_75 | unknown_precision.
Inductive Usability : Type := qualified | unusable.

(** [offset] counts frames of 1/75 s. *)
Record Timestamp : Type := MkTimestamp {
  original : text;
  precision : Precision;
  stamp_origin : option text;
  offset : option Z;
  offset_usability : Usability;
  stamp_evidence : list text;
}.

Record _Row : Type := MkRow {
  number : Z;
  line : Z;
  row_position : Z;
  row_artist : option text;
  row_title : option text;
  timestamp : option Timestamp;
  origin : option text;
  fields : list text;
  row_evidence : list text;
}.

(** The fields of [_Parse], then the locals of the loop.  [current] is the index
    of the row under construction, which is the object in [rows]. *)
Record _Parse : Type := MkParse {
  rows : list _Row;
  errors : list text;
  warnings : list text;
  evidence : list text;
  set_artist : option text;
  artist_evidence : list text;
  current : option nat;
  file_origin : option text;
  file_count : Z;
  seen_track : bool;
  set_fields : list text;
  file_evidence : option text;
  file_position_offset : Z;
  file_first_track : bool;
  offsets : list (text * Z);
}.

Definition start : _Parse := MkParse [] [] [] [] None [] None None 0 false [] None 0 true [].

Definition with_rows (r : list _Row) (p : _Parse) : _Parse :=
  MkParse r (errors p) (warnings p) (evidence p) (set_artist p) (artist_evidence p) (current p) (file_origin p) (file_count p) (seen_track p)
    (set_fields p) (file_evidence p) (file_position_offset p) (file_first_track p) (offsets p).
Definition with_errors (e : list text) (p : _Parse) : _Parse :=
  MkParse (rows p) e (warnings p) (evidence p) (set_artist p) (artist_evidence p) (current p) (file_origin p) (file_count p) (seen_track p)
    (set_fields p) (file_evidence p) (file_position_offset p) (file_first_track p) (offsets p).
Definition with_warnings (e : list text) (p : _Parse) : _Parse :=
  MkParse (rows p) (errors p) e (evidence p) (set_artist p) (artist_evidence p) (current p) (file_origin p) (file_count p) (seen_track p)
    (set_fields p) (file_evidence p) (file_position_offset p) (file_first_track p) (offsets p).
Definition with_evidence (e : list text) (p : _Parse) : _Parse :=
  MkParse (rows p) (errors p) (warnings p) e (set_artist p) (artist_evidence p) (current p) (file_origin p) (file_count p) (seen_track p)
    (set_fields p) (file_evidence p) (file_position_offset p) (file_first_track p) (offsets p).
Definition with_current (c : option nat) (p : _Parse) : _Parse :=
  MkParse (rows p) (errors p) (warnings p) (evidence p) (set_artist p) (artist_evidence p) c (file_origin p) (file_count p) (seen_track p)
    (set_fields p) (file_evidence p) (file_position_offset p) (file_first_track p) (offsets p).
Definition with_offsets (o : list (text * Z)) (p : _Parse) : _Parse :=
  MkParse (rows p) (errors p) (warnings p) (evidence p) (set_artist p) (artist_evidence p) (current p) (file_origin p) (file_count p) (seen_track p)
    (set_fields p) (file_evidence p) (file_position_offset p) (file_first_track p) o.
Definition with_set (f : list text) (a : option text) (ae : list text) (p : _Parse) : _Parse :=
  MkParse (rows p) (errors p) (warnings p) (evidence p) a ae (current p) (file_origin p) (file_count p) (seen_track p)
    f (file_evidence p) (file_position_offset p) (file_first_track p) (offsets p).

(** ** The loop *)

Definition at_line (n : Z) : text := lit "line:" ++ dec n.
Definition tagged (n : Z) (t : text) : text := at_line n ++ lit ":" ++ t.

Definition ends_with (suffix t : text) : bool := bool_decide (drop (length t - length suffix)%nat t = suffix).
Definition reject (n : Z) (reason : text) (p : _Parse) : _Parse :=
  if Z.of_nat (length (errors p)) <? 64 then with_errors (errors p ++ [tagged n reason]) p
  else if ends_with (lit "cap") reason || bool_decide (reason = lit "partial_input") then
    with_errors (take (length (errors p) - 1)%nat (errors p) ++ [tagged n reason]) p
  else p.

Definition last_position (p : _Parse) : Z := match last (rows p) with Some r => row_position r | None => 0 end.

(** The row is appended, and is the current one. *)
Definition add (max_tracks num n position : Z) (p : _Parse) : _Parse :=
  if Z.of_nat (length (rows p)) >=? max_tracks then with_current None (reject n (lit "track_cap") p)
  else
    let clash := position <=? last_position p in
    let p1 := if clash then reject n (lit "conflicting_numbering") p else p in
    let position := if clash then last_position p + 1 else position in
    let row := MkRow num n position None None None None [] [at_line n; lit "declared_position:" ++ dec num] in
    with_current (Some (length (rows p1))) (with_rows (rows p1 ++ [row]) p1).

Definition current_row (p : _Parse) : option _Row := current p ≫= fun i => rows p !! i.
Definition on_current (f : _Row -> _Row) (p : _Parse) : _Parse :=
  match current p with Some i => with_rows (alter f i (rows p)) p | None => p end.
Definition note (t : text) (r : _Row) : _Row :=
  MkRow (number r) (line r) (row_position r) (row_artist r) (row_title r) (timestamp r) (origin r) (fields r) (row_evidence r ++ [t]).
Definition set_timestamp (t : Timestamp) (r : _Row) : _Row :=
  MkRow (number r) (line r) (row_position r) (row_artist r) (row_title r) (Some t) (origin r) (fields r) (row_evidence r).
Definition set_origin (o : option text) (r : _Row) : _Row :=
  MkRow (number r) (line r) (row_position r) (row_artist r) (row_title r) (timestamp r) o (fields r) (row_evidence r).
Definition set_field (keyword : text) (v : option text) (r : _Row) : _Row :=
  let performer := bool_decide (keyword = lit "PERFORMER") in
  MkRow (number r) (line r) (row_position r) (if performer then v else row_artist r) (if performer then row_title r else v) (timestamp r) (origin r)
    (keyword :: fields r) (row_evidence r).
Definition unusable_now (t : Timestamp) : Timestamp :=
  MkTimestamp (original t) (precision t) (stamp_origin t) (offset t) unusable (stamp_evidence t).

Definition split_words (t : text) : list text :=
  let fix go (l acc : text) : list text :=
    match l with
    | [] => match acc with [] => [] | _ => [reverse acc] end
    | c :: l' => if space c then match acc with [] => go l' [] | _ => reverse acc :: go l' [] end else go l' (c :: acc)
    end in go t [].
Definition last_word (t : text) : text := default [] (last (split_words t)).

(** [upper] as far as the flag names can tell: the long s is an S. *)
Definition upper_flags (t : text) : text := (fun c => if c =? 383 then 83 else upper_char c) <$> t.
Definition flag_names : list text := [lit "DCP"; lit "4CH"; lit "PRE"; lit "SCMS"].

Definition metadata_keywords : list text :=
  [lit "CATALOG"; lit "CDTEXTFILE"; lit "SONGWRITER"; lit "ISRC"; lit "FLAGS"; lit "PREGAP"; lit "POSTGAP"; lit "INFO"].
Definition track_keywords : list text := [lit "ISRC"; lit "FLAGS"; lit "PREGAP"; lit "POSTGAP"].

Definition metadata_valid (keyword value : text) : bool :=
  if bool_decide (keyword = lit "FLAGS") then forallb (fun f => bool_decide (f ∈ flag_names)) (split_words (upper_flags value))
  else if bool_decide (keyword ∈ [lit "PREGAP"; lit "POSTGAP"]) then
    match _INDEX (lit "00 " ++ value) with
    | Some (_, _, s, f) => (int_of s <? 60) && (int_of f <? 75)
    | None => false
    end
  else match _cue_value value with Some _ => true | None => false end.

Definition on_metadata (n : Z) (keyword value : text) (p : _Parse) : _Parse :=
  if negb (metadata_valid keyword value) then reject n (lit "malformed_" ++ keyword) p
  else
    let e := tagged n (keyword ++ lit ":" ++ value) in
    match current p with
    | None => if bool_decide (keyword ∈ track_keywords) then reject n (lit "orphan_" ++ keyword) p else with_evidence (evidence p ++ [e]) p
    | Some _ => on_current (note e) p
    end.

Definition on_file (origin_key : text) (n : Z) (value : text) (p : _Parse) : _Parse :=
  let count := file_count p + 1 in
  let name := _FILE value in
  let tag := fun f => lit "FILE:" ++ dec count ++ lit ":" ++ f in
  let p1 := MkParse (rows p) (errors p) (warnings p) (evidence p) (set_artist p) (artist_evidence p) None
              ((fun _ => lit "cue:" ++ origin_key ++ lit ":file:" ++ dec count) <$> name) count (seen_track p) (set_fields p) (tag <$> name) 0 true (offsets p) in
  match name with
  | None => reject n (lit "unsupported_FILE") p1
  | Some f => with_evidence (evidence p1 ++ [tagged n (tag f)]) p1
  end.

Definition on_track (max_tracks n : Z) (value : text) (p : _Parse) : _Parse :=
  let p1 := MkParse (rows p) (errors p) (warnings p) (evidence p) (set_artist p) (artist_evidence p) None (file_origin p) (file_count p) true
              (set_fields p) (file_evidence p) (file_position_offset p) (file_first_track p) (offsets p) in
  match _TRACK value with
  | None => reject n (lit "unsupported_TRACK") p1
  | Some num =>
      let shift := if file_first_track p && (file_count p >? 1) && (0 <? num) && (num <=? last_position p) then last_position p else file_position_offset p in
      let p2 := MkParse (rows p1) (errors p1) (warnings p1) (evidence p1) (set_artist p1) (artist_evidence p1) None (file_origin p1) (file_count p1) true
                  (set_fields p1) (file_evidence p1) shift false (offsets p1) in
      let p3 := add max_tracks num n (shift + num) p2 in
      match current p3 with
      | None => p3
      | Some _ =>
          let p4 := on_current (set_origin (file_origin p3)) p3 in
          let p5 := match file_evidence p4 with Some e => on_current (note e) p4 | None => p4 end in
          match file_origin p5 with None => reject n (lit "missing_FILE_origin") p5 | Some _ => p5 end
      end
  end.

Definition on_text (n : Z) (keyword value : text) (p : _Parse) : _Parse :=
  match _cue_value value with
  | None => reject n (lit "malformed_" ++ keyword) p
  | Some v =>
      match current_row p with
      | Some r =>
          if bool_decide (keyword ∈ fields r) then reject n (lit "duplicate_" ++ keyword) p
          else on_current (fun r => note (tagged n keyword) (set_field keyword (_known v) r)) p
      | None =>
          if seen_track p then reject n (lit "orphan_" ++ keyword) p
          else if bool_decide (keyword ∈ set_fields p) then reject n (lit "duplicate_set_" ++ keyword) p
          else if bool_decide (keyword = lit "PERFORMER") then with_set (keyword :: set_fields p) (_known v) [tagged n (lit "set_PERFORMER")] p
          else with_set (keyword :: set_fields p) (set_artist p) (artist_evidence p) p
      end
  end.

Definition conflicting (n : Z) (t : Timestamp) (p : _Parse) : _Parse :=
  on_current (set_timestamp (unusable_now t)) (reject n (lit "conflicting_INDEX01") p).

Definition invalid_frames (n : Z) (index value frames : text) (r : _Row) (p : _Parse) : _Parse :=
  let warning := tagged n (lit "invalid_INDEX" ++ index ++ lit "_frames:" ++ frames ++ lit ":expected_0_to_74") in
  let p1 := if Z.of_nat (length (warnings p)) <? 64 then with_warnings (warnings p ++ [warning]) p else p in
  let p2 := on_current (note warning) p1 in
  if negb (bool_decide (index = lit "01")) then p2
  else
    match timestamp r with
    | Some t => conflicting n t p2
    | None =>
        on_current (set_timestamp (MkTimestamp (last_word value) unknown_precision (origin r) None unusable
                                     [warning; lit "Invalid CUE frame value; no offset inferred or overflow normalized"])) p2
    end.

Definition valid_index (n total : Z) (value : text) (r : _Row) (p : _Parse) : _Parse :=
  match timestamp r with
  | Some t => conflicting n t p
  | None =>
      let '(usable, p1) :=
        match origin r with
        | None => (false, p)
        | Some o =>
            let seen := default 0 (dict_get o (offsets p)) in
            let late := total <? seen in
            (negb late, with_offsets (dict_set o (Z.max seen total) (offsets p)) (if late then reject n (lit "nonmonotonic_INDEX01") p else p))
        end in
      on_current (set_timestamp (MkTimestamp (last_word value) cue_frame_75 (origin r) (Some total) (if usable : bool then qualified else unusable)
                                   [lit "CUE INDEX01 is relative to its FILE origin; target recording unresolved"; at_line n])) p1
  end.

Definition on_index (n : Z) (value : text) (p : _Parse) : _Parse :=
  match current_row p, _INDEX value with
  | Some r, Some (index, minutes, seconds, frames) =>
      if int_of seconds >? 59 then reject n (lit "malformed_INDEX") p
      else
        let p1 := on_current (note (tagged n (lit "INDEX" ++ index ++ lit ":" ++ last_word value))) p in
        if int_of frames >? 74 then invalid_frames n index value frames r p1
        else if negb (bool_decide (index = lit "01")) then p1
        else valid_index n (int_of minutes * 60 * 75 + int_of seconds * 75 + int_of frames) value r p1
  | _, _ => reject n (lit "malformed_INDEX") p
  end.

Definition directive (origin_key : text) (max_tracks n : Z) (keyword value : text) (p : _Parse) : _Parse :=
  if bool_decide (keyword = lit "REM") then p
  else if bool_decide (keyword ∈ metadata_keywords) then on_metadata n keyword value p
  else if bool_decide (keyword = lit "FILE") then on_file origin_key n value p
  else if bool_decide (keyword = lit "TRACK") then on_track max_tracks n value p
  else if bool_decide (keyword ∈ [lit "PERFORMER"; lit "TITLE"]) then on_text n keyword value p
  else if bool_decide (keyword = lit "INDEX") then on_index n value p
  else reject n (lit "unsupported_" ++ keyword) p.

Definition read_line (origin_key : text) (max_tracks n : Z) (raw : text) (p : _Parse) : _Parse :=
  match strip raw with
  | [] => p
  | line =>
      if Z.of_nat (length line) >? 4096 then reject n (lit "line_field_cap") p
      else
        match cue_line line with
        | [] => p
        | line =>
            match _DIRECTIVE line with
            | None => reject n (lit "malformed_directive") p
            | Some (keyword, value) => directive origin_key max_tracks n keyword value p
            end
        end
  end.

Fixpoint read_lines (origin_key : text) (max_tracks n : Z) (lines : list text) (p : _Parse) : _Parse :=
  match lines with
  | [] => p
  | l :: lines => read_lines origin_key max_tracks (n + 1) lines (read_line origin_key max_tracks n l p)
  end.

(** Rows without a performer inherit the set's. *)
Definition inherit (p : _Parse) (r : _Row) : _Row :=
  if bool_decide (lit "PERFORMER" ∈ fields r) then r
  else MkRow (number r) (line r) (row_position r) (set_artist p) (row_title r) (timestamp r) (origin r) (fields r) (row_evidence r ++ artist_evidence p).

Definition _cue (lines : list text) (max_tracks : Z) (origin_key : text) : _Parse :=
  let p := read_lines origin_key max_tracks 1 lines start in with_rows (inherit p <$> rows p) p.

(** What [interpret] hands to [_cue], below its budgets. *)
Definition interpreted_lines (content : text) : list text := splitlines (removeprefix_bom content).
End grammar.
