(* ===== verification/CueRoundtrip.v ===== *)
(** * What the reader makes of a rendered sheet

    [_cue] of CueRead.v on the output of [generate_cue_content] of CueText.v. *)
From S2P Require Import Prelude CueText CueRead.
From Stdlib Require Import QArith.QArith_base.
From stdpp Require Import options.
Local Open Scope Z_scope.

#[local] Arguments lit _ : simpl never.

(** ** Lines *)

Definition smooth (l : text) : Prop := Forall (fun c => line_break c = false) l.

Lemma splitlines_line l rest acc : smooth l -> splitlines_go (l ++ NL :: rest) acc = (reverse acc ++ l) :: splitlines_go rest [].
Proof.
  intros Hl. revert acc. induction Hl as [|c l Hc Hl IH]; intros acc.
  - cbn [app splitlines_go]. change (line_break NL) with true. cbv iota. rewrite app_nil_r. by destruct rest.
  - cbn [app splitlines_go]. rewrite Hc, IH, reverse_cons. by rewrite <-app_assoc.
Qed.

Lemma splitlines_unlines ls : Forall smooth ls -> splitlines (unlines ls) = ls.
Proof.
  unfold splitlines, unlines. induction 1 as [|l ls Hl _ IH]; [done|]. cbn [map concat]. rewrite <-app_assoc. simpl app.
  rewrite splitlines_line by done. by rewrite IH.
Qed.

(** ** Framing *)

Definition all_space (l : text) : Prop := Forall (fun c => space c = true) l.
Definition solid_end (c : option Z) : Prop := match c with Some c => space c = false | None => False end.
Definition solid (w : text) : Prop := solid_end (head w) /\ solid_end (last w).

Lemma lstrip_solid indent w : all_space indent -> solid_end (head w) -> lstrip (indent ++ w) = w.
Proof. intros Hi Hw. unfold lstrip. rewrite span_app; [done|done|]. by destruct w. Qed.

Lemma strip_solid indent w : all_space indent -> solid w -> strip (indent ++ w) = w.
Proof.
  intros Hi [Hh Hl]. unfold strip. rewrite lstrip_solid by done. unfold rstrip. rewrite <-(app_nil_l (reverse w)), lstrip_solid; [|apply Forall_nil_2|].
  - apply reverse_involutive.
  - by rewrite head_reverse.
Qed.

(** No comment starts: semicolons are inside quotes. *)
Definition unquoted (l : text) : Prop := Forall (fun c => (c =? QUOTE) = false /\ (c =? 59) = false) l.
Definition unquotable (l : text) : Prop := Forall (fun c => (c =? QUOTE) = false) l.

Lemma comment_unquoted q l rest : unquoted l -> before_comment q rest = None -> before_comment q (l ++ rest) = None.
Proof. intros Hl Hr. induction Hl as [|c l [Hq Hs] _ IH]; [done|]. cbn [app before_comment]. rewrite Hq, Hs. simpl. by rewrite IH. Qed.

Lemma comment_quoted l rest : unquotable l -> before_comment false rest = None -> before_comment true (l ++ QUOTE :: rest) = None.
Proof.
  intros Hl Hr. induction Hl as [|c l Hq _ IH]; cbn [app before_comment].
  - rewrite Z.eqb_refl. simpl. by rewrite Hr.
  - rewrite Hq, andb_false_r. by rewrite IH.
Qed.

Lemma cue_line_same w : before_comment false w = None -> cue_line w = w.
Proof. unfold cue_line. by intros ->. Qed.

Definition alphabetic (kw : text) : Prop := kw <> [] /\ Forall (fun c => ascii_alpha c = true) kw /\ upper_char <$> kw = kw.

Lemma directive_of kw value : alphabetic kw -> solid_end (head value) -> NL ∉ value -> _DIRECTIVE (kw ++ 32 :: value) = Some (kw, value).
Proof.
  intros (Hne & Ha & Hu) Hh Hn. unfold _DIRECTIVE. rewrite (span_app _ kw); [|done|done].
  change (32 :: value) with ([32] ++ value). rewrite (span_app space [32]); [|by apply Forall_singleton|by destruct value].
  rewrite (bool_decide_eq_false_2 (kw = [])), (bool_decide_eq_false_2 (value = [])), (bool_decide_eq_false_2 (NL ∈ value)) by (try done; by destruct value).
  simpl. by rewrite Hu.
Qed.

Section read.
Context (other_digit : Z -> option Z) (origin_key : text) (max_tracks : Z).

(** A rendered line is read as its keyword and its value. *)
Lemma read_rendered n indent kw value p : all_space indent -> alphabetic kw -> solid_end (head value) -> solid_end (last value) -> NL ∉ value ->
  before_comment false (kw ++ 32 :: value) = None -> Z.of_nat (length kw + length value) < 4096 ->
  read_line other_digit origin_key max_tracks n (indent ++ kw ++ 32 :: value) p = directive other_digit origin_key max_tracks n kw value p.
Proof.
  intros Hi Hkw Hh Hl Hn Hc Hlen. unfold read_line. pose proof Hkw as (Hne & Ha & _).
  assert (Hs : solid (kw ++ 32 :: value)).
  { split.
    - destruct kw as [|c kw]; [done|]. simpl. apply Forall_cons in Ha as [Hc1 _]. revert Hc1. unfold ascii_alpha, space, solid_end.
      intros H1. repeat (apply orb_false_iff; split); try (apply andb_false_iff); try (apply bool_decide_eq_false; rewrite !elem_of_cons, elem_of_nil);
        apply orb_true_iff in H1 as [H1|H1]; bool_prop; lia.
    - rewrite last_app, last_cons. by destruct (last value). }
  assert (Hlen2 : Z.of_nat (length (kw ++ 32 :: value)) <= 4096) by (rewrite length_app; simpl; lia).
  pose proof (cue_line_same _ Hc) as Hcue. pose proof (directive_of kw value Hkw Hh Hn) as Hd.
  rewrite strip_solid by done. revert Hlen2 Hcue Hd. destruct (kw ++ 32 :: value) as [|c w] eqn:E; [by destruct kw|]. intros Hlen2 Hcue Hd.
  by rewrite Z.gtb_ltb, (proj2 (Z.ltb_ge 4096 _)), Hcue, Hd by done.
Qed.
End read.

(** ** Values *)

Definition legible (v : text) : Prop := Forall (fun c => c ∉ [133; 8232; 8233]) v /\ Z.of_nat (length v) <= 4000.
Definition legible_opt (v : option text) : Prop := match v with Some v => legible v | None => True end.

Lemma smooth_quote v : legible v -> smooth (_cue_quote v) /\ Z.of_nat (length (_cue_quote v)) <= 4000.
Proof.
  intros [Hv Hl]. split.
  - unfold smooth. apply Forall_forall. intros c Hc. pose proof (proj2 (quote_clean v)) as Hctl. destruct (control c) eqn:E; [by destruct (Hctl c)|].
    revert Hc. unfold _cue_quote. rewrite list_elem_of_In, List.filter_In. intros [Hin _]. apply list_elem_of_In, list_elem_of_fmap in Hin as (d & Heq & Hd).
    rewrite Forall_forall in Hv. specialize (Hv d Hd). destruct (control d) eqn:Ed; [by subst c|]. subst c.
    unfold control in E. unfold line_break. rewrite bool_decide_eq_false_2 by done.
    assert (~ (0 <= d <= 31)) by (intros [? ?]; by rewrite (proj2 (Z.leb_le 0 d)), (proj2 (Z.leb_le d 31)) in E by done).
    rewrite orb_false_r. apply orb_false_iff. split; apply andb_false_iff; rewrite !Z.leb_gt; lia.
  - unfold _cue_quote. pose proof (List.filter_length_le (fun c => negb (c =? QUOTE)) ((fun c => if control c then 32 else c) <$> v)) as H.
    rewrite length_fmap in H. lia.
Qed.

Lemma plain_quote v : Forall (fun c => plain c = true) (_cue_quote v) /\ unquotable (_cue_quote v) /\ NL ∉ _cue_quote v.
Proof.
  destruct (quote_clean v) as [Hq Hc]. assert (HNL : NL ∉ _cue_quote v) by by apply Hc. split_and!; [| |done]; apply Forall_forall; intros c Hin.
  - unfold plain. rewrite (proj2 (Z.eqb_neq c QUOTE)), (proj2 (Z.eqb_neq c NL)) by (intros ->; done). done.
  - apply Z.eqb_neq. by intros ->.
Qed.

Lemma cue_value_quoted v : _cue_value (QUOTE :: _cue_quote v ++ [QUOTE]) = Some (_cue_quote v).
Proof.
  unfold _cue_value, _QUOTED. change (match QUOTE :: ?l with 34 :: rest => ?a | _ => ?b end) with (let rest := l in a) || idtac.
  cbv beta iota. destruct (plain_quote v) as [Hp _]. simpl. by rewrite (span_app plain _ [QUOTE]).
Qed.

Lemma type_tail_of t : type_tail (lit " " ++ cue_type t) = true.
Proof.
  unfold cue_type. assert (Hall : Forall (fun p => type_tail (lit " " ++ p.2) = true) _FILE_TYPE_MAP) by (repeat constructor).
  induction _FILE_TYPE_MAP as [|[k v] m IH]; cbn [dict_get default]; [by vm_compute|]. apply Forall_cons in Hall as [Hv Hall].
  destruct (decide (lower t = k)); [exact Hv|by apply IH].
Qed.

Lemma file_quoted name t : _cue_quote name <> [] -> _FILE (QUOTE :: _cue_quote name ++ QUOTE :: lit " " ++ cue_type t) = Some (_cue_quote name).
Proof.
  intros Hne. pose proof (type_tail_of t) as Ht. revert Ht. generalize (lit " " ++ cue_type t). intros tail Ht.
  destruct (plain_quote name) as [Hp _]. unfold _FILE. simpl. rewrite (span_app plain _ (QUOTE :: tail)) by done. simpl.
  by rewrite bool_decide_eq_false_2, Ht by done.
Qed.

Section numbers.
Context (other_digit : Z -> option Z).

Lemma track_number i : 1 <= i <= 9999 -> _TRACK other_digit (pad2 i ++ lit " AUDIO") = Some i.
Proof.
  intros Hi. destruct (pad2_prints i 4 ltac:(lia) ltac:(lia)) as (Hne & Hf & Hv & Hl). unfold _TRACK.
  rewrite (digits_span other_digit _ (lit " AUDIO")) by done. change (span space (lit " AUDIO")) with ([32], lit "AUDIO"). cbv iota beta.
  rewrite (proj2 (Z.leb_le 1 _)), (proj2 (Z.leb_le _ 4)) by (destruct (pad2 i); simpl in *; try done; lia). simpl.
  by rewrite int_of_value, Hv.
Qed.

Lemma index_digits f : 0 <= f -> f / 75 / 60 < 10 ^ 6 ->
  exists m s fr, _INDEX other_digit (lit "01 " ++ timestamp_of_frames f) = Some (lit "01", m, s, fr) /\
    int_of other_digit m = f / 75 / 60 /\ int_of other_digit s = (f / 75) mod 60 /\ int_of other_digit fr = f mod 75.
Proof.
  intros H0 Hm. assert (0 <= f / 75 / 60) by (apply Z.div_pos; [apply Z.div_pos; lia|lia]).
  destruct (pad2_prints (f / 75 / 60) 6 ltac:(lia) ltac:(lia)) as (Hne & Hf & Hv & Hl).
  pose proof (Z.mod_pos_bound (f / 75) 60 ltac:(lia)) as Hs. pose proof (Z.mod_pos_bound f 75 ltac:(lia)) as Hfr.
  destruct (pad2_two ((f / 75) mod 60) ltac:(lia)) as (s1 & s2 & Es & Hs1 & Hs2 & Hsv).
  destruct (pad2_two (f mod 75) ltac:(lia)) as (f1 & f2 & Ef & Hf1 & Hf2 & Hfv).
  exists (pad2 (f / 75 / 60)), [s1; s2], [f1; f2]. unfold timestamp_of_frames. rewrite Es, Ef.
  change (lit "01 " ++ ?t) with (48 :: 49 :: [32] ++ t). unfold _INDEX.
  assert (Hd : forall c, ascii_digit c -> is_digit other_digit c = true) by (intros c Hc; unfold is_digit; by rewrite digit_ascii).
  rewrite (span_app space [32]); [|by apply Forall_singleton|].
  2: { destruct (pad2 (f / 75 / 60)) as [|c l]; [done|]. simpl. apply Forall_cons in Hf as [[? ?] _]. unfold space.
       repeat (apply orb_false_iff; split); try (apply andb_false_iff; rewrite !Z.leb_gt; lia). apply bool_decide_eq_false. rewrite !elem_of_cons, elem_of_nil. lia. }
  change (lit ":" ++ [s1; s2] ++ lit ":" ++ [f1; f2]) with [58; s1; s2; 58; f1; f2].
  rewrite (digits_span other_digit _ [58; s1; s2; 58; f1; f2]) by done. cbv iota beta. unfold two_digits.
  rewrite !Hd by (done || (unfold ascii_digit; lia)).
  rewrite (proj2 (Z.leb_le 1 _)), (proj2 (Z.leb_le _ 6)) by (destruct (pad2 (f / 75 / 60)); simpl in *; try done; lia). simpl.
  split; [done|]. rewrite !int_of_value by (repeat (apply Forall_cons; split; [done|]); done || (by apply Forall_nil_2)).
  split_and!; [done| |]; unfold value_from; cbn [fold_left]; lia.
Qed.
End numbers.

(** ** Reading the lines of a sheet *)

Section sheet.
Context (other_digit : Z -> option Z) (origin_key : text) (max_tracks : Z).

Abbreviation read_line := (read_line other_digit origin_key max_tracks).
Abbreviation directive := (directive other_digit origin_key max_tracks).
Abbreviation sheet_lines := (read_lines other_digit origin_key max_tracks).

Lemma sheet_lines_app n a b p : sheet_lines n (a ++ b) p = sheet_lines (n + Z.of_nat (length a)) b (sheet_lines n a p).
Proof.
  revert n p. induction a as [|l a IH]; intros n p; cbn [app read_lines length]; [by rewrite Z.add_0_r|].
  rewrite IH. f_equal. lia.
Qed.

(** Whatever the number of the first line. *)
Definition leads (P : _Parse -> Prop) (lines : list text) (Q : _Parse -> Prop) : Prop := forall n p, P p -> Q (sheet_lines n lines p).

Lemma leads_nil P : leads P [] P.
Proof. by intros n p. Qed.
Lemma leads_one P l Q : (forall n p, P p -> Q (read_line n l p)) -> leads P [l] Q.
Proof. intros Hl n p Hp. by apply Hl. Qed.
Lemma leads_app P a Q b R : leads P a Q -> leads Q b R -> leads P (a ++ b) R.
Proof. intros Ha Hb n p Hp. rewrite sheet_lines_app. apply Hb, Ha, Hp. Qed.

(** A line with one quoted value. *)
Definition framed (indent kw pre post : text) : Prop :=
  all_space indent /\ alphabetic kw /\ unquoted kw /\ unquoted pre /\ unquoted post /\ NL ∉ pre /\ NL ∉ post /\
  solid_end (head (pre ++ [QUOTE])) /\ solid_end (last (QUOTE :: post)) /\ Z.of_nat (length kw + length pre + length post) <= 60.

Lemma read_quoted indent kw pre v post n p : framed indent kw pre post -> unquotable v -> NL ∉ v -> Z.of_nat (length v) <= 4000 ->
  read_line n (indent ++ kw ++ 32 :: pre ++ QUOTE :: v ++ QUOTE :: post) p = directive n kw (pre ++ QUOTE :: v ++ QUOTE :: post) p.
Proof.
  intros (Hi & Hkw & Hk & Hpre & Hpost & Hn1 & Hn2 & Hh & Hl & Hlen) Hv Hnv Hlv. apply read_rendered; try done.
  - destruct pre; [done|exact Hh].
  - assert (Hlast : last (pre ++ QUOTE :: v ++ QUOTE :: post) = last (QUOTE :: post)).
    { rewrite last_app. change (QUOTE :: v ++ QUOTE :: post) with ((QUOTE :: v) ++ QUOTE :: post). rewrite last_app.
      destruct (last (QUOTE :: post)) eqn:E; [done|]. rewrite last_cons in E. by destruct (last post). }
    by rewrite Hlast.
  - rewrite elem_of_app, elem_of_cons, elem_of_app, elem_of_cons. intros [?|[?|[?|[?|?]]]]; done.
  - apply comment_unquoted; [done|]. change (32 :: ?t) with ([32] ++ t). apply comment_unquoted; [by apply Forall_singleton|].
    apply comment_unquoted; [done|]. cbn [before_comment]. rewrite Z.eqb_refl. simpl negb.
    rewrite comment_quoted; [done|done|]. rewrite <-(app_nil_r post). by apply comment_unquoted.
  - rewrite length_app. cbn [length]. rewrite length_app. cbn [length]. lia.
Qed.

(** A line without quotes. *)
Lemma read_plain indent kw value n p : all_space indent -> alphabetic kw -> unquoted kw -> unquoted value -> NL ∉ value ->
  solid_end (head value) -> solid_end (last value) -> Z.of_nat (length kw + length value) < 4096 ->
  read_line n (indent ++ kw ++ 32 :: value) p = directive n kw value p.
Proof.
  intros Hi Hkw Hk Hv Hn Hh Hl Hlen. apply read_rendered; try done.
  apply comment_unquoted; [done|]. change (32 :: value) with ([32] ++ value). apply comment_unquoted; [by apply Forall_singleton|].
  rewrite <-(app_nil_r value). by apply comment_unquoted.
Qed.

(** *** The state *)

Let o : text := lit "cue:" ++ origin_key ++ lit ":file:" ++ dec 1.

Definition in_file (bound : Z) (p : _Parse) : Prop :=
  errors p = [] /\ file_origin p = Some o /\ file_count p = 1 /\ set_artist p = None /\ artist_evidence p = [] /\ file_position_offset p = 0 /\
  default 0 (dict_get o (offsets p)) <= bound.
Definition between (done : list _Row) (bound : Z) (p : _Parse) : Prop := rows p = done /\ in_file bound p.
Definition row_is (i : Z) (a t : option text) (ts : option Timestamp) (fs : list text) (r : _Row) : Prop :=
  number r = i /\ row_position r = i /\ row_artist r = a /\ row_title r = t /\ timestamp r = ts /\ origin r = Some o /\ fields r = fs.
Definition building (done : list _Row) (bound : Z) (row : _Row -> Prop) (p : _Parse) : Prop :=
  exists r, rows p = done ++ [r] /\ current p = Some (length done) /\ row r /\ in_file bound p.

Lemma current_building done r p : rows p = done ++ [r] -> current p = Some (length done) -> current_row p = Some r.
Proof. intros Hr Hc. unfold current_row. rewrite Hc. simpl. by rewrite Hr, list_lookup_middle. Qed.

Lemma on_current_rows done r f p : rows p = done ++ [r] -> current p = Some (length done) ->
  rows (on_current f p) = done ++ [f r] /\ current (on_current f p) = Some (length done) /\ (forall b, in_file b p -> in_file b (on_current f p)).
Proof.
  intros Hr Hc. unfold on_current. rewrite Hc. simpl. split_and!; [|done|done]. rewrite Hr.
  rewrite <-(Nat.add_0_r (length done)) at 1. by rewrite alter_app_r.
Qed.

Lemma building_on_current done b (row row' : _Row -> Prop) f p : (forall r, row r -> row' (f r)) -> building done b row p -> building done b row' (on_current f p).
Proof.
  intros Hf (r & Hr & Hc & Hrow & Hin). destruct (on_current_rows done r f p Hr Hc) as (H1 & H2 & H3). exists (f r). auto.
Qed.

(** *** Directives *)

Lemma directive_rem n v p : directive n (lit "REM") v p = p.
Proof. reflexivity. Qed.
Lemma directive_file n v p : directive n (lit "FILE") v p = on_file origin_key n v p.
Proof. reflexivity. Qed.
Lemma directive_track n v p : directive n (lit "TRACK") v p = on_track other_digit max_tracks n v p.
Proof. reflexivity. Qed.
Lemma directive_title n v p : directive n (lit "TITLE") v p = on_text n (lit "TITLE") v p.
Proof. reflexivity. Qed.
Lemma directive_performer n v p : directive n (lit "PERFORMER") v p = on_text n (lit "PERFORMER") v p.
Proof. reflexivity. Qed.
Lemma directive_index n v p : directive n (lit "INDEX") v p = on_index other_digit n v p.
Proof. reflexivity. Qed.

Lemma add_row num n pos p : Z.of_nat (length (rows p)) < max_tracks -> last_position p < pos ->
  add max_tracks num n pos p =
    with_current (Some (length (rows p)))
      (with_rows (rows p ++ [MkRow num n pos None None None None [] [at_line n; lit "declared_position:" ++ dec num]]) p).
Proof.
  intros Hmax Hpos. unfold add. by rewrite Z.geb_leb, (proj2 (Z.leb_gt _ _)), (proj2 (Z.leb_gt pos _)) by done.
Qed.

Lemma track_starts n i done b p : between done b p -> Z.of_nat (length done) < max_tracks -> 1 <= i <= 9999 ->
  match last done with Some r => row_position r | None => 0 end = i - 1 ->
  building done b (row_is i None None None []) (directive n (lit "TRACK") (pad2 i ++ lit " AUDIO") p).
Proof.
  intros [Hr (He & Ho & Hc & Ha & Hae & Hp0 & Hoff)] Hmax Hi Hlast. rewrite directive_track. unfold on_track. rewrite track_number by done.
  rewrite Hc. change (1 >? 1) with false. rewrite andb_false_r. cbv iota beta zeta delta [andb]. rewrite Hp0, Z.add_0_l.
  rewrite add_row by (unfold last_position; cbn [rows]; rewrite ?Hr, ?Hlast; lia). cbn [current with_current].
  match goal with |- context [on_current (set_origin ?x) ?q] => set (p3 := q) end.
  assert (Hfo3 : file_origin p3 = Some o) by exact Ho. rewrite !Hfo3.
  assert (H4 : building done b (row_is i None None None []) (on_current (set_origin (Some o)) p3)).
  { apply (building_on_current _ _ (fun r => number r = i /\ row_position r = i /\ row_artist r = None /\ row_title r = None /\ timestamp r = None /\ fields r = [])).
    - intros r (? & ? & ? & ? & ? & ?). by split_and!.
    - eexists. split; [unfold p3; cbn; by rewrite Hr|]. split; [unfold p3; cbn; by rewrite Hr|]. split; [by split_and!|by split_and!]. }
  clearbody p3. set (p4 := on_current (set_origin (Some o)) p3) in *. clearbody p4.
  assert (H5 : building done b (row_is i None None None []) (match CueRead.file_evidence p4 with Some e => on_current (note e) p4 | None => p4 end)).
  { destruct (CueRead.file_evidence p4); [|done]. eapply building_on_current; [|exact H4]. by intros r. }
  destruct H5 as (r & H1 & H2 & H3 & H6). pose proof H6 as (_ & Hfo & _). rewrite Hfo. by exists r.
Qed.

Lemma text_line n kw q done b i a t ts fs p : kw = lit "TITLE" \/ kw = lit "PERFORMER" -> kw ∉ fs ->
  building done b (row_is i a t ts fs) p ->
  building done b (if bool_decide (kw = lit "PERFORMER") then row_is i (_known (_cue_quote q)) t ts (kw :: fs) else row_is i a (_known (_cue_quote q)) ts (kw :: fs))
    (on_text n kw (QUOTE :: _cue_quote q ++ [QUOTE]) p).
Proof.
  intros Hkw Hnot Hb. pose proof Hb as (r & Hr & Hc & Hrow & Hin). unfold on_text. rewrite cue_value_quoted, (current_building done r) by done.
  pose proof Hrow as (H1 & H2 & H3 & H4 & H5 & H6 & H7). rewrite H7, (bool_decide_eq_false_2 (kw ∈ fs)) by done.
  apply (building_on_current _ _ (row_is i a t ts fs)); [|done]. intros r' (E1 & E2 & E3 & E4 & E5 & E6 & E7).
  unfold set_field. case_bool_decide; split_and!; try done; simpl; congruence.
Qed.

Lemma valid_index_line n f done b i a t fs p : 0 <= f -> f / 75 / 60 < 10 ^ 6 -> b <= f -> building done b (row_is i a t None fs) p ->
  exists ts, offset ts = Some f /\ offset_usability ts = qualified /\
    building done f (row_is i a t (Some ts) fs) (on_index other_digit n (lit "01 " ++ timestamp_of_frames f) p).
Proof.
  intros H0 Hm Hbf (r & Hr & Hc & Hrow & Hin). destruct (index_digits other_digit f H0 Hm) as (m & s & fr & Hi & Em & Es & Ef).
  unfold on_index. rewrite (current_building done r), Hi, Es, Ef by done.
  pose proof (Z.mod_pos_bound (f / 75) 60 ltac:(lia)). pose proof (Z.mod_pos_bound f 75 ltac:(lia)).
  pose proof (Z.div_mod f 75 ltac:(lia)). pose proof (Z.div_mod (f / 75) 60 ltac:(lia)).
  rewrite !Z.gtb_ltb, (proj2 (Z.ltb_ge 59 _)), (proj2 (Z.ltb_ge 74 _)) by lia. rewrite (bool_decide_eq_true_2 (lit "01" = lit "01")) by done. simpl negb. cbv iota.
  rewrite Em. replace (f / 75 / 60 * 60 * 75 + (f / 75) mod 60 * 75 + f mod 75) with f by lia.
  match goal with |- context [on_current (note ?e) p] => destruct (on_current_rows done r (note e) p Hr Hc) as (Hr1 & Hc1 & Hin1); set (p1 := on_current (note e) p) in * end.
  clearbody p1. specialize (Hin1 _ Hin). unfold valid_index. pose proof Hrow as (R1 & R2 & R3 & R4 & R5 & R6 & R7). rewrite R5, R6.
  destruct Hin1 as (J1 & J2 & J3 & J4 & J5 & J6 & J7). rewrite (proj2 (Z.ltb_ge f _)) by lia. simpl negb. cbv iota.
  eexists. split; [|split]; cycle 2.
  - eapply (building_on_current _ _ (row_is i a t None fs)).
    + intros r' (E1 & E2 & E3 & E4 & E5 & E6 & E7). by split_and!.
    + exists (note (tagged n (lit "INDEX" ++ lit "01" ++ lit ":" ++ last_word (lit "01 " ++ timestamp_of_frames f))) r). split_and!; try done.
      split_and!; try done. cbn [offsets with_offsets]. rewrite dict_get_set, decide_True by done. simpl. lia.
  - done.
  - done.
Qed.

(** *** A track *)

Definition framedb (indent kw pre post : text) : bool :=
  let plain l := forallb (fun c => negb (c =? QUOTE) && negb (c =? 59)) l in
  let ends c := match c with Some c => negb (space c) | None => false end in
  forallb space indent && negb (bool_decide (kw = [])) && forallb ascii_alpha kw && bool_decide (upper_char <$> kw = kw) &&
  plain kw && plain pre && plain post && bool_decide (NL ∉ pre) && bool_decide (NL ∉ post) &&
  ends (head (pre ++ [QUOTE])) && ends (last (QUOTE :: post)) && (Z.of_nat (length kw + length pre + length post) <=? 60).

Lemma forallb_Forall {A} (f : A -> bool) (l : list A) : forallb f l = true -> Forall (fun x => f x = true) l.
Proof. induction l as [|x l IH]; simpl; [done|]. intros [H1 H2]%andb_true_iff. apply Forall_cons. auto. Qed.

Lemma unquoted_of l : forallb (fun c => negb (c =? QUOTE) && negb (c =? 59)) l = true -> unquoted l.
Proof.
  intros Hl%forallb_Forall. eapply Forall_impl; [exact Hl|]. intros c [H1 H2]%andb_true_iff. by apply negb_true_iff in H1, H2.
Qed.

Lemma framed_of indent kw pre post : framedb indent kw pre post = true -> framed indent kw pre post.
Proof.
  unfold framedb. intros H. repeat (apply andb_true_iff in H as [H ?]).
  assert (Hends : forall c, match c with Some c => negb (space c) | None => false end = true -> solid_end c).
  { intros [c|] Hc; [|done]. by apply negb_true_iff in Hc. }
  split; [by apply forallb_Forall|]. split.
  { split; [|split; [by apply forallb_Forall|by eapply bool_decide_eq_true_1]].
    match goal with Hk : negb (bool_decide (kw = [])) = true |- _ => apply negb_true_iff, bool_decide_eq_false_1 in Hk; exact Hk end. }
  split_and!; auto using unquoted_of; first [by eapply bool_decide_eq_true_1|by apply Z.leb_le].
Qed.

Ltac frame := apply framed_of; by vm_compute.

(** What a track says, and what its row says. *)
Definition described (v : option text) : option text := match v with Some ((_ :: _) as v) => _known (_cue_quote v) | _ => None end.
Definition told (i : Z) (t : CueTrackData) : Z * Z * option text * option text * option (option Z * Usability) :=
  (i, i, described (artist t), described (title t), (fun s => (Some (cue_frames s), qualified)) <$> timestamp_seconds t).
Definition heard (r : _Row) : Z * Z * option text * option text * option (option Z * Usability) :=
  (number r, row_position r, row_artist r, row_title r, (fun s => (offset s, offset_usability s)) <$> timestamp r).
(** No performer to inherit. *)
Definition own_artist (r : _Row) : Prop := lit "PERFORMER" ∈ fields r \/ row_artist r = None.

Definition lit_field (before : string) (kw pre : text) : Prop := lit before = lit "    " ++ kw ++ 32 :: pre /\ framed (lit "    ") kw pre [].

Lemma field_leads before kw pre v (P Q : _Parse -> Prop) : lit_field before kw pre -> legible_opt v ->
  (described v = None -> forall p, P p -> Q p) ->
  (forall n q p, described v = _known (_cue_quote q) -> P p -> Q (directive n kw (pre ++ QUOTE :: _cue_quote q ++ [QUOTE]) p)) -> leads P (field before v) Q.
Proof.
  intros [Hb Hf] Hv Hnone Hsome. unfold field. destruct v as [[|c q]|]; try (intros n p Hp; by apply Hnone).
  apply leads_one. intros n p Hp. rewrite Hb, <-!app_assoc. cbn [app].
  destruct (smooth_quote _ Hv) as [_ Hl]. destruct (plain_quote (c :: q)) as (_ & Hq & Hn).
  rewrite (read_quoted _ _ _ _ [] n p Hf Hq Hn Hl). by apply Hsome.
Qed.

Definition legible_track (t : CueTrackData) : Prop :=
  legible_opt (title t) /\ legible_opt (artist t) /\ legible_opt (genre t) /\ legible_opt (label t) /\
  match year t with Some y => 0 <= y <= 9999 | None => True end.

Lemma year_leads t (P : _Parse -> Prop) : legible_track t ->
  leads P (match year t with Some y => if y =? 0 then [] else [lit "    REM YEAR " ++ [QUOTE] ++ dec y ++ [QUOTE]] | None => [] end) P.
Proof.
  intros (_ & _ & _ & _ & Hy). destruct (year t) as [y|]; [|apply leads_nil]. destruct (y =? 0); [apply leads_nil|].
  apply leads_one. intros n p Hp. destruct (dec_prints y 4 ltac:(lia) ltac:(lia)) as (_ & Hd & _ & Hl).
  change (lit "    REM YEAR " ++ [QUOTE] ++ dec y ++ [QUOTE]) with (lit "    " ++ lit "REM" ++ 32 :: lit "YEAR " ++ QUOTE :: dec y ++ QUOTE :: []).
  rewrite read_quoted; [by rewrite directive_rem|frame| | |lia].
  - eapply Forall_impl; [exact Hd|]. intros c [? ?]. apply Z.eqb_neq. unfold QUOTE. lia.
  - intros Hin. rewrite Forall_forall in Hd. apply Hd in Hin. unfold ascii_digit, NL in Hin. lia.
Qed.


Lemma digit_not_space c : 48 <= c <= 58 -> space c = false.
Proof.
  intros Hc. unfold space. repeat (apply orb_false_iff; split); try (apply andb_false_iff; rewrite !Z.leb_gt; lia).
  apply bool_decide_eq_false. rewrite !elem_of_cons, elem_of_nil. lia.
Qed.

Lemma timestamp_chars f : 0 <= f -> f / 75 / 60 < 10 ^ 6 ->
  timestamp_of_frames f <> [] /\ Forall (fun c => 48 <= c <= 58) (timestamp_of_frames f) /\ Z.of_nat (length (timestamp_of_frames f)) <= 12.
Proof.
  intros H0 Hm. assert (0 <= f / 75 / 60) by (apply Z.div_pos; [apply Z.div_pos; lia|lia]).
  pose proof (Z.mod_pos_bound (f / 75) 60 ltac:(lia)). pose proof (Z.mod_pos_bound f 75 ltac:(lia)).
  destruct (pad2_prints (f / 75 / 60) 6 ltac:(lia) ltac:(lia)) as (Hne & Hd & _ & Hl).
  destruct (pad2_prints ((f / 75) mod 60) 2 ltac:(lia) ltac:(lia)) as (_ & Hd2 & _ & Hl2).
  destruct (pad2_prints (f mod 75) 2 ltac:(lia) ltac:(lia)) as (_ & Hd3 & _ & Hl3). unfold timestamp_of_frames.
  assert (Hw : forall l, Forall ascii_digit l -> Forall (fun c => 48 <= c <= 58) l) by (intros l Hl'; eapply Forall_impl; [exact Hl'|]; unfold ascii_digit; lia).
  split; [by destruct (pad2 (f / 75 / 60))|]. split.
  - repeat apply Forall_app_2; auto; by apply Forall_singleton.
  - rewrite !length_app. change (length (lit ":")) with 1%nat. lia.
Qed.

Section track.
Context (i b : Z) (done : list _Row) (t : CueTrackData) (legible_t : legible_track t).

Definition started : _Parse -> Prop := building done b (row_is i None None None []).
Definition entitled (p : _Parse) : Prop :=
  exists fs, lit "PERFORMER" ∉ fs /\ building done b (row_is i None (described (title t)) None fs) p.
Definition performed (p : _Parse) : Prop :=
  exists fs, (lit "PERFORMER" ∈ fs \/ described (artist t) = None) /\ building done b (row_is i (described (artist t)) (described (title t)) None fs) p.

Lemma remarks_lead P : leads P (field "    REM GENRE " (genre t) ++ field "    REM LABEL " (label t) ++
    match year t with Some y => if y =? 0 then [] else [lit "    REM YEAR " ++ [QUOTE] ++ dec y ++ [QUOTE]] | None => [] end) P.
Proof using legible_t.
  destruct legible_t as (_ & _ & Hg & Hl & _).
  apply (leads_app _ _ P); [|apply (leads_app _ _ P); [|by apply year_leads]].
  - apply (field_leads _ (lit "REM") (lit "GENRE ")); [split; [done|frame]|done|done|]. intros n q p _ Hp. by rewrite directive_rem.
  - apply (field_leads _ (lit "REM") (lit "LABEL ")); [split; [done|frame]|done|done|]. intros n q p _ Hp. by rewrite directive_rem.
Qed.

Lemma title_leads : leads started (field "    TITLE " (title t)) entitled.
Proof using legible_t.
  apply (field_leads _ (lit "TITLE") []); [split; [done|frame]|apply legible_t| |].
  - intros Hd p Hp. exists []. rewrite Hd. split; [apply not_elem_of_nil|exact Hp].
  - intros n q p Hd Hp. rewrite directive_title. exists [lit "TITLE"]. rewrite Hd. split; [by apply (bool_decide_eq_false_1 (lit "PERFORMER" ∈ [lit "TITLE"]))|].
    apply (text_line n (lit "TITLE") q _ _ _ _ _ _ _ _ (or_introl eq_refl) (not_elem_of_nil _) Hp).
Qed.

Lemma performer_leads : leads entitled (field "    PERFORMER " (artist t)) performed.
Proof using legible_t.
  apply (field_leads _ (lit "PERFORMER") []); [split; [done|frame]|apply legible_t| |].
  - intros Hd p (fs & Hfs & Hp). exists fs. rewrite Hd. auto.
  - intros n q p Hd (fs & Hfs & Hp). rewrite directive_performer. exists (lit "PERFORMER" :: fs). rewrite Hd. split; [left; apply elem_of_cons; by left|].
    apply (text_line n (lit "PERFORMER") q _ _ _ _ _ _ _ _ (or_intror eq_refl) Hfs Hp).
Qed.

Lemma index_leads s : timestamp_seconds t = Some s -> 0 <= b <= cue_frames s -> cue_frames s / 75 / 60 < 10 ^ 6 ->
  leads performed [lit "    INDEX 01 " ++ seconds_to_cue_timestamp s]
    (fun p => exists r, between (done ++ [r]) (cue_frames s) p /\ heard r = told i t /\ own_artist r /\ row_position r = i).
Proof using.
  intros Hs Hb Hm. apply leads_one. intros n p (fs & Hfs & Hp).
  destruct (valid_index_line n (cue_frames s) done b i _ _ fs p ltac:(lia) Hm ltac:(lia) Hp) as (ts & Hoff & Hu & r & Hr & Hc & Hrow & Hin).
  change (lit "    INDEX 01 " ++ ?x) with (lit "    " ++ lit "INDEX" ++ 32 :: lit "01 " ++ x).
  destruct (timestamp_chars (cue_frames s) ltac:(lia) Hm) as (Hne & Hval & Hlen).
  assert (framed (lit "    ") (lit "INDEX") [] []) as (Hf1 & Hf2 & Hf3 & _) by frame.
  rewrite read_plain, directive_index; try done.
  - exists r. destruct Hrow as (R1 & R2 & R3 & R4 & R5 & R6 & R7). split; [done|]. unfold heard, told, own_artist.
    rewrite R1, R2, R3, R4, R5, R7, Hs. simpl. rewrite Hoff, Hu. auto.
  - apply (Forall_app_2 _ (lit "01 ")); [by apply unquoted_of|]. eapply Forall_impl; [exact Hval|]. intros c [? ?]. unfold QUOTE. by rewrite !(proj2 (Z.eqb_neq _ _)) by lia.
  - rewrite elem_of_app. intros [Hx|Hx]; [revert Hx; by apply no_newline_lit|]. rewrite Forall_forall in Hval. apply Hval in Hx. unfold NL in Hx. lia.
  - rewrite last_app. destruct (last (seconds_to_cue_timestamp s)) as [c|] eqn:E; [|by apply last_None in E].
    apply last_Some_elem_of in E. rewrite Forall_forall in Hval. apply Hval in E. by apply digit_not_space.
  - rewrite length_app. unfold seconds_to_cue_timestamp. change (length (lit "01 ")) with 3%nat. change (length (lit "INDEX")) with 5%nat. lia.
Qed.
End track.

(** *** The sheet *)

(** Legible values, and offsets that do not decrease. *)
Fixpoint readable_from (b : Z) (tracks : list CueTrackData) : Prop :=
  match tracks with
  | [] => True
  | t :: tracks =>
      legible_track t /\
      match timestamp_seconds t with
      | Some s => b <= cue_frames s /\ cue_frames s / 75 / 60 < 10 ^ 6 /\ readable_from (cue_frames s) tracks
      | None => False
      end
  end.
Fixpoint all_told (i : Z) (tracks : list CueTrackData) : list (Z * Z * option text * option text * option (option Z * Usability)) :=
  match tracks with [] => [] | t :: tracks => told i t :: all_told (i + 1) tracks end.

Lemma track_line_reads i done b n p : 1 <= i <= 9999 -> Z.of_nat (length done) < max_tracks ->
  match last done with Some r => row_position r | None => 0 end = i - 1 -> between done b p ->
  started i b done (read_line n (lit "  TRACK " ++ pad2 i ++ lit " AUDIO") p).
Proof.
  intros Hi Hmax Hlast Hp. destruct (pad2_prints i 4 ltac:(lia) ltac:(lia)) as (Hne & Hd & _ & Hl).
  change (lit "  TRACK " ++ ?x) with (lit "  " ++ lit "TRACK" ++ 32 :: x).
  assert (framed (lit "  ") (lit "TRACK") [] []) as (Hf1 & Hf2 & Hf3 & _) by frame.
  rewrite read_plain; [by apply track_starts|done|done|done| | | | |].
  - apply (Forall_app_2 _ (pad2 i)); [|by apply unquoted_of]. eapply Forall_impl; [exact Hd|]. intros c [? ?]. unfold QUOTE. by rewrite !(proj2 (Z.eqb_neq _ _)) by lia.
  - rewrite elem_of_app. intros [Hx|Hx]; [|revert Hx; by apply no_newline_lit]. rewrite Forall_forall in Hd. apply Hd in Hx. unfold NL, ascii_digit in Hx. lia.
  - destruct (pad2 i) as [|c l]; [done|]. simpl. apply Forall_cons in Hd as [[? ?] _]. apply digit_not_space. lia.
  - by rewrite last_app.
  - rewrite length_app. change (length (lit " AUDIO")) with 6%nat. change (length (lit "TRACK")) with 5%nat. lia.
Qed.

Lemma record_reads i t done b s : 1 <= i <= 9999 -> Z.of_nat (length done) < max_tracks ->
  match last done with Some r => row_position r | None => 0 end = i - 1 -> legible_track t ->
  timestamp_seconds t = Some s -> 0 <= b <= cue_frames s -> cue_frames s / 75 / 60 < 10 ^ 6 ->
  leads (between done b) (_cue_track_record i t)
    (fun p => exists r, between (done ++ [r]) (cue_frames s) p /\ heard r = told i t /\ own_artist r /\ row_position r = i).
Proof.
  intros Hi Hmax Hlast Ht Hs Hb Hm. unfold _cue_track_record. rewrite Hs.
  apply (leads_app _ _ (started i b done)). { apply leads_one. intros n p Hp. by apply track_line_reads. }
  rewrite !app_assoc, <-(app_assoc (field _ (genre t)) _ (match year t with Some _ => _ | None => _ end)), <-!app_assoc.
  rewrite app_assoc, (app_assoc (field _ (genre t) ++ _)), <-(app_assoc (field _ (genre t))).
  apply (leads_app _ _ (started i b done)); [by apply remarks_lead|].
  apply (leads_app _ _ (entitled i b done t)); [by apply title_leads|].
  apply (leads_app _ _ (performed i b done t)); [by apply performer_leads|]. by apply index_leads.
Qed.

Lemma records_read tracks i done b : readable_from b tracks -> 0 <= b -> i = Z.of_nat (length done) + 1 ->
  match last done with Some r => row_position r | None => 0 end = i - 1 ->
  i + Z.of_nat (length tracks) - 1 <= Z.min max_tracks 9999 ->
  leads (between done b) (records i tracks)
    (fun p => exists rs b', between (done ++ rs) b' p /\ heard <$> rs = all_told i tracks /\ Forall own_artist rs).
Proof.
  revert i done b. induction tracks as [|t tracks IH]; intros i done b Hr Hb Hi Hlast Hlen; cbn [records all_told].
  - intros n p Hp. exists [], b. rewrite app_nil_r. auto.
  - destruct Hr as [Ht Hr]. destruct (timestamp_seconds t) as [s|] eqn:Hs; [|done]. destruct Hr as (Hbs & Hm & Hr). cbn [length] in Hlen.
    eapply leads_app; [apply (record_reads i t done b s); [lia|lia|done|done|done|lia|done]|].
    intros n p (r & Hp & Hheard & Hown & Hpos).
    assert (Hnext : leads (between (done ++ [r]) (cue_frames s)) (records (i + 1) tracks)
      (fun p => exists rs b', between ((done ++ [r]) ++ rs) b' p /\ heard <$> rs = all_told (i + 1) tracks /\ Forall own_artist rs)).
    { apply IH; [done|lia|rewrite length_app; simpl; lia|rewrite last_snoc; lia|lia]. }
    destruct (Hnext n p Hp) as (rs & b' & Hrs & Hall & Howns). exists (r :: rs), b'. rewrite <-app_assoc in Hrs. split; [exact Hrs|].
    cbn [fmap list_fmap]. split; [by rewrite Hheard, <-Hall|by apply Forall_cons].
Qed.

Lemma type_framed ty : framed [] (lit "FILE") [] (lit " " ++ cue_type ty).
Proof.
  apply framed_of. unfold cue_type.
  assert (Hall : Forall (fun p => framedb [] (lit "FILE") [] (lit " " ++ p.2) = true) _FILE_TYPE_MAP) by (repeat constructor).
  induction _FILE_TYPE_MAP as [|[k v] m IH]; cbn [dict_get default]; [by vm_compute|]. apply Forall_cons in Hall as [Hv Hall].
  destruct (decide (lower ty = k)); [exact Hv|by apply IH].
Qed.

Lemma file_reads name ty n : legible name -> _cue_quote name <> [] ->
  between [] 0 (read_line n (file_line name ++ lit " " ++ cue_type ty) start).
Proof.
  intros Hn Hne. destruct (smooth_quote _ Hn) as [_ Hl]. destruct (plain_quote name) as (_ & Hq & Hnl).
  assert (Heq : file_line name ++ lit " " ++ cue_type ty = [] ++ lit "FILE" ++ 32 :: [] ++ QUOTE :: _cue_quote name ++ QUOTE :: lit " " ++ cue_type ty).
  { unfold file_line. rewrite <-!app_assoc. done. }
  rewrite Heq, read_quoted, directive_file by (done || apply type_framed). unfold on_file. cbn [app]. rewrite file_quoted by done. by split_and!.
Qed.

Lemma heard_inherit p r : set_artist p = None -> own_artist r -> heard (inherit p r) = heard r.
Proof. intros Hs [Ho|Ho]; unfold inherit; case_bool_decide; try done. unfold heard. simpl. by rewrite Hs, Ho. Qed.
End sheet.

(** ** Line breaks *)

Lemma smooth_app a b : smooth a -> smooth b -> smooth (a ++ b).
Proof. apply Forall_app_2. Qed.
Lemma smooth_lit l : forallb (fun c => negb (line_break c)) l = true -> smooth l.
Proof. intros H%forallb_Forall. eapply Forall_impl; [exact H|]. intros c Hc. by apply negb_true_iff in Hc. Qed.
Lemma smooth_number (t : text) : (forall c, c ∈ t -> c = 45 \/ 48 <= c <= 57) -> smooth t.
Proof.
  intros H. apply Forall_forall. intros c Hc%H. unfold line_break. rewrite bool_decide_eq_false_2 by (rewrite !elem_of_cons, elem_of_nil; lia).
  rewrite orb_false_r. apply orb_false_iff. split; apply andb_false_iff; rewrite !Z.leb_gt; lia.
Qed.

Ltac smooth := repeat apply smooth_app;
  first [by apply smooth_lit|apply smooth_number; first [apply dec_chars|apply pad2_chars]|by apply smooth_quote|idtac].

Lemma smooth_field before v : smooth (lit before) -> legible_opt v -> Forall smooth (field before v).
Proof.
  intros Hb Hv. unfold field. destruct v as [[|c v]|]; try apply Forall_nil_2. apply Forall_singleton.
  repeat apply smooth_app; [done|by apply smooth_lit|by apply smooth_quote|by apply smooth_lit].
Qed.

Lemma smooth_record i t : legible_track t -> Forall smooth (_cue_track_record i t).
Proof.
  intros (H1 & H2 & H3 & H4 & _). unfold _cue_track_record.
  repeat apply Forall_app_2; try (apply smooth_field; [by apply smooth_lit|done]).
  - apply Forall_singleton. smooth.
  - destruct (year t) as [y|]; [|apply Forall_nil_2]. destruct (y =? 0); [apply Forall_nil_2|]. apply Forall_singleton. smooth.
  - destruct (timestamp_seconds t) as [s|]; [|apply Forall_nil_2]. apply Forall_singleton. unfold seconds_to_cue_timestamp, timestamp_of_frames. smooth.
Qed.

Lemma smooth_records b i tracks : readable_from b tracks -> Forall smooth (records i tracks).
Proof.
  revert b i. induction tracks as [|t tracks IH]; intros b i; cbn [records readable_from]; [intros; apply Forall_nil_2|]. intros [Ht Hr].
  apply Forall_app_2; [by apply smooth_record|]. destruct (timestamp_seconds t); [|done]. destruct Hr as (_ & _ & Hr). by eapply IH.
Qed.

Lemma smooth_type ty : smooth (cue_type ty).
Proof.
  unfold cue_type. assert (Hall : Forall (fun p => smooth p.2) _FILE_TYPE_MAP) by (repeat (apply Forall_cons; split; [by apply smooth_lit|]); apply Forall_nil_2).
  induction _FILE_TYPE_MAP as [|[k v] m IH]; cbn [dict_get default]; [by apply smooth_lit|]. apply Forall_cons in Hall as [Hv Hall].
  destruct (decide (lower ty = k)); [exact Hv|by apply IH].
Qed.

Definition first_line : text := lit "REM COMMENT " ++ [QUOTE] ++ lit "Generated by Phaze" ++ [QUOTE].

Lemma sheet_lines_of name ty tracks b : legible name -> readable_from b (valid_tracks tracks) ->
  interpreted_lines (BOM :: generate_cue_content name ty tracks) =
    [first_line; file_line name ++ lit " " ++ cue_type ty] ++ records 1 (valid_tracks tracks).
Proof.
  intros Hn Hr. unfold interpreted_lines. cbn [removeprefix_bom]. rewrite Z.eqb_refl. unfold generate_cue_content. rewrite join_unlines by done.
  apply splitlines_unlines. apply Forall_app_2; [|by eapply smooth_records]. apply Forall_cons. split; [by apply smooth_lit|]. apply Forall_singleton.
  unfold file_line. repeat apply smooth_app; [by apply smooth_lit|by apply smooth_lit|by apply smooth_quote|by apply smooth_lit|by apply smooth_lit|apply smooth_type].
Qed.

(** C36: Reading back.  The repository's own reader takes a rendered sheet apart
    without an error into one row per timestamped track, in order of position
    and numbered from 1, with the title and artist the track shows and its
    offset in frames, qualified: when the values hold no Unicode line separator
    and fit their lines, the offsets do not decrease and the tracks fit the
    reader's cap. *)
Theorem cue_roundtrip other_digit origin_key max_tracks audio_filename file_type tracks :
  legible audio_filename -> _cue_quote audio_filename <> [] -> readable_from 0 (valid_tracks tracks) ->
  Z.of_nat (length (valid_tracks tracks)) <= Z.min max_tracks 9999 ->
  let p := _cue other_digit (interpreted_lines (BOM :: generate_cue_content audio_filename file_type tracks)) max_tracks origin_key in
  errors p = [] /\ heard <$> rows p = all_told 1 (valid_tracks tracks).
Proof.
  intros Hn Hne Hr Hlen. rewrite (sheet_lines_of _ _ _ 0) by done. unfold _cue. cbn [app read_lines].
  assert (Hrem : read_line other_digit origin_key max_tracks 1 first_line start = start).
  { change first_line with ([] ++ lit "REM" ++ 32 :: lit "COMMENT " ++ QUOTE :: lit "Generated by Phaze" ++ QUOTE :: []).
    rewrite read_quoted; [apply directive_rem|apply framed_of; by vm_compute|by repeat constructor|by apply no_newline_lit|by vm_compute]. }
  rewrite Hrem.
  pose proof (file_reads other_digit origin_key max_tracks audio_filename file_type 2 Hn Hne) as Hfile.
  destruct (records_read other_digit origin_key max_tracks (valid_tracks tracks) 1 [] 0 Hr ltac:(lia) eq_refl eq_refl ltac:(lia) 3 _ Hfile)
    as (rs & b & [Hrows (He & _ & _ & Ha & _)] & Hall & Hown).
  change (1 + 1 + 1) with 3. change (1 + 1) with 2. cbv zeta. split; [exact He|]. cbn [rows with_rows]. rewrite Hrows. simpl app. rewrite <-list_fmap_compose, <-Hall.
  apply list_fmap_ext. intros i r Hir. apply heard_inherit; [done|]. by eapply Forall_lookup_1 in Hown.
Qed.

Lemma legible_of v : forallb (fun c => bool_decide (c ∉ [133; 8232; 8233])) v && (Z.of_nat (length v) <=? 4000) = true -> legible v.
Proof.
  intros [H1%forallb_Forall H2]%andb_true_iff. split; [|by apply Z.leb_le]. eapply Forall_impl; [exact H1|]. intros c. apply bool_decide_eq_true_1.
Qed.

(** Two tracks given out of order, and one without a time. *)
Definition demo_tracks : list CueTrackData :=
  [CueTrack 7 (Some (lit "Say " ++ [QUOTE] ++ lit "Hi" ++ [QUOTE] ++ lit " ; again")) (Some (lit "ID")) (Some (600 # 1)%Q) None (Some (lit "Label")) (Some 1999);
   CueTrack 3 (Some (lit "lost")) None None None None None;
   CueTrack 1 (Some (lit "Opening")) (Some (lit "The Artist")) (Some (1 # 30)%Q) (Some (lit "Techno")) None None].

Lemma cue_roundtrip_witness :
  let p := _cue (fun _ => None) (interpreted_lines (BOM :: generate_cue_content (lit "set.flac") (lit "FLAC") demo_tracks)) 1024 (lit "k") in
  errors p = [] /\
  heard <$> rows p = [(1, 1, Some (lit "The Artist"), Some (lit "Opening"), Some (Some 2, qualified));
                      (2, 2, None, Some (lit "Say Hi ; again"), Some (Some 45000, qualified))].
Proof.
  refine (cue_roundtrip (fun _ => None) (lit "k") 1024 (lit "set.flac") (lit "FLAC") demo_tracks _ _ _ _).
  - apply legible_of. by vm_compute.
  - discriminate.
  - split; [split_and!; try (by apply legible_of; vm_compute); by vm_compute|]. split; [by vm_compute|]. split; [by vm_compute|].
    split; [split_and!; try (by apply legible_of; vm_compute); by vm_compute|]. split; [by vm_compute|]. split; [by vm_compute|done].
  - by vm_compute.
Defined.

(** A title with U+2028 in it: [_cue_quote] lets the separator through, so the
    reader meets a second [FILE] and gives the track's offset to it, while the
    check of [retarget_cue_file_line] still counts one directive. *)
Definition smuggled : CueTrackData :=
  CueTrack 1 (Some (lit "x" ++ [8232] ++ lit "FILE other.mp3 MP3" ++ [8232] ++ lit "TRACK 02 AUDIO" ++ [8232] ++ lit "REM x")) None (Some (60 # 1)%Q) None None None.

Theorem separator_opens_file :
  let sheet := generate_cue_content (lit "set.mp3") (lit "mp3") [smuggled] in
  let p := _cue (fun _ => None) (interpreted_lines (BOM :: sheet)) 1024 (lit "k") in
  retarget_cue_file_line sheet (lit "set.mp3") = Ok sheet /\ file_count p = 2 /\
  ((fun r => (origin r, offset_usability <$> timestamp r)) <$> last (rows p)) = Some (Some (lit "cue:k:file:2"), Some qualified).
Proof. vm_compute. auto. Qed.
