(* ===== verification/TextRepair.v ===== *)
(** * Text of tags: [services/text_repair.py] and [services/pg_text.py]

    A [str] is its list of code points ([CueText.text]), [bytes] a list of byte
    values.  The codecs [utf-8] (strict), [cp1252] and [latin-1] are those of
    Python's standard library; [None] stands for a [UnicodeError].  Theorems: the
    repair undoes up to four misreadings, in either code page, of a clean text;
    what [find_pg_unsafe_json_reason] lets through is what PostgreSQL can store. *)
From S2P Require Import Prelude CueText.
From stdpp Require Import list.
Local Open Scope Z_scope.

(** ** Codecs *)

(** A code point UTF-8 can carry. *)
Definition scalar (c : Z) : bool := (0 <=? c) && (c <=? 1114111) && negb ((55296 <=? c) && (c <=? 57343)).

Definition utf8_char (c : Z) : list Z :=
  if c <? 128 then [c]
  else if c <? 2048 then [192 + c / 64; 128 + c mod 64]
  else if c <? 65536 then [224 + c / 4096; 128 + c / 64 mod 64; 128 + c mod 64]
  else [240 + c / 262144; 128 + c / 4096 mod 64; 128 + c / 64 mod 64; 128 + c mod 64].
Definition utf8_encode (s : text) : list Z := concat (map utf8_char s).

Definition continues (b : Z) : bool := (128 <=? b) && (b <? 192).

(** [bytes.decode("utf-8")], strict. *)
Fixpoint utf8_decode (l : list Z) : option text :=
  match l with
  | [] => Some []
  | a :: l1 =>
      if (0 <=? a) && (a <? 128) then cons a <$> utf8_decode l1
      else match l1 with
      | [] => None
      | b :: l2 =>
          if (194 <=? a) && (a <? 224) then
            if continues b then cons ((a - 192) * 64 + (b - 128)) <$> utf8_decode l2 else None
          else match l2 with
          | [] => None
          | c :: l3 =>
              if (224 <=? a) && (a <? 240) then
                let p := (a - 224) * 4096 + (b - 128) * 64 + (c - 128) in
                if continues b && continues c && (2048 <=? p) && scalar p then cons p <$> utf8_decode l3 else None
              else match l3 with
              | [] => None
              | d :: l4 =>
                  if (240 <=? a) && (a <? 245) then
                    let p := (a - 240) * 262144 + (b - 128) * 4096 + (c - 128) * 64 + (d - 128) in
                    if continues b && continues c && continues d && (65536 <=? p) && scalar p then cons p <$> utf8_decode l4 else None
                  else None
              end
          end
      end
  end.

Inductive codec : Type := Cp1252 | Latin1.
#[export] Instance codec_eq_dec : EqDecision codec.
Proof. solve_decision. Defined.

(** The bytes 128 to 159 of code page 1252; five are undefined. *)
Definition cp1252_high : list (option Z) :=
  [Some 8364; None; Some 8218; Some 402; Some 8222; Some 8230; Some 8224; Some 8225; Some 710; Some 8240; Some 352; Some 8249; Some 338; None;
   Some 381; None; None; Some 8216; Some 8217; Some 8220; Some 8221; Some 8226; Some 8211; Some 8212; Some 732; Some 8482; Some 353; Some 8250;
   Some 339; None; Some 382; Some 376].

Definition same_in_both (c : Z) : bool := ((0 <=? c) && (c <? 128)) || ((160 <=? c) && (c <? 256)).

Fixpoint index_of (c : Z) (l : list (option Z)) (i : Z) : option Z :=
  match l with
  | [] => None
  | x :: l => if bool_decide (x = Some c) then Some i else index_of c l (i + 1)
  end.

Definition encode_char (k : codec) (c : Z) : option Z :=
  match k with
  | Latin1 => if (0 <=? c) && (c <? 256) then Some c else None
  | Cp1252 => if same_in_both c then Some c else index_of c cp1252_high 128
  end.
Definition decode_char (k : codec) (b : Z) : option Z :=
  match k with
  | Latin1 => if (0 <=? b) && (b <? 256) then Some b else None
  | Cp1252 => if same_in_both b then Some b
              else if (128 <=? b) && (b <? 160) then mjoin (cp1252_high !! Z.to_nat (b - 128)) else None
  end.

Definition encode (k : codec) (s : text) : option (list Z) := mapM (encode_char k) s.

(** ** The repair *)

Definition _MAX_REPAIR_PASSES : nat := 4.
Definition _ROUND_TRIP_CODECS : list codec := [Cp1252; Latin1].

Fixpoint round_trip_codecs (codecs : list codec) (s : text) : option text :=
  match codecs with
  | [] => None
  | k :: codecs =>
      match encode k s ≫= utf8_decode with
      | Some candidate => if (length candidate <? length s)%nat then Some candidate else round_trip_codecs codecs s
      | None => round_trip_codecs codecs s
      end
  end.
Definition _round_trip_once (s : text) : option text := round_trip_codecs _ROUND_TRIP_CODECS s.

Fixpoint repair_passes (n : nat) (current : text) : text :=
  match n with
  | O => current
  | S n => match _round_trip_once current with Some candidate => repair_passes n candidate | None => current end
  end.
Definition repair_mojibake (s : text) : text := repair_passes _MAX_REPAIR_PASSES s.

(** How a text gets garbled: its UTF-8 bytes read in a code page. *)
Definition misread (k : codec) (s : text) : option text := mapM (decode_char k) (utf8_encode s).
Fixpoint misreadings (ks : list codec) (s : text) : option text :=
  match ks with
  | [] => Some s
  | k :: ks => misreadings ks s ≫= misread k
  end.

Definition clean (s : text) : Prop := Forall (fun c => scalar c = true) s /\ _round_trip_once s = None.

(** ** The codecs agree *)

Ltac decide_cmp :=
  repeat match goal with
         | |- context [(?a <=? ?b)%Z] => first [rewrite (proj2 (Z.leb_le a b)) by lia | rewrite (proj2 (Z.leb_gt a b)) by lia]
         | |- context [(?a <? ?b)%Z] => first [rewrite (proj2 (Z.ltb_lt a b)) by lia | rewrite (proj2 (Z.ltb_ge a b)) by lia]
         end.

Lemma split64 c : exists q r, c / 64 = q /\ c mod 64 = r /\ c = q * 64 + r /\ 0 <= r < 64.
Proof. exists (c / 64), (c mod 64). pose proof (Z.div_mod c 64). pose proof (Z.mod_pos_bound c 64). lia. Qed.

Lemma utf8_char_decode c l : scalar c = true -> utf8_decode (utf8_char c ++ l) = cons c <$> utf8_decode l.
Proof.
  intros Hc. pose proof Hc as Hs. unfold scalar in Hs. bool_prop. unfold utf8_char.
  destruct (split64 c) as (q & r & Eq & Er & Ec & Hr). destruct (split64 q) as (q2 & r2 & Eq2 & Er2 & Ec2 & Hr2).
  destruct (split64 q2) as (q3 & r3 & Eq3 & Er3 & Ec3 & Hr3).
  replace (c / 4096) with q2 by (rewrite <- Eq2, <- Eq, Z.div_div by lia; done).
  replace (c / 262144) with q3 by (rewrite <- Eq3, <- Eq2, <- Eq, !Z.div_div by lia; done).
  rewrite ?Eq, ?Er, ?Er2, ?Er3.
  destruct (c <? 128) eqn:E1; [apply Z.ltb_lt in E1; simpl; decide_cmp; done|apply Z.ltb_ge in E1].
  destruct (c <? 2048) eqn:E2; [apply Z.ltb_lt in E2; simpl; unfold continues; decide_cmp; simpl; do 2 f_equal; lia|apply Z.ltb_ge in E2].
  destruct (c <? 65536) eqn:E3; [apply Z.ltb_lt in E3|apply Z.ltb_ge in E3]; simpl; unfold continues; decide_cmp; simpl.
  - replace ((224 + q2 - 224) * 4096 + (128 + r2 - 128) * 64 + (128 + r - 128)) with c by lia. rewrite Hc. decide_cmp. done.
  - replace ((240 + q3 - 240) * 262144 + (128 + r3 - 128) * 4096 + (128 + r2 - 128) * 64 + (128 + r - 128)) with c by lia.
    rewrite Hc. decide_cmp. done.
Qed.

Lemma utf8_roundtrip s : Forall (fun c => scalar c = true) s -> utf8_decode (utf8_encode s) = Some s.
Proof. induction 1 as [|c s Hc _ IH]; [done|]. unfold utf8_encode in *. simpl. by rewrite utf8_char_decode, IH. Qed.

Lemma utf8_char_bytes c : scalar c = true -> Forall (fun b => 0 <= b < 256) (utf8_char c).
Proof.
  intros Hc. unfold scalar in Hc. bool_prop. unfold utf8_char.
  destruct (split64 c) as (q & r & Eq & Er & Ec & Hr). destruct (split64 q) as (q2 & r2 & Eq2 & Er2 & Ec2 & Hr2).
  destruct (split64 q2) as (q3 & r3 & Eq3 & Er3 & Ec3 & Hr3).
  replace (c / 4096) with q2 by (rewrite <- Eq2, <- Eq, Z.div_div by lia; done).
  replace (c / 262144) with q3 by (rewrite <- Eq3, <- Eq2, <- Eq, !Z.div_div by lia; done).
  rewrite ?Eq, ?Er, ?Er2, ?Er3.
  destruct (c <? 128) eqn:E1; [apply Z.ltb_lt in E1|apply Z.ltb_ge in E1; destruct (c <? 2048) eqn:E2; [apply Z.ltb_lt in E2|apply Z.ltb_ge in E2;
    destruct (c <? 65536) eqn:E3; [apply Z.ltb_lt in E3|apply Z.ltb_ge in E3]]]; repeat constructor; lia.
Qed.

(** ASCII is one byte a character, anything else more. *)
Definition ascii (s : text) : Prop := Forall (fun c => c < 128) s.

Lemma utf8_ascii s : ascii s -> utf8_encode s = s.
Proof.
  induction 1 as [|c s Hc _ IH]; [done|]. unfold utf8_encode in *. simpl. rewrite IH.
  assert (utf8_char c = [c]) as ->; [|done]. unfold utf8_char. by rewrite (proj2 (Z.ltb_lt c 128)).
Qed.

Lemma utf8_length s : (length s <= length (utf8_encode s))%nat /\ (~ ascii s -> length s < length (utf8_encode s))%nat.
Proof.
  induction s as [|c s [IH1 IH2]]; [split; [done|intros H; exfalso; apply H; constructor]|]. unfold utf8_encode in *. simpl. rewrite length_app.
  assert (H : length (utf8_char c) = 1%nat /\ c < 128 \/ (2 <= length (utf8_char c))%nat /\ 128 <= c).
  { unfold utf8_char. destruct (c <? 128) eqn:E; [apply Z.ltb_lt in E; by left|apply Z.ltb_ge in E; right].
    split; [|done]. destruct (c <? 2048), (c <? 65536); simpl; lia. }
  split; [lia|]. intros Hn. destruct H as [[H Hc]|[H Hc]]; [|lia].
  assert (Hs : ~ ascii s) by (intros Hs; apply Hn; by constructor). specialize (IH2 Hs). lia.
Qed.

Lemma table_inverts :
  forallb (fun i => match cp1252_high !! i with
                    | Some (Some c) => negb (same_in_both c) && bool_decide (index_of c cp1252_high 128 = Some (128 + Z.of_nat i))
                    | _ => true end) (seq 0 32) = true.
Proof. vm_compute. reflexivity. Qed.

Lemma table_scalar : forallb (fun x => match x with Some c => scalar c && (160 <=? c) | None => true end) cp1252_high = true.
Proof. vm_compute. reflexivity. Qed.

Lemma decode_encode_char k b c : decode_char k b = Some c -> encode_char k c = Some b.
Proof.
  destruct k; cbn [encode_char decode_char].
  - destruct (same_in_both b) eqn:E; [intros [= ->]; by rewrite E|].
    destruct ((128 <=? b) && (b <? 160)) eqn:Hb; [|done]. bool_prop. intros Hd.
    pose proof (proj1 (forallb_forall _ _) table_inverts (Z.to_nat (b - 128))) as Hi. rewrite <- list_elem_of_In, elem_of_seq in Hi. specialize (Hi ltac:(lia)).
    destruct (cp1252_high !! Z.to_nat (b - 128)) as [[x|]|]; simpl in Hd; [|done|done]. injection Hd as ->. apply andb_true_iff in Hi as [Hi1 Hi2].
    apply negb_true_iff in Hi1. rewrite Hi1. apply bool_decide_eq_true in Hi2. rewrite Hi2. f_equal. lia.
  - destruct ((0 <=? b) && (b <? 256)) eqn:E; [|done]. intros [= ->]. by rewrite E.
Qed.

Lemma decode_scalar k b c : decode_char k b = Some c -> scalar c = true.
Proof.
  destruct k; cbn [encode_char decode_char].
  - destruct (same_in_both b) eqn:E.
    + intros [= ->]. unfold same_in_both in E. unfold scalar. apply orb_true_iff in E as [E|E]; bool_prop; decide_cmp; done.
    + destruct ((128 <=? b) && (b <? 160)) eqn:Hb; [|done]. bool_prop. intros Hd.
      destruct (cp1252_high !! Z.to_nat (b - 128)) as [[x|]|] eqn:Hx; simpl in Hd; [|done|done]. injection Hd as ->.
      apply list_elem_of_lookup_2, list_elem_of_In in Hx. pose proof (proj1 (forallb_forall _ _) table_scalar _ Hx) as Ht. by apply andb_true_iff in Ht as [? _].
  - destruct ((0 <=? b) && (b <? 256)) eqn:E; [|done]. intros [= ->]. bool_prop. unfold scalar. decide_cmp. done.
Qed.

(** Where code page 1252 can encode a Latin-1 character, it gives the same byte. *)
Lemma cp1252_agrees_latin1 c b : 0 <= c < 256 -> encode_char Cp1252 c = Some b -> b = c.
Proof.
  intros Hc. cbn [encode_char]. destruct (same_in_both c) eqn:E; [by intros [= ->]|]. unfold same_in_both in E. bool_prop. 
  assert (Hr : 128 <= c < 160) by (repeat match goal with Hx : _ && _ = false |- _ => apply andb_false_iff in Hx as [?|?] end; bool_prop; lia).
  intros Hi. exfalso. pose proof (proj1 (forallb_forall _ _) table_scalar) as Hall. revert Hi Hall. generalize 128 as i, cp1252_high as l.
  intros i l. revert i. induction l as [|x l IH]; intros i; simpl; [done|]. case_bool_decide as Hd.
  - intros _ Hall. specialize (Hall x (or_introl eq_refl)). subst x. bool_prop. lia.
  - intros Hi Hall. apply (IH _ Hi). intros y Hy. apply Hall. by right.
Qed.

(** ** Undoing a misreading *)

Lemma misread_bytes k s g : misread k s = Some g -> Forall2 (fun b c => decode_char k b = Some c) (utf8_encode s) g.
Proof. unfold misread. apply mapM_Some. Qed.

Lemma misread_scalar k s g : misread k s = Some g -> Forall (fun c => scalar c = true) g.
Proof. intros H%misread_bytes. induction H; constructor; eauto using decode_scalar. Qed.

Lemma misread_encode k s g : misread k s = Some g -> encode k g = Some (utf8_encode s).
Proof. intros H%misread_bytes. apply mapM_Some. induction H; constructor; eauto using decode_encode_char. Qed.

Lemma misread_length k s g : misread k s = Some g -> length g = length (utf8_encode s).
Proof. intros H%misread_bytes. symmetry. by apply Forall2_length in H. Qed.

Lemma misread_ascii k s : ascii s -> Forall (fun c => scalar c = true) s -> misread k s = Some s.
Proof.
  intros Ha Hs. unfold misread. rewrite utf8_ascii by done. apply mapM_Some. induction Ha as [|c s Hc _ IH]; inversion Hs as [|? ? Hsc Hs']; subst; constructor.
  - unfold scalar in Hsc. bool_prop. destruct k; cbn [decode_char]; unfold same_in_both; decide_cmp; done.
  - by apply IH.
Qed.

(** Both codecs give the bytes of the misread text, if they encode it at all. *)
Lemma encode_misread k k' s g l : misread k s = Some g -> encode k' g = Some l -> k' = k \/ k' = Cp1252 -> l = utf8_encode s.
Proof.
  intros Hm He Hk. destruct (decide (k' = k)) as [->|Hne]; [apply misread_encode in Hm; congruence|]. destruct Hk as [->| ->]; [done|].
  destruct k; [done|]. apply misread_bytes in Hm. apply mapM_Some in He. revert l He. induction Hm as [|b c bs g Hb _ IH]; intros l He; inversion He as [|? ? ? ? Hc He']; subst; [done|].
  rewrite (IH _ He'). f_equal. cbn [decode_char] in Hb. destruct ((0 <=? b) && (b <? 256)) eqn:E; [|done]. injection Hb as ->. bool_prop.
  eapply cp1252_agrees_latin1; [|exact Hc]. lia.
Qed.

Lemma round_trip_misread k s g :
  Forall (fun c => scalar c = true) s -> misread k s = Some g -> ~ ascii s -> _round_trip_once g = Some s.
Proof.
  intros Hs Hm Ha. assert (Hlen : (length s <? length g)%nat = true).
  { apply Nat.ltb_lt. rewrite (misread_length _ _ _ Hm). by apply utf8_length. }
  unfold _round_trip_once, _ROUND_TRIP_CODECS. cbn [round_trip_codecs].
  destruct (encode Cp1252 g) as [l|] eqn:He.
  - rewrite (encode_misread k Cp1252 s g l Hm He) by by right. simpl. by rewrite utf8_roundtrip, Hlen.
  - destruct k; [apply misread_encode in Hm; congruence|]. rewrite (misread_encode _ _ _ Hm). simpl. by rewrite utf8_roundtrip, Hlen.
Qed.

Lemma misreadings_scalar ks s g : Forall (fun c => scalar c = true) s -> misreadings ks s = Some g -> Forall (fun c => scalar c = true) g.
Proof.
  intros Hs. destruct ks as [|k ks]; simpl; [by intros [= ->]|]. destruct (misreadings ks s) as [g'|]; simpl; [|done]. apply misread_scalar.
Qed.

#[export] Instance ascii_dec s : Decision (ascii s).
Proof. unfold ascii. apply _. Defined.

(** Pure ASCII is left alone. *)
Lemma ascii_clean s : ascii s -> Forall (fun c => scalar c = true) s -> _round_trip_once s = None.
Proof.
  intros Ha Hs. assert (He : forall k, encode k s = Some s) by (intros k; rewrite (misread_encode k s s); [by rewrite utf8_ascii|by apply misread_ascii]).
  assert (Hd : utf8_decode s = Some s) by (rewrite <- (utf8_ascii s) at 1 by done; by apply utf8_roundtrip).
  unfold _round_trip_once, _ROUND_TRIP_CODECS. cbn [round_trip_codecs]. rewrite !He. cbn [mbind option_bind]. by rewrite Hd, Nat.ltb_irrefl.
Qed.

Lemma clean_stays n s : _round_trip_once s = None -> repair_passes n s = s.
Proof. destruct n; simpl; [done|]. by intros ->. Qed.

(** C26: the repair undoes what garbled a text.  However a clean text was misread,
    up to four times, each time in either code page, the repair gives it back. *)
Theorem repair_undoes_misreading ks s g :
  clean s -> (length ks <= _MAX_REPAIR_PASSES)%nat -> misreadings ks s = Some g -> repair_mojibake g = s.
Proof.
  intros [Hs Hc]. unfold repair_mojibake. generalize _MAX_REPAIR_PASSES as n. revert g. induction ks as [|k ks IH]; intros g n Hn Hg; simpl in Hg.
  - injection Hg as <-. by apply clean_stays.
  - destruct (misreadings ks s) as [g'|] eqn:Hg'; [|done]. simpl in Hg, Hn. pose proof (misreadings_scalar _ _ _ Hs Hg') as Hs'.
    destruct (decide (ascii g')) as [Ha|Ha].
    + rewrite misread_ascii in Hg by done. injection Hg as <-. apply IH; [lia|done].
    + destruct n as [|n]; [lia|]. simpl. rewrite (round_trip_misread k g' g) by done. apply IH; [lia|done].
Qed.

Definition demo_word : text := [86; 228; 116; 104].
Lemma repair_undoes_misreading_witness :
  misreadings [Cp1252; Cp1252] demo_word = Some [86; 195; 402; 194; 164; 116; 104] /\ repair_mojibake [86; 195; 402; 194; 164; 116; 104] = demo_word.
Proof.
  assert (H : misreadings [Cp1252; Cp1252] demo_word = Some [86; 195; 402; 194; 164; 116; 104]) by (vm_compute; reflexivity).
  split; [exact H|]. apply (repair_undoes_misreading [Cp1252; Cp1252] demo_word); [|apply le_S, le_S, le_n|exact H].
  split; [repeat constructor|vm_compute; reflexivity].
Defined.

(** The repair is not idempotent: a fifth misreading needs a second call. *)
Lemma repair_twice_differs :
  exists s, repair_mojibake (repair_mojibake s) <> repair_mojibake s.
Proof.
  exists (default [] (misreadings [Latin1; Latin1; Latin1; Latin1; Latin1] demo_word)). vm_compute. discriminate.
Qed.

(** It is on whatever four misreadings can make. *)
Lemma repair_stable s : _round_trip_once (repair_mojibake s) = None -> repair_mojibake (repair_mojibake s) = repair_mojibake s.
Proof. intros H. unfold repair_mojibake at 1. by apply clean_stays. Qed.

(** ** Text PostgreSQL can store: [services/pg_text.py] *)

Definition pg_invalid (c : Z) : bool := (c =? 0) || ((55296 <=? c) && (c <=? 57343)).
Definition sanitize_pg_text (s : text) : text := List.filter (fun c => negb (pg_invalid c)) s.
Definition contains_pg_invalid_chars (s : text) : bool := existsb pg_invalid s.

(** A value of a JSON payload; [PFloat] keeps whether it is finite, [PScalar] is a
    [bool], an [int] or [None]. *)
Inductive pyjson : Type :=
| PStr (s : text)
| PFloat (finite : bool)
| PScalar
| PList (l : list pyjson)
| PDict (d : list (text * pyjson)).

Inductive reason : Type := UnsafeText | NotFinite | UnsafeKey (key : text).

Fixpoint find_pg_unsafe_json_reason (value : pyjson) : option reason :=
  match value with
  | PStr s => if contains_pg_invalid_chars s then Some UnsafeText else None
  | PFloat finite => if finite then None else Some NotFinite
  | PDict d =>
      (fix items (d : list (text * pyjson)) : option reason :=
         match d with
         | [] => None
         | (key, item) :: d =>
             if contains_pg_invalid_chars key then Some (UnsafeKey key)
             else match find_pg_unsafe_json_reason item with Some r => Some r | None => items d end
         end) d
  | PList l =>
      (fix elements (l : list pyjson) : option reason :=
         match l with
         | [] => None
         | item :: l => match find_pg_unsafe_json_reason item with Some r => Some r | None => elements l end
         end) l
  | PScalar => None
  end.

(** What a [jsonb] column takes. *)
Definition storable_text (s : text) : Prop := 0 ∉ s /\ forall c, c ∈ s -> ~ (55296 <= c <= 57343).
Inductive storable : pyjson -> Prop :=
| storable_str s : storable_text s -> storable (PStr s)
| storable_float : storable (PFloat true)
| storable_scalar : storable PScalar
| storable_list l : Forall storable l -> storable (PList l)
| storable_dict d : Forall (fun p => storable_text p.1 /\ storable p.2) d -> storable (PDict d).

Section json.
Context (P : pyjson -> Prop) (hstr : forall s, P (PStr s)) (hfloat : forall f, P (PFloat f)) (hscalar : P PScalar).
Context (hlist : forall l, Forall P l -> P (PList l)) (hdict : forall d, Forall (fun p : text * pyjson => P p.2) d -> P (PDict d)).
Fixpoint pyjson_nested (v : pyjson) : P v :=
  match v with
  | PStr s => hstr s
  | PFloat f => hfloat f
  | PScalar => hscalar
  | PList l => hlist l (list_rect (Forall P) (List.Forall_nil _) (fun v l H => @List.Forall_cons _ P v l (pyjson_nested v) H) l)
  | PDict d => hdict d (list_rect (Forall (fun p : text * pyjson => P p.2)) (List.Forall_nil _)
                          (fun p l H => @List.Forall_cons _ (fun p : text * pyjson => P p.2) p l (pyjson_nested p.2) H) d)
  end.
End json.

Lemma pg_invalid_spec c : pg_invalid c = false <-> c <> 0 /\ ~ (55296 <= c <= 57343).
Proof. unfold pg_invalid. rewrite orb_false_iff, andb_false_iff, Z.eqb_neq, !Z.leb_gt. lia. Qed.

Lemma storable_text_spec s : contains_pg_invalid_chars s = false <-> storable_text s.
Proof.
  unfold contains_pg_invalid_chars, storable_text. rewrite <- not_true_iff_false, existsb_exists. setoid_rewrite <- list_elem_of_In. split.
  - intros H. split; [intros H0; apply H; by exists 0|]. intros c Hc Hr. apply H. exists c. split; [done|].
    apply not_false_iff_true. rewrite pg_invalid_spec. tauto.
  - intros [H0 H] (c & Hc & Hi). apply not_false_iff_true in Hi. apply Hi, pg_invalid_spec. split; [by intros ->|by apply H].
Qed.

Lemma storable_iff s : storable (PStr s) <-> contains_pg_invalid_chars s = false.
Proof. rewrite storable_text_spec. split; [by inversion 1|by constructor]. Qed.

(** C27: what the validator lets through is what PostgreSQL can store: a value has no
    reason against it exactly when it is well formed, at any depth; and a sanitised
    text is storable, keeps every storable character in order and nothing else. *)
Theorem pg_safe_is_storable :
  (forall v, find_pg_unsafe_json_reason v = None <-> storable v) /\
  (forall s, storable_text (sanitize_pg_text s) /\ (storable_text s -> sanitize_pg_text s = s) /\
     forall s1 s2, sanitize_pg_text (s1 ++ s2) = sanitize_pg_text s1 ++ sanitize_pg_text s2).
Proof.
  split.
  - apply pyjson_nested.
    + intros s. simpl. rewrite (storable_iff s). destruct (contains_pg_invalid_chars s); naive_solver.
    + intros [|]; split; try done; [constructor|inversion 1].
    + split; [constructor|done].
    + intros l IH. transitivity (Forall storable l); [|split; [by constructor|by inversion 1]].
      induction IH as [|v l Hv _ IH]; simpl; [split; [constructor|done]|]. rewrite Forall_cons, <- Hv, <- IH.
      destruct (find_pg_unsafe_json_reason v); naive_solver.
    + intros d IH. transitivity (Forall (fun p => storable_text p.1 /\ storable p.2) d); [|split; [by constructor|by inversion 1]].
      induction IH as [|[k v] d Hv _ IH]; simpl; [split; [constructor|done]|]. rewrite Forall_cons, <- IH. simpl in *. rewrite <- storable_text_spec, <- Hv.
      destruct (contains_pg_invalid_chars k), (find_pg_unsafe_json_reason v); naive_solver.
  - intros s. split; [|split].
    + apply storable_text_spec, not_true_iff_false. intros (c & [_ Hc]%filter_In & Hi)%existsb_exists. rewrite Hi in Hc. done.
    + intros Hs%storable_text_spec. induction s as [|c s IH]; [done|]. simpl in *. apply orb_false_iff in Hs as [-> Hs]. simpl. by rewrite IH.
    + intros s1 s2. apply List.filter_app.
Qed.

Lemma pg_safe_is_storable_witness :
  storable (PDict [(lit "artist", PList [PStr (lit "a"); PScalar])]) /\ ~ storable (PList [PStr [65; 0]]) /\ sanitize_pg_text [65; 0; 55296; 66] = [65; 66].
Proof.
  split; [|split].
  - apply (proj1 pg_safe_is_storable). vm_compute. reflexivity.
  - intros H. apply (proj1 pg_safe_is_storable) in H. vm_compute in H. discriminate H.
  - vm_compute. reflexivity.
Defined.
