(* ===== verification/TagDisk.v ===== *)
(** * Tags on disk: [services/tag_write_disk.py], [services/metadata_parsing.py]

    The writers, the readers, the snapshot an undo re-applies and the verification
    of a write, with [services/tag_formats.py] and the tag part of [extract_tags] of
    [services/metadata.py].  mutagen is the class [Mutagen]: an opened file is looked
    up and updated by the key of a frame.  [unicodedata.normalize] and [int()] of a
    non-ASCII digit are parameters; a payload names the six core fields. *)
From S2P Require Import Prelude CueText CueRead TextRepair.
From stdpp Require Import list strings options.
Local Open Scope Z_scope.

(** ** Values *)

(** A value of a tag payload; [VNone] deletes. *)
Inductive tag_value : Type := VNone | VInt (n : Z) | VStr (t : text) | VList (l : list text).
#[export] Instance tag_value_eq_dec : EqDecision tag_value.
Proof. solve_decision. Defined.
Abbreviation tags := (list (string * tag_value)).

(** What mutagen keeps under a key: a list of strings, or of [trkn] pairs. *)
Inductive cell : Type := Texts (l : list text) | Tracks (l : list (Z * Z)).

Inductive TagFormat : Type := ID3 | MP4 | VORBIS | ASF.
#[export] Instance TagFormat_eq_dec : EqDecision TagFormat.
Proof. solve_decision. Defined.

Inductive read_error : Type := OSError (message : text) | ParseError (message : text).

Class Mutagen (disk audio : Type) := {
  mutagen_File : disk -> outcome read_error (option audio);
  has_tags : audio -> bool;
  add_tags : audio -> outcome text audio;
  tags_is_ID3 : audio -> bool;
  audio_is_MP4 : audio -> bool;
  audio_is_ASF : audio -> bool;
  tags_is_VCommentDict : audio -> bool;
  tag_get : audio -> text -> option cell;
  tag_put : text -> cell -> audio -> audio;
  tag_del : text -> audio -> audio;
  mutagen_save : audio -> disk -> disk * option text;
}.

(** ** Keys *)

Definition _CORE_TAG_FIELDS : list string := ["artist"; "title"; "album"; "year"; "genre"; "track_number"]%string.

Definition _WRITE_ID3_MAP : list (string * text) :=
  [("artist", lit "TPE1"); ("title", lit "TIT2"); ("album", lit "TALB"); ("year", lit "TDRC"); ("genre", lit "TCON"); ("track_number", lit "TRCK")]%string.
Definition _WRITE_VORBIS_MAP : list (string * text) :=
  [("artist", lit "artist"); ("title", lit "title"); ("album", lit "album"); ("year", lit "date"); ("genre", lit "genre");
   ("track_number", lit "tracknumber")]%string.
Definition _WRITE_MP4_MAP : list (string * text) :=
  [("artist", 169 :: lit "ART"); ("title", 169 :: lit "nam"); ("album", 169 :: lit "alb"); ("year", 169 :: lit "day"); ("genre", 169 :: lit "gen");
   ("track_number", lit "trkn")]%string.
Definition _WRITE_ASF_MAP : list (string * text) :=
  [("artist", lit "Author"); ("title", lit "Title"); ("album", lit "WM/AlbumTitle"); ("year", lit "WM/Year"); ("genre", lit "WM/Genre");
   ("track_number", lit "WM/TrackNumber")]%string.

Definition _VORBIS_MAP : list (text * string) :=
  [(lit "artist", "artist"); (lit "title", "title"); (lit "album", "album"); (lit "date", "year"); (lit "genre", "genre");
   (lit "tracknumber", "track_number")]%string.
Definition _ID3_MAP : list (text * string) :=
  [(lit "TPE1", "artist"); (lit "TIT2", "title"); (lit "TALB", "album"); (lit "TDRC", "year"); (lit "TCON", "genre"); (lit "TRCK", "track_number")]%string.
Definition _MP4_MAP : list (text * string) :=
  [(169 :: lit "ART", "artist"); (169 :: lit "nam", "title"); (169 :: lit "alb", "album"); (169 :: lit "day", "year"); (169 :: lit "gen", "genre");
   (lit "trkn", "track_number")]%string.
Definition _ASF_MAP : list (text * string) :=
  [(lit "Author", "artist"); (lit "Title", "title"); (lit "WM/AlbumTitle", "album"); (lit "WM/Year", "year"); (lit "WM/Genre", "genre");
   (lit "WM/TrackNumber", "track_number")]%string.

Definition write_map (f : TagFormat) : list (string * text) :=
  match f with ID3 => _WRITE_ID3_MAP | MP4 => _WRITE_MP4_MAP | VORBIS => _WRITE_VORBIS_MAP | ASF => _WRITE_ASF_MAP end.
Definition read_map (f : TagFormat) : list (text * string) :=
  match f with ID3 => _ID3_MAP | MP4 => _MP4_MAP | VORBIS => _VORBIS_MAP | ASF => _ASF_MAP end.

(** ** Normalisation *)

Section disk.
Context {disk audio : Type} `{!Mutagen disk audio}.
Context (other_digit : Z -> option Z) (other_isdigit : Z -> bool) (nfc : text -> text).

(** [int()] of a string without the surrounding white space: a sign, digits and single underscores between them. *)
Fixpoint int_digits (acc : Z) (l : text) : option Z :=
  match l with
  | [] => Some acc
  | c :: l' =>
      match digit other_digit c with
      | Some d => int_digits (10 * acc + d) l'
      | None =>
          if c =? 95 then match l' with
                          | c' :: l'' => match digit other_digit c' with Some d => int_digits (10 * acc + d) l'' | None => None end
                          | [] => None
                          end
          else None
      end
  end.
Definition int_unsigned (l : text) : option Z :=
  match l with c :: l' => match digit other_digit c with Some d => int_digits d l' | None => None end | [] => None end.
Definition py_int (t : text) : option Z :=
  match strip t with
  | c :: l => if c =? 43 then int_unsigned l else if c =? 45 then Z.opp <$> int_unsigned l else int_unsigned (c :: l)
  | [] => None
  end.

Definition tuple_text (p : Z * Z) : text := lit "(" ++ dec p.1 ++ lit ", " ++ dec p.2 ++ lit ")".

Definition _first_str (c : cell) : option text :=
  match c with
  | Texts (t :: _) => Some (repair_mojibake (sanitize_pg_text t))
  | Tracks (p :: _) => Some (repair_mojibake (sanitize_pg_text (tuple_text p)))
  | _ => None
  end.

Definition _parse_year (val : text) : option Z :=
  match strip val with
  | [] => None
  | t => match py_int (take 4 t) with
         | Some year => if (1000 <=? year) && (year <=? 9999) then Some year else None
         | None => None
         end
  end.

Definition _bounded_track (number : Z) : option Z := if (0 <=? number) && (number <=? 9999) then Some number else None.

(** [text.split("/")[0]] *)
Definition before_slash (t : text) : text := (span (fun c => negb (c =? 47)) t).1.
Definition has_slash (t : text) : bool := existsb (fun c => c =? 47) t.

Definition _parse_track_text (value : text) : option Z :=
  let t := strip value in
  let t := if has_slash t then strip (before_slash t) else t in
  match t with [] => None | _ => py_int t ≫= _bounded_track end.

Definition _parse_track (c : cell) : option Z :=
  match c with
  | Texts (t :: _) => _parse_track_text t
  | Tracks (p :: _) => _bounded_track p.1
  | _ => None
  end.

Definition str (v : tag_value) : text := match v with VNone => lit "None" | VInt n => dec n | VStr t => t | VList _ => [] end.

Definition normalize_year_text (v : tag_value) : option Z := match v with VNone => None | v => _parse_year (str v) end.
Definition normalize_track_number_text (v : tag_value) : option Z :=
  match v with
  | VNone => None
  | VList (t :: _) => _parse_track_text t
  | VList [] => None
  | v => _parse_track_text (str v)
  end.

Definition _raw_genre_value (c : cell) : option tag_value :=
  let parts := match c with Texts l => sanitize_pg_text <$> l | Tracks l => (fun p => sanitize_pg_text (tuple_text p)) <$> l end in
  match parts with [] => None | [t] => Some (VStr t) | _ => Some (VList parts) end.

Definition _raw_track_tuple (p : Z * Z) : text := if p.2 =? 0 then dec p.1 else dec p.1 ++ lit "/" ++ dec p.2.
Definition _raw_track_text (c : cell) : option text :=
  match c with
  | Texts (t :: _) => match strip (sanitize_pg_text t) with [] => None | t => Some t end
  | Tracks (p :: _) => Some (_raw_track_tuple p)
  | _ => None
  end.

(** ** Reading *)

Record ParsedTagValues : Type := Parsed {
  artist : option text;
  title : option text;
  album : option text;
  year : option Z;
  genre : option text;
  track_number : option Z;
  raw_year : option text;
  raw_track_number : option text;
  raw_genre : option tag_value;
}.
Definition no_tags : ParsedTagValues := Parsed None None None None None None None None None.

(** [get] is [tags.get]. *)
Definition source (f : TagFormat) (get : text -> option cell) (name : string) : option cell :=
  match list_find (fun p => p.2 = name) (read_map f) with Some (_, (key, _)) => get key | None => None end.
Definition _mapped_sources (f : TagFormat) (get : text -> option cell) : ParsedTagValues :=
  let source := source f get in
  let field name := source name ≫= _first_str in
  Parsed (field "artist"%string) (field "title"%string) (field "album"%string) (field "year"%string ≫= _parse_year) (field "genre"%string)
    (if bool_decide (f = MP4) then source "track_number"%string ≫= _parse_track else field "track_number"%string ≫= _parse_track_text)
    (field "year"%string) (source "track_number"%string ≫= _raw_track_text) (source "genre"%string ≫= _raw_genre_value).

Definition resolve_tag_format (a : audio) : option TagFormat :=
  if tags_is_ID3 a then Some ID3
  else if audio_is_MP4 a then Some MP4
  else if audio_is_ASF a then Some ASF
  else if tags_is_VCommentDict a then Some VORBIS
  else None.

Definition parse_format_tags (a : audio) : ParsedTagValues :=
  if has_tags a then match resolve_tag_format a with Some f => _mapped_sources f (tag_get a) | None => no_tags end else no_tags.

Inductive extract_error : Type := TagReadError (message : text) | EOSError (message : text).

Definition extract_tags (strict : bool) (d : disk) : outcome extract_error ParsedTagValues :=
  match mutagen_File d with
  | Raise (OSError e) => if strict then Raise (TagReadError e) else Raise (EOSError e)
  | Raise (ParseError e) => if strict then Raise (TagReadError e) else Ok no_tags
  | Ok None => if strict then Raise (TagReadError (lit "not a recognized audio file on re-read")) else Ok no_tags
  | Ok (Some a) => Ok (parse_format_tags a)
  end.

Definition of_text (o : option text) : tag_value := match o with Some t => VStr t | None => VNone end.
Definition of_int (o : option Z) : tag_value := match o with Some n => VInt n | None => VNone end.

Definition snapshot_of (p : ParsedTagValues) : tags :=
  [("artist", of_text (artist p)); ("title", of_text (title p)); ("album", of_text (album p));
   ("year", match raw_year p with Some t => VStr t | None => of_int (year p) end);
   ("genre", match raw_genre p with Some v => v | None => of_text (genre p) end);
   ("track_number", match raw_track_number p with Some t => VStr t | None => of_int (track_number p) end)]%string.

Definition _extract_before_tags (d : disk) : outcome extract_error tags :=
  match extract_tags false d with Ok p => Ok (snapshot_of p) | Raise e => Raise e end.

(** ** Writing *)

(** [text.partition("/")] *)
Definition after_slash (t : text) : text := match (span (fun c => negb (c =? 47)) t).2 with _ :: l => l | [] => [] end.
Definition isdigit (t : text) : bool :=
  negb (bool_decide (t = [])) && forallb (fun c => is_digit other_digit c || (negb (c <? 128) && other_isdigit c)) t.

(** [None] stands for a [ValueError] of [int()]. *)
Definition _mp4_track_tuple (v : tag_value) : option (Z * Z) :=
  let part t := if isdigit (strip t) then py_int (strip t) else Some 0 in
  match v with
  | VStr t => if has_slash t then match part (before_slash t), part (after_slash t) with Some n, Some total => Some (n, total) | _, _ => None end
              else (fun n => (n, 0)) <$> py_int t
  | VInt n => Some (n, 0)
  | _ => None
  end.

(** One turn of the loop of [_write_id3], [_write_vorbis], [_write_asf] and [_write_mp4]. *)
Definition write_field (f : TagFormat) (field : string) (value : tag_value) (a : audio) : option audio :=
  match dict_get field (write_map f) with
  | None => Some a
  | Some key =>
      match value with
      | VNone => Some (tag_del key a)
      | VList l => Some (tag_put key (Texts l) a)
      | v => if bool_decide (f = MP4) && bool_decide (field = "track_number"%string) then (fun p => tag_put key (Tracks [p]) a) <$> _mp4_track_tuple v
             else Some (tag_put key (Texts [str v]) a)
      end
  end.
Fixpoint writer (f : TagFormat) (ts : tags) (a : audio) : option audio :=
  match ts with
  | [] => Some a
  | (field, value) :: ts => match write_field f field value a with Some a => writer f ts a | None => None end
  end.

(** How [write_tags] ends: it raised before the save, the save raised, it returned. *)
Inductive write_end : Type := NotSaved (message : text) | SaveRaised (d : disk) (message : text) | Saved (d : disk).

Definition write_tags (d : disk) (ts : tags) : write_end :=
  match mutagen_File d with
  | Raise (OSError e) | Raise (ParseError e) => NotSaved e
  | Ok None => NotSaved (lit "not a recognized audio file")
  | Ok (Some a) =>
      match (if has_tags a then Ok a else add_tags a) with
      | Raise e => NotSaved e
      | Ok a =>
          match resolve_tag_format a with
          | None => NotSaved (lit "unsupported tag format")
          | Some f =>
              match writer f ts a with
              | None => NotSaved (lit "invalid literal for int()")
              | Some a => match mutagen_save a d with (d', None) => Saved d' | (d', Some e) => SaveRaised d' e end
              end
          end
      end
  end.

(** ** Verifying *)

(** The expected and the actual value of a field that differs. *)
Abbreviation discrepancy := (option text * option text)%type.

Definition field_of (p : ParsedTagValues) (name : string) : option text :=
  if bool_decide (name = "artist"%string) then artist p
  else if bool_decide (name = "title"%string) then title p
  else if bool_decide (name = "album"%string) then album p
  else if bool_decide (name = "year"%string) then dec <$> year p
  else if bool_decide (name = "genre"%string) then genre p
  else if bool_decide (name = "track_number"%string) then dec <$> track_number p
  else None.

Definition _verify_deleted_field (actual : option text) : option discrepancy := (fun t => (None, Some (nfc t))) <$> actual.

Definition semicolons (l : list text) : text := match l with [] => [] | t :: l => t ++ concat (map (fun t => lit "; " ++ t) l) end.
Definition _verify_genre_list_field (expected : list text) (p : ParsedTagValues) : option discrepancy :=
  let actual := match raw_genre p with Some (VList l) => l | Some v => [str v] | None => [] end in
  let expected := nfc <$> expected in
  let actual := nfc <$> actual in
  if bool_decide (expected = actual) then None
  else Some (Some (semicolons expected), match actual with [] => None | _ => Some (semicolons actual) end).

Definition _verify_semantic_field (normalizer : tag_value -> option Z) (expected : tag_value) (actual : option Z) : option discrepancy :=
  if bool_decide (normalizer expected = actual) then None else Some (Some (nfc (str expected)), (fun n => nfc (dec n)) <$> actual).

Definition _verify_nfc_field (expected : tag_value) (actual : option text) : option discrepancy :=
  let expected := nfc (str expected) in
  let actual := nfc <$> actual in
  if bool_decide (Some expected = actual) then None else Some (Some expected, actual).

Definition verify_field (p : ParsedTagValues) (name : string) (expected : tag_value) : option discrepancy :=
  match expected with
  | VNone => _verify_deleted_field (field_of p name)
  | _ =>
      match name, expected with
      | "genre"%string, VList l => _verify_genre_list_field l p
      | "year"%string, _ => _verify_semantic_field normalize_year_text expected (year p)
      | "track_number"%string, _ => _verify_semantic_field normalize_track_number_text expected (track_number p)
      | _, _ => _verify_nfc_field expected (field_of p name)
      end
  end.

Definition verify_write (d : disk) (expected : tags) : outcome extract_error (list (string * discrepancy)) :=
  match extract_tags true d with
  | Raise e => Raise e
  | Ok p => Ok (omap (fun kv => pair kv.1 <$> verify_field p kv.1 kv.2) expected)
  end.

(** ** The bundle that runs in one thread: [write_and_verify_sync] *)

Inductive TagWriteStatus : Type := QUEUED | COMPLETED | FAILED | SAVE_FAILED | DISCREPANCY | VERIFY_FAILED | NO_OP.

Record WriteResult : Type := Result {
  result_status : TagWriteStatus;
  result_discrepancies : option (list (string * discrepancy));
  result_error : option text;
  result_before : tags;
}.

Definition message (e : extract_error) : text := match e with TagReadError t | EOSError t => t end.

Definition write_and_verify_sync (d : disk) (proposed : tags) : disk * WriteResult :=
  match _extract_before_tags d with
  | Raise (EOSError e) => (d, Result FAILED None (Some e) [])
  | Raise (TagReadError e) => (d, Result VERIFY_FAILED None (Some (lit "verify failed: " ++ e)) [])
  | Ok before =>
      match write_tags d proposed with
      | NotSaved e => (d, Result FAILED None (Some e) before)
      | SaveRaised d' e => (d', Result SAVE_FAILED None (Some e) before)
      | Saved d' =>
          match verify_write d' proposed with
          | Ok [] => (d', Result COMPLETED (Some []) None before)
          | Ok l => (d', Result DISCREPANCY (Some l) None before)
          | Raise (TagReadError e) => (d', Result VERIFY_FAILED None (Some (lit "verify failed: " ++ e)) before)
          | Raise (EOSError e) => (d', Result FAILED None (Some e) before)
          end
      end
  end.

(** ** What is written is read back *)

(** The keys the writers of a family use. *)
Definition frame_keys (f : TagFormat) : list text := (write_map f).*2.

(** The documented behaviour of mutagen, for the keys of the family of the file only
    (other keys may be one key to it: a Vorbis comment ignores case).  [faithful key c]:
    it gives [c] under [key] back as it was written, at once and after a save; nothing
    is assumed of other cells (the empty list, which deletes; a date it parses). *)
Class MutagenLaws (faithful : text -> cell -> Prop) : Prop := {
  get_put a f k c : resolve_tag_format a = Some f -> k ∈ frame_keys f -> faithful k c -> tag_get (tag_put k c a) k = Some c;
  get_put_ne a f k c k' : resolve_tag_format a = Some f -> k ∈ frame_keys f -> k' ∈ frame_keys f -> k <> k' ->
    tag_get (tag_put k c a) k' = tag_get a k';
  get_del a f k : resolve_tag_format a = Some f -> k ∈ frame_keys f -> tag_get (tag_del k a) k = None;
  get_del_ne a f k k' : resolve_tag_format a = Some f -> k ∈ frame_keys f -> k' ∈ frame_keys f -> k <> k' ->
    tag_get (tag_del k a) k' = tag_get a k';
  put_format a k c : has_tags (tag_put k c a) = has_tags a /\ resolve_tag_format (tag_put k c a) = resolve_tag_format a;
  del_format a k : has_tags (tag_del k a) = has_tags a /\ resolve_tag_format (tag_del k a) = resolve_tag_format a;
  add_tags_adds a a' : add_tags a = Ok a' -> has_tags a' = true;
  saved_reads a f d d' : has_tags a = true -> resolve_tag_format a = Some f -> mutagen_save a d = (d', None) ->
    exists a', mutagen_File d' = Ok (Some a') /\ (has_tags a' = true -> resolve_tag_format a' = Some f) /\
      forall k, k ∈ frame_keys f -> match tag_get a k with
                | None => (if has_tags a' then tag_get a' k else None) = None
                | Some c => faithful k c -> (if has_tags a' then tag_get a' k else None) = Some c
                end;
}.

(** The cell a value is written as. *)
Definition cell_of (f : TagFormat) (name : string) (v : tag_value) : option (option cell) :=
  match v with
  | VNone => Some None
  | VList l => Some (Some (Texts l))
  | v => if bool_decide (f = MP4) && bool_decide (name = "track_number"%string) then (fun p => Some (Tracks [p])) <$> _mp4_track_tuple v
         else Some (Some (Texts [str v]))
  end.

Section laws.
Context (faithful : text -> cell -> Prop) `{!MutagenLaws faithful}.

(** What a frame holds after [c] was written to it, as far as mutagen promises. *)
Definition holds_cell (k : text) (c : option cell) (got : option cell) : Prop :=
  match c with None => got = None | Some x => faithful k x -> got = Some x end.

Lemma write_field_spec f name key v a a' :
  dict_get name (write_map f) = Some key -> key ∈ frame_keys f -> resolve_tag_format a = Some f -> write_field f name v a = Some a' ->
  exists c, cell_of f name v = Some c /\ holds_cell key c (tag_get a' key) /\
    (forall k, k ∈ frame_keys f -> key <> k -> tag_get a' k = tag_get a k) /\
    has_tags a' = has_tags a /\ resolve_tag_format a' = resolve_tag_format a.
Proof using faithful MutagenLaws0.
  intros Hk Hin Hf. assert (Hput : forall c, holds_cell key (Some c) (tag_get (tag_put key c a) key) /\
    (forall k, k ∈ frame_keys f -> key <> k -> tag_get (tag_put key c a) k = tag_get a k) /\
    has_tags (tag_put key c a) = has_tags a /\ resolve_tag_format (tag_put key c a) = resolve_tag_format a).
  { intros c. split_and!; [intros Hc; by eapply get_put|intros; by eapply get_put_ne|apply put_format..]. }
  unfold write_field, cell_of. rewrite Hk.
  destruct v; simpl; [intros [= <-]; exists None; split_and!; [done|by eapply get_del|intros; by eapply get_del_ne|apply del_format..]
    | | |intros [= <-]; eexists; split; [done|apply Hput]];
    (destruct (bool_decide (f = MP4) && bool_decide (name = "track_number"%string)); simpl; [|intros [= <-]; eexists; split; [done|apply Hput]]).
  - intros [= <-]. eexists. split; [done|apply Hput].
  - match goal with |- context [fmap _ ?o] => destruct o as [p|] end; simpl; [|done].
    intros [= <-]. eexists. split; [done|apply Hput].
Qed.

(** The frames of an opened file; none when it has no tags. *)
Definition look (a : audio) (k : text) : option cell := if has_tags a then tag_get a k else None.

Lemma parse_look f a : (has_tags a = true -> resolve_tag_format a = Some f) -> parse_format_tags a = _mapped_sources f (look a).
Proof.
  intros Hf. unfold parse_format_tags, look. destruct (has_tags a); [by rewrite Hf|]. unfold _mapped_sources, source. by destruct f.
Qed.

(** A payload: some of the core fields, in any order. *)
Definition fields_ok (ts : tags) : Prop := NoDup ts.*1 /\ Forall (fun kv => kv.1 ∈ _CORE_TAG_FIELDS) ts.

Definition key_of (f : TagFormat) (name : string) : text := default [] (dict_get name (write_map f)).

Lemma key_of_some f name : name ∈ _CORE_TAG_FIELDS -> dict_get name (write_map f) = Some (key_of f name).
Proof. intros H. unfold _CORE_TAG_FIELDS in H. unfold key_of. repeat (apply elem_of_cons in H as [->|H]; [by destruct f|]). by apply elem_of_nil in H. Qed.

Lemma key_of_frame f name : name ∈ _CORE_TAG_FIELDS -> key_of f name ∈ frame_keys f.
Proof.
  intros H. unfold _CORE_TAG_FIELDS in H. unfold key_of. apply list_elem_of_In.
  repeat (apply elem_of_cons in H as [->|H]; [destruct f; simpl; tauto|]). by apply elem_of_nil in H.
Qed.

Lemma key_of_inj f n1 n2 : n1 ∈ _CORE_TAG_FIELDS -> n2 ∈ _CORE_TAG_FIELDS -> key_of f n1 = key_of f n2 -> n1 = n2.
Proof.
  intros H1 H2. unfold _CORE_TAG_FIELDS in *. 
  repeat (apply elem_of_cons in H1 as [->|H1]; [repeat (apply elem_of_cons in H2 as [->|H2]; [by destruct f|]); by apply elem_of_nil in H2|]).
  by apply elem_of_nil in H1.
Qed.

(** The readers look every field up where the writers put it. *)
Lemma source_key f get name : name ∈ _CORE_TAG_FIELDS -> source f get name = get (key_of f name).
Proof.
  intros H. unfold _CORE_TAG_FIELDS in H. unfold source. repeat (apply elem_of_cons in H as [->|H]; [by destruct f|]). by apply elem_of_nil in H.
Qed.

Lemma writer_keeps f name ts a a' :
  name ∈ _CORE_TAG_FIELDS -> fields_ok ts -> name ∉ ts.*1 -> resolve_tag_format a = Some f -> writer f ts a = Some a' ->
  tag_get a' (key_of f name) = tag_get a (key_of f name).
Proof using faithful MutagenLaws0.
  intros Hname. revert a. induction ts as [|[m v] ts IH]; intros a [Hnd Hc] Hn Hf Hw; simpl in Hw; [by injection Hw as <-|].
  apply NoDup_cons in Hnd as [Hm Hnd]. apply Forall_cons in Hc as [Hcm Hc]. simpl in *. rewrite not_elem_of_cons in Hn. destruct Hn as [Hne Hn].
  destruct (write_field f m v a) as [a2|] eqn:E; [|done].
  destruct (write_field_spec _ _ _ _ _ _ (key_of_some f m Hcm) (key_of_frame f m Hcm) Hf E) as (c & _ & _ & Hget & _ & Hr).
  rewrite (IH a2 (conj Hnd Hc) Hn ltac:(congruence) Hw). apply Hget; [by apply key_of_frame|]. intros Hk. by apply key_of_inj in Hk.
Qed.

Lemma writer_spec f ts a a' :
  fields_ok ts -> resolve_tag_format a = Some f -> writer f ts a = Some a' ->
  (forall name v, (name, v) ∈ ts -> exists c, cell_of f name v = Some c /\ holds_cell (key_of f name) c (tag_get a' (key_of f name))) /\
  has_tags a' = has_tags a /\ resolve_tag_format a' = resolve_tag_format a.
Proof using faithful MutagenLaws0.
  revert a. induction ts as [|[n v] ts IH]; intros a [Hnd Hc] Hf Hw; simpl in Hw; [injection Hw as <-; split; [|done]; intros ? ? H; by apply elem_of_nil in H|].
  apply NoDup_cons in Hnd as [Hn Hnd]. apply Forall_cons in Hc as [Hcn Hc]. simpl in *.
  destruct (write_field f n v a) as [a1|] eqn:E; [|done].
  destruct (write_field_spec _ _ _ _ _ _ (key_of_some f n Hcn) (key_of_frame f n Hcn) Hf E) as (c & Hcell & Hholds & _ & Ht & Hr).
  assert (Hf1 : resolve_tag_format a1 = Some f) by congruence.
  destruct (IH a1 (conj Hnd Hc) Hf1 Hw) as (Hin & Ht' & Hr'). split; [|split; congruence].
  intros name v' [[= -> ->]|H]%elem_of_cons; [|by apply Hin]. exists c. split; [done|].
  by rewrite (writer_keeps f n ts a1 a' Hcn (conj Hnd Hc) Hn Hf1 Hw).
Qed.

(** The family a write of the file would pick. *)
Definition written_format (d : disk) : option TagFormat :=
  match mutagen_File d with
  | Ok (Some a) => match (if has_tags a then Ok a else add_tags a) with Ok a => resolve_tag_format a | Raise _ => None end
  | _ => None
  end.

(** The file a finished write leaves, and how it reads. *)
Lemma write_reads d ts d' :
  fields_ok ts -> write_tags d ts = Saved d' ->
  exists f a, written_format d = Some f /\
    (forall strict, extract_tags strict d' = Ok (_mapped_sources f (look a))) /\
    forall name v, (name, v) ∈ ts -> exists c, cell_of f name v = Some c /\ holds_cell (key_of f name) c (look a (key_of f name)).
Proof using MutagenLaws0.
  intros Hts. unfold write_tags, written_format. destruct (mutagen_File d) as [[a0|]|[]] eqn:Hopen; try done.
  destruct (if has_tags a0 then Ok a0 else add_tags a0) as [a1|e] eqn:Hadd; [|done].
  destruct (resolve_tag_format a1) as [f|] eqn:Hf; [|done]. destruct (writer f ts a1) as [a2|] eqn:Hw; [|done].
  destruct (mutagen_save a2 d) as [d2 [e|]] eqn:Hsave; [done|]. intros [= <-].
  assert (Ht1 : has_tags a1 = true) by (destruct (has_tags a0) eqn:E; [by injection Hadd as <-|by apply add_tags_adds in Hadd]).
  destruct (writer_spec f ts a1 a2 Hts Hf Hw) as (Hin & Ht2 & Hr2). destruct (saved_reads a2 f d d2) as (a & Ha & Hra & Hget); [congruence|congruence|done|].
  exists f, a. split; [done|]. split.
  - intros strict. unfold extract_tags. rewrite Ha. f_equal. by apply parse_look.
  - intros name v H. destruct (Hin name v H) as (c & Hc & Hg). exists c. split; [done|].
    assert (Hcore : name ∈ _CORE_TAG_FIELDS) by (destruct Hts as [_ Hts]; rewrite Forall_forall in Hts; exact (Hts _ H)).
    specialize (Hget (key_of f name) (key_of_frame f name Hcore)). destruct c as [c|]; simpl in *; [|by rewrite Hg in Hget].
    intros Hfa. rewrite (Hg Hfa) in Hget. by apply Hget.
Qed.
End laws.
End disk.

(** ** Text *)

Lemma span_spec p l : let (a, b) := span p l in l = a ++ b /\ Forall (fun c => p c = true) a /\ match b with c :: _ => p c = false | [] => True end.
Proof.
  induction l as [|c l IH]; simpl; [done|]. destruct (p c) eqn:E; [|by rewrite E]. destruct (span p l) as [a b]. destruct IH as (-> & Ha & Hb). by split_and!; [|constructor|].
Qed.

Lemma lstrip_spec l : exists a, l = a ++ lstrip l /\ match lstrip l with c :: _ => space c = false | [] => True end.
Proof. unfold lstrip. pose proof (span_spec space l) as H. destruct (span space l) as [a b]. exists a. simpl. tauto. Qed.

Lemma lstrip_fix l : match l with c :: _ => space c = false | [] => True end -> lstrip l = l.
Proof. destruct l as [|c l]; [done|]. intros H. unfold lstrip. simpl. by rewrite H. Qed.

Lemma rstrip_spec l : exists b, l = rstrip l ++ b /\ match last (rstrip l) with Some c => space c = false | None => True end.
Proof.
  unfold rstrip. destruct (lstrip_spec (reverse l)) as (a & Ha & Hh). exists (reverse a). split.
  - rewrite <- reverse_app, <- Ha. by rewrite reverse_involutive.
  - rewrite last_reverse. by destruct (lstrip (reverse l)).
Qed.

Lemma rstrip_fix l : match last l with Some c => space c = false | None => True end -> rstrip l = l.
Proof. intros H. unfold rstrip. rewrite lstrip_fix; [apply reverse_involutive|]. rewrite <- head_reverse in H. by destruct (reverse l). Qed.

Lemma strip_fix l : match l with c :: _ => space c = false | [] => True end -> match last l with Some c => space c = false | None => True end -> strip l = l.
Proof. intros Hh Hl. unfold strip. by rewrite lstrip_fix, rstrip_fix. Qed.

Lemma strip_idem l : strip (strip l) = strip l.
Proof.
  unfold strip at 2 3. destruct (lstrip_spec l) as (a & _ & Hh). destruct (rstrip_spec (lstrip l)) as (b & Hb & Hl). apply strip_fix; [|done].
  destruct (rstrip (lstrip l)) as [|c r]; [done|]. rewrite Hb in Hh. exact Hh.
Qed.

Lemma Forall_strip (P : Z -> Prop) l : Forall P l -> Forall P (strip l).
Proof.
  intros H. unfold strip. destruct (lstrip_spec l) as (a & Ha & _). destruct (rstrip_spec (lstrip l)) as (b & Hb & _).
  rewrite Ha, Forall_app in H. destruct H as [_ H]. rewrite Hb, Forall_app in H. by destruct H.
Qed.

Lemma sanitize_fix s : Forall (fun c => pg_invalid c = false) s -> sanitize_pg_text s = s.
Proof. unfold sanitize_pg_text. induction 1 as [|c s Hc _ IH]; simpl; [done|]. by rewrite Hc, IH. Qed.

Lemma sanitized s : Forall (fun c => pg_invalid c = false) (sanitize_pg_text s).
Proof. apply Forall_forall. intros c [_ Hc]%list_elem_of_In%filter_In. by apply negb_true_iff. Qed.

Lemma sanitize_idem s : sanitize_pg_text (sanitize_pg_text s) = sanitize_pg_text s.
Proof. apply sanitize_fix, sanitized. Qed.

Section numbers.
Context (other_digit : Z -> option Z) (other_isdigit : Z -> bool).

Lemma dec_digits n : 0 <= n -> dec n <> [] /\ Forall ascii_digit (dec n) /\ value_from 0 (dec n) = n.
Proof.
  intros Hn. destruct (dec_prints n (Z.succ n)) as (H1 & H2 & H3 & _); [|lia|done]. split; [done|]. pose proof (Z.pow_gt_lin_r 10 (Z.succ n)). lia.
Qed.

Lemma digits_solid t : Forall ascii_digit t -> strip t = t.
Proof.
  assert (Hs : forall c, ascii_digit c -> space c = false).
  { intros c [H1 H2]. unfold space. rewrite bool_decide_eq_false_2 by (rewrite !elem_of_cons, elem_of_nil; lia). decide_cmp. done. }
  intros H. apply strip_fix; [destruct H; auto|]. destruct (last t) as [c|] eqn:E; [|done]. apply Hs. apply last_Some in E as [l ->].
  apply Forall_app in H as [_ H]. by inversion H.
Qed.

Lemma int_digits_value t acc : Forall ascii_digit t -> int_digits other_digit acc t = Some (value_from acc t).
Proof.
  intros H. revert acc. induction H as [|c t Hc _ IH]; intros acc; simpl; [done|]. rewrite digit_ascii by done. apply IH.
Qed.

Lemma py_int_digits t : t <> [] -> Forall ascii_digit t -> py_int other_digit t = Some (value_from 0 t).
Proof.
  intros Hne H. unfold py_int. rewrite digits_solid by done. destruct H as [|c t Hc Ht]; [done|]. pose proof Hc as [? ?].
  rewrite !(proj2 (Z.eqb_neq c _)) by lia. unfold int_unsigned. rewrite digit_ascii, int_digits_value by done. done.
Qed.

Lemma py_int_dec n : 0 <= n -> py_int other_digit (dec n) = Some n.
Proof. intros Hn. destruct (dec_digits n Hn) as (H1 & H2 & H3). by rewrite py_int_digits, H3. Qed.

Lemma isdigit_dec n : 0 <= n -> isdigit other_digit other_isdigit (dec n) = true.
Proof.
  intros Hn. destruct (dec_digits n Hn) as (H1 & H2 & _). unfold isdigit. rewrite bool_decide_eq_false_2 by done. simpl.
  apply List.forallb_forall. intros c Hc%list_elem_of_In. rewrite Forall_forall in H2. unfold is_digit. by rewrite digit_ascii by auto.
Qed.

Lemma dec_no_slash n : 0 <= n -> Forall (fun c => negb (c =? 47) = true) (dec n).
Proof. intros Hn. destruct (dec_digits n Hn) as (_ & H & _). eapply Forall_impl; [exact H|]. intros c [? ?]. by rewrite (proj2 (Z.eqb_neq c 47)) by lia. Qed.

Lemma has_slash_false t : Forall (fun c => negb (c =? 47) = true) t -> has_slash t = false.
Proof. unfold has_slash. induction 1 as [|c t Hc _ IH]; simpl; [done|]. apply negb_true_iff in Hc. by rewrite Hc. Qed.

(** The text of a [trkn] pair gives the pair back. *)
Lemma track_tuple_roundtrip n total :
  0 <= n -> 0 <= total -> _mp4_track_tuple other_digit other_isdigit (VStr (_raw_track_tuple (n, total))) = Some (n, total).
Proof.
  intros Hn Ht. unfold _raw_track_tuple. cbv beta iota delta [_mp4_track_tuple fst snd]. destruct (total =? 0) eqn:E; bool_prop.
  - rewrite has_slash_false by by apply dec_no_slash. rewrite py_int_dec by done. simpl. by subst.
  - assert (has_slash (dec n ++ lit "/" ++ dec total) = true) as -> by (unfold has_slash; rewrite existsb_app; cbn [existsb lit]; by rewrite orb_true_r).
    unfold before_slash, after_slash. rewrite (span_app _ (dec n)) by (by apply dec_no_slash || done). cbv beta iota delta [fst snd lit]. simpl String.list_ascii_of_string. cbn [app fmap list_fmap].
    destruct (dec_digits n Hn) as (_ & Dn & _), (dec_digits total Ht) as (_ & Dt & _).
    by rewrite !digits_solid, !isdigit_dec, !py_int_dec.
Qed.
End numbers.

(** ** An undo restores the snapshot *)

Section restore.
Context {disk audio : Type} `{!Mutagen disk audio}.
Context (other_digit : Z -> option Z) (other_isdigit : Z -> bool) (faithful : text -> cell -> Prop) `{!MutagenLaws faithful}.

Abbreviation cell_of := (cell_of other_digit other_isdigit).

Definition text_value (c : option cell) : tag_value := of_text (c ≫= _first_str).
Definition genre_value (c : option cell) : tag_value := match c ≫= _raw_genre_value with Some v => v | None => text_value c end.
Definition track_value (f : TagFormat) (c : option cell) : tag_value :=
  match c ≫= _raw_track_text with
  | Some t => VStr t
  | None => of_int (if bool_decide (f = MP4) then c ≫= _parse_track other_digit else (c ≫= _first_str) ≫= _parse_track_text other_digit)
  end.
Definition field_value (f : TagFormat) (name : string) : option cell -> tag_value :=
  if bool_decide (name = "genre"%string) then genre_value else if bool_decide (name = "track_number"%string) then track_value f else text_value.

Lemma snapshot_mapped f get :
  snapshot_of (_mapped_sources other_digit f get) = (fun name => (name, field_value f name (get (key_of f name)))) <$> _CORE_TAG_FIELDS.
Proof.
  unfold snapshot_of, _mapped_sources, _CORE_TAG_FIELDS. cbn [fmap list_fmap].
  rewrite !source_key by (apply list_elem_of_In; simpl; tauto). unfold field_value.
  repeat (rewrite bool_decide_eq_false_2 by done || rewrite (bool_decide_eq_true_2 (_ = _ :> string)) by done).
  unfold genre_value, track_value, text_value. simpl. by destruct (get (key_of f "year"%string) ≫= _first_str).
Qed.

(** What a file must hold for its snapshot to be writable: text that needs no more
    repair than one reading gives, a track number that needs none, [trkn] pairs
    where MP4 keeps them. *)
Definition reads_clean (f : TagFormat) (name : string) (c : cell) : Prop :=
  match c with
  | Texts [] => True
  | Texts (t :: _) =>
      if bool_decide (name = "track_number"%string) then f <> MP4 /\ repair_mojibake (sanitize_pg_text t) = sanitize_pg_text t
      else let r := repair_mojibake (sanitize_pg_text t) in repair_mojibake (sanitize_pg_text r) = r
  | Tracks l => f = MP4 /\ name = "track_number"%string /\ Forall (fun p => 0 <= p.1 /\ 0 <= p.2) l
  end.

Lemma text_rewritten f name c c' :
  name <> "track_number"%string -> (forall x, c = Some x -> reads_clean f name x) -> cell_of f name (text_value c) = Some c' -> text_value c' = text_value c.
Proof.
  intros Hn Hc. unfold text_value, TagDisk.cell_of, reads_clean in *. rewrite (bool_decide_eq_false_2 (name = _)), andb_false_r in * by done.
  destruct c as [[[|t l]|[|p l]]|]; simpl; try (by intros [= <-]); specialize (Hc _ eq_refl); [|naive_solver].
  intros [= <-]. simpl. by rewrite Hc.
Qed.

Lemma genre_rewritten f c c' :
  (forall x, c = Some x -> reads_clean f "genre"%string x) -> cell_of f "genre"%string (genre_value c) = Some c' -> genre_value c' = genre_value c.
Proof.
  intros Hc. unfold genre_value, text_value, TagDisk.cell_of. rewrite andb_false_r.
  destruct c as [[[|t [|t' l]]|[|p l]]|]; simpl; try (by intros [= <-]); specialize (Hc _ eq_refl); try (simpl in Hc; naive_solver).
  - intros [= <-]. simpl. by rewrite sanitize_idem.
  - intros [= <-]. simpl. rewrite !sanitize_idem. do 3 f_equal. clear. induction l as [|x l IH]; simpl; [done|]. by rewrite sanitize_idem, IH.
Qed.

Lemma track_rewritten f c c' :
  (forall x, c = Some x -> reads_clean f "track_number"%string x) -> cell_of f "track_number"%string (track_value f c) = Some c' ->
  track_value f c' = track_value f c.
Proof.
  intros Hc. unfold track_value. destruct c as [[[|t l]|[|[n total] l]]|]; cbn [mbind option_bind _raw_track_text _parse_track _first_str];
    try (case_bool_decide; by intros [= <-]); specialize (Hc _ eq_refl); simpl in Hc.
  - destruct Hc as [Hf Hr]. rewrite (bool_decide_eq_false_2 (f = MP4)) by done.
    destruct (strip (sanitize_pg_text t)) as [|z u] eqn:Es.
    + rewrite Hr. unfold _parse_track_text. rewrite Es. simpl. by intros [= <-].
    + unfold TagDisk.cell_of. rewrite (bool_decide_eq_false_2 (f = MP4)) by done. 
      assert (Hraw : _raw_track_text (Texts [z :: u]) = Some (z :: u)).
      { rewrite <- Es. unfold _raw_track_text. rewrite sanitize_fix by apply Forall_strip, sanitized. rewrite strip_idem. by rewrite Es. }
      cbn [andb str]. intros [= <-]. cbn [mbind option_bind]. by rewrite Hraw.
  - destruct Hc as (-> & _ & Hp). apply Forall_cons in Hp as [[Hn Ht] _]. simpl in Hn, Ht.
    unfold TagDisk.cell_of. rewrite !bool_decide_eq_true_2 by done. cbn [andb]. rewrite track_tuple_roundtrip by done. intros [= <-]. done.
Qed.

Lemma field_rewritten f name c c' :
  (forall x, c = Some x -> reads_clean f name x) -> cell_of f name (field_value f name c) = Some c' -> field_value f name c' = field_value f name c.
Proof.
  unfold field_value. case_bool_decide as Hg; [subst; apply genre_rewritten|]. case_bool_decide as Ht; [subst; apply track_rewritten|]. by apply text_rewritten.
Qed.

(** C12: an undo restores the snapshot.  Whatever happened to a file since its
    snapshot was taken, a save of the snapshot into a file of its family makes
    it read as it did: texts, raw year and track number, every value of a genre,
    and the fields it did not have are gone again; provided the file read cleanly
    ([reads_clean]: each text is settled by one repair, a track number needs none,
    [trkn] pairs only in MP4 and not negative) and mutagen gives each value of the
    snapshot back as it was written ([faithful]). *)
Theorem undo_restores_snapshot d a f s d1 d2 :
  mutagen_File d = Ok (Some a) -> (has_tags a = true -> resolve_tag_format a = Some f) ->
  (forall name c, name ∈ _CORE_TAG_FIELDS -> look a (key_of f name) = Some c -> reads_clean f name c) ->
  _extract_before_tags other_digit d = Ok s -> written_format d1 = Some f ->
  (forall name v c, (name, v) ∈ s -> cell_of f name v = Some (Some c) -> faithful (key_of f name) c) ->
  write_tags other_digit other_isdigit d1 s = Saved d2 ->
  _extract_before_tags other_digit d2 = Ok s.
Proof using MutagenLaws0.
  intros Hopen Hf Hclean Hs Hf1 Hfaith Hw. unfold _extract_before_tags, extract_tags in Hs. rewrite Hopen in Hs.
  rewrite (parse_look other_digit f a Hf), snapshot_mapped in Hs.
  assert (Es : s = (fun name => (name, field_value f name (look a (key_of f name)))) <$> _CORE_TAG_FIELDS) by congruence. clear Hs.
  assert (Hok : fields_ok s).
  { rewrite Es. split; [|by apply Forall_fmap, Forall_forall]. rewrite <- list_fmap_compose. apply (bool_decide_unpack _). vm_compute. done. }
  destruct (write_reads other_digit other_isdigit faithful d1 s d2 Hok Hw) as (f' & a2 & Hf' & Hread & Hcells).
  assert (f' = f) as -> by congruence. unfold _extract_before_tags. rewrite Hread, snapshot_mapped, Es. f_equal.
  apply list_fmap_ext. intros i name Hi. f_equal. apply list_elem_of_lookup_2 in Hi.
  assert (Hin : (name, field_value f name (look a (key_of f name))) ∈ s) by (rewrite Es; apply list_elem_of_fmap; eauto).
  destruct (Hcells _ _ Hin) as (c & Hc & Hl). replace (look a2 (key_of f name)) with c; [apply field_rewritten; [|done]; eauto|].
  destruct c as [c|]; [|done]. symmetry. apply Hl. eauto.
Qed.
End restore.

(** ** A clean write is confirmed *)

Section confirm.
Context {disk audio : Type} `{!Mutagen disk audio}.
Context (other_digit : Z -> option Z) (other_isdigit : Z -> bool) (nfc : text -> text).
Context (faithful : text -> cell -> Prop) `{!MutagenLaws faithful}.

Abbreviation cell_of := (cell_of other_digit other_isdigit).

(** A value a reader gives back unchanged. *)
Definition plain_value (f : TagFormat) (name : string) (v : tag_value) : Prop :=
  match v with
  | VNone => True
  | VInt n => 0 <= n
  | VStr t => repair_mojibake (sanitize_pg_text t) = t /\ (f, name) <> (MP4, "track_number"%string)
  | VList l => name = "genre"%string /\ Forall (fun t => sanitize_pg_text t = t) l
  end.

Lemma dec_plain n : 0 <= n -> repair_mojibake (sanitize_pg_text (dec n)) = dec n.
Proof.
  intros Hn. destruct (dec_digits n Hn) as (_ & H & _). rewrite sanitize_fix.
  - apply clean_stays, ascii_clean; (eapply Forall_impl; [exact H|]); intros c [? ?]; [lia|unfold scalar; decide_cmp; done].
  - eapply Forall_impl; [exact H|]. intros c [? ?]. apply pg_invalid_spec. lia.
Qed.

(** What the readers see of one written value. *)
Lemma text_read f name v c : plain_value f name v -> cell_of f name v = Some c -> (f, name) <> (MP4, "track_number"%string) ->
  match v with VList _ => True | _ => c ≫= _first_str = match v with VNone => None | v => Some (str v) end end.
Proof.
  intros Hp Hc Hn. unfold TagDisk.cell_of in Hc.
  assert (Hb : bool_decide (f = MP4) && bool_decide (name = "track_number"%string) = false).
  { apply andb_false_iff. destruct (decide (f = MP4)) as [->|]; [right; apply bool_decide_eq_false_2; congruence|left; by apply bool_decide_eq_false_2]. }
  rewrite Hb in Hc. destruct v as [|n|t|l]; try done; injection Hc as <-; [done| |].
  - cbn [mbind option_bind _first_str str]. by rewrite dec_plain.
  - cbn [mbind option_bind _first_str str]. by destruct Hp as [-> _].
Qed.

Lemma track_read n c : 0 <= n -> cell_of MP4 "track_number"%string (VInt n) = Some c -> c ≫= _parse_track other_digit = _parse_track_text other_digit (dec n).
Proof.
  intros Hn. unfold TagDisk.cell_of. rewrite !bool_decide_eq_true_2 by done. cbn [andb fmap option_fmap option_map _mp4_track_tuple]. intros [= <-].
  cbn [mbind option_bind _parse_track fst]. unfold _parse_track_text. destruct (dec_digits n Hn) as (H1 & H2 & _).
  rewrite digits_solid, has_slash_false by (done || by apply dec_no_slash). rewrite py_int_dec by done. by destruct (dec n).
Qed.

Ltac core_cases H := unfold _CORE_TAG_FIELDS in H; repeat (apply elem_of_cons in H as [->|H]); [..|by apply elem_of_nil in H].

Lemma field_of_text f get name :
  name ∈ _CORE_TAG_FIELDS -> name <> "year"%string -> name <> "track_number"%string ->
  field_of (_mapped_sources other_digit f get) name = source f get name ≫= _first_str.
Proof. intros H. core_cases H; try done. Qed.

Lemma verify_text p name v :
  name ∈ _CORE_TAG_FIELDS -> name <> "year"%string -> name <> "track_number"%string -> (forall l, v <> VList l) -> v <> VNone ->
  verify_field other_digit nfc p name v = _verify_nfc_field nfc v (field_of p name).
Proof. intros H. core_cases H; try done; intros _ _ Hl Hn; destruct v; try done; by destruct (Hl l). Qed.

Lemma confirmed f get name v c :
  name ∈ _CORE_TAG_FIELDS -> plain_value f name v -> cell_of f name v = Some c -> get (key_of f name) = c ->
  verify_field other_digit nfc (_mapped_sources other_digit f get) name v = None.
Proof.
  intros Hname Hp Hc Hg. assert (Hs : source f get name = c) by by rewrite source_key.
  destruct (decide (v = VNone)) as [->|Hnone].
  { injection Hc as <-. unfold verify_field, _verify_deleted_field. core_cases Hname; unfold field_of, _mapped_sources; simpl; rewrite Hs; try done; by destruct (bool_decide _). }
  destruct (decide ((f, name) = (MP4, "track_number"%string))) as [[= -> ->]|Hn].
  { destruct v as [|n|t|l]; [done| |by destruct Hp..].
    unfold verify_field, _verify_semantic_field, normalize_track_number_text, _mapped_sources. cbn [track_number str].
    rewrite (bool_decide_eq_true_2 (MP4 = MP4)), Hs, (track_read n c) by done. by rewrite bool_decide_eq_true_2. }
  pose proof (text_read f name v c Hp Hc Hn) as Ht. destruct (decide (name = "year"%string)) as [->|Hy]; [|destruct (decide (name = "track_number"%string)) as [->|Hk]].
  - assert (Hyear : year (_mapped_sources other_digit f get) = normalize_year_text other_digit v).
    { unfold _mapped_sources. cbn [year]. rewrite Hs. destruct v; try done; try by rewrite Ht. by destruct Hp. }
    destruct v; try done; unfold verify_field, _verify_semantic_field; rewrite Hyear; by rewrite bool_decide_eq_true_2.
  - assert (Htrack : track_number (_mapped_sources other_digit f get) = normalize_track_number_text other_digit v).
    { unfold _mapped_sources. cbn [track_number]. rewrite Hs. rewrite (bool_decide_eq_false_2 (f = MP4)) by congruence.
      destruct v; try done; try by rewrite Ht. by destruct Hp. }
    destruct v; try done; unfold verify_field, _verify_semantic_field; rewrite Htrack; by rewrite bool_decide_eq_true_2.
  - destruct v as [|n|t|l]; [done| | |].
    + rewrite verify_text, field_of_text, Hs, Ht by done. unfold _verify_nfc_field. by rewrite bool_decide_eq_true_2.
    + rewrite verify_text, field_of_text, Hs, Ht by done. unfold _verify_nfc_field. by rewrite bool_decide_eq_true_2.
    + destruct Hp as [-> Hl]. injection Hc as <-. unfold verify_field, _verify_genre_list_field, _mapped_sources. cbn [raw_genre]. rewrite Hs. cbn [mbind option_bind _raw_genre_value].
      assert (Hm : sanitize_pg_text <$> l = l) by (clear -Hl; induction Hl as [|t l Ht _ IH]; simpl; [done|f_equal; [exact Ht|exact IH]]).
      unfold _raw_genre_value. rewrite Hm, bool_decide_eq_true_2; [done|]. by destruct l as [|t [|t' l]].
Qed.

(** A clean write that saves is confirmed.  The readers find every field where the
    writers of its family put it: values that need no repair, once saved, come back
    from the verification as written, and the write is recorded completed. *)
Theorem clean_write_completes d ts f s d' :
  fields_ok ts -> written_format d = Some f -> Forall (fun kv => plain_value f kv.1 kv.2) ts ->
  (forall name v c, (name, v) ∈ ts -> cell_of f name v = Some (Some c) -> faithful (key_of f name) c) ->
  _extract_before_tags other_digit d = Ok s -> write_tags other_digit other_isdigit d ts = Saved d' ->
  write_and_verify_sync other_digit other_isdigit nfc d ts = (d', Result COMPLETED (Some []) None s).
Proof using MutagenLaws0.
  intros Hts Hf Hp Hfaith Hs Hw. unfold write_and_verify_sync. rewrite Hs, Hw. unfold verify_write.
  destruct (write_reads other_digit other_isdigit faithful d ts d' Hts Hw) as (f' & a & Hf' & Hread & Hcells). assert (f' = f) as -> by congruence.
  rewrite Hread. assert (omap (fun kv => pair kv.1 <$> verify_field other_digit nfc (_mapped_sources other_digit f (look a)) kv.1 kv.2) ts = []) as ->; [|done].
  apply elem_of_nil_inv. intros x ([name v] & Hin & Hx)%list_elem_of_omap. simpl in Hx.
  destruct (Hcells name v Hin) as (c & Hc & Hl). rewrite Forall_forall in Hp. pose proof (Hp _ Hin) as Hpv. destruct Hts as [_ Hcore]. rewrite Forall_forall in Hcore.
  rewrite (confirmed f (look a) name v c) in Hx; [done|apply (Hcore _ Hin)|done|done|]. destruct c as [c|]; [apply Hl; eauto|done].
Qed.
End confirm.

(** ** Examples *)

(** A mutagen whose file is its family and its frames. *)
Definition demo_file : Type := TagFormat * list (text * cell).
#[export] Instance demo_mutagen : Mutagen demo_file demo_file := {
  mutagen_File d := Ok (Some d);
  has_tags _ := true;
  add_tags a := Ok a;
  tags_is_ID3 a := bool_decide (a.1 = ID3);
  audio_is_MP4 a := bool_decide (a.1 = MP4);
  audio_is_ASF a := bool_decide (a.1 = ASF);
  tags_is_VCommentDict a := bool_decide (a.1 = VORBIS);
  tag_get a k := dict_get k a.2;
  tag_put k c a := (a.1, match c with Texts [] => [] | c => [(k, c)] end ++ List.filter (fun p => negb (bool_decide (p.1 = k))) a.2);
  tag_del k a := (a.1, List.filter (fun p => negb (bool_decide (p.1 = k))) a.2);
  mutagen_save a _ := (a, None);
}.

Lemma dict_get_filter (k k' : text) (l : list (text * cell)) :
  dict_get k' (List.filter (fun p => negb (bool_decide (p.1 = k))) l) = if decide (k = k') then None else dict_get k' l.
Proof.
  induction l as [|[k0 c] l IH]; simpl; [by destruct (decide _)|]. case_bool_decide; simpl; [subst; rewrite IH; repeat case_decide; by subst|].
  destruct (decide (k' = k0)) as [->|]; [by rewrite decide_False by done|]. by rewrite IH.
Qed.

Definition nonempty (_ : text) (c : cell) : Prop := c <> Texts [].
#[export] Instance demo_laws : MutagenLaws nonempty.
Proof.
  split; try done.
  - intros a f k c _ _ Hc. unfold nonempty in Hc. simpl. destruct c as [[|t l]|l]; simpl; [done|by rewrite decide_True..].
  - intros a f k c k' _ _ _ Hne. simpl. assert (Hd : dict_get k' (List.filter (fun p => negb (bool_decide (p.1 = k))) a.2) = dict_get k' a.2)
      by (rewrite dict_get_filter; by rewrite decide_False).
    destruct c as [[|t l]|l]; simpl; rewrite ?Hd, ?decide_False by done; done.
  - intros a f k _ _. simpl. rewrite dict_get_filter. by rewrite decide_True.
  - intros a f k k' _ _ _ Hne. simpl. rewrite dict_get_filter. by rewrite decide_False.
  - intros a f d d' _ Hf [= <-]. exists a. split_and!; try done. intros k _. simpl. by destruct (dict_get k a.2).
Qed.

Lemma no_empty_list od oi f (ts : tags) : Forall (fun kv => kv.2 <> VList []) ts ->
  forall name v c, (name, v) ∈ ts -> cell_of od oi f name v = Some (Some c) -> nonempty (key_of f name) c.
Proof.
  intros H name v c Hin Hc ->. rewrite Forall_forall in H. specialize (H _ Hin). simpl in H.
  unfold cell_of in Hc. destruct v as [| | |[|x l]]; simpl in Hc; try done; destruct (_ && _); simpl in Hc; simplify_eq;
    match type of Hc with fmap _ ?o = _ => destruct o; discriminate end.
Qed.

Definition no_digit (c : Z) : option Z := None.
Definition no_isdigit (c : Z) : bool := false.
Definition demo_song : demo_file :=
  (VORBIS, [(lit "artist", Texts [lit "Sven"]); (lit "date", Texts [lit "2001-05-06"]); (lit "genre", Texts [lit "techno"; lit "house"]);
            (lit "tracknumber", Texts [lit "3/12"])]).
Definition demo_payload : tags := [("artist", VStr (lit "Sven V")); ("title", VStr (lit "Accident")); ("year", VInt 1992); ("track_number", VInt 4)]%string.
Definition saved (w : write_end (disk := demo_file)) : demo_file := match w with Saved d => d | _ => demo_song end.
Definition demo_written : demo_file := saved (write_tags no_digit no_isdigit demo_song demo_payload).
Definition demo_snapshot : tags := match _extract_before_tags no_digit demo_song with Ok s => s | Raise _ => [] end.
Definition demo_restored : demo_file := saved (write_tags no_digit no_isdigit demo_written demo_snapshot).

Lemma undo_restores_snapshot_witness :
  demo_snapshot = [("artist", VStr (lit "Sven")); ("title", VNone); ("album", VNone); ("year", VStr (lit "2001-05-06"));
                   ("genre", VList [lit "techno"; lit "house"]); ("track_number", VStr (lit "3/12"))]%string /\
  _extract_before_tags no_digit demo_written <> Ok demo_snapshot /\ _extract_before_tags no_digit demo_restored = Ok demo_snapshot.
Proof.
  split; [vm_compute; reflexivity|]. split; [vm_compute; discriminate|].
  apply (undo_restores_snapshot no_digit no_isdigit nonempty demo_song demo_song VORBIS demo_snapshot demo_written demo_restored).
  - reflexivity.
  - intros _. reflexivity.
  - intros name c Hn. unfold _CORE_TAG_FIELDS in Hn. repeat (apply elem_of_cons in Hn as [->|Hn]); [..|apply elem_of_nil in Hn; destruct Hn];
      intros E; vm_compute in E; try discriminate E; injection E as <-; first [vm_compute; reflexivity|vm_compute; split; [discriminate|reflexivity]].
  - vm_compute. reflexivity.
  - vm_compute. reflexivity.
  - apply no_empty_list. repeat constructor; discriminate.
  - vm_compute. reflexivity.
Defined.

Lemma clean_write_completes_witness :
  write_and_verify_sync no_digit no_isdigit id demo_song demo_payload = (demo_written, Result COMPLETED (Some []) None demo_snapshot).
Proof.
  apply (clean_write_completes no_digit no_isdigit id nonempty demo_song demo_payload VORBIS demo_snapshot demo_written).
  - split; [apply (bool_decide_unpack _); vm_compute; exact I|]. repeat constructor.
  - reflexivity.
  - repeat constructor; try (vm_compute; reflexivity); try discriminate; try (vm_compute; discriminate).
  - apply no_empty_list. repeat constructor; discriminate.
  - vm_compute. reflexivity.
  - vm_compute. reflexivity.
Defined.

(** What a snapshot does not keep: a second artist is gone after the undo. *)
Lemma second_artist_lost :
  let d := (VORBIS, [(lit "artist", Texts [lit "Sven"; lit "Ralf"])]) : demo_file in
  let s := match _extract_before_tags no_digit d with Ok s => s | Raise _ => [] end in
  let d1 := saved (write_tags no_digit no_isdigit d [("year", VInt 1992)]%string) in
  let d2 := saved (write_tags no_digit no_isdigit d1 s) in
  tag_get d1 (lit "artist") = Some (Texts [lit "Sven"; lit "Ralf"]) /\ tag_get d2 (lit "artist") = Some (Texts [lit "Sven"]).
Proof. split; vm_compute; reflexivity. Qed.
