(* ===== verification/TagWrite.v ===== *)
(** * The tag write protocol: controller, agent and undo

    [services/tag_writer.py], [routers/agent_tag_writes.py], [tasks/tag_write.py]
    and the undo side of [routers/tags.py], on the disk of TagDisk.v.  A request
    commits a queued [tag_write_log] row, then hands a job to the agent of the file.
    Any number of attempts run a job, at once or after one another; an attempt owns
    the file's lock from its open to the end of its report.  A message may be lost,
    late or delivered again; a process dies between or inside two steps.  A handler
    is one transaction: the row lock or the advisory lock it takes first makes it
    atomic.  The ghost field [touched] keeps the disk before a row's first write. *)
From S2P Require Import Prelude Selection CueText TextRepair TagDisk.
From stdpp Require Import gmap strings sorting options.
Local Open Scope Z_scope.

(** ** The controller's tables *)

Abbreviation discrepancy := (option text * option text)%type.

Record TagWriteLog : Type := Log {
  log_file : string;
  before_tags : tags;
  after_tags : tags;
  log_source : string;
  log_status : TagWriteStatus;
  discrepancies : option (list (string * discrepancy));
  error_message : option text;
  written_at : Z;
}.
#[export] Instance TagWriteStatus_eq_dec : EqDecision TagWriteStatus.
Proof. solve_decision. Defined.
#[export] Instance TagWriteLog_eq_dec : EqDecision TagWriteLog.
Proof. solve_decision. Defined.

Record db : Type := Db {
  logs : gmap string TagWriteLog;
  owner : gmap string string;
  sha256_hash : gmap string text;
  applied_files : gset string;
  ledger : gset string;
}.
Definition set_logs (m : gmap string TagWriteLog) (d : db) : db := Db m (owner d) (sha256_hash d) (applied_files d) (ledger d).
Definition set_ledger (l : gset string) (d : db) : db := Db (logs d) (owner d) (sha256_hash d) (applied_files d) l.

Definition with_status (st : TagWriteStatus) (e : option text) (r : TagWriteLog) : TagWriteLog :=
  Log (log_file r) (before_tags r) (after_tags r) (log_source r) st (discrepancies r) e (written_at r).

(** ** [enqueue_tag_write] *)

Inductive enqueue_error : Type := ValueError | TagWriteAlreadyQueuedError | IntegrityError.

Definition queued_row (file : string) (r : TagWriteLog) : bool := bool_decide (log_file r = file) && bool_decide (log_status r = QUEUED).
Definition already_queued (file : string) (d : db) : bool := existsb (fun p => queued_row file p.2) (map_to_list (logs d)).

(** Up to the commit of the queued row; [review_ok]: the reviewed sources are current. *)
Definition enqueue_decide (id file : string) (proposed : tags) (source : string) (review_ok : bool) (now : Z) (d : db) : outcome enqueue_error db :=
  if negb (bool_decide (file ∈ applied_files d)) then Raise ValueError
  else if already_queued file d then Raise TagWriteAlreadyQueuedError
  else if negb review_ok then Raise ValueError
  else if negb (bool_decide (is_Some (owner d !! file))) then Raise IntegrityError
  else Ok (set_logs (<[id := Log file [] proposed source QUEUED None None now]> (logs d)) d).

(** The hand-over to the broker.  [Handed]: the hook wrote the ledger row and a job
    exists, or may exist ([AmbiguousEnqueueError]); [NotHanded]: any other exception. *)
Inductive handover : Type := Handed | NotHanded (message : text).

Definition downgrade (id : string) (e : text) (d : db) : db := set_logs (alter (with_status FAILED (Some e)) id (logs d)) d.

(** ** The callbacks of the agent *)

Record TagWriteResultPayload : Type := ResultPayload {
  body_status : TagWriteStatus;
  body_before : tags;
  body_discrepancies : option (list (string * discrepancy));
  body_error : option text;
  body_sha256 : option text;
}.

Inductive http_error : Type := Http404 | Http403 | Http422.

(** The payloads' validator: nothing PostgreSQL cannot store. *)
Definition value_json (v : tag_value) : pyjson :=
  match v with VNone | VInt _ => PScalar | VStr t => PStr t | VList l => PList (PStr <$> l) end.
Definition _reject_pg_unsafe_json (ts : tags) : bool :=
  bool_decide (is_Some (find_pg_unsafe_json_reason (PDict ((fun p => (lit p.1, value_json p.2)) <$> ts)))).

Definition unsafe_discrepancies (l : option (list (string * discrepancy))) : bool :=
  let side t := match t with Some t => PStr t | None => PScalar end in
  match l with
  | Some l => bool_decide (is_Some (find_pg_unsafe_json_reason
                (PDict ((fun p => (lit p.1, PDict [(lit "expected", side p.2.1); (lit "actual", side p.2.2)])) <$> l))))
  | None => false
  end.

Definition _require_file_owner (file agent : string) (d : db) : outcome http_error unit :=
  match owner d !! file with
  | None => Raise Http404
  | Some a => if bool_decide (a = agent) then Ok tt else Raise Http403
  end.

(** [clear_ledger_entry] without [from_running_job]: a queued or an active job of the
    key keeps its row. *)
Definition clear_ledger_entry (id : string) (blocking : bool) (d : db) : db := if blocking then d else set_ledger (ledger d ∖ {[id]}) d.

Definition _ERROR_MESSAGE_MAX : nat := 2000.

Definition settle (r : TagWriteLog) (body : TagWriteResultPayload) : TagWriteLog :=
  Log (log_file r) (match before_tags r with [] => body_before body | b => b end) (after_tags r) (log_source r) (body_status body)
    (match body_discrepancies body with Some [] => None | x => x end)
    (match body_error body with Some (_ :: _ as e) => Some (take _ERROR_MESSAGE_MAX (sanitize_pg_text e)) | _ => None end) (written_at r).

(** The answer's [applied] and the tables. *)
Definition patch_tag_write (agent id : string) (blocking : bool) (body : TagWriteResultPayload) (d : db) : outcome http_error (bool * db) :=
  if _reject_pg_unsafe_json (body_before body) || unsafe_discrepancies (body_discrepancies body) || bool_decide (body_status body = QUEUED) then Raise Http422
  else match logs d !! id with
  | None => Raise Http404
  | Some r =>
      match _require_file_owner (log_file r) agent d with
      | Raise e => Raise e
      | Ok _ =>
          if negb (bool_decide (log_status r = QUEUED)) then Ok (false, d)
          else
            let d1 := set_logs (<[id := settle r body]> (logs d)) d in
            let d2 := match body_sha256 body with
                      | Some h => Db (logs d1) (owner d1) (<[log_file r := h]> (sha256_hash d1)) (applied_files d1) (ledger d1)
                      | None => d1
                      end in
            Ok (true, clear_ledger_entry id blocking d2)
      end
  end.

(** The answer's status and the tables; the first snapshot wins. *)
Definition record_tag_write_before_snapshot (agent id : string) (before : tags) (d : db) : outcome http_error (TagWriteStatus * db) :=
  if _reject_pg_unsafe_json before then Raise Http422
  else match logs d !! id with
  | None => Raise Http404
  | Some r =>
      match _require_file_owner (log_file r) agent d with
      | Raise e => Raise e
      | Ok _ =>
          if negb (bool_decide (log_status r = QUEUED)) || negb (bool_decide (before_tags r = [])) then Ok (log_status r, d)
          else Ok (QUEUED, set_logs (<[id := Log (log_file r) before (after_tags r) (log_source r) (log_status r) (discrepancies r)
                                                  (error_message r) (written_at r)]> (logs d)) d)
      end
  end.

(** ** Undo *)

(** Newest first: [written_at], then the id. *)
Definition newer (a b : string * TagWriteLog) : bool :=
  (written_at b.2 <? written_at a.2) || ((written_at a.2 =? written_at b.2) && bool_decide (String.compare b.1 a.1 = Lt)).
Fixpoint pick (best : string * TagWriteLog -> string * TagWriteLog -> bool) (l : list (string * TagWriteLog)) : option (string * TagWriteLog) :=
  match l with
  | [] => None
  | p :: l => match pick best l with Some q => Some (if best q p then q else p) | None => Some p end
  end.
Definition rows_of (file : string) (d : db) : list (string * TagWriteLog) := List.filter (fun p => bool_decide (log_file p.2 = file)) (map_to_list (logs d)).

Definition is_undo (r : TagWriteLog) : bool := bool_decide (log_source r = "undo"%string).
Definition _UNDOABLE_TAGWRITE_STATUSES : list TagWriteStatus := [COMPLETED; DISCREPANCY; VERIFY_FAILED; SAVE_FAILED].
Definition undoable (r : TagWriteLog) : bool := bool_decide (log_status r ∈ _UNDOABLE_TAGWRITE_STATUSES) && negb (is_undo r).
Definition completed_undo (r : TagWriteLog) : bool := is_undo r && bool_decide (log_status r = COMPLETED).

Definition _get_latest_write_log (file : string) (d : db) : option (string * TagWriteLog) := pick newer (rows_of file d).
Definition boundary (file : string) (d : db) : option (string * TagWriteLog) := pick newer (List.filter (fun p => completed_undo p.2) (rows_of file d)).
Definition after_boundary (b : option (string * TagWriteLog)) (p : string * TagWriteLog) : bool := match b with Some q => newer p q | None => true end.
Definition _get_write_log_to_undo (file : string) (d : db) : option (string * TagWriteLog) :=
  pick (fun a b => newer b a) (List.filter (fun p => undoable p.2 && after_boundary (boundary file d) p) (rows_of file d)).

Definition _already_reverted (file : string) (d : db) : bool :=
  match _get_latest_write_log file d with
  | Some (_, r) => is_undo r && bool_decide (log_status r ∈ [COMPLETED; QUEUED])
  | None => false
  end.

Inductive undo_answer : Type := NoSuchFile | AlreadyReverted | NothingToUndo | Refused (e : enqueue_error) | Dispatched (target : string) (d : db).

(** Up to the commit of the queued row, when nothing else commits in between. *)
Definition undo_tag_write (id file : string) (now : Z) (d : db) : undo_answer :=
  if negb (bool_decide (is_Some (owner d !! file))) then NoSuchFile
  else if _already_reverted file d then AlreadyReverted
  else match _get_write_log_to_undo file d with
  | None => NothingToUndo
  | Some (target, r) =>
      match enqueue_decide id file (before_tags r) "undo" true now d with Ok d => Dispatched target d | Raise e => Refused e end
  end.

(** [_terminal_tagwrite_subq]: a forward write that ended, or a marker, and no completed undo after it. *)
Definition forward_terminal (r : TagWriteLog) : bool :=
  bool_decide (log_status r = NO_OP) || (bool_decide (log_status r = COMPLETED) && negb (is_undo r)).
Definition _has_terminal_tagwrite (file : string) (d : db) : bool :=
  existsb (fun p => forward_terminal p.2 && negb (existsb (fun q => completed_undo q.2 && newer q p) (rows_of file d))) (rows_of file d).

(** ** The agent: [write_file_tags] *)

Section agent.
Context {disk audio : Type} `{!Mutagen disk audio}.
Context (other_digit : Z -> option Z) (other_isdigit : Z -> bool) (nfc : text -> text) (digest : disk -> option text).

Record Job : Type := WriteFileTagsPayload { job_log : string; job_file : string; job_agent : string; job_tags : tags }.

(** Where an attempt stands.  From [Owned] on it holds the lock of the file, save
    when [Settling false]: it reports without having opened the file. *)
Inductive step : Type :=
| Started
| Waiting                                                   (* open, not the owner of the lock *)
| Owned
| Reporting (before : tags)                                 (* the snapshot is sent until it is answered *)
| Acknowledged                                              (* the snapshot is durable: the write may begin *)
| Settling (locked : bool) (body : TagWriteResultPayload).  (* the result is sent until it is answered *)

Record Attempt : Type := Try { attempt_job : Job; attempt_step : step }.

Inductive message : Type := Snapshot (attempt : nat) (job : Job) (before : tags) | Result (attempt : nat) (job : Job) (body : TagWriteResultPayload).
Definition sender (m : message) : nat := match m with Snapshot a _ _ | Result a _ _ => a end.
Definition job_of (m : message) : Job := match m with Snapshot _ j _ | Result _ j _ => j end.

Record sys : Type := Sys {
  tables : db;
  disks : gmap string disk;
  lock : gmap string nat;
  pending : gset string;        (* rows committed, not handed over *)
  jobs : gmap string Job;       (* by log id; a job here may run at any time *)
  attempts : gmap nat Attempt;
  net : list message;
  touched : gmap string disk;
}.

Definition on_tables (d : db) (s : sys) : sys := Sys d (disks s) (lock s) (pending s) (jobs s) (attempts s) (net s) (touched s).
Definition on_attempts (m : gmap nat Attempt) (s : sys) : sys := Sys (tables s) (disks s) (lock s) (pending s) (jobs s) m (net s) (touched s).
Definition at_step (a : nat) (j : Job) (st : step) (s : sys) : sys := on_attempts (<[a := Try j st]> (attempts s)) s.

(** An attempt ends: its lock is free again. *)
Definition finish (a : nat) (s : sys) : sys :=
  Sys (tables s) (disks s) (base.filter (fun p => p.2 <> a) (lock s)) (pending s) (jobs s) (delete a (attempts s)) (net s) (touched s).

Definition failed_result (e : text) (h : option text) : TagWriteResultPayload := ResultPayload FAILED [] None (Some e) h.

(** The snapshot of [_write_file_tags_owned], or the failure it reports. *)
Definition snapshot_step (d : disk) : step :=
  match _extract_before_tags other_digit d with
  | Ok [] => Settling true (failed_result (lit "pre-write snapshot failed: empty pre-write snapshot") (digest d))
  | Ok before => Reporting before
  | Raise e => Settling true (failed_result (lit "pre-write snapshot failed: " ++ TagDisk.message e) (digest d))
  end.

(** [_write_verify_and_rehash] and the payload of its result. *)
Definition write_step (d : disk) (ts : tags) : disk * TagWriteResultPayload :=
  let (d', r) := write_and_verify_sync other_digit other_isdigit nfc d ts in
  (d', ResultPayload (result_status r) (result_before r) (match result_discrepancies r with Some [] => None | x => x end)
         (match result_error r with Some (_ :: _ as e) => Some (take _ERROR_MESSAGE_MAX e) | _ => None end) (digest d')).

(** The disk before the first write of a row. *)
Definition touch (id : string) (d : disk) (m : gmap string disk) : gmap string disk := if decide (is_Some (m !! id)) then m else <[id := d]> m.

(** ** What happens *)

Inductive event : Type :=
| Request (id file : string) (proposed : tags) (source : string) (review_ok : bool) (now : Z)
| HandOver (id : string) (fate : handover)
| Lost (id : string)                            (* the request dies before the hand-over *)
| Start (a : nat) (id : string) (contained : bool)
| Open (a : nat) (opens : bool)
| Acquire (a : nat)
| Extract (a : nat)
| Send (a : nat)
| Deliver (n : nat) (answered queued : bool)    (* the [n]th message; another job of the key is queued *)
| Write (a : nat)
| Torn (a : nat) (half : disk)                  (* the process dies inside the save *)
| Die (a : nat).

Definition deliver (m : message) (answered queued : bool) (s : sys) : sys :=
  let j := job_of m in
  let running := existsb (fun p => bool_decide (job_log (attempt_job p.2) = job_log j)) (map_to_list (attempts s)) in
  match m with
  | Snapshot a _ before =>
      match record_tag_write_before_snapshot (job_agent j) (job_log j) before (tables s) with
      | Raise _ => s
      | Ok (st, d) =>
          let s := on_tables d s in
          match attempts s !! a with
          | Some (Try j' (Reporting before')) =>
              if answered && bool_decide (job_log j' = job_log j) && bool_decide (before' = before)
              then if bool_decide (st = QUEUED) then at_step a j' Acknowledged s else finish a s
              else s
          | _ => s
          end
      end
  | Result a _ body =>
      match patch_tag_write (job_agent j) (job_log j) (running || queued) body (tables s) with
      | Raise _ => s
      | Ok (_, d) =>
          let s := on_tables d s in
          match attempts s !! a with
          | Some (Try j' (Settling _ _)) => if answered && bool_decide (job_log j' = job_log j) then finish a s else s
          | _ => s
          end
      end
  end.

Definition exec (ev : event) (s : sys) : sys :=
  match ev with
  | Request id file proposed source review_ok now =>
      match logs (tables s) !! id, enqueue_decide id file proposed source review_ok now (tables s) with
      | None, Ok d => Sys d (disks s) (lock s) (pending s ∪ {[id]}) (jobs s) (attempts s) (net s) (touched s)
      | _, _ => s
      end
  | HandOver id fate =>
      match decide (id ∈ pending s), logs (tables s) !! id with
      | left _, Some r =>
          match fate, owner (tables s) !! log_file r with
          | Handed, Some agent =>
              Sys (set_ledger (ledger (tables s) ∪ {[id]}) (tables s)) (disks s) (lock s) (pending s ∖ {[id]})
                (<[id := WriteFileTagsPayload id (log_file r) agent (after_tags r)]> (jobs s)) (attempts s) (net s) (touched s)
          | NotHanded e, _ => Sys (downgrade id e (tables s)) (disks s) (lock s) (pending s ∖ {[id]}) (jobs s) (attempts s) (net s) (touched s)
          | _, _ => s
          end
      | _, _ => s
      end
  | Lost id => Sys (tables s) (disks s) (lock s) (pending s ∖ {[id]}) (jobs s) (attempts s) (net s) (touched s)
  | Start a id contained =>
      match attempts s !! a, jobs s !! id with
      | None, Some j =>
          if existsb (fun m => bool_decide (sender m = a)) (net s) then s
          else at_step a j (if contained then Started else Settling false (failed_result (lit "path escapes scan_roots") None)) s
      | _, _ => s
      end
  | Open a opens =>
      match attempts s !! a with
      | Some (Try j Started) => at_step a j (if opens then Waiting else Settling false (failed_result (lit "pre-write snapshot failed") None)) s
      | _ => s
      end
  | Acquire a =>
      match attempts s !! a with
      | Some (Try j Waiting) =>
          match lock s !! job_file j with
          | None => let s := at_step a j Owned s in
                    Sys (tables s) (disks s) (<[job_file j := a]> (lock s)) (pending s) (jobs s) (attempts s) (net s) (touched s)
          | Some _ => s
          end
      | _ => s
      end
  | Extract a =>
      match attempts s !! a with
      | Some (Try j Owned) => match disks s !! job_file j with Some d => at_step a j (snapshot_step d) s | None => s end
      | _ => s
      end
  | Send a =>
      match attempts s !! a with
      | Some (Try j (Reporting before)) => Sys (tables s) (disks s) (lock s) (pending s) (jobs s) (attempts s) (Snapshot a j before :: net s) (touched s)
      | Some (Try j (Settling _ body)) => Sys (tables s) (disks s) (lock s) (pending s) (jobs s) (attempts s) (Result a j body :: net s) (touched s)
      | _ => s
      end
  | Deliver n answered queued => match net s !! n with Some m => deliver m answered queued s | None => s end
  | Write a =>
      match attempts s !! a with
      | Some (Try j Acknowledged) =>
          match disks s !! job_file j with
          | Some d =>
              let (d', body) := write_step d (job_tags j) in
              let s := at_step a j (Settling true body) s in
              Sys (tables s) (<[job_file j := d']> (disks s)) (lock s) (pending s) (jobs s) (attempts s) (net s) (touch (job_log j) d (touched s))
          | None => s
          end
      | _ => s
      end
  | Torn a half =>
      match attempts s !! a with
      | Some (Try j Acknowledged) =>
          match disks s !! job_file j with
          | Some d =>
              let s := finish a s in
              Sys (tables s) (<[job_file j := half]> (disks s)) (lock s) (pending s) (jobs s) (attempts s) (net s) (touch (job_log j) d (touched s))
          | None => s
          end
      | _ => s
      end
  | Die a => finish a s
  end.

Definition run (evs : list event) (s : sys) : sys := fold_left (fun s ev => exec ev s) evs s.

(** Nothing has been asked for yet. *)
Definition initial (s : sys) : Prop :=
  logs (tables s) = ∅ /\ ledger (tables s) = ∅ /\ lock s = ∅ /\ pending s = ∅ /\ jobs s = ∅ /\ attempts s = ∅ /\ net s = [] /\ touched s = ∅.
End agent.

(** ** Which write an undo reverts *)

Definition row_of (file : string) (d : db) (p : string * TagWriteLog) : Prop := logs d !! p.1 = Some p.2 /\ log_file p.2 = file.

Lemma rows_of_spec file d p : In p (rows_of file d) <-> row_of file d p.
Proof.
  unfold rows_of, row_of. rewrite filter_In, <- list_elem_of_In, bool_decide_eq_true. destruct p as [id r]. by rewrite elem_of_map_to_list.
Qed.

Lemma newer_spec a b : newer a b = true <-> written_at b.2 < written_at a.2 \/ (written_at a.2 = written_at b.2 /\ String.compare b.1 a.1 = Lt).
Proof. unfold newer. rewrite orb_true_iff, andb_true_iff, Z.ltb_lt, Z.eqb_eq, bool_decide_eq_true. done. Qed.

Lemma newer_trans a b c : newer a b = true -> newer b c = true -> newer a c = true.
Proof.
  rewrite !newer_spec. intros [H|[H Hs]] [H'|[H' Hs']]; try (left; lia). right. split; [lia|]. by eapply string_compare_trans_Lt.
Qed.

Lemma newer_total a b : a.1 <> b.1 -> newer a b = false -> newer b a = true.
Proof.
  intros Hne H. apply not_true_iff_false in H. rewrite newer_spec in *. destruct (Z.lt_trichotomy (written_at a.2) (written_at b.2)) as [|[E|]]; [by left| |tauto].
  right. split; [done|]. destruct (String.compare a.1 b.1) eqn:C; [by apply String.compare_eq_iff in C|done|].
  exfalso. apply H. right. split; [done|]. by rewrite String.compare_antisym, C.
Qed.

Lemma newer_irrefl a : newer a a = false.
Proof.
  apply not_true_iff_false. rewrite newer_spec. intros [|[_ H]]; [lia|]. pose proof (String.compare_antisym a.1 a.1) as E. by rewrite H in E.
Qed.

(** [pick] finds the best of its list, for any order that is total on it. *)
Lemma pick_spec best l : (forall a b c, best a b = true -> best b c = true -> best a c = true) ->
  (forall a b, In a l -> In b l -> a <> b -> best a b = false -> best b a = true) ->
  match pick best l with
  | Some q => In q l /\ forall p, In p l -> p <> q -> best q p = true
  | None => l = []
  end.
Proof.
  intros Ht. induction l as [|p l IH]; intros Htot; simpl; [done|]. specialize (IH ltac:(intros; apply Htot; simpl; tauto)).
  destruct (pick best l) as [q|]; [|subst l; split; [by left|]; by intros p' [->|[]]].
  destruct IH as [Hq Hall]. destruct (best q p) eqn:E.
  - split; [by right|]. intros p' [->|Hp'] Hne; [done|by apply Hall].
  - split; [by left|]. intros p' [->|Hp'] Hne; [done|]. destruct (decide (p = q)) as [->|Hpq]; [by apply Hall|].
    assert (best p q = true) by (apply Htot; [by right|by left|done|done]).
    destruct (decide (p' = q)) as [->|Hpq']; [done|]. apply (Ht _ q); [done|by apply Hall].
Qed.

Lemma best_row (best : string * TagWriteLog -> string * TagWriteLog -> bool) f file d :
  (forall a b c, best a b = true -> best b c = true -> best a c = true) -> (forall a b, a.1 <> b.1 -> best a b = false -> best b a = true) ->
  match pick best (List.filter f (rows_of file d)) with
  | Some q => row_of file d q /\ f q = true /\ forall p, row_of file d p -> f p = true -> p <> q -> best q p = true
  | None => forall p, row_of file d p -> f p = false
  end.
Proof.
  intros Ht Htot. pose proof (pick_spec best (List.filter f (rows_of file d)) Ht) as H.
  assert (Hin : forall p, In p (List.filter f (rows_of file d)) <-> row_of file d p /\ f p = true) by (intros p; by rewrite filter_In, rows_of_spec).
  destruct (pick best _) as [q|].
  - destruct H as [[Hq Hf]%Hin Hall].
    { intros a b [[Ha _] _]%Hin [[Hb _] _]%Hin Hne. apply Htot. intros E. apply Hne. destruct a, b; simpl in *. congruence. }
    split; [done|]. split; [done|]. intros p Hp Hfp. by apply Hall, Hin.
  - intros p Hp. apply not_true_iff_false. intros Hf. assert (Hp' : In p (List.filter f (rows_of file d))) by by apply Hin.
    rewrite H in Hp'; [done|]. intros a b [[Ha _] _]%Hin [[Hb _] _]%Hin Hne. apply Htot. intros E. apply Hne. destruct a, b; simpl in *. congruence.
Qed.

Lemma boundary_spec file d :
  match boundary file d with
  | Some q => row_of file d q /\ completed_undo q.2 = true /\ forall p, row_of file d p -> completed_undo p.2 = true -> p <> q -> newer q p = true
  | None => forall p, row_of file d p -> completed_undo p.2 = false
  end.
Proof. apply (best_row newer (fun p => completed_undo p.2)); [apply newer_trans|apply newer_total]. Qed.

Lemma undoable_no_undo r : undoable r = true -> completed_undo r = true -> False.
Proof. unfold undoable, completed_undo. destruct (is_undo r); [by rewrite andb_false_r|done]. Qed.

Lemma target_spec file d :
  match _get_write_log_to_undo file d with
  | Some q => row_of file d q /\ (undoable q.2 && after_boundary (boundary file d) q) = true /\
      forall p, row_of file d p -> (undoable p.2 && after_boundary (boundary file d) p) = true -> p <> q -> newer p q = true
  | None => forall p, row_of file d p -> (undoable p.2 && after_boundary (boundary file d) p) = false
  end.
Proof.
  apply (best_row (fun a b => newer b a)); [intros a b c H H'; by eapply newer_trans|].
  intros a b Hne. apply newer_total. congruence.
Qed.

Lemma undo_dispatched new file now d target t :
  undo_tag_write new file now d = Dispatched target t ->
  exists r, logs d !! target = Some r /\ log_file r = file /\ t = set_logs (<[new := Log file [] (before_tags r) "undo"%string QUEUED None None now]> (logs d)) d.
Proof.
  unfold undo_tag_write. destruct (negb _); [done|]. destruct (_already_reverted _ _); [done|]. pose proof (target_spec file d) as H.
  destruct (_get_write_log_to_undo file d) as [[id r]|]; [|done]. destruct H as [[Hr Hf] _]. unfold enqueue_decide.
  destruct (negb _); [done|]. destruct (already_queued file d); [done|]. simpl. destruct (negb _); [done|]. intros [= <- <-]. by exists r.
Qed.

(** The writes of a file since its last completed undo, replayed from its rows, the
    oldest first: a completed undo ends the chain, a write of any status that may
    have saved extends it, every other row is passed over. *)
Definition replay_row (chain : list (string * TagWriteLog)) (p : string * TagWriteLog) : list (string * TagWriteLog) :=
  if bool_decide (log_source p.2 = "undo"%string) then match log_status p.2 with COMPLETED => [] | _ => chain end
  else match log_status p.2 with COMPLETED | DISCREPANCY | VERIFY_FAILED | SAVE_FAILED => chain ++ [p] | _ => chain end.
Definition current_chain (l : list (string * TagWriteLog)) : list (string * TagWriteLog) := foldl replay_row [] l.
Definition older (a b : string * TagWriteLog) : Prop := newer b a = true.

Lemma replay_row_spec chain p :
  replay_row chain p = if completed_undo p.2 then [] else if undoable p.2 then chain ++ [p] else chain.
Proof.
  unfold replay_row, completed_undo, undoable, is_undo, _UNDOABLE_TAGWRITE_STATUSES.
  case_bool_decide; destruct (log_status p.2); simpl; rewrite ?andb_false_r, ?andb_true_r; try done.
Qed.

Lemma current_chain_spec l : StronglySorted older l ->
  StronglySorted older (current_chain l) /\
  forall p, p ∈ current_chain l <-> p ∈ l /\ undoable p.2 = true /\ forall u, u ∈ l -> completed_undo u.2 = true -> newer p u = true.
Proof.
  induction l as [|r l IH] using rev_ind; intros Hs.
  { split; [constructor|]. intros p. split; [by intros ?%elem_of_nil|by intros [?%elem_of_nil _]]. }
  apply StronglySorted_app in Hs as (Hlast & Hs & _). destruct (IH Hs) as [Hc Hin].
  assert (Hr : forall p, p ∈ l -> newer r p = true) by (intros p Hp; apply (Hlast p r Hp); by apply list_elem_of_singleton).
  unfold current_chain in *. rewrite foldl_app. simpl. rewrite replay_row_spec. destruct (completed_undo r.2) eqn:Eu.
  - split; [constructor|]. intros p. split; [by intros ?%elem_of_nil|]. intros (Hp & Hup & Hall). exfalso.
    assert (Hpr : newer p r = true) by (apply Hall; [apply elem_of_app; right; by apply list_elem_of_singleton|done]).
    apply elem_of_app in Hp as [Hp| ->%list_elem_of_singleton]; [|by apply (undoable_no_undo r.2)].
    pose proof (newer_trans _ _ _ Hpr (Hr p Hp)) as H. by rewrite newer_irrefl in H.
  - assert (Hu : forall p, (forall u, u ∈ l ++ [r] -> completed_undo u.2 = true -> newer p u = true) <-> (forall u, u ∈ l -> completed_undo u.2 = true -> newer p u = true)).
    { intros p. split; intros H u Hm Hcu; [apply H; [apply elem_of_app; by left|done]|].
      apply elem_of_app in Hm as [Hm| ->%list_elem_of_singleton]; [by apply H|congruence]. }
    destruct (undoable r.2) eqn:Er.
    + split.
      * apply StronglySorted_app. split_and!; [|done|repeat constructor]. intros x y Hx ->%list_elem_of_singleton. apply Hr. by apply Hin in Hx as [? _].
      * intros p. rewrite !elem_of_app, list_elem_of_singleton, Hin, Hu. split.
        -- intros [(? & ? & ?)| ->]; [split_and!; [by left|done|done]|]. split_and!; [by right|done|]. intros u Hm _. by apply Hr.
        -- intros ([Hp|Hp] & ? & ?); [left; by split_and!|by right].
    + split; [done|]. intros p. rewrite Hin, Hu, elem_of_app, list_elem_of_singleton. split; [intros (? & ? & ?); split_and!; [by left|done..]|].
      intros ([?| ->] & ? & ?); [by split_and!|congruence].
Qed.

Lemma target_in_chain file d l p : l ≡ₚ rows_of file d -> StronglySorted older l ->
  p ∈ current_chain l <-> row_of file d p /\ (undoable p.2 && after_boundary (boundary file d) p) = true.
Proof.
  intros Hp Hs. destruct (current_chain_spec l Hs) as [_ ->]. rewrite Hp, list_elem_of_In, rows_of_spec, andb_true_iff.
  pose proof (boundary_spec file d) as Hb. apply and_iff_compat_l. apply and_iff_compat_l. setoid_rewrite Hp. setoid_rewrite list_elem_of_In. setoid_rewrite rows_of_spec.
  unfold after_boundary. destruct (boundary file d) as [b|].
  - destruct Hb as (Hrow & Hcu & Hall). split; [intros H; by apply H|]. intros Hn u Hur Huc. destruct (decide (u = b)) as [->|Hne]; [done|].
    eapply newer_trans; [done|by apply Hall].
  - split; [done|]. intros _ u Hur Huc. by rewrite (Hb u Hur) in Huc.
Qed.

(** C17: an undo reverts the head of the current chain of writes.  The query, which looks
    for the oldest write above the newest completed undo, selects the first write of
    the chain that replaying the rows of the file in the order of their times and
    ids leaves, and nothing exactly when that chain is empty. *)
Theorem undo_reverts_chain_head file d l :
  l ≡ₚ rows_of file d -> StronglySorted older l ->
  _get_write_log_to_undo file d = head (current_chain l).
Proof.
  intros Hp Hs. pose proof (fun p => target_in_chain file d l p Hp Hs) as Hin. pose proof (proj1 (current_chain_spec l Hs)) as Hc.
  pose proof (target_spec file d) as H. destruct (_get_write_log_to_undo file d) as [q|].
  - destruct H as (Hq & Hb & Hall). assert (Hqin : q ∈ current_chain l) by by apply Hin. destruct (current_chain l) as [|x c]; [by apply elem_of_nil in Hqin|].
    simpl. f_equal. destruct (decide (x = q)) as [|Hne]; [done|]. exfalso. apply elem_of_cons in Hqin as [?|Hqc]; [done|].
    assert (Hx : x ∈ x :: c) by by left. apply Hin in Hx as [Hxr Hxb]. apply StronglySorted_inv in Hc as [_ Hc]. rewrite Forall_forall in Hc.
    pose proof (newer_trans _ _ _ (Hc q Hqc) (Hall x Hxr Hxb Hne)) as Hn. by rewrite newer_irrefl in Hn.
  - destruct (current_chain l) as [|x c]; [done|]. exfalso. assert (Hx : x ∈ x :: c) by by left. apply Hin in Hx as [Hxr Hxb]. by rewrite (H x Hxr) in Hxb.
Qed.

(** A write, its retry, an undo of it, and a new write. *)
Definition demo_log (source : string) (s : TagWriteStatus) (at_ : Z) : TagWriteLog := Log "f" [] [] source s None None at_.
Definition demo_rows : list (string * TagWriteLog) :=
  [("a", demo_log "proposal" DISCREPANCY 1); ("b", demo_log "proposal" COMPLETED 2); ("c", demo_log "undo" COMPLETED 3);
   ("d", demo_log "proposal" FAILED 4); ("e", demo_log "proposal" SAVE_FAILED 5); ("f", demo_log "proposal" COMPLETED 6)]%string.
Definition demo_history : db := set_logs (list_to_map demo_rows) (Db ∅ ∅ ∅ ∅ ∅).

Lemma undo_reverts_chain_head_witness :
  _get_write_log_to_undo "f" demo_history = Some ("e"%string, demo_log "proposal" SAVE_FAILED 5).
Proof.
  rewrite (undo_reverts_chain_head "f" demo_history demo_rows); [reflexivity| |].
  - vm_compute. solve_Permutation.
  - repeat constructor.
Defined.

(** After a completed undo that is the newest row of its file, a second undo answers so
    and the file is offered for a write again. *)
Lemma reverted_is_idle file d p :
  row_of file d p -> completed_undo p.2 = true -> (forall q, row_of file d q -> q <> p -> newer p q = true) ->
  _already_reverted file d = true /\ _get_write_log_to_undo file d = None /\ _has_terminal_tagwrite file d = false.
Proof.
  intros Hp Hc Hnew. assert (Hno : forall q, row_of file d q -> newer q p = false).
  { intros q Hq. apply not_true_iff_false. intros H. destruct (decide (q = p)) as [->|Hne]; [by rewrite newer_irrefl in H|].
    pose proof (newer_trans _ _ _ H (Hnew q Hq Hne)) as E. by rewrite newer_irrefl in E. }
  assert (Hbnd : boundary file d = Some p).
  { pose proof (boundary_spec file d) as H. destruct (boundary file d) as [q|]; [|by rewrite (H p Hp) in Hc]. destruct H as (Hq & _ & Hall).
    destruct (decide (p = q)) as [->|Hne]; [done|]. specialize (Hall p Hp Hc Hne). by rewrite Hno in Hall. }
  split_and!.
  - unfold _already_reverted, _get_latest_write_log. pose proof (best_row newer (fun _ => true) file d newer_trans newer_total) as H.
    assert (E : List.filter (fun _ => true) (rows_of file d) = rows_of file d) by (clear; induction (rows_of file d) as [|x l IH]; [done|]; simpl; by rewrite IH).
    rewrite E in H. destruct (pick newer (rows_of file d)) as [[i r]|]; [|by specialize (H p Hp)]. destruct H as (Hq & _ & Hall).
    destruct (decide (p = (i, r))) as [->|Hne]; [|specialize (Hall p Hp eq_refl Hne); by rewrite Hno in Hall].
    unfold completed_undo in Hc. simpl in Hc. apply andb_true_iff in Hc as [-> Hs%bool_decide_eq_true]. rewrite Hs. done.
  - pose proof (target_spec file d) as H. rewrite Hbnd in H. simpl in H. destruct (_get_write_log_to_undo file d) as [q|]; [|done].
    destruct H as (Hq & H & _). by rewrite Hno, andb_false_r in H.
  - unfold _has_terminal_tagwrite. apply not_true_iff_false. intros (q & Hq & [Hf Hn]%andb_true_iff)%existsb_exists.
    apply negb_true_iff, not_true_iff_false in Hn. apply Hn, existsb_exists. exists p. split; [by apply rows_of_spec|]. rewrite Hc. simpl.
    apply rows_of_spec in Hq. apply Hnew; [done|]. intros ->. unfold forward_terminal, completed_undo in *.
    apply andb_true_iff in Hc as [Hu Hs%bool_decide_eq_true]. rewrite Hs, Hu in Hf. done.
Qed.

(** ** The invariant *)

Section invariant.
Context {disk audio : Type} `{!Mutagen disk audio}.
Context (other_digit : Z -> option Z) (other_isdigit : Z -> bool) (nfc : text -> text) (digest : disk -> option text).

Abbreviation system := (sys (disk := disk)).
Abbreviation happens := (exec other_digit other_isdigit nfc digest).
Abbreviation runs := (run other_digit other_isdigit nfc digest).
Abbreviation reads d b := (_extract_before_tags other_digit d = Ok b).

Definition holds (st : step) : bool :=
  match st with Owned | Reporting _ | Acknowledged => true | Settling locked _ => locked | Started | Waiting => false end.

(** The disk of the file reads as [b]. *)
Definition on_disk (s : system) (file : string) (b : tags) : Prop := exists d, disks s !! file = Some d /\ reads d b.

(** Row [id] may still be written: it is queued, or a write was acknowledged. *)
Definition live (s : system) (id : string) : Prop :=
  (exists r, logs (tables s) !! id = Some r /\ log_status r = QUEUED) \/
  (exists a j, attempts s !! a = Some (Try j Acknowledged) /\ job_log j = id).

Record Inv (s : system) : Prop := {
  one_queued : forall i i' r r', logs (tables s) !! i = Some r -> logs (tables s) !! i' = Some r' ->
    log_status r = QUEUED -> log_status r' = QUEUED -> log_file r = log_file r' -> i = i';
  pending_fresh : forall id, id ∈ pending s -> jobs s !! id = None /\ exists r, logs (tables s) !! id = Some r /\ log_status r = QUEUED /\ before_tags r = [];
  job_row : forall id j, jobs s !! id = Some j -> job_log j = id /\
    exists r, logs (tables s) !! id = Some r /\ log_file r = job_file j /\ after_tags r = job_tags j;
  attempt_runs : forall a j st, attempts s !! a = Some (Try j st) -> jobs s !! job_log j = Some j;
  message_sent : forall m, m ∈ net s -> jobs s !! job_log (job_of m) = Some (job_of m);
  owns_lock : forall a j st, attempts s !! a = Some (Try j st) -> holds st = true -> lock s !! job_file j = Some a;
  reporting_reads : forall a j b, attempts s !! a = Some (Try j (Reporting b)) -> b <> [] /\ on_disk s (job_file j) b;
  snapshot_reads : forall a j b r, Snapshot a j b ∈ net s -> b <> [] /\
    (logs (tables s) !! job_log j = Some r -> log_status r = QUEUED -> before_tags r = [] -> on_disk s (job_file j) b);
  captured_reads : forall id r, live s id -> logs (tables s) !! id = Some r -> before_tags r <> [] -> touched s !! id = None ->
    on_disk s (log_file r) (before_tags r);
  write_alone : forall a j, attempts s !! a = Some (Try j Acknowledged) ->
    (exists r, logs (tables s) !! job_log j = Some r /\ before_tags r <> []) /\
    forall id r, logs (tables s) !! id = Some r -> id <> job_log j -> log_file r = job_file j -> log_status r = QUEUED ->
      before_tags r = [] /\ forall a' j' b, Snapshot a' j' b ∈ net s -> job_log j' <> id;
  anchored : forall id d, touched s !! id = Some d -> exists r, logs (tables s) !! id = Some r /\ before_tags r <> [] /\ reads d (before_tags r);
}.

Lemma inv_initial s : initial s -> Inv s.
Proof.
  intros (Hl & Hg & Hk & Hp & Hj & Ha & Hn & Ht). split; rewrite ?Hl, ?Hk, ?Hp, ?Hj, ?Ha, ?Hn, ?Ht; intros *; rewrite ?lookup_empty; set_solver.
Qed.

(** Two attempts that hold the lock of one file are one. *)
Lemma holders_equal s a1 j1 st1 a2 j2 st2 : Inv s ->
  attempts s !! a1 = Some (Try j1 st1) -> attempts s !! a2 = Some (Try j2 st2) -> holds st1 = true -> holds st2 = true -> job_file j1 = job_file j2 -> a1 = a2.
Proof. intros H H1 H2 Hh1 Hh2 E. pose proof (owns_lock _ H _ _ _ H1 Hh1). pose proof (owns_lock _ H _ _ _ H2 Hh2). congruence. Qed.

Lemma job_of_row s id j r : Inv s -> jobs s !! id = Some j -> logs (tables s) !! id = Some r -> job_log j = id /\ log_file r = job_file j.
Proof. intros H Hj Hr. destruct (job_row _ H _ _ Hj) as (? & r' & Hr' & ? & _). rewrite Hr in Hr'. injection Hr' as <-. done. Qed.

(** *** Steps of an attempt *)

Lemma inv_at_step a j st s : Inv s ->
  jobs s !! job_log j = Some j -> st <> Acknowledged -> (holds st = true -> lock s !! job_file j = Some a) ->
  (forall b, st = Reporting b -> b <> [] /\ on_disk s (job_file j) b) -> Inv (at_step a j st s).
Proof.
  intros H Hj Hst Hl Hb. assert (Hlive : forall id, live (at_step a j st s) id -> live s id).
  { intros id [Hq|(b & j' & Hb' & Hid)]; [by left|]. simpl in Hb'. apply lookup_insert_Some in Hb' as [[_ [=]]|[Hne Hb']]; [done|]. right. eauto. }
  destruct H as [H1 H2 H3 H4 H5 H6 H7 H8 H9 H10 H11]. split; simpl; try done.
  - intros b j' st' [[<- [= <- <-]]|[Hne Hb']]%lookup_insert_Some; eauto.
  - intros b j' st' [[<- [= <- <-]]|[Hne Hb']]%lookup_insert_Some; eauto.
  - intros b j' b' [[<- [= <- ->]]|[Hne Hb']]%lookup_insert_Some; [by apply Hb|by eapply H7].
  - intros id r Hid%Hlive. by apply H9.
  - intros b j' [[<- [= <- ->]]|[Hne Hb']]%lookup_insert_Some; [done|eauto].
Qed.

Lemma inv_finish a s : Inv s -> Inv (finish a s).
Proof.
  intros [H1 H2 H3 H4 H5 H6 H7 H8 H9 H10 H11]. split; simpl; try done.
  - intros b j st [Hne Hb]%lookup_delete_Some. eauto.
  - intros b j st [Hne Hb]%lookup_delete_Some Hh. apply map_lookup_filter_Some. split; [by eapply H6|simpl; congruence].
  - intros b j b' [Hne Hb]%lookup_delete_Some. by eapply H7.
  - intros id r [Hq|(b & j & Hb & Hid)]; apply H9; [by left|]. simpl in Hb. apply lookup_delete_Some in Hb as [_ Hb]. right. eauto.
  - intros b j [Hne Hb]%lookup_delete_Some. eauto.
Qed.

Lemma inv_lock f a s : Inv s -> lock s !! f = None ->
  Inv (Sys (tables s) (disks s) (<[f := a]> (lock s)) (pending s) (jobs s) (attempts s) (net s) (touched s)).
Proof.
  intros [H1 H2 H3 H4 H5 H6 H7 H8 H9 H10 H11] Hf. split; simpl; try done.
  intros b j st Hb Hh. rewrite lookup_insert_ne; [by eapply H6|]. intros ->. rewrite (H6 _ _ _ Hb Hh) in Hf. done.
Qed.

Lemma inv_send m s : Inv s ->
  match m with
  | Snapshot a j b => attempts s !! a = Some (Try j (Reporting b))
  | Result a j body => exists l, attempts s !! a = Some (Try j (Settling l body))
  end ->
  Inv (Sys (tables s) (disks s) (lock s) (pending s) (jobs s) (attempts s) (m :: net s) (touched s)).
Proof.
  intros H Hm. pose proof H as [H1 H2 H3 H4 H5 H6 H7 H8 H9 H10 H11]. split; simpl; try done.
  - intros m' [->|Hin]%elem_of_cons; [|by apply H5]. destruct m; [by apply (H4 _ _ _ Hm)|destruct Hm as [l Hm]; by apply (H4 _ _ _ Hm)].
  - intros a j b r [Heq|Hin]%elem_of_cons; [|by apply (H8 a j b r)]. rewrite <- Heq in Hm. destruct (H7 _ _ _ Hm). done.
  - intros a j Ha. destruct (H10 _ _ Ha) as [Hr Ho]. split; [done|]. intros id r Hid Hne Hf Hq. destruct (Ho id r Hid Hne Hf Hq) as [Hb Hs]. split; [done|].
    intros a' j' b [Heq|Hin]%elem_of_cons; [|by eapply Hs]. rewrite <- Heq in Hm. intros Hj'. subst id.
    destruct (job_of_row s _ _ _ H (H4 _ _ _ Hm) Hid) as [_ Hf']. apply Hne.
    assert (a' = a) as -> by (eapply (holders_equal s a' j' _ a j); [done|exact Hm|exact Ha|done|done|congruence]). congruence.
Qed.

Lemma inv_acknowledge a j b r s : Inv s ->
  attempts s !! a = Some (Try j (Reporting b)) -> logs (tables s) !! job_log j = Some r -> log_status r = QUEUED -> before_tags r <> [] ->
  Inv (at_step a j Acknowledged s).
Proof.
  intros H Ha Hr Hq Hb. pose proof H as [H1 H2 H3 H4 H5 H6 H7 H8 H9 H10 H11]. split; simpl; try done.
  - intros b' j' st' [[<- [= <- <-]]|[Hne Hb']]%lookup_insert_Some; eauto.
  - intros b' j' st' [[<- [= <- <-]]|[Hne Hb']]%lookup_insert_Some Hh; [by eapply H6|by eapply H6].
  - intros b' j' b0 [[<- [=]]|[Hne Hb']]%lookup_insert_Some. by eapply H7.
  - intros id r' Hl. apply H9. destruct Hl as [Hl|(b' & j' & Hb' & Hid)]; [by left|]. simpl in Hb'.
    apply lookup_insert_Some in Hb' as [[<- [= <-]]|[Hne Hb']]; [left; subst id; eauto|right; eauto].
  - intros b' j' [[<- [= <-]]|[Hne Hb']]%lookup_insert_Some; [|by apply (H10 b')]. split; [eauto|].
    intros id r' Hid Hne Hf Hq'. exfalso. apply Hne. destruct (job_of_row s _ _ _ H (H4 _ _ _ Ha) Hr) as [_ Hfj]. eapply (H1 _ _ _ _ Hid Hr); congruence.
Qed.

(** A write, begun after its acknowledgement, whatever it leaves. *)
Lemma inv_written a j d d' s : Inv s ->
  attempts s !! a = Some (Try j Acknowledged) -> disks s !! job_file j = Some d ->
  Inv (Sys (tables s) (<[job_file j := d']> (disks s)) (lock s) (pending s) (jobs s) (delete a (attempts s)) (net s) (touch (job_log j) d (touched s))).
Proof.
  intros H Ha Hd. pose proof H as [H1 H2 H3 H4 H5 H6 H7 H8 H9 H10 H11]. destruct (H10 _ _ Ha) as [(r0 & Hr0 & Hb0) Hothers].
  assert (Hf0 : log_file r0 = job_file j) by (eapply job_of_row; [exact H|by apply (H4 _ _ _ Ha)|done]).
  assert (Hdisk : forall f b, f <> job_file j -> on_disk s f b ->
    on_disk (Sys (tables s) (<[job_file j := d']> (disks s)) (lock s) (pending s) (jobs s) (delete a (attempts s)) (net s) (touch (job_log j) d (touched s))) f b).
  { intros f b Hne (x & Hx & Hb). exists x. simpl. by rewrite lookup_insert_ne. }
  split; simpl; try done.
  - intros b j' st [Hne Hb]%lookup_delete_Some. eauto.
  - intros b j' st [Hne Hb]%lookup_delete_Some. by eapply H6.
  - intros b j' b' [Hne Hb]%lookup_delete_Some. destruct (H7 _ _ _ Hb) as [Hn Hr]. split; [done|]. apply Hdisk; [|done].
    intros E. apply Hne. by eapply (holders_equal s a j _ b j').
  - intros a' j' b r Hin. destruct (H8 a' j' b r Hin) as [Hn Hr]. split; [done|]. intros Hrow Hq Hb. apply Hdisk; [|by apply Hr].
    destruct (job_of_row s _ _ _ H (H5 _ Hin) Hrow) as [_ Hfr]. simpl in Hfr. intros E. destruct (decide (job_log j' = job_log j)) as [El|Hne].
    + rewrite El in Hrow. congruence.
    + destruct (Hothers _ _ Hrow Hne ltac:(congruence) Hq) as [_ Hs]. by apply (Hs _ _ _ Hin).
  - intros id r Hl Hrow Hb Ht. unfold touch in Ht. assert (Hid : id <> job_log j).
    { intros ->. destruct (decide (is_Some (touched s !! job_log j))) as [[x Hx]|_]; [congruence|by rewrite lookup_insert_eq in Ht]. }
    assert (Ht' : touched s !! id = None) by (destruct (decide _); [done|by rewrite lookup_insert_ne in Ht]).
    apply Hdisk.
    + intros E. destruct Hl as [(r' & Hr' & Hq)|(a' & j' & Ha' & Hj')].
      * simpl in Hr'. assert (r' = r) as -> by congruence. destruct (Hothers _ _ Hrow Hid E Hq) as [Hb' _]. done.
      * simpl in Ha'. apply lookup_delete_Some in Ha' as [Hne Ha']. apply Hne. subst id.
        destruct (job_of_row s _ _ _ H (H4 _ _ _ Ha') Hrow) as [_ Hf']. eapply (holders_equal s a j _ a' j'); [done|exact Ha|exact Ha'|done|done|congruence].
    + apply (H9 id r); try done. destruct Hl as [Hl|(a' & j' & Ha' & Hj')]; [by left|]. simpl in Ha'. apply lookup_delete_Some in Ha' as [_ Ha']. right. eauto.
  - intros b j' [Hne Hb]%lookup_delete_Some. by apply (H10 b).
  - intros id x Hx. unfold touch in Hx. destruct (decide (is_Some (touched s !! job_log j))) as [|Hno]; [by apply H11|].
    apply lookup_insert_Some in Hx as [[<- <-]|[_ Hx]]; [|by apply H11]. exists r0. split; [done|]. split; [done|].
    destruct (H9 (job_log j) r0) as (x & Hx & Hreads); try done; [right; eauto|by apply eq_None_not_Some|].
    rewrite Hf0, Hd in Hx. by injection Hx as <-.
Qed.

(** *** Transactions *)

Lemma no_queued file d id r : already_queued file d = false -> logs d !! id = Some r -> log_file r = file -> log_status r = QUEUED -> False.
Proof.
  intros H Hr Hf Hq. apply not_true_iff_false in H. apply H, existsb_exists. exists (id, r). split; [by apply list_elem_of_In, elem_of_map_to_list|].
  unfold queued_row. simpl. by rewrite !bool_decide_eq_true_2.
Qed.

Lemma enqueue_decided id file proposed source ok now d d' :
  enqueue_decide id file proposed source ok now d = Ok d' ->
  already_queued file d = false /\ d' = set_logs (<[id := Log file [] proposed source QUEUED None None now]> (logs d)) d.
Proof.
  unfold enqueue_decide. destruct (negb _); [done|]. destruct (already_queued file d); [done|]. destruct (negb ok); [done|].
  destruct (negb _); [done|]. by intros [= <-].
Qed.

Lemma inv_request id file proposed source ok now d s : Inv s ->
  logs (tables s) !! id = None -> enqueue_decide id file proposed source ok now (tables s) = Ok d ->
  Inv (Sys d (disks s) (lock s) (pending s ∪ {[id]}) (jobs s) (attempts s) (net s) (touched s)).
Proof.
  intros H Hid [Hno ->]%enqueue_decided. pose proof H as [H1 H2 H3 H4 H5 H6 H7 H8 H9 H10 H11].
  assert (Hjob : forall j, jobs s !! id = Some j -> False) by (intros j (_ & r & Hr & _)%H3; congruence).
  assert (Hnew : forall i r, logs (tables s) !! i = Some r -> i <> id) by congruence.
  split; simpl; try done.
  - intros i i' r r' [[<- <-]|[Hi Hr]]%lookup_insert_Some [[<- <-]|[Hi' Hr']]%lookup_insert_Some; simpl; intros Hq Hq' Hf; [done| | |by eapply H1].
    + exfalso. by eapply (no_queued file).
    + exfalso. by eapply (no_queued file).
  - intros i [Hi|Hi]%elem_of_union.
    + destruct (H2 i Hi) as (Hn & r & Hr & ?). split; [done|]. exists r. by rewrite lookup_insert_ne by (symmetry; eauto).
    + apply elem_of_singleton in Hi as ->. split; [by apply eq_None_not_Some; intros [j Hj]; eapply Hjob|]. rewrite lookup_insert_eq. by eexists.
  - intros i j Hj. destruct (H3 i j Hj) as (? & r & Hr & ?). split; [done|]. exists r. by rewrite lookup_insert_ne by (symmetry; eauto).
  - intros a j b r Hin. destruct (H8 a j b r Hin) as [Hn Hr]. split; [done|]. intros [[Hj _]|[_ Hrow]]%lookup_insert_Some; [|by apply Hr].
    exfalso. apply (Hjob j). rewrite Hj. apply (H5 _ Hin).
  - intros i r Hl [[<- <-]|[Hi Hr]]%lookup_insert_Some; simpl; [done|]. apply (H9 i r); [|done]. destruct Hl as [(r' & Hr' & Hq)|Hl]; [|by right].
    simpl in Hr'. rewrite lookup_insert_ne in Hr' by done. left. eauto.
  - intros a j Ha. destruct (H10 a j Ha) as [(r & Hr & Hb) Ho]. split; [exists r; by rewrite lookup_insert_ne by (symmetry; eauto)|].
    intros i r' [[<- <-]|[Hi Hr']]%lookup_insert_Some; simpl; [|by apply Ho]. intros _ _ _. split; [done|]. intros a' j' b Hin Hj'. subst id.
    apply (Hjob j'). apply (H5 _ Hin).
  - intros i x Hx. destruct (H11 i x Hx) as (r & Hr & ?). exists r. by rewrite lookup_insert_ne by (symmetry; eauto).
Qed.

Lemma inv_forget id s : Inv s -> Inv (Sys (tables s) (disks s) (lock s) (pending s ∖ {[id]}) (jobs s) (attempts s) (net s) (touched s)).
Proof. intros [H1 H2 H3 H4 H5 H6 H7 H8 H9 H10 H11]. split; simpl; try done. intros i [Hi _]%elem_of_difference. eauto. Qed.

Lemma inv_handed id r agent l s : Inv s -> id ∈ pending s -> logs (tables s) !! id = Some r ->
  Inv (Sys (set_ledger l (tables s)) (disks s) (lock s) (pending s ∖ {[id]}) (<[id := WriteFileTagsPayload id (log_file r) agent (after_tags r)]> (jobs s))
         (attempts s) (net s) (touched s)).
Proof.
  intros H Hid Hr. pose proof H as [H1 H2 H3 H4 H5 H6 H7 H8 H9 H10 H11]. destruct (H2 id Hid) as (Hnone & _).
  assert (Hold : forall i j, jobs s !! i = Some j -> i <> id) by congruence. split; simpl; try done.
  - intros i [Hi Hne]%elem_of_difference. rewrite elem_of_singleton in Hne. destruct (H2 i Hi) as [Hn ?]. split; [by rewrite lookup_insert_ne|done].
  - intros i j [[<- <-]|[Hne Hj]]%lookup_insert_Some; [|by apply H3]. split; [done|]. by exists r.
  - intros a j st Ha. rewrite lookup_insert_ne; [by eapply H4|]. symmetry. eapply Hold, H4, Ha.
  - intros m Hm. rewrite lookup_insert_ne; [by apply H5|]. symmetry. by eapply Hold, H5.
Qed.

(** A row changes: how, for the invariant. *)
Lemma inv_row id r r' s : Inv s ->
  logs (tables s) !! id = Some r -> id ∉ pending s -> log_file r' = log_file r -> after_tags r' = after_tags r ->
  (log_status r' = QUEUED -> log_status r = QUEUED) ->
  (before_tags r <> [] -> before_tags r' = before_tags r) ->
  (before_tags r = [] -> before_tags r' <> [] -> log_status r' = QUEUED -> on_disk s (log_file r) (before_tags r') /\ exists a j b, Snapshot a j b ∈ net s /\ job_log j = id) ->
  Inv (on_tables (set_logs (<[id := r']> (logs (tables s))) (tables s)) s).
Proof.
  intros H Hr Hp Hf Ht Hq Hb Hc. pose proof H as [H1 H2 H3 H4 H5 H6 H7 H8 H9 H10 H11]. split; simpl; try done.
  - intros i i' x x' [[<- <-]|[Hi Hx]]%lookup_insert_Some [[<- <-]|[Hi' Hx']]%lookup_insert_Some Hqx Hqx' Hfx; [done| | |by eapply H1].
    + eapply H1; try done; [by apply Hq|congruence].
    + eapply H1; try done; [by apply Hq|congruence].
  - intros i Hi. destruct (H2 i Hi) as (Hn & x & Hx & ?). split; [done|]. exists x. by rewrite lookup_insert_ne by (intros ->; done).
  - intros i j Hj. destruct (H3 i j Hj) as (? & x & Hx & Hfx & Htx). split; [done|]. destruct (decide (id = i)) as [<-|Hne].
    + exists r'. rewrite lookup_insert_eq. assert (x = r) as -> by congruence. split_and!; [done|congruence|congruence].
    + exists x. by rewrite lookup_insert_ne.
  - intros a j b x Hin. destruct (H8 a j b r Hin) as [Hn Hrow]. split; [done|]. intros [[Hj <-]|[_ Hx]]%lookup_insert_Some; [|by apply (H8 a j b x Hin)].
    subst id. intros Hqr Hbr. apply Hrow; [done|by apply Hq|]. destruct (before_tags r) eqn:E; [done|]. by rewrite Hb in Hbr.
  - intros i x Hl Hx Hbx Htx.
    assert (Hl' : live s i).
    { destruct Hl as [(y & Hy & Hqy)|Hl]; [|by right]. left. simpl in Hy. apply lookup_insert_Some in Hy as [[<- <-]|[_ Hy]]; eauto. }
    apply lookup_insert_Some in Hx as [[<- <-]|[Hne Hx]]; [|by apply (H9 i x)]. rewrite Hf. destruct (decide (before_tags r = [])) as [Ebr|Ebr].
    + destruct Hl' as [(y & Hy & Hqy)|(a & j & Ha & Hj)].
      * destruct Hl as [(y' & Hy' & Hqy')|(a & j & Ha & Hj)]; [simpl in Hy'; rewrite lookup_insert_eq in Hy'; injection Hy' as <-; by apply Hc|].
        destruct (H10 a j Ha) as [(y' & Hy' & Hby) _]. rewrite Hj in Hy'. congruence.
      * destruct (H10 a j Ha) as [(y' & Hy' & Hby) _]. rewrite Hj in Hy'. congruence.
    + assert (Hn := Hb Ebr). destruct (H9 id r Hl' Hr Ebr Htx) as (y & Hy & Hry). exists y. by rewrite Hn.
  - intros a j Ha. destruct (H10 a j Ha) as [(x & Hx & Hbx) Ho]. split.
    + destruct (decide (id = job_log j)) as [->|Hne]; [exists r'; rewrite lookup_insert_eq; split; [done|]|exists x; by rewrite lookup_insert_ne].
      assert (x = r) as -> by congruence. by rewrite (Hb Hbx).
    + intros i y [[<- <-]|[Hne Hy]]%lookup_insert_Some Hij Hfy Hqy; [|by apply Ho].
      destruct (Ho id r Hr Hij ltac:(congruence) (Hq Hqy)) as [Hbr Hs]. split; [|done]. destruct (before_tags r') eqn:E; [done|].
      destruct (Hc Hbr ltac:(done) Hqy) as [_ (a' & j' & b & Hin & Hj')]. by destruct (Hs a' j' b Hin).
  - intros i x Hx. destruct (H11 i x Hx) as (y & Hy & Hby & Hry). destruct (decide (id = i)) as [<-|Hne]; [|exists y; by rewrite lookup_insert_ne].
    exists r'. rewrite lookup_insert_eq. assert (y = r) as -> by congruence. rewrite (Hb Hby). done.
Qed.

Lemma inv_same_logs d s : Inv s -> logs d = logs (tables s) -> Inv (on_tables d s).
Proof. intros [H1 H2 H3 H4 H5 H6 H7 H8 H9 H10 H11] E. split; simpl; rewrite ?E; try done. intros id r Hl. apply H9. unfold live in *. simpl in Hl. by rewrite E in Hl. Qed.

Lemma snapshot_recorded agent id b d st d' :
  record_tag_write_before_snapshot agent id b d = Ok (st, d') ->
  exists r, logs d !! id = Some r /\
    (d' = d /\ st = log_status r /\ (log_status r <> QUEUED \/ before_tags r <> []) \/
     st = QUEUED /\ log_status r = QUEUED /\ before_tags r = [] /\
     d' = set_logs (<[id := Log (log_file r) b (after_tags r) (log_source r) (log_status r) (discrepancies r) (error_message r) (written_at r)]> (logs d)) d).
Proof.
  unfold record_tag_write_before_snapshot. destruct (_reject_pg_unsafe_json b); [done|]. destruct (logs d !! id) as [r|]; [|done].
  destruct (_require_file_owner _ _ _); [|done]. intros H. exists r. split; [done|]. revert H. repeat case_bool_decide; simpl; intros [= <- <-]; tauto.
Qed.

Lemma result_patched agent id blocking body d a d' :
  patch_tag_write agent id blocking body d = Ok (a, d') ->
  exists r, logs d !! id = Some r /\
    (a = false /\ d' = d /\ log_status r <> QUEUED \/
     a = true /\ log_status r = QUEUED /\ body_status body <> QUEUED /\ logs d' = <[id := settle r body]> (logs d) /\
     ledger d' = (if blocking then ledger d else ledger d ∖ {[id]})).
Proof.
  unfold patch_tag_write. destruct (_reject_pg_unsafe_json _), (unsafe_discrepancies _); try done. simpl. case_bool_decide; [done|].
  destruct (logs d !! id) as [r|]; [|done]. destruct (_require_file_owner _ _ _); [|done]. intros E. exists r. split; [done|]. revert E.
  case_bool_decide; simpl; intros [= <- <-]; [right|left; done]. split_and!; try done; unfold clear_ledger_entry; by destruct blocking, (body_sha256 body).
Qed.

Lemma not_pending m s : Inv s -> m ∈ net s -> job_log (job_of m) ∉ pending s.
Proof. intros H Hm Hp. destruct (pending_fresh _ H _ Hp) as [Hn _]. by rewrite (message_sent _ H _ Hm) in Hn. Qed.

Lemma inv_settled id r body d s : Inv s -> logs (tables s) !! id = Some r -> id ∉ pending s -> body_status body <> QUEUED ->
  logs d = <[id := settle r body]> (logs (tables s)) -> Inv (on_tables d s).
Proof.
  intros H Hr Hp Hb E. change (on_tables d s) with (on_tables d (on_tables (set_logs (<[id := settle r body]> (logs (tables s))) (tables s)) s)).
  apply inv_same_logs; [|done]. apply (inv_row id r); try done. simpl. by destruct (before_tags r).
Qed.

Lemma inv_deliver m answered queued s : Inv s -> m ∈ net s -> Inv (deliver m answered queued s).
Proof.
  intros H Hm. pose proof (not_pending m s H Hm) as Hp. destruct m as [a j b|a j body]; simpl in *.
  - destruct (record_tag_write_before_snapshot _ _ _ _) as [[st d]|] eqn:E; [|done].
    apply snapshot_recorded in E as (r & Hr & Hcase). pose proof (snapshot_reads _ H a j b r Hm) as [Hbn Hbr].
    assert (H' : Inv (on_tables d s) /\ (st = QUEUED -> exists r', logs d !! job_log j = Some r' /\ log_status r' = QUEUED /\ before_tags r' <> [])).
    { destruct Hcase as [(-> & -> & Hc)|(-> & Hq & Hb & ->)].
      - split; [by apply inv_same_logs|]. intros Hst. exists r. split_and!; [done|done|naive_solver].
      - split; [|intros _; eexists; split; [apply lookup_insert_eq|done]]. apply (inv_row (job_log j) r); try done.
        intros _ _ _. split; [|by exists a, j, b]. simpl. destruct (job_of_row s _ _ _ H (message_sent _ H _ Hm) Hr) as [_ ->]. by apply Hbr. }
    destruct H' as [H' Hst]. destruct (attempts s !! a) as [[j' st']|] eqn:Ha; [|done]. destruct st' as [| | |b'| |]; try done.
    destruct (answered && _ && _) eqn:Eq; [|done]. apply andb_true_iff in Eq as [Eq Eb]. apply andb_true_iff in Eq as [_ Ej]. apply bool_decide_eq_true in Ej, Eb. subst b'.
    case_bool_decide as Hs; [|by apply inv_finish]. destruct (Hst Hs) as (r' & Hr' & Hq' & Hb'). apply (inv_acknowledge a j' b r'); try done. simpl. congruence.
  - destruct (patch_tag_write _ _ _ _ _) as [[applied d]|] eqn:E; [|done]. apply result_patched in E as (r & Hr & Hcase).
    assert (H' : Inv (on_tables d s)).
    { destruct Hcase as [(_ & -> & _)|(_ & _ & Hb & Hd & _)]; [by apply inv_same_logs|by apply (inv_settled (job_log j) r body)]. }
    destruct (attempts s !! a) as [[j' st']|]; [|done]. destruct st'; try done. destruct (answered && _); [by apply inv_finish|done].
Qed.

Lemma inv_downgrade id r e s : Inv s -> id ∈ pending s -> logs (tables s) !! id = Some r ->
  Inv (Sys (downgrade id e (tables s)) (disks s) (lock s) (pending s ∖ {[id]}) (jobs s) (attempts s) (net s) (touched s)).
Proof.
  intros H Hid Hr. pose proof (inv_forget id s H) as Hf.
  change (Inv (on_tables (downgrade id e (tables s)) (Sys (tables s) (disks s) (lock s) (pending s ∖ {[id]}) (jobs s) (attempts s) (net s) (touched s)))).
  assert (E : alter (with_status FAILED (Some e)) id (logs (tables s)) = <[id := with_status FAILED (Some e) r]> (logs (tables s))).
  { apply map_eq. intros i. destruct (decide (i = id)) as [->|Hne]; [by rewrite lookup_alter_eq, lookup_insert_eq, Hr|by rewrite lookup_alter_ne, lookup_insert_ne]. }
  unfold downgrade. rewrite E. apply (inv_row id r (with_status FAILED (Some e) r)) in Hf; try done. simpl. intros [_ Hn]%elem_of_difference. by apply Hn, elem_of_singleton.
Qed.

Lemma snapshot_step_reads d b : snapshot_step other_digit digest d = Reporting b -> b <> [] /\ reads d b.
Proof. unfold snapshot_step. destruct (_extract_before_tags other_digit d) as [[|x l]|]; try done. by intros [= <-]. Qed.

Lemma snapshot_step_holds d : holds (snapshot_step other_digit digest d) = true /\ snapshot_step other_digit digest d <> Acknowledged.
Proof. unfold snapshot_step. by destruct (_extract_before_tags other_digit d) as [[|x l]|]. Qed.

Lemma inv_exec ev s : Inv s -> Inv (happens ev s).
Proof.
  intros H. destruct ev as [id file proposed source ok now|id fate|id|a id contained|a opens|a|a|a|n answered queued|a|a half|a]; simpl.
  - destruct (logs (tables s) !! id) eqn:Hid; [done|]. destruct (enqueue_decide _ _ _ _ _ _ _) eqn:E; [|done]. by apply (inv_request id file proposed source ok now).
  - destruct (decide (id ∈ pending s)) as [Hp|]; [|done]. destruct (logs (tables s) !! id) as [r|] eqn:Hr; [|done].
    destruct fate; [|by apply (inv_downgrade id r)]. destruct (owner _ !! _); [by apply inv_handed|done].
  - by apply inv_forget.
  - destruct (attempts s !! a); [done|]. destruct (jobs s !! id) as [j|] eqn:Hj; [|done]. destruct (existsb _ _); [done|].
    destruct (job_row _ H _ _ Hj) as [Hid _]. apply inv_at_step; [done|congruence|by destruct contained..].
  - destruct (attempts s !! a) as [[j []]|] eqn:Ha; try done. apply inv_at_step; [done|by eapply attempt_runs|by destruct opens..].
  - destruct (attempts s !! a) as [[j []]|] eqn:Ha; try done. destruct (lock s !! job_file j) eqn:Hl; [done|].
    change (Inv (at_step a j Owned (Sys (tables s) (disks s) (<[job_file j := a]> (lock s)) (pending s) (jobs s) (attempts s) (net s) (touched s)))).
    apply inv_at_step; [by apply inv_lock|by apply (attempt_runs _ H _ _ _ Ha)|done|intros _; apply lookup_insert_eq|done].
  - destruct (attempts s !! a) as [[j []]|] eqn:Ha; try done. destruct (disks s !! job_file j) as [d|] eqn:Hd; [|done].
    apply inv_at_step; [done|by eapply attempt_runs|by apply snapshot_step_holds|intros _; by eapply owns_lock|].
    intros b [Hb Hr]%snapshot_step_reads. split; [done|]. by exists d.
  - destruct (attempts s !! a) as [[j []]|] eqn:Ha; try done; apply inv_send; eauto.
  - destruct (net s !! n) as [m|] eqn:Hm; [|done]. apply inv_deliver; [done|]. by eapply list_elem_of_lookup_2.
  - destruct (attempts s !! a) as [[j []]|] eqn:Ha; try done. destruct (disks s !! job_file j) as [d|] eqn:Hd; [|done].
    destruct (write_step _ _ _ _ d (job_tags j)) as [d' body]. pose proof (inv_written a j d d' s H Ha Hd) as Hw.
    apply (inv_at_step a j (Settling true body)) in Hw; [|by apply (attempt_runs _ H _ _ _ Ha)|done|intros _; by apply (owns_lock _ H _ _ _ Ha)|done].
    unfold at_step, on_attempts in *. simpl in *. by rewrite insert_delete_eq in Hw.
  - destruct (attempts s !! a) as [[j []]|] eqn:Ha; try done. destruct (disks s !! job_file j) as [d|] eqn:Hd; [|done].
    pose proof (inv_finish a _ (inv_written a j d half s H Ha Hd)) as Hw. unfold finish in *. simpl in *. by rewrite delete_delete_eq in Hw.
  - by apply inv_finish.
Qed.

Lemma inv_run evs s : Inv s -> Inv (runs evs s).
Proof. unfold TagWrite.run. revert s. induction evs as [|ev evs IH]; intros s H; simpl; [done|]. apply IH. by apply inv_exec. Qed.

(** ** What a row keeps *)

(** How a row may change: only while it is queued, and its snapshot only once. *)
Record grows (r r' : TagWriteLog) : Prop := {
  same_request : log_file r' = log_file r /\ after_tags r' = after_tags r /\ log_source r' = log_source r /\ written_at r' = written_at r;
  settled_same : log_status r <> QUEUED -> r' = r;
  captured_same : before_tags r <> [] -> before_tags r' = before_tags r;
}.
#[export] Instance grows_preorder : PreOrder grows.
Proof.
  split; [by intros r; split|]. intros r1 r2 r3 [(F & T & S & W) Q B] [(F' & T' & S' & W') Q' B']. split.
  - split_and!; congruence.
  - intros H. pose proof (Q H). subst r2. by apply Q'.
  - intros H. rewrite <- (B H). apply B'. by rewrite (B H).
Qed.

Definition rows_grow (m m' : gmap string TagWriteLog) : Prop := forall id r, m !! id = Some r -> exists r', m' !! id = Some r' /\ grows r r'.
#[export] Instance rows_grow_preorder : PreOrder rows_grow.
Proof.
  split; [intros m id r H; by exists r|]. intros m1 m2 m3 H H' id r (r2 & Hr2 & G)%H. destruct (H' _ _ Hr2) as (r3 & Hr3 & G').
  exists r3. split; [done|by transitivity r2].
Qed.

Lemma rows_insert m id r : match m !! id with Some r0 => grows r0 r | None => True end -> rows_grow m (<[id := r]> m).
Proof.
  intros H i x Hx. destruct (decide (i = id)) as [->|Hne]; [|exists x; by rewrite lookup_insert_ne]. rewrite Hx in H. exists r. by rewrite lookup_insert_eq.
Qed.

Lemma settle_grows r body : log_status r = QUEUED -> grows r (settle r body).
Proof. intros Hq. split; [done|done|]. simpl. by destruct (before_tags r). Qed.

Lemma delivery_grows m answered queued s : rows_grow (logs (tables s)) (logs (tables (deliver (disk := disk) m answered queued s))).
Proof using Type.
  destruct m as [a j b|a j body]; simpl.
  - destruct (record_tag_write_before_snapshot _ _ _ _) as [[st d]|] eqn:E; [|done].
    assert (G : rows_grow (logs (tables s)) (logs d)).
    { apply snapshot_recorded in E as (r & Hr & [(-> & _)|(_ & Hq & Hb & ->)]); [done|]. apply rows_insert. rewrite Hr. by split. }
    destruct (attempts s !! a) as [[j' []]|]; try done. destruct (answered && _ && _); [|done]. by case_bool_decide.
  - destruct (patch_tag_write _ _ _ _ _) as [[x d]|] eqn:E; [|done].
    assert (G : rows_grow (logs (tables s)) (logs d)).
    { apply result_patched in E as (r & Hr & [(_ & -> & _)|(_ & Hq & _ & -> & _)]); [done|]. apply rows_insert. rewrite Hr. by apply settle_grows. }
    destruct (attempts s !! a) as [[j' []]|]; try done. by destruct (answered && _).
Qed.

Lemma exec_grows ev s : Inv s -> rows_grow (logs (tables s)) (logs (tables (happens ev s))).
Proof.
  intros H. destruct ev as [id file proposed source ok now|id fate|id|a id contained|a opens|a|a|a|n answered queued|a|a half|a]; simpl; try done.
  - destruct (logs (tables s) !! id) eqn:Hid; [done|]. destruct (enqueue_decide _ _ _ _ _ _ _) eqn:E; [|done].
    apply enqueue_decided in E as [_ ->]. apply rows_insert. by rewrite Hid.
  - destruct (decide (id ∈ pending s)) as [Hp|]; [|done]. destruct (logs (tables s) !! id) as [r|] eqn:Hr; [|done].
    destruct fate as [|e]; [by destruct (owner _ !! _)|]. simpl. destruct (pending_fresh _ H _ Hp) as (_ & r' & Hr' & Hq & Hb).
    intros i x Hx. destruct (decide (i = id)) as [->|Hne]; [|exists x; by rewrite lookup_alter_ne].
    exists (with_status FAILED (Some e) x). rewrite lookup_alter_eq, Hx. split; [done|]. assert (x = r') as -> by congruence. by split.
  - destruct (attempts s !! a); [done|]. destruct (jobs s !! id); [|done]. by destruct (existsb _ _).
  - destruct (attempts s !! a) as [[j []]|]; done.
  - destruct (attempts s !! a) as [[j []]|]; try done. by destruct (lock s !! _).
  - destruct (attempts s !! a) as [[j []]|]; try done. by destruct (disks s !! _).
  - by destruct (attempts s !! a) as [[j []]|].
  - destruct (net s !! n); [apply delivery_grows|done].
  - destruct (attempts s !! a) as [[j []]|]; try done. destruct (disks s !! _); [|done]. by destruct (write_step _ _ _ _ _ _).
  - destruct (attempts s !! a) as [[j []]|]; try done. by destruct (disks s !! _).
Qed.

Lemma run_grows evs s : Inv s -> rows_grow (logs (tables s)) (logs (tables (runs evs s))).
Proof.
  unfold TagWrite.run. revert s. induction evs as [|ev evs IH]; intros s H; simpl; [done|].
  etransitivity; [by apply exec_grows|]. by apply IH, inv_exec.
Qed.

(** ** The theorems of a run *)

(** C7: an undo asks for the original.  Once an attempt of a write has touched the
    disk, whatever retries, duplicates, deaths, lost or late messages surround it, the
    anchor of its row is what the file read as before the first byte was written;
    and the row an undo of that write queues carries exactly that. *)
Theorem undo_anchor_is_original s0 evs id d :
  initial s0 -> touched (runs evs s0) !! id = Some d ->
  (exists r, logs (tables (runs evs s0)) !! id = Some r /\ before_tags r <> [] /\ reads d (before_tags r)) /\
  forall new file now t, undo_tag_write new file now (tables (runs evs s0)) = Dispatched id t ->
    exists r, logs t !! new = Some r /\ log_file r = file /\ log_status r = QUEUED /\ log_source r = "undo"%string /\ reads d (after_tags r).
Proof.
  intros H0%inv_initial Hd. pose proof (inv_run evs s0 H0) as H. pose proof (anchored _ H _ _ Hd) as (r & Hr & Hb & Hread).
  split; [by exists r|]. intros new file now t (r' & Hr' & _ & ->)%undo_dispatched. assert (r' = r) as -> by congruence.
  eexists. split; [apply lookup_insert_eq|]. done.
Qed.

(** C19: one write at a time.  In every state a run reaches, a file has at most one
    queued row, at most one attempt of a file is past its lock, and an attempt
    that may write has its anchor in the row already, so no other row of the file
    that is queued has one. *)
Theorem one_write_in_flight s0 evs :
  initial s0 -> let s := runs evs s0 in
  (forall i i' r r', logs (tables s) !! i = Some r -> logs (tables s) !! i' = Some r' ->
     log_status r = QUEUED -> log_status r' = QUEUED -> log_file r = log_file r' -> i = i') /\
  (forall a j st a' j' st', attempts s !! a = Some (Try j st) -> attempts s !! a' = Some (Try j' st') ->
     holds st = true -> holds st' = true -> job_file j = job_file j' -> a = a') /\
  (forall a j, attempts s !! a = Some (Try j Acknowledged) ->
     (exists r, logs (tables s) !! job_log j = Some r /\ log_file r = job_file j /\ after_tags r = job_tags j /\ before_tags r <> []) /\
     forall id r, logs (tables s) !! id = Some r -> log_file r = job_file j -> log_status r = QUEUED -> id <> job_log j -> before_tags r = []).
Proof.
  intros H0%inv_initial s. pose proof (inv_run evs s0 H0) as H. fold s in H. split; [apply (one_queued _ H)|]. split.
  - intros a j st a' j' st' Ha Ha' Hh Hh' E. by eapply (holders_equal s a j st a' j' st').
  - intros a j Ha. destruct (write_alone _ H a j Ha) as [(r & Hr & Hb) Ho]. split.
    + destruct (job_row _ H _ _ (attempt_runs _ H _ _ _ Ha)) as (_ & r' & Hr' & Hf & Ht). assert (r' = r) as -> by congruence. by exists r.
    + intros id r' Hr' Hf Hq Hne. by apply (Ho id r').
Qed.

(** An answer is final.  Between any two states of a run a row keeps its file,
    the tags it asks for and its source; a snapshot, once recorded, never changes;
    and a row that is no longer queued never changes at all, whatever duplicate
    report or snapshot still arrives. *)
Theorem settled_is_final s0 evs evs' id r :
  initial s0 -> logs (tables (runs evs s0)) !! id = Some r ->
  exists r', logs (tables (runs evs' (runs evs s0))) !! id = Some r' /\
    log_file r' = log_file r /\ after_tags r' = after_tags r /\ log_source r' = log_source r /\
    (before_tags r <> [] -> before_tags r' = before_tags r) /\ (log_status r <> QUEUED -> r' = r).
Proof.
  intros H0%inv_initial Hr. destruct (run_grows evs' _ (inv_run evs s0 H0) id r Hr) as (r' & Hr' & [(F & T & S & _) Q B]). by exists r'.
Qed.
End invariant.

(** ** A run *)

Definition demo_db : db := Db ∅ {["song.ogg" := "vault"]}%string ∅ {["song.ogg"]}%string ∅.
Definition demo_start : sys (disk := demo_file) := Sys demo_db {["song.ogg" := demo_song]}%string ∅ ∅ ∅ ∅ [] ∅.
Abbreviation demo_run := (run (disk := demo_file) no_digit no_isdigit id (fun _ => None)).

Definition ask (id source : string) (ts : tags) (now : Z) : list (event (disk := demo_file)) := [Request id "song.ogg"%string ts source true now; HandOver id Handed].
(** An attempt up to its acknowledgement, a whole one. *)
Definition admitted (a : nat) (id : string) : list (event (disk := demo_file)) :=
  [Start a id true; Open a true; Acquire a; Extract a; Send a; Deliver 0 true false].
Definition attempt (a : nat) (id : string) : list (event (disk := demo_file)) := admitted a id ++ [Write a; Send a; Deliver 0 true false].

(** A first attempt dies after its save, a second one reports, a third job asks twice. *)
Definition demo_events : list (event (disk := demo_file)) :=
  ask "w1" "proposal" demo_payload 1 ++ admitted 0 "w1" ++ [Write 0; Die 0] ++ attempt 1 "w1" ++ [Start 2 "w1"%string true; Deliver 0 true false].

Lemma demo_start_initial : initial demo_start.
Proof. unfold initial. by split_and!. Qed.

Abbreviation demo_undo := (undo_tag_write "w2" "song.ogg" 2 (tables (demo_run demo_events demo_start))).

Lemma undo_anchor_is_original_witness :
  exists t r, demo_undo = Dispatched "w1" t /\ logs t !! "w2"%string = Some r /\ after_tags r = demo_snapshot.
Proof.
  assert (Hd : touched (demo_run demo_events demo_start) !! "w1"%string = Some demo_song) by (vm_compute; reflexivity).
  destruct (undo_anchor_is_original no_digit no_isdigit id (fun _ => None) demo_start demo_events "w1"%string demo_song demo_start_initial Hd) as [_ H].
  assert (Hu : exists t, demo_undo = Dispatched "w1"%string t) by (eexists; vm_compute; reflexivity). destruct Hu as [t Ht].
  destruct (H "w2"%string "song.ogg"%string 2 t Ht) as (r & Hr & _ & _ & _ & E). exists t, r. split; [exact Ht|]. split; [exact Hr|].
  assert (E' : _extract_before_tags no_digit demo_song = Ok demo_snapshot) by (vm_compute; reflexivity). congruence.
Defined.

Lemma one_write_in_flight_witness :
  let s := demo_run (ask "w1" "proposal" demo_payload 1 ++ admitted 0 "w1") demo_start in
  exists j r, attempts s !! 0%nat = Some (Try j Acknowledged) /\ logs (tables s) !! "w1"%string = Some r /\ before_tags r <> [].
Proof.
  intros s. destruct (one_write_in_flight no_digit no_isdigit id (fun _ => None) demo_start (ask "w1" "proposal" demo_payload 1 ++ admitted 0 "w1") demo_start_initial) as (_ & _ & H).
  assert (Hj : exists j, job_log j = "w1"%string /\ attempts s !! 0%nat = Some (Try j Acknowledged)) by (eexists; split; [|vm_compute; reflexivity]; reflexivity).
  destruct Hj as (j & Ej & Hj). destruct (H 0%nat j Hj) as [(r & Hr & _ & _ & Hb) _]. rewrite Ej in Hr. exists j, r. split; [exact Hj|]. split; [exact Hr|exact Hb].
Defined.

Lemma settled_is_final_witness :
  let s := demo_run demo_events demo_start in
  exists r, logs (tables s) !! "w1"%string = Some r /\ log_status r = COMPLETED /\
    logs (tables (demo_run (attempt 3 "w1") s)) !! "w1"%string = Some r.
Proof.
  intros s. assert (Hr : exists r, log_status r = COMPLETED /\ logs (tables s) !! "w1"%string = Some r) by (eexists; split; [|vm_compute; reflexivity]; reflexivity).
  destruct Hr as (r & Hs & Hr). exists r. split; [exact Hr|]. split; [exact Hs|].
  destruct (settled_is_final no_digit no_isdigit id (fun _ => None) demo_start demo_events (attempt 3 "w1") "w1"%string r demo_start_initial Hr)
    as (r' & Hr' & _ & _ & _ & _ & E). rewrite E in Hr' by (rewrite Hs; discriminate). exact Hr'.
Defined.

(** A write an attempt was admitted to, reported as failed by a duplicate that could not
    open the file: the disk changed, yet no undo finds the row. *)
Lemma failed_row_reached_the_disk :
  let s := demo_run (ask "w1" "proposal" demo_payload 1 ++ admitted 0 "w1" ++
                     [Start 1 "w1"%string true; Open 1 false; Send 1; Deliver 0 true false; Write 0; Send 0; Deliver 0 true false]) demo_start in
  (log_status <$> logs (tables s) !! "w1"%string) = Some FAILED /\ disks s !! "song.ogg"%string = Some demo_written /\ demo_written <> demo_song /\
  _get_write_log_to_undo "song.ogg" (tables s) = None.
Proof. vm_compute. split_and!; try reflexivity. discriminate. Qed.

(** The callback runs inside the job it reports on, so that job's key is active and the
    ledger row survives the result, whatever attempt sends it. *)
Lemma ledger_row_survives :
  let s := demo_run (ask "w1" "proposal" demo_payload 1 ++ attempt 0 "w1") demo_start in
  (log_status <$> logs (tables s) !! "w1"%string) = Some COMPLETED /\ attempts s = ∅ /\ ledger (tables s) = {["w1"%string]}.
Proof. vm_compute. done. Qed.

(** A request that dies between its commit and the hand-over: nothing can settle the row,
    and no write or undo of the file is accepted again. *)
Lemma lost_request_blocks_file :
  let s := demo_run [Request "w1" "song.ogg" demo_payload "proposal" true 1; Lost "w1"]%string demo_start in
  jobs s = ∅ /\ pending s = ∅ /\ ledger (tables s) = ∅ /\ already_queued "song.ogg" (tables s) = true /\
  enqueue_decide "w2" "song.ogg" demo_payload "proposal" true 2 (tables s) = Raise TagWriteAlreadyQueuedError.
Proof. vm_compute. done. Qed.
