(* ===== verification/TagReport.v ===== *)
(** * The agent's reports are accepted, and a job settles

    What [tasks/tag_write.py] sends is what [routers/agent_tag_writes.py] takes.  The
    texts an agent reads are sanitised and repaired, so its snapshots and the
    discrepancies it finds hold nothing PostgreSQL cannot store; no report is
    refused, and one undisturbed retry of a job settles its row. *)
From S2P Require Import Prelude CueText CueRead TextRepair TagDisk TagWrite.
From stdpp Require Import gmap strings options.
Local Open Scope Z_scope.

(** ** Text that can be stored *)

Definition safe (t : text) : Prop := Forall (fun c => pg_invalid c = false) t.

Lemma safe_accepted t : safe t <-> contains_pg_invalid_chars t = false.
Proof.
  unfold safe, contains_pg_invalid_chars. induction t as [|c t IH]; simpl; [done|]. by rewrite Forall_cons, orb_false_iff, IH.
Qed.

Lemma safe_concat s t : safe s -> safe t -> safe (s ++ t).
Proof. intros. by apply Forall_app. Qed.

Lemma safe_digits t : Forall ascii_digit t -> safe t.
Proof. apply List.Forall_impl. intros c H. unfold ascii_digit in H. apply pg_invalid_spec. lia. Qed.

Lemma dec_safe n : safe (dec n).
Proof.
  destruct (Z_le_gt_dec 0 n) as [Hn|Hn]; [apply safe_digits; by destruct (dec_digits n Hn) as (_ & ? & _)|].
  assert (E : dec n = 45 :: dec (- n)).
  { unfold dec. rewrite (proj2 (Z.ltb_lt n 0)), (proj2 (Z.ltb_ge (- n) 0)) by lia. done. }
  rewrite E. apply List.Forall_cons; [done|]. apply safe_digits. destruct (dec_digits (- n)) as (_ & ? & _); [lia|done].
Qed.

Lemma scalar_safe c : scalar c = true -> c <> 0 -> pg_invalid c = false.
Proof. unfold scalar. rewrite !andb_true_iff, negb_true_iff, andb_false_iff, !Z.leb_gt. intros. apply pg_invalid_spec. lia. Qed.

Lemma safe_cons c (o : option text) t : cons c <$> o = Some t -> pg_invalid c = false -> (forall t', o = Some t' -> safe t') -> safe t.
Proof. intros (t' & -> & ->)%fmap_Some Hc Ho. apply List.Forall_cons; [done|by apply Ho]. Qed.

(** Strict decoding makes no surrogate, and a NUL only of a NUL byte. *)
Lemma decode_safe l t : Forall (fun b => b <> 0) l -> utf8_decode l = Some t -> safe t.
Proof.
  revert t. induction l as [l IH] using (induction_ltof1 _ (@length Z)). unfold ltof in IH. intros t Hl.
  destruct l as [|a l1]; [intros [= <-]; constructor|]. apply List.Forall_cons_iff in Hl as [Ha Hl]. cbn [utf8_decode].
  destruct ((0 <=? a) && (a <? 128)) eqn:E1.
  { intros Ht. apply andb_true_iff in E1 as [?%Z.leb_le ?%Z.ltb_lt]. eapply safe_cons; [exact Ht|apply pg_invalid_spec; lia|]. intros t'. apply IH; [simpl; lia|done]. }
  destruct l1 as [|b l2]; [done|]. apply List.Forall_cons_iff in Hl as [Hb Hl]. destruct ((194 <=? a) && (a <? 224)) eqn:E2.
  { destruct (continues b) eqn:Eb; [|done]. intros Ht. unfold continues in *. bool_prop. eapply safe_cons; [exact Ht|apply pg_invalid_spec; lia|].
    intros t'. apply IH; [simpl; lia|done]. }
  destruct l2 as [|c l3]; [done|]. apply List.Forall_cons_iff in Hl as [Hc Hl]. destruct ((224 <=? a) && (a <? 240)).
  { cbv zeta. destruct (_ && _ && (2048 <=? _) && _) eqn:E; [|done]. intros Ht. apply andb_true_iff in E as [[_ Hp%Z.leb_le]%andb_true_iff Hs].
    eapply safe_cons; [exact Ht|apply scalar_safe; [done|lia]|]. intros t'. apply IH; [simpl; lia|done]. }
  destruct l3 as [|e l4]; [done|]. apply List.Forall_cons_iff in Hl as [He Hl]. destruct ((240 <=? a) && (a <? 245)); [|done].
  cbv zeta. destruct (_ && _ && (65536 <=? _) && _) eqn:E; [|done]. intros Ht. apply andb_true_iff in E as [[_ Hp%Z.leb_le]%andb_true_iff Hs].
  eapply safe_cons; [exact Ht|apply scalar_safe; [done|lia]|]. intros t'. apply IH; [simpl; lia|done].
Qed.

Lemma index_above c l i j : index_of c l i = Some j -> i <= j.
Proof. revert i. induction l as [|x l IH]; intros i; simpl; [done|]. case_bool_decide; [intros [= ->]; lia|intros Hi%IH; lia]. Qed.

Lemma encode_safe k s l : safe s -> TextRepair.encode k s = Some l -> Forall (fun b => b <> 0) l.
Proof.
  intros Hs H%mapM_Some. revert Hs. induction H as [|c b s l Hc _ IH]; intros Hs; [constructor|]. apply List.Forall_cons_iff in Hs as [Hc0%pg_invalid_spec Hs].
  apply List.Forall_cons; [|by apply IH]. destruct k; cbn [encode_char] in Hc.
  - destruct (same_in_both c); [injection Hc as <-; lia|]. apply index_above in Hc. lia.
  - destruct (_ && _); [|done]. injection Hc as <-. lia.
Qed.

Lemma round_trip_safe s t : safe s -> _round_trip_once s = Some t -> safe t.
Proof.
  intros Hs. unfold _round_trip_once. induction _ROUND_TRIP_CODECS as [|k ks IH]; cbn [round_trip_codecs]; [done|].
  destruct (TextRepair.encode k s ≫= utf8_decode) as [u|] eqn:E; [|done]. destruct (_ <? _)%nat; [|done]. intros [= <-].
  apply bind_Some in E as (l & Hl & Hu). eapply decode_safe; [|done]. by eapply encode_safe.
Qed.

Lemma repair_safe s : safe s -> safe (repair_mojibake s).
Proof.
  unfold repair_mojibake. generalize _MAX_REPAIR_PASSES as n. intros n. revert s. induction n as [|n IH]; intros s Hs; simpl; [done|].
  destruct (_round_trip_once s) as [t|] eqn:E; [|done]. apply IH. by eapply round_trip_safe.
Qed.

(** ** What is read from a file *)

Definition safe_opt (o : option text) : Prop := match o with Some t => safe t | None => True end.
Definition safe_value (v : tag_value) : Prop := match v with VStr t => safe t | VList l => Forall safe l | VNone | VInt _ => True end.

Lemma first_str_safe c : safe_opt (_first_str c).
Proof. destruct c as [[|]|[|]]; try done; apply repair_safe, sanitized. Qed.

Lemma raw_genre_safe c : match _raw_genre_value c with Some v => safe_value v | None => True end.
Proof.
  unfold _raw_genre_value. assert (H : Forall safe match c with Texts l => sanitize_pg_text <$> l | Tracks l => (fun p => sanitize_pg_text (tuple_text p)) <$> l end).
  { destruct c; apply Forall_fmap, list.Forall_true; intros ?; apply sanitized. }
  destruct c; revert H; (destruct (_ <$> _) as [|? [|]]; intros H; [done|by apply List.Forall_cons_iff in H as [? _]|done]).
Qed.

Lemma raw_track_safe c : safe_opt (_raw_track_text c).
Proof.
  destruct c as [[|t l]|[|p l]]; simpl; try done.
  - assert (H : safe (strip (sanitize_pg_text t))) by apply Forall_strip, sanitized. by destruct (strip _).
  - unfold _raw_track_tuple. destruct (_ =? _); [apply dec_safe|]. apply safe_concat; [apply dec_safe|]. apply List.Forall_cons; [done|apply dec_safe].
Qed.

Record parsed_safe (p : ParsedTagValues) : Prop := {
  safe_artist : safe_opt (artist p);
  safe_title : safe_opt (title p);
  safe_album : safe_opt (album p);
  safe_genre : safe_opt (genre p);
  safe_raw_year : safe_opt (raw_year p);
  safe_raw_track : safe_opt (raw_track_number p);
  safe_raw_genre : match raw_genre p with Some v => safe_value v | None => True end;
}.

Lemma bind_safe {A} (o : option A) (f : A -> option text) : (forall x, safe_opt (f x)) -> safe_opt (o ≫= f).
Proof. intros H. destruct o; simpl; [apply H|done]. Qed.

Lemma find_reason_dict (l : list (string * pyjson)) :
  Forall (fun p => contains_pg_invalid_chars (lit p.1) = false /\ find_pg_unsafe_json_reason p.2 = None) l <->
  find_pg_unsafe_json_reason (PDict ((fun p => (lit p.1, p.2)) <$> l)) = None.
Proof.
  induction l as [|[k v] l IH]; [split; [done|constructor]|]. rewrite Forall_cons, IH. simpl.
  destruct (contains_pg_invalid_chars (lit k)), (find_pg_unsafe_json_reason v); naive_solver.
Qed.

Lemma value_accepted v : safe_value v <-> find_pg_unsafe_json_reason (value_json v) = None.
Proof.
  destruct v as [| |t|l]; simpl; try done.
  - rewrite safe_accepted. by destruct (contains_pg_invalid_chars t).
  - induction l as [|t l IH]; [done|]. rewrite Forall_cons, IH, safe_accepted. simpl. destruct (contains_pg_invalid_chars t); naive_solver.
Qed.

Definition safe_tags (ts : tags) : Prop := Forall (fun p => contains_pg_invalid_chars (lit p.1) = false /\ safe_value p.2) ts.

Lemma tags_accepted ts : safe_tags ts <-> _reject_pg_unsafe_json ts = false.
Proof.
  unfold _reject_pg_unsafe_json. rewrite bool_decide_eq_false, <- eq_None_not_Some.
  replace ((fun p => (lit p.1, value_json p.2)) <$> ts) with ((fun p => (lit p.1, p.2)) <$> ((fun p => (p.1, value_json p.2)) <$> ts)) by by rewrite <- list_fmap_compose.
  rewrite <- find_reason_dict, Forall_fmap. apply Forall_iff. intros [k v]. simpl. by rewrite <- value_accepted.
Qed.

Definition safe_found (l : list (string * discrepancy)) : Prop :=
  Forall (fun p => contains_pg_invalid_chars (lit p.1) = false /\ safe_opt p.2.1 /\ safe_opt p.2.2) l.

Lemma found_accepted l : safe_found l -> unsafe_discrepancies (Some l) = false.
Proof.
  intros H. unfold unsafe_discrepancies. rewrite bool_decide_eq_false, <- eq_None_not_Some.
  set (f := fun q : discrepancy => PDict [(lit "expected", match q.1 with Some t => PStr t | None => PScalar end); (lit "actual", match q.2 with Some t => PStr t | None => PScalar end)]).
  change (find_pg_unsafe_json_reason (PDict ((fun p : string * discrepancy => (lit p.1, f p.2)) <$> l)) = None).
  replace ((fun p : string * discrepancy => (lit p.1, f p.2)) <$> l) with ((fun p => (lit p.1, p.2)) <$> ((fun p => (p.1, f p.2)) <$> l)) by by rewrite <- list_fmap_compose.
  apply find_reason_dict, Forall_fmap. revert H. apply list.Forall_impl || apply List.Forall_impl. intros [k [e a]] (Hk & He & Ha). split; [done|].
  simpl in *. destruct e, a; simpl in *; rewrite ?(proj1 (safe_accepted _) He), ?(proj1 (safe_accepted _) Ha); done.
Qed.

(** ** The agent's side *)

Section agent.
Context {disk audio : Type} `{!Mutagen disk audio}.
Context (other_digit : Z -> option Z) (other_isdigit : Z -> bool) (nfc : text -> text) (digest : disk -> option text).
(** Normalisation makes neither a NUL nor a surrogate. *)
Context (nfc_safe : forall t, safe t -> safe (nfc t)).

Lemma parsed f get : parsed_safe (_mapped_sources other_digit f get).
Proof using Type.
  split; simpl; try (apply bind_safe; intros c; apply first_str_safe).
  - apply bind_safe. intros c. apply raw_track_safe.
  - destruct (source _ _ _) as [c|]; simpl; [|done]. apply raw_genre_safe.
Qed.

Lemma extracted strict d p : extract_tags other_digit strict d = Ok p -> parsed_safe p.
Proof using Type.
  unfold extract_tags. destruct (mutagen_File d) as [[a|]|[e|e]]; [intros [= <-]|destruct strict; [done|intros [= <-]; by split]|by destruct strict|destruct strict; [done|intros [= <-]; by split]].
  unfold parse_format_tags. destruct (has_tags a); [|by split]. destruct (resolve_tag_format a); [apply parsed|by split].
Qed.

Lemma of_text_safe o : safe_opt o -> safe_value (of_text o).
Proof using Type. by destruct o. Qed.

Lemma snapshot_accepted d s : _extract_before_tags other_digit d = Ok s -> _reject_pg_unsafe_json s = false.
Proof using Type.
  unfold _extract_before_tags. destruct (extract_tags other_digit false d) as [p|] eqn:E; [|done]. intros [= <-]. apply tags_accepted.
  apply extracted in E as []. unfold snapshot_of, safe_tags. repeat apply List.Forall_cons; try apply List.Forall_nil; (split; [vm_compute; reflexivity|]); simpl;
    try (by apply of_text_safe).
  - destruct (raw_year p); [done|]. by destruct (year p).
  - destruct (raw_genre p); [done|by apply of_text_safe].
  - destruct (raw_track_number p); [done|]. by destruct (track_number p).
Qed.

Lemma str_safe v : safe_value v -> safe (str v).
Proof using Type. destruct v; simpl; intros; [by repeat constructor|apply dec_safe|done|constructor]. Qed.

Lemma read_field_safe p name : parsed_safe p -> safe_opt (field_of p name).
Proof using Type.
  intros []. unfold field_of. repeat case_bool_decide; try done; [destruct (year p)|destruct (track_number p)]; simpl; try done; apply dec_safe.
Qed.

Lemma semicolons_safe l : Forall safe l -> safe (semicolons l).
Proof using Type.
  destruct l as [|t l]; intros H; [constructor|]. apply List.Forall_cons_iff in H as [Ht H]. apply safe_concat; [done|].
  induction H as [|u l Hu _ IH]; [constructor|]. do 2 (apply List.Forall_cons; [done|]). by apply safe_concat.
Qed.

(** Which of the four comparisons a field gets. *)
Lemma verify_cases p name v x : verify_field other_digit nfc p name v = x ->
  v = VNone /\ x = _verify_deleted_field nfc (field_of p name) \/
  (exists l, v = VList l /\ x = _verify_genre_list_field nfc l p) \/
  (exists n y, x = _verify_semantic_field nfc n v y) \/
  x = _verify_nfc_field nfc v (field_of p name).
Proof using Type.
  intros <-. unfold verify_field. destruct v as [|n|t|l]; [by left|right..];
    repeat match goal with |- context [match ?y with _ => _ end] => is_var y; destruct y; [try (by right; right)..] end; eauto 8.
Qed.

Lemma field_verified p name v e a : parsed_safe p -> safe_value v -> verify_field other_digit nfc p name v = Some (e, a) -> safe_opt e /\ safe_opt a.
Proof using nfc_safe.
  intros Hp Hv H. pose proof (read_field_safe p name Hp) as Hf.
  assert (Hnfc : forall l, Forall safe l -> Forall safe (nfc <$> l)) by (intros l Hl; apply Forall_fmap; revert Hl; apply List.Forall_impl; done).
  apply verify_cases in H as [[-> H]|[(l & -> & H)|[(n & y & H)|H]]]; symmetry in H.
  - unfold _verify_deleted_field in H. apply fmap_Some in H as (t & Ht & [= -> ->]). rewrite Ht in Hf. split; [done|]. by apply nfc_safe.
  - unfold _verify_genre_list_field in H. revert H. cbv zeta. case_bool_decide; [done|]. intros [= <- <-]. split; [by apply semicolons_safe, Hnfc|].
    assert (Hg : Forall safe (nfc <$> match raw_genre p with Some (VList l) => l | Some v => [str v] | None => [] end)).
    { apply Hnfc. destruct Hp as [_ _ _ _ _ _ Hg]. destruct (raw_genre p) as [g|]; [|constructor]. destruct g; [..|done]; repeat constructor; by apply str_safe. }
    revert Hg. generalize (nfc <$> match raw_genre p with Some (VList l) => l | Some v => [str v] | None => [] end) as actual.
    intros [|t ts] Ha; [done|by apply semicolons_safe].
  - unfold _verify_semantic_field in H. case_bool_decide; [done|]. injection H as <- <-. split; [by apply nfc_safe, str_safe|].
    destruct y; simpl; [by apply nfc_safe, dec_safe|done].
  - unfold _verify_nfc_field in H. revert H. case_bool_decide; [done|]. intros [= <- <-]. split; [by apply nfc_safe, str_safe|].
    destruct (field_of p name); simpl; [by apply nfc_safe|done].
Qed.

Lemma found_safe d ts l : safe_tags ts -> verify_write other_digit nfc d ts = Ok l -> safe_found l.
Proof using nfc_safe.
  intros Hts. unfold verify_write. destruct (extract_tags other_digit true d) as [p|] eqn:E; [|done]. apply extracted in E. intros [= <-].
  unfold safe_found. induction Hts as [|[k v] ts [Hk Hv] _ IH]; simpl; [constructor|].
  destruct (verify_field _ _ p k v) as [[e a]|] eqn:Ev; simpl; [|done]. apply List.Forall_cons; [|done]. by destruct (field_verified _ _ _ _ _ E Hv Ev).
Qed.

(** A payload the callback's validator takes. *)
Definition acceptable (body : TagWriteResultPayload) : Prop :=
  _reject_pg_unsafe_json (body_before body) = false /\ unsafe_discrepancies (body_discrepancies body) = false /\ body_status body <> QUEUED.

Lemma failed_acceptable e h : acceptable (failed_result e h).
Proof using Type. done. Qed.

Lemma write_acceptable d ts d' body : safe_tags ts -> write_step other_digit other_isdigit nfc digest d ts = (d', body) -> acceptable body.
Proof using nfc_safe.
  intros Hts. unfold write_step, write_and_verify_sync. destruct (_extract_before_tags other_digit d) as [before|[e|e]] eqn:Eb.
  - apply snapshot_accepted in Eb. destruct (write_tags _ _ _ _) as [e|d1 e|d1]; [by intros [= <- <-]..|].
    destruct (verify_write _ _ _ _) as [[|x l]|[e|e]] eqn:Ev; [by intros [= <- <-]| |by intros [= <- <-]..].
    intros [= <- <-]. split; [done|]. split; [|done]. cbn [body_discrepancies result_discrepancies]. apply found_accepted. by apply (found_safe _ _ _ Hts Ev).
  - by intros [= <- <-].
  - by intros [= <- <-].
Qed.

(** ** Every report a run sends is one the controller takes *)

Abbreviation system := (sys (disk := disk)).
Abbreviation occurrence := (event (disk := disk)).
Abbreviation happens := (exec other_digit other_isdigit nfc digest).
Abbreviation runs := (run other_digit other_isdigit nfc digest).
Abbreviation invariant := (Inv other_digit).

(** A [jsonb] column takes no other tags. *)
Definition storable_request (ev : occurrence) : Prop := match ev with Request _ _ ts _ _ _ => _reject_pg_unsafe_json ts = false | _ => True end.

Record Acc (s : system) : Prop := {
  acc_rows : forall id r, logs (tables s) !! id = Some r -> safe_tags (after_tags r);
  acc_jobs : forall id j, jobs s !! id = Some j -> safe_tags (job_tags j) /\ owner (tables s) !! job_file j = Some (job_agent j);
  acc_reporting : forall a j b, attempts s !! a = Some (Try j (Reporting b)) -> _reject_pg_unsafe_json b = false;
  acc_settling : forall a j l body, attempts s !! a = Some (Try j (Settling l body)) -> acceptable body;
  acc_net : forall m, m ∈ net s -> match m with Snapshot _ _ b => _reject_pg_unsafe_json b = false | Result _ _ body => acceptable body end;
}.

Lemma acc_initial s : initial s -> Acc s.
Proof using Type.
  intros (Hl & _ & _ & _ & Hj & Ha & Hn & _). split; rewrite ?Hl, ?Hj, ?Ha, ?Hn; intros *; rewrite ?lookup_empty; try done. intros []%elem_of_nil.
Qed.

(** What the invariant needs of a new set of tables, and of a new step. *)
Lemma acc_tables d s : Acc s -> owner d = owner (tables s) -> (forall id r, logs d !! id = Some r -> safe_tags (after_tags r)) -> Acc (on_tables d s).
Proof using Type. intros [H1 H2 H3 H4 H5] Ho Hr. split; simpl; rewrite ?Ho; done. Qed.

Definition step_accepted (st : step) : Prop :=
  match st with Reporting b => _reject_pg_unsafe_json b = false | Settling _ body => acceptable body | _ => True end.

Lemma acc_at_step a j st s : Acc s -> step_accepted st -> Acc (at_step a j st s).
Proof using Type.
  intros [H1 H2 H3 H4 H5] Hst. split; simpl; try done.
  - intros b j' x [[<- [= <- ->]]|[_ Hb]]%lookup_insert_Some; [done|by eapply H3].
  - intros b j' l x [[<- [= <- ->]]|[_ Hb]]%lookup_insert_Some; [done|by eapply H4].
Qed.

Lemma acc_finish a s : Acc s -> Acc (finish a s).
Proof using Type.
  intros [H1 H2 H3 H4 H5]. split; simpl; try done; intros *; intros [_ Hb]%lookup_delete_Some; eauto.
Qed.

Lemma acc_same s s' : Acc s -> tables s' = tables s -> jobs s' = jobs s -> attempts s' = attempts s -> net s' = net s -> Acc s'.
Proof using Type. intros [H1 H2 H3 H4 H5] Et Ej Ea En. split; rewrite ?Et, ?Ej, ?Ea, ?En; done. Qed.

Lemma acc_row id r r' d s : Acc s -> logs (tables s) !! id = Some r -> after_tags r' = after_tags r -> owner d = owner (tables s) ->
  logs d = <[id := r']> (logs (tables s)) -> Acc (on_tables d s).
Proof using Type.
  intros H Hr Ht Ho Hd. apply acc_tables; [done|done|]. rewrite Hd. intros i x [[<- <-]|[_ Hx]]%lookup_insert_Some; [rewrite Ht|]; by eapply acc_rows.
Qed.

Lemma patch_owner agent id blocking body d a d' : patch_tag_write agent id blocking body d = Ok (a, d') -> owner d' = owner d.
Proof using Type.
  unfold patch_tag_write. destruct (_ || _); [done|]. destruct (logs d !! id); [|done]. destruct (_require_file_owner _ _ _); [|done].
  destruct (negb _); intros [= <- <-]; [done|]. unfold clear_ledger_entry. by destruct blocking, (body_sha256 body).
Qed.

Lemma acc_deliver m answered queued s : Acc s -> Acc (deliver m answered queued s).
Proof using Type.
  intros H. destruct m as [a j b|a j body]; simpl.
  - destruct (record_tag_write_before_snapshot _ _ _ _) as [[st d]|] eqn:E; [|done].
    assert (H' : Acc (on_tables d s)).
    { apply snapshot_recorded in E as (r & Hr & [(-> & _)|(_ & _ & _ & ->)]); [by eapply acc_same|].
      eapply (acc_row _ r); [done|exact Hr| | |reflexivity]; done. }
    destruct (attempts s !! a) as [[j' []]|]; try done. destruct (answered && _ && _); [|done]. case_bool_decide; [by apply acc_at_step|by apply acc_finish].
  - destruct (patch_tag_write _ _ _ _ _) as [[x d]|] eqn:E; [|done]. pose proof (patch_owner _ _ _ _ _ _ _ E) as Ho.
    assert (H' : Acc (on_tables d s)).
    { apply result_patched in E as (r & Hr & [(_ & -> & _)|(_ & _ & _ & Hd & _)]); [by eapply acc_same|].
      eapply (acc_row _ r); [done|exact Hr| |done|exact Hd]; done. }
    destruct (attempts s !! a) as [[j' []]|]; try done. destruct (answered && _); [by apply acc_finish|done].
Qed.

Lemma snapshot_step_accepted d : step_accepted (snapshot_step other_digit digest d).
Proof using Type.
  unfold snapshot_step. destruct (_extract_before_tags other_digit d) as [[|x l]|] eqn:E; [done| |done]. by eapply snapshot_accepted.
Qed.

Lemma acc_exec ev s : storable_request ev -> invariant s -> Acc s -> Acc (happens ev s).
Proof using nfc_safe.
  intros Hev HI H. destruct ev as [id file proposed source ok now|id fate|id|a id contained|a opens|a|a|a|n answered queued|a|a half|a]; simpl.
  - destruct (logs (tables s) !! id) eqn:Hid; [done|]. destruct (enqueue_decide _ _ _ _ _ _ _) eqn:E; [|done]. apply enqueue_decided in E as [_ ->].
    assert (H' : Acc (on_tables (set_logs (<[id:=Log file [] proposed source QUEUED None None now]> (logs (tables s))) (tables s)) s)); [|by eapply acc_same].
    apply acc_tables; [done|done|]. intros i r. simpl. intros [[<- <-]|[_ Hr]]%lookup_insert_Some; [by apply tags_accepted|by eapply acc_rows].
  - destruct (decide (id ∈ pending s)); [|done]. destruct (logs (tables s) !! id) as [r|] eqn:Hr; [|done]. destruct fate as [|err].
    + destruct (owner _ !! _) as [agent|] eqn:Ho; [|done]. destruct H as [H1 H2 H3 H4 H5]. split; simpl; try done.
      intros i j [[<- <-]|[_ Hj]]%lookup_insert_Some; [|by eapply H2]. split; [by eapply H1|done].
    + assert (H' : Acc (on_tables (downgrade id err (tables s)) s)); [|by eapply acc_same]. apply acc_tables; [done|done|].
      intros i x Hx. unfold downgrade in Hx. simpl in Hx. apply lookup_alter_Some in Hx as [(-> & y & Hy & ->)|[_ Hx]]; [by apply (acc_rows _ H _ _ Hy)|by eapply acc_rows].
  - by eapply acc_same.
  - destruct (attempts s !! a); [done|]. destruct (jobs s !! id); [|done]. destruct (existsb _ _); [done|]. apply acc_at_step; [done|by destruct contained].
  - destruct (attempts s !! a) as [[j []]|]; try done. apply acc_at_step; [done|by destruct opens].
  - destruct (attempts s !! a) as [[j []]|]; try done. destruct (lock s !! _); [done|]. by eapply acc_same; [apply (acc_at_step a j Owned s H)|..].
  - destruct (attempts s !! a) as [[j []]|]; try done. destruct (disks s !! _) as [d|]; [|done]. apply acc_at_step; [done|apply snapshot_step_accepted].
  - destruct (attempts s !! a) as [[j []]|] eqn:Ha; try done; destruct H as [H1 H2 H3 H4 H5]; split; simpl; try done;
      intros m [->|Hm]%elem_of_cons; try (by apply H5); [by eapply H3|by eapply H4].
  - destruct (net s !! n); [by apply acc_deliver|done].
  - destruct (attempts s !! a) as [[j []]|] eqn:Ha; try done. destruct (disks s !! _) as [d|]; [|done].
    destruct (write_step _ _ _ _ d (job_tags j)) as [d' body] eqn:E.
    assert (H' : Acc (at_step a j (Settling true body) s)); [|by eapply acc_same]. apply acc_at_step; [done|].
    eapply write_acceptable; [|exact E]. by apply (acc_jobs _ H _ _ (attempt_runs _ _ HI _ _ _ Ha)).
  - destruct (attempts s !! a) as [[j []]|] eqn:Ha; try done. destruct (disks s !! _) as [d|]; [|done].
    by eapply acc_same; [apply (acc_finish a s H)|..].
  - by apply acc_finish.
Qed.

Lemma acc_run evs s : Forall storable_request evs -> invariant s -> Acc s -> Acc (runs evs s).
Proof using nfc_safe.
  unfold TagWrite.run. intros Hevs. revert s. induction Hevs as [|ev evs Hev _ IH]; intros s HI H; simpl; [done|]. apply IH; [by apply inv_exec|by apply acc_exec].
Qed.

(** The handlers' answer to a message. *)
Definition answered_ok (m : message) (blocking : bool) (d : db) : Prop :=
  match m with
  | Snapshot _ j b => exists st d', record_tag_write_before_snapshot (job_agent j) (job_log j) b d = Ok (st, d')
  | Result _ j body => exists applied d', patch_tag_write (job_agent j) (job_log j) blocking body d = Ok (applied, d') /\
      exists r, logs d' !! job_log j = Some r /\ log_status r <> QUEUED
  end.

Lemma message_answered m blocking s : invariant s -> Acc s -> m ∈ net s -> answered_ok m blocking (tables s).
Proof using Type.
  intros HI H Hm. pose proof (message_sent _ _ HI _ Hm) as Hj. pose proof (acc_net _ H _ Hm) as Hok.
  destruct (job_row _ _ HI _ _ Hj) as (_ & r & Hr & Hf & _). destruct (acc_jobs _ H _ _ Hj) as [_ Ho]. destruct m as [a j b|a j body]; simpl in *.
  - unfold record_tag_write_before_snapshot, _require_file_owner. rewrite Hok, Hr, Hf, Ho, bool_decide_eq_true_2 by done. destruct (_ || _); eauto.
  - destruct Hok as (Hb & Hd & Hs). unfold patch_tag_write, _require_file_owner. rewrite Hb, Hd, bool_decide_eq_false_2, Hr, Hf, Ho, bool_decide_eq_true_2 by done.
    simpl. case_bool_decide as Hq; simpl; [|eauto 8]. do 2 eexists. split; [done|].
    exists (settle r body). split; [|done]. unfold clear_ledger_entry. destruct blocking, (body_sha256 body); apply lookup_insert_eq.
Qed.

(** C16: no report is refused.  Whatever the files hold and however messages are
    delayed, lost or repeated, the controller answers every snapshot and every
    result an agent sends, and after any result the row is settled: a job never
    fails over an answer it cannot get. *)
Theorem reports_are_accepted s0 evs m blocking :
  initial s0 -> Forall storable_request evs -> m ∈ net (runs evs s0) -> answered_ok m blocking (tables (runs evs s0)).
Proof using nfc_safe.
  intros H0 Hevs. pose proof (inv_initial other_digit s0 H0) as HI. apply message_answered; [by apply inv_run|].
  apply acc_run; [done|done|by apply acc_initial].
Qed.

(** ** A job settles *)

Definition retry (a : nat) (id : string) : list occurrence :=
  [Start a id true; Open a true; Acquire a; Extract a; Send a; Deliver 0 true false; Write a; Send a; Deliver 0 true false].

Definition settled (s : system) (id : string) : Prop := exists r, logs (tables s) !! id = Some r /\ log_status r <> QUEUED.

Lemma settled_run evs s id : invariant s -> settled s id -> settled (runs evs s) id.
Proof using Type.
  intros HI (r & Hr & Hq). destruct (run_grows _ other_isdigit nfc digest evs s HI id r Hr) as (r' & Hr' & [_ E _]).
  exists r'. split; [done|]. by rewrite (E Hq).
Qed.

Lemma result_settles a j body l queued s : invariant s -> Acc s -> net s = Result a j body :: l -> settled (happens (Deliver 0 true queued) s) (job_log j).
Proof using Type.
  intros HI H Hn. simpl. rewrite Hn. simpl. edestruct (message_answered (Result a j body)) as (x & d & E & r & Hr & Hq); [done|exact H|rewrite Hn; by left|].
  rewrite E. exists r. split; [|done]. destruct (attempts _ !! a) as [[j' []]|]; try done. simpl. by case_bool_decide.
Qed.

Lemma snapshot_acknowledged a j b l r queued s : invariant s -> Acc s -> net s = Snapshot a j b :: l -> attempts s !! a = Some (Try j (Reporting b)) ->
  logs (tables s) !! job_log j = Some r -> log_status r = QUEUED ->
  exists d, happens (Deliver 0 true queued) s = at_step a j Acknowledged (on_tables d s).
Proof using Type.
  intros HI H Hn Ha Hr Hq. simpl. rewrite Hn. simpl. edestruct (message_answered (Snapshot a j b) false) as (st & d & E); [done|exact H|rewrite Hn; by left|].
  rewrite E. exists d. simpl. rewrite Ha, !bool_decide_eq_true_2 by done. simpl. apply snapshot_recorded in E as (r' & Hr' & Hcase).
  assert (r' = r) as -> by congruence. rewrite bool_decide_eq_true_2; [done|]. by destruct Hcase as [(_ & -> & _)|(-> & _)].
Qed.

(** An attempt alone on its file, up to its snapshot. *)
Lemma alone s a id j d : jobs s !! id = Some j -> attempts s !! a = None -> (forall m, m ∈ net s -> sender m <> a) ->
  lock s !! job_file j = None -> disks s !! job_file j = Some d ->
  runs [Start a id true; Open a true; Acquire a; Extract a] s =
  Sys (tables s) (disks s) (<[job_file j := a]> (lock s)) (pending s) (jobs s) (<[a := Try j (snapshot_step other_digit digest d)]> (attempts s)) (net s) (touched s).
Proof using Type.
  intros Hj Ha Hn Hl Hd. unfold TagWrite.run. cbn [fold_left].
  assert (E : existsb (fun m => bool_decide (sender m = a)) (net s) = false).
  { apply not_true_iff_false. intros (m & Hm & Em%bool_decide_eq_true)%existsb_exists. apply (Hn m); [by apply list_elem_of_In|done]. }
  cbn [TagWrite.exec]. rewrite Ha, Hj, E. repeat (unfold at_step, on_attempts; cbn [attempts tables disks lock pending jobs net touched]; rewrite ?lookup_insert_eq, ?Hl, ?Hd).
  by rewrite !insert_insert_eq.
Qed.

Lemma run_app l1 l2 s : runs (l1 ++ l2) s = runs l2 (runs l1 s).
Proof using Type. apply fold_left_app. Qed.

Lemma run_kept evs s : Forall storable_request evs -> invariant s -> Acc s -> invariant (runs evs s) /\ Acc (runs evs s).
Proof using nfc_safe. intros. split; [by apply inv_run|by apply acc_run]. Qed.

Lemma report_settles s a j l body : invariant s -> Acc s -> attempts s !! a = Some (Try j (Settling l body)) -> settled (runs [Send a; Deliver 0 true false] s) (job_log j).
Proof using nfc_safe.
  intros HI H Ha. destruct (run_kept [Send a] s) as [HI' H']; [by repeat constructor|done|done|].
  change (settled (happens (Deliver 0 true false) (runs [Send a] s)) (job_log j)).
  apply (result_settles a j body (net s)); [done|done|]. unfold TagWrite.run. simpl. by rewrite Ha.
Qed.

Lemma write_settles s a j d : invariant s -> Acc s -> attempts s !! a = Some (Try j Acknowledged) -> disks s !! job_file j = Some d ->
  settled (runs [Write a; Send a; Deliver 0 true false] s) (job_log j).
Proof using nfc_safe.
  intros HI H Ha Hd. destruct (run_kept [Write a] s) as [HI' H']; [by repeat constructor|done|done|].
  change (settled (runs [Send a; Deliver 0 true false] (runs [Write a] s)) (job_log j)).
  destruct (write_step other_digit other_isdigit nfc digest d (job_tags j)) as [d' body] eqn:E.
  apply (report_settles _ a j true body); [done|done|]. unfold TagWrite.run. simpl. rewrite Ha, Hd, E. apply lookup_insert_eq.
Qed.

Lemma snapshot_step_cases d : (exists b, snapshot_step other_digit digest d = Reporting b) \/ exists l body, snapshot_step other_digit digest d = Settling l body.
Proof using Type. unfold snapshot_step. destruct (_extract_before_tags other_digit d) as [[|x l]|]; eauto. Qed.

Lemma snapshot_settles s a j b d r : invariant s -> Acc s -> attempts s !! a = Some (Try j (Reporting b)) -> disks s !! job_file j = Some d ->
  logs (tables s) !! job_log j = Some r -> log_status r = QUEUED ->
  settled (runs ([Send a; Deliver 0 true false] ++ [Write a; Send a; Deliver 0 true false]) s) (job_log j).
Proof using nfc_safe.
  intros HI H Ha Hd Hr Hq. rewrite run_app. destruct (run_kept [Send a] s) as [HI5 H5]; [by repeat constructor|done|done|].
  assert (E5 : runs [Send a] s = Sys (tables s) (disks s) (lock s) (pending s) (jobs s) (attempts s) (Snapshot a j b :: net s) (touched s)).
  { unfold TagWrite.run. cbn [fold_left TagWrite.exec]. by rewrite Ha. }
  destruct (snapshot_acknowledged a j b (net s) r false (runs [Send a] s)) as [t E6]; try done; try (by rewrite E5).
  destruct (run_kept [Send a; Deliver 0 true false] s) as [HI6 H6]; [by repeat constructor|done|done|].
  assert (E7 : runs [Send a; Deliver 0 true false] s = at_step a j Acknowledged (on_tables t (runs [Send a] s))) by (rewrite <- E6; reflexivity).
  rewrite E7 in *. apply (write_settles _ a j d); [done|done|apply lookup_insert_eq|by rewrite E5].
Qed.

(** C11: a job can always settle.  Whatever happened before, one attempt that finds the
    file free and is not disturbed leaves the row settled; it needs nothing from
    the attempts and messages before it. *)
Theorem undisturbed_retry_settles s0 evs id j a :
  initial s0 -> Forall storable_request evs -> let s := runs evs s0 in
  jobs s !! id = Some j -> lock s !! job_file j = None -> is_Some (disks s !! job_file j) ->
  attempts s !! a = None -> (forall m, m ∈ net s -> sender m <> a) ->
  settled (runs (retry a id) s) id.
Proof using nfc_safe.
  intros H0 Hevs s Hj Hl [d Hd] Ha Hn. pose proof (inv_run other_digit other_isdigit nfc digest evs s0 (inv_initial _ s0 H0)) as HI.
  pose proof (acc_run evs s0 Hevs (inv_initial _ s0 H0) (acc_initial s0 H0)) as H. fold s in HI, H.
  destruct (job_row _ _ HI _ _ Hj) as (Hid & r & Hr & _). subst id.
  destruct (decide (log_status r = QUEUED)) as [Hq|Hq]; [|apply settled_run; [done|by exists r]].
  pose proof (alone s a (job_log j) j d Hj Ha Hn Hl Hd) as E.
  destruct (run_kept [Start a (job_log j) true; Open a true; Acquire a; Extract a] s) as [HI4 H4]; [by repeat constructor|done|done|].
  assert (Er : retry a (job_log j) = [Start a (job_log j) true; Open a true; Acquire a; Extract a] ++ ([Send a; Deliver 0 true false] ++ [Write a; Send a; Deliver 0 true false]))
    by reflexivity.
  rewrite Er, run_app. rewrite E in HI4, H4 |- *. destruct (snapshot_step_cases d) as [[b Eb]|(l & body & Eb)]; rewrite Eb in HI4, H4 |- *.
  - apply (snapshot_settles _ a j b d r); [done|done|apply lookup_insert_eq|done..].
  - rewrite run_app. apply settled_run; [by apply inv_run|]. apply (report_settles _ a j l body); [done|done|apply lookup_insert_eq].
Qed.
End agent.

(** ** Witnesses *)

Lemma reports_are_accepted_witness :
  exists x d', patch_tag_write "vault" "w1" true
    (ResultPayload COMPLETED demo_snapshot None None None) (tables (demo_run (ask "w1" "proposal" demo_payload 1 ++ admitted 0 "w1" ++ [Write 0; Send 0]) demo_start)) =
    Ok (x, d') /\ exists r, logs d' !! "w1"%string = Some r /\ log_status r <> QUEUED.
Proof.
  set (evs := ask "w1" "proposal" demo_payload 1 ++ admitted 0 "w1" ++ [Write 0; Send 0]).
  pose proof (reports_are_accepted no_digit no_isdigit id (fun _ => None) (fun t H => H) demo_start evs
    (Result 0 (WriteFileTagsPayload "w1" "song.ogg" "vault" demo_payload) (ResultPayload COMPLETED demo_snapshot None None None)) true demo_start_initial) as H.
  assert (He : Forall storable_request evs) by (unfold evs, ask, admitted; repeat constructor; vm_compute; reflexivity).
  assert (Hm : Result 0 (WriteFileTagsPayload "w1" "song.ogg" "vault" demo_payload) (ResultPayload COMPLETED demo_snapshot None None None) ∈ net (demo_run evs demo_start))
    by (apply list_elem_of_lookup; exists 0%nat; vm_compute; reflexivity).
  exact (H He Hm).
Defined.

(** A first attempt died after its save; the next one settles the row. *)
Lemma undisturbed_retry_settles_witness :
  let s := demo_run (ask "w1" "proposal" demo_payload 1 ++ admitted 0 "w1" ++ [Write 0; Die 0]) demo_start in
  (log_status <$> logs (tables s) !! "w1"%string) = Some QUEUED /\ settled (demo_run (retry 1 "w1") s) "w1".
Proof.
  intros s. split; [vm_compute; reflexivity|].
  apply (undisturbed_retry_settles no_digit no_isdigit id (fun _ => None) (fun t H => H) demo_start _ "w1"%string
    (WriteFileTagsPayload "w1" "song.ogg" "vault" demo_payload) 1%nat demo_start_initial).
  - unfold ask, admitted. repeat constructor; vm_compute; reflexivity.
  - vm_compute. reflexivity.
  - vm_compute. reflexivity.
  - eexists. vm_compute. reflexivity.
  - vm_compute. reflexivity.
  - assert (E : sender <$> net s = [0%nat]) by (vm_compute; reflexivity). intros m Hm Hs.
    assert (H1 : 1%nat ∈ [0%nat]) by (rewrite <- E, <- Hs; by apply list_elem_of_fmap_2). apply list_elem_of_singleton in H1. discriminate H1.
Defined.
