(* ===== verification/Drain.v ===== *)
(** * The tiered drain: [tasks/release_awaiting_cloud.py]

    One tick under the advisory lock: snapshot every backend, walk the queue of
    awaiting files in pages, route each to a backend, commit once, then fire the
    parked enqueues.  The process-local cursor and alarm streak survive ticks.
    [routed] is a ghost field: the files routed so far, newest first. *)
From S2P Require Import Prelude StateErr Selection Breaker CloudJobs Callbacks.
From stdpp Require Import sorting options.
Local Open Scope Z_scope.

Definition _MIN_CANDIDATE_PAGE : Z := 20.
Definition _MAX_CANDIDATE_SCAN : Z := 500.
Definition _ALL_HELD_WARN_AFTER_TICKS : Z := 3.
Definition HOLD_LOCAL_OWNERSHIP : string := "local_analysis_ownership".

(** ** The queue: [get_cloud_staging_candidates] *)

(** A row of the page: the file, and its [cloud_job.updated_at]. *)
Record Candidate : Type := Cand { c_file : string; c_record : FileRecord; lane_entered_at : datetime }.

Definition cursor : Type := Z * string.
Definition c_key (c : Candidate) : cursor := (created_at (c_record c), c_file c).

(** [(created_at, id)] as SQL compares row values. *)
Definition key_before (a b : cursor) : Prop := a.1 < b.1 \/ a.1 = b.1 /\ string_le a.2 b.2.
Definition c_before (a b : Candidate) : Prop := key_before (c_key a) (c_key b).
#[export] Instance c_before_dec : RelDecision c_before.
Proof. unfold c_before, key_before. intros a b. apply _. Defined.

Definition past (after : option cursor) (c : Candidate) : Prop :=
  match after with Some k => ~ key_before (c_key c) k | None => True end.
#[export] Instance past_dec after c : Decision (past after c).
Proof. unfold past, key_before. destruct after; apply _. Defined.

Definition candidate_of (free : string -> bool) (t : tables) (r : string * CloudJob) : option Candidate :=
  if bool_decide (status r.2 = AWAITING) && free r.1 then
    match files t !! r.1 with Some f => Some (Cand r.1 f (updated_at r.2)) | None => None end
  else None.

(** Every awaiting row whose file is free, in queue order. *)
Definition queue (free : string -> bool) (t : tables) : list Candidate :=
  merge_sort c_before (omap (candidate_of free t) (map_to_list (cloud_job t))).

(** ** State of a tick *)

Record WalkState : Type := Walk {
  staged : Z;
  skipped : Z;
  hold_reasons : gmap string Z;
  scanned : Z;
  resume_after : option cursor;
}.

Record dworld : Type := DWorld {
  base : world;
  slots : snapshot_t;
  walk : WalkState;
  _resume_cursor : option cursor;
  _consecutive_all_held_ticks : Z;
  routed : list string;
}.

Abbreviation D := (SE dworld cexn).

(** A step of the session. *)
Definition db {A} (m : M A) : D A := fun d =>
  let (w, r) := m (base d) in
  (DWorld w (slots d) (walk d) (_resume_cursor d) (_consecutive_all_held_ticks d) (routed d), r).

Definition get_slots : D snapshot_t := fun d => (d, Ok (slots d)).
Definition set_slots (s : snapshot_t) : D unit := fun d =>
  (DWorld (base d) s (walk d) (_resume_cursor d) (_consecutive_all_held_ticks d) (routed d), Ok tt).
Definition get_walk : D WalkState := fun d => (d, Ok (walk d)).
Definition on_walk (f : WalkState -> WalkState) : D unit := fun d =>
  (DWorld (base d) (slots d) (f (walk d)) (_resume_cursor d) (_consecutive_all_held_ticks d) (routed d), Ok tt).
Definition get_cursor : D (option cursor) := fun d => (d, Ok (_resume_cursor d)).
Definition _carry_resume_cursor (k : option cursor) : D unit := fun d =>
  (DWorld (base d) (slots d) (walk d) k (_consecutive_all_held_ticks d) (routed d), Ok tt).
Definition note_routed (file : string) : D unit := fun d =>
  (DWorld (base d) (slots d) (walk d) (_resume_cursor d) (_consecutive_all_held_ticks d) (file :: routed d), Ok tt).

Definition new_walk : WalkState := Walk 0 0 ∅ 0 None.
Definition add_skipped (n : Z) (s : WalkState) : WalkState :=
  Walk (staged s) (skipped s + n) (hold_reasons s) (scanned s) (resume_after s).
Definition add_staged (s : WalkState) : WalkState :=
  Walk (staged s + 1) (skipped s) (hold_reasons s) (scanned s) (resume_after s).
Definition add_scanned (n : Z) (s : WalkState) : WalkState :=
  Walk (staged s) (skipped s) (hold_reasons s) (scanned s + n) (resume_after s).
Definition hold_for (reason : string) (s : WalkState) : WalkState :=
  Walk (staged s) (skipped s + 1) (<[reason := default 0 (hold_reasons s !! reason) + 1]> (hold_reasons s)) (scanned s) (resume_after s).
Definition set_resume_after (k : cursor) (s : WalkState) : WalkState :=
  Walk (staged s) (skipped s) (hold_reasons s) (scanned s) (Some k).

Definition _free_slots (snapshot : snapshot_t) : Z :=
  foldr (fun s n => (if available s.2 then remaining s.2 else 0) + n) 0 snapshot.

Definition take_slot (id : string) (snapshot : snapshot_t) : snapshot_t :=
  match dict_get id snapshot with
  | Some s => dict_set id (Slot (backend s) (available s) (remaining s - 1) (cap s)) snapshot
  | None => snapshot
  end.

Section drain.
Context (others : nat -> tables -> tables) (stmt_ok : nat -> bool) (nested_at : nat -> nested_fate).
Context (commit_at : nat -> commit_fate) (agent_at : nat -> option string).
Context (s3_create : nat -> create_fate) (s3_at : nat -> s3_fate) (enqueue_at : nat -> enqueue_fate).
Context (digest : string -> Z) (cfg : CloudSettings) (now : datetime).

(** What the world answers at a call: the clock; whether a file is free of
    analysis in flight and completed and of row locks, and free of broker jobs;
    the attempt lock; the probes ([None]: hung or raised); the local counts. *)
Context (clock_at : nat -> Z) (free_at : nat -> string -> bool) (lock_at : nat -> string -> bool).
Context (brokered_at : nat -> string -> bool) (online_at : nat -> string -> bool) (kube_at : nat -> string -> option bool).
Context (local_running local_ledger : nat -> Z) (cloud_enabled : bool) (force_local : nat -> bool) (stale_at : nat -> bool).

Abbreviation stmt := (CloudJobs.stmt others stmt_ok).
Abbreviation query := (CloudJobs.query others stmt_ok).
Abbreviation nested := (CloudJobs.nested others nested_at).
Abbreviation select_active_agent := (CloudJobs.select_active_agent others stmt_ok agent_at).
Abbreviation dispatch := (CloudJobs.dispatch others stmt_ok agent_at s3_create s3_at enqueue_at digest cfg now).

Definition utc_now : M datetime := fun w => (w, Ok (Datetime true (clock_at (calls w)))).

Definition get_cloud_staging_candidates (limit : Z) (after : option cursor) : M (list Candidate) :=
  query (fun n t => take (Z.to_nat limit) (filter (past after) (queue (free_at n) t))).

(** ** The snapshot *)

(** [is_available], bounded by the probe's timeout. *)
Definition _bounded_is_available (b : Backend) : M bool :=
  match config b with
  | KLocal => ret true
  | KCompute r _ _ _ => if falsy r then raise ValueError else query (fun n _ => online_at n (default ""%string r))
  | KKueue _ => fun w =>
      let w1 := elapse others w in
      match kube_at (calls w) (backend_id b) with Some up => (w1, Ok up) | None => (w1, Raise ValueError) end
  end.

Definition in_flight (b : Backend) : M Z :=
  match config b with
  | KLocal => nested (fun n t => (t, local_running n)) (query (fun n _ => local_ledger n)) (query (fun n _ => local_ledger n))
  | _ => query (fun _ t => in_flight_count (backend_id b) t)
  end.

Definition load_breakers : M (gmap string OpenBreaker) :=
  nested (fun _ t => (t, load_open_breakers true (Breaker.Tables (breaker_rows t) ∅))) (ret ∅) (ret ∅).

Definition set_breaker_rows (m : gmap string BackendBreaker) (t : tables) : tables :=
  Tables (files t) (cloud_job t) (cloud_budget t) (ledger t) m.

Definition hold_for_breaker (o : OpenBreaker) (remaining_ : Z) (at_ : datetime) : M Z :=
  let (slots_, probe) := gate_remaining (Some o) remaining_ at_ in
  seq! (if probe then
          nested (fun _ t => (set_breaker_rows (breakers (arm_next_probe (o_backend_id o) at_ (Breaker.Tables (breaker_rows t) ∅))) t, tt))
            (ret tt) (ret tt)
        else ret tt);
  ret slots_.

Definition probe_backend (b : Backend) : M (option (bool * Z)) :=
  catch (run! up <- _bounded_is_available b; run! n <- in_flight b; ret (Some (up, Z.max 0 (backend_cap b - n))))
    (fun _ => ret None).

Fixpoint snapshot_each (breakers_ : gmap string OpenBreaker) (at_ : datetime) (backends : list Backend) (snapshot : snapshot_t) : M snapshot_t :=
  match backends with
  | [] => ret snapshot
  | b :: rest =>
      run! probed <- probe_backend b;
      match probed with
      | None => snapshot_each breakers_ at_ rest (dict_set (backend_id b) (Slot b false 0 (backend_cap b)) snapshot)
      | Some (up, room) =>
          run! room' <- match breakers_ !! backend_id b with Some o => hold_for_breaker o room at_ | None => ret room end;
          snapshot_each breakers_ at_ rest (dict_set (backend_id b) (Slot b up room' (backend_cap b)) snapshot)
      end
  end.

Definition _snapshot_backend_slots (backends : list Backend) : M snapshot_t :=
  run! at_ <- utc_now;
  run! breakers_ <- load_breakers;
  snapshot_each breakers_ at_ backends [].

(** ** Routing *)

Definition _cloud_budget_for (file : string) : M (Z * option CloudBudgetState) :=
  query (fun _ t => match files t !! file with
                    | None => (0, None)
                    | Some _ => (default 0 (attempts <$> cloud_job t !! file), cloud_budget t !! file)
                    end).

Definition _route_candidate (c : Candidate) (tries : Z) (budget : option CloudBudgetState) : D (option Backend * string) :=
  run! n <- db utc_now;
  run! snapshot <- get_slots;
  let n' := if aware (lane_entered_at c) then n else Datetime false (usec n) in
  match select_backend_with_reason (lane_entered_at c) tries snapshot n' (policy cfg) budget with
  | Ok r => ret r
  | Raise e => raise (PolicyError e)
  end.

Definition try_lock_analysis_attempt (key : string) : M bool := query (fun n _ => lock_at n key).

Definition cloud_candidate_available (file : string) : M bool :=
  let candidate n t := match cloud_job t !! file with
                       | Some j => bool_decide (status j = AWAITING) && free_at n file && bool_decide (is_Some (files t !! file))
                       | None => false
                       end in
  nested (fun n t => (t, candidate n t && negb (brokered_at n file))) (query candidate) (raise DbError).

Definition admitted (target : Backend) (file : string) : M bool :=
  if is_local target then ret true
  else
    run! locked <- try_lock_analysis_attempt (process_file_job_key file);
    if locked : bool then cloud_candidate_available file else ret false.

(** One iteration; [held]: the rest of the page, this file included. *)
Definition stage_candidate (c : Candidate) (held : Z) : D bool :=
  seq! note_routed (c_file c);
  run! b <- db (_cloud_budget_for (c_file c));
  run! choice <- _route_candidate c b.1 b.2;
  match choice.1 with
  | None => seq! on_walk (hold_for choice.2); ret false
  | Some target =>
      run! ok <- db (admitted target (c_file c));
      if negb ok then seq! on_walk (hold_for HOLD_LOCAL_OWNERSHIP); ret false
      else
        run! dispatched <-
          catch (run! r <- db (dispatch target (c_file c) (c_record c)); ret (Some (Some r)))
            (fun e => match e with
                      | NoActiveAgentError => seq! on_walk (add_skipped held); ret None
                      | _ => seq! on_walk (add_skipped 1); ret (Some None)
                      end);
        match dispatched with
        | None => ret true
        | Some None => ret false
        | Some (Some r) =>
            run! snapshot <- get_slots;
            seq! set_slots (take_slot (backend_id target) snapshot);
            seq! on_walk (if r : bool then add_staged else add_skipped 1);
            ret false
        end
  end.

Fixpoint _stage_candidate_page (page : list Candidate) : D bool :=
  match page with
  | [] => ret false
  | c :: rest =>
      run! vanished <- stage_candidate c (Z.of_nat (length page));
      if vanished : bool then ret true else _stage_candidate_page rest
  end.

(** ** The walk *)

Definition page_t : Type := list Candidate * Z.

Definition _next_candidate_page (page : list Candidate) (page_limit : Z) : D (option page_t) :=
  run! snapshot <- get_slots;
  run! s <- get_walk;
  let free := _free_slots snapshot in
  if (free <=? 0) || (Z.of_nat (length page) <? page_limit) then ret None
  else
    match last page with
    | None => ret None
    | Some l =>
        if scanned s >=? _MAX_CANDIDATE_SCAN then seq! on_walk (set_resume_after (c_key l)); ret None
        else
          let next_limit := Z.min (Z.max free _MIN_CANDIDATE_PAGE) (_MAX_CANDIDATE_SCAN - scanned s) in
          run! next_page <- db (get_cloud_staging_candidates next_limit (Some (c_key l)));
          match next_page with [] => ret None | _ => ret (Some (next_page, next_limit)) end
    end.

(** [while True]; [fuel] bounds the pages. *)
Fixpoint _walk_candidate_pages (fuel : nat) (page : page_t) : D unit :=
  match fuel with
  | O => ret tt
  | S fuel' =>
      seq! on_walk (add_scanned (Z.of_nat (length page.1)));
      run! vanished <- _stage_candidate_page page.1;
      run! next <- (if vanished : bool then ret None else _next_candidate_page page.1 page.2);
      match next with
      | None => ret tt
      | Some p => _walk_candidate_pages fuel' p
      end
  end.

(** A page after the first is not empty and the scan budget is 500. *)
Definition PAGES : nat := 501.

Definition _first_candidate_page (limit : Z) : D (list Candidate * bool) :=
  run! start_after <- get_cursor;
  match start_after with
  | Some k =>
      run! rows <- db (get_cloud_staging_candidates limit (Some k));
      match rows with
      | [] => run! head <- db (get_cloud_staging_candidates limit None); ret (head, false)
      | _ => ret (rows, true)
      end
  | None => run! head <- db (get_cloud_staging_candidates limit None); ret (head, false)
  end.

Definition _note_all_held_tick (all_held : bool) : D Z := fun d =>
  let n := if all_held then _consecutive_all_held_ticks d + 1 else 0 in
  (DWorld (base d) (slots d) (walk d) (_resume_cursor d) n (routed d), Ok n).

(** The result: whether the starvation warning is logged. *)
Definition _report_tick_outcome : D bool :=
  run! s <- get_walk;
  let all_held := (staged s =? 0) && (map_fold (fun _ n sum => n + sum) 0 (hold_reasons s) =? scanned s) && (scanned s >? 0) in
  run! consecutive <- _note_all_held_tick all_held;
  ret (all_held && (consecutive >=? _ALL_HELD_WARN_AFTER_TICKS)).

(** ** The tick *)

Definition has_stale_awaiting_ownership : M bool := query (fun n _ => stale_at n).

Definition get_route_control : M bool := nested (fun n t => (t, force_local n)) (ret false) (ret false).

(** Leaving [async with ... as session] without a commit. *)
Definition with_session {A} (m : D A) : D A := fun d =>
  let (d', r) := m d in let (d'', _) := db (CloudJobs.rollback others) d' in (d'', r).

Definition drop_parked : M unit :=
  seq! drop_pending_s3_enqueues others s3_at;
  drop_pending_push_file_enqueues.

Definition guarded_walk (candidates : list Candidate) (limit : Z) : D unit :=
  seq! _walk_candidate_pages PAGES (candidates, limit);
  seq! db (CloudJobs.commit others commit_at);
  run! s <- get_walk;
  seq! _carry_resume_cursor (resume_after s);
  seq! db (flush_pending_s3_enqueues others enqueue_at);
  db (flush_pending_push_file_enqueues others enqueue_at).

Definition stage_cloud_window : D (Z * Z) :=
  if negb cloud_enabled then ret (0, 0)
  else
    seq! on_walk (fun _ => new_walk);
    with_session
      (run! forced <- db get_route_control;
       if forced : bool then ret (0, 0)
       else
         run! stale <- db has_stale_awaiting_ownership;
         seq! (if stale : bool then db (fun w => (elapse others w, Ok tt)) else ret tt);
         seq! db (query (fun _ _ => tt));
         run! snapshot <- db (_snapshot_backend_slots (registry cfg));
         seq! set_slots snapshot;
         let limit := _free_slots snapshot in
         if limit <=? 0 then ret (0, 0)
         else
           run! first <- _first_candidate_page limit;
           match first.1 with
           | [] => seq! _carry_resume_cursor None; ret (0, 0)
           | _ =>
               run! agent <- catch (run! a <- db select_active_agent; ret (Some a))
                                (fun e => match e with NoActiveAgentError => ret None | _ => raise e end);
               match agent with
               | None => ret (0, Z.of_nat (length first.1))
               | Some _ =>
                   run! finished <- catch (seq! guarded_walk first.1 limit; ret true)
                                       (fun _ => seq! db drop_parked; seq! db (CloudJobs.rollback others); ret false);
                   run! s <- get_walk;
                   if finished : bool then seq! _report_tick_outcome; ret (staged s, skipped s)
                   else ret (0, Z.max (scanned s) (Z.of_nat (length first.1)))
               end
           end).

End drain.
