(* ===== verification/DrainSafety.v ===== *)
(** * The drain never overshoots a cap

    What a [dispatch] claims, the snapshot's bound, and the tick. *)
From S2P Require Import Prelude StateErr Selection Breaker CloudJobs Callbacks Drain.
From stdpp Require Import sorting options.
Local Open Scope Z_scope.

Section claims.
Context (others : nat -> tables -> tables) (stmt_ok : nat -> bool) (nested_at : nat -> nested_fate).
Context (agent_at : nat -> option string) (s3_create : nat -> create_fate) (s3_at : nat -> s3_fate) (enqueue_at : nat -> enqueue_fate).
Context (digest : string -> Z) (cfg : CloudSettings) (now : datetime).
Context (rely : forall n t b g, occ b (others n t) g <= occ b t g).

(** No backend holds more of [f] than [o] says. *)
Definition low (o : string -> Z) (f : string) (w : world) : Prop := forall b, occ b (view w) f <= o b.
Definition claimed (target f : string) (w : world) : Prop := forall b, occ b (view w) f <= if bool_decide (b = target) then 1 else 0.
Definition or_poisoned (P : world -> Prop) (w : world) : Prop := poisoned w = true \/ P w.

Lemma low_elapse o f w : low o f w -> low o f (elapse others w).
Proof using rely. intros H b. simpl. pose proof (rely (calls w) (view w) b f). specialize (H b). lia. Qed.

Lemma low_query {A} o f (q : nat -> tables -> A) : triple (low o f) (query others stmt_ok q) (fun _ => low o f) (or_poisoned (low o f)).
Proof using rely.
  intros w Hw%low_elapse. unfold query, stmt. destruct (poisoned (elapse others w)) eqn:Hp; [by left|].
  destruct (stmt_ok _); [done|by left].
Qed.

Lemma low_agent o f : triple (low o f) (select_active_agent others stmt_ok agent_at) (fun _ => low o f) (or_poisoned (low o f)).
Proof using rely.
  eapply triples_bind; [apply low_query|]. intros [a|] w Hw; [exact Hw|by right].
Qed.

Lemma low_create o f g b : triple (low o f) (create_multipart_upload others s3_create g b) (fun _ => low o f) (or_poisoned (low o f)).
Proof using rely. intros w Hw%low_elapse. unfold create_multipart_upload. destruct (s3_create _); [done|by right]. Qed.

Lemma low_presign o f fr : 0 < s3_multipart_part_size_bytes cfg -> String.prefix "/" (original_path fr) = true ->
  triple (low o f) (_presign_multipart_parts others s3_at cfg fr)
    (fun p w => low o f w /\ upload_payload_valid fr p = true) (or_poisoned (low o f)).
Proof using rely.
  intros Hfloor Hpath w Hw. unfold _presign_multipart_parts, presign_upload_parts. destruct (_ >? _); [by right|].
  apply low_elapse in Hw. destruct (s3_at _); [|by right]. split; [done|]. unfold upload_payload_valid. rewrite Hpath. simpl.
  apply andb_true_iff. split; [apply Z.geb_le; lia|apply Z.gtb_lt; lia].
Qed.

Lemma low_abort o f g u b : triple (or_poisoned (low o f)) (_best_effort_abort_orphaned_multipart others s3_at g u b)
  (fun _ => or_poisoned (low o f)) (or_poisoned (low o f)).
Proof using rely.
  intros w Hw. unfold _best_effort_abort_orphaned_multipart, catch, abort_multipart_upload, ret.
  assert (He : or_poisoned (low o f) (log_s3 (AbortMultipart g (bucket_id b) u) (elapse others w))).
  { destruct Hw as [Hp|Hl]; [by left|right]. by apply low_elapse in Hl. }
  by destruct (s3_at _).
Qed.

Lemma claim_stmt (P : world -> Prop) target f q :
  (forall n t b, occ b (q n t).1 f <= if bool_decide (b = target) then 1 else 0) ->
  triple P (stmt others stmt_ok q) (fun _ : unit => claimed target f) (fun w => poisoned w = true).
Proof.
  intros Hq w _. unfold stmt. destruct (poisoned (elapse others w)) eqn:Hp; [done|]. destruct (stmt_ok _); [|done].
  specialize (Hq (calls w) (view (elapse others w))). destruct (q _ _) as [t []]. intros b. apply Hq.
Qed.

Lemma occ_set b f j t : occ b (set_cloud_job (<[f := j]> (cloud_job t)) t) f = if occupies b j then 1 else 0.
Proof. unfold occ. simpl. by rewrite lookup_insert_eq. Qed.

Lemma occ_set_ne b f g j t : g <> f -> occ b (set_cloud_job (<[f := j]> (cloud_job t)) t) g = occ b t g.
Proof. intros. unfold occ. simpl. by rewrite lookup_insert_ne. Qed.

Lemma occ_owned b target j : job_backend_id j = Some target -> (if occupies b j then 1 else 0) <= if bool_decide (b = target) then 1 else 0.
Proof.
  intros Hj. unfold occupies. rewrite Hj. destruct (decide (b = target)) as [->|Hne].
  - rewrite (bool_decide_eq_true_2 (target = target)) by done. destruct (_ && _); lia.
  - rewrite (bool_decide_eq_false_2 (Some target = Some b)) by congruence. simpl. destruct (bool_decide _); lia.
Qed.

Lemma stage_low o f fr bucket : 0 < s3_multipart_part_size_bytes cfg -> String.prefix "/" (original_path fr) = true ->
  triple (low o f) (_stage_file_to_s3 others stmt_ok agent_at s3_create s3_at cfg now f fr bucket)
    (fun _ _ => True) (or_poisoned (low o f)).
Proof using rely.
  intros Hfloor Hpath. unfold _stage_file_to_s3. eapply triples_bind; [apply low_agent|]. intros agent.
  destruct (_ >? _); [intros w Hw; by right|]. eapply triples_bind; [apply low_create|]. intros u.
  eapply triples_catch.
  - eapply triples_bind; [by apply low_presign|]. intros p. simpl.
    eapply (triples_bind _ _ _ (fun _ _ => upload_payload_valid fr p = true)).
    + intros w [_ Hv]. unfold stmt. destruct (poisoned (elapse others w)) eqn:Hp; [by left|]. destruct (stmt_ok _); [done|by left].
    + intros x w Hv. rewrite Hv. exact I.
  - intros e. eapply triples_bind; [apply low_abort|]. intros x w Hw. exact Hw.
Qed.

(** What the registry and the files must be for a payload to be built. *)
Definition dest_of (b : Backend) := (push_host b, scratch_dir b, ssh_user b).
Definition bound (b : Backend) : Prop := falsy (push_host b) = false /\ falsy (scratch_dir b) = false.
Definition file_valid (fr : FileRecord) : Prop :=
  String.prefix "/" (original_path fr) = true /\ forall b, b ∈ registry cfg -> is_local b = false -> (forall l, config b <> KKueue l) ->
    bound b /\ push_payload_valid fr (dest_of b) = true.

(** A dispatch either leaves its file where it was, or has poisoned the
    transaction, or has moved it to a slot of its own backend. *)
Lemma dispatch_claims o target f fr :
  0 < s3_multipart_part_size_bytes cfg -> file_valid fr -> target ∈ registry cfg ->
  triple (low o f) (dispatch others stmt_ok agent_at s3_create s3_at enqueue_at digest cfg now target f fr)
    (fun _ => or_poisoned (fun w => if is_local target then low o f w else claimed (backend_id target) f w)) (or_poisoned (low o f)).
Proof using rely.
  intros Hfloor [Hpath Hpay] Hin. unfold dispatch, is_local. destruct (config target) as [|ref host scratch user|bs] eqn:Hk.
  - unfold local_dispatch. eapply (triples_bind _ _ _ (fun _ => or_poisoned (low o f))).
    + eapply (triples_catch _ _ _ _ (or_poisoned (low o f))).
      * eapply triples_bind; [apply low_agent|]. intros a w Hw. by right.
      * intros e w Hw. destruct e; exact Hw.
    + intros [a|] w Hw; [|exact Hw]. unfold enqueue_process_file, enqueue.
      assert (Hl : forall h l j, or_poisoned (low o f) (land h l j (elapse others w))).
      { intros h l j. destruct Hw as [Hp|Hl]; [by left|right]. apply low_elapse in Hl. destruct h; exact Hl. }
      destruct (enqueue_at _); apply Hl.
  - destruct (Hpay target Hin ltac:(by unfold is_local; rewrite Hk) ltac:(by rewrite Hk)) as [[Hh Hs] Hv].
    unfold compute_dispatch. eapply triples_bind; [apply low_agent|]. intros agent.
    eapply triples_bind.
    { eapply triple_weaken; [apply (claim_stmt (fun _ => True) (backend_id target) f)|done|intros ? w H; exact H|by left].
      intros n t b. unfold submitted_upsert. cbn [fst]. rewrite occ_set. destruct (cloud_job t !! f); by apply occ_owned. }
    intros x. unfold _destination. rewrite Hh, Hs. 
    unfold lift at 1, bind. intros w Hw. cbn. unfold _build_push_file_enqueue_kwargs, dest_of in *. rewrite Hv. by right.
  - unfold kueue_dispatch. destruct (pick_bucket _ _) as [id|e]; [|intros w Hw; by right].
    eapply triples_bind; [intros w Hw; exact Hw|]. intros id'. destruct (resolve_bucket_config cfg (Some id')) as [bucket|]; [|intros w Hw; by right].
    eapply triples_bind; [by apply stage_low|]. intros x. eapply triples_bind.
    { eapply triple_weaken; [apply (claim_stmt (fun _ => True) (backend_id target) f)|done|intros ? w H; exact H|by left].
      intros n t b. unfold stamp_backend. destruct (cloud_job t !! f) as [j|] eqn:Hj; cbn [fst].
      - rewrite occ_set. by apply occ_owned.
      - unfold occ. rewrite Hj. destruct (bool_decide _); lia. }
    intros y w Hw. by right.
Qed.

(** ** What else a dispatch keeps *)

(** A statement that writes at most the row of [f]. *)
Definition writes_row {A} (f : string) (q : nat -> tables -> tables * A) : Prop :=
  forall n t, (q n t).1 = t \/ exists j, (q n t).1 = set_cloud_job (<[f := j]> (cloud_job t)) t.

Lemma keeps_dispatch (X : world -> Prop) target f fr :
  (forall w, X w -> X (elapse others w)) ->
  (forall A (q : nat -> tables -> tables * A), writes_row f q -> keeps X (stmt others stmt_ok q)) ->
  (forall c w, X w -> X (log_s3 c w)) -> (forall s p w, X w -> X (parked s p w)) -> (forall h l j w, X w -> X (land h l j w)) ->
  keeps X (dispatch others stmt_ok agent_at s3_create s3_at enqueue_at digest cfg now target f fr).
Proof.
  intros Hel Hst Hlog Hpark Hland.
  assert (Hq : forall A (q : nat -> tables -> A), keeps X (query others stmt_ok q)) by (intros A q; apply Hst; by left).
  assert (Hag : keeps X (select_active_agent others stmt_ok agent_at)).
  { apply keeps_bind; [apply Hq|]. intros [a|]; auto with phaze. }
  assert (Hab : forall u b, keeps X (_best_effort_abort_orphaned_multipart others s3_at f u b)).
  { intros u b. apply keeps_catch; [|auto with phaze]. intros w Hw. unfold abort_multipart_upload. destruct (s3_at _); by apply Hlog, Hel. }
  unfold dispatch. destruct (config target).
  - unfold local_dispatch. apply keeps_bind.
    + apply keeps_catch; [apply keeps_bind; auto with phaze|]. intros []; auto with phaze.
    + intros [a|]; [|auto with phaze]. intros w Hw. unfold enqueue_process_file, enqueue. destruct (enqueue_at _); by apply Hland, Hel.
  - unfold compute_dispatch. apply keeps_bind; [done|]. intros a. apply keeps_bind.
    { apply Hst. intros n t. right. eexists. reflexivity. }
    intros _. apply keeps_bind; [auto with phaze|]. intros dest. apply keeps_bind; [auto with phaze|]. intros j.
    apply keeps_bind; [|auto with phaze]. intros w Hw. by apply Hpark.
  - unfold kueue_dispatch. apply keeps_bind; [auto with phaze|]. intros id. destruct (resolve_bucket_config _ _) as [bucket|]; [|auto with phaze].
    apply keeps_bind.
    + unfold _stage_file_to_s3. apply keeps_bind; [done|]. intros a. destruct (_ >? _); [auto with phaze|]. apply keeps_bind.
      { intros w Hw. unfold create_multipart_upload. destruct (s3_create _); [by apply Hlog, Hel|by apply Hel]. }
      intros u. apply keeps_catch; [|intros e; apply keeps_bind; auto with phaze]. apply keeps_bind.
      { intros w Hw. unfold _presign_multipart_parts, presign_upload_parts. destruct (_ >? _); [done|]. destruct (s3_at _); by apply Hel. }
      intros p. apply keeps_bind; [apply Hst; intros n t; right; eexists; reflexivity|]. intros _.
      destruct (upload_payload_valid fr p); [|auto with phaze]. intros w Hw. by apply Hpark.
    + intros _. apply keeps_bind; [|auto with phaze]. apply Hst. intros n t. unfold stamp_backend.
      destruct (cloud_job t !! f); [right; eexists; reflexivity|by left].
Qed.

(** Poison stays. *)
Definition stuck (w : world) : Prop := poisoned w = true.
Lemma stuck_stmt {A} (q : nat -> tables -> tables * A) : keeps stuck (stmt others stmt_ok q).
Proof. intros w Hw. unfold stmt. simpl. unfold stuck in Hw. by rewrite Hw. Qed.
Lemma dispatch_stuck target f fr : keeps stuck (dispatch others stmt_ok agent_at s3_create s3_at enqueue_at digest cfg now target f fr).
Proof. apply keeps_dispatch; try done. intros A q _. apply stuck_stmt. Qed.

(** What is committed moves only with the other sessions. *)
Definition rests (P : tables -> Prop) (w : world) : Prop := P (committed w).
Lemma rests_stmt {A} (P : tables -> Prop) (q : nat -> tables -> tables * A) :
  (forall n t, P t -> P (others n t)) -> keeps (rests P) (stmt others stmt_ok q).
Proof.
  intros Hr w Hw. unfold stmt. simpl. destruct (poisoned w); [by apply Hr|]. destruct (stmt_ok _); [|by apply Hr].
  destruct (q _ _). by apply Hr.
Qed.
Lemma dispatch_rests P target f fr : (forall n t, P t -> P (others n t)) -> (forall m t, P t -> P (set_ledger m t)) ->
  keeps (rests P) (dispatch others stmt_ok agent_at s3_create s3_at enqueue_at digest cfg now target f fr).
Proof.
  intros Hr Hb. apply keeps_dispatch; try done.
  - intros w Hw. by apply Hr.
  - intros A q _. by apply rests_stmt.
  - intros h l j w Hw. destruct h; [by apply Hb|done].
Qed.

(** The other rows take no slot. *)
Definition others_low (b f : string) (o : string -> Z) (w : world) : Prop := forall g, g <> f -> occ b (view w) g <= o g.
Lemma dispatch_others_low b o target f fr :
  keeps (others_low b f o) (dispatch others stmt_ok agent_at s3_create s3_at enqueue_at digest cfg now target f fr).
Proof using rely.
  assert (Hel : forall w, others_low b f o w -> others_low b f o (elapse others w)).
  { intros w Hw g Hg. simpl. pose proof (rely (calls w) (view w) b g). specialize (Hw g Hg). lia. }
  apply keeps_dispatch; try done.
  - intros A q Hq w Hw%Hel. unfold stmt. destruct (poisoned _); [done|]. destruct (stmt_ok _); [|done].
    specialize (Hq (calls w) (view (elapse others w))). destruct (q _ _) as [t a]. simpl in *. intros g Hg. simpl.
    destruct Hq as [->|[j ->]]; [by apply Hw|]. rewrite occ_set_ne by done. by apply Hw.
  - intros h l j w Hw g Hg. destruct h; by apply Hw.
Qed.
End claims.

(** ** The tick *)


(** The slots of a snapshot are those of the registry, none overdrawn. *)
Definition slots_wf (cfg : CloudSettings) (s : snapshot_t) : Prop :=
  NoDup (keys s) /\ forall k x, (k, x) ∈ s -> backend_id (backend x) = k /\ 0 <= remaining x /\ backend x ∈ registry cfg.

Definition room (b : string) (s : snapshot_t) : Z :=
  match dict_get b s with Some x => if available x then remaining x else 0 | None => 0 end.

Lemma room_nonneg cfg b s : slots_wf cfg s -> 0 <= room b s.
Proof.
  intros [_ Hs]. unfold room. destruct (dict_get b s) as [x|] eqn:Hx; [|lia]. destruct (available x); [|lia].
  by apply dict_get_elem, Hs in Hx as (_ & ? & _).
Qed.

Lemma elem_of_dict_set {K V} `{EqDecision K} (k k' : K) (v v' : V) d :
  NoDup (keys d) -> (k, v) ∈ dict_set k' v' d -> k = k' /\ v = v' \/ k <> k' /\ (k, v) ∈ d.
Proof.
  intros Hd Hin. apply elem_dict_get in Hin; [|by apply NoDup_dict_set]. rewrite dict_get_set in Hin.
  case_decide as Hk; [left; naive_solver|right]. split; [done|]. by apply dict_get_elem.
Qed.

(** Taking a slot that is available and free. *)
Lemma take_slot_room cfg s x :
  slots_wf cfg s -> x ∈ map snd s -> available x = true -> remaining x > 0 ->
  slots_wf cfg (take_slot (backend_id (backend x)) s) /\ backend x ∈ registry cfg /\
  forall b, room b (take_slot (backend_id (backend x)) s) = room b s - (if bool_decide (b = backend_id (backend x)) then 1 else 0).
Proof.
  intros [Hnd Hs] Hin Hav Hrem. apply list_elem_of_fmap in Hin as ([k x'] & -> & Hin). simpl in *.
  destruct (Hs _ _ Hin) as (Hk & Hge & Hreg). pose proof (elem_dict_get _ _ _ Hnd Hin) as Hget.
  unfold take_slot. rewrite Hk, Hget. split; [split|split; [done|]].
  - by apply NoDup_dict_set.
  - intros k' y Hy. apply elem_of_dict_set in Hy as [[-> ->]|[_ Hy]]; [|by apply Hs|done]. simpl. split_and!; [done|lia|done].
  - intros b. unfold room. rewrite dict_get_set. case_decide as Hb.
    + subst b. rewrite bool_decide_eq_true_2 by done. rewrite Hget. simpl. rewrite Hav. done.
    + rewrite bool_decide_eq_false_2 by done. lia.
Qed.

Lemma set_slot_wf cfg s b x :
  slots_wf cfg s -> backend x = b -> b ∈ registry cfg -> 0 <= remaining x -> slots_wf cfg (dict_set (backend_id b) x s).
Proof.
  intros [Hnd Hs] Hb Hin Hrem. split; [by apply NoDup_dict_set|]. intros k y Hy.
  apply elem_of_dict_set in Hy as [[-> ->]|[_ Hy]]; [|by apply Hs|done]. split_and!; [by rewrite Hb|done|by rewrite Hb].
Qed.

Section cap.
Context (others : nat -> tables -> tables) (stmt_ok : nat -> bool) (nested_at : nat -> nested_fate).
Context (commit_at : nat -> commit_fate) (agent_at : nat -> option string).
Context (s3_create : nat -> create_fate) (s3_at : nat -> s3_fate) (enqueue_at : nat -> enqueue_fate).
Context (digest : string -> Z) (cfg : CloudSettings) (now : datetime).
Context (clock_at : nat -> Z) (free_at : nat -> string -> bool) (lock_at : nat -> string -> bool).
Context (brokered_at : nat -> string -> bool) (online_at : nat -> string -> bool) (kube_at : nat -> string -> option bool).
Context (local_running local_ledger : nat -> Z) (cloud_enabled : bool) (force_local : nat -> bool) (stale_at : nat -> bool).
Context (b : string) (c : Z).
Context (rely : forall n t b g, occ b (others n t) g <= occ b t g).

Definition valid_files (t : tables) : Prop := forall f r, files t !! f = Some r -> file_valid cfg r.
Definition count_ok (t : tables) : Prop := in_flight_count b t <= c.

Context (rely_files : forall n t, valid_files t -> valid_files (others n t)).
Context (floor : 0 < s3_multipart_part_size_bytes cfg).
Context (capped : forall x, x ∈ registry cfg -> backend_id x = b -> is_local x = false /\ 0 <= backend_cap x <= c).

(** The state of the session while [k] slots of [b] may still be taken. *)
Definition leaves (k : Z) (w : world) : Prop :=
  count_ok (committed w) /\ both valid_files w /\ (poisoned w = true \/ in_flight_count b (view w) + k <= c).

Lemma count_others n t : count_ok t -> count_ok (others n t).
Proof using rely. intros Ht. pose proof (in_flight_under b t (others n t) (rely n t b)). unfold count_ok in *. lia. Qed.

Lemma leaves_elapse k w : leaves k w -> leaves k (elapse others w).
Proof using rely rely_files.
  intros (Hc & [Hf1 Hf2] & Hv). split; [by apply count_others|]. split; [split; by apply rely_files|].
  destruct Hv as [Hp|Hv]; [by left|right]. simpl. pose proof (in_flight_under b _ _ (rely (calls w) (view w) b)). lia.
Qed.

(** A statement that leaves [cloud_job] and [files] alone. *)
Lemma leaves_nested {A} k (q : nat -> tables -> tables * A) m1 m2 :
  (forall n t, cloud_job (q n t).1 = cloud_job t /\ files (q n t).1 = files t) ->
  keeps (leaves k) m1 -> keeps (leaves k) m2 -> keeps (leaves k) (nested others nested_at q m1 m2).
Proof using rely rely_files.
  intros Hq H1 H2 w Hw%leaves_elapse. unfold nested. destruct (poisoned _); [by apply H2|].
  destruct (nested_at _); [|by apply H1|by apply H2].
  specialize (Hq (calls w) (view (elapse others w))). destruct (q _ _) as [t a]. simpl in *. destruct Hq as [Hj Hf].
  destruct Hw as (Hc & [Hf1 Hf2] & Hv). split; [done|]. split.
  - split; [done|]. intros f r Hr. simpl in Hr. rewrite Hf in Hr. by eapply Hf2.
  - destruct Hv as [Hp|Hv]; [by left|right]. simpl in *. unfold in_flight_count in *. by rewrite Hj.
Qed.

Lemma leaves_query {A} k (q : nat -> tables -> A) : keeps (leaves k) (query others stmt_ok q).
Proof using rely rely_files.
  intros w Hw%leaves_elapse. unfold query, stmt. destruct (poisoned (elapse others w)) eqn:Hp; [done|].
  destruct (stmt_ok _); [done|]. destruct Hw as (? & ? & _). split_and!; [done|done|by left].
Qed.

Lemma leaves_agent k : keeps (leaves k) (select_active_agent others stmt_ok agent_at).
Proof using rely rely_files. apply keeps_bind; [apply leaves_query|]. intros [a|]; auto with phaze. Qed.

Lemma leaves_clock k : keeps (leaves k) (utc_now clock_at).
Proof. by intros w. Qed.
#[local] Hint Resolve leaves_query leaves_agent leaves_clock : phaze.

Lemma leaves_less k k' w : k' <= k -> leaves k w -> leaves k' w.
Proof. intros Hk (? & ? & [?|?]); split_and!; try done; [by left|right; lia]. Qed.

(** *** A dispatch and its slot *)

Lemma dispatch_leaves k target f fr w :
  file_valid cfg fr -> target ∈ registry cfg -> leaves k w ->
  let (w', r) := dispatch others stmt_ok agent_at s3_create s3_at enqueue_at digest cfg now target f fr w in
  match r with
  | Ok _ => leaves (k - (if bool_decide (b = backend_id target) then 1 else 0)) w'
  | Raise _ => leaves k w'
  end.
Proof using rely rely_files floor capped.
  intros Hval Hin (Hc & Hf & Hv).
  pose proof (dispatch_claims others stmt_ok agent_at s3_create s3_at enqueue_at digest cfg now rely
    (fun x => occ x (view w) f) target f fr floor Hval Hin w ltac:(intros x; lia)) as Hclaim.
  pose proof (dispatch_others_low others stmt_ok agent_at s3_create s3_at enqueue_at digest cfg now rely b (occ b (view w)) target f fr w
    ltac:(intros g _; lia)) as Hlow.
  pose proof (dispatch_stuck others stmt_ok agent_at s3_create s3_at enqueue_at digest cfg now target f fr w) as Hstuck.
  pose proof (dispatch_rests others stmt_ok agent_at s3_create s3_at enqueue_at digest cfg now count_ok target f fr count_others ltac:(done) w Hc) as Hrest.
  assert (Hfiles : keeps (both valid_files) (dispatch others stmt_ok agent_at s3_create s3_at enqueue_at digest cfg now target f fr)).
  { apply keeps_dispatch; try done.
    - intros x [? ?]. split; by apply rely_files.
    - intros A q Hq. apply keeps_stmt; [done|]. intros n t Ht. by destruct (Hq n t) as [->|[j ->]].
    - intros h l j x [? ?]. by destruct h. }
  specialize (Hfiles w Hf). destruct (dispatch _ _ _ _ _ _ _ _ _ _ _ _ _) as [w' r]. simpl in *.
  pose proof (in_flight_except b f (view w) (view w') Hlow) as Hex.
  destruct r as [r|e]; (split; [done|]; split; [done|]).
  - destruct Hclaim as [Hp|Hclaim]; [by left|]. destruct Hv as [Hp|Hv]; [left; by apply Hstuck|]. right.
    destruct (is_local target) eqn:Hl.
    + specialize (Hclaim b). cbv beta in Hclaim. destruct (bool_decide (b = backend_id target)); lia.
    + specialize (Hclaim b). pose proof (occ_bounds b (view w) f). destruct (bool_decide (b = backend_id target)); lia.
  - destruct Hclaim as [Hp|Hclaim]; [by left|]. destruct Hv as [Hp|Hv]; [left; by apply Hstuck|]. right. specialize (Hclaim b). cbv beta in Hclaim. lia.
Qed.

Lemma admitted_leaves k target f : keeps (leaves k) (admitted others stmt_ok nested_at free_at lock_at brokered_at target f).
Proof using rely rely_files.
  unfold admitted. destruct (is_local target); [auto with phaze|]. apply keeps_bind; [apply leaves_query|].
  intros [|]; [|auto with phaze]. apply leaves_nested; [by intros n t|apply leaves_query|auto with phaze].
Qed.

(** *** The walk *)

Definition walking (d : dworld) : Prop := leaves (room b (slots d)) (base d) /\ slots_wf cfg (slots d).

Lemma walking_db {A} (m : M A) : (forall k, keeps (leaves k) m) -> keeps walking (db m).
Proof.
  intros Hm d [Hl Hs]. unfold db. specialize (Hm _ (base d) Hl). destruct (m (base d)) as [w r]. by split.
Qed.
Lemma walking_walk f : keeps walking (on_walk f).
Proof. by intros d. Qed.
#[local] Hint Resolve walking_walk : phaze.

Lemma stage_candidate_walks cand held : file_valid cfg (c_record cand) ->
  keeps walking (stage_candidate others stmt_ok nested_at agent_at s3_create s3_at enqueue_at digest cfg now clock_at free_at lock_at brokered_at cand held).
Proof using rely rely_files floor capped.
  intros Hval. unfold stage_candidate. apply keeps_bind; [by intros d|]. intros _.
  apply keeps_bind; [apply walking_db; intros; apply leaves_query|]. intros bud d Hd. unfold bind at 1, _route_candidate.
  unfold bind at 1, db at 1, utc_now. cbn [base]. unfold bind at 1, get_slots at 1. cbn [slots].
  destruct (select_backend_with_reason _ _ _ _ _ _) as [[choice reason]|e] eqn:Hsel; [|by destruct d].
  unfold ret at 1. cbn [fst snd]. destruct choice as [target|]; [|by destruct d].
  apply select_picks_free in Hsel as (s & Hs & Hb & Hav & Hrem).
  set (d1 := DWorld _ _ _ _ _ _). assert (Hd1 : walking d1 /\ slots d1 = slots d) by (by destruct d).
  clearbody d1. destruct Hd1 as [Hd1 Heq]. rewrite <-Heq in Hs. clear Hd Heq d.
  unfold bind at 1. pose proof (walking_db _ (fun k => admitted_leaves k target (c_file cand)) d1 Hd1) as Hadm.
  unfold db at 1 in Hadm. unfold db at 1.
  destruct (admitted _ _ _ _ _ _ _ _ (base d1)) as [w2 [ok|e]]; [|exact Hadm]. cbn [fst] in Hadm.
  set (d2 := DWorld _ _ _ _ _ _) in *. assert (Hs2 : slots d2 = slots d1) by done. clearbody d2.
  destruct ok; cbn [negb]; [|done]. rewrite <-Hs2 in Hs. clear Hs2 Hd1 d1.
  destruct Hadm as [Hl Hwf]. destruct (take_slot_room cfg (slots d2) s Hwf Hs Hav Hrem) as (Hwf' & Hin & Hroom). rewrite Hb in Hin, Hwf', Hroom.
  pose proof (dispatch_leaves _ target (c_file cand) (c_record cand) (base d2) Hval Hin Hl) as Hdisp.
  unfold bind at 1, catch, bind at 1, db.
  destruct (dispatch _ _ _ _ _ _ _ _ _ _ _ _ (base d2)) as [w3 [r|e]].
  - unfold ret at 1, bind, get_slots, set_slots. cbn [slots]. destruct r; cbn; (split; cbn [slots base]; [by rewrite Hroom|done]).
  - destruct e; cbn; split; cbn [slots base]; done.
Qed.

Definition page_valid (page : list Candidate) : Prop := Forall (fun x => file_valid cfg (c_record x)) page.

Lemma page_walks page : page_valid page ->
  keeps walking (_stage_candidate_page others stmt_ok nested_at agent_at s3_create s3_at enqueue_at digest cfg now clock_at free_at lock_at brokered_at page).
Proof using rely rely_files floor capped.
  induction page as [|x page IH]; intros Hp; cbn [_stage_candidate_page]; [auto with phaze|].
  apply Forall_cons in Hp as [Hx Hp]. apply keeps_bind; [by apply stage_candidate_walks|]. intros []; [auto with phaze|by apply IH].
Qed.

Lemma queue_valid free t : valid_files t -> page_valid (queue free t).
Proof.
  intros Hf. apply Forall_forall. intros x Hx. unfold queue in Hx. rewrite merge_sort_Permutation in Hx.
  apply list_elem_of_omap in Hx as ([f j] & _ & Hx). unfold candidate_of in Hx. simpl in Hx.
  destruct (_ && _); [|done]. destruct (files t !! f) as [r|] eqn:Hr; [|done]. injection Hx as <-. by eapply Hf.
Qed.

(** A fetched page holds rows of [files]. *)
Lemma fetch_walks limit after d :
  walking d ->
  let (d', r) := db (get_cloud_staging_candidates others stmt_ok free_at limit after) d in
  walking d' /\ match r with Ok rows => page_valid rows | Raise _ => True end.
Proof using rely rely_files.
  intros [Hl Hs]. unfold db, get_cloud_staging_candidates.
  pose proof (leaves_query _ (fun n t => take (Z.to_nat limit) (filter (past after) (queue (free_at n) t))) (base d) Hl) as Hq.
  revert Hq. unfold query, stmt. pose proof (leaves_elapse _ _ Hl) as (_ & [_ Hf] & _).
  destruct (poisoned _); [by split|]. destruct (stmt_ok _); [|by split]. cbn [fst]. intros Hq. split; [by split|].
  apply Forall_take. apply (Forall_forall _ (filter _ _)). intros x Hx. apply list_elem_of_filter in Hx as [_ Hx].
  by apply (proj1 (Forall_forall _ _) (queue_valid (free_at (calls (base d))) _ Hf)).
Qed.

Lemma next_walks page limit d :
  walking d ->
  let (d', r) := _next_candidate_page others stmt_ok free_at page limit d in
  walking d' /\ match r with Ok (Some p) => page_valid p.1 | _ => True end.
Proof using rely rely_files.
  intros Hd. unfold _next_candidate_page, bind at 1 2, get_slots, get_walk. destruct (_ || _); [by split|].
  destruct (last page) as [l|]; [|by split]. destruct (_ >=? _); [by split|]. unfold bind.
  pose proof (fetch_walks (Z.min (Z.max (_free_slots (slots d)) _MIN_CANDIDATE_PAGE) (_MAX_CANDIDATE_SCAN - scanned (walk d))) (Some (c_key l)) d Hd) as Hf.
  destruct (db _ d) as [d' [rows|e]]; [|done]. destruct Hf as [Hd' Hp]. by destruct rows.
Qed.

Lemma walk_walks fuel : forall page, page_valid page.1 ->
  keeps walking (_walk_candidate_pages others stmt_ok nested_at agent_at s3_create s3_at enqueue_at digest cfg now clock_at free_at lock_at brokered_at fuel page).
Proof using rely rely_files floor capped.
  induction fuel as [|fuel IH]; intros page Hp; cbn [_walk_candidate_pages]; [auto with phaze|].
  apply keeps_bind; [auto with phaze|]. intros _. apply keeps_bind; [by apply page_walks|]. intros [].
  - intros d Hd. exact Hd.
  - intros d Hd. unfold bind. pose proof (next_walks page.1 page.2 d Hd) as Hn.
    destruct (_next_candidate_page _ _ _ _ _ d) as [d' [[p|]|e]]; destruct Hn as [Hd' Hp']; [by apply IH|done|done].
Qed.

(** *** The snapshot *)

Lemma gate_bounds o r at_ : 0 <= r -> let (s, _) := gate_remaining o r at_ in 0 <= s <= r.
Proof. intros Hr. unfold gate_remaining. destruct o as [o|]; [|lia]. destruct (match o_next_probe_at o with Some _ => _ | None => _ end); lia. Qed.

Lemma hold_leaves k o r at_ w :
  leaves k w -> 0 <= r ->
  let (w', x) := hold_for_breaker others nested_at o r at_ w in leaves k w' /\ exists s, x = Ok s /\ 0 <= s <= r.
Proof using rely rely_files.
  intros Hl Hr. unfold hold_for_breaker. pose proof (gate_bounds (Some o) r at_ Hr) as Hg.
  destruct (gate_remaining (Some o) r at_) as [s probe]. unfold bind.
  assert (Hk : keeps (leaves k) (if probe then
          nested others nested_at (fun _ t => (set_breaker_rows (breakers (arm_next_probe (o_backend_id o) at_ (Breaker.Tables (breaker_rows t) ∅))) t, tt))
            (ret tt) (ret tt) else ret tt)).
  { destruct probe; [|auto with phaze]. apply leaves_nested; [by intros n t|auto with phaze|auto with phaze]. }
  specialize (Hk w Hl).
  assert (Hok : exists w', (if probe then
          nested others nested_at (fun _ t => (set_breaker_rows (breakers (arm_next_probe (o_backend_id o) at_ (Breaker.Tables (breaker_rows t) ∅))) t, tt))
            (ret tt) (ret tt) else ret tt) w = (w', Ok tt)).
  { destruct probe; [|by eexists]. unfold nested. destruct (poisoned _); [by eexists|]. destruct (nested_at _); by eexists. }
  destruct Hok as [w' Hok]. rewrite Hok in *. simpl in *. split; [done|by exists s].
Qed.

Lemma available_leaves k x : keeps (leaves k) (_bounded_is_available others stmt_ok online_at kube_at x).
Proof using rely rely_files.
  unfold _bounded_is_available. destruct (config x) as [|r h s u|l]; [auto with phaze| |].
  - destruct (falsy r); auto with phaze.
  - intros w Hw%leaves_elapse. by destruct (kube_at _ _).
Qed.

Lemma in_flight_leaves k x : keeps (leaves k) (in_flight others stmt_ok nested_at local_running local_ledger x).
Proof using rely rely_files.
  unfold in_flight. destruct (config x); [|apply leaves_query|apply leaves_query].
  apply leaves_nested; [by intros n t|apply leaves_query|apply leaves_query].
Qed.

(** The probe of [b] itself counts what [b] holds. *)
Lemma probe_leaves k x w :
  x ∈ registry cfg -> 0 <= k -> leaves k w ->
  let (w', r) := probe_backend others stmt_ok nested_at online_at kube_at local_running local_ledger x w in
  leaves 0 w' /\ (backend_id x <> b -> leaves k w') /\
  match r with
  | Ok (Some (_, n)) => 0 <= n /\ (backend_id x = b -> leaves n w')
  | Ok None => True
  | Raise _ => False
  end.
Proof using rely rely_files capped.
  intros Hin Hk Hl. unfold probe_backend, catch, bind.
  pose proof (available_leaves k x w Hl) as Ha. destruct (_bounded_is_available _ _ _ _ _ w) as [w1 [up|e]]; simpl in Ha.
  2: { cbn. split_and!; [by eapply leaves_less|done|done]. }
  pose proof (in_flight_leaves k x w1 Ha) as Hi.
  assert (Hcount : backend_id x = b -> match in_flight others stmt_ok nested_at local_running local_ledger x w1 with
            | (w', Ok n) => leaves (Z.max 0 (backend_cap x - n)) w' | _ => True end).
  { intros Hb. destruct (capped x Hin Hb) as [Hloc Hcap]. unfold in_flight. unfold is_local in Hloc.
    assert (Hq : match query others stmt_ok (fun _ t => in_flight_count (backend_id x) t) w1 with
                 | (w', Ok n) => leaves (Z.max 0 (backend_cap x - n)) w' | _ => True end).
    { pose proof (leaves_query k (fun _ t => in_flight_count (backend_id x) t) w1 Ha) as Hq. revert Hq. unfold query, stmt.
      destruct (poisoned (elapse others w1)) eqn:Hp; [done|]. destruct (stmt_ok _); [|done]. rewrite Hb.
      intros (Hc & Hf & Hv). split; [done|]. split; [done|]. right. simpl in *. destruct Hv as [Hv|Hv]; [congruence|].
      unfold count_ok in Hc. lia. }
    destruct (config x); [done|exact Hq|exact Hq]. }
  destruct (in_flight _ _ _ _ _ x w1) as [w2 [n|e]]; simpl in Hi; cbn.
  - split_and!; [by eapply leaves_less|done|lia|done].
  - split_and!; [by eapply leaves_less|done|done].
Qed.

Lemma snapshot_leaves brs at_ backends : forall snap w,
  (forall x, x ∈ backends -> x ∈ registry cfg) -> slots_wf cfg snap -> leaves (room b snap) w ->
  let (w', r) := snapshot_each others stmt_ok nested_at online_at kube_at local_running local_ledger brs at_ backends snap w in
  leaves 0 w' /\ match r with Ok s => slots_wf cfg s /\ leaves (room b s) w' | Raise _ => True end.
Proof using rely rely_files capped.
  induction backends as [|x backends IH]; intros snap w Hin Hwf Hl.
  { simpl. split; [eapply leaves_less; [by eapply room_nonneg|done]|by split]. }
  cbn [snapshot_each]. unfold bind at 1.
  pose proof (probe_leaves (room b snap) x w ltac:(apply Hin; by left) (room_nonneg _ _ _ Hwf) Hl) as Hp.
  destruct (probe_backend _ _ _ _ _ _ _ x w) as [w1 [[[up n]|]|e]]; [| |by destruct Hp as (_ & _ & [])].
  - destruct Hp as (H0 & Hother & Hn & Hown). unfold bind.
    set (step := match brs !! backend_id x with Some o => hold_for_breaker others nested_at o n at_ | None => ret n end).
    assert (Hh : let (w', r) := step w1 in
      exists s, r = Ok s /\ 0 <= s <= n /\ leaves 0 w' /\ (backend_id x <> b -> leaves (room b snap) w') /\ (backend_id x = b -> leaves n w')).
    { unfold step. destruct (brs !! backend_id x) as [o|]; [|exists n; split_and!; auto; lia].
      pose proof (fun k Hk => hold_leaves k o n at_ w1 Hk Hn) as Hh. destruct (hold_for_breaker _ _ _ _ _ w1) as [w' r].
      destruct (Hh 0 H0) as [H0' (s & -> & Hs)]. exists s. split_and!; [done|lia|lia|done|intros Hb; apply Hh; auto|intros Hb; apply Hh; auto]. }
    destruct (step w1) as [w2 r]. destruct Hh as (s & -> & Hs & H0' & Ho' & Hw').
    apply IH; [intros y Hy; apply Hin; by right| |].
    + apply set_slot_wf; [done|done|apply Hin; by left|simpl; lia].
    + unfold room. rewrite dict_get_set. case_decide as Hb; [|by apply Ho'].
      simpl. destruct up; [|done]. eapply leaves_less; [|by apply Hw']. lia.
  - destruct Hp as (H0 & Hother & _). apply IH; [intros y Hy; apply Hin; by right| |].
    + apply set_slot_wf; [done|done|apply Hin; by left|simpl; lia].
    + unfold room. rewrite dict_get_set. case_decide as Hb; [done|by apply Hother].
Qed.

(** *** The whole tick *)

Definition safe (d : dworld) : Prop := count_ok (committed (base d)).
Definition early (d : dworld) : Prop := leaves 0 (base d).

Lemma early_safe d : early d -> safe d.
Proof. by intros [? _]. Qed.
Lemma walking_safe d : walking d -> safe d.
Proof. by intros [[? _] _]. Qed.

Lemma safe_db {A} (m : M A) : keeps (rests count_ok) m -> keeps safe (db m).
Proof. intros Hm d Hd. unfold db. specialize (Hm (base d) Hd). by destruct (m (base d)). Qed.
Lemma early_db {A} (m : M A) : keeps (leaves 0) m -> keeps early (db m).
Proof. intros Hm d Hd. unfold db. specialize (Hm (base d) Hd). by destruct (m (base d)). Qed.

Lemma rests_elapse w : rests count_ok w -> rests count_ok (elapse others w).
Proof using rely. intros Hw. by apply count_others. Qed.

Lemma safe_rollback : keeps safe (db (rollback others)).
Proof using rely. apply safe_db. intros w Hw. by apply count_others. Qed.

Lemma safe_commit k d : 0 <= k -> leaves k (base d) -> safe (db (commit others commit_at) d).1.
Proof using rely rely_files.
  intros Hk Hl. unfold db, commit. pose proof (leaves_elapse _ _ Hl) as (Hc & _ & Hv).
  destruct (poisoned (elapse others (base d))) eqn:Hp; [done|]. destruct Hv as [Hv|Hv]; [congruence|].
  assert (count_ok (view (elapse others (base d)))) by (unfold count_ok; lia). by destruct (commit_at _).
Qed.

Lemma rests_enqueue j : keeps (rests count_ok) (enqueue others enqueue_at j).
Proof using rely.
  intros w Hw%rests_elapse. unfold enqueue.
  assert (Hl : forall h l, rests count_ok (land h l j (elapse others w))) by (intros h l; by destruct h). destruct (enqueue_at _); apply Hl.
Qed.

Lemma safe_flush : keeps safe (seq! db (flush_pending_s3_enqueues others enqueue_at); db (flush_pending_push_file_enqueues others enqueue_at)).
Proof using rely.
  apply keeps_bind; [|intros _]; apply safe_db; (apply keeps_bind; [by intros w|]); intros l.
  - apply keeps_count_each. intros p. apply keeps_catch; [apply rests_enqueue|auto with phaze].
  - apply keeps_for_each. intros p. apply keeps_catch; [|auto with phaze]. apply keeps_bind; [apply rests_enqueue|auto with phaze].
Qed.

Lemma safe_drop : keeps safe (db (drop_parked others s3_at)).
Proof using rely.
  apply safe_db, keeps_bind; [|intros _; apply keeps_bind; [by intros w|auto with phaze]].
  apply keeps_bind; [by intros w|]. intros l. apply keeps_for_each. intros p. apply keeps_catch; [|auto with phaze].
  intros w Hw%rests_elapse. unfold abort_multipart_upload. by destruct (s3_at _).
Qed.

Lemma guarded_safe page limit d : page_valid page -> walking d ->
  safe (guarded_walk others stmt_ok nested_at commit_at agent_at s3_create s3_at enqueue_at digest cfg now clock_at free_at lock_at brokered_at page limit d).1.
Proof using rely rely_files floor capped.
  intros Hp Hd. unfold guarded_walk, bind at 1. pose proof (walk_walks PAGES (page, limit) Hp d Hd) as Hw.
  destruct (_walk_candidate_pages _ _ _ _ _ _ _ _ _ _ _ _ _ _ _ _ d) as [d1 [[]|e]]; [|by apply walking_safe]. simpl in Hw.
  destruct Hw as [Hl Hwf]. pose proof (safe_commit _ d1 (room_nonneg cfg b _ Hwf) Hl) as Hs. unfold bind at 1.
  destruct (db (commit others commit_at) d1) as [d2 [[]|e]]; [|done]. simpl in Hs. unfold bind at 1, get_walk. unfold bind at 1, _carry_resume_cursor.
  apply safe_flush. done.
Qed.

(** What follows the snapshot. *)
Lemma after_first_safe first limit d : page_valid first -> walking d ->
  safe ((run! agent <- catch (run! a <- db (select_active_agent others stmt_ok agent_at); ret (Some a))
                          (fun e => match e with NoActiveAgentError => ret None | _ => raise e end);
         match agent with
         | None => ret (0, Z.of_nat (length first))
         | Some _ =>
             run! finished <- catch (seq! guarded_walk others stmt_ok nested_at commit_at agent_at s3_create s3_at enqueue_at digest cfg now
                                          clock_at free_at lock_at brokered_at first limit; ret true)
                                 (fun _ => seq! db (drop_parked others s3_at); seq! db (rollback others); ret false);
             run! s <- get_walk;
             if finished : bool then seq! _report_tick_outcome; ret (staged s, skipped s)
             else ret (0, Z.max (scanned s) (Z.of_nat (length first)))
         end) d).1.
Proof using rely rely_files floor capped.
  intros Hp Hd. unfold bind at 1.
  assert (Hag : keeps walking (catch (run! a <- db (select_active_agent others stmt_ok agent_at); ret (Some a))
                          (fun e => match e with NoActiveAgentError => ret None | _ => raise e end))).
  { apply keeps_catch; [apply keeps_bind; [apply walking_db; intros; apply leaves_agent|auto with phaze]|]. intros []; auto with phaze. }
  specialize (Hag d Hd). destruct (catch _ _ d) as [d1 [[a|]|e]]; simpl in Hag; [|by apply walking_safe|by apply walking_safe].
  pose proof (guarded_safe first limit d1 Hp Hag) as Hg. unfold bind at 1, catch, bind at 1.
  destruct (guarded_walk _ _ _ _ _ _ _ _ _ _ _ _ _ _ _ _ _ d1) as [d2 [[]|e]]; simpl in Hg.
  - by unfold ret, bind, get_walk, _report_tick_outcome, _note_all_held_tick.
  - assert (Hdrop : keeps safe (seq! db (drop_parked others s3_at); seq! db (rollback others); ret false)).
    { apply keeps_bind; [apply safe_drop|]. intros _. apply keeps_bind; [apply safe_rollback|auto with phaze]. }
    specialize (Hdrop d2 Hg). destruct ((seq! db (drop_parked others s3_at); seq! db (rollback others); ret false) d2) as [d3 [[]|e']]; done.
Qed.

Lemma first_walks limit d : walking d ->
  let (d', r) := _first_candidate_page others stmt_ok free_at limit d in
  walking d' /\ match r with Ok p => page_valid p.1 | Raise _ => True end.
Proof using rely rely_files.
  intros Hd. unfold _first_candidate_page, bind at 1, get_cursor.
  assert (Hhead : forall d, walking d -> let (d', r) := (run! head <- db (get_cloud_staging_candidates others stmt_ok free_at limit None); ret (head, false)) d in
    walking d' /\ match r with Ok p => page_valid p.1 | Raise _ => True end).
  { intros d0 Hd0. unfold bind. pose proof (fetch_walks limit None d0 Hd0) as Hf. by destruct (db _ d0) as [d' [rows|e]]. }
  destruct (_resume_cursor d) as [k|]; [|by apply Hhead]. unfold bind at 1. pose proof (fetch_walks limit (Some k) d Hd) as Hf.
  destruct (db _ d) as [d' [rows|e]]; [|done]. destruct Hf as [Hd' Hp]. destruct rows; [by apply Hhead|done].
Qed.

(** C3: no tick of the drain overshoots a backend's cap.  Start a session on
    any committed state in which at most [c] files occupy [b], [c] being at
    least its cap; other sessions may commit anything that takes no slot, and
    any statement, probe, S3 call, enqueue or the commit itself may fail or be
    lost.  Then at most [c] files occupy [b] afterwards, provided the payloads
    of the files can be built ([valid_files]; [raising_dispatch_claims_slot] shows
    what happens otherwise). *)
Theorem cap_never_overshot d :
  count_ok (committed (base d)) -> valid_files (committed (base d)) -> view (base d) = committed (base d) ->
  in_flight_count b (committed (base (stage_cloud_window others stmt_ok nested_at commit_at agent_at s3_create s3_at enqueue_at digest cfg now
    clock_at free_at lock_at brokered_at online_at kube_at local_running local_ledger cloud_enabled force_local stale_at d).1)) <= c.
Proof using rely rely_files floor capped.
  intros Hc Hf Hv. fold (count_ok (committed (base (stage_cloud_window others stmt_ok nested_at commit_at agent_at s3_create s3_at enqueue_at digest
    cfg now clock_at free_at lock_at brokered_at online_at kube_at local_running local_ledger cloud_enabled force_local stale_at d).1))).
  assert (He : early d). { split; [done|]. unfold both. rewrite Hv. split; [done|]. right. unfold count_ok in Hc. lia. }
  clear Hc Hf Hv. unfold stage_cloud_window. destruct cloud_enabled; cbn [negb]; [|by apply early_safe].
  unfold bind at 1, on_walk. set (d0 := DWorld _ _ _ _ _ _). assert (He0 : early d0) by done. clearbody d0. clear He d.
  unfold with_session. match goal with |- context [match ?m d0 with _ => _ end] => set (body := m) end.
  enough (Hbody : safe (body d0).1).
  { destruct (body d0) as [d1 r]. pose proof (safe_rollback d1 Hbody) as Hr. by destruct (db (rollback others) d1). }
  unfold body, bind at 1. pose proof (early_db _ (leaves_nested 0 (fun n t => (t, force_local n)) (ret false) (ret false)
    ltac:(by intros) ltac:(auto with phaze) ltac:(auto with phaze)) d0 He0) as H1. unfold get_route_control.
  destruct (db _ d0) as [d1 [forced|e]]; [|by apply early_safe]. simpl in H1. destruct forced; [by apply early_safe|].
  unfold bind at 1, has_stale_awaiting_ownership. pose proof (early_db _ (leaves_query 0 (fun n _ => stale_at n)) d1 H1) as H2.
  destruct (db _ d1) as [d2 [stale|e]]; [|by apply early_safe]. simpl in H2. unfold bind at 1.
  assert (H3 : early ((if stale then db (fun w => (elapse others w, Ok tt)) else ret tt) d2).1).
  { destruct stale; [|done]. apply early_db; [|done]. intros w Hw. by apply leaves_elapse. }
  destruct ((if stale then db (fun w => (elapse others w, Ok tt)) else ret tt) d2) as [d3 [[]|e]]; [|by apply early_safe]. simpl in H3.
  unfold bind at 1. pose proof (early_db _ (leaves_query 0 (fun _ _ => tt)) d3 H3) as H4.
  destruct (db _ d3) as [d4 [[]|e]]; [|by apply early_safe]. simpl in H4. unfold bind at 1.
  assert (H5 : let (d', r) := db (_snapshot_backend_slots others stmt_ok nested_at clock_at online_at kube_at local_running local_ledger (registry cfg)) d4 in
    early d' /\ match r with Ok s => slots_wf cfg s /\ leaves (room b s) (base d') | Raise _ => True end).
  { unfold db, _snapshot_backend_slots, bind at 1, utc_now. cbn [base]. unfold bind at 1, load_breakers.
    pose proof (leaves_nested 0 (fun _ t => (t, load_open_breakers true (Breaker.Tables (breaker_rows t) ∅))) (ret ∅) (ret ∅)
      ltac:(by intros) ltac:(auto with phaze) ltac:(auto with phaze) (base d4) H4) as Hb.
    destruct (nested _ _ _ _ _ (base d4)) as [w1 [brs|e]]; [|done]. simpl in Hb.
    pose proof (snapshot_leaves brs (Datetime true (clock_at (calls (base d4)))) (registry cfg) [] w1 ltac:(done)
      ltac:(split; [apply NoDup_nil_2|by intros k x Hx%elem_of_nil]) Hb) as Hs.
    by destruct (snapshot_each _ _ _ _ _ _ _ _ _ _ _ w1). }
  destruct (db _ d4) as [d5 [snapshot|e]]; [|destruct H5 as [H5 _]; by apply early_safe]. destruct H5 as [_ [Hwf Hl]]. unfold bind at 1, set_slots.
  set (d6 := DWorld _ _ _ _ _ _). assert (H6 : walking d6) by done. clearbody d6. destruct (_ <=? 0); [by apply walking_safe|].
  unfold bind at 1. pose proof (first_walks (_free_slots snapshot) d6 H6) as H7.
  destruct (_first_candidate_page _ _ _ _ d6) as [d7 [[first resumed]|e]]; destruct H7 as [H7 Hp]; [|by apply walking_safe].
  cbn [fst]. destruct first as [|x first]; [by apply walking_safe|]. by apply after_first_safe.
Qed.
End cap.

(** ** Demonstrations *)

Abbreviation calm_tick cfg :=
  (stage_cloud_window (fun _ t => t) (fun _ => true) (fun _ => NestedOk) (fun _ => Committed) (fun _ => Some "nas"%string) (fun _ => Created "u1")
     (fun _ => S3Done) (fun _ => EnqJob) (fun _ => 0) cfg (Datetime true 60) (fun _ => 60) (fun _ _ => true) (fun _ _ => true) (fun _ _ => false)
     (fun _ _ => true) (fun _ _ => Some true) (fun _ => 0) (fun _ => 0) true (fun _ => false) (fun _ => false)).
Abbreviation fresh t := (DWorld (empty_world t) [] new_walk None 0 []).
Abbreviation awaiting_job := (Job AWAITING None None None None 0 0 None (Datetime true 0)).
Abbreviation media n path := (File path "mp3" 1000 n None).

(** Two files wait for a backend with one slot. *)
Definition demo_waiting : tables :=
  Tables {["f" := media 1 "/media/f.mp3"; "g" := media 2 "/media/g.mp3"]} {["f" := awaiting_job; "g" := awaiting_job]} ∅ ∅ ∅.

Lemma demo_valid : valid_files (demo_settings [demo_compute]) demo_waiting.
Proof.
  intros f r Hr. unfold demo_waiting in Hr. cbn [files] in Hr.
  assert (Hpath : r = media 1 "/media/f.mp3" \/ r = media 2 "/media/g.mp3").
  { apply lookup_insert_Some in Hr as [[_ <-]|[_ Hr]]; [by left|]. apply lookup_singleton_Some in Hr as [_ <-]. by right. }
  split; [by destruct Hpath as [->| ->]|]. intros b Hb _ _. assert (b = demo_compute) as ->; [|by destruct Hpath as [->| ->]].
  simpl in Hb. by apply list_elem_of_singleton in Hb.
Qed.

Lemma cap_never_overshot_witness :
  let cfg := demo_settings [demo_compute] in
  (calm_tick cfg (fresh demo_waiting)).2 = Ok (1, 0) /\
  in_flight_count "a1" (committed (base (calm_tick cfg (fresh demo_waiting)).1)) <= 1.
Proof.
  intros cfg. split; [vm_compute; reflexivity|].
  apply (cap_never_overshot (fun _ t => t) (fun _ => true) (fun _ => NestedOk) (fun _ => Committed) (fun _ => Some "nas"%string)
    (fun _ => Created "u1") (fun _ => S3Done) (fun _ => EnqJob) (fun _ => 0) cfg (Datetime true 60) (fun _ => 60) (fun _ _ => true)
    (fun _ _ => true) (fun _ _ => false) (fun _ _ => true) (fun _ _ => Some true) (fun _ => 0) (fun _ => 0) true (fun _ => false)
    (fun _ => false) "a1" 1).
  - intros n t b g. lia.
  - by intros n t Ht.
  - reflexivity.
  - intros x Hx _. simpl in Hx. apply list_elem_of_singleton in Hx as ->. split; [reflexivity|]. simpl. lia.
  - vm_compute. discriminate.
  - exact demo_valid.
  - reflexivity.
Defined.

(** The callback of a hash mismatch takes a slot back outside the drain: a
    pushed file frees its slot, the next tick gives it to another file, and the
    re-armed push makes two files occupy a backend with one slot. *)
Theorem mismatch_rearm_overshoots_cap :
  let cfg := demo_settings [demo_compute] in
  let t1 := committed (base (calm_tick cfg (fresh demo_waiting)).1) in
  let t2 := pushed cfg (Datetime true 60) "f" false t1 in
  let t3 := committed (base (calm_tick cfg (fresh t2)).1) in
  let t4 := mismatch cfg (Datetime true 60) "nas" "vox" "f" false t3 in
  backend_cap demo_compute = 1 /\
  map (in_flight_count "a1") [t1; t2; t3; t4] = [1; 0; 1; 2].
Proof. vm_compute. split; reflexivity. Qed.

(** A dispatch that raises after its upsert keeps the slot and loses the
    job: both files of a queue whose payload cannot be built end up submitted
    on a backend with one slot, with nothing enqueued, and the tick reports
    that it staged nothing. *)
Theorem raising_dispatch_claims_slot :
  let cfg := demo_settings [demo_compute] in
  let t := Tables {["f" := media 1 "media/f.mp3"; "g" := media 2 "media/g.mp3"]} {["f" := awaiting_job; "g" := awaiting_job]} ∅ ∅ ∅ in
  let (d, r) := calm_tick cfg (fresh t) in
  r = Ok (0, 2) /\ broker (base d) = [] /\ parked_push (base d) = [] /\ in_flight_count "a1" (committed (base d)) = 2 /\ backend_cap demo_compute = 1.
Proof. vm_compute. repeat split. Qed.
