(* ===== verification/DrainWalk.v ===== *)
(** * The walk ends, and what it counts *)
From S2P Require Import Prelude StateErr Selection Breaker CloudJobs Callbacks Drain.
From stdpp Require Import sorting options.
Local Open Scope Z_scope.

Section walk.
Context (others : nat -> tables -> tables) (stmt_ok : nat -> bool) (nested_at : nat -> nested_fate).
Context (commit_at : nat -> commit_fate) (agent_at : nat -> option string).
Context (s3_create : nat -> create_fate) (s3_at : nat -> s3_fate) (enqueue_at : nat -> enqueue_fate).
Context (digest : string -> Z) (cfg : CloudSettings) (now : datetime).
Context (clock_at : nat -> Z) (free_at : nat -> string -> bool) (lock_at : nat -> string -> bool).
Context (brokered_at : nat -> string -> bool) (online_at : nat -> string -> bool) (kube_at : nat -> string -> option bool).
Context (local_running local_ledger : nat -> Z) (cloud_enabled : bool) (force_local : nat -> bool) (stale_at : nat -> bool).

Abbreviation stage_candidate := (stage_candidate others stmt_ok nested_at agent_at s3_create s3_at enqueue_at digest cfg now clock_at free_at lock_at brokered_at).
Abbreviation stage_page := (_stage_candidate_page others stmt_ok nested_at agent_at s3_create s3_at enqueue_at digest cfg now clock_at free_at lock_at brokered_at).
Abbreviation next_page := (_next_candidate_page others stmt_ok free_at).
Abbreviation walk_pages := (_walk_candidate_pages others stmt_ok nested_at agent_at s3_create s3_at enqueue_at digest cfg now clock_at free_at lock_at brokered_at).

(** The tally grew by [n] rows; neither the position of the walk, nor what
    survives the tick, moved. *)
Definition counted (n : Z) (d d' : dworld) : Prop :=
  staged (walk d') + skipped (walk d') = staged (walk d) + skipped (walk d) + n /\
  scanned (walk d') = scanned (walk d) /\ resume_after (walk d') = resume_after (walk d) /\
  _resume_cursor d' = _resume_cursor d.

#[local] Ltac frame := unfold counted in *; simpl in *; destruct_and?; split_and!; solve [congruence | lia | nia].

Lemma wp_db {A} (m : M A) d (P : outcome cexn A -> dworld -> Prop) : (forall r d', counted 0 d d' -> P r d') -> wp (db m) d P.
Proof. intros H. unfold wp, db. destruct (m (base d)) as [w r]. apply H. unfold counted. simpl. split_and!; lia || done. Qed.

Lemma counted_plus n k d1 d2 d3 : counted n d1 d2 -> counted k d2 d3 -> counted (n + k) d1 d3.
Proof. intros; frame. Qed.

(** Each candidate is counted once; the one that finds the fileserver gone
    counts for the whole rest of its page. *)
Lemma stage_candidate_counts x held d :
  wp (stage_candidate x held) d (fun r d' => match r with Ok vanished => counted (if vanished then held else 1) d d' | Raise _ => counted 0 d d' end).
Proof.
  unfold stage_candidate, Drain.stage_candidate. apply wp_bind. unfold wp at 1, note_routed.
  set (d0 := DWorld _ _ _ _ _ _). assert (H0 : counted 0 d d0) by (unfold counted; simpl; split_and!; lia || done). clearbody d0.
  apply wp_bind, wp_db. intros [bud|e] d1 H1; [|frame]. apply wp_bind. unfold _route_candidate. apply wp_bind, wp_db. intros [at_|e] d2 H2; [|frame].
  apply wp_bind. unfold wp at 1, get_slots.
  destruct (select_backend_with_reason _ _ _ _ _ _) as [[[target|] reason]|e]; unfold wp at 1, ret, raise; [|cbn; frame|frame].
  cbn [fst snd]. apply wp_bind, wp_db. intros [ok|e] d3 H3; [|frame]. destruct ok; cbn [negb]; [|cbn; frame].
  apply wp_bind, wp_catch, wp_bind, wp_db. intros [staged_|e] d4 H4; cbn.
  - destruct staged_; cbn; frame.
  - destruct e; cbn; frame.
Qed.

Lemma page_counts page d :
  wp (stage_page page) d (fun r d' => exists n, counted n d d' /\ 0 <= n <= Z.of_nat (length page) /\
    match r with Ok _ => n = Z.of_nat (length page) | Raise _ => True end).
Proof.
  revert d. induction page as [|x page IH]; intros d.
  - exists 0. split; [frame|]. simpl. split; [lia|done].
  - cbn [_stage_candidate_page]. apply wp_bind. eapply wp_mono; [apply stage_candidate_counts|]. intros [[]|e] d' H; cbv beta iota in H.
    + exists (Z.of_nat (length (x :: page))). split; [exact H|]. split; [lia|done].
    + eapply wp_mono; [apply IH|]. intros r d'' (n & Hn & Hb & Hr). exists (1 + n). split; [by eapply counted_plus|].
      simpl length. split; [lia|]. destruct r; [lia|done].
    + exists 0. split; [exact H|]. split; [lia|done].
Qed.

(** What [_next_candidate_page] may answer. *)
Definition next_page_ok (d : dworld) (r : outcome cexn (option page_t)) : Prop :=
  match r with
  | Ok (Some (p, l)) => p <> [] /\ scanned (walk d) < _MAX_CANDIDATE_SCAN /\ scanned (walk d) + Z.of_nat (length p) <= _MAX_CANDIDATE_SCAN
  | _ => True
  end.
Definition tallied (d d' : dworld) : Prop :=
  staged (walk d') + skipped (walk d') = staged (walk d) + skipped (walk d) /\
  scanned (walk d') = scanned (walk d) /\ _resume_cursor d' = _resume_cursor d.

Lemma page_length limit after free t : (length (take (Z.to_nat limit) (filter (past after) (queue free t))) <= Z.to_nat limit)%nat.
Proof. rewrite length_take. lia. Qed.

Lemma next_page_counts page limit d : wp (next_page page limit) d (fun r d' => tallied d d' /\ next_page_ok d r).
Proof.
  unfold next_page. apply wp_bind. unfold wp at 1, get_slots. apply wp_bind. unfold wp at 1, get_walk.
  destruct (_ || _); [by unfold wp, ret|]. destruct (last page) as [l|]; [|by unfold wp, ret].
  destruct (_ >=? _) eqn:Hs; [by cbn|]. apply wp_bind. unfold wp at 1, db, get_cloud_staging_candidates, query, CloudJobs.stmt.
  destruct (poisoned _); [done|]. destruct (stmt_ok _); [|done].
  set (p := take _ _). assert (Hp : (length p <= Z.to_nat (Z.min (Z.max (_free_slots (slots d)) _MIN_CANDIDATE_PAGE) (_MAX_CANDIDATE_SCAN - scanned (walk d))))%nat)
    by (subst p; rewrite length_take; lia). clearbody p. destruct p as [|c p]; [done|]. split; [done|]. cbn [next_page_ok].
  unfold _MAX_CANDIDATE_SCAN in *. split; [done|]. lia.
Qed.

(** Every examined row is counted once; after an error, at most once. *)
Definition accounted (d : dworld) (r : outcome cexn unit) : Prop :=
  match r with
  | Ok _ => staged (walk d) + skipped (walk d) = scanned (walk d)
  | Raise _ => staged (walk d) + skipped (walk d) <= scanned (walk d)
  end.

Lemma walk_counts fuel page limit d :
  staged (walk d) + skipped (walk d) = scanned (walk d) ->
  wp (walk_pages fuel (page, limit)) d (fun r d' =>
    scanned (walk d') <= Z.max _MAX_CANDIDATE_SCAN (scanned (walk d) + Z.of_nat (length page)) /\ _resume_cursor d' = _resume_cursor d /\
    accounted d' r).
Proof.
  revert page limit d. induction fuel as [|fuel IH]; intros page limit d Hd; cbn [_walk_candidate_pages].
  { unfold wp, ret, accounted. split_and!; lia || done. }
  unfold accounted in *. apply wp_bind. unfold wp at 1, on_walk. set (d0 := DWorld _ _ _ _ _ _).
  assert (H0 : staged (walk d0) + skipped (walk d0) + Z.of_nat (length page) = scanned (walk d0) /\
    scanned (walk d0) = scanned (walk d) + Z.of_nat (length page) /\ _resume_cursor d0 = _resume_cursor d) by (simpl; split_and!; lia || done).
  clearbody d0. apply wp_bind. cbn [fst snd]. eapply wp_mono; [apply page_counts|]. intros r d1 (n & Hn & Hb & Hr). unfold counted in Hn.
  destruct r as [vanished|e]; [|split_and!; [lia|destruct_and?; congruence|lia]]. subst n. apply wp_bind.
  destruct vanished; [unfold wp, ret; split_and!; [lia|destruct_and?; congruence|lia]|].
  eapply wp_mono; [apply next_page_counts|]. unfold tallied. intros [[[p l]|]|e] d2 [Ht Hp]; simpl in Hp.
  - destruct_and?. eapply wp_mono; [apply IH; lia|]. intros r d3 (Hs & Hc & Hr). split_and!; [lia|congruence|exact Hr].
  - unfold wp, ret. destruct_and?. split_and!; [lia|congruence|lia].
  - destruct_and?. split_and!; [lia|congruence|lia].
Qed.

(** Every page after the first has a row and is fetched below the budget. *)
Lemma walk_fuel fuel more page limit d :
  _MAX_CANDIDATE_SCAN - (scanned (walk d) + Z.of_nat (length page)) < Z.of_nat fuel -> (1 <= fuel)%nat ->
  walk_pages (fuel + more) (page, limit) d = walk_pages fuel (page, limit) d.
Proof.
  revert page limit d. induction fuel as [|fuel IH]; intros page limit d Hf Hpos; [lia|]. cbn [_walk_candidate_pages Nat.add].
  apply (wp_same _ _ _ d (fun _ d' => scanned (walk d') = scanned (walk d) + Z.of_nat (length page))); [done|]. intros [] d0 H0. cbn [fst snd].
  eapply wp_same; [apply page_counts|]. intros vanished d1 (n & Hn & _ & _). cbv beta in *. unfold counted in Hn. destruct_and?.
  assert (Hd1 : scanned (walk d1) = scanned (walk d) + Z.of_nat (length page)) by lia.
  apply (wp_same _ _ _ d1 (fun r d' => tallied d1 d' /\ next_page_ok d1 r)); [destruct vanished; [done|apply next_page_counts]|].
  intros [[p l]|] d2 [Ht Hp]; [|done]. unfold tallied in Ht. cbn [next_page_ok] in Hp. destruct_and?.
  assert (Hl : (1 <= length p)%nat) by (destruct p; [done|simpl; lia]). apply IH; lia.
Qed.

(** C24: the walk of a tick ends, and accounts for what it examined.  Whatever
    the database, the backends and the fileserver do meanwhile, the loop makes
    at most [PAGES] turns (more fuel changes nothing), it examines at most 500
    rows or the first page, whichever is more, and every row it examined is
    counted exactly once as staged or skipped; a walk cut short by an error has
    counted no more than it examined, and the carried cursor is untouched. *)
Theorem walk_ends_and_counts page limit w snapshot carried streak seen :
  let d := DWorld w snapshot new_walk carried streak seen in
  (forall more, walk_pages (PAGES + more) (page, limit) d = walk_pages PAGES (page, limit) d) /\
  let (d', r) := walk_pages PAGES (page, limit) d in
  scanned (walk d') <= Z.max _MAX_CANDIDATE_SCAN (Z.of_nat (length page)) /\ _resume_cursor d' = carried /\ accounted d' r.
Proof.
  intros d. split; [intros more; apply walk_fuel; [simpl; unfold _MAX_CANDIDATE_SCAN, PAGES; lia|unfold PAGES; lia]|].
  pose proof (walk_counts PAGES page limit d eq_refl) as H. unfold wp in H. exact H.
Qed.
End walk.
