(* ===== verification/BudgetReset.v ===== *)
(** * Giving back cloud attempts: [services/cloud_attempts_reset.py]

    [phaze backfill reset-cloud-attempts] of [cli/__init__.py], on the sessions and
    tables of CloudJobs.v, the other columns of [cloud_job] as in Reconcile.v and
    the stage tables of StageSql.v.  [now] is the transaction's clock.  The
    report's lines are not modelled; the scope's bounds are parsed already. *)
From S2P Require Import Prelude Stage StateErr Selection Breaker CloudJobs Callbacks KubeObserve Reconcile StageSql.
From stdpp Require Import sorting options.
Local Open Scope Z_scope.

Inductive Disposition : Type := RESET | EXCLUDED_APPLIED | EXCLUDED_ANALYZE_DONE | EXCLUDED_ANALYZE_IN_FLIGHT | EXCLUDED_NODE_LOSS.
#[export] Instance Disposition_eq_dec : EqDecision Disposition.
Proof. solve_decision. Defined.

Inductive LedgerAction : Type := NO_LEDGER_ROW | CLEARED | DECREMENTED | OUTSIDE_WINDOW | UNTOUCHED.

Inductive AnalysisState : Type := NO_ANALYSIS | PARTIAL | COMPLETE | ANALYSIS_FAILED.

Record ResetScope : Type := Scope { scope_backend : string; window_start : datetime; window_end : datetime; attempts_floor : Z }.

(** The constructor and its [__post_init__]. *)
Definition reset_scope (backend : string) (start end_ : datetime) (floor : Z) : outcome string ResetScope :=
  if negb (aware start) || negb (aware end_) then Raise "window bounds must be timezone-aware"%string
  else if usec end_ <=? usec start then Raise "window end is not after window start"%string
  else if floor <? 1 then Raise "attempts floor must be >= 1"%string
  else Ok (Scope backend start end_ floor).

Record ScopedRow : Type := Scoped {
  file_id : string;
  row_attempts : Z;
  row_updated_at : datetime;
  row_exit_code : option Z;
  row_failure_reason : option string;
  analysis_state : AnalysisState;
  disposition : Disposition;
  ledger_action : LedgerAction;
  ledger_chains_spent : option Z;
}.

Record ResetReport : Type := Report {
  report_rows : list ScopedRow;
  applied : bool;
  rows_reset : Z;
  ledger_rows_deleted : Z;
  ledger_rows_decremented : Z;
}.

Definition is_reset (r : ScopedRow) : bool := bool_decide (disposition r = RESET).
Definition to_reset (r : ResetReport) : list ScopedRow := List.filter is_reset (report_rows r).

Definition in_window (scope : ResetScope) (t : datetime) : bool := (usec (window_start scope) <=? usec t) && (usec t <=? usec (window_end scope)).

(** Timestamps of the database are aware. *)
Definition _scope_clause (scope : ResetScope) (j : CloudJobs.CloudJob) : bool :=
  bool_decide (status j = AWAITING) && (attempts j >=? attempts_floor scope)
  && bool_decide (job_backend_id j = Some (scope_backend scope)) && in_window scope (updated_at j).

Definition _node_loss_clause (j : CloudJobs.CloudJob) (l : Lifecycle) : bool :=
  (node_loss_redrives j >? 0) || bool_decide (is_Some (node_loss_pending l)) || inadmissible l.

Definition analysis_state_of (d : db) (file : string) : AnalysisState :=
  match analysis d !! file with
  | None => NO_ANALYSIS
  | Some a => if is_not_null (a_completed_at a) then COMPLETE else if is_not_null (a_failed_at a) then ANALYSIS_FAILED else PARTIAL
  end.

(** [ANALYZE] has a completion clause. *)
Definition analyze_done (d : db) (f : file_row) : bool :=
  match domain_completed_clause ANALYZE None None None with Ok c => c d f | Raise _ => false end.

Definition _classify (scope : ResetScope) (d : db) (l : Lifecycle) (budget : option CloudBudgetState) (file : string) (j : CloudJobs.CloudJob) : ScopedRow :=
  let f := StageSql.File file None in
  let disposition :=
    if applied_clause d f then EXCLUDED_APPLIED
    else if analyze_done d f then EXCLUDED_ANALYZE_DONE
    else if inflight_clause ANALYZE d f then EXCLUDED_ANALYZE_IN_FLIGHT
    else if _node_loss_clause j l then EXCLUDED_NODE_LOSS
    else RESET in
  let ledger :=
    if negb (bool_decide (disposition = RESET)) then UNTOUCHED
    else match budget with
         | None => NO_LEDGER_ROW
         | Some b => if negb (in_window scope (budget_spent_at b)) then OUTSIDE_WINDOW
                     else if chains_spent b <=? 1 then CLEARED else DECREMENTED
         end in
  Scoped file (attempts j) (updated_at j) (last_exit_code l) (last_failure_reason l) (analysis_state_of d file) disposition ledger
    (chains_spent <$> budget).

(** [ORDER BY files.created_at, files.id] *)
Definition fifo_before (a b : (Z * string) * ScopedRow) : Prop := a.1.1 < b.1.1 \/ a.1.1 = b.1.1 /\ string_le a.1.2 b.1.2.
#[export] Instance fifo_before_dec : RelDecision fifo_before.
Proof. unfold fifo_before. intros a b. apply _. Defined.

Definition scoped_row (scope : ResetScope) (d : db) (life : string -> Lifecycle) (t : CloudJobs.tables) (p : string * CloudJobs.CloudJob) :
    option ((Z * string) * ScopedRow) :=
  if _scope_clause scope p.2 then
    match CloudJobs.files t !! p.1 with
    | Some f => Some ((created_at f, p.1), _classify scope d (life p.1) (cloud_budget t !! p.1) p.1 p.2)
    | None => None
    end
  else None.

Definition scoped_rows (scope : ResetScope) (d : db) (life : string -> Lifecycle) (t : CloudJobs.tables) : list ScopedRow :=
  (merge_sort fifo_before (omap (scoped_row scope d life t) (map_to_list (CloudJobs.cloud_job t)))).*2.

(** The two ledger statements. *)
Definition unfold_chain (r : ScopedRow) (m : gmap string CloudBudgetState) : gmap string CloudBudgetState :=
  match ledger_action r with
  | CLEARED => delete (file_id r) m
  | DECREMENTED => alter (fun b => CloudBudget (chains_spent b - 1) (Z.max (attempts_spent b - row_attempts r) 0) (node_loss_spent b) (budget_spent_at b)) (file_id r) m
  | _ => m
  end.

Section reset.
Context (others : nat -> CloudJobs.tables -> CloudJobs.tables) (stmt_ok : nat -> bool) (commit_at : nat -> commit_fate).
Context (db_at : nat -> db) (life_at : nat -> string -> Lifecycle) (now : datetime) (scope : ResetScope).

Abbreviation stmt := (CloudJobs.stmt others stmt_ok).
Abbreviation query := (CloudJobs.query others stmt_ok).

Definition select_scope : M (list ScopedRow) := query (fun n t => scoped_rows scope (db_at n) (life_at n) t).

Definition reset_row (j : CloudJobs.CloudJob) : CloudJobs.CloudJob :=
  Job (status j) (job_backend_id j) (s3_key j) (upload_id j) (staging_bucket j) 0 (node_loss_redrives j) (cloud_phase j) now.

(** The compare-and-set UPDATE and its row count. *)
Definition reset_update (ids : list string) (t : CloudJobs.tables) : CloudJobs.tables * Z :=
  let hit p := bool_decide (p.1 ∈ ids) && _scope_clause scope p.2 in
  (set_cloud_job (map_imap (fun file j => Some (if hit (file, j) then reset_row j else j)) (CloudJobs.cloud_job t)) t,
   Z.of_nat (length (List.filter hit (map_to_list (CloudJobs.cloud_job t))))).

Definition preview_reset : M ResetReport := run! rows <- select_scope; ret (Report rows false 0 0 0).

Fixpoint unfold_all (targets : list ScopedRow) (deleted decremented : Z) : M (Z * Z) :=
  match targets with
  | [] => ret (deleted, decremented)
  | r :: rs =>
      match ledger_action r with
      | CLEARED => seq! stmt (fun _ t => (set_cloud_budget (unfold_chain r (cloud_budget t)) t, tt)); unfold_all rs (deleted + 1) decremented
      | DECREMENTED => seq! stmt (fun _ t => (set_cloud_budget (unfold_chain r (cloud_budget t)) t, tt)); unfold_all rs deleted (decremented + 1)
      | _ => unfold_all rs deleted decremented
      end
  end.

Definition apply_reset : M ResetReport :=
  seq! query (fun _ _ => tt);
  run! rows <- select_scope;
  match List.filter is_reset rows with
  | [] => ret (Report rows true 0 0 0)
  | targets =>
      run! n <- unfold_all targets 0 0;
      run! reset <- stmt (fun _ t => reset_update (file_id <$> targets) t);
      ret (Report rows true reset n.1 n.2)
  end.

(** The command: its exit code and its report. *)
Definition _run_reset_cloud_attempts (apply : bool) : M (Z * ResetReport) :=
  if apply then
    run! report <- apply_reset;
    if negb (rows_reset report =? Z.of_nat (length (to_reset report))) then seq! CloudJobs.rollback others; ret (1, report)
    else seq! CloudJobs.commit others commit_at; ret (0, report)
  else
    seq! query (fun _ _ => tt);
    run! report <- preview_reset;
    seq! CloudJobs.rollback others; ret (0, report).
End reset.

(** ** What a reset does *)

Section effect.
Context (scope : ResetScope) (d : db) (life : string -> Lifecycle).

Definition targets (t : CloudJobs.tables) : list ScopedRow := List.filter is_reset (scoped_rows scope d life t).
Definition ids (t : CloudJobs.tables) : list string := file_id <$> targets t.

Definition reset_tables (now : datetime) (t : CloudJobs.tables) : CloudJobs.tables :=
  (reset_update now scope (ids t) (set_cloud_budget (foldl (fun m r => unfold_chain r m) (cloud_budget t) (targets t)) t)).1.

(** The verdict on a row does not depend on its budget. *)
Definition resettable (file : string) (j : CloudJobs.CloudJob) : Prop := disposition (_classify scope d (life file) None file j) = RESET.

Lemma elem_of_scoped t r :
  r ∈ scoped_rows scope d life t <->
  exists file j f, CloudJobs.cloud_job t !! file = Some j /\ _scope_clause scope j = true /\ CloudJobs.files t !! file = Some f /\
    r = _classify scope d (life file) (cloud_budget t !! file) file j.
Proof.
  unfold scoped_rows. rewrite list_elem_of_fmap. setoid_rewrite merge_sort_Permutation. setoid_rewrite list_elem_of_omap. split.
  - intros (x & -> & [file j] & Hin & Hx). apply elem_of_map_to_list in Hin. unfold scoped_row in Hx. simpl in Hx.
    destruct (_scope_clause scope j) eqn:Es; [|done]. destruct (CloudJobs.files t !! file) as [f|] eqn:Ef; [|done].
    injection Hx as <-. by exists file, j, f.
  - intros (file & j & f & Hj & Hs & Hf & ->). eexists. split; [|exists (file, j); split; [by apply elem_of_map_to_list|unfold scoped_row; simpl; by rewrite Hs, Hf]]. done.
Qed.

Lemma is_reset_resettable t file j : is_reset (_classify scope d (life file) (cloud_budget t !! file) file j) = true <-> resettable file j.
Proof. unfold is_reset. by rewrite bool_decide_eq_true. Qed.

Lemma elem_of_ids t file :
  file ∈ ids t <-> exists j f, CloudJobs.cloud_job t !! file = Some j /\ _scope_clause scope j = true /\ CloudJobs.files t !! file = Some f /\ resettable file j.
Proof.
  unfold ids, targets. rewrite list_elem_of_fmap. split.
  - intros (r & -> & [Hr Hres]%list_elem_of_In%filter_In). apply list_elem_of_In, elem_of_scoped in Hr as (file & j & f & Hj & Hs & Hf & ->).
    apply is_reset_resettable in Hres. by exists j, f.
  - intros (j & f & Hj & Hs & Hf & Hr). exists (_classify scope d (life file) (cloud_budget t !! file) file j). split; [done|].
    apply list_elem_of_In, filter_In. split; [|by apply is_reset_resettable]. apply list_elem_of_In, elem_of_scoped. by exists file, j, f.
Qed.

Lemma ids_NoDup t : NoDup (ids t).
Proof.
  assert (H : NoDup (file_id <$> scoped_rows scope d life t)).
  { unfold scoped_rows. rewrite <- list_fmap_compose. rewrite merge_sort_Permutation.
    pose proof (NoDup_fst_map_to_list (CloudJobs.cloud_job t)) as Hn. induction (map_to_list (CloudJobs.cloud_job t)) as [|[file j] l IH]; simpl; [constructor|].
    inversion Hn as [|? ? Hx Hn']; subst. specialize (IH Hn').
    assert (Hsub : forall x, x ∈ (file_id ∘ snd) <$> omap (scoped_row scope d life t) l -> x ∈ l.*1).
    { intros x ([k r] & -> & ([file' j'] & Hin & Hr)%list_elem_of_omap)%list_elem_of_fmap. unfold scoped_row in Hr. simpl in Hr.
      destruct (_scope_clause scope j'); [|done]. destruct (CloudJobs.files t !! file'); [|done]. injection Hr as <- <-. simpl.
      apply list_elem_of_fmap. by exists (file', j'). }
    unfold scoped_row at 1. simpl. destruct (_scope_clause scope j); [|done]. destruct (CloudJobs.files t !! file); [|done]. simpl.
    constructor; [|done]. intros Hin. by apply Hx, Hsub. }
  unfold ids, targets. revert H. generalize (scoped_rows scope d life t). intros l. induction l as [|r l IH]; simpl; intros H; [constructor|].
  inversion H as [|? ? Hx Hn]; subst. destruct (is_reset r); simpl; [|by apply IH]. constructor; [|by apply IH].
  intros (r' & E & [Hin _]%list_elem_of_In%filter_In)%list_elem_of_fmap. apply Hx. rewrite E. apply list_elem_of_fmap. exists r'. split; [done|by apply list_elem_of_In].
Qed.
Lemma in_scope_of_id t file j : CloudJobs.cloud_job t !! file = Some j -> file ∈ ids t -> _scope_clause scope j = true.
Proof. intros Hj (j' & f & Hj' & Hs & _)%elem_of_ids. congruence. Qed.

Lemma reset_job now t file :
  CloudJobs.cloud_job (reset_tables now t) !! file = (fun j => if bool_decide (file ∈ ids t) then reset_row now j else j) <$> CloudJobs.cloud_job t !! file.
Proof.
  unfold reset_tables, reset_update. simpl. rewrite map_lookup_imap. destruct (CloudJobs.cloud_job t !! file) as [j|] eqn:Hj; [|done]. simpl.
  case_bool_decide as Hin; [|done]. by rewrite (in_scope_of_id _ _ _ Hj Hin).
Qed.

Lemma unfold_chain_other r m file : file <> file_id r -> unfold_chain r m !! file = m !! file.
Proof. intros Hne. unfold unfold_chain. destruct (ledger_action r); try done; [by rewrite lookup_delete_ne|by rewrite lookup_alter_ne]. Qed.

Lemma unfold_chain_local r m m' : m !! file_id r = m' !! file_id r -> unfold_chain r m !! file_id r = unfold_chain r m' !! file_id r.
Proof. intros H. unfold unfold_chain. destruct (ledger_action r); try done; [by rewrite !lookup_delete_eq|by rewrite !lookup_alter_eq, H]. Qed.

Lemma unfold_others l m file : file ∉ file_id <$> l -> foldl (fun m r => unfold_chain r m) m l !! file = m !! file.
Proof.
  revert m. induction l as [|r l IH]; intros m Hn; simpl; [done|]. rewrite fmap_cons, not_elem_of_cons in Hn. destruct Hn as [Hne Hn].
  rewrite IH by done. by apply unfold_chain_other.
Qed.

Lemma unfold_one l m r : NoDup (file_id <$> l) -> r ∈ l -> foldl (fun m r => unfold_chain r m) m l !! file_id r = unfold_chain r m !! file_id r.
Proof.
  revert m. induction l as [|r' l IH]; intros m Hn Hr; [by apply elem_of_nil in Hr|]. rewrite fmap_cons in Hn. inversion Hn as [|? ? Hx Hn']; subst. simpl.
  apply elem_of_cons in Hr as [->|Hr]; [by apply unfold_others|]. rewrite IH by done. apply unfold_chain_local, unfold_chain_other.
  intros E. apply Hx. rewrite <- E. apply list_elem_of_fmap. eauto.
Qed.

Lemma reset_budget now t file j :
  CloudJobs.cloud_job t !! file = Some j -> file ∈ ids t ->
  cloud_budget (reset_tables now t) !! file = unfold_chain (_classify scope d (life file) (cloud_budget t !! file) file j) (cloud_budget t) !! file.
Proof.
  intros Hj Hin. pose proof Hin as (j' & f & Hj' & Hs & Hf & Hr)%elem_of_ids. assert (j' = j) as -> by congruence.
  unfold reset_tables, reset_update. simpl. apply (unfold_one (targets t) _ (_classify scope d (life file) (cloud_budget t !! file) file j)); [apply ids_NoDup|].
  apply list_elem_of_In, filter_In. split; [|by apply is_reset_resettable]. apply list_elem_of_In, elem_of_scoped. by exists file, j, f.
Qed.

(** A second run has nothing to do. *)
Lemma reset_twice now t : 1 <= attempts_floor scope -> targets (reset_tables now t) = [].
Proof.
  intros Hfloor. cut (ids (reset_tables now t) = []).
  { unfold ids. by destruct (targets _). }
  apply elem_of_nil_inv. intros file (j & f & Hj & Hs & Hf & Hr)%elem_of_ids. rewrite reset_job in Hj.
  destruct (CloudJobs.cloud_job t !! file) as [j0|] eqn:Hj0; [|done]. simpl in Hj. injection Hj as Hj. case_bool_decide as Hin; subst j.
  - unfold _scope_clause in Hs. simpl in Hs. bool_prop. rewrite Z.geb_leb in *. bool_prop. lia.
  - apply Hin, elem_of_ids. exists j0, f. done.
Qed.
End effect.

(** ** The command *)

(** What is committed, and what the session sees. *)
Definition holds (c v : CloudJobs.tables) (w : world) : Prop := committed w = c /\ view w = v.
Definition undone (c : CloudJobs.tables) (w : world) : Prop := committed w = c.

Section command.
Context (stmt_ok : nat -> bool) (commit_at : nat -> commit_fate).
Context (scope : ResetScope) (d : db) (life : string -> Lifecycle) (now : datetime).

Abbreviation alone := (fun (_ : nat) (t : CloudJobs.tables) => t).
Abbreviation stmt1 := (CloudJobs.stmt alone stmt_ok).

Lemma holds_stmt {A} c v (g : CloudJobs.tables -> CloudJobs.tables * A) :
  triple (holds c v) (stmt1 (fun _ => g)) (fun a w => a = (g v).2 /\ holds c (g v).1 w) (undone c).
Proof.
  intros w [Hc Hv]. unfold CloudJobs.stmt. simpl. destruct (poisoned w); [done|]. destruct (stmt_ok (calls w)); [|done].
  rewrite Hv. destruct (g v) as [t a] eqn:E. done.
Qed.

Lemma triple_bind_pure {A B} P (m : M A) (k : A -> M B) (a0 : A) P' Q R :
  triple P m (fun a w => a = a0 /\ P' w) R -> triple P' (k a0) Q R -> triple P (bind m k) Q R.
Proof. intros Hm Hk. eapply triples_bind; [exact Hm|]. intros a w [-> Hw]. by apply Hk. Qed.

(** A statement of known effect, then the rest. *)
Lemma holds_then {A B} c v (g : CloudJobs.tables -> CloudJobs.tables * A) (k : A -> M B) Q R :
  (forall w, undone c w -> R w) ->
  triple (holds c (g v).1) (k (g v).2) Q R -> triple (holds c v) (bind (stmt1 (fun _ => g)) k) Q R.
Proof.
  intros HR Hk. eapply triple_bind_pure; [|exact Hk]. eapply triple_weaken; [apply (holds_stmt c v g)|..]; naive_solver.
Qed.

Lemma holds_unfold c v l m n :
  triple (holds c v) (unfold_all alone stmt_ok l m n)
    (fun _ => holds c (set_cloud_budget (foldl (fun m r => unfold_chain r m) (cloud_budget v) l) v)) (undone c).
Proof.
  revert v m n. induction l as [|r l IH]; intros v m n; simpl; [by intros w []; destruct v|].
  assert (Hsame : forall x, unfold_chain r x = match ledger_action r with CLEARED | DECREMENTED => unfold_chain r x | _ => x end)
    by (intros x; unfold unfold_chain; by destruct (ledger_action r)).
  rewrite Hsame. destruct (ledger_action r); try apply IH;
    (apply (holds_then c v (fun t => (set_cloud_budget (unfold_chain r (cloud_budget t)) t, tt))); [done|]; apply (IH (set_cloud_budget _ v))).
Qed.

Lemma reset_count t : (reset_update now scope (ids scope d life t) t).2 = Z.of_nat (length (targets scope d life t)).
Proof.
  unfold reset_update. simpl. f_equal.
  set (hit := fun p : string * CloudJobs.CloudJob => _). transitivity (length (ids scope d life t)); [|unfold ids; by rewrite length_fmap].
  rewrite <- (length_fmap fst (List.filter hit _)). apply Permutation_length, NoDup_Permutation; [|apply ids_NoDup|].
  - pose proof (NoDup_fst_map_to_list (CloudJobs.cloud_job t)) as Hn. induction (map_to_list (CloudJobs.cloud_job t)) as [|p l IH]; simpl; [constructor|].
    inversion Hn as [|? ? Hx Hn']; subst. specialize (IH Hn'). destruct (hit p); [|done]. simpl. constructor; [|done].
    intros (q & E & [Hq _]%list_elem_of_In%filter_In)%list_elem_of_fmap. apply Hx. rewrite E. apply list_elem_of_fmap. exists q. split; [done|by apply list_elem_of_In].
  - intros file. rewrite list_elem_of_fmap. split.
    + intros ([file' j] & -> & [_ Hh]%list_elem_of_In%filter_In). unfold hit in Hh. apply andb_true_iff in Hh as [Hh _]. by apply bool_decide_eq_true in Hh.
    + intros Hin. pose proof Hin as (j & f & Hj & Hs & _)%elem_of_ids. exists (file, j). split; [done|]. apply list_elem_of_In, filter_In.
      split; [by apply list_elem_of_In, elem_of_map_to_list|]. unfold hit. simpl. by rewrite Hs, bool_decide_eq_true_2.
Qed.

Abbreviation run := (_run_reset_cloud_attempts alone stmt_ok commit_at (fun _ => d) (fun _ => life) now scope).

(** The report of a run on the tables [t]. *)
Definition report_of (apply : bool) (t : CloudJobs.tables) (r : ResetReport) : Prop :=
  report_rows r = scoped_rows scope d life t /\ applied r = apply /\
  rows_reset r = (if apply then Z.of_nat (length (targets scope d life t)) else 0).

Lemma reset_nothing t : targets scope d life t = [] -> reset_tables scope d life now t = t.
Proof.
  intros El. unfold reset_tables, ids. rewrite El. unfold reset_update. simpl. destruct t as [f j b le ag]. unfold set_cloud_job, set_cloud_budget. simpl.
  f_equal. apply map_eq. intros i. rewrite map_lookup_imap. simpl. destruct (j !! i) as [x|]; [|done]. simpl.
  done.
Qed.

Lemma holds_apply t :
  triple (holds t t) (apply_reset alone stmt_ok (fun _ => d) (fun _ => life) now scope)
    (fun r w => report_of true t r /\ holds t (reset_tables scope d life now t) w) (undone t).
Proof.
  apply (holds_then t t (fun t => (t, tt))); [done|]. apply (holds_then t t (fun t => (t, scoped_rows scope d life t))); [done|].
  cbv beta iota delta [fst snd]. change (List.filter is_reset (scoped_rows scope d life t)) with (targets scope d life t).
  destruct (targets scope d life t) as [|r0 l0] eqn:El.
  - intros w Hw. rewrite reset_nothing by done. split; [by unfold report_of; rewrite El|done].
  - rewrite <- El. eapply triples_bind; [apply holds_unfold|]. intros n.
    eapply holds_then with (g := fun t' => reset_update now scope (file_id <$> targets scope d life t) t'); [done|].
    intros w Hw. split; [|exact Hw]. split_and!; [done|done|]. simpl. apply (reset_count t).
Qed.

Lemma holds_preview t :
  triple (holds t t) (preview_reset alone stmt_ok (fun _ => d) (fun _ => life) scope) (fun r w => report_of false t r /\ holds t t w) (undone t).
Proof. apply (holds_then t t (fun t => (t, scoped_rows scope d life t))); [done|]. intros w Hw. done. Qed.

Lemma run_dry w t :
  holds t t w ->
  let (w', r) := run false w in
  match r with
  | Ok (code, report) => code = 0 /\ report_of false t report /\ committed w' = t
  | Raise _ => committed w' = t
  end.
Proof.
  intros Hw. enough (H : triple (holds t t) (run false) (fun cr w' => cr.1 = 0 /\ report_of false t cr.2 /\ undone t w') (undone t)).
  { specialize (H w Hw). destruct (run false w) as [w' [[code rep]|e]]; [naive_solver|done]. }
  apply (holds_then t t (fun t => (t, tt))); [done|]. eapply triples_bind; [apply holds_preview|]. intros rep w0 [Hr [Hc _]]. done.
Qed.

Lemma run_apply w t :
  holds t t w ->
  let (w', r) := run true w in
  match r with
  | Ok (code, report) => code = 0 /\ report_of true t report /\ committed w' = reset_tables scope d life now t
  | Raise _ => committed w' = t \/ committed w' = reset_tables scope d life now t
  end.
Proof.
  intros Hw. pose proof (holds_apply t w Hw) as Ha.
  unfold _run_reset_cloud_attempts, bind at 1. destruct (apply_reset _ _ _ _ _ _ w) as [w1 [rep|e]]; [|by left]. destruct Ha as [Hr [Hc Hv1]].
  pose proof Hr as (Hrows & Happ & Hn). assert (Hlen : rows_reset rep =? Z.of_nat (length (to_reset rep)) = true).
  { apply Z.eqb_eq. rewrite Hn. unfold to_reset, targets. by rewrite Hrows. }
  rewrite Hlen. simpl. unfold bind at 1, CloudJobs.commit. simpl. destruct (poisoned w1); [by left|].
  destruct (commit_at (calls w1)); simpl; auto.
Qed.

(** C37: a reset is all or nothing.  Whatever statement or commit fails, a run
    that ends has written exactly the reset of every row it reports, or
    nothing in a dry run; a run that fails has written nothing, or all of it
    when only the answer of the commit was lost. *)
Theorem reset_is_atomic apply w :
  view w = committed w ->
  let (w', r) := run apply w in
  let t := committed w in
  match r with
  | Ok (code, report) => code = 0 /\ report_of apply t report /\ committed w' = (if apply then reset_tables scope d life now t else t)
  | Raise _ => committed w' = t \/ apply = true /\ committed w' = reset_tables scope d life now t
  end.
Proof.
  intros Hv. destruct apply; [pose proof (run_apply w _ (conj eq_refl Hv)) as H|pose proof (run_dry w _ (conj eq_refl Hv)) as H];
    destruct (run _ w) as [w' [[code rep]|e]]; naive_solver.
Qed.

(** What the fold of a burned-out chain leaves. *)
Lemma fold_leaves cfg file a exp u clr w w1 j0 :
  poisoned w = false -> cap_attempts cfg <= a -> CloudJobs.cloud_job (view w) !! file = Some j0 -> parked_spent cfg (view w) file = false ->
  CloudJobs.hold_awaiting_cloud alone stmt_ok cfg now file a exp u clr w = (w1, Ok true) ->
  (exists ph, CloudJobs.cloud_job (view w1) !! file =
    Some (Job AWAITING (job_backend_id j0) (s3_key j0) (upload_id j0) (staging_bucket j0) a (node_loss_redrives j0) ph now)) /\
  cloud_budget (view w1) = record_cloud_budget_spent now file a (node_loss_redrives j0) (cloud_budget (view w)) /\
  CloudJobs.files (view w1) = CloudJobs.files (view w).
Proof.
  intros Hp Ha Hj Hs Hrun. unfold parked_spent in Hs. rewrite Hj in Hs.
  assert (Hge : a >=? cap_attempts cfg = true) by (rewrite Z.geb_leb; by apply Z.leb_le).
  assert (Hlt : a <? cap_attempts cfg = false) by (apply Z.ltb_ge; lia).
  revert Hrun. unfold CloudJobs.hold_awaiting_cloud, CloudJobs.query. rewrite Hge. unfold bind at 1. rewrite stmt_alone by done.
  destruct (stmt_ok (calls w)); [|by intros [= ]]. simpl. rewrite Hj. unfold _fold_spent_budget_if_edge. rewrite Hlt. simpl. rewrite Hs.
  destruct exp as [l|]; unfold bind, CloudJobs.stmt, elapse; simpl; rewrite Hp; (destruct (stmt_ok (S (calls w))); [|by intros [= ]]).
  - unfold spill_cas. rewrite Hj. destruct (bool_decide (status j0 ∈ l) && _); [|by unfold ret; intros [= ]]. simpl.
    destruct (stmt_ok (S (S (calls w)))); [|by intros [= ]]. unfold ret. intros [= <-]. simpl. rewrite lookup_insert_eq. eauto.
  - simpl. destruct (stmt_ok (S (S (calls w)))); [|by intros [= ]]. unfold ret. intros [= <-]. unfold hold_upsert. rewrite Hj. simpl. rewrite lookup_insert_eq. eauto.
Qed.
End command.

Section undo.
Context (stmt_ok : nat -> bool) (commit_at : nat -> commit_fate) (cfg : CloudSettings).
Context (scope : ResetScope) (d : db) (life : string -> Lifecycle) (spill_at reset_at : datetime).

Abbreviation alone := (fun (_ : nat) (t : CloudJobs.tables) => t).

(** The verdict reads one column of the row. *)
Lemma resettable_by_redrives file j j' : node_loss_redrives j = node_loss_redrives j' -> resettable scope d life file j -> resettable scope d life file j'.
Proof. unfold resettable, _classify, _node_loss_clause. simpl. by intros ->. Qed.

Lemma resettable_no_loss file j : resettable scope d life file j -> node_loss_redrives j <= 0.
Proof.
  unfold resettable, _classify, _node_loss_clause. simpl. repeat (destruct (applied_clause _ _) || destruct (analyze_done _ _) || destruct (inflight_clause _ _ _)); try done.
  rewrite Z.gtb_ltb. destruct (0 <? node_loss_redrives j) eqn:E; [done|]. apply Z.ltb_ge in E. lia.
Qed.

Lemma unfold_undoes_fold r m a :
  (forall b, m !! file_id r = Some b -> 1 <= chains_spent b /\ 0 <= attempts_spent b) -> row_attempts r = a ->
  ledger_action r = match m !! file_id r with Some _ => DECREMENTED | None => CLEARED end ->
  unfold_chain r (record_cloud_budget_spent spill_at (file_id r) a 0 m) !! file_id r =
  (fun b => CloudBudget (chains_spent b) (attempts_spent b) (node_loss_spent b) spill_at) <$> m !! file_id r.
Proof.
  intros Hwf Ha Hact. unfold unfold_chain, record_cloud_budget_spent. rewrite Hact. destruct (m !! file_id r) as [b|] eqn:Hb.
  - destruct (Hwf b eq_refl). rewrite lookup_alter_eq, lookup_insert_eq. simpl. f_equal. f_equal; lia.
  - by rewrite lookup_delete_eq.
Qed.

(** C29: a reset gives back exactly the chain that burned out.  A file whose
    attempts ran out inside the window of the scope, and which the reset may
    touch, has after the reset the lifetime budget it had before that chain,
    with the cooldown clock of an earlier chain left where this chain put it,
    and rests in the window with no attempt spent. *)
Theorem reset_undoes_fold file a exp u clr j0 f w w1 w2 rep :
  poisoned w = false -> cap_attempts cfg <= a -> attempts_floor scope <= a -> in_window scope spill_at = true ->
  CloudJobs.cloud_job (view w) !! file = Some j0 -> job_backend_id j0 = Some (scope_backend scope) -> 0 <= node_loss_redrives j0 ->
  parked_spent cfg (view w) file = false -> CloudJobs.files (view w) !! file = Some f -> resettable scope d life file j0 ->
  (forall b, cloud_budget (view w) !! file = Some b -> 1 <= chains_spent b /\ 0 <= attempts_spent b) ->
  CloudJobs.hold_awaiting_cloud alone stmt_ok cfg spill_at file a exp u clr w = (w1, Ok true) ->
  _run_reset_cloud_attempts alone stmt_ok commit_at (fun _ => d) (fun _ => life) reset_at scope true (empty_world (view w1)) = (w2, Ok (0, rep)) ->
  cloud_budget (committed w2) !! file = (fun b => CloudBudget (chains_spent b) (attempts_spent b) (node_loss_spent b) spill_at) <$> cloud_budget (view w) !! file /\
  exists j, CloudJobs.cloud_job (committed w2) !! file = Some j /\
    status j = AWAITING /\ attempts j = 0 /\ updated_at j = reset_at /\ job_backend_id j = Some (scope_backend scope).
Proof.
  intros Hp Ha Hfl Hwin Hj Hb Hnl Hs Hf Hr Hwf Hhold Hrun.
  destruct (fold_leaves stmt_ok spill_at cfg file a exp u clr w w1 j0 Hp Ha Hj Hs Hhold) as ([ph Hj1] & Hm & Hfs).
  pose proof (run_apply stmt_ok commit_at scope d life reset_at (empty_world (view w1)) (view w1) (conj eq_refl eq_refl)) as Hc.
  rewrite Hrun in Hc. destruct Hc as (_ & _ & ->).
  set (j1 := Job AWAITING (job_backend_id j0) (s3_key j0) (upload_id j0) (staging_bucket j0) a (node_loss_redrives j0) ph spill_at) in *.
  assert (Hr1 : resettable scope d life file j1) by by apply (resettable_by_redrives file j0).
  assert (Hsc : _scope_clause scope j1 = true).
  { unfold _scope_clause. simpl. rewrite Hb, Hwin, !bool_decide_eq_true_2 by done. rewrite Z.geb_leb, (proj2 (Z.leb_le _ _) Hfl). done. }
  assert (Hin : file ∈ ids scope d life (view w1)) by (apply elem_of_ids; exists j1, f; by rewrite Hfs).
  split.
  - rewrite (reset_budget scope d life reset_at (view w1) file j1 Hj1 Hin), Hm. apply resettable_no_loss in Hr as Hz.
    replace (node_loss_redrives j0) with 0 by lia.
    apply (unfold_undoes_fold (_classify scope d (life file) (record_cloud_budget_spent spill_at file a 0 (cloud_budget (view w)) !! file) file j1)); [done|done|].
    unfold resettable, _classify in Hr1. unfold _classify. simpl in Hr1 |- *. rewrite Hr1. unfold record_cloud_budget_spent. rewrite lookup_insert_eq.
    destruct (cloud_budget (view w) !! file) as [b|] eqn:Eb; simpl; rewrite Hwin; simpl; [|done].
    destruct (Hwf b eq_refl). by rewrite (proj2 (Z.leb_gt _ _)) by lia.
  - exists (reset_row reset_at j1). rewrite reset_job, Hj1. simpl. by rewrite bool_decide_eq_true_2.
Qed.
End undo.

(** ** Examples *)

Definition demo_scope : ResetScope := Scope "burst" (Datetime true 0) (Datetime true 100) 3.
Definition demo_db : db := Db ∅ ∅ ∅ [] [] ∅ ∅ ∅ [] [] [] [].
Definition demo_job : CloudJobs.CloudJob := Job RUNNING (Some "burst"%string) None None None 2 0 None (Datetime true 10).
Definition demo_file : FileRecord := CloudJobs.File "/a.mp3" "mp3" 1 0 None.
Definition demo_tables : CloudJobs.tables :=
  Tables {["f" := demo_file]} {["f" := demo_job]} {["f" := CloudBudget 1 3 0 (Datetime true 5)]} ∅ ∅.
Definition demo_spilled : world :=
  (CloudJobs.hold_awaiting_cloud (fun _ t => t) (fun _ => true) (demo_settings []) (Datetime true 60) "f" 3 (Some [RUNNING]) None true (empty_world demo_tables)).1.
Definition demo_reset (commit_at : nat -> commit_fate) : world * outcome cexn (Z * ResetReport) :=
  _run_reset_cloud_attempts (fun _ t => t) (fun _ => true) commit_at (fun _ => demo_db) (fun _ _ => no_lifecycle) (Datetime true 200) demo_scope true
    (empty_world (view demo_spilled)).

Lemma reset_is_atomic_witness :
  (rows_reset <$> (snd <$> match (demo_reset (fun _ => Committed)).2 with Ok x => Some x | Raise _ => None end)) = Some 1 /\
  committed (demo_reset (fun _ => Refused)).1 <> reset_tables demo_scope demo_db (fun _ => no_lifecycle) (Datetime true 200) (view demo_spilled) /\
  match demo_reset (fun _ => Committed) with
  | (w', Ok (code, _)) => code = 0 /\ committed w' = reset_tables demo_scope demo_db (fun _ => no_lifecycle) (Datetime true 200) (view demo_spilled)
  | _ => False
  end.
Proof.
  pose proof (reset_is_atomic (fun _ => true) (fun _ => Committed) demo_scope demo_db (fun _ => no_lifecycle) (Datetime true 200) true
    (empty_world (view demo_spilled)) eq_refl) as H.
  fold (demo_reset (fun _ => Committed)) in H. split; [vm_compute; reflexivity|]. split.
  - intros E. apply (f_equal (fun t => attempts <$> CloudJobs.cloud_job t !! "f"%string)) in E. vm_compute in E. discriminate E.
  - assert (Hok : match (demo_reset (fun _ => Committed)).2 with Ok _ => true | Raise _ => false end = true) by (vm_compute; reflexivity).
    destruct (demo_reset (fun _ => Committed)) as [w' [[code rep]|e]]; [|discriminate Hok]. destruct H as (H1 & _ & H2). exact (conj H1 H2).
Defined.

Lemma reset_undoes_fold_witness :
  cloud_budget (view demo_spilled) !! "f"%string = Some (CloudBudget 2 6 0 (Datetime true 60)) /\
  cloud_budget (committed (demo_reset (fun _ => Committed)).1) !! "f"%string = Some (CloudBudget 1 3 0 (Datetime true 60)).
Proof.
  split; [vm_compute; reflexivity|].
  assert (Hh : CloudJobs.hold_awaiting_cloud (fun _ t => t) (fun _ => true) (demo_settings []) (Datetime true 60) "f" 3 (Some [RUNNING]) None true
    (empty_world demo_tables) = (demo_spilled, Ok true)) by (vm_compute; reflexivity).
  destruct (demo_reset (fun _ => Committed)) as [w2 r] eqn:Er.
  assert (Hr : exists rep, r = Ok (0, rep)) by (apply (f_equal snd) in Er; vm_compute in Er; rewrite <- Er; eexists; reflexivity).
  destruct Hr as [rep ->].
  exact (proj1 (reset_undoes_fold (fun _ => true) (fun _ => Committed) (demo_settings []) demo_scope demo_db (fun _ => no_lifecycle) (Datetime true 60)
    (Datetime true 200) "f" 3 (Some [RUNNING]) None true demo_job demo_file (empty_world demo_tables) demo_spilled w2 rep
    eq_refl ltac:(vm_compute; discriminate) ltac:(vm_compute; discriminate) eq_refl eq_refl eq_refl ltac:(vm_compute; discriminate) eq_refl eq_refl eq_refl
    ltac:(intros b E; vm_compute in E; injection E as <-; simpl; lia) Hh Er)).
Defined.
